(* ===== verification/_CoqProject ===== *)
-Q . S2P
Prelude.v
GoStrings.v
GoFlag.v
GoNumbers.v
GoFmt.v
Hostnames.v
Proto.v
Headers.v
Channels.v
ResponseState.v
Server.v
Steps.v
Scenario.v
Abstract.v
Invariants.v
Origins.v
ServerConfig.v
Routing.v
Sessions.v
Stalls.v
Pipeline.v
Edge.v
Frames.v
Messages.v
Forward.v
Wire.v
WebSocket.v
Replies.v
Listening.v
Failures.v
Outcomes.v
ResponseWriter.v
Url.v
Logging.v
Client.v
Dial.v
Session.v
Delivery.v
Answering.v
Talk.v
EndToEnd.v
System.v
Partial.v
Sockets.v
EdgeConfig.v
EdgeMain.v
Shutdown.v
Limits.v
DemoClient.v
PerfStats.v
PerfClient.v
PerfLoad.v
PerfRun.v
PerfReport.v
