(* ===== verification/Prelude.v ===== *)
(** * Muxbridge: a verification development

    Muxbridge puts an HTTP server behind a public edge.  A tunnel client ([src/tunnel])
    dials the edge over gRPC, registers with a token and keeps one bidirectional stream
    open.  The edge ([src/server], started by [src/cmd/edge]) takes the requests of
    browsers, finds the session of the request's host, and multiplexes requests, responses
    and WebSocket messages over its stream as frames ([src/gen/tunnelpb]); the client hands
    each request to a local [http.Handler] and sends back what that handler writes.  Two
    more commands use the client: a demo ([src/cmd/demo-client]) and a load generator
    ([src/cmd/perf-client]).

    ** How the model is made

    Definitions are executable: fallible code returns [result] or [option], a loop over a
    slice is a [foldM] or a structural [Fixpoint], maps are [gmap]s.  A pointer is an index
    into a heap (sessions, response states, WebSockets, pipes), so that two goroutines that
    hold the same pointer see each other's changes.  A goroutine is a thread: its program
    counter with its local variables.  One step of a thread is one critical section, atomic
    operation, channel operation, [select] or call to the outside; [exec] runs one labelled
    step and is a function, a schedule is a list of labels, and every interleaving is some
    schedule.  A label also says which ready arm of a [select] is taken and what the outside
    (the network, a browser, a clock, the user's handler) answers.  A theorem about [run]
    for all lists of labels is therefore about all interleavings and all answers.

    Go's iteration order over a map is a parameter of the functions that range over one
    ([New_range], [ToProto_range], [Copy_range]); the results do not depend on it.  The
    Unicode tables behind [strings.ToLower] and [strings.TrimSpace] are the class
    [UnicodeData]; bytes below 128 are computed.

    ** Files

    Shared: Prelude (results, machine integers, tactics, lists), GoStrings ([strings],
    UTF-8), GoFlag ([flag], [filepath.Clean], [strconv.ParseBool]), GoNumbers ([strconv],
    [time.ParseDuration], float64), GoFmt ([%q], durations), Channels (errors, bounded
    channels, [sync.Once]), Proto (the messages of tunnel.pb.go as records and sums), Frames
    and Messages (the frames of one request, of its response and of a WebSocket, in a list).

    Pure parts: Hostnames (internal/hostnames), Headers (internal/headers), Url
    ([requestURL] of tunnel/client.go and what it needs of [net/url]), Logging (the entries
    of the logs of both sides).

    The edge, server/server.go: ResponseState ([responseState], [wsState]); Server (the
    state and every locked or atomic operation on it); Steps ([ServeHTTP],
    [serveWebSocket] and its reader, [Connect], its send loop and heartbeat, as threads);
    Scenario (a small edge to run); Abstract (a coarser account of the steps, [http_abs] and
    [conn_abs], which the handlers refine and the invariants use); Invariants (admission and
    ids); Origins (where the threads of a new state come from); ServerConfig ([New]); Routing
    (which request reaches which session); Sessions (the table and the channels); Pipeline
    (responses, from the response state to the browser) and Replies (from the stream into
    the response state); Forward (requests, from the browser to the stream); Wire (what the
    stream does not take); WebSocket (its messages, both ways) and Listening (from the stream
    into its channel); Failures (handlers of a session that fails); Outcomes (all that a browser
    can get); Stalls (schedules that block); Edge (the theorems on admission and isolation).

    The tunnel client, package tunnel: ResponseWriter (response_writer.go); Client ([New],
    [Run], [Close]); Dial ([runSession] up to its receive loop, [oneConnListener]); Session
    (the receive loop, [serveRequest], [handleWebSocket]); Delivery (what a handler gets of
    the frames received), Answering (what is sent for it) and Talk (WebSockets).

    Both together: EndToEnd composes the two halves by what passes between them; System runs
    an edge and a client's session in one schedule, joined by a stream that keeps the order
    of frames ([linked]), Partial says what holds of an exchange at any moment, and Sockets
    does for WebSockets what System does for requests.

    The commands: EdgeConfig (cmd/edge/config.go), EdgeMain (cmd/edge/main.go), Shutdown
    ([gracefulStopGRPC]), Limits (the largest message the edge receives), DemoClient
    (cmd/demo-client/main.go), and for cmd/perf-client/main.go PerfStats (histogram and
    summary), PerfClient (configuration, scenarios, handlers), PerfLoad ([runLoad]), PerfRun
    ([run], readiness, HTTP clients) and PerfReport (the printed summary).

    ** What is shown

    - The tunnel is transparent: [System.exchange_transparent] for a request and its
      response, [Partial.exchange_anytime] for an unfinished or failed one,
      [Sockets.websocket_transparent] and [Sockets.websocket_complete] for a WebSocket,
      over all interleavings of an edge and a client.
    - Admission: [Edge.inflight_bounded], [Edge.inflight_released],
      [Edge.request_ids_unique].  The atomic counter is the number of registered requests
      plus the slots goroutines hold in between; limits hold in every state, and nothing
      leaks.
    - Isolation: [ServerConfig.public_hosts_apart], [Edge.requests_isolated],
      [Sessions.sessions_live], [EdgeMain.edge_routes].  A request reaches only the client
      whose token's user owns its host, and no request for a user's host is served by the
      edge itself.
    - The parts of the way: [Forward.requests_forwarded] (browser to stream),
      [Session.request_body_in_order] (frames to handler), [ResponseWriter.response_frames]
      (handler to frames), [Pipeline.response_in_order] and [Pipeline.response_complete]
      (response state to browser), [EndToEnd.request_end_to_end],
      [EndToEnd.response_end_to_end], [WebSocket.websocket_in_order];
      [Headers.headers_cross], [Headers.FromProto_keeps] and [Url.requestURL_path] for what
      is carried.
    - What a browser gets at all: [Outcomes.answered_once], one response, one refusal from a
      fixed list or an upgraded connection, and [Outcomes.errors_opaque]: the texts of the
      client's errors and of the stream's change nothing of it.
    - What does not get through: [Limits.oversized_write_lost],
      [Wire.unencodable_stops_stream].
    - Safety of channels and connections: [Sessions.channels_bounded],
      [Session.session_no_panic], [Client.Close_safe], [Dial.dial_releases],
      [EdgeMain.run_releases].
    - Configuration: [ServerConfig.New_accepts], [EdgeConfig.edge_starts],
      [EdgeConfig.parseCredentials_correct], [DemoClient.demo_dials_edge],
      [PerfClient.perf_config] and the theorems of Hostnames.
    - Progress: [Client.Run_returns], [PerfLoad.load_ends],
      [Shutdown.graceful_stop_ends], [Failures.failed_handlers_return], and three schedules
      of the program as it is that block for ever: [Stalls.receive_loop_wedged],
      [Stalls.handler_orphaned], [Session.client_wedged].
    - Logs: [Logging.edge_log_lines], [Logging.edge_log_forged].
    - The commands: [EdgeMain.redirect_keeps], [DemoClient.writeSSEEvent_read],
      [PerfStats.percentile_nearest], [PerfStats.summary_adds_up], [PerfLoad.load_counts],
      [PerfRun.perf_run].

    Each theorem with a hypothesis is followed, at the end of its file, by a witness that
    applies it to a run that is evaluated.

    ** Bounds and fuel

    Theorems that need request ids to be unique are about runs of fewer than 2^64 steps: the
    counter of ids is a uint64, and a longer run could draw an id twice.  Limits are assumed
    to fit into an int64, as the code's type forces.  The only recursion on fuel is
    the parser of durations in GoNumbers, whose fuel is the length of the string;
    [duration_parts_enough] shows that more gives the same answer.  The rank of [percentile_nearest] is
    computed in floating point for each number of requests up to 500; the rest of the
    theorem has no such bound.

    ** Not modelled

    The gRPC library, TLS, HTTP/2 framing and [net/http]'s servers (their answers are
    labels or parameters; the time-outs and limits the commands set are fields of the
    model); the generated gRPC glue and the reflection part of the protobuf code; the text
    of the HTML pages and what the handlers of [net/http/pprof] write; the objects of
    CertMagic; signal handling of the commands; the entries of the client's log about its
    handlers and about dialling.  A heartbeat's period is not modelled: a tick may come at
    any step. *)

From stdpp Require Export base tactics option list list_numbers sorting gmap strings
  pretty relations.
From Stdlib Require Export ZArith Lia Ascii.
From Stdlib Require String.

(** ** Fallible code *)

(** A Go call that returns [(value, error)]: [Ok v] when the error is nil. *)
Inductive result (E A : Type) : Type :=
| Ok (a : A)
| Err (e : E).
Arguments Ok {E A} a.
Arguments Err {E A} e.

#[export] Instance result_ret {E} : MRet (result E) := λ A a, Ok a.
#[export] Instance result_bind {E} : MBind (result E) := λ A B f r,
  match r with Ok a => f a | Err e => Err e end.
#[export] Instance result_fmap {E} : FMap (result E) := λ A B f r,
  match r with Ok a => Ok (f a) | Err e => Err e end.

(** [if err := ...; err != nil { return wrap(err) }]. *)
Definition map_err {E F A} (f : E → F) (r : result E A) : result F A :=
  match r with Ok a => Ok a | Err e => Err (f e) end.

(** An early return guarded by a condition: [if c { return e }]. *)
Definition guard_err {E} (c : bool) (e : E) : result E unit :=
  if c then Err e else Ok tt.

Definition is_ok {E A} (r : result E A) : bool :=
  match r with Ok _ => true | Err _ => false end.

Section result_lemmas.
Context {E A B : Type}.
Implicit Types (r : result E A).

Lemma bind_Ok (f : A → result E B) r b :
  r ≫= f = Ok b ↔ ∃ a, r = Ok a ∧ f a = Ok b.
Proof. destruct r; naive_solver. Qed.

Lemma bind_Err (f : A → result E B) r e :
  r ≫= f = Err e ↔ r = Err e ∨ ∃ a, r = Ok a ∧ f a = Err e.
Proof. destruct r; naive_solver. Qed.

Lemma map_err_Ok {F} (f : E → F) r a : map_err f r = Ok a ↔ r = Ok a.
Proof. destruct r; naive_solver. Qed.

Lemma guard_err_Ok c (e : E) u : guard_err c e = Ok u ↔ c = false.
Proof. destruct c, u; naive_solver. Qed.

Lemma is_ok_true r : is_ok r = true ↔ ∃ a, r = Ok a.
Proof. destruct r; naive_solver. Qed.
End result_lemmas.

(** A [for] loop over a slice whose body may return early with an error. *)
Fixpoint foldM {E A S} (f : S → A → result E S) (s : S) (l : list A) : result E S :=
  match l with
  | [] => Ok s
  | x :: l => s ← f s x; foldM f s l
  end.

Lemma foldM_app {E A S} (f : S → A → result E S) s l1 l2 :
  foldM f s (l1 ++ l2) = (s ← foldM f s l1; foldM f s l2).
Proof.
  revert s; induction l1 as [|x l1 IH]; intros s; [done|].
  simpl. destruct (f s x); simpl; [apply IH|done].
Qed.

(** Invariants of a loop: what each iteration preserves holds at the end. *)
Lemma foldM_inv {E A S} (P : S → Prop) (f : S → A → result E S) l s s' :
  (∀ s x s', x ∈ l → P s → f s x = Ok s' → P s') →
  P s → foldM f s l = Ok s' → P s'.
Proof.
  intros Hstep; revert s; induction l as [|x l IH]; intros s Hs; simpl.
  { by intros [= ->]. }
  rewrite bind_Ok. intros (s1 & Hf & Hrest).
  eapply (IH (λ s x s' Hx, Hstep s x s' (list_elem_of_further _ _ _ Hx)) s1); [|done].
  eapply Hstep; eauto. left.
Qed.

(** ** Machine integers *)

(** Go's [int64] and [int] (64-bit): two's complement wrap-around. *)
Definition wrap_i64 (z : Z) : Z := (z + 2^63) `mod` 2^64 - 2^63.
(** Go's [uint64]. *)
Definition wrap_u64 (z : Z) : Z := z `mod` 2^64.
(** Conversion to [int32]. *)
Definition wrap_i32 (z : Z) : Z := (z + 2^31) `mod` 2^32 - 2^31.

Definition max_i64 : Z := 2^63 - 1.

Lemma wrap_i64_small z : (- 2^63 ≤ z < 2^63)%Z → wrap_i64 z = z.
Proof. intros. unfold wrap_i64. rewrite Z.mod_small; lia. Qed.
Lemma wrap_u64_small z : (0 ≤ z < 2^64)%Z → wrap_u64 z = z.
Proof. intros. unfold wrap_u64. rewrite Z.mod_small; lia. Qed.
Lemma wrap_i32_small z : (- 2^31 ≤ z < 2^31)%Z → wrap_i32 z = z.
Proof. intros. unfold wrap_i32. rewrite Z.mod_small; lia. Qed.

(** ** Automation *)

Create HintDb mux discriminated.
Create Rewrite HintDb mux.
#[export] Hint Rewrite @bind_Ok @bind_Err @map_err_Ok @guard_err_Ok @is_ok_true : mux.

(** Splits conjunctions and existentials of the context. *)
Ltac destruct_all :=
  repeat match goal with
  | H : _ ∧ _ |- _ => destruct H
  | H : ∃ _, _ |- _ => destruct H
  end.

(** Breaks an equation [c = Ok v] of fallible code into its intermediate results. *)
Ltac inv_ok :=
  repeat progress (autorewrite with mux in *; destruct_all; simplify_eq/=).

(** Case analysis on every [match]/[if] of a hypothesis, dropping the branches
    that contradict it. *)
Ltac case_hyp H :=
  repeat (case_match; simplify_eq/=; try done).

(** Opens an equation [f x = Some y] of an executable step and leaves its outcomes. *)
Ltac open_step :=
  repeat match goal with
  | H : (_ ≫= _) = Some _ |- _ => apply bind_Some in H as (? & ? & H)
  | H : (let '(_, _) := ?x in _) = Some _ |- _ => destruct x eqn:?
  | H : (match ?x with _ => _ end) = Some _ |- _ => destruct x eqn:?; try done
  | H : Some _ = Some _ |- _ => injection H; clear H; intros; subst
  end.

(** ** Lists *)

Lemma length_omap_le {A B} (f : A → option B) l : length (omap f l) ≤ length l.
Proof. induction l as [|x l IH]; csimpl; [lia|]. destruct (f x); csimpl; lia. Qed.

Lemma prefix_omap {A B} (f : A → option B) l l' : l `prefix_of` l' → omap f l `prefix_of` omap f l'.
Proof. intros [k ->]. rewrite omap_app. by eexists. Qed.

Lemma sum_list_with_insert {A} (f : A → nat) l i x y :
  l !! i = Some x →
  sum_list_with f (<[i:=y]> l) + f x = sum_list_with f l + f y.
Proof.
  revert i; induction l as [|z l IH]; intros [|i] H; simplify_eq/=; [lia|].
  specialize (IH _ H). lia.
Qed.

Lemma sum_list_with_zero {A} (f : A → nat) l :
  (∀ x, x ∈ l → f x = 0) → sum_list_with f l = 0.
Proof.
  induction l as [|x l IH]; intros H; simpl; [done|].
  rewrite H by left. rewrite IH; [done|]. intros; apply H; by right.
Qed.

Lemma sum_list_with_zero_inv {A} (f : A → nat) l x :
  sum_list_with f l = 0 → x ∈ l → f x = 0.
Proof. intros H Hx. pose proof (sum_list_with_in x f l Hx). lia. Qed.

Lemma sum_list_with_ext {A} (f g : A → nat) l :
  (∀ x, x ∈ l → f x = g x) → sum_list_with f l = sum_list_with g l.
Proof.
  induction l as [|x l IH]; intros H; simpl; [done|].
  rewrite H by left. rewrite IH; [done|]. intros; apply H; by right.
Qed.

Lemma lookup_snoc_cases {A} (l : list A) x i y :
  (l ++ [x]) !! i = Some y ↔ l !! i = Some y ∨ (i = length l ∧ x = y).
Proof.
  split.
  - intros [?|[? H]]%lookup_app_Some; [by left|right].
    apply list_lookup_singleton_Some in H as [? ->]. split; [lia|done].
  - intros [H|[-> ->]]; [by apply lookup_app_l_Some|].
    by rewrite list_lookup_middle.
Qed.

Lemma insert_lookup_cases {A} (l : list A) i x j y :
  <[i:=x]> l !! j = Some y →
  (i = j ∧ x = y ∧ i < length l) ∨ (i ≠ j ∧ l !! j = Some y).
Proof. rewrite list_lookup_insert_Some. naive_solver. Qed.

Lemma prefix_sublist {A} (l k : list A) : l `prefix_of` k → l `sublist_of` k.
Proof. intros [m ->]. by apply sublist_inserts_r. Qed.

(** An initial part that does not have an element ends before it. *)
Lemma prefix_before {A} (l pre post : list A) x :
  l `prefix_of` pre ++ x :: post → x ∉ l → l `prefix_of` pre.
Proof.
  revert pre. induction l as [|y l IH]; intros pre Hl Hx; [apply prefix_nil|].
  destruct pre as [|z pre]; simpl in Hl.
  - apply prefix_cons_inv_1 in Hl as ->. destruct Hx. left.
  - pose proof (prefix_cons_inv_1 _ _ _ _ Hl) as ->. apply prefix_cons, IH.
    + by eapply prefix_cons_inv_2.
    + intros Hin. apply Hx. by right.
Qed.

(** A loop that appends [g x] to a slice unless [p x]. *)
Lemma foldl_collect {A B} (p : A → bool) (g : A → B) l acc :
  foldl (λ out x, if p x then out else out ++ [g x]) acc l
  = acc ++ (g <$> filter (λ x, p x = false) l).
Proof.
  revert acc; induction l as [|x l IH]; intros acc; simpl; [by rewrite app_nil_r|].
  rewrite IH, filter_cons. destruct (p x); simpl; [done|]. by rewrite <-app_assoc.
Qed.

(** A loop that stores the entries of a slice in a map. *)
Lemma foldl_insert_list_to_map `{Countable K} {V} (l : list (K * V)) :
  foldl (λ (m : gmap K V) kv, <[kv.1 := kv.2]> m) ∅ l = list_to_map (reverse l).
Proof.
  induction l as [|[k v] l IH] using rev_ind; [done|].
  rewrite foldl_app, reverse_app. simpl. by rewrite IH.
Qed.

Lemma NoDup_fst_filter {A B} (P : A * B → Prop) `{!∀ x, Decision (P x)} l :
  NoDup l.*1 → NoDup (filter P l).*1.
Proof.
  induction l as [|x l IH]; [done|]. rewrite fmap_cons, NoDup_cons, filter_cons.
  intros [Hx Hl]. case_decide; [|auto]. rewrite fmap_cons, NoDup_cons. split; [|auto].
  contradict Hx. apply list_elem_of_fmap in Hx as (y & -> & [_ Hy]%list_elem_of_filter).
  by apply list_elem_of_fmap_2.
Qed.

Lemma map_size_insert_le `{Countable K} {V} (m : gmap K V) i x :
  size (<[i := x]> m) ≤ S (size m).
Proof. rewrite map_size_insert. destruct (m !! i); unfold Datatypes.id; lia. Qed.
Lemma map_size_delete_le `{Countable K} {V} (m : gmap K V) i :
  size (delete i m) ≤ size m.
Proof. rewrite map_size_delete. destruct (m !! i); unfold Datatypes.id; lia. Qed.

Lemma foldl_insert_lookup `{Countable K} {A V} (g : A → K) (f : A → V) (l : list A) k v :
  NoDup (g <$> l) →
  foldl (λ (m : gmap K V) x, <[g x := f x]> m) ∅ l !! k = Some v ↔
  ∃ x, x ∈ l ∧ g x = k ∧ f x = v.
Proof.
  intros Hnd.
  assert (∀ m, foldl (λ (m : gmap K V) x, <[g x := f x]> m) m l =
    foldl (λ (m : gmap K V) kv, <[kv.1 := kv.2]> m) m ((λ x, (g x, f x)) <$> l)) as ->.
  { clear Hnd. induction l as [|x l IH]; intros m; [done|apply IH]. }
  rewrite foldl_insert_list_to_map, <-elem_of_list_to_map.
  - rewrite elem_of_reverse, list_elem_of_fmap. naive_solver.
  - rewrite fmap_reverse, <-list_fmap_compose, reverse_Permutation. exact Hnd.
Qed.
