(* ===== verification/GoStrings.v ===== *)
(** * The parts of Go's [strings], [unicode/utf8], [strconv] and [net] packages the
      program uses, on byte strings.

    A Go string is a sequence of bytes; here a [string] of 8-bit [ascii]s.  The one
    thing the functions below do not define is the Unicode case-mapping table for
    runes outside ASCII: it is the parameter [unicode_to_lower] of the class
    [UnicodeData]. *)

From S2P Require Import Prelude.

Local Open Scope N_scope.

(** The case table of the [unicode] package for runes of 128 and above. *)
Class UnicodeData := { unicode_to_lower : N → N }.

(** ** Bytes *)

Definition code (c : ascii) : N := N_of_ascii c.

Definition is_upper (c : ascii) : bool := (65 <=? code c) && (code c <=? 90).
Definition is_lower (c : ascii) : bool := (97 <=? code c) && (code c <=? 122).
Definition is_digit (c : ascii) : bool := (48 <=? code c) && (code c <=? 57).
Definition is_ascii_byte (c : ascii) : bool := code c <? 128.

Definition lower_byte (c : ascii) : ascii :=
  if is_upper c then ascii_of_N (code c + 32) else c.
Definition upper_byte (c : ascii) : ascii :=
  if is_lower c then ascii_of_N (code c - 32) else c.

Fixpoint string_forall (p : ascii → bool) (s : string) : bool :=
  match s with
  | "" => true
  | String c s => p c && string_forall p s
  end.

Fixpoint string_map (f : ascii → ascii) (s : string) : string :=
  match s with
  | "" => ""
  | String c s => String (f c) (string_map f s)
  end.

Definition is_ascii (s : string) : bool := string_forall is_ascii_byte s.

(** ** UTF-8 *)

Definition rune_error : N := 65533.

Definition cont_byte (c : ascii) : bool := (128 <=? code c) && (code c <=? 191).

(** Accepted range of the second byte of a three-byte sequence with first byte [b0]. *)
Definition second_of_3 (b0 b1 : ascii) : bool :=
  let x := code b0 in let y := code b1 in
  if x =? 224 then (160 <=? y) && (y <=? 191)
  else if x =? 237 then (128 <=? y) && (y <=? 159)
  else (225 <=? x) && (x <=? 239) && cont_byte b1.

Definition second_of_4 (b0 b1 : ascii) : bool :=
  let x := code b0 in let y := code b1 in
  if x =? 240 then (144 <=? y) && (y <=? 191)
  else if x =? 244 then (128 <=? y) && (y <=? 143)
  else (241 <=? x) && (x <=? 243) && cont_byte b1.

(** The runes of a [for range] loop over a string, each with the number of bytes it
    takes; a byte that starts no valid encoding is one [rune_error]. *)
Fixpoint runes (s : string) : list (N * nat) :=
  match s with
  | "" => []
  | String b0 r0 =>
    if is_ascii_byte b0 then (code b0, 1%nat) :: runes r0
    else match r0 with
    | "" => [(rune_error, 1%nat)]
    | String b1 r1 =>
      if (194 <=? code b0) && (code b0 <=? 223) && cont_byte b1
      then ((code b0 - 192) * 64 + (code b1 - 128), 2%nat) :: runes r1
      else match r1 with
      | "" => (rune_error, 1%nat) :: runes r0
      | String b2 r2 =>
        if second_of_3 b0 b1 && cont_byte b2
        then ((code b0 - 224) * 4096 + (code b1 - 128) * 64 + (code b2 - 128), 3%nat)
               :: runes r2
        else match r2 with
        | "" => (rune_error, 1%nat) :: runes r0
        | String b3 r3 =>
          if second_of_4 b0 b1 && cont_byte b2 && cont_byte b3
          then ((code b0 - 240) * 262144 + (code b1 - 128) * 4096
                  + (code b2 - 128) * 64 + (code b3 - 128), 4%nat) :: runes r3
          else (rune_error, 1%nat) :: runes r0
        end
      end
    end
  end.

(** [utf8.AppendRune]. *)
Definition encode_rune (r : N) : string :=
  let cont x := ascii_of_N (128 + x mod 64) in
  if r <? 128 then String (ascii_of_N r) ""
  else if r <? 2048 then String (ascii_of_N (192 + r / 64)) (String (cont r) "")
  else if ((55296 <=? r) && (r <=? 57343)) || (1114111 <? r)
  then String (ascii_of_N 239) (String (ascii_of_N 191) (String (ascii_of_N 189) ""))
  else if r <? 65536
  then String (ascii_of_N (224 + r / 4096)) (String (cont (r / 64)) (String (cont r) ""))
  else String (ascii_of_N (240 + r / 262144))
         (String (cont (r / 4096)) (String (cont (r / 64)) (String (cont r) ""))).

(** ** Case *)

Definition rune_lower `{UnicodeData} (r : N) : N :=
  if r <? 128 then (if (65 <=? r) && (r <=? 90) then r + 32 else r)
  else unicode_to_lower r.

(** [strings.ToLower]: a byte loop when the string is ASCII, [strings.Map] otherwise. *)
Definition ToLower `{UnicodeData} (s : string) : string :=
  if is_ascii s then string_map lower_byte s
  else foldr (λ r acc, encode_rune (rune_lower r.1) +:+ acc) "" (runes s).

(** Simple case folding onto ASCII: besides the ASCII letters, only U+017F (long s)
    and U+212A (Kelvin sign) fold to an ASCII letter. *)
Definition fold_rune (r : N) : N :=
  if (65 <=? r) && (r <=? 90) then r + 32
  else if r =? 383 then 115
  else if r =? 8490 then 107
  else r.

(** [strings.EqualFold(s, t)] for an ASCII [t]. *)
Definition EqualFold (s t : string) : bool :=
  bool_decide ((fold_rune ∘ fst <$> runes s) = (fold_rune ∘ fst <$> runes t)).

(** ** Trimming *)

Definition ascii_space (c : ascii) : bool :=
  ((9 <=? code c) && (code c <=? 13)) || (code c =? 32).

(** The UTF-8 encodings of U+0085 and U+00A0. *)
Definition space2 (b0 b1 : ascii) : bool :=
  (code b0 =? 194) && ((code b1 =? 133) || (code b1 =? 160)).

(** The encodings of the other [White_Space] runes: U+1680, U+2000 to U+200A, U+2028,
    U+2029, U+202F, U+205F and U+3000. *)
Definition space3 (b0 b1 b2 : ascii) : bool :=
  let x := code b0 in let y := code b1 in let z := code b2 in
  ((x =? 225) && (y =? 154) && (z =? 128))
  || ((x =? 226) && (y =? 128)
        && (((128 <=? z) && (z <=? 138)) || (z =? 168) || (z =? 169) || (z =? 175)))
  || ((x =? 226) && (y =? 129) && (z =? 159))
  || ((x =? 227) && (y =? 128) && (z =? 128)).

Fixpoint trim_left (s : string) : string :=
  match s with
  | "" => ""
  | String b0 r0 =>
    if ascii_space b0 then trim_left r0
    else match r0 with
    | "" => s
    | String b1 r1 =>
      if space2 b0 b1 then trim_left r1
      else match r1 with
      | "" => s
      | String b2 r2 => if space3 b0 b1 b2 then trim_left r2 else s
      end
    end
  end.

(** [trim_left] on the reversed string, where an encoding comes last byte first. *)
Fixpoint trim_left_rev (s : string) : string :=
  match s with
  | "" => ""
  | String b0 r0 =>
    if ascii_space b0 then trim_left_rev r0
    else match r0 with
    | "" => s
    | String b1 r1 =>
      if space2 b1 b0 then trim_left_rev r1
      else match r1 with
      | "" => s
      | String b2 r2 => if space3 b2 b1 b0 then trim_left_rev r2 else s
      end
    end
  end.

Definition trim_right (s : string) : string := String.rev (trim_left_rev (String.rev s)).

(** [strings.TrimSpace]. *)
Definition TrimSpace (s : string) : string := trim_right (trim_left s).

Fixpoint HasPrefix (s p : string) : bool :=
  match p, s with
  | "", _ => true
  | String a p, String b s => bool_decide (a = b) && HasPrefix s p
  | _, "" => false
  end.

Fixpoint string_drop (n : nat) (s : string) : string :=
  match n, s with
  | O, _ => s
  | S n, String _ s => string_drop n s
  | S _, "" => ""
  end.

(** [strings.TrimPrefix]. *)
Definition TrimPrefix (s p : string) : string :=
  if HasPrefix s p then string_drop (String.length p) s else s.

(** [strings.TrimSuffix(s, string(c))]. *)
Fixpoint TrimSuffix1 (s : string) (c : ascii) : string :=
  match s with
  | "" => ""
  | String a "" => if bool_decide (a = c) then "" else s
  | String a s => String a (TrimSuffix1 s c)
  end.

(** [strings.TrimRight(s, string(c))]. *)
Fixpoint TrimRight1 (s : string) (c : ascii) : string :=
  match s with
  | "" => ""
  | String a s =>
    match TrimRight1 s c with
    | "" => if bool_decide (a = c) then "" else String a ""
    | t => String a t
    end
  end.

(** ** Searching and splitting *)

Fixpoint has_byte (c : ascii) (s : string) : bool :=
  match s with
  | "" => false
  | String a s => bool_decide (a = c) || has_byte c s
  end.

(** [strings.Cut(s, string(c))]: around the first [c]. *)
Fixpoint Cut (c : ascii) (s : string) : option (string * string) :=
  match s with
  | "" => None
  | String a s =>
    if bool_decide (a = c) then Some ("", s)
    else match Cut c s with Some (x, y) => Some (String a x, y) | None => None end
  end.

(** Around the last [c]. *)
Fixpoint CutLast (c : ascii) (s : string) : option (string * string) :=
  match s with
  | "" => None
  | String a s =>
    match CutLast c s with
    | Some (x, y) => Some (String a x, y)
    | None => if bool_decide (a = c) then Some ("", s) else None
    end
  end.

(** [strings.Split(s, string(c))]. *)
Fixpoint Split (c : ascii) (s : string) : list string :=
  match s with
  | "" => [""]
  | String a s =>
    if bool_decide (a = c) then "" :: Split c s
    else match Split c s with
         | x :: l => String a x :: l
         | [] => [String a ""]
         end
  end.

(** [strings.Join]. *)
Fixpoint Join (l : list string) (sep : string) : string :=
  match l with
  | [] => ""
  | [x] => x
  | x :: l => x +:+ sep +:+ Join l sep
  end.

(** ** [net.SplitHostPort] *)

Inductive addr_err := MissingPort | TooManyColons | MissingBracket
  | UnexpectedOpen | UnexpectedClose.

Definition SplitHostPort (hostport : string) : result addr_err (string * string) :=
  match CutLast ":" hostport with
  | None => Err MissingPort
  | Some (host, port) =>
    match hostport with
    | String "[" rest =>
      match Cut "]" rest with
      | None => Err MissingBracket
      | Some (inner, "") => Err MissingPort
      | Some (inner, String c after) =>
        if bool_decide (c = ":"%char) then
          if has_byte ":" after then Err TooManyColons
          else if has_byte "[" rest then Err UnexpectedOpen
          else if has_byte "]" (String c after) then Err UnexpectedClose
          else Ok (inner, after)
        else Err MissingPort
      end
    | _ =>
      if has_byte ":" host then Err TooManyColons
      else if has_byte "[" hostport then Err UnexpectedOpen
      else if has_byte "]" hostport then Err UnexpectedClose
      else Ok (host, port)
    end
  end.

(** ** Numbers *)

(** [strconv.FormatUint(n, 10)]. *)
Definition FormatUint (n : Z) : string := pretty (Z.to_N n).
(** [strconv.Itoa]. *)
Definition Itoa (n : Z) : string := pretty n.

Inductive num_err := ErrSyntax | ErrRange.

Fixpoint parse_digits (acc : Z) (s : string) : option Z :=
  match s with
  | "" => Some acc
  | String c s =>
    if is_digit c then parse_digits (acc * 10 + Z.of_N (code c - 48)) s else None
  end.

(** [strconv.Atoi]: an optional sign and at least one decimal digit, in the range of
    a 64-bit [int]. *)
Definition Atoi (s : string) : result num_err Z :=
  let '(neg, digits) :=
    match s with
    | String "-" t => (true, t)
    | String "+" t => (false, t)
    | _ => (false, s)
    end in
  match digits with
  | "" => Err ErrSyntax
  | _ =>
    match parse_digits 0 digits with
    | None => Err ErrSyntax
    | Some v =>
      let v := if neg : bool then (- v)%Z else v in
      if ((- 2^63 <=? v) && (v <? 2^63))%Z then Ok v else Err ErrRange
    end
  end.

(** ** Lemmas *)

Local Close Scope N_scope.

(** Checks a boolean fact about one byte on all 256 of them. *)
Ltac byte_cases c := destruct c as [[] [] [] [] [] [] [] []]; vm_compute; try done.

Lemma app_nil_l_str s : "" +:+ s = s.
Proof. done. Qed.
Lemma app_cons_str c s t : String c s +:+ t = String c (s +:+ t).
Proof. done. Qed.
Lemma app_nil_r_str s : s +:+ "" = s.
Proof. induction s as [|c s IH]; [done|]. by rewrite app_cons_str, IH. Qed.
Lemma app_assoc_str s t u : (s +:+ t) +:+ u = s +:+ t +:+ u.
Proof. induction s as [|c s IH]; [done|]. by rewrite !app_cons_str, IH. Qed.

(** Byte strings one after the other. *)
Definition cat : list string → string := foldr String.append "".

Lemma cat_app l l' : cat (l ++ l') = cat l +:+ cat l'.
Proof. induction l as [|x l IH]; [done|]. simpl. by rewrite IH, app_assoc_str. Qed.
Lemma cat_prefix l l' : l `prefix_of` l' → ∃ rest, cat l +:+ rest = cat l'.
Proof. intros [k ->]. exists (cat k). by rewrite cat_app. Qed.

Create Rewrite HintDb str.
#[export] Hint Rewrite app_nil_l_str app_cons_str app_nil_r_str app_assoc_str : str.
Ltac str_simpl := simpl; autorewrite with str.

Lemma length_app_str s t :
  String.length (s +:+ t) = String.length s + String.length t.
Proof. induction s as [|c s IH]; [done|]. rewrite app_cons_str. simpl. by rewrite IH. Qed.

Lemma string_forall_app p s t :
  string_forall p (s +:+ t) = string_forall p s && string_forall p t.
Proof.
  induction s as [|c s IH]; [done|]. rewrite app_cons_str. simpl.
  by rewrite IH, andb_assoc.
Qed.

Lemma string_forall_impl (p q : ascii → bool) s :
  (∀ c, p c → q c) → string_forall p s → string_forall q s.
Proof.
  intros Hpq. induction s as [|c s IH]; simpl; [done|].
  rewrite !andb_True. naive_solver.
Qed.

(** *** Reversal *)

Lemma rev_app_spec s t : String.rev_app s t = String.rev s +:+ t.
Proof.
  unfold String.rev. revert t.
  induction s as [|c s IH]; intros t; [done|]. simpl.
  rewrite (IH (String c t)), (IH (String c "")). by str_simpl.
Qed.

Lemma rev_cons c s : String.rev (String c s) = String.rev s +:+ String c "".
Proof. unfold String.rev at 1. simpl. by rewrite rev_app_spec. Qed.

Lemma rev_append s t : String.rev (s +:+ t) = String.rev t +:+ String.rev s.
Proof.
  induction s as [|c s IH]; [by str_simpl|].
  rewrite app_cons_str, !rev_cons, IH. by str_simpl.
Qed.

Lemma rev_rev s : String.rev (String.rev s) = s.
Proof.
  induction s as [|c s IH]; [done|]. rewrite rev_cons, rev_append, IH. done.
Qed.

(** *** Trimming *)

(** A byte that trimming keeps and that is part of no multi-byte space. *)
Definition solid (c : ascii) : bool := is_ascii_byte c && negb (ascii_space c).

Lemma solid_space2 c d : solid c → space2 c d = false ∧ space2 d c = false.
Proof.
  unfold space2. intros Hc.
  assert (code c =? 194 = false ∧ code c =? 133 = false ∧ code c =? 160 = false)%N
    as (-> & -> & ->); [by revert Hc; byte_cases c|].
  split; [done|]. by rewrite andb_false_r.
Qed.

Lemma solid_space3 c d e :
  solid c → space3 c d e = false ∧ space3 d c e = false ∧ space3 d e c = false.
Proof.
  unfold space3. intros Hc.
  assert (code c <? 128 = true)%N as Hlt%N.ltb_lt by (revert Hc; byte_cases c).
  repeat match goal with
  | |- context [(code c =? ?n)%N] =>
    rewrite (proj2 (N.eqb_neq (code c) n)) by lia
  | |- context [(?n <=? code c)%N] =>
    rewrite (proj2 (N.leb_gt n (code c))) by lia
  end.
  rewrite ?andb_false_r. by rewrite ?andb_false_l.
Qed.

Lemma trim_left_solid c s : solid c → trim_left (String c s) = String c s.
Proof.
  intros Hc. assert (ascii_space c = false) as Hs by (revert Hc; byte_cases c).
  simpl. rewrite Hs. destruct s as [|d s]; [done|].
  rewrite (proj1 (solid_space2 c d Hc)). destruct s as [|e s]; [done|].
  by rewrite (proj1 (solid_space3 c d e Hc)).
Qed.

Lemma trim_left_rev_cons b0 r0 :
  trim_left_rev (String b0 r0) =
    if ascii_space b0 then trim_left_rev r0
    else match r0 with
    | "" => String b0 r0
    | String b1 r1 =>
      if space2 b1 b0 then trim_left_rev r1
      else match r1 with
      | "" => String b0 r0
      | String b2 r2 => if space3 b2 b1 b0 then trim_left_rev r2 else String b0 r0
      end
    end.
Proof. done. Qed.

Lemma trim_left_rev_head c s : solid c → trim_left_rev (String c s) = String c s.
Proof.
  intros Hc. assert (ascii_space c = false) as Hs by (revert Hc; byte_cases c).
  rewrite trim_left_rev_cons, Hs. destruct s as [|d s]; [done|].
  rewrite (proj2 (solid_space2 c d Hc)). destruct s as [|e s]; [done|].
  by rewrite (proj2 (proj2 (solid_space3 c e d Hc))).
Qed.

(** Trimming stops at the last solid byte. *)
Lemma trim_left_rev_solid s c t :
  solid c → trim_left_rev (s +:+ String c t) = trim_left_rev s +:+ String c t.
Proof.
  intros Hc. remember (String.length s) as n eqn:Hn. revert s Hn.
  induction (lt_wf n) as [n _ IH]. intros s ->.
  destruct s as [|b0 s]; [by apply trim_left_rev_head|].
  rewrite app_cons_str, !trim_left_rev_cons.
  destruct (ascii_space b0).
  { apply (IH (String.length s)); [simpl; lia|done]. }
  destruct s as [|b1 s]; str_simpl.
  { rewrite (proj1 (solid_space2 c b0 Hc)). destruct t as [|e t]; [done|].
    by rewrite (proj1 (proj2 (solid_space3 c e b0 Hc))). }
  destruct (space2 b1 b0).
  { apply (IH (String.length s)); [simpl; lia|done]. }
  destruct s as [|b2 s]; str_simpl.
  { by rewrite (proj1 (solid_space3 c b1 b0 Hc)). }
  destruct (space3 b2 b1 b0); [|done].
  apply (IH (String.length s)); [simpl; lia|done].
Qed.

Lemma trim_right_solid s c t :
  solid c → trim_right (s +:+ String c t) = s +:+ String c (trim_right t).
Proof.
  intros Hc. unfold trim_right.
  rewrite rev_append, rev_cons. str_simpl.
  rewrite (trim_left_rev_solid (String.rev t) c (String.rev s) Hc).
  rewrite rev_append, rev_cons, rev_rev. by str_simpl.
Qed.

Lemma TrimSpace_solid_prefix c u d :
  string_forall solid (String c u) → TrimSpace (String c u +:+ d) = String c u +:+ trim_right d.
Proof.
  intros H. unfold TrimSpace.
  rewrite app_cons_str, trim_left_solid by (simpl in H; rewrite andb_True in H; tauto).
  rewrite <-app_cons_str. clear -H.
  destruct (String.rev (String c u)) as [|e r] eqn:Er.
  { apply (f_equal String.rev) in Er. by rewrite rev_rev in Er. }
  apply (f_equal String.rev) in Er. rewrite rev_rev, rev_cons in Er. rewrite Er in *.
  rewrite app_assoc_str. str_simpl. rewrite trim_right_solid; [done|].
  rewrite string_forall_app, andb_True in H. simpl in H. rewrite andb_True in H. tauto.
Qed.

Lemma trim_right_nil : trim_right "" = "".
Proof. done. Qed.

Lemma TrimSpace_solid s : string_forall solid s → TrimSpace s = s.
Proof.
  destruct s as [|c s]; [done|]. intros H.
  pose proof (TrimSpace_solid_prefix c s "" H) as Ht.
  by rewrite trim_right_nil, !app_nil_r_str in Ht.
Qed.

(** Trimming twice is trimming once. *)
Lemma trim_left_cons b0 r0 :
  trim_left (String b0 r0) =
    if ascii_space b0 then trim_left r0
    else match r0 with
    | "" => String b0 r0
    | String b1 r1 =>
      if space2 b0 b1 then trim_left r1
      else match r1 with
      | "" => String b0 r0
      | String b2 r2 => if space3 b0 b1 b2 then trim_left r2 else String b0 r0
      end
    end.
Proof. done. Qed.

(** Induction for the two trimming functions, which skip one, two or three bytes. *)
Lemma trim_ind (P : string → Prop) :
  P "" →
  (∀ b0 r0, P r0 → (∀ b1 r1, r0 = String b1 r1 → P r1) →
     (∀ b1 b2 r2, r0 = String b1 (String b2 r2) → P r2) → P (String b0 r0)) →
  ∀ s, P s.
Proof.
  intros Hnil Hstep s. remember (String.length s) as n eqn:Hn. revert s Hn.
  induction (lt_wf n) as [n _ IH]. intros s ->. destruct s as [|b0 r0]; [done|].
  apply Hstep.
  - eapply IH; [|reflexivity]. simpl. lia.
  - intros b1 r1 ->. eapply IH; [|reflexivity]. simpl. lia.
  - intros b1 b2 r2 ->. eapply IH; [|reflexivity]. simpl. lia.
Qed.

Ltac trim_cases :=
  repeat match goal with
  | |- context [if ?b then _ else _] => destruct b eqn:?
  | |- context [match ?s with "" => _ | String _ _ => _ end] => is_var s; destruct s
  end.

Lemma trim_left_idemp s : trim_left (trim_left s) = trim_left s.
Proof.
  induction s as [|b0 r0 H0 H1 H2] using trim_ind; [done|].
  rewrite trim_left_cons. trim_cases; eauto; rewrite trim_left_cons;
    repeat case_match; congruence.
Qed.

Lemma trim_left_rev_idemp s : trim_left_rev (trim_left_rev s) = trim_left_rev s.
Proof.
  induction s as [|b0 r0 H0 H1 H2] using trim_ind; [done|].
  rewrite trim_left_rev_cons. trim_cases; eauto; rewrite trim_left_rev_cons;
    repeat case_match; congruence.
Qed.

Lemma trim_left_rev_suffix s : ∃ p, s = p +:+ trim_left_rev s.
Proof.
  induction s as [|b0 r0 H0 H1 H2] using trim_ind; [by exists ""|].
  rewrite trim_left_rev_cons. trim_cases; try (by exists "").
  - destruct H0 as [p Hp]. exists (String b0 p). by rewrite app_cons_str, <-Hp.
  - destruct (H1 _ _ eq_refl) as [p Hp]. eexists (String b0 (String _ p)).
    by rewrite !app_cons_str, <-Hp.
  - destruct (H2 _ _ _ eq_refl) as [p Hp]. eexists (String b0 (String _ (String _ p))).
    by rewrite !app_cons_str, <-Hp.
Qed.

Lemma trim_left_length s : String.length (trim_left s) ≤ String.length s.
Proof.
  induction s as [|b0 r0 H0 H1 H2] using trim_ind; [done|].
  rewrite trim_left_cons. trim_cases; simpl; try lia.
  - specialize (H1 _ _ eq_refl). lia.
  - specialize (H2 _ _ _ eq_refl). lia.
Qed.

(** A string that starts with no space has no prefix that does. *)
Lemma trim_left_prefix y q : trim_left (y +:+ q) = y +:+ q → trim_left y = y.
Proof.
  destruct y as [|b0 y]; [done|]. rewrite app_cons_str, !trim_left_cons.
  destruct (ascii_space b0).
  { intros Hx. pose proof (trim_left_length (y +:+ q)) as Hl. rewrite Hx in Hl. simpl in Hl. lia. }
  destruct y as [|b1 y]; [done|]. rewrite app_cons_str. destruct (space2 b0 b1).
  { intros Hx. pose proof (trim_left_length (y +:+ q)) as Hl. rewrite Hx in Hl. simpl in Hl. lia. }
  destruct y as [|b2 y]; [done|]. rewrite app_cons_str. destruct (space3 b0 b1 b2); [|done].
  intros Hx. pose proof (trim_left_length (y +:+ q)) as Hl. rewrite Hx in Hl. simpl in Hl. lia.
Qed.

Lemma TrimSpace_idemp s : TrimSpace (TrimSpace s) = TrimSpace s.
Proof.
  unfold TrimSpace, trim_right.
  destruct (trim_left_rev_suffix (String.rev (trim_left s))) as [p Hp].
  rewrite (trim_left_prefix _ (String.rev p)).
  - by rewrite rev_rev, trim_left_rev_idemp.
  - rewrite <-rev_append, <-Hp, rev_rev. apply trim_left_idemp.
Qed.

(** *** Case *)

Lemma runes_ascii_cons c s :
  is_ascii_byte c → runes (String c s) = (code c, 1) :: runes s.
Proof. intros H. simpl. by rewrite (Is_true_true_1 _ H). Qed.

(** A byte that [ToLower] keeps. *)
Definition caseless (c : ascii) : bool := is_ascii_byte c && negb (is_upper c).

Lemma caseless_lower c : caseless c → lower_byte c = c.
Proof. byte_cases c. Qed.

Lemma encode_lower_ascii `{UnicodeData} c :
  is_ascii_byte c → encode_rune (rune_lower (code c)) = String (lower_byte c) "".
Proof.
  intros Hc. unfold rune_lower. unfold is_ascii_byte in Hc.
  rewrite (Is_true_true_1 _ Hc). clear -Hc. revert Hc. byte_cases c.
Qed.

Lemma ToLower_caseless_prefix `{UnicodeData} u s :
  string_forall caseless u → ToLower (u +:+ s) = u +:+ ToLower s.
Proof.
  unfold ToLower, is_ascii. intros Hu. rewrite string_forall_app.
  assert (string_forall is_ascii_byte u = true) as ->.
  { apply Is_true_true_1. eapply string_forall_impl; [|exact Hu].
    unfold caseless. intros c. rewrite andb_True. tauto. }
  rewrite andb_true_l. destruct (string_forall is_ascii_byte s).
  - induction u as [|c u IH]; [done|]. simpl in Hu. rewrite andb_True in Hu.
    rewrite !app_cons_str. simpl. rewrite caseless_lower, IH by tauto. done.
  - induction u as [|c u IH]; [done|]. simpl in Hu. rewrite andb_True in Hu.
    destruct Hu as [Hc Hu]. rewrite !app_cons_str.
    assert (is_ascii_byte c) by (unfold caseless in Hc; rewrite andb_True in Hc; tauto).
    rewrite runes_ascii_cons by done. rewrite foldr_cons, IH by done. cbn [fst].
    rewrite encode_lower_ascii, caseless_lower by done. done.
Qed.

Lemma ToLower_caseless `{UnicodeData} u : string_forall caseless u → ToLower u = u.
Proof.
  intros Hu. rewrite <-(app_nil_r_str u) at 1.
  rewrite ToLower_caseless_prefix by done. apply app_nil_r_str.
Qed.

Lemma lower_byte_caseless c : is_ascii_byte c → caseless (lower_byte c).
Proof. byte_cases c. Qed.

Lemma ToLower_ascii_caseless `{UnicodeData} s :
  is_ascii s → string_forall caseless (ToLower s).
Proof.
  intros Hs. unfold ToLower. rewrite (Is_true_true_1 _ Hs). unfold is_ascii in Hs.
  induction s as [|c s IH]; simpl in *; [done|].
  rewrite andb_True in *. naive_solver eauto using lower_byte_caseless.
Qed.

Lemma ToLower_ascii_idemp `{UnicodeData} s :
  is_ascii s → ToLower (ToLower s) = ToLower s.
Proof. intros. by apply ToLower_caseless, ToLower_ascii_caseless. Qed.
