(* ===== verification/GoFlag.v ===== *)
(** * Go's [flag] package and [filepath.Clean] as the commands use them.

    A flag changes a value of type [S], the variables a command has bound; [Parse] is
    [FlagSet.Parse] with [ContinueOnError] and answers those variables. *)

From S2P Require Import Prelude GoStrings.

(** ** Flags *)

Record flag (S : Type) := mkFlag {
  f_name : string;
  f_bool : bool;                          (** [IsBoolFlag]: no argument needed *)
  f_set : string → S → option S }.        (** [Value.Set]; [None] is its error *)
Arguments mkFlag {S} f_name f_bool f_set.
Arguments f_name {S} f.
Arguments f_bool {S} f.
Arguments f_set {S} f.

Inductive flag_err :=
| BadSyntax (arg : string)
| NotDefined (name : string)
| ErrHelp
| NeedsArgument (name : string)
| InvalidValue (name value : string).

Definition starts_with (c : ascii) (s : string) : bool :=
  match s with String a _ => bool_decide (a = c) | "" => false end.

(** What [parseOne] makes of an argument: [None] if it is no flag, else the text after
    the minuses, where nil ends the flags. *)
Definition flag_text (s : string) : option string :=
  match s with
  | String "-" (String "-" name) => Some name
  | String "-" (String c name) => Some (String c name)
  | _ => None
  end.

Section flags.
Context {S : Type}.

Definition lookup_flag (formal : list (flag S)) (name : string) : option (flag S) :=
  snd <$> list_find (λ f, f_name f = name) formal.

Definition set_flag (f : flag S) (value : string) (s : S) : result flag_err S :=
  match f_set f value s with Some s => Ok s | None => Err (InvalidValue (f_name f) value) end.

Fixpoint Parse (formal : list (flag S)) (s : S) (args : list string) : result flag_err S :=
  match args with
  | [] => Ok s
  | arg :: args =>
    match flag_text arg with
    | None => Ok s
    | Some "" => Ok s
    | Some text =>
      if starts_with "-" text || starts_with "=" text then Err (BadSyntax arg)
      else
        let '(name, value) :=
          match Cut "=" text with Some (n, v) => (n, Some v) | None => (text, None) end in
        match lookup_flag formal name with
        | None =>
          if bool_decide (name = "help") || bool_decide (name = "h") then Err ErrHelp
          else Err (NotDefined name)
        | Some f =>
          if f_bool f then
            s ← set_flag f (default "true" value) s; Parse formal s args
          else
            match value, args with
            | Some v, _ => s ← set_flag f v s; Parse formal s args
            | None, v :: args => s ← set_flag f v s; Parse formal s args
            | None, [] => Err (NeedsArgument name)
            end
        end
    end
  end.

(** Invariants of the bound variables. *)
Lemma Parse_inv (P : S → Prop) formal s args s' :
  (∀ f v s s', f ∈ formal → P s → f_set f v s = Some s' → P s') →
  P s → Parse formal s args = Ok s' → P s'.
Proof.
  intros Hset.
  assert (∀ name f v s s', lookup_flag formal name = Some f → P s → set_flag f v s = Ok s' → P s')
    as Hone.
  { intros name f v s0 s1 Hf. unfold lookup_flag in Hf.
    apply fmap_Some in Hf as ([i f'] & Hf & ->). apply list_find_Some in Hf as (Hf & _).
    unfold set_flag. case_match; naive_solver eauto using list_elem_of_lookup_2. }
  enough (∀ n args s, length args ≤ n → P s → Parse formal s args = Ok s' → P s') by eauto.
  clear args s. induction n as [|n IH]; intros [|arg args] s Hle Hs; simpl in *;
    try lia; try congruence.
  destruct (flag_text arg) as [[|c text]|]; try congruence.
  destruct (_ || _); [done|].
  destruct (Cut "=" (String c text)) as [[name v]|];
    (destruct (lookup_flag formal _) as [f|] eqn:Hf; [|by repeat case_match]);
    destruct (f_bool f); try destruct args as [|v' args]; simpl in Hle; cbv beta iota; try done;
    intros (s1 & H1 & H2)%bind_Ok;
    (eapply IH; [|by eapply Hone|exact H2]); simpl; lia.
Qed.
End flags.

(** [strconv.ParseBool]. *)
Definition ParseBool (s : string) : option bool :=
  if bool_decide (s ∈ ["1"; "t"; "T"; "true"; "TRUE"; "True"]) then Some true
  else if bool_decide (s ∈ ["0"; "f"; "F"; "false"; "FALSE"; "False"]) then Some false
  else None.

Definition StringVar {S} (name : string) (set : string → S → S) : flag S :=
  mkFlag name false (λ v s, Some (set v s)).
Definition BoolVar {S} (name : string) (set : bool → S → S) : flag S :=
  mkFlag name true (λ v s, b ← ParseBool v; Some (set b s)).

(** ** Paths *)

(** One element of a path; the stack holds the elements kept, the last one first. *)
Definition clean_step (rooted : bool) (stack : list string) (elem : string) : list string :=
  if bool_decide (elem = "") || bool_decide (elem = ".") then stack
  else if bool_decide (elem = "..") then
    match stack with
    | top :: rest => if bool_decide (top = "..") then elem :: stack else rest
    | [] => if rooted then [] else [elem]
    end
  else elem :: stack.

(** [filepath.Clean] on Unix. *)
Definition Clean (path : string) : string :=
  let rooted := starts_with "/" path in
  let kept := Join (rev (foldl (clean_step rooted) [] (Split "/" path))) "/" in
  if rooted then "/" +:+ kept else if bool_decide (kept = "") then "." else kept.

(** [filepath.Join] of a first element that is not empty. *)
Definition JoinPath (elems : list string) : string := Clean (Join elems "/").

Example Clean_examples :
  Clean <$> [""; "/"; "a//b/./c/"; "/../a/../../b"; "../a/../.."; "a/.."; "/var/lib/muxbridge/"]
  = ["."; "/"; "a/b/c"; "/b"; "../.."; "."; "/var/lib/muxbridge"].
Proof. vm_compute. reflexivity. Qed.
