(* ===== verification/GoNumbers.v ===== *)
(** * Go's number parsing and float64 arithmetic as the performance client uses them.

    A float64 is the Standard Library's [spec_float] with 53 bits of precision; its
    operations round to nearest even, as the hardware's do. *)

From S2P Require Import Prelude GoStrings GoFlag.
From Stdlib Require Import Floats.SpecFloat.

Local Open Scope Z_scope.

(** ** [float64] *)

Abbreviation float64 := spec_float.

Definition f64_of_Z (n : Z) : float64 := binary_normalize 53 1024 n 0 false.
Definition f64_mul : float64 → float64 → float64 := SFmul 53 1024.
Definition f64_div : float64 → float64 → float64 := SFdiv 53 1024.
Definition f64_le (x y : float64) : bool := SFleb x y.

(** The conversion to an integer, towards zero, of a finite number. *)
Definition f64_trunc (x : float64) : Z :=
  match x with
  | S754_finite s m e =>
    let v := if 0 <=? e then Z.pos m * 2 ^ e else Z.pos m `div` 2 ^ (- e) in
    if s then - v else v
  | _ => 0
  end.

(** [uint64(math.Ceil(x))] of a number that is not negative. *)
Definition f64_ceil (x : float64) : Z :=
  match x with
  | S754_finite false m e =>
    if 0 <=? e then Z.pos m * 2 ^ e else (Z.pos m + 2 ^ (- e) - 1) `div` 2 ^ (- e)
  | _ => 0
  end.

(** ** [strconv.ParseInt(s, 0, 64)] *)

(** A byte with the bit 0x20 set. *)
Definition lower_bit (c : ascii) : Z := Z.lor (Z.of_N (code c)) 32.

Definition is_prefix_letter (c : ascii) : option Z :=
  if lower_bit c =? 98 then Some 2          (* b *)
  else if lower_bit c =? 111 then Some 8    (* o *)
  else if lower_bit c =? 120 then Some 16   (* x *)
  else None.

Definition digit_value (c : ascii) : option Z :=
  if is_digit c then Some (Z.of_N (code c) - 48)
  else if (97 <=? lower_bit c) && (lower_bit c <=? 122) then Some (lower_bit c - 87)
  else None.

(** The digits of a number in base [base]; underscores are skipped. *)
Fixpoint digits_in (base acc : Z) (s : string) : option Z :=
  match s with
  | "" => Some acc
  | String "_" s => digits_in base acc s
  | String c s =>
    d ← digit_value c; if d <? base then digits_in base (acc * base + d) s else None
  end.

(** The last thing [underscoreOK] has seen. *)
Inductive seen := SeenStart | SeenDigit | SeenUnderscore | SeenOther.

Fixpoint underscores_ok (hex : bool) (last : seen) (s : string) : bool :=
  match s with
  | "" => match last with SeenUnderscore => false | _ => true end
  | String c s =>
    if is_digit c || (hex && (97 <=? lower_bit c) && (lower_bit c <=? 102))
    then underscores_ok hex SeenDigit s
    else if bool_decide (c = "_"%char) then
      match last with SeenDigit => underscores_ok hex SeenUnderscore s | _ => false end
    else match last with SeenUnderscore => false | _ => underscores_ok hex SeenOther s end
  end.

(** The base a number's prefix stands for, the digits after it, and what
    [underscoreOK] looks at. *)
Definition ParseUint0 (s : string) : option Z :=
  match s with
  | "" => None
  | String "0" (String c (String d r)) =>
    match is_prefix_letter c with
    | Some base =>
      if underscores_ok (base =? 16) SeenDigit (String d r)
      then digits_in base 0 (String d r) else None
    | None =>
      if underscores_ok false SeenStart s then digits_in 8 0 (String c (String d r)) else None
    end
  | String "0" r => if underscores_ok false SeenStart s then digits_in 8 0 r else None
  | _ => if underscores_ok false SeenStart s then digits_in 10 0 s else None
  end.

Definition ParseInt0 (s : string) : option Z :=
  let '(neg, digits) :=
    match s with
    | String "-" t => (true, t)
    | String "+" t => (false, t)
    | _ => (false, s)
    end in
  v ← ParseUint0 digits;
  let v := if neg : bool then - v else v in
  if (- 2^63 <=? v) && (v <? 2^63) then Some v else None.

Definition IntVar {S} (name : string) (set : Z → S → S) : flag S :=
  mkFlag name false (λ v s, n ← ParseInt0 v; Some (set n s)).

(** ** [time.ParseDuration] *)

(** The leading decimal digits; [None] for an overflow. *)
Fixpoint leadingInt (x : Z) (s : string) : option (Z * string) :=
  match s with
  | "" => Some (x, "")
  | String c r =>
    if is_digit c then
      if 2^63 `div` 10 <? x then None
      else let x := x * 10 + (Z.of_N (code c) - 48) in
           if 2^63 <? x then None else leadingInt x r
    else Some (x, s)
  end.

(** The digits after a point, their number as a power of ten; what does not fit is
    dropped. *)
Fixpoint leadingFraction (x scale : Z) (overflow : bool) (s : string) : Z * Z * string :=
  match s with
  | "" => (x, scale, "")
  | String c r =>
    if is_digit c then
      if overflow || ((2^63 - 1) `div` 10 <? x) then leadingFraction x scale true r
      else let y := x * 10 + (Z.of_N (code c) - 48) in
           if 2^63 <? y then leadingFraction x scale true r
           else leadingFraction y (scale * 10) false r
    else (x, scale, s)
  end.

Fixpoint unit_name (s : string) : string * string :=
  match s with
  | "" => ("", "")
  | String c r =>
    if bool_decide (c = "."%char) || is_digit c then ("", s)
    else let '(u, r) := unit_name r in (String c u, r)
  end.

Definition unitMap (u : string) : option Z :=
  if bool_decide (u = "ns") then Some 1
  else if bool_decide (u = "us") then Some 1000
  else if bool_decide (u = String "194" (String "181" "s")) then Some 1000
  else if bool_decide (u = String "206" (String "188" "s")) then Some 1000
  else if bool_decide (u = "ms") then Some 1000000
  else if bool_decide (u = "s") then Some 1000000000
  else if bool_decide (u = "m") then Some 60000000000
  else if bool_decide (u = "h") then Some 3600000000000
  else None.

(** One number with its unit. *)
Definition duration_part (s : string) : option (Z * string) :=
  '(v, s1) ← leadingInt 0 s;
  let pre := negb (bool_decide (s1 = s)) in
  let '(f, scale, s3, post) :=
    match s1 with
    | String "." s2 =>
      let '(f, scale, s3) := leadingFraction 0 1 false s2 in
      (f, scale, s3, negb (bool_decide (s3 = s2)))
    | _ => (0, 1, s1, false)
    end in
  if negb pre && negb post then None
  else
    let '(u, rest) := unit_name s3 in
    unit ← unitMap u;
    if 2^63 `div` unit <? v then None
    else
      let v := v * unit in
      let v := if 0 <? f
               then v + f64_trunc (f64_mul (f64_of_Z f) (f64_div (f64_of_Z unit) (f64_of_Z scale)))
               else v in
      if 2^63 <? v then None else Some (v, rest).

(** Every part takes at least a byte, so the length is enough fuel. *)
Fixpoint duration_parts (fuel : nat) (d : Z) (s : string) : option Z :=
  match fuel, s with
  | _, "" => Some d
  | O, _ => None
  | S fuel, String c _ =>
    if bool_decide (c = "."%char) || is_digit c then
      '(v, rest) ← duration_part s;
      let d := d + v in if 2^63 <? d then None else duration_parts fuel d rest
    else None
  end.

Lemma leadingInt_length x s v r :
  leadingInt x s = Some (v, r) → (String.length r ≤ String.length s)%nat.
Proof.
  revert x. induction s as [|c s IH]; intros x; simpl; [by intros [= _ <-]|].
  destruct (is_digit c); [|by intros [= _ <-]]. repeat case_match; try done.
  intros Hr%IH. lia.
Qed.

Lemma leadingFraction_length x scale o s v n r :
  leadingFraction x scale o s = (v, n, r) → (String.length r ≤ String.length s)%nat.
Proof.
  revert x scale o. induction s as [|c s IH]; intros x scale o; simpl; [by intros [= _ _ <-]|].
  destruct (is_digit c); [|by intros [= _ _ <-]]. repeat case_match; intros Hr%IH; lia.
Qed.

Lemma unit_name_length s u r :
  unit_name s = (u, r) → (String.length u + String.length r = String.length s)%nat.
Proof.
  revert u r. induction s as [|c s IH]; intros u r; simpl; [by intros [= <- <-]|].
  case_match; [by intros [= <- <-]|]. destruct (unit_name s) as [u1 r1].
  intros [= <- <-]. simpl. by rewrite (IH u1 r1).
Qed.

(** A number with its unit takes at least a byte. *)
Lemma duration_part_length s v r :
  duration_part s = Some (v, r) → (String.length r < String.length s)%nat.
Proof.
  unfold duration_part. intros ([n s1] & Hint%leadingInt_length & Hs)%bind_Some. simpl in Hs.
  set (t := match s1 with String "." s2 => _ | _ => _ end) in Hs.
  destruct t as [[[f scale] s3] post] eqn:Et.
  assert (String.length s3 ≤ String.length s1)%nat as Hs3.
  { unfold t in Et. clear -Et. repeat case_match; simplify_eq; try done.
    match goal with Hl : leadingFraction _ _ _ _ = _ |- _ =>
      apply leadingFraction_length in Hl; simpl; lia end. }
  case_match; [done|]. destruct (unit_name s3) as [u rest] eqn:Eu.
  apply bind_Some in Hs as (unit & Hu & Hs). apply unit_name_length in Eu.
  assert (String.length u ≠ 0)%nat by (by destruct u).
  repeat case_match; simplify_eq; lia.
Qed.

(** The length of the string is enough fuel: more gives the same answer. *)
Lemma duration_parts_enough fuel d s :
  (String.length s ≤ fuel)%nat → duration_parts fuel d s = duration_parts (String.length s) d s.
Proof.
  remember (String.length s) as n eqn:Hn. revert fuel d s Hn.
  induction n as [n IH] using lt_wf_ind. intros fuel d s -> Hle.
  destruct s as [|c s]; [by destruct fuel|]. simpl in Hle. destruct fuel as [|fuel]; [lia|].
  cbn [duration_parts String.length]. case_match; [|done].
  destruct (duration_part (String c s)) as [[v rest]|] eqn:E; [|done]. simpl.
  apply duration_part_length in E. simpl in E. case_match; [done|].
  rewrite (IH (String.length rest) ltac:(simpl; lia) fuel) by (done || lia).
  by rewrite (IH (String.length rest) ltac:(simpl; lia) (String.length s)) by (done || lia).
Qed.

Definition ParseDuration (s : string) : option Z :=
  let '(neg, s) :=
    match s with
    | String "-" t => (true, t)
    | String "+" t => (false, t)
    | _ => (false, s)
    end in
  if bool_decide (s = "0") then Some 0
  else if bool_decide (s = "") then None
  else
    d ← duration_parts (String.length s) 0 s;
    if neg : bool then Some (- d) else if 2^63 - 1 <? d then None else Some d.

Definition DurationVar {S} (name : string) (set : Z → S → S) : flag S :=
  mkFlag name false (λ v s, d ← ParseDuration v; Some (set d s)).

Example ParseDuration_examples :
  ParseDuration <$> ["30s"; "1.5h"; "1h2m3.004s"; "-.5us"; "0"; "1"; ""; "9223372036s"; "9223372037s"; "0.1s"]
  = [Some 30000000000; Some 5400000000000; Some 3723004000000; Some (-500); Some 0; None; None;
     Some 9223372036000000000; None; Some 100000000].
Proof. vm_compute. reflexivity. Qed.

Example ParseInt0_examples :
  ParseInt0 <$> ["1000"; "0x1F"; "-0b11"; "1_000"; "010"; "0"; "08"; "1__0"; "_1"; "9223372036854775808"; "+7"]
  = [Some 1000; Some 31; Some (-3); Some 1000; Some 8; Some 0; None; None; None; None; Some 7].
Proof. vm_compute. reflexivity. Qed.

(** ** Ranges *)

Lemma ParseInt0_range s n : ParseInt0 s = Some n → - 2^63 ≤ n < 2^63.
Proof.
  unfold ParseInt0.
  match goal with |- context [let '(_, _) := ?x in _] => destruct x as [neg digits] end.
  destruct (ParseUint0 digits) as [v|]; [|done]. cbn [mbind option_bind]. cbv zeta.
  destruct (_ && _) eqn:E; [|done]. intros [= <-].
  apply andb_true_iff in E as [?%Z.leb_le ?%Z.ltb_lt]. done.
Qed.
