(* ===== verification/GoFmt.v ===== *)
(** * Go's [%q] and [Duration.String] as the log lines and summaries use them. *)

From S2P Require Import Prelude GoStrings.

(** ** [strconv.Quote] *)

(** The table behind [strconv.IsPrint]; runes below 128 are computed. *)
Class PrintData := { unicode_is_print : N → bool }.

Definition IsPrint `{PrintData} (r : N) : bool :=
  if (r <? 128)%N then (32 <=? r)%N && (r <? 127)%N else unicode_is_print r.

Definition hex_digit (n : N) : ascii := ascii_of_N (if (n <? 10)%N then 48 + n else 87 + n)%N.

(** The low [digits] hexadecimal digits. *)
Fixpoint hex (digits : nat) (n : N) (acc : string) : string :=
  match digits with
  | O => acc
  | S d => hex d (n / 16)%N (String (hex_digit (n mod 16)%N) acc)
  end.

Definition backslash : ascii := "092".
Definition double_quote : ascii := "034".

(** [appendEscapedRune] with the quote of [strconv.Quote]. *)
Definition escape_rune `{PrintData} (r : N) : string :=
  if (r =? 34)%N || (r =? 92)%N then String backslash (encode_rune r)
  else if IsPrint r then encode_rune r
  else String backslash
    (if (r =? 7)%N then "a" else if (r =? 8)%N then "b" else if (r =? 12)%N then "f"
     else if (r =? 10)%N then "n" else if (r =? 13)%N then "r" else if (r =? 9)%N then "t"
     else if (r =? 11)%N then "v"
     else if (r <? 32)%N || (r =? 127)%N then String "x" (hex 2 r "")
     else if (r <? 65536)%N then String "u" (hex 4 r "")
     else String "U" (hex 8 r "")).

(** [l] are the runes of [s]; a byte that starts no encoding is written as such. *)
Fixpoint quote_runes `{PrintData} (l : list (N * nat)) (s : string) : string :=
  match l with
  | [] => ""
  | (r, width) :: l =>
    (if bool_decide ((r, width) = (rune_error, 1))
     then match s with
          | String c _ => String backslash (String "x" (hex 2 (code c) ""))
          | "" => ""
          end
     else escape_rune r)
    +:+ quote_runes l (string_drop width s)
  end.

Definition Quote `{PrintData} (s : string) : string :=
  String double_quote (quote_runes (runes s) s +:+ String double_quote "").

(** ** [Duration.String] *)

(** [fmtFrac]: the last [prec] digits after a point, without trailing zeros, and the rest
    of the number. *)
Fixpoint fmt_frac (prec : nat) (print : bool) (u : Z) (acc : string) : string * Z :=
  match prec with
  | O => (if print then String "." acc else acc, u)
  | S prec =>
    let digit := (u mod 10)%Z in
    let print := print || negb (digit =? 0)%Z in
    fmt_frac prec print (u `div` 10) (if print then Itoa digit +:+ acc else acc)
  end.

(** The text of [d] nanoseconds, not negative. *)
Definition nanoseconds_String (d : Z) : string :=
  if (d <? 1000000000)%Z then
    if (d =? 0)%Z then "0s"
    else
      let '(prec, unit) :=
        if (d <? 1000)%Z then (0, "ns")
        else if (d <? 1000000)%Z then (3, String "194" (String "181" "s"))
        else (6, "ms") in
      let '(frac, u) := fmt_frac prec false d "" in
      Itoa u +:+ frac +:+ unit
  else
    let '(frac, u) := fmt_frac 9 false d "" in
    let s := (u mod 60)%Z in
    let u := (u `div` 60)%Z in
    let m := (u mod 60)%Z in
    let h := (u `div` 60)%Z in
    (if (0 <? h)%Z then Itoa h +:+ "h" else "")
    +:+ (if (0 <? u)%Z then Itoa m +:+ "m" else "")
    +:+ Itoa s +:+ frac +:+ "s".

Definition Duration_String (d : Z) : string :=
  if (d <? 0)%Z then String "-" (nanoseconds_String (- d)) else nanoseconds_String d.

(** ** Text without control bytes *)

Definition visible (c : ascii) : bool := (32 <=? code c)%N && negb (code c =? 127)%N.
Notation clean := (string_forall visible).

Lemma clean_app s t : clean s → clean t → clean (s +:+ t).
Proof. intros Hs Ht. rewrite string_forall_app. by apply andb_prop_intro. Qed.

Lemma code_ascii n : (n < 256)%N → code (ascii_of_N n) = n.
Proof. apply N_ascii_embedding. Qed.

Lemma visible_ascii n : (32 ≤ n < 256 → n ≠ 127 → visible (ascii_of_N n))%N.
Proof.
  intros Hn Hne. unfold visible. rewrite code_ascii by lia. apply andb_prop_intro.
  split; [apply Is_true_true, N.leb_le; lia|]. by rewrite (proj2 (N.eqb_neq _ _) Hne).
Qed.

Lemma visible_digit x : (x < 16)%N → visible (hex_digit x).
Proof.
  intros Hx. unfold hex_digit. apply visible_ascii; destruct (N.ltb_spec x 10); lia.
Qed.

Lemma clean_hex d n acc : clean acc → clean (hex d n acc).
Proof.
  revert n acc. induction d as [|d IH]; intros n acc Hacc; simpl; [done|]. apply IH. simpl.
  apply andb_prop_intro. split; [|done]. apply visible_digit. by apply N.mod_lt.
Qed.

Lemma visible_high b x : (128 ≤ b → x < 64 → b + x < 256 → visible (ascii_of_N (b + x)))%N.
Proof. intros. apply visible_ascii; lia. Qed.

Lemma clean_encode_rune r : (32 ≤ r)%N → r ≠ 127%N → clean (encode_rune r).
Proof.
  intros Hr Hne. unfold encode_rune.
  assert (∀ x, visible (ascii_of_N (128 + x mod 64))) as Hcont.
  { intros x. apply visible_high; [lia|by apply N.mod_lt|]. pose proof (N.mod_lt x 64 ltac:(done)). 
    generalize dependent (x mod 64)%N. lia. }
  destruct (N.ltb_spec r 128); [simpl; rewrite andb_true_r; apply visible_ascii; lia|].
  destruct (N.ltb_spec r 2048).
  { simpl. rewrite andb_true_r. apply andb_prop_intro. split; [|apply Hcont].
    apply visible_high; [lia|..]; assert (r / 64 < 32)%N by (apply N.Div0.div_lt_upper_bound; lia); lia. }
  destruct (_ || _) eqn:Hs; [done|]. apply orb_false_iff in Hs as [_ Hs%N.ltb_ge].
  destruct (N.ltb_spec r 65536); simpl; rewrite andb_true_r;
    repeat match goal with |- Is_true (_ && _) => apply andb_prop_intro; split end; try apply Hcont.
  - apply visible_high; [lia|..]; assert (r / 4096 < 16)%N by (apply N.Div0.div_lt_upper_bound; lia); lia.
  - apply visible_high; [lia|..]; assert (r / 262144 < 5)%N by (apply N.Div0.div_lt_upper_bound; lia); lia.
Qed.

Lemma clean_escape_rune `{PrintData} r : clean (escape_rune r).
Proof.
  unfold escape_rune. destruct (_ || _) eqn:Hq.
  { apply orb_true_iff in Hq as [->%N.eqb_eq| ->%N.eqb_eq]; vm_compute; done. }
  destruct (IsPrint r) eqn:Hp.
  { unfold IsPrint in Hp. destruct (N.ltb_spec r 128); [|apply clean_encode_rune; lia].
    apply andb_prop in Hp as [?%N.leb_le ?%N.ltb_lt]. apply clean_encode_rune; lia. }
  cbn [string_forall]. apply andb_prop_intro. split; [done|].
  repeat case_match; try done; cbn [string_forall]; (apply andb_prop_intro; split; [done|]);
    first [exact (clean_hex 2 r "" I)|exact (clean_hex 4 r "" I)|exact (clean_hex 8 r "" I)].
Qed.

(** [%q] writes no control byte, whatever it is given. *)
Lemma clean_Quote `{PrintData} s : clean (Quote s).
Proof.
  unfold Quote. cbn [string_forall]. apply andb_prop_intro. split; [done|]. apply clean_app; [|done].
  generalize (runes s). intros l. revert s. induction l as [|[r width] l IH]; intros s; simpl; [done|].
  apply clean_app; [|apply IH]. case_bool_decide; [|apply clean_escape_rune].
  destruct s as [|c s]; [done|]. cbn [string_forall]. apply andb_prop_intro. split; [done|].
  exact (clean_hex 2 (code c) "" I).
Qed.

(** Numbers are digits. *)
Lemma clean_pretty_N (n : N) : clean (pretty n).
Proof.
  assert (∀ s, clean s → clean (pretty_N_go n s)) as Hgo.
  { induction (N.lt_wf_0 n) as [n _ IH]. intros s Hs.
    destruct (decide (n = 0)%N) as [->|Hn]; [by rewrite pretty_N_go_0|].
    rewrite pretty_N_go_step by lia. apply IH; [by apply N.div_lt; lia|]. cbn [string_forall].
    apply andb_prop_intro. split; [|done]. unfold pretty_N_char. by repeat case_match. }
  unfold pretty, pretty_N. case_decide; [done|]. by apply Hgo.
Qed.

Lemma clean_FormatUint n : clean (FormatUint n).
Proof. apply clean_pretty_N. Qed.

Lemma clean_Itoa n : clean (Itoa n).
Proof.
  unfold Itoa, pretty, pretty_Z. destruct n; [done|apply clean_pretty_N|].
  cbn [string_forall String.append]. apply (clean_pretty_N (Npos p)).
Qed.

Lemma clean_fmt_frac prec print u acc : clean acc → clean (fmt_frac prec print u acc).1.
Proof.
  revert print u acc. induction prec as [|prec IH]; intros print u acc Hacc; simpl.
  - by destruct print.
  - apply IH. case_match; [|done]. apply clean_app; [apply clean_Itoa|done].
Qed.

Lemma clean_nanoseconds d : clean (nanoseconds_String d).
Proof.
  assert (∀ b : bool, ∀ s, clean s → clean (if b then s else "")) as Hif by by intros [].
  unfold nanoseconds_String. destruct (d <? 1000000000)%Z.
  - destruct (d =? 0)%Z; [done|].
    set (pu := if (d <? 1000)%Z then _ else _).
    assert (clean pu.2) as Hunit by (unfold pu; by repeat case_match).
    destruct pu as [prec unit]. pose proof (clean_fmt_frac prec false d "" I) as Hf.
    destruct (fmt_frac prec false d "") as [frac u].
    repeat (apply clean_app || apply clean_Itoa); done.
  - pose proof (clean_fmt_frac 9 false d "" I) as Hf. destruct (fmt_frac 9 false d "") as [frac u].
    repeat (apply clean_app || apply Hif || apply clean_Itoa); done.
Qed.

Lemma clean_Duration_String d : clean (Duration_String d).
Proof.
  unfold Duration_String. case_match; [|apply clean_nanoseconds]. exact (clean_nanoseconds _).
Qed.

Example Quote_examples `{PrintData} :
  Quote (String "a" (String "010" (String double_quote (String "255" "z"))))
  = String double_quote (String "a" (String backslash (String "n" (String backslash
      (String double_quote (String backslash ("xffz" +:+ String double_quote "")))))))
  ∧ Duration_String (-1500000) = "-1.5ms".
Proof. split; vm_compute; reflexivity. Qed.
