(* ===== verification/Hostnames.v ===== *)
(** * internal/hostnames: host names, domains and DNS labels.

    [NormalizeHost] and [ValidateLabel] decide which session a browser's request is
    routed to, so what matters is that validation accepts exactly the DNS labels, that
    a validated domain is a fixed point of normalisation, and that different users get
    different public hosts. *)

From S2P Require Import Prelude GoStrings.

Section hostnames.
Context `{UnicodeData}.

(** ** Operations *)

Definition NormalizeHost (host : string) : string :=
  let host := TrimSpace (ToLower host) in
  let host := match SplitHostPort host with
              | Ok (parsedHost, _) => parsedHost
              | Err _ => host
              end in
  TrimSuffix1 host ".".

Definition NormalizeDomain (domain : string) : string := NormalizeHost domain.

Definition NormalizeLabel (label : string) : string := TrimSpace (ToLower label).

Definition Subdomain (label domain : string) : string :=
  NormalizeHost (label +:+ "." +:+ domain).

Inductive label_err :=
| LabelEmpty
| LabelTooLong (label : string)
| LabelInvalidChar (label : string) (r : N).

(** The [switch] on the rune [r] at byte index [i] of a label of [len] bytes. *)
Definition label_rune_ok (len i : nat) (r : N) : bool :=
  ((97 <=? r) && (r <=? 122))%N
  || ((48 <=? r) && (r <=? 57))%N
  || ((r =? 45)%N && (0 <? i) && (i <? len - 1)).

Fixpoint validate_runes (label : string) (i : nat) (rs : list (N * nat))
    : result label_err unit :=
  match rs with
  | [] => Ok tt
  | (r, w) :: rs =>
    if label_rune_ok (String.length label) i r then validate_runes label (i + w) rs
    else Err (LabelInvalidChar label r)
  end.

Definition ValidateLabel (label : string) : result label_err unit :=
  _ ← guard_err (bool_decide (label = "")) LabelEmpty;
  _ ← guard_err (63 <? String.length label) (LabelTooLong label);
  validate_runes label 0 (runes label).

Inductive domain_err :=
| DomainRequired
| DomainTooFewLabels (domain : string)
| DomainInvalid (domain : string) (err : label_err).

Definition ValidateDomain (domain : string) : result domain_err unit :=
  let domain := NormalizeDomain domain in
  _ ← guard_err (bool_decide (domain = "")) DomainRequired;
  let labels := Split "." domain in
  _ ← guard_err (length labels <? 2) (DomainTooFewLabels domain);
  foldM (λ _ label, map_err (DomainInvalid domain) (ValidateLabel label)) tt labels.

(** ** What a label is *)

(** RFC 1123: 1 to 63 bytes, letters (lower case here), digits and interior hyphens. *)
Definition dns_label (l : string) : Prop :=
  1 ≤ String.length l ≤ 63 ∧
  ∀ i c, String.get i l = Some c →
    is_lower c ∨ is_digit c ∨ (c = "-"%char ∧ 0 < i ∧ i < String.length l - 1).

Definition label_byte (c : ascii) : bool :=
  is_lower c || is_digit c || bool_decide (c = "-"%char).

(** *** Runes of a byte that is not ASCII *)

Lemma runes_non_ascii c s :
  is_ascii_byte c = false → ∃ r w rs, runes (String c s) = (r, w) :: rs ∧ (128 ≤ r)%N.
Proof.
  intros Hc. cbn [runes]. rewrite Hc.
  unfold rune_error, second_of_3, second_of_4, cont_byte.
  repeat case_match; try (do 3 eexists; split; [done|lia]);
    do 3 eexists; (split; [done|]);
    repeat match goal with
    | E : _ && _ = true |- _ => apply andb_true_iff in E as [? ?]
    | E : (_ <=? _)%N = true |- _ => apply N.leb_le in E
    | E : (_ =? _)%N = true |- _ => apply N.eqb_eq in E
    end; lia.
Qed.

Lemma label_rune_big len i r : (128 ≤ r)%N → label_rune_ok len i r = false.
Proof.
  intros. unfold label_rune_ok.
  rewrite (proj2 (N.leb_gt r 122)), (proj2 (N.leb_gt r 57)), (proj2 (N.eqb_neq r 45)) by lia.
  by rewrite !andb_false_r.
Qed.

Lemma validate_runes_Ok label s i :
  validate_runes label i (runes s) = Ok tt ↔
  ∀ j c, String.get j s = Some c → label_rune_ok (String.length label) (i + j) (code c).
Proof.
  revert i. induction s as [|c s IH]; intros i; [by split|].
  destruct (is_ascii_byte c) eqn:Hc.
  - rewrite runes_ascii_cons by (by rewrite Hc). simpl.
    destruct (label_rune_ok _ i (code c)) eqn:Hok.
    + rewrite IH. split.
      * intros Hs [|j] d Hd; simplify_eq/=.
        { by rewrite Nat.add_0_r, Hok. }
        by replace (i + S j) with (i + 1 + j) by lia; eauto.
      * intros Hs j d Hd. replace (i + 1 + j) with (i + S j) by lia. eauto.
    + split; [done|]. intros Hs. specialize (Hs 0 c eq_refl).
      rewrite Nat.add_0_r, Hok in Hs. done.
  - destruct (runes_non_ascii c s Hc) as (r & w & rs & -> & Hr).
    simpl. rewrite label_rune_big by done. split; [done|].
    intros Hs. specialize (Hs 0 c eq_refl). rewrite label_rune_big in Hs; [done|].
    unfold is_ascii_byte in Hc. apply N.ltb_ge in Hc. done.
Qed.

Lemma label_rune_byte len i c :
  label_rune_ok len i (code c) ↔
  is_lower c ∨ is_digit c ∨ (c = "-"%char ∧ 0 < i ∧ i < len - 1).
Proof.
  unfold label_rune_ok. rewrite !orb_True, !andb_True.
  assert ((code c =? 45)%N ↔ c = "-"%char) as ->.
  { split; [|by intros ->]. byte_cases c. }
  unfold is_lower, is_digit.
  rewrite !andb_True, !Is_true_true, !Nat.ltb_lt. tauto.
Qed.

Lemma ValidateLabel_Ok l : ValidateLabel l = Ok tt ↔ dns_label l.
Proof.
  unfold ValidateLabel, dns_label.
  assert (l = "" ↔ String.length l = 0) as Hnil by (by destruct l).
  split.
  - intros Hv. inv_ok. rewrite validate_runes_Ok in *.
    rewrite bool_decide_eq_false, Hnil, Nat.ltb_ge in *.
    split; [lia|].
    intros i c Hc. rewrite <-label_rune_byte. eauto.
  - intros [Hlen Hbytes].
    rewrite bool_decide_false, (proj2 (Nat.ltb_ge 63 _)) by (rewrite ?Hnil; lia). simpl.
    apply validate_runes_Ok. intros j c Hc. simpl. rewrite label_rune_byte. eauto.
Qed.

#[global] Instance ValidateLabel_dec l : Decision (dns_label l).
Proof.
  refine (cast_if (decide (is_ok (ValidateLabel l) = true)));
    rewrite <-ValidateLabel_Ok; destruct (ValidateLabel l) as [[]|]; simpl in *; congruence.
Defined.

Lemma string_forall_get p s :
  string_forall p s ↔ ∀ i c, String.get i s = Some c → p c.
Proof.
  induction s as [|c s IH]; simpl; [by split|]. rewrite andb_True, IH. split.
  - intros [??] [|i] d Hd; simplify_eq; eauto.
  - intros Hs. split; [by apply (Hs 0)|]. intros i. apply (Hs (S i)).
Qed.

Lemma dns_label_bytes l : dns_label l → string_forall label_byte l.
Proof.
  intros [_ Hl]. rewrite string_forall_get. intros i c Hc.
  unfold label_byte. rewrite !orb_True. destruct (Hl i c Hc) as [?|[?|[-> _]]]; auto.
Qed.

Lemma dns_label_nonempty l : dns_label l → l ≠ "".
Proof. intros [? _] ->. simpl in *. lia. Qed.

(** ** Strings of label bytes and dots *)

Definition domain_byte (c : ascii) : bool := label_byte c || bool_decide (c = "."%char).

Lemma label_byte_domain c : label_byte c → domain_byte c.
Proof. unfold domain_byte. rewrite orb_True. auto. Qed.
Lemma domain_byte_solid c : domain_byte c → solid c.
Proof. byte_cases c. Qed.
Lemma domain_byte_caseless c : domain_byte c → caseless c.
Proof. byte_cases c. Qed.
Lemma label_byte_not_dot c : label_byte c → bool_decide (c = "."%char) = false.
Proof. byte_cases c. Qed.

Lemma has_byte_domain c s :
  string_forall domain_byte s → domain_byte c = false → has_byte c s = false.
Proof.
  intros Hs Hc. induction s as [|d s IH]; simpl in *; [done|].
  rewrite andb_True in Hs. rewrite IH by tauto.
  rewrite bool_decide_false; [done|]. intros ->. rewrite Hc in Hs. tauto.
Qed.

Lemma CutLast_None c s : has_byte c s = false → CutLast c s = None.
Proof.
  induction s as [|d s IH]; simpl; [done|]. rewrite orb_false_iff. intros [-> ?].
  by rewrite IH.
Qed.

Lemma CutLast_app c u s :
  has_byte c u = false →
  CutLast c (u +:+ s) = (λ xy, (u +:+ xy.1, xy.2)) <$> CutLast c s.
Proof.
  induction u as [|d u IH]; simpl.
  { intros _. rewrite app_nil_l_str. by destruct (CutLast c s) as [[??]|]. }
  rewrite orb_false_iff. intros [Hd Hu]. rewrite IH by done.
  destruct (CutLast c s) as [[??]|]; simpl; [done|]. by rewrite Hd.
Qed.

Lemma has_byte_app c s t : has_byte c (s +:+ t) = has_byte c s || has_byte c t.
Proof.
  induction s as [|d s IH]; [done|]. rewrite app_cons_str. simpl. by rewrite IH, orb_assoc.
Qed.

Lemma TrimSuffix1_app s a t c :
  TrimSuffix1 (s +:+ String a t) c = s +:+ TrimSuffix1 (String a t) c.
Proof.
  induction s as [|d s IH]; [done|]. rewrite !app_cons_str. rewrite <-IH.
  by destruct s.
Qed.

(** ** The host of a user *)

(** What [NormalizeHost] makes of the part of [label.domain] after the label. *)
Definition host_tail (domain : string) : string :=
  let x := "." +:+ trim_right (ToLower domain) in
  TrimSuffix1 (match SplitHostPort x with Ok (h, _) => h | Err _ => x end) ".".

(** A label of a host name is untouched: no byte of it is trimmed, lowered or taken
    for a port or a bracket. *)
Lemma SplitHostPort_label_prefix u c x :
  u ≠ "" → string_forall domain_byte u →
  SplitHostPort (u +:+ String c x) =
    match CutLast ":" (String c x) with
    | None => Err MissingPort
    | Some (h, p) =>
      if has_byte ":" h then Err TooManyColons
      else if has_byte "[" (String c x) then Err UnexpectedOpen
      else if has_byte "]" (String c x) then Err UnexpectedClose
      else Ok (u +:+ h, p)
    end.
Proof.
  intros Hne Hu. unfold SplitHostPort.
  rewrite CutLast_app by (by apply has_byte_domain).
  destruct (CutLast ":" (String c x)) as [[h p]|]; [|done]. cbn [fmap option_fmap option_map fst snd].
  destruct u as [|d u]; [done|]. rewrite app_cons_str.
  assert (has_byte ":" (String d u +:+ h) = has_byte ":" h) as Hcol.
  { rewrite has_byte_app, has_byte_domain; done. }
  assert (∀ b, domain_byte b = false →
     has_byte b (String d (u +:+ String c x)) = has_byte b (String c x)) as Hb.
  { intros b Hb. rewrite <-app_cons_str, has_byte_app, has_byte_domain; done. }
  rewrite <-app_cons_str in Hb |- *. rewrite Hcol, !Hb by done. clear Hcol Hb.
  rewrite app_cons_str. simpl in Hu. rewrite andb_True in Hu. destruct Hu as [Hd _].
  destruct d as [[] [] [] [] [] [] [] []]; try done.
Qed.

Lemma CutLast_cons_ne c d s h p :
  d ≠ c → CutLast c (String d s) = Some (h, p) → ∃ h', h = String d h'.
Proof.
  intros Hne. simpl. rewrite bool_decide_false by done.
  destruct (CutLast c s) as [[??]|]; naive_solver.
Qed.

Lemma Subdomain_label u d :
  dns_label u → Subdomain u d = u +:+ host_tail d.
Proof.
  intros Hu. pose proof (dns_label_nonempty u Hu) as Hne.
  assert (string_forall domain_byte u) as Hb.
  { eapply string_forall_impl; [apply label_byte_domain|by apply dns_label_bytes]. }
  unfold Subdomain, NormalizeHost, host_tail.
  rewrite <-app_assoc_str.
  assert (string_forall domain_byte (u +:+ ".")) as Hb1.
  { rewrite string_forall_app. rewrite andb_True. done. }
  rewrite ToLower_caseless_prefix
    by (eapply string_forall_impl; [apply domain_byte_caseless|done]).
  destruct (u +:+ ".") as [|c u'] eqn:Eu; [by destruct u|].
  rewrite TrimSpace_solid_prefix
    by (eapply string_forall_impl; [apply domain_byte_solid|done]).
  rewrite <-Eu. clear c u' Eu Hb1.
  set (x := trim_right (ToLower d)). rewrite app_assoc_str, app_cons_str, app_nil_l_str.
  rewrite SplitHostPort_label_prefix by done. unfold SplitHostPort.
  destruct (CutLast ":" (String "." x)) as [[h p]|] eqn:Hcut; [|by apply TrimSuffix1_app].
  apply CutLast_cons_ne in Hcut as [h' ->]; [|done].
  repeat case_match; simplify_eq; apply TrimSuffix1_app.
Qed.

Lemma append_inj_r (s1 s2 t : string) : s1 +:+ t = s2 +:+ t → s1 = s2.
Proof.
  revert s2. induction s1 as [|c s1 IH]; intros s2 Heq.
  - apply (f_equal String.length) in Heq. rewrite length_app_str in Heq.
    destruct s2; [done|]. rewrite length_app_str in Heq. simpl in *. lia.
  - destruct s2 as [|d s2].
    { apply (f_equal String.length) in Heq. rewrite !length_app_str in Heq. simpl in *. lia. }
    rewrite !app_cons_str in Heq. simplify_eq. f_equal. eauto.
Qed.

Lemma Subdomain_inj u1 u2 d :
  dns_label u1 → dns_label u2 → Subdomain u1 d = Subdomain u2 d → u1 = u2.
Proof. intros ??. rewrite !Subdomain_label by done. apply append_inj_r. Qed.

(** ** Validated domains are normal forms *)

Lemma Split_cons c s : ∃ x l, Split c s = x :: l.
Proof. destruct s; simpl; repeat case_match; eauto. Qed.

Lemma Split_forall p c s :
  Forall (λ l, Is_true (string_forall p l)) (Split c s) →
  string_forall (λ b, p b || bool_decide (b = c)) s.
Proof.
  induction s as [|a s IH]; simpl; [done|].
  rewrite andb_True, orb_True. case_bool_decide as Ha.
  { intros [_ ?]%Forall_cons. auto. }
  destruct (Split_cons c s) as (x & l & Hx). rewrite Hx in *.
  intros [Hax Hl]%Forall_cons. simpl in Hax. rewrite andb_True in Hax.
  destruct Hax. split; [by left|]. apply IH. by constructor.
Qed.

Lemma Split_single c s x : Split c s = [x] → x = s.
Proof.
  revert x. induction s as [|a s IH]; intros x; simpl; [by intros [= ->]|].
  destruct (Split_cons c s) as (y & l & Hy). rewrite Hy in *.
  case_bool_decide; [done|]. intros [= <- ->]. f_equal. by apply IH.
Qed.

Lemma TrimSuffix1_Split c s : last (Split c s) ≠ Some "" → TrimSuffix1 s c = s.
Proof.
  induction s as [|a s IH]; [done|]. intros Hlast.
  destruct s as [|b s].
  { simpl in *. by case_bool_decide. }
  change (String a (TrimSuffix1 (String b s) c) = String a (String b s)).
  f_equal. apply IH. contradict Hlast. revert Hlast.
  remember (String b s) as t eqn:Ht. simpl.
  destruct (Split_cons c t) as (x & l & Hx). rewrite Hx.
  case_bool_decide; [done|]. destruct l as [|y l]; [|done].
  apply Split_single in Hx as ->. by rewrite Ht.
Qed.

Lemma NormalizeHost_domain_bytes d :
  string_forall domain_byte d → NormalizeHost d = TrimSuffix1 d ".".
Proof.
  intros Hd. unfold NormalizeHost.
  rewrite ToLower_caseless by (eapply string_forall_impl; [apply domain_byte_caseless|done]).
  rewrite TrimSpace_solid by (eapply string_forall_impl; [apply domain_byte_solid|done]).
  unfold SplitHostPort. by rewrite CutLast_None by (by apply has_byte_domain).
Qed.

(** What [ValidateDomain] accepts, and the normal form it accepts it for. *)
Definition dns_domain (d : string) : Prop :=
  2 ≤ length (Split "." d) ∧ Forall dns_label (Split "." d).

Lemma foldM_labels_Ok domain labels :
  foldM (λ _ label, map_err (DomainInvalid domain) (ValidateLabel label)) tt labels = Ok tt ↔
  Forall dns_label labels.
Proof.
  induction labels as [|l labels IH]; simpl; [by split; constructor|].
  rewrite bind_Ok, Forall_cons. setoid_rewrite map_err_Ok.
  rewrite <-ValidateLabel_Ok, <-IH. split.
  - intros ([] & ? & ?). done.
  - intros [? ?]. by exists tt.
Qed.

Lemma ValidateDomain_Ok d : ValidateDomain d = Ok tt ↔ dns_domain (NormalizeHost d).
Proof.
  unfold ValidateDomain, dns_domain, NormalizeDomain.
  set (n := NormalizeHost d). rewrite <-(foldM_labels_Ok n). split.
  - intros Hv. inv_ok. rewrite Nat.ltb_ge in *. destruct (foldM _ _ _) as [[]|]; naive_solver.
  - intros [Hlen Hf]. rewrite bool_decide_false, (proj2 (Nat.ltb_ge _ 2)); [done..|].
    intros Hn. rewrite Hn in Hlen. simpl in Hlen. lia.
Qed.

Lemma dns_domain_bytes d : dns_domain d → string_forall domain_byte d.
Proof.
  intros [_ Hl]. apply Split_forall. eapply Forall_impl; [exact Hl|].
  intros l. apply dns_label_bytes.
Qed.

Lemma dns_domain_normal d : dns_domain d → NormalizeHost d = d.
Proof.
  intros Hd. rewrite NormalizeHost_domain_bytes by (by apply dns_domain_bytes).
  apply TrimSuffix1_Split. intros Hlast%last_Some_elem_of.
  destruct Hd as [_ Hl]. rewrite Forall_forall in Hl.
  by destruct (dns_label_nonempty _ (Hl _ Hlast)).
Qed.

(** A port is not part of the name. *)
Lemma NormalizeHost_port d p :
  dns_domain d → string_forall is_digit p → NormalizeHost (d +:+ ":" +:+ p) = d.
Proof.
  intros Hd Hp. pose proof (dns_domain_bytes d Hd) as Hb.
  set (port_byte := λ c, domain_byte c || bool_decide (c = ":"%char)).
  assert (string_forall port_byte (d +:+ ":" +:+ p)) as Hall.
  { rewrite !string_forall_app, !andb_True. split_and!; [|done|].
    - eapply string_forall_impl; [|exact Hb]. intros c Hc. unfold port_byte. by destruct (domain_byte c).
    - eapply string_forall_impl; [|exact Hp]. intros c. subst port_byte. byte_cases c. }
  assert (string_forall domain_byte p) as Hpb.
  { eapply string_forall_impl; [|exact Hp]. intros c. byte_cases c. }
  unfold NormalizeHost.
  rewrite ToLower_caseless
    by (eapply string_forall_impl; [|exact Hall]; intros c; subst port_byte; byte_cases c).
  rewrite TrimSpace_solid
    by (eapply string_forall_impl; [|exact Hall]; intros c; subst port_byte; byte_cases c).
  assert (d ≠ "") as Hne.
  { intros ->. destruct Hd as [Hlen _]. simpl in Hlen. lia. }
  destruct d as [|c d]; [done|].
  assert (CutLast ":" ((String c d) +:+ ":" +:+ p) = Some (String c d, p)) as Hcut.
  { rewrite CutLast_app by (by apply has_byte_domain). simpl.
    rewrite CutLast_None by (by apply has_byte_domain). simpl. by rewrite app_nil_r_str. }
  unfold SplitHostPort. rewrite Hcut.
  assert (c ≠ "["%char) as Hc.
  { intros ->. apply andb_prop_elim in Hb as [Hb _]. by vm_compute in Hb. }
  rewrite app_cons_str in *.
  assert (∀ b, domain_byte b = false → b ≠ ":"%char → has_byte b (String c (d +:+ ":" +:+ p)) = false)
    as Hno.
  { intros b Hbb Hb'. rewrite <-app_cons_str, !has_byte_app, !(has_byte_domain b) by done.
    simpl. rewrite (bool_decide_false (":"%char = b)) by congruence. by apply has_byte_domain. }
  rewrite (has_byte_domain ":" (String c d)), (Hno "["%char), (Hno "]"%char) by done.
  transitivity (TrimSuffix1 (String c d) ".").
  { clear -Hc. destruct c as [[] [] [] [] [] [] [] []]; try reflexivity. by destruct Hc. }
  rewrite <-(NormalizeHost_domain_bytes (String c d)) by done. by apply dns_domain_normal.
Qed.

Lemma Split_app_dot u d :
  string_forall label_byte u → Split "." (u +:+ "." +:+ d) = u :: Split "." d.
Proof.
  induction u as [|c u IH]; intros Hu; [done|].
  rewrite app_cons_str. simpl in Hu. rewrite andb_True in Hu. destruct Hu as [Hc Hu].
  simpl. rewrite label_byte_not_dot, IH by done. done.
Qed.

Lemma Subdomain_dns u d :
  dns_label u → dns_domain d →
  Subdomain u d = u +:+ "." +:+ d ∧ dns_domain (Subdomain u d).
Proof.
  intros Hu Hd. pose proof (dns_domain_bytes d Hd) as Hb.
  assert (dns_domain (u +:+ "." +:+ d)) as Hdom.
  { destruct Hd. unfold dns_domain. rewrite Split_app_dot by (by apply dns_label_bytes).
    simpl. split; [lia|by constructor]. }
  unfold Subdomain. rewrite dns_domain_normal by done. done.
Qed.

(** ** The theorems *)

(** [ValidateLabel] accepts exactly the DNS labels: 1 to 63 bytes, each a lower case
    letter, a digit or a hyphen that is neither first nor last; any byte above ASCII, also
    in a malformed UTF-8 sequence, is refused. *)
Theorem ValidateLabel_correct l : ValidateLabel l = Ok tt ↔ dns_label l.
Proof. apply ValidateLabel_Ok. Qed.

(** [ValidateDomain] accepts exactly the domains whose normal form is two or more DNS
    labels joined by dots, and such a normal form is a fixed point of [NormalizeHost]. *)
Theorem ValidateDomain_correct d :
  (ValidateDomain d = Ok tt ↔
   2 ≤ length (Split "." (NormalizeHost d)) ∧ Forall dns_label (Split "." (NormalizeHost d)))
  ∧ (ValidateDomain d = Ok tt → NormalizeHost (NormalizeHost d) = NormalizeHost d).
Proof.
  rewrite ValidateDomain_Ok. split; [done|]. apply dns_domain_normal.
Qed.

(** Public hosts are well formed and distinct: for a DNS label and a domain in normal
    form [Subdomain] is label.domain, again valid; and over any domain, valid or not,
    different labels have different hosts. *)
Theorem Subdomain_correct u d :
  dns_label u →
  (dns_domain d → Subdomain u d = u +:+ "." +:+ d ∧ ValidateDomain (Subdomain u d) = Ok tt)
  ∧ ∀ u', dns_label u' → Subdomain u d = Subdomain u' d → u = u'.
Proof.
  intros Hu. split.
  - intros Hd. destruct (Subdomain_dns u d Hu Hd) as [Heq Hdom]. split; [done|].
    rewrite ValidateDomain_Ok. by rewrite (dns_domain_normal _ Hdom).
  - intros u' Hu'. by apply Subdomain_inj.
Qed.
End hostnames.

Section witnesses.
#[local] Instance ascii_case : UnicodeData := {| unicode_to_lower := λ r, r |}.

Example Subdomain_correct_witness :
  Subdomain "demo" "example.com" = "demo.example.com"
  ∧ ValidateDomain (Subdomain "demo" "example.com") = Ok tt.
Proof.
  apply (Subdomain_correct "demo" "example.com").
  - apply ValidateLabel_Ok. vm_compute. reflexivity.
  - apply (ValidateDomain_Ok "example.com"). vm_compute. reflexivity.
Defined.
End witnesses.
