(* ===== verification/Proto.v ===== *)
(** * gen/tunnelpb: the frames of the tunnel protocol (proto/tunnel.proto).

    A frame holds one message of a [oneof]; an empty [oneof] is a constructor of its
    own.  Bytes are byte strings.  [repeated Header] is a slice of pointers, so an
    element may be nil. *)

From S2P Require Import Prelude.

Record Header := mkHeader { Key : string; Values : list string }.

Record Register := mkRegister { TunnelId : string; Token : string }.

Record RequestStart := mkRequestStart {
  rs_RequestId : string;
  Method : string;
  Scheme : string;
  Host : string;
  Path : string;
  RawQuery : string;
  rs_Headers : list (option Header);
  RemoteAddr : string;
  RawPath : string }.

Record ResponseStart := mkResponseStart {
  RequestId : string;
  StatusCode : Z;  (** int32 *)
  Headers : list (option Header) }.

Inductive ClientFrame :=
| ClientFrame_Register (m : Register)
| ClientFrame_Pong (unix_nano : Z)
| ClientFrame_ResponseStart (m : ResponseStart)
| ClientFrame_ResponseBody (request_id chunk : string)
| ClientFrame_ResponseEnd (request_id : string)
| ClientFrame_ResponseError (request_id message : string)
| ClientFrame_WsData (request_id payload : string)
| ClientFrame_WsClose (request_id : string)
| ClientFrame_Empty.

Inductive ServerFrame :=
| ServerFrame_RequestStart (m : RequestStart)
| ServerFrame_RequestBody (request_id chunk : string)
| ServerFrame_RequestEnd (request_id : string)
| ServerFrame_CancelRequest (request_id : string)
| ServerFrame_Ping (unix_nano : Z)
| ServerFrame_WsData (request_id payload : string)
| ServerFrame_WsClose (request_id : string)
| ServerFrame_Empty.

(** [ClientFrame.GetRegister]. *)
Definition GetRegister (f : ClientFrame) : option Register :=
  match f with ClientFrame_Register m => Some m | _ => None end.

(** The request a frame of the client belongs to. *)
Definition client_frame_id (f : ClientFrame) : option string :=
  match f with
  | ClientFrame_ResponseStart m => Some (RequestId m)
  | ClientFrame_ResponseBody id _ | ClientFrame_ResponseEnd id
  | ClientFrame_ResponseError id _ | ClientFrame_WsData id _
  | ClientFrame_WsClose id => Some id
  | _ => None
  end.

(** The request a frame of the edge belongs to. *)
Definition server_frame_id (f : ServerFrame) : option string :=
  match f with
  | ServerFrame_RequestStart m => Some (rs_RequestId m)
  | ServerFrame_RequestBody id _ | ServerFrame_RequestEnd id
  | ServerFrame_CancelRequest id | ServerFrame_WsData id _
  | ServerFrame_WsClose id => Some id
  | _ => None
  end.

#[export] Instance Header_eq_dec : EqDecision Header.
Proof. solve_decision. Defined.
#[export] Instance Register_eq_dec : EqDecision Register.
Proof. solve_decision. Defined.
#[export] Instance RequestStart_eq_dec : EqDecision RequestStart.
Proof. solve_decision. Defined.
#[export] Instance ResponseStart_eq_dec : EqDecision ResponseStart.
Proof. solve_decision. Defined.
#[export] Instance ClientFrame_eq_dec : EqDecision ClientFrame.
Proof. solve_decision. Defined.
#[export] Instance ServerFrame_eq_dec : EqDecision ServerFrame.
Proof. solve_decision. Defined.
