(* ===== verification/Headers.v ===== *)
(** * internal/headers: HTTP headers across the tunnel.

    [http.Header] is a map from names to value lists.  A Go [range] over a map visits
    it in an unspecified order, so the loops take the visited list as an argument;
    [iterates] says that it is a legal order, and [ToProto] and [Copy] use stdpp's. *)

From S2P Require Import Prelude GoStrings Proto.

(** ** [net/http.Header] *)

Abbreviation HttpHeader := (gmap string (list string)).

(** [net/textproto]'s table of token bytes. *)
Definition validHeaderFieldByte (c : ascii) : bool :=
  is_lower c || is_upper c || is_digit c
  || bool_decide (c ∈ ["!"; "#"; "$"; "%"; "&"; "'"; "*"; "+"; "-"; "."; "^"; "_"; "`";
                       "|"; "~"]%char).

Fixpoint canonicalize (upper : bool) (s : string) : string :=
  match s with
  | "" => ""
  | String c s =>
    let c := if upper then upper_byte c else lower_byte c in
    String c (canonicalize (bool_decide (c = "-"%char)) s)
  end.

(** [textproto.CanonicalMIMEHeaderKey]. *)
Definition CanonicalHeaderKey (s : string) : string :=
  if string_forall validHeaderFieldByte s then canonicalize true s else s.

(** [Header.Values], [Header.Get], [Header.Add]. *)
Definition Header_Values (h : HttpHeader) (key : string) : list string :=
  h !!! CanonicalHeaderKey key.
Definition Header_Get (h : HttpHeader) (key : string) : string :=
  default "" (head (Header_Values h key)).
Definition Header_Add (h : HttpHeader) (key value : string) : HttpHeader :=
  let key := CanonicalHeaderKey key in <[key := h !!! key ++ [value]]> h.

(** A legal order of a [range] over a map. *)
Definition iterates {V} (m : gmap string V) (l : list (string * V)) : Prop :=
  l ≡ₚ map_to_list m.

Section headers.
Context `{UnicodeData}.

(** ** Operations *)

Definition hopByHopHeaders : gset string :=
  {["keep-alive"; "proxy-authenticate"; "proxy-authorization"; "te"; "trailer";
    "transfer-encoding"]}.

(** The set of tokens is nil ([None]) when there is no Connection header. *)
Definition isHopByHop (key : string) (connectionTokens : option (gset string)) : bool :=
  let lower := ToLower key in
  if bool_decide (lower ∈ hopByHopHeaders) then true
  else match connectionTokens with
       | Some tokens => bool_decide (lower ∈ tokens)
       | None => false
       end.

(** One value of a Connection header: the inner loop over its comma-separated parts. *)
Definition add_tokens (tokens : gset string) (v : string) : gset string :=
  foldl (λ tokens tok,
    let tok := ToLower (TrimSpace tok) in
    if bool_decide (tok = "") || bool_decide (tok = "upgrade") then tokens
    else {[tok]} ∪ tokens) tokens (Split "," v).

Definition connectionTokens (h : HttpHeader) : option (gset string) :=
  let values := Header_Values h "Connection" in
  match values with
  | [] => None
  | _ => Some (foldl add_tokens ∅ values)
  end.

Definition hasUpgrade (h : HttpHeader) : bool :=
  bool_decide (Header_Get h "Upgrade" ≠ "").

Definition shouldStrip (key : string) (connTokens : option (gset string)) (upgrading : bool)
    : bool :=
  let lower := ToLower key in
  if bool_decide (lower = "connection") || bool_decide (lower = "upgrade")
  then negb upgrading
  else isHopByHop lower connTokens.

(** The loop of [ToProto] over the entries of [h] in the order [iter]. *)
Definition ToProto_range (h : HttpHeader) (iter : list (string * list string))
    : list (option Header) :=
  let connTokens := connectionTokens h in
  let upgrading := hasUpgrade h in
  foldl (λ out kv,
    if shouldStrip kv.1 connTokens upgrading then out
    else out ++ [Some (mkHeader kv.1 kv.2)]) [] iter.

Definition ToProto (h : HttpHeader) : list (option Header) :=
  ToProto_range h (map_to_list h).

(** The second loop of [FromProto] deletes from the map it ranges over, which Go
    allows; the entries left are those it does not strip. *)
Definition FromProto (hs : list (option Header)) : HttpHeader :=
  let h := foldl (λ h kv,
    match kv with
    | None => h
    | Some kv => <[Key kv := Values kv]> h
    end) ∅ hs in
  let connTokens := connectionTokens h in
  let upgrading := hasUpgrade h in
  filter (λ kv, shouldStrip kv.1 connTokens upgrading = false) h.

(** The loop of [Copy] over the entries of [src] in the order [iter]. *)
Definition Copy_range (dst : HttpHeader) (iter : list (string * list string)) : HttpHeader :=
  foldl (λ dst kv, foldl (λ dst vv, Header_Add dst kv.1 vv) dst kv.2) dst iter.

Definition Copy (dst src : HttpHeader) : HttpHeader := Copy_range dst (map_to_list src).

(** ** Stripping *)

(** The headers that may cross the tunnel. *)
Definition strip (h : HttpHeader) : HttpHeader :=
  filter (λ kv, shouldStrip kv.1 (connectionTokens h) (hasUpgrade h) = false) h.

Lemma ToProto_range_spec h iter :
  ToProto_range h iter =
  (λ kv : string * list string, Some (mkHeader kv.1 kv.2)) <$>
    filter (λ kv, shouldStrip kv.1 (connectionTokens h) (hasUpgrade h) = false) iter.
Proof.
  exact (foldl_collect
    (λ kv : string * list string, shouldStrip kv.1 (connectionTokens h) (hasUpgrade h))
    (λ kv, Some (mkHeader kv.1 kv.2)) iter []).
Qed.

(** [FromProto] collects the entries and strips them. *)
Definition gather (hs : list (option Header)) : HttpHeader :=
  foldl (λ h kv, match kv with None => h | Some kv => <[Key kv := Values kv]> h end) ∅ hs.

Lemma FromProto_strip hs : FromProto hs = strip (gather hs).
Proof. done. Qed.

Lemma gather_Some (l : list (string * list string)) :
  gather ((λ kv, Some (mkHeader kv.1 kv.2)) <$> l) = list_to_map (reverse l).
Proof.
  rewrite <-foldl_insert_list_to_map. unfold gather.
  generalize (∅ : HttpHeader). induction l as [|[k v] l IH]; intros m; [done|apply IH].
Qed.

(** Whatever the iteration order, the receiver gathers the stripped map. *)
Lemma gather_ToProto h iter :
  iterates h iter → gather (ToProto_range h iter) = strip h.
Proof.
  unfold iterates. intros Hiter. rewrite ToProto_range_spec, gather_Some.
  assert (NoDup iter.*1) as Hnd by (rewrite Hiter; apply NoDup_fst_map_to_list).
  apply map_eq. intros k. apply option_eq. intros v.
  rewrite <-elem_of_list_to_map.
  - rewrite elem_of_reverse, list_elem_of_filter, Hiter, elem_of_map_to_list.
    unfold strip. rewrite map_lookup_filter_Some. tauto.
  - rewrite fmap_reverse, reverse_Permutation. by apply NoDup_fst_filter.
Qed.

(** [connectionTokens] and [hasUpgrade] read one entry each. *)
Lemma connectionTokens_lookup h h' :
  h !! "Connection" = h' !! "Connection" → connectionTokens h = connectionTokens h'.
Proof.
  unfold connectionTokens, Header_Values, lookup_total, map_lookup_total.
  change (CanonicalHeaderKey "Connection") with "Connection". by intros ->.
Qed.

Lemma hasUpgrade_lookup h h' :
  h !! "Upgrade" = h' !! "Upgrade" → hasUpgrade h = hasUpgrade h'.
Proof.
  unfold hasUpgrade, Header_Get, Header_Values, lookup_total, map_lookup_total.
  change (CanonicalHeaderKey "Upgrade") with "Upgrade". by intros ->.
Qed.

Lemma shouldStrip_negotiation k tokens upgrading :
  k = "Connection" ∨ k = "Upgrade" → shouldStrip k tokens upgrading = negb upgrading.
Proof. by intros [-> | ->]. Qed.

Lemma strip_lookup h k :
  strip h !! k =
    if shouldStrip k (connectionTokens h) (hasUpgrade h) then None else h !! k.
Proof.
  apply option_eq. intros v. unfold strip. rewrite map_lookup_filter_Some. simpl.
  destruct (shouldStrip _ _ _); naive_solver.
Qed.

(** Stripping decides the same after stripping: either the upgrade headers are all
    kept, or none of them is left. *)
Lemma shouldStrip_strip h k :
  shouldStrip k (connectionTokens h) (hasUpgrade h) = false →
  shouldStrip k (connectionTokens (strip h)) (hasUpgrade (strip h)) = false.
Proof.
  intros Hk. destruct (hasUpgrade h) eqn:Hup.
  - rewrite (hasUpgrade_lookup (strip h) h), (connectionTokens_lookup (strip h) h), Hup;
      [done|by rewrite strip_lookup, shouldStrip_negotiation, Hup by auto..].
  - rewrite (hasUpgrade_lookup (strip h) ∅), (connectionTokens_lookup (strip h) ∅);
      [|by rewrite strip_lookup, shouldStrip_negotiation, Hup by auto..].
    unfold shouldStrip in *. case_match; [done|].
    unfold isHopByHop in *. case_bool_decide; [done|].
    change (connectionTokens ∅) with (@None (gset string)). done.
Qed.

Lemma strip_idemp h : strip (strip h) = strip h.
Proof.
  apply map_eq. intros k. rewrite (strip_lookup (strip h)).
  destruct (shouldStrip k (connectionTokens h) (hasUpgrade h)) eqn:Hk.
  - rewrite strip_lookup, Hk. by case_match.
  - by rewrite shouldStrip_strip.
Qed.

(** *** Copying *)

(** The values that entries of [iter] contribute to the canonical key [k]. *)
Definition copied (k : string) (iter : list (string * list string)) : list string :=
  mjoin (filter (λ kv, CanonicalHeaderKey kv.1 = k) iter).*2.

Lemma Header_Add_lookup h k v k' :
  Header_Add h k v !!! k' =
    h !!! k' ++ (if decide (CanonicalHeaderKey k = k') then [v] else []).
Proof.
  unfold Header_Add. case_decide as Heq.
  - rewrite Heq, lookup_total_insert_eq. done.
  - rewrite lookup_total_insert_ne by done. by rewrite app_nil_r.
Qed.

Lemma Copy_range_lookup dst iter k :
  Copy_range dst iter !!! k = dst !!! k ++ copied k iter.
Proof.
  unfold Copy_range, copied. revert dst.
  induction iter as [|[key vs] iter IH]; intros dst; simpl; [by rewrite app_nil_r|].
  rewrite IH, filter_cons. cbn [fst].
  assert (∀ dst, foldl (λ dst vv, Header_Add dst key vv) dst vs !!! k =
    dst !!! k ++ if decide (CanonicalHeaderKey key = k) then vs else []) as ->.
  { clear dst. induction vs as [|v vs IHv]; intros dst; simpl.
    { case_decide; by rewrite app_nil_r. }
    rewrite IHv, Header_Add_lookup. case_decide; by rewrite <-app_assoc. }
  case_decide; simpl; [by rewrite <-app_assoc|by rewrite app_nil_r].
Qed.

Lemma copied_canonical src iter k :
  iterates src iter →
  (∀ key, is_Some (src !! key) → CanonicalHeaderKey key = key) →
  copied k iter = src !!! k.
Proof.
  unfold iterates, copied. intros Hiter Hcan.
  assert (∀ kv, kv ∈ iter → CanonicalHeaderKey kv.1 = kv.1) as Hc.
  { intros [key v]. rewrite Hiter, elem_of_map_to_list. simpl. eauto. }
  assert (NoDup iter.*1) as Hnd by (rewrite Hiter; apply NoDup_fst_map_to_list).
  assert (∀ v, (k, v) ∈ iter ↔ src !! k = Some v) as Hk.
  { intros v. by rewrite Hiter, elem_of_map_to_list. }
  rewrite lookup_total_alt. clear Hiter Hcan.
  revert Hk. generalize (src !! k) as o. clear src.
  induction iter as [|[key v] iter IH]; intros o Hk; simpl.
  - destruct o as [v|]; [|done]. by destruct (not_elem_of_nil (k, v)); apply Hk.
  - rewrite filter_cons. cbn [fst].
    assert (CanonicalHeaderKey key = key) as -> by (apply (Hc (key, v)); left).
    rewrite fmap_cons, NoDup_cons in Hnd. destruct Hnd as [Hkey Hnd].
    case_decide as Heq.
    + subst key. assert (o = Some v) as -> by (apply Hk; left).
      assert (mjoin (filter (λ kv, CanonicalHeaderKey kv.1 = k) iter).*2 = []) as Hnil.
      { apply (IH (λ kv Hkv, Hc kv (list_elem_of_further _ _ _ Hkv)) Hnd None).
        intros v'. split; [|done]. intros Hv'. destruct Hkey.
        by apply (list_elem_of_fmap_2 fst) in Hv'. }
      etrans; [exact (f_equal (app v) Hnil)|apply app_nil_r].
    + apply (IH (λ kv Hkv, Hc kv (list_elem_of_further _ _ _ Hkv)) Hnd).
      intros v'. rewrite <-Hk, elem_of_cons. naive_solver.
Qed.

(** *** Connection tokens *)

Lemma add_tokens_elem tokens v tok :
  tok ∈ add_tokens tokens v ↔
  tok ∈ tokens ∨ (tok ≠ "" ∧ tok ≠ "upgrade" ∧ ∃ part, part ∈ Split "," v ∧
                  tok = ToLower (TrimSpace part)).
Proof.
  unfold add_tokens. revert tokens.
  induction (Split "," v) as [|part parts IH]; intros tokens; simpl.
  { split; [by left|]. intros [?|(_ & _ & x & Hx & _)]; [done|]. by apply not_elem_of_nil in Hx. }
  rewrite IH. setoid_rewrite elem_of_cons.
  destruct (bool_decide (ToLower (TrimSpace part) = "")) eqn:E1;
    [|destruct (bool_decide (ToLower (TrimSpace part) = "upgrade")) eqn:E2]; simpl;
    rewrite ?bool_decide_eq_true, ?bool_decide_eq_false in *; [naive_solver..|].
  rewrite elem_of_union, elem_of_singleton. naive_solver.
Qed.

(** The names a Connection header lists. *)
Definition listed (h : HttpHeader) (tok : string) : Prop :=
  ∃ v part, v ∈ Header_Values h "Connection" ∧ part ∈ Split "," v ∧ tok = ToLower (TrimSpace part).

Lemma connectionTokens_elem h tok :
  match connectionTokens h with Some tokens => tok ∈ tokens | None => False end ↔
  tok ≠ "" ∧ tok ≠ "upgrade" ∧ listed h tok.
Proof.
  assert (∀ vs tokens, tok ∈ foldl add_tokens tokens vs ↔
    tok ∈ tokens ∨ (tok ≠ "" ∧ tok ≠ "upgrade" ∧
      ∃ v part, v ∈ vs ∧ part ∈ Split "," v ∧ tok = ToLower (TrimSpace part))) as Hfold.
  { induction vs as [|v vs IH]; intros tokens; simpl.
    { split; [by left|]. intros [?|(_ & _ & x & y & Hx & _)]; [done|]. by apply not_elem_of_nil in Hx. }
    rewrite IH, add_tokens_elem. setoid_rewrite elem_of_cons. naive_solver. }
  unfold connectionTokens, listed. destruct (Header_Values h "Connection") as [|v vs].
  { split; [done|]. intros (_ & _ & x & y & Hx & _). by apply not_elem_of_nil in Hx. }
  rewrite Hfold. set_solver.
Qed.

(** What is stripped, for a name of ASCII bytes. *)
Lemma shouldStrip_spec h k :
  is_ascii k → k ≠ "" →
  shouldStrip k (connectionTokens h) (hasUpgrade h) = false ↔
  if bool_decide (ToLower k = "connection" ∨ ToLower k = "upgrade")
  then Header_Get h "Upgrade" ≠ ""
  else ToLower k ∉ hopByHopHeaders ∧ ¬ listed h (ToLower k).
Proof.
  intros Hk Hne. unfold shouldStrip, hasUpgrade, isHopByHop.
  rewrite <-bool_decide_or. case_bool_decide as Hneg.
  { by rewrite negb_false_iff, bool_decide_eq_true. }
  rewrite ToLower_ascii_idemp by done.
  assert (ToLower k ≠ "") as Hnil.
  { unfold ToLower. rewrite (Is_true_true_1 _ Hk). by destruct k. }
  pose proof (connectionTokens_elem h (ToLower k)) as Htok.
  case_bool_decide; [naive_solver|].
  destruct (connectionTokens h) as [tokens|]; [|naive_solver].
  rewrite bool_decide_eq_false. naive_solver.
Qed.

(** ** The theorems *)

(** C18. Headers cross the tunnel in one piece: whatever order the sender's map is visited
    in, the receiver's [FromProto] of what [ToProto] sent is the sender's map without the
    hop-by-hop headers, and sending that on changes nothing more. *)
Theorem headers_cross h :
  (∀ iter, iterates h iter → FromProto (ToProto_range h iter) = strip h)
  ∧ (∀ iter, iterates (strip h) iter → FromProto (ToProto_range (strip h) iter) = strip h).
Proof.
  split; intros iter Hit; rewrite FromProto_strip, gather_ToProto by done;
    by rewrite ?strip_idemp.
Qed.

(** C19. [FromProto] strips what must not be forwarded, whatever the other side sent: a
    header with an ASCII name is kept, with the values sent last under that name, exactly
    when it is Connection or Upgrade and an upgrade is being negotiated, or it is neither
    one of the six hop-by-hop headers nor listed in a Connection header. *)
Theorem FromProto_keeps hs k v :
  is_ascii k → k ≠ "" →
  FromProto hs !! k = Some v ↔
  gather hs !! k = Some v
  ∧ if bool_decide (ToLower k = "connection" ∨ ToLower k = "upgrade")
    then Header_Get (gather hs) "Upgrade" ≠ ""
    else ToLower k ∉ hopByHopHeaders ∧ ¬ listed (gather hs) (ToLower k).
Proof.
  intros Hk Hne. rewrite FromProto_strip, strip_lookup, <-shouldStrip_spec by done.
  destruct (shouldStrip _ _ _); naive_solver.
Qed.

(** [Copy] merges: for a source with canonical names every name of the destination
    ends up with its old values followed by the source's, in their order, whatever order
    the source is visited in. *)
Theorem Copy_merges dst src iter k :
  iterates src iter →
  (∀ key, is_Some (src !! key) → CanonicalHeaderKey key = key) →
  Copy_range dst iter !!! k = dst !!! k ++ src !!! k.
Proof. intros Hit Hcan. by rewrite Copy_range_lookup, (copied_canonical src). Qed.
End headers.

Section witnesses.
#[local] Instance ascii_case : UnicodeData := {| unicode_to_lower := λ r, r |}.

(** A Connection header lists X-Internal, and nothing is being upgraded. *)
Definition sent : list (option Header) :=
  [Some (mkHeader "Connection" ["close, X-Internal"]); Some (mkHeader "X-Internal" ["1"]); None;
   Some (mkHeader "Accept" ["text/html"; "*/*"]); Some (mkHeader "Te" ["trailers"])].

Example FromProto_keeps_witness :
  FromProto sent !! "Accept" = Some ["text/html"; "*/*"]
  ∧ FromProto sent !! "X-Internal" = None ∧ FromProto sent !! "Te" = None.
Proof.
  split; [|split; vm_compute; reflexivity].
  assert (is_ascii "Accept") as Hk by exact I.
  apply (FromProto_keeps sent "Accept" _ Hk); [done|].
  split; [vm_compute; reflexivity|].
  rewrite bool_decide_false by (intros [Heq|Heq]; vm_compute in Heq; congruence).
  assert ("Accept" ≠ "") as Hne by done.
  pose proof (shouldStrip_spec (gather sent) "Accept" Hk Hne) as Hspec.
  rewrite bool_decide_false in Hspec by (intros [Heq|Heq]; vm_compute in Heq; congruence).
  apply Hspec. vm_compute. reflexivity.
Defined.

Example Copy_merges_witness :
  Copy_range {[ "Accept" := ["a"] ]} [("Accept", ["b"; "c"])] !!! "Accept" = ["a"; "b"; "c"].
Proof.
  rewrite (Copy_merges {[ "Accept" := ["a"] ]} {[ "Accept" := ["b"; "c"] ]}).
  - vm_compute. reflexivity.
  - unfold iterates. by rewrite map_to_list_singleton.
  - intros key [vs Hkey]. apply lookup_singleton_Some in Hkey as [<- _]. vm_compute. reflexivity.
Defined.
End witnesses.
