(* ===== verification/Channels.v ===== *)
(** * Go's errors, bounded channels and [sync.Once] as the program uses them.

    A buffered channel is its queue; the capacity is an argument of [chan_send], which
    is [None] when a send would block.  A channel that is only ever closed is a flag. *)

From S2P Require Import Prelude.

(** The error values the program compares or passes on. *)
Inductive GoError :=
| errSessionClosed
| errSessionReplaced
| errSessionEnded
| ContextCanceled
| ContextDeadlineExceeded
| EOF
| ErrClosedPipe
| ErrServerClosed
| ErrNew (msg : string)
| StatusInvalidArgument (msg : string)
| StatusUnauthenticated (msg : string).

#[export] Instance GoError_eq_dec : EqDecision GoError.
Proof. solve_decision. Defined.

(** [errors.Is(err, target)] on values that wrap nothing; a nil target matches nothing. *)
Definition errors_Is (err : GoError) (target : option GoError) : bool :=
  bool_decide (Some err = target).

Section chan.
Context {A : Type}.

Definition chan_send (cap : nat) (q : list A) (x : A) : option (list A) :=
  if length q <? cap then Some (q ++ [x]) else None.

Definition chan_recv (q : list A) : option (A * list A) :=
  match q with [] => None | x :: q => Some (x, q) end.

Lemma chan_send_Some cap q x q' :
  chan_send cap q x = Some q' ↔ length q < cap ∧ q' = q ++ [x].
Proof.
  unfold chan_send. case_match eqn:E; rewrite ?Nat.ltb_lt, ?Nat.ltb_ge in E; naive_solver lia.
Qed.

Lemma chan_send_None cap q x : chan_send cap q x = None ↔ cap ≤ length q.
Proof.
  unfold chan_send. case_match eqn:E; rewrite ?Nat.ltb_lt, ?Nat.ltb_ge in E; naive_solver lia.
Qed.

Lemma chan_send_length cap q x q' : chan_send cap q x = Some q' → length q' ≤ cap.
Proof. rewrite chan_send_Some. intros [? ->]. rewrite length_app. simpl. lia. Qed.

Lemma chan_recv_Some q x q' : chan_recv q = Some (x, q') ↔ q = x :: q'.
Proof. destruct q; naive_solver. Qed.
End chan.

(** [sync.Once]: a second caller of [Do] waits for the first one to return. *)
Inductive once_state := OnceNew | OnceRunning | OnceDone.

#[export] Instance once_state_eq_dec : EqDecision once_state.
Proof. solve_decision. Defined.
