(* ===== verification/ResponseState.v ===== *)
(** * server: [responseState] and [wsState], what a browser's handler and the session's
      receive loop share about one request. *)

From S2P Require Import Prelude Proto Channels.

Definition responseBodyQueueDepth : nat := 4.
Definition wsInboundQueueDepth : nat := 4.

Record responseState := mkRS {
  start : list ResponseStart;   (** chan, capacity 1 *)
  body : list string;           (** chan, capacity [responseBodyQueueDepth] *)
  done : bool;                  (** closed *)
  err : list GoError;           (** chan, capacity 1 *)
  rs_once : bool }.             (** the once has run *)

Definition newResponseState : responseState := mkRS [] [] false [] false.

(** [close] runs at most once, under [once.Do], so it never panics. *)
Definition finish (r : responseState) : responseState :=
  if rs_once r then r else mkRS (start r) (body r) true (err r) true.

(** The non-blocking send on [err] and the close, one section under the once. *)
Definition fail (r : responseState) (e : option GoError) : responseState :=
  if rs_once r then r
  else
    let errq := match e with
                | Some e => default (err r) (chan_send 1 (err r) e)
                | None => err r
                end in
    mkRS (start r) (body r) true errq true.

Definition consumeErr (r : responseState) : option GoError * responseState :=
  match chan_recv (err r) with
  | Some (e, q) => (Some e, mkRS (start r) (body r) (done r) q (rs_once r))
  | None => (None, r)
  end.

Definition consumeStart (r : responseState) : option ResponseStart * responseState :=
  match chan_recv (start r) with
  | Some (m, q) => (Some m, mkRS q (body r) (done r) (err r) (rs_once r))
  | None => (None, r)
  end.

Definition consumeBody (r : responseState) : option string * responseState :=
  match chan_recv (body r) with
  | Some (c, q) => (Some c, mkRS (start r) q (done r) (err r) (rs_once r))
  | None => (None, r)
  end.

(** The sends of [handleClientFrame]; [None] blocks. *)
Definition push_start (r : responseState) (m : ResponseStart) : option responseState :=
  q ← chan_send 1 (start r) m; Some (mkRS q (body r) (done r) (err r) (rs_once r)).
Definition push_body (r : responseState) (c : string) : option responseState :=
  q ← chan_send responseBodyQueueDepth (body r) c;
  Some (mkRS (start r) q (done r) (err r) (rs_once r)).

Record wsState := mkWS {
  fromClient : list string;     (** chan, capacity [wsInboundQueueDepth] *)
  ws_done : bool }.

Definition new_wsState : wsState := mkWS [] false.
Definition ws_close (w : wsState) : wsState := mkWS (fromClient w) true.

Definition push_ws (w : wsState) (d : string) : option wsState :=
  q ← chan_send wsInboundQueueDepth (fromClient w) d; Some (mkWS q (ws_done w)).

(** ** Invariant *)

(** The capacities, and: the done channel is closed exactly when the once has run; an
    error is only ever there after that. *)
Definition rs_ok (r : responseState) : Prop :=
  length (start r) ≤ 1 ∧ length (body r) ≤ responseBodyQueueDepth ∧ length (err r) ≤ 1
  ∧ done r = rs_once r ∧ (done r = false → err r = []).

Create HintDb rs discriminated.

Lemma new_ok : rs_ok newResponseState.
Proof. unfold rs_ok, responseBodyQueueDepth; simpl; naive_solver lia. Qed.

Lemma finish_ok r : rs_ok r → rs_ok (finish r).
Proof. unfold rs_ok, finish. case_match; simpl; naive_solver. Qed.

Lemma fail_ok r e : rs_ok r → rs_ok (fail r e).
Proof.
  unfold rs_ok, fail. intros (? & ? & ? & Hd & He).
  destruct (rs_once r) eqn:E; [naive_solver|].
  destruct e as [e|]; simpl; [|naive_solver].
  rewrite He by done. simpl. naive_solver lia.
Qed.

Lemma consumeErr_ok r : rs_ok r → rs_ok (consumeErr r).2.
Proof. unfold rs_ok, consumeErr. destruct (err r) eqn:E; simpl; rewrite ?E; naive_solver lia. Qed.
Lemma consumeStart_ok r : rs_ok r → rs_ok (consumeStart r).2.
Proof.
  unfold rs_ok, consumeStart. destruct (start r) eqn:E; simpl; rewrite ?E; simpl; naive_solver lia.
Qed.
Lemma consumeBody_ok r : rs_ok r → rs_ok (consumeBody r).2.
Proof.
  unfold rs_ok, consumeBody. destruct (body r) eqn:E; simpl; rewrite ?E; simpl; naive_solver lia.
Qed.
Lemma push_start_ok r m r' : push_start r m = Some r' → rs_ok r → rs_ok r'.
Proof.
  unfold rs_ok, push_start. intros (q & Hq%chan_send_length & [= <-])%bind_Some. naive_solver.
Qed.
Lemma push_body_ok r c r' : push_body r c = Some r' → rs_ok r → rs_ok r'.
Proof.
  unfold rs_ok, push_body. intros (q & Hq%chan_send_length & [= <-])%bind_Some. naive_solver.
Qed.
#[export] Hint Resolve new_ok finish_ok fail_ok consumeErr_ok consumeStart_ok consumeBody_ok
  push_start_ok push_body_ok : rs.

Lemma fail_done r e : rs_ok r → done (fail r e) = true.
Proof. unfold rs_ok, fail. destruct (rs_once r) eqn:E; naive_solver. Qed.
Lemma finish_done r : rs_ok r → done (finish r) = true.
Proof. unfold rs_ok, finish. destruct (rs_once r) eqn:E; naive_solver. Qed.
