(* ===== verification/Server.v ===== *)
(** * server: the edge's state and the operations on it.

    Pointers to sessions, response states and WebSocket states are indices into the
    heaps of [state], so that a session the server has forgotten can still be held by
    a handler.  Each definition is one critical section or one atomic operation of
    the code; Steps.v runs them in the order, and with the interleavings, of the
    goroutines. *)

From S2P Require Import Prelude GoStrings Hostnames Proto Headers Channels ResponseState.

Definition defaultMaxInflightPerSession : Z := 128.
Definition defaultMaxTotalInflight : Z := 512.
Definition sessionOutboundQueueDepth : nat := 16.
Definition publicBadGatewayMessage : string := "upstream tunnel request failed".
Definition second : Z := 1000000000.

Inductive inflightLimit := inflightLimitNone | inflightLimitPerSession | inflightLimitTotal.

(** ** Data *)

Record Config := mkConfig {
  PublicDomain : string;
  TokenUsers : gmap string string;
  HeartbeatInterval : Z;
  MaxInflightPerSession : Z;
  MaxTotalInflight : Z }.

Record Server := mkServer {
  publicDomain : string;
  tokenUsers : gmap string string;
  publicHosts : gset string;
  heartbeat : Z;
  maxInflight : Z;
  maxTotalInflight : Z;
  totalInflight : Z;            (** atomic.Int64 *)
  sessions : gmap string nat;   (** public host to session pointer *)
  nextSessionID : Z;            (** atomic.Uint64 *)
  nextRequestID : Z }.          (** atomic.Uint64 *)

Record session := mkSession {
  sid : Z;
  publicHost : string;
  username : string;
  outbound : list ServerFrame;  (** chan, capacity [sessionOutboundQueueDepth] *)
  sess_done : bool;             (** closed *)
  sess_once : once_state;
  inflight : gmap string nat;   (** request id to response state pointer *)
  wsMap : gmap string nat }.

Record state := mkState {
  srv : Server;
  sessH : list session;
  rsH : list responseState;
  wsH : list wsState }.

(** *** Field updates *)

Definition set_total (s : Server) (n : Z) : Server :=
  mkServer (publicDomain s) (tokenUsers s) (publicHosts s) (heartbeat s) (maxInflight s)
    (maxTotalInflight s) n (sessions s) (nextSessionID s) (nextRequestID s).
Definition set_sessions (s : Server) (m : gmap string nat) : Server :=
  mkServer (publicDomain s) (tokenUsers s) (publicHosts s) (heartbeat s) (maxInflight s)
    (maxTotalInflight s) (totalInflight s) m (nextSessionID s) (nextRequestID s).
Definition set_nextSessionID (s : Server) (n : Z) : Server :=
  mkServer (publicDomain s) (tokenUsers s) (publicHosts s) (heartbeat s) (maxInflight s)
    (maxTotalInflight s) (totalInflight s) (sessions s) n (nextRequestID s).
Definition set_nextRequestID (s : Server) (n : Z) : Server :=
  mkServer (publicDomain s) (tokenUsers s) (publicHosts s) (heartbeat s) (maxInflight s)
    (maxTotalInflight s) (totalInflight s) (sessions s) (nextSessionID s) n.

Definition set_outbound (s : session) (q : list ServerFrame) : session :=
  mkSession (sid s) (publicHost s) (username s) q (sess_done s) (sess_once s)
    (inflight s) (wsMap s).
Definition set_inflight (s : session) (m : gmap string nat) : session :=
  mkSession (sid s) (publicHost s) (username s) (outbound s) (sess_done s) (sess_once s)
    m (wsMap s).
Definition set_wsMap (s : session) (m : gmap string nat) : session :=
  mkSession (sid s) (publicHost s) (username s) (outbound s) (sess_done s) (sess_once s)
    (inflight s) m.
Definition set_once (s : session) (d : bool) (o : once_state) : session :=
  mkSession (sid s) (publicHost s) (username s) (outbound s) d o (inflight s) (wsMap s).

Definition put_srv (st : state) (s : Server) : state := mkState s (sessH st) (rsH st) (wsH st).
Definition put_sess (st : state) (p : nat) (s : session) : state :=
  mkState (srv st) (<[p := s]> (sessH st)) (rsH st) (wsH st).
Definition put_rs (st : state) (p : nat) (r : responseState) : state :=
  mkState (srv st) (sessH st) (<[p := r]> (rsH st)) (wsH st).
Definition put_ws (st : state) (p : nat) (w : wsState) : state :=
  mkState (srv st) (sessH st) (rsH st) (<[p := w]> (wsH st)).

Section server.
Context `{UnicodeData}.

(** ** Construction *)

Inductive config_err :=
| InvalidPublicDomain (e : domain_err)
| EmptyToken
| InvalidUsername (username : string) (e : label_err)
| ReservedUsername
| DuplicateUsername (username previousToken token : string).

(** The body of the loop over [cfg.TokenUsers]; the accumulator holds [tokenUsers],
    [publicHosts] and [userToToken]. *)
Definition New_user (publicDomain : string)
    (acc : gmap string string * gset string * gmap string string) (kv : string * string)
    : result config_err (gmap string string * gset string * gmap string string) :=
  let '(tokenUsers, publicHosts, userToToken) := acc in
  let token := kv.1 in
  _ ← guard_err (bool_decide (token = "")) EmptyToken;
  let username := NormalizeLabel kv.2 in
  _ ← map_err (InvalidUsername username) (ValidateLabel username);
  _ ← guard_err (bool_decide (username = "edge")) ReservedUsername;
  match (userToToken : gmap string string) !! username with
  | Some previousToken => Err (DuplicateUsername username previousToken token)
  | None =>
    Ok (<[token := username]> tokenUsers,
        {[Subdomain username publicDomain]} ∪ publicHosts,
        <[username := token]> userToToken)
  end.

(** [New], the loop visiting the credentials in the order [iter]. *)
Definition New_range (cfg : Config) (iter : list (string * string)) : result config_err Server :=
  let publicDomain := NormalizeDomain (PublicDomain cfg) in
  _ ← map_err InvalidPublicDomain (ValidateDomain publicDomain);
  let hb := if (HeartbeatInterval cfg <=? 0)%Z then (10 * second)%Z else HeartbeatInterval cfg in
  let mi := if (MaxInflightPerSession cfg <=? 0)%Z then defaultMaxInflightPerSession
            else MaxInflightPerSession cfg in
  let mt := if (MaxTotalInflight cfg <=? 0)%Z then defaultMaxTotalInflight
            else MaxTotalInflight cfg in
  acc ← foldM (New_user publicDomain) (∅, ∅, ∅) iter;
  Ok (mkServer publicDomain acc.1.1 acc.1.2 hb mi mt 0 ∅ 0 0).

Definition New (cfg : Config) : result config_err Server :=
  New_range cfg (map_to_list (TokenUsers cfg)).

(** ** Hosts *)

Definition HasPublicHost (s : Server) (host : string) : bool :=
  let host := NormalizeHost host in bool_decide (host ∈ publicHosts s).

(** [sort.Strings] over the hosts. *)
Definition PublicHosts (s : Server) : list string :=
  merge_sort String.le (elements (publicHosts s)).

Definition getSession (s : Server) (publicHost : string) : option nat :=
  sessions s !! publicHost.

(** ** Requests in flight *)

Definition TotalInflight (s : Server) : Z := totalInflight s.

(** [tryReserveGlobalSlot] up to its [CompareAndSwap]: [inl] is its answer, [inr] the
    value the swap expects. *)
Definition reserve_load (s : Server) : Server * (bool + Z) :=
  if (maxTotalInflight s <=? 0)%Z
  then (set_total s (wrap_i64 (totalInflight s + 1)), inl true)
  else
    let current := totalInflight s in
    if (maxTotalInflight s <=? current)%Z then (s, inl false) else (s, inr current).

(** The [CompareAndSwap]; [None] sends the loop round again. *)
Definition reserve_cas (s : Server) (current : Z) : option Server :=
  if (totalInflight s =? current)%Z then Some (set_total s (wrap_i64 (current + 1))) else None.

Definition releaseGlobalSlots (s : Server) (count : Z) : Server :=
  if (count <=? 0)%Z then s else set_total s (wrap_i64 (totalInflight s - count)).

Definition inflightLimitMessage (limit : inflightLimit) : string :=
  match limit with
  | inflightLimitTotal => "too many total in-flight requests on edge"
  | _ => "too many in-flight requests for tunnel session"
  end.

(** [session.tryStart]: the new response state is allocated at the end of the heap. *)
Definition tryStart (st : state) (p : nat) (id : string) (maxInflight : Z)
    : option (state * option nat) :=
  s ← sessH st !! p;
  if (0 <? maxInflight)%Z && (maxInflight <=? Z.of_nat (size (inflight s)))%Z
  then Some (st, None)
  else
    let r := length (rsH st) in
    Some (mkState (srv st) (<[p := set_inflight s (<[id := r]> (inflight s))]> (sessH st))
            (rsH st ++ [newResponseState]) (wsH st), Some r).

Definition sess_get (st : state) (p : nat) (id : string) : option nat :=
  s ← sessH st !! p; inflight s !! id.

(** [session.del]. *)
Definition sess_del (st : state) (p : nat) (id : string) : option (state * bool) :=
  s ← sessH st !! p;
  match inflight s !! id with
  | None => Some (st, false)
  | Some _ => Some (put_sess st p (set_inflight s (delete id (inflight s))), true)
  end.

Definition putWS (st : state) (p : nat) (id : string) (w : nat) : option state :=
  s ← sessH st !! p; Some (put_sess st p (set_wsMap s (<[id := w]> (wsMap s)))).
Definition getWS (st : state) (p : nat) (id : string) : option nat :=
  s ← sessH st !! p; wsMap s !! id.
Definition delWS (st : state) (p : nat) (id : string) : option state :=
  s ← sessH st !! p; Some (put_sess st p (set_wsMap s (delete id (wsMap s)))).

(** ** Sessions *)

Definition fail_at (e : option GoError) (h : list responseState) (r : nat) : list responseState :=
  alter (λ x, fail x e) r h.
Definition close_at (h : list wsState) (w : nat) : list wsState := alter ws_close w h.

(** [session.failAll]: every request is failed and every WebSocket closed, both maps
    are emptied, and the number of requests is returned. *)
Definition failAll (st : state) (p : nat) (e : option GoError) : option (state * Z) :=
  s ← sessH st !! p;
  let released := Z.of_nat (size (inflight s)) in
  Some (mkState (srv st) (<[p := set_wsMap (set_inflight s ∅) ∅]> (sessH st))
          (foldl (fail_at e) (rsH st) (map_to_list (inflight s)).*2)
          (foldl close_at (wsH st) (map_to_list (wsMap s)).*2), released).

(** [session.shutdown] up to the close: [None] waits for a running once, [false] says
    the once has run before. *)
Definition shutdown_enter (st : state) (p : nat) : option (state * bool) :=
  s ← sessH st !! p;
  match sess_once s with
  | OnceNew => Some (put_sess st p (set_once s true OnceRunning), true)
  | OnceRunning => None
  | OnceDone => Some (st, false)
  end.

(** The rest of [shutdown]: [failAll], after which the once is done. *)
Definition shutdown_fail (st : state) (p : nat) (e : GoError) : option (state * Z) :=
  '(st, released) ← failAll st p (Some e);
  s ← sessH st !! p;
  Some (put_sess st p (set_once s (sess_done s) OnceDone), released).

(** The session [Connect] creates for a registered user. *)
Definition new_session (id : Z) (username publicDomain : string) : session :=
  mkSession id (Subdomain username publicDomain) username [] false OnceNew ∅ ∅.

(** The critical section of [putSession]; returns the session it replaced. *)
Definition putSession (s : Server) (host : string) (p : nat) : Server * option nat :=
  let replaced := sessions s !! host in
  (set_sessions s (<[host := p]> (sessions s)),
   match replaced with
   | Some old => if bool_decide (old = p) then None else Some old
   | None => None
   end).

Definition removeSession (s : Server) (publicHost : string) (current : nat) : Server :=
  if bool_decide (sessions s !! publicHost = Some current)
  then set_sessions s (delete publicHost (sessions s)) else s.

Definition schemeOf (tls : bool) : string := if tls then "https" else "http".
End server.
