(* ===== verification/Steps.v ===== *)
(** * server: the goroutines of the edge and their interleavings.

    A thread is a goroutine with its program counter and local variables: an HTTP
    handler ([ServeHTTP], [serveWebSocket]), the reader it starts for a WebSocket, a
    [Connect] call with the send loop and the heartbeat it starts.  A step of a thread
    is one critical section, atomic operation, channel operation or call to the
    outside; the [choice] says which ready arm of a [select] is taken and what the
    outside answers.  [exec] runs one labelled step and is a function, so a schedule
    can be evaluated; [step] is the union over all labels. *)

From S2P Require Import Prelude GoStrings Hostnames Proto Headers Channels ResponseState Server.

(** ** Requests and responses *)

Record Request := mkRequest {
  r_Host : string;
  r_Method : string;
  r_Path : string;
  r_RawPath : string;
  r_RawQuery : string;
  r_RemoteAddr : string;
  r_TLS : bool;
  r_Header : HttpHeader;
  (** What successive [Read]s of the body return; nil for no body. *)
  r_Body : option (list (string * option GoError));
  (** The response writer is an [http.Hijacker]. *)
  r_Hijacker : bool }.

(** What a handler does to its response writer, or to the hijacked connection. *)
Inductive wevent :=
| WHeader (code : Z) (h : HttpHeader)
| WBody (chunk : string)
| WError (msg : string) (code : Z)
| WNotFound
| WPanic
| WConn (data : string).

(** ** Threads *)

(** The request a handler serves, once it has started it. *)
Record reqctx := mkK { k_sess : nat; k_id : string; k_rs : nat; k_ws : option nat }.

(** Program points of [forwardRequest]. *)
Inductive fwd_pc :=
| FStart
| FLoop (reads : list (string * option GoError))
| FChunk (chunk : string) (e : option GoError) (reads : list (string * option GoError))
| FEnd.

Inductive http_pc :=
| PStart
| PNextID (p : nat)
| PReserve (p : nat) (id : string) (ws : bool)
| PCas (p : nat) (id : string) (ws : bool) (current : Z)
| PTryStart (p : nat) (id : string) (ws : bool)
| PUndo
| PPutWS (p : nat) (id : string) (r : nat)
| PForward (k : reqctx) (f : fwd_pc)
| PWait (k : reqctx)
| PBody (k : reqctx)
| PWrite (k : reqctx) (chunk : string) (draining : bool)
| PDrain (k : reqctx)
| PCancel (k : reqctx)
| PWsWait (k : reqctx)
| PHijack (k : reqctx) (m : ResponseStart)
| PHandshake (k : reqctx) (m : ResponseStart)
| PWsLoop (k : reqctx) (reader : nat)
| PWsWrite (k : reqctx) (reader : nat) (data : string)
| PCloseWS (k : reqctx)
| PDelWS (k : reqctx)
| PFinish (k : reqctx)
| PRelease
| PDone.

(** What [handleClientFrame] is delivering. *)
Inductive delivery :=
| DStart (r : nat) (m : ResponseStart)
| DBody (r : nat) (chunk : string)
| DWs (w : nat) (data : string).

Inductive conn_pc :=
| CFirst
| CReplEnter (p old : nat)
| CReplFail (p old : nat)
| CReplRelease (p : nat) (count : Z)
| CSpawn (p : nat)
| CRecv (p snd : nat)
| CDeliver (p snd : nat) (d : delivery)
| CShutEnter (p snd : nat) (recvErr : option GoError)
| CShutFail (p snd : nat) (recvErr : option GoError)
| CShutRelease (p snd : nat) (recvErr : option GoError) (count : Z)
| CWaitSend (p snd : nat) (recvErr : option GoError)
| CRemove (p : nat) (ret : option GoError)
| CReturn (ret : option GoError).

Inductive read_pc :=
| RInit
| RBuffered (data : string)
| RRead
| RSend (data : string) (e : option GoError)
| RClose
| RDone.

Inductive thread :=
| THttp (r : Request) (ctx : option GoError) (out : list wevent) (pc : http_pc)
| TReader (p : nat) (id : string) (pc : read_pc)
| TConn (pc : conn_pc)
| TSend (p : nat) (sent : list ServerFrame) (sendErr : option (option GoError))
| TBeat (p : nat) (running : bool).

(** ** Choices *)

Inductive choice :=
| Go                                        (** the only thing to do *)
| OnSessDone | OnCtx | OnSend | OnDefault   (** arms of selects *)
| OnStart | OnErr | OnDone | OnBody
| OnWsData | OnWsDone | OnReadDone
| OnStreamDone (e : GoError)
| OnTick (unix_nano : Z)
| IO (ok : bool)                            (** a call to the outside succeeds or not *)
| IOErr (e : GoError)
| Read (data : string) (e : option GoError)
| Recv (f : ClientFrame)
| RecvErr (e : GoError).

(** ** Sending to a session *)

Definition enqueue (st : state) (p : nat) (f : ServerFrame) : option state :=
  s ← sessH st !! p;
  q ← chan_send sessionOutboundQueueDepth (outbound s) f;
  Some (put_sess st p (set_outbound s q)).

Definition is_closed (st : state) (p : nat) : bool :=
  match sessH st !! p with Some s => sess_done s | None => false end.

Definition sendFrame (st : state) (p : nat) (f : ServerFrame) (c : choice)
    : option (state * option GoError) :=
  match c with
  | OnSessDone => if is_closed st p then Some (st, Some errSessionClosed) else None
  | OnSend => st ← enqueue st p f; Some (st, None)
  | _ => None
  end.

Definition sendFrameCtx (ctx : option GoError) (st : state) (p : nat) (f : ServerFrame)
    (c : choice) : option (state * option GoError) :=
  match c with
  | OnSessDone => if is_closed st p then Some (st, Some errSessionClosed) else None
  | OnCtx => e ← ctx; Some (st, Some e)
  | OnSend => st ← enqueue st p f; Some (st, None)
  | _ => None
  end.

(** The default arm is taken only when no other is ready. *)
Definition cancelRequest (st : state) (p : nat) (id : string) (c : choice) : option state :=
  let frame := ServerFrame_CancelRequest id in
  match c with
  | OnSessDone => if is_closed st p then Some st else None
  | OnSend => enqueue st p frame
  | OnDefault =>
    match enqueue st p frame with
    | None => if is_closed st p then None else Some st
    | Some _ => None
    end
  | _ => None
  end.

Section steps.
Context `{UnicodeData}.

(** ** [forwardRequest] *)

Definition request_start (r : Request) (id : string) : RequestStart :=
  mkRequestStart id (r_Method r) (schemeOf (r_TLS r)) (r_Host r) (r_Path r) (r_RawQuery r)
    (ToProto (r_Header r)) (r_RemoteAddr r) (r_RawPath r).

(** After a [Read] whose bytes, if any, have been sent. *)
Definition after_read (e : option GoError) (reads : list (string * option GoError))
    : fwd_pc + option GoError :=
  match e with
  | Some EOF => inl FEnd
  | Some e => inr (Some e)
  | None => inl (FLoop reads)
  end.

(** [inl] goes on inside [forwardRequest], [inr] returns from it. *)
Definition forwardRequest (st : state) (r : Request) (ctx : option GoError) (p : nat)
    (id : string) (f : fwd_pc) (c : choice) : option (state * (fwd_pc + option GoError)) :=
  match f with
  | FStart =>
    '(st, e) ← sendFrameCtx ctx st p (ServerFrame_RequestStart (request_start r id)) c;
    Some (st, match e with
              | Some e => inr (Some e)
              | None => inl (match r_Body r with None => FEnd | Some reads => FLoop reads end)
              end)
  | FLoop reads =>
    match c with
    | Go =>
      match ctx with
      | Some e => Some (st, inr (Some e))
      | None =>
        let '(chunk, e, rest) :=
          match reads with
          | [] => ("", Some EOF, [])
          | (chunk, e) :: rest => (chunk, e, rest)
          end in
        Some (st, if bool_decide (chunk = "") then after_read e rest
                  else inl (FChunk chunk e rest))
      end
    | _ => None
    end
  | FChunk chunk e reads =>
    '(st, e') ← sendFrameCtx ctx st p (ServerFrame_RequestBody id chunk) c;
    Some (st, match e' with Some e' => inr (Some e') | None => after_read e reads end)
  | FEnd =>
    '(st, e) ← sendFrameCtx ctx st p (ServerFrame_RequestEnd id) c; Some (st, inr e)
  end.

(** ** Handlers *)

(** The deferred calls of a handler that returns: [delWS] for a WebSocket request,
    then [finishRequest]. *)
Definition exit (k : reqctx) : http_pc :=
  match k_ws k with Some _ => PDelWS k | None => PFinish k end.

Definition badGateway : wevent := WError publicBadGatewayMessage 502.

(** [WriteHeader] of [net/http] panics on a code outside 100 to 999. *)
Definition write_header (k : reqctx) (m : ResponseStart) : list wevent * http_pc :=
  if ((StatusCode m <? 100) || (999 <? StatusCode m))%Z
  then ([WPanic], exit k)
  else ([WHeader (StatusCode m) (Copy ∅ (FromProto (Headers m)))], PBody k).

(** [writeChunk] skips an empty chunk. *)
Definition write_chunk (k : reqctx) (chunk : string) (draining : bool) : http_pc :=
  if bool_decide (chunk = "") then (if draining then PDrain k else PBody k)
  else PWrite k chunk draining.

(** The HTTP/1.1 response of an accepted upgrade. *)
Definition handshake (h : HttpHeader) : string :=
  let crlf := String "013" (String "010" "") in
  "HTTP/1.1 101 Switching Protocols" +:+ crlf
  +:+ foldr (λ kv acc,
        foldr (λ v acc, kv.1 +:+ ": " +:+ v +:+ crlf +:+ acc) acc kv.2) "" (map_to_list h)
  +:+ crlf.

(** What a step of a handler yields: the state, what it wrote, where it goes on, and a
    goroutine it started. *)
Definition hres : Type := state * list wevent * http_pc * list thread.

(** The first part of [ServeHTTP] and of [serveWebSocket], up to the registered
    request. *)
Definition http_enter (st : state) (r : Request) (pc : http_pc) : option hres :=
  match pc with
  | PStart =>
    let host := NormalizeHost (r_Host r) in
    if HasPublicHost (srv st) host then
      match getSession (srv st) host with
      | None => Some (st, [WError "no connected tunnel for host" 502], PDone, [])
      | Some p => Some (st, [], PNextID p, [])
      end
    else Some (st, [WNotFound], PDone, [])
  | PNextID p =>
    let n := wrap_u64 (nextRequestID (srv st) + 1) in
    Some (put_srv st (set_nextRequestID (srv st) n), [],
          PReserve p (FormatUint n) (EqualFold (Header_Get (r_Header r) "Upgrade") "websocket"),
          [])
  | PReserve p id ws =>
    let '(s, res) := reserve_load (srv st) in
    Some (put_srv st s,
          match res with
          | inl false => [WError (inflightLimitMessage inflightLimitTotal) 503]
          | _ => []
          end,
          match res with
          | inl true => PTryStart p id ws
          | inl false => PDone
          | inr current => PCas p id ws current
          end, [])
  | PCas p id ws current =>
    match reserve_cas (srv st) current with
    | Some s => Some (put_srv st s, [], PTryStart p id ws, [])
    | None => Some (st, [], PReserve p id ws, [])
    end
  | PTryStart p id ws =>
    '(st, res) ← tryStart st p id (maxInflight (srv st));
    Some (st, [], match res with
                  | None => PUndo
                  | Some rp => if ws : bool then PPutWS p id rp
                               else PForward (mkK p id rp None) FStart
                  end, [])
  | PUndo =>
    Some (put_srv st (releaseGlobalSlots (srv st) 1),
          [WError (inflightLimitMessage inflightLimitPerSession) 503], PDone, [])
  | PPutWS p id rp =>
    let w := length (wsH st) in
    st ← putWS (mkState (srv st) (sessH st) (rsH st) (wsH st ++ [new_wsState])) p id w;
    Some (st, [], PForward (mkK p id rp (Some w)) FStart, [])
  | _ => None
  end.

(** [forwardRequest] has returned. *)
Definition forwarded (ctx : option GoError) (k : reqctx) (e : option GoError)
    : list wevent * http_pc :=
  match e with
  | None => ([], match k_ws k with Some _ => PWsWait k | None => PWait k end)
  | Some e =>
    if errors_Is e (Some ContextCanceled) || errors_Is e ctx then ([], exit k)
    else ([badGateway], exit k)
  end.

(** The two loops of [ServeHTTP] on the response state. *)
Definition http_respond (st : state) (ctx : option GoError) (pc : http_pc) (c : choice)
    : option hres :=
  match pc with
  | PWait k =>
    r ← rsH st !! k_rs k;
    match c with
    | OnStart =>
      '(m, q) ← chan_recv (start r);
      let '(out, pc) := write_header k m in
      Some (put_rs st (k_rs k) (consumeStart r).2, out, pc, [])
    | OnErr =>
      '(e, q) ← chan_recv (err r);
      Some (put_rs st (k_rs k) (consumeErr r).2, [badGateway], exit k, [])
    | OnDone =>
      if done r then
        match consumeStart r with
        | (Some m, r) =>
          let '(out, pc) := write_header k m in Some (put_rs st (k_rs k) r, out, pc, [])
        | (None, r) =>
          match consumeErr r with
          | (Some e, r) => Some (put_rs st (k_rs k) r, [badGateway], exit k, [])
          | (None, _) =>
            Some (st, [WError "tunnel closed response before sending headers" 502], exit k, [])
          end
        end
      else None
    | OnCtx => _ ← ctx; Some (st, [], PCancel k, [])
    | _ => None
    end
  | PBody k =>
    r ← rsH st !! k_rs k;
    match c with
    | OnBody =>
      '(chunk, q) ← chan_recv (body r);
      Some (put_rs st (k_rs k) (consumeBody r).2, [], write_chunk k chunk false, [])
    | OnDone => if done r then Some (st, [], PDrain k, []) else None
    | OnCtx => _ ← ctx; Some (st, [], PCancel k, [])
    | _ => None
    end
  | PWrite k chunk draining =>
    match c with
    | IO true => Some (st, [WBody chunk], if draining then PDrain k else PBody k, [])
    | IO false => Some (st, [], PCancel k, [])
    | _ => None
    end
  | PDrain k =>
    r ← rsH st !! k_rs k;
    match c with
    | Go =>
      match consumeBody r with
      | (Some chunk, r) => Some (put_rs st (k_rs k) r, [], write_chunk k chunk true, [])
      | (None, r) => Some (put_rs st (k_rs k) (consumeErr r).2, [], exit k, [])
      end
    | _ => None
    end
  | PCancel k =>
    st ← cancelRequest st (k_sess k) (k_id k) c; Some (st, [], exit k, [])
  | _ => None
  end.

(** The rest of [serveWebSocket].  [self] is the index the reader goroutine gets,
    [read_done] says whether a reader has finished. *)
Definition http_websocket (st : state) (r : Request) (ctx : option GoError) (self : nat)
    (read_done : nat → bool) (pc : http_pc) (c : choice) : option hres :=
  match pc with
  | PWsWait k =>
    rs ← rsH st !! k_rs k;
    match c with
    | OnStart =>
      '(m, q) ← chan_recv (start rs);
      let st := put_rs st (k_rs k) (consumeStart rs).2 in
      if negb (StatusCode m =? 101)%Z then
        let '(out, _) := write_header k m in Some (st, out, exit k, [])
      else if r_Hijacker r then Some (st, [], PHijack k m, [])
      else Some (st, [WError "WebSocket requires HTTP/1.1" 505], exit k, [])
    | OnErr =>
      '(e, q) ← chan_recv (err rs);
      Some (put_rs st (k_rs k) (consumeErr rs).2, [badGateway], exit k, [])
    | OnDone =>
      if done rs then
        match consumeErr rs with
        | (Some e, rs) => Some (put_rs st (k_rs k) rs, [badGateway], exit k, [])
        | (None, _) => Some (st, [WError "tunnel closed connection" 502], exit k, [])
        end
      else None
    | OnSessDone =>
      if is_closed st (k_sess k) then Some (st, [WError "session closed" 502], exit k, [])
      else None
    | OnCtx => _ ← ctx; Some (st, [], PCancel k, [])
    | _ => None
    end
  | PHijack k m =>
    match c with
    | IO true => Some (st, [], PHandshake k m, [])
    | IO false => Some (st, [], exit k, [])
    | _ => None
    end
  | PHandshake k m =>
    match c with
    | IO true =>
      Some (st, [WConn (handshake (FromProto (Headers m)))], PWsLoop k self,
            [TReader (k_sess k) (k_id k) RInit])
    | IO false => Some (st, [], PCloseWS k, [])
    | _ => None
    end
  | PWsLoop k reader =>
    w ← k_ws k; ws ← wsH st !! w;
    match c with
    | OnWsData =>
      '(data, q) ← chan_recv (fromClient ws);
      Some (put_ws st w (mkWS q (ws_done ws)), [], PWsWrite k reader data, [])
    | OnWsDone => if ws_done ws then Some (st, [], PCloseWS k, []) else None
    | OnReadDone => if read_done reader then Some (st, [], PCloseWS k, []) else None
    | OnSessDone => if is_closed st (k_sess k) then Some (st, [], PCloseWS k, []) else None
    | OnCtx => _ ← ctx; Some (st, [], PCloseWS k, [])
    | _ => None
    end
  | PWsWrite k reader data =>
    match c with
    | IO true => Some (st, [WConn data], PWsLoop k reader, [])
    | IO false => Some (st, [], PCloseWS k, [])
    | OnDefault => Some (st, [WConn data], PCloseWS k, [])  (* the deadline is not cleared *)
    | _ => None
    end
  | _ => None
  end.

(** The deferred calls, last registered first. *)
Definition http_exit (st : state) (pc : http_pc) : option hres :=
  match pc with
  | PCloseWS k =>
    w ← k_ws k; ws ← wsH st !! w; Some (put_ws st w (ws_close ws), [], PDelWS k, [])
  | PDelWS k => st ← delWS st (k_sess k) (k_id k); Some (st, [], PFinish k, [])
  | PFinish k =>
    '(st, ok) ← sess_del st (k_sess k) (k_id k);
    Some (st, [], if ok : bool then PRelease else PDone, [])
  | PRelease => Some (put_srv st (releaseGlobalSlots (srv st) 1), [], PDone, [])
  | _ => None
  end.

Definition http_step (st : state) (r : Request) (ctx : option GoError) (self : nat)
    (read_done : nat → bool) (pc : http_pc) (c : choice) : option hres :=
  match pc with
  | PStart | PNextID _ | PReserve _ _ _ | PCas _ _ _ _ | PTryStart _ _ _ | PUndo
  | PPutWS _ _ _ =>
    match c with Go => http_enter st r pc | _ => None end
  | PForward k f =>
    '(st, res) ← forwardRequest st r ctx (k_sess k) (k_id k) f c;
    match res with
    | inl f => Some (st, [], PForward k f, [])
    | inr e => let '(out, pc) := forwarded ctx k e in Some (st, out, pc, [])
    end
  | PWait _ | PBody _ | PWrite _ _ _ | PDrain _ | PCancel _ => http_respond st ctx pc c
  | PWsWait _ | PHijack _ _ | PHandshake _ _ | PWsLoop _ _ | PWsWrite _ _ _ =>
    http_websocket st r ctx self read_done pc c
  | PCloseWS _ | PDelWS _ | PFinish _ | PRelease =>
    match c with Go => http_exit st pc | _ => None end
  | PDone => None
  end.

(** ** The WebSocket reader *)

Definition reader_step (st : state) (p : nat) (id : string) (pc : read_pc) (c : choice)
    : option (state * read_pc) :=
  match pc with
  | RInit =>
    match c with
    | Read data _ => Some (st, if bool_decide (data = "") then RRead else RBuffered data)
    | _ => None
    end
  | RBuffered data => '(st, _) ← sendFrame st p (ServerFrame_WsData id data) c; Some (st, RRead)
  | RRead =>
    match c with
    | Read data e =>
      Some (st, if bool_decide (data = "") then match e with Some _ => RClose | None => RRead end
                else RSend data e)
    | _ => None
    end
  | RSend data e =>
    '(st, sendErr) ← sendFrame st p (ServerFrame_WsData id data) c;
    Some (st, match sendErr, e with
              | Some _, _ => RDone
              | None, Some _ => RClose
              | None, None => RRead
              end)
  | RClose => '(st, _) ← sendFrame st p (ServerFrame_WsClose id) c; Some (st, RDone)
  | RDone => None
  end.

(** ** [Connect] *)

(** [handleClientFrame]: what it does at once, and what it still has to deliver. *)
Definition handleClientFrame (st : state) (p : nat) (f : ClientFrame)
    : state * option delivery :=
  match f with
  | ClientFrame_ResponseStart m =>
    (st, (λ r, DStart r m) <$> sess_get st p (RequestId m))
  | ClientFrame_ResponseBody id chunk => (st, (λ r, DBody r chunk) <$> sess_get st p id)
  | ClientFrame_ResponseEnd id =>
    (match sess_get st p id with
     | Some r => mkState (srv st) (sessH st) (alter finish r (rsH st)) (wsH st)
     | None => st
     end, None)
  | ClientFrame_ResponseError id message =>
    (match sess_get st p id with
     | Some r => mkState (srv st) (sessH st) (fail_at (Some (ErrNew message)) (rsH st) r) (wsH st)
     | None => st
     end, None)
  | ClientFrame_WsData id payload => (st, (λ w, DWs w payload) <$> getWS st p id)
  | ClientFrame_WsClose id =>
    (match getWS st p id with
     | Some w => mkState (srv st) (sessH st) (rsH st) (close_at (wsH st) w)
     | None => st
     end, None)
  | ClientFrame_Pong _ | ClientFrame_Register _ | ClientFrame_Empty => (st, None)
  end.

(** The selects of [handleClientFrame]: send, or give up on a closed done channel. *)
Definition deliver (st : state) (d : delivery) (c : choice) : option state :=
  match d, c with
  | DStart p m, OnSend => r ← rsH st !! p; r ← push_start r m; Some (put_rs st p r)
  | DBody p chunk, OnSend => r ← rsH st !! p; r ← push_body r chunk; Some (put_rs st p r)
  | DWs p data, OnSend => w ← wsH st !! p; w ← push_ws w data; Some (put_ws st p w)
  | DStart p _, OnDone | DBody p _, OnDone =>
    r ← rsH st !! p; if done r then Some st else None
  | DWs p _, OnDone => w ← wsH st !! p; if ws_done w then Some st else None
  | _, _ => None
  end.

(** The checks of [Connect] on the first frame: the authenticated user. *)
Definition authenticate (s : Server) (first : ClientFrame) : result GoError string :=
  match GetRegister first with
  | None => Err (StatusInvalidArgument "first frame must be a register frame")
  | Some reg =>
    _ ← guard_err (bool_decide (Token reg = "")) (StatusUnauthenticated "missing client token");
    match tokenUsers s !! Token reg with
    | None => Err (StatusUnauthenticated "invalid client token")
    | Some username => Ok username
    end
  end.

Definition shutdownErr (recvErr : option GoError) : GoError := default errSessionClosed recvErr.

(** [send_result] is what the send loop of a session has put on [sendErr]; [self] is
    the index the first goroutine started gets. *)
Definition conn_step (st : state) (self : nat) (send_result : nat → option (option GoError))
    (pc : conn_pc) (c : choice) : option (state * conn_pc * list thread) :=
  match pc with
  | CFirst =>
    match c with
    | RecvErr e => Some (st, CReturn (Some e), [])
    | Recv first =>
      match authenticate (srv st) first with
      | Err e => Some (st, CReturn (Some e), [])
      | Ok username =>
        let id := wrap_u64 (nextSessionID (srv st) + 1) in
        let sess := new_session id username (publicDomain (srv st)) in
        let p := length (sessH st) in
        let '(s, replaced) :=
          putSession (set_nextSessionID (srv st) id) (publicHost sess) p in
        Some (mkState s (sessH st ++ [sess]) (rsH st) (wsH st),
              match replaced with Some old => CReplEnter p old | None => CSpawn p end, [])
      end
    | _ => None
    end
  | CReplEnter p old =>
    match c with
    | Go =>
      '(st, first) ← shutdown_enter st old;
      Some (st, if first : bool then CReplFail p old else CReplRelease p 0, [])
    | _ => None
    end
  | CReplFail p old =>
    match c with
    | Go => '(st, n) ← shutdown_fail st old errSessionReplaced; Some (st, CReplRelease p n, [])
    | _ => None
    end
  | CReplRelease p n =>
    match c with
    | Go => Some (put_srv st (releaseGlobalSlots (srv st) n), CSpawn p, [])
    | _ => None
    end
  | CSpawn p =>
    match c with Go => Some (st, CRecv p self, [TSend p [] None; TBeat p true]) | _ => None end
  | CRecv p snd =>
    match c with
    | Recv f =>
      let '(st, d) := handleClientFrame st p f in
      Some (st, match d with Some d => CDeliver p snd d | None => CRecv p snd end, [])
    | RecvErr e => Some (st, CShutEnter p snd (if errors_Is e (Some EOF) then None else Some e), [])
    | _ => None
    end
  | CDeliver p snd d => st ← deliver st d c; Some (st, CRecv p snd, [])
  | CShutEnter p snd e =>
    match c with
    | Go =>
      '(st, first) ← shutdown_enter st p;
      Some (st, if first : bool then CShutFail p snd e else CShutRelease p snd e 0, [])
    | _ => None
    end
  | CShutFail p snd e =>
    match c with
    | Go => '(st, n) ← shutdown_fail st p (shutdownErr e); Some (st, CShutRelease p snd e n, [])
    | _ => None
    end
  | CShutRelease p snd e n =>
    match c with
    | Go => Some (put_srv st (releaseGlobalSlots (srv st) n), CWaitSend p snd e, [])
    | _ => None
    end
  | CWaitSend p snd e =>
    match c with
    | Go =>
      sendErr ← send_result snd;
      Some (st, CRemove p (match sendErr with
                           | Some x => if errors_Is x (Some ContextCanceled) then e else Some x
                           | None => e
                           end), [])
    | _ => None
    end
  | CRemove p ret =>
    match c with
    | Go =>
      s ← sessH st !! p;
      Some (put_srv st (removeSession (srv st) (publicHost s) p), CReturn ret, [])
    | _ => None
    end
  | CReturn _ => None
  end.

(** The send loop [Connect] starts. *)
Definition send_step (st : state) (p : nat) (sent : list ServerFrame)
    (sendErr : option (option GoError)) (c : choice)
    : option (state * list ServerFrame * option (option GoError)) :=
  match sendErr with
  | Some _ => None
  | None =>
    match c with
    | OnStreamDone e => Some (st, sent, Some (Some e))
    | OnSessDone => if is_closed st p then Some (st, sent, Some None) else None
    | OnSend | IOErr _ =>
      s ← sessH st !! p;
      '(f, q) ← chan_recv (outbound s);
      let st := put_sess st p (set_outbound s q) in
      Some (match c with
            | IOErr e => (st, sent, Some (Some e))
            | _ => (st, sent ++ [f], None)
            end)
    | _ => None
    end
  end.

(** The heartbeat [Connect] starts; a tick on a full queue is skipped. *)
Definition beat_step (st : state) (p : nat) (running : bool) (c : choice)
    : option (state * bool) :=
  if running then
    match c with
    | OnStreamDone _ => Some (st, false)
    | OnSessDone => if is_closed st p then Some (st, false) else None
    | OnTick nano => st ← enqueue st p (ServerFrame_Ping nano); Some (st, true)
    | OnDefault =>
      match enqueue st p (ServerFrame_Ping 0) with
      | None => if is_closed st p then None else Some (st, true)
      | Some _ => None
      end
    | _ => None
    end
  else None.

(** ** The whole edge *)

Record world := mkWorld { st : state; threads : list thread }.

Inductive label :=
| LStep (i : nat) (c : choice)
| LCancel (i : nat) (e : GoError)     (** the context of a request ends *)
| LRequest (r : Request)              (** a request arrives *)
| LConnect.                           (** a stream is opened *)

Definition read_done (ts : list thread) (i : nat) : bool :=
  match ts !! i with Some (TReader _ _ RDone) => true | _ => false end.

Definition send_result (ts : list thread) (i : nat) : option (option GoError) :=
  match ts !! i with Some (TSend _ _ r) => r | _ => None end.

Definition thread_step (st : state) (ts : list thread) (t : thread) (c : choice)
    : option (state * thread * list thread) :=
  match t with
  | THttp r ctx out pc =>
    '(st, ev, pc, new) ← http_step st r ctx (length ts) (read_done ts) pc c;
    Some (st, THttp r ctx (out ++ ev) pc, new)
  | TReader p id pc => '(st, pc) ← reader_step st p id pc c; Some (st, TReader p id pc, [])
  | TConn pc =>
    '(st, pc, new) ← conn_step st (length ts) (send_result ts) pc c; Some (st, TConn pc, new)
  | TSend p sent r => '(st, sent, r) ← send_step st p sent r c; Some (st, TSend p sent r, [])
  | TBeat p run => '(st, run) ← beat_step st p run c; Some (st, TBeat p run, [])
  end.

Definition cancel_thread (e : GoError) (t : thread) : option thread :=
  match t with
  | THttp r None out pc => Some (THttp r (Some e) out pc)
  | _ => None
  end.

Definition exec (w : world) (l : label) : option world :=
  match l with
  | LStep i c =>
    t ← threads w !! i;
    '(s, t, new) ← thread_step (st w) (threads w) t c;
    Some (mkWorld s (<[i := t]> (threads w) ++ new))
  | LCancel i e =>
    t ← threads w !! i; t ← cancel_thread e t;
    Some (mkWorld (st w) (<[i := t]> (threads w)))
  | LRequest r => Some (mkWorld (st w) (threads w ++ [THttp r None [] PStart]))
  | LConnect => Some (mkWorld (st w) (threads w ++ [TConn CFirst]))
  end.

Definition step (w w' : world) : Prop := ∃ l, exec w l = Some w'.

(** A schedule. *)
Fixpoint run (w : world) (ls : list label) : option world :=
  match ls with
  | [] => Some w
  | l :: ls => w ← exec w l; run w ls
  end.

Definition init_world (s : Server) : world := mkWorld (mkState s [] [] []) [].

Lemma run_rtc w ls w' : run w ls = Some w' → rtc step w w'.
Proof.
  revert w. induction ls as [|l ls IH]; intros w; simpl.
  { by intros [= ->]. }
  intros (w1 & Hl & Hls)%bind_Some. eapply rtc_l; [by exists l|eauto].
Qed.

Lemma run_nsteps w ls w' : run w ls = Some w' → nsteps step (length ls) w w'.
Proof.
  revert w. induction ls as [|l ls IH]; intros w; simpl.
  { intros [= ->]. constructor. }
  intros (w1 & Hl & Hls)%bind_Some. eapply nsteps_l; [by exists l|eauto].
Qed.
End steps.
