(* ===== verification/Scenario.v ===== *)
(** * server: a small edge to run.

    One user, one client, one browser.  The schedules below are evaluated by the
    witnesses of the theorems about the edge. *)

From S2P Require Import Prelude GoStrings Hostnames Proto Headers Channels ResponseState Server.
From S2P Require Import Steps.

Module Scenario.

(** A case table that leaves the runes of 128 and above alone. *)
#[export] Instance ascii_case : UnicodeData := {| unicode_to_lower := λ r, r |}.

Definition config : Config :=
  mkConfig "Example.com" {[ "demo-token" := "Demo" ]} 0 1 2.

Definition server : Server :=
  mkServer "example.com" {[ "demo-token" := "demo" ]} {["demo.example.com"]}
    (10 * second) 1 2 0 ∅ 0 0.

Lemma server_new : New config = Ok server.
Proof. vm_compute. reflexivity. Qed.

Definition start_world : world := init_world server.

Definition register : ClientFrame := ClientFrame_Register (mkRegister "" "demo-token").

Definition request : Request :=
  mkRequest "demo.example.com" "GET" "/" "" "" "192.0.2.1:5" true ∅ None true.

(** The client connects: thread 0 is its [Connect], 1 the send loop, 2 the heartbeat. *)
Definition connect : list label := [LConnect; LStep 0 (Recv register); LStep 0 Go].

(** A browser's request, thread 3, up to the reserved slot. *)
Definition arrive : list label :=
  [LRequest request; LStep 3 Go; LStep 3 Go; LStep 3 Go; LStep 3 Go].

(** It is registered and forwarded. *)
Definition forward : list label := [LStep 3 Go; LStep 3 OnSend; LStep 3 OnSend].

Definition respond : list label :=
  [LStep 0 (Recv (ClientFrame_ResponseStart (mkResponseStart "1" 200 []))); LStep 0 OnSend;
   LStep 3 OnStart].

Definition chunk : ClientFrame := ClientFrame_ResponseBody "1" "x".

(** Four chunks fill the queue, a fifth waits; the browser leaves. *)
Definition overrun : list label :=
  mjoin (replicate 4 [LStep 0 (Recv chunk); LStep 0 OnSend]) ++ [LStep 0 (Recv chunk)].
Definition leave : list label :=
  [LCancel 3 ContextCanceled; LStep 3 OnCtx; LStep 3 OnSend; LStep 3 Go; LStep 3 Go].

(** The stream ends and its [Connect] returns. *)
Definition hang_up : list label :=
  [LStep 0 (RecvErr EOF); LStep 0 Go; LStep 0 Go; LStep 0 Go; LStep 1 OnSessDone;
   LStep 0 Go; LStep 0 Go].

(** A whole exchange: the response is written and the slot given back. *)
Definition complete : list label :=
  [LStep 0 (Recv chunk); LStep 0 OnSend; LStep 3 OnBody; LStep 3 (IO true);
   LStep 0 (Recv (ClientFrame_ResponseEnd "1")); LStep 3 OnDone; LStep 3 Go; LStep 3 Go;
   LStep 3 Go].

Definition after (ls : list label) : world := default start_world (run start_world ls).

End Scenario.
