(* ===== verification/Abstract.v ===== *)
(** * server: an abstract account of the edge's steps.

    For the bookkeeping of requests only a few kinds of steps matter.  This file
    states them as relations [http_abs] and [conn_abs] between program points and
    states, and shows that every step of Steps.v is one of them: the detailed
    handlers refine this account, and the invariants are proved against it. *)

From S2P Require Import Prelude GoStrings Hostnames Proto Headers Channels ResponseState Server.
From S2P Require Import Steps.

(** ** What a thread holds *)

(** Slots of [totalInflight] a thread has reserved or has still to give back, apart
    from those of registered requests. *)
Definition http_pending (pc : http_pc) : Z :=
  match pc with PTryStart _ _ _ | PUndo | PRelease => 1 | _ => 0 end.
Definition conn_pending (pc : conn_pc) : Z :=
  match pc with CReplRelease _ n | CShutRelease _ _ _ n => n | _ => 0 end.
Definition pending (t : thread) : Z :=
  match t with THttp _ _ _ pc => http_pending pc | TConn pc => conn_pending pc | _ => 0 end.

(** The registered request a handler serves: session, id, response state. *)
Definition http_holds (pc : http_pc) : option (nat * string * nat) :=
  match pc with
  | PPutWS p id r => Some (p, id, r)
  | PForward k _ | PWait k | PBody k | PWrite k _ _ | PDrain k | PCancel k | PWsWait k
  | PHijack k _ | PHandshake k _ | PWsLoop k _ | PWsWrite k _ _ | PCloseWS k | PDelWS k
  | PFinish k => Some (k_sess k, k_id k, k_rs k)
  | _ => None
  end.
Definition holds (t : thread) : option (nat * string * nat) :=
  match t with THttp _ _ _ pc => http_holds pc | _ => None end.

(** The request id a handler has drawn and not yet dropped. *)
Definition http_ident (pc : http_pc) : option string :=
  match pc with
  | PReserve _ id _ | PCas _ id _ _ | PTryStart _ id _ => Some id
  | _ => (λ x, x.1.2) <$> http_holds pc
  end.
Definition ident (t : thread) : option string :=
  match t with THttp _ _ _ pc => http_ident pc | _ => None end.

(** The session a thread works for. *)
Definition http_sess (pc : http_pc) : option nat :=
  match pc with
  | PNextID p | PReserve p _ _ | PCas p _ _ _ | PTryStart p _ _ => Some p
  | _ => (λ x, x.1.1) <$> http_holds pc
  end.

(** Response states a [Connect] is delivering to. *)
Definition delivers (t : thread) : option nat :=
  match t with
  | TConn (CDeliver _ _ (DStart r _)) | TConn (CDeliver _ _ (DBody r _)) => Some r
  | _ => None
  end.

(** ** Steps that do not change the bookkeeping *)

(** The session keeps its identity and its requests; its done channel stays closed
    and its once stays done. *)
Record same_reg (s s' : session) : Prop := {
  reg_sid : sid s' = sid s;
  reg_host : publicHost s' = publicHost s;
  reg_user : username s' = username s;
  reg_inflight : inflight s' = inflight s;
  reg_done : sess_done s = true → sess_done s' = true;
  reg_once : sess_once s = OnceDone → sess_once s' = OnceDone }.

#[export] Instance same_reg_refl : Reflexive same_reg.
Proof. by constructor. Qed.

Lemma same_reg_all l : Forall2 same_reg l l.
Proof. reflexivity. Qed.

(** Only the response states of [T] may change. *)
Record quiet (T : nat → Prop) (st st' : state) : Prop := {
  quiet_srv : srv st' = srv st;
  quiet_sess : Forall2 same_reg (sessH st) (sessH st');
  quiet_len : length (rsH st') = length (rsH st);
  quiet_rs : ∀ q, ¬ T q → rsH st' !! q = rsH st !! q }.

Definition none : nat → Prop := λ _, False.

Lemma quiet_refl T st : quiet T st st.
Proof. constructor; [done|apply same_reg_all|done..]. Qed.

Lemma quiet_mono (T T' : nat → Prop) st st' :
  (∀ q, T q → T' q) → quiet T st st' → quiet T' st st'.
Proof. intros ? []. constructor; eauto. Qed.

Lemma quiet_put_sess T st p s s' :
  sessH st !! p = Some s → same_reg s s' → quiet T st (put_sess st p s').
Proof.
  intros Hs Hreg. constructor; [done| |done..]. simpl.
  rewrite <-(list_insert_id (sessH st) p s) at 1 by done.
  apply Forall2_insert; [apply same_reg_all|done].
Qed.

Lemma quiet_put_rs (T : nat → Prop) st p r : T p → quiet T st (put_rs st p r).
Proof.
  intros. constructor; [done|apply same_reg_all|..]; simpl.
  - by rewrite length_insert.
  - intros q Hq. apply list_lookup_insert_ne. by intros ->.
Qed.

Lemma quiet_alter_rs (T : nat → Prop) st p f :
  T p → quiet T st (mkState (srv st) (sessH st) (alter f p (rsH st)) (wsH st)).
Proof.
  intros. constructor; [done|apply same_reg_all|..]; simpl.
  - by rewrite length_alter.
  - intros q Hq. apply list_lookup_alter_ne. by intros ->.
Qed.

Lemma quiet_put_ws T st p w : quiet T st (put_ws st p w).
Proof. constructor; [done|apply same_reg_all|done..]. Qed.
Lemma quiet_wsH T st h : quiet T st (mkState (srv st) (sessH st) (rsH st) h).
Proof. constructor; [done|apply same_reg_all|done..]. Qed.

Create HintDb quiet discriminated.
#[export] Hint Resolve quiet_refl quiet_put_rs quiet_alter_rs quiet_put_ws quiet_wsH : quiet.
#[export] Hint Extern 1 (same_reg _ _) => by constructor : quiet.

Lemma enqueue_quiet T st p f st' : enqueue st p f = Some st' → quiet T st st'.
Proof.
  unfold enqueue. intros (s & Hs & (q & _ & [= <-])%bind_Some)%bind_Some.
  eapply quiet_put_sess; [done|by constructor].
Qed.

Lemma sendFrame_quiet T st p f c st' e : sendFrame st p f c = Some (st', e) → quiet T st st'.
Proof.
  unfold sendFrame. destruct c; try done.
  - case_match; [|done]. intros [= <- <-]. apply quiet_refl.
  - intros (st1 & ? & [= <- <-])%bind_Some. by eapply enqueue_quiet.
Qed.

Lemma sendFrameCtx_quiet T ctx st p f c st' e :
  sendFrameCtx ctx st p f c = Some (st', e) → quiet T st st'.
Proof.
  unfold sendFrameCtx. destruct c; try done.
  - case_match; [|done]. intros [= <- <-]. apply quiet_refl.
  - intros (e1 & _ & [= <- <-])%bind_Some. apply quiet_refl.
  - intros (st1 & ? & [= <- <-])%bind_Some. by eapply enqueue_quiet.
Qed.

Lemma cancelRequest_quiet T st p id c st' :
  cancelRequest st p id c = Some st' → quiet T st st'.
Proof.
  unfold cancelRequest. destruct c; try done.
  - case_match; [|done]. intros [= <-]. apply quiet_refl.
  - apply enqueue_quiet.
  - repeat case_match; try done. intros [= <-]. apply quiet_refl.
Qed.

Lemma putWS_quiet T st p id w st' : putWS st p id w = Some st' → quiet T st st'.
Proof. intros (s & ? & [= <-])%bind_Some. eapply quiet_put_sess; [done|by constructor]. Qed.
Lemma delWS_quiet T st p id st' : delWS st p id = Some st' → quiet T st st'.
Proof. intros (s & ? & [= <-])%bind_Some. eapply quiet_put_sess; [done|by constructor]. Qed.

Lemma shutdown_enter_quiet T st p st' b : shutdown_enter st p = Some (st', b) → quiet T st st'.
Proof.
  intros (s & Hs & Hm)%bind_Some. destruct (sess_once s) eqn:E; simplify_eq.
  - eapply quiet_put_sess; [done|]. constructor; try done. simpl. congruence.
  - apply quiet_refl.
Qed.
#[export] Hint Resolve enqueue_quiet sendFrame_quiet sendFrameCtx_quiet cancelRequest_quiet
  putWS_quiet delWS_quiet shutdown_enter_quiet : quiet.

Section abstract.
Context `{UnicodeData}.

(** ** Handlers *)

(** The value a [CompareAndSwap] expects was below the limit when it was loaded. *)
Definition http_bound (m : Z) (pc : http_pc) : Prop :=
  match pc with PCas _ _ _ current => (current < m)%Z | _ => True end.

Definition http_touches (pc : http_pc) (q : nat) : Prop := snd <$> http_holds pc = Some q.

Inductive http_abs : state → http_pc → state → http_pc → Prop :=
| ha_quiet st pc st' pc' :
    quiet (http_touches pc) st st' →
    http_pending pc' = http_pending pc → http_holds pc' = http_holds pc →
    http_ident pc' = http_ident pc → http_bound (maxTotalInflight (srv st)) pc' →
    http_abs st pc st' pc'
| ha_refuse st p id ws : http_abs st (PReserve p id ws) st PDone
| ha_next st p ws :
    let n := wrap_u64 (nextRequestID (srv st) + 1) in
    http_abs st (PNextID p) (put_srv st (set_nextRequestID (srv st) n))
      (PReserve p (FormatUint n) ws)
| ha_reserve st pc p id ws :
    http_pending pc = 0%Z → http_holds pc = None → http_ident pc = Some id →
    http_sess pc = Some p →
    (http_bound (maxTotalInflight (srv st)) pc → 0 < maxTotalInflight (srv st) →
     totalInflight (srv st) < maxTotalInflight (srv st))%Z →
    http_abs st pc (put_srv st (set_total (srv st) (wrap_i64 (totalInflight (srv st) + 1))))
      (PTryStart p id ws)
| ha_reject st p id ws : http_abs st (PTryStart p id ws) st PUndo
| ha_start st p id ws s pc' :
    sessH st !! p = Some s →
    (0 < maxInflight (srv st) → Z.of_nat (size (inflight s)) < maxInflight (srv st))%Z →
    http_pending pc' = 0%Z → http_holds pc' = Some (p, id, length (rsH st)) →
    http_ident pc' = Some id →
    http_abs st (PTryStart p id ws)
      (mkState (srv st)
         (<[p := set_inflight s (<[id := length (rsH st)]> (inflight s))]> (sessH st))
         (rsH st ++ [newResponseState]) (wsH st)) pc'
| ha_release st pc :
    http_pending pc = 1%Z → http_holds pc = None → http_ident pc = None →
    http_abs st pc (put_srv st (releaseGlobalSlots (srv st) 1)) PDone
| ha_del st k s r :
    sessH st !! k_sess k = Some s → inflight s !! k_id k = Some r →
    http_abs st (PFinish k)
      (put_sess st (k_sess k) (set_inflight s (delete (k_id k) (inflight s)))) PRelease
| ha_gone st k s :
    sessH st !! k_sess k = Some s → inflight s !! k_id k = None →
    http_abs st (PFinish k) st PDone.

Lemma write_header_exit k m out pc :
  write_header k m = (out, pc) → pc = exit k ∨ pc = PBody k.
Proof. unfold write_header. case_match; naive_solver. Qed.

(** A registered handler moves to another point of the same request. *)
Definition stays (k : reqctx) (pc : http_pc) : Prop :=
  http_pending pc = 0%Z ∧ http_holds pc = Some (k_sess k, k_id k, k_rs k)
  ∧ http_ident pc = Some (k_id k) ∧ (∀ m, http_bound m pc).

Lemma stays_exit k : stays k (exit k).
Proof. unfold exit. by destruct (k_ws k). Qed.

Lemma ha_stays st pc st' pc' k :
  stays k pc → stays k pc' → quiet (λ q, q = k_rs k) st st' → http_abs st pc st' pc'.
Proof.
  intros (Hp & Hh & Hi & _) (Hp' & Hh' & Hi' & ?) Hq. apply ha_quiet; [|congruence..|done].
  eapply quiet_mono; [|done]. intros q ->. unfold http_touches. by rewrite Hh.
Qed.

Lemma stays_write_header k m out pc : write_header k m = (out, pc) → stays k pc.
Proof. intros [-> | ->]%write_header_exit; [apply stays_exit|done]. Qed.
Lemma stays_write_chunk k chunk d : stays k (write_chunk k chunk d).
Proof. unfold write_chunk. by repeat case_match. Qed.
Lemma stays_forwarded ctx k e out pc : forwarded ctx k e = (out, pc) → stays k pc.
Proof.
  unfold forwarded. destruct e; [case_match|case_match]; intros; simplify_eq; try done;
    apply stays_exit.
Qed.

#[local] Hint Resolve stays_exit stays_write_header stays_write_chunk stays_forwarded : quiet.
#[local] Hint Extern 1 (stays _ _) => done : quiet.
#[local] Hint Extern 2 (stays _ (if ?b then _ else _)) => destruct b; done : quiet.
#[local] Hint Extern 0 (_ = _) => reflexivity : quiet.

Lemma put_srv_id st : put_srv st (srv st) = st.
Proof. by destruct st. Qed.

Lemma http_enter_abs st r pc st' out pc' new :
  http_enter st r pc = Some (st', out, pc', new) → http_abs st pc st' pc'.
Proof.
  destruct pc; simpl; try done.
  - intros Hs. apply ha_quiet; repeat case_match; simplify_eq; try done; try apply quiet_refl.
  - intros [= <- <- <- <-]. apply ha_next.
  - unfold reserve_load. repeat case_match; intros; simplify_eq; rewrite ?put_srv_id.
    + apply ha_reserve; try done. lia.
    + apply ha_refuse.
    + apply ha_quiet; [apply quiet_refl|done..|simpl; lia].
  - unfold reserve_cas. repeat case_match; intros; simplify_eq.
    + assert (totalInflight (srv st) = current) as <- by lia.
      by apply ha_reserve.
    + apply ha_quiet; [apply quiet_refl|done..].
  - unfold tryStart. intros ([st1 o] & Hs & Hst)%bind_Some. simpl in Hst. simplify_eq.
    apply bind_Some in Hs as (s & Hs & Hif).
    destruct (_ && _) eqn:Hlim; simplify_eq; [apply ha_reject|].
    eapply ha_start; try done; [|by destruct ws..].
    apply andb_false_iff in Hlim. lia.
  - intros [= <- <- <- <-]. by apply ha_release.
  - intros (st1 & Hs & [= <- <- <- <-])%bind_Some. apply ha_quiet; try done.
    eapply putWS_quiet in Hs. destruct Hs. by constructor.
Qed.

Lemma forwardRequest_quiet T st r ctx p id f c st' res :
  forwardRequest st r ctx p id f c = Some (st', res) → quiet T st st'.
Proof.
  destruct f; simpl.
  - intros ([st1 e] & ? & ?)%bind_Some. simplify_eq/=. eauto with quiet.
  - repeat case_match; intros; simplify_eq/=; eauto with quiet.
  - intros ([st1 e'] & ? & ?)%bind_Some. simplify_eq/=. eauto with quiet.
  - intros ([st1 e'] & ? & ?)%bind_Some. simplify_eq/=. eauto with quiet.
Qed.

Lemma http_respond_abs st ctx pc c st' out pc' new :
  http_respond st ctx pc c = Some (st', out, pc', new) → http_abs st pc st' pc'.
Proof.
  intros Hs. destruct pc; try done; cbn [http_respond] in Hs.
  all: (eapply (ha_stays _ _ _ _ k); [done|..]); open_step; eauto with quiet.
Qed.

Lemma http_websocket_abs st r ctx self rd pc c st' out pc' new :
  http_websocket st r ctx self rd pc c = Some (st', out, pc', new) → http_abs st pc st' pc'.
Proof.
  intros Hs. destruct pc; try done; cbn [http_websocket] in Hs.
  all: (eapply (ha_stays _ _ _ _ k); [done|..]); open_step; eauto with quiet.
Qed.

Lemma http_exit_abs st pc st' out pc' new :
  http_exit st pc = Some (st', out, pc', new) → http_abs st pc st' pc'.
Proof.
  intros Hs. destruct pc; try done; cbn [http_exit] in Hs.
  - eapply (ha_stays _ _ _ _ k); [done|..]; open_step; eauto with quiet.
  - eapply (ha_stays _ _ _ _ k); [done|..]; open_step; eauto with quiet.
  - unfold sess_del in Hs. apply bind_Some in Hs as ([st1 b] & Hd & Hs). simplify_eq/=.
    apply bind_Some in Hd as (s & Hs & Hm). destruct (inflight s !! k_id k) eqn:Hi; simplify_eq.
    + by eapply ha_del.
    + by eapply ha_gone.
  - simplify_eq. by apply ha_release.
Qed.

(** Every step of a handler is one of the abstract ones. *)
Lemma http_step_abs st r ctx self rd pc c st' out pc' new :
  http_step st r ctx self rd pc c = Some (st', out, pc', new) → http_abs st pc st' pc'.
Proof.
  intros Hs.
  destruct pc; cbn [http_step] in Hs; try done;
    try (destruct c; try done; by eapply http_enter_abs);
    try (destruct c; try done; by eapply http_exit_abs);
    eauto using http_respond_abs, http_websocket_abs.
  apply bind_Some in Hs as ([st1 res] & Hf & Hs).
  eapply (forwardRequest_quiet (λ q, q = k_rs k)) in Hf.
  destruct res as [f1|e]; [|destruct (forwarded ctx k e) eqn:?]; simplify_eq;
    eapply (ha_stays _ _ _ _ k); eauto with quiet.
Qed.

(** ** [Connect] *)

(** A response state registered with session [p]. *)
Definition registered (st : state) (p q : nat) : Prop :=
  ∃ s id, sessH st !! p = Some s ∧ inflight s !! id = Some q.

Definition conn_touches (st : state) (pc : conn_pc) (q : nat) : Prop :=
  match pc with
  | CDeliver _ _ (DStart r _) | CDeliver _ _ (DBody r _) => q = r
  | CRecv p _ | CReplFail _ p | CShutFail p _ _ => registered st p q
  | _ => False
  end.

(** The session a [Connect] receives for, or will. *)
Definition conn_receives (pc : conn_pc) : option nat :=
  match pc with
  | CReplEnter p _ | CReplFail p _ | CReplRelease p _ | CSpawn p | CRecv p _
  | CDeliver p _ _ => Some p
  | _ => None
  end.

(** The session a [Connect] has closed and is about to fail. *)
Definition conn_failing (pc : conn_pc) : option nat :=
  match pc with CReplFail _ p | CShutFail p _ _ => Some p | _ => None end.

(** The session after [failAll] in [shutdown]. *)
Definition emptied (s : session) : session :=
  set_once (set_wsMap (set_inflight s ∅) ∅) (sess_done s) OnceDone.

Inductive conn_abs : state → conn_pc → state → conn_pc → Prop :=
| ca_quiet st pc st' pc' :
    quiet (conn_touches st pc) st st' → conn_pending pc' = conn_pending pc →
    (∀ r, delivers (TConn pc') = Some r →
       delivers (TConn pc) = Some r ∨ ∃ p, conn_receives pc = Some p ∧ registered st p r) →
    conn_abs st pc st' pc'
| ca_open st first token username pc' :
    GetRegister first = Some token → tokenUsers (srv st) !! Token token = Some username →
    let id := wrap_u64 (nextSessionID (srv st) + 1) in
    let sess := new_session id username (publicDomain (srv st)) in
    let p := length (sessH st) in
    conn_pending pc' = 0%Z → delivers (TConn pc') = None →
    conn_abs st CFirst
      (mkState (putSession (set_nextSessionID (srv st) id) (publicHost sess) p).1
         (sessH st ++ [sess]) (rsH st) (wsH st)) pc'
| ca_fail st pc st' pc' p s :
    sessH st !! p = Some s → srv st' = srv st →
    sessH st' = <[p := emptied s]> (sessH st) → length (rsH st') = length (rsH st) →
    (∀ q, ¬ conn_touches st pc q → rsH st' !! q = rsH st !! q) →
    conn_pending pc = 0%Z → conn_pending pc' = Z.of_nat (size (inflight s)) →
    delivers (TConn pc') = None →
    conn_abs st pc st' pc'
| ca_release st pc pc' :
    conn_pending pc' = 0%Z → delivers (TConn pc') = None →
    conn_abs st pc (put_srv st (releaseGlobalSlots (srv st) (conn_pending pc))) pc'
| ca_remove st p s ret :
    sessH st !! p = Some s →
    conn_abs st (CRemove p ret)
      (put_srv st (removeSession (srv st) (publicHost s) p)) (CReturn ret).

Lemma foldl_fail_at_length e l h : length (foldl (fail_at e) h l) = length h.
Proof.
  revert h. induction l as [|r l IH]; intros h; simpl; [done|].
  rewrite IH. apply length_alter.
Qed.

Lemma foldl_fail_at_ne e l h q : q ∉ l → foldl (fail_at e) h l !! q = h !! q.
Proof.
  revert h. induction l as [|r l IH]; intros h; simpl; [done|].
  rewrite not_elem_of_cons. intros [? ?]. rewrite IH by done.
  unfold fail_at. by apply list_lookup_alter_ne.
Qed.

Lemma shutdown_fail_spec st p e st' n :
  shutdown_fail st p e = Some (st', n) →
  ∃ s, sessH st !! p = Some s ∧ n = Z.of_nat (size (inflight s)) ∧ srv st' = srv st
     ∧ sessH st' = <[p := emptied s]> (sessH st)
     ∧ rsH st' = foldl (fail_at (Some e)) (rsH st) (map_to_list (inflight s)).*2.
Proof.
  unfold shutdown_fail, failAll.
  intros ([st1 n1] & (s & Hs & [= <- <-])%bind_Some & (s' & Hs' & [= <- <-])%bind_Some)%bind_Some.
  exists s. simpl in *. rewrite list_lookup_insert_eq in Hs' by (by eapply lookup_lt_Some).
  simplify_eq. by rewrite list_insert_insert_eq.
Qed.

Lemma registered_values st p s q :
  sessH st !! p = Some s → ¬ registered st p q → q ∉ (map_to_list (inflight s)).*2.
Proof.
  intros Hs Hq. contradict Hq. apply list_elem_of_fmap in Hq as ([id r] & -> & Hin).
  apply elem_of_map_to_list in Hin. by exists s, id.
Qed.

Lemma conn_fail_abs st pc st' pc' p e n :
  shutdown_fail st p e = Some (st', n) →
  (∀ q, registered st p q → conn_touches st pc q) →
  conn_pending pc = 0%Z → conn_pending pc' = n → delivers (TConn pc') = None →
  conn_abs st pc st' pc'.
Proof.
  intros (s & Hs & -> & Hsrv & HsH & HrH)%shutdown_fail_spec Ht Hp Hp' Hd.
  eapply ca_fail; try done.
  - by rewrite HrH, foldl_fail_at_length.
  - intros q Hq. rewrite HrH. apply foldl_fail_at_ne.
    eapply registered_values; [done|]. contradict Hq. auto.
Qed.

Lemma sess_get_registered st p id r : sess_get st p id = Some r → registered st p r.
Proof. intros (s & ? & ?)%bind_Some. by exists s, id. Qed.

Lemma handleClientFrame_abs st p f st' d :
  handleClientFrame st p f = (st', d) →
  quiet (registered st p) st st' ∧
  ∀ r, (∃ m, d = Some (DStart r m)) ∨ (∃ c, d = Some (DBody r c)) → registered st p r.
Proof.
  intros Hf. destruct f; simpl in Hf; injection Hf as Hst Hd; subst st' d;
    try (destruct (sess_get st p _) eqn:Hg; [apply sess_get_registered in Hg|]);
    try (destruct (getWS st p _) eqn:?); simpl;
    (split; [eauto using quiet_alter_rs with quiet|]);
    intros ? [[? ?]|[? ?]]; simplify_eq; done.
Qed.

Lemma deliver_quiet st p (snd : nat) d c st' :
  deliver st d c = Some st' → quiet (conn_touches st (CDeliver p snd d)) st st'.
Proof.
  destruct d, c; simpl; try done; intros Hd; open_step; try (by apply quiet_put_rs);
    eauto with quiet.
Qed.

(** [Connect] on an accepted register frame. *)
Lemma conn_open_abs st f u s' repl st' pc' :
  authenticate (srv st) f = Ok u →
  let id := wrap_u64 (nextSessionID (srv st) + 1) in
  let sess := new_session id u (publicDomain (srv st)) in
  let p := length (sessH st) in
  putSession (set_nextSessionID (srv st) id) (publicHost sess) p = (s', repl) →
  st' = mkState s' (sessH st ++ [sess]) (rsH st) (wsH st) →
  pc' = match repl with Some old => CReplEnter p old | None => CSpawn p end →
  conn_abs st CFirst st' pc'.
Proof.
  intros Ha id sess p Hput -> ->. unfold authenticate in Ha.
  destruct (GetRegister f) as [reg|] eqn:Hr; [|done].
  inv_ok. destruct (tokenUsers (srv st) !! Token reg) eqn:Htok; simplify_eq.
  replace s' with (putSession (set_nextSessionID (srv st) id) (publicHost sess) p).1
    by exact (f_equal fst Hput).
  eapply ca_open; try done; by destruct repl.
Qed.

(** Every step of a [Connect] is one of the abstract ones. *)
Lemma conn_step_abs st self res pc c st' pc' new :
  conn_step st self res pc c = Some (st', pc', new) → conn_abs st pc st' pc'.
Proof.
  intros Hs. destruct pc; cbn [conn_step] in Hs; try done.
  - destruct c; try done; [|by simplify_eq; apply ca_quiet; eauto with quiet].
    destruct (authenticate (srv st) f) as [u|e] eqn:Ha;
      [|by simplify_eq; apply ca_quiet; eauto with quiet].
    destruct (putSession _ _ _) as [s' repl] eqn:Hput. simplify_eq.
    by eapply conn_open_abs.
  - open_step; apply ca_quiet; eauto with quiet; by repeat case_match.
  - open_step. eapply conn_fail_abs; eauto.
  - open_step. by apply (ca_release st (CReplRelease p count)).
  - open_step. apply ca_quiet; eauto with quiet; done.
  - destruct c; try done; [|by simplify_eq; apply ca_quiet; eauto with quiet].
    destruct (handleClientFrame st p f) as [st1 d] eqn:Hh.
    destruct (handleClientFrame_abs _ _ _ _ _ Hh) as [Hq Hd]. simplify_eq.
    apply ca_quiet; [done|by destruct d|]. intros r Hr. right. exists p. split; [done|]. apply Hd.
    destruct d as [[]|]; simplify_eq/=; eauto.
  - open_step. apply ca_quiet; [by eapply deliver_quiet|done..].
  - open_step; apply ca_quiet; eauto with quiet; by repeat case_match.
  - open_step. eapply conn_fail_abs; eauto.
  - open_step. by apply (ca_release st (CShutRelease p snd recvErr count)).
  - open_step; apply ca_quiet; eauto with quiet; by repeat case_match.
  - open_step. by apply ca_remove.
Qed.

Lemma conn_step_receives st self res pc c st' pc' new p :
  conn_step st self res pc c = Some (st', pc', new) → conn_receives pc' = Some p →
  conn_receives pc = Some p ∨ p = length (sessH st).
Proof.
  intros Hs Hp. destruct pc; cbn [conn_step] in Hs; try done; open_step; simplify_eq/=; auto;
    repeat case_match; simplify_eq/=; auto.
Qed.

Lemma conn_step_failing st self res pc c st' pc' new p :
  conn_step st self res pc c = Some (st', pc', new) → conn_failing pc' = Some p →
  ∃ s, sessH st !! p = Some s ∧ sess_once s = OnceNew.
Proof.
  intros Hs Hp. destruct pc; cbn [conn_step] in Hs; try done; open_step; simplify_eq/=;
    repeat case_match; simplify_eq/=; unfold shutdown_enter in *; open_step; eauto.
Qed.
End abstract.
