(* ===== verification/Invariants.v ===== *)
(** * server: invariants of every interleaving.

    [inv] is the invariant behind the limits on requests in flight: the counter
    [totalInflight] is the number of registered requests plus the slots some goroutine
    has reserved and not yet used or given back; ids are unique and every registered
    request belongs to a live handler. *)

From S2P Require Import Prelude GoStrings Hostnames Proto Headers Channels ResponseState Server.
From S2P Require Import Steps Abstract.

(** ** Sums over threads *)

Definition Zsum {A} (f : A → Z) (l : list A) : Z := foldr (λ x a, f x + a)%Z 0%Z l.

Section Zsum.
Context {A} (f : A → Z).
Implicit Types (l : list A).

Lemma Zsum_app l1 l2 : Zsum f (l1 ++ l2) = (Zsum f l1 + Zsum f l2)%Z.
Proof. induction l1 as [|x l1 IH]; simpl; [lia|]. rewrite IH. lia. Qed.

Lemma Zsum_insert l i x y :
  l !! i = Some x → Zsum f (<[i := y]> l) = (Zsum f l - f x + f y)%Z.
Proof.
  revert i. induction l as [|z l IH]; intros [|i] Hi; simplify_eq/=; [lia|].
  rewrite (IH _ Hi). lia.
Qed.

Lemma Zsum_zero l : Forall (λ x, f x = 0%Z) l → Zsum f l = 0%Z.
Proof. induction 1 as [|x l Hx _ IH]; simpl; lia. Qed.

Lemma Zsum_nonneg l : Forall (λ x, 0 ≤ f x)%Z l → (0 ≤ Zsum f l)%Z.
Proof. induction 1 as [|x l Hx _ IH]; simpl; lia. Qed.

Lemma Zsum_elem l x : Forall (λ x, 0 ≤ f x)%Z l → x ∈ l → (f x ≤ Zsum f l)%Z.
Proof.
  induction 1 as [|y l Hy Hl IH]; [by intros ?%not_elem_of_nil|].
  pose proof (Zsum_nonneg l Hl). intros [->|Hx]%elem_of_cons; simpl; [lia|].
  specialize (IH Hx). lia.
Qed.
End Zsum.

(** ** Steps of the whole edge, abstractly *)

Definition tbound (m : Z) (t : thread) : Prop :=
  match t with THttp _ _ _ pc => http_bound m pc | _ => True end.

(** A thread that holds nothing. *)
Record idle (t : thread) : Prop := {
  idle_pending : pending t = 0%Z;
  idle_holds : holds t = None;
  idle_ident : ident t = None;
  idle_delivers : delivers t = None;
  idle_bound : ∀ m, tbound m t }.

Section invariants.
Context `{UnicodeData}.

(** The step of one thread. *)
Inductive thread_abs : state → thread → state → thread → Prop :=
| ta_http st r ctx out pc st' out' pc' :
    http_abs st pc st' pc' →
    thread_abs st (THttp r ctx out pc) st' (THttp r ctx out' pc')
| ta_conn st pc st' pc' :
    conn_abs st pc st' pc' → thread_abs st (TConn pc) st' (TConn pc')
| ta_same st t st' t' :
    quiet none st st' → pending t' = pending t → holds t' = holds t → ident t' = ident t →
    delivers t' = delivers t → (∀ m, tbound m t → tbound m t') →
    thread_abs st t st' t'.

Lemma http_step_new st r ctx self rd pc c st' out pc' new :
  http_step st r ctx self rd pc c = Some (st', out, pc', new) → Forall idle new.
Proof.
  intros Hs. destruct pc; cbn [http_step] in Hs;
    cbn [http_enter http_respond http_websocket http_exit] in Hs;
    try done; open_step; repeat constructor.
Qed.

Lemma conn_step_new st self res pc c st' pc' new :
  conn_step st self res pc c = Some (st', pc', new) → Forall idle new.
Proof. intros Hs. destruct pc; cbn [conn_step] in Hs; try done; open_step; repeat constructor. Qed.

Lemma thread_step_abs st ts t c st' t' new :
  thread_step st ts t c = Some (st', t', new) → thread_abs st t st' t' ∧ Forall idle new.
Proof.
  intros Hs. destruct t; cbn [thread_step] in Hs.
  - apply bind_Some in Hs as ([[[s ev] pc'] n] & Hh & Hs). simplify_eq.
    split; [constructor; by eapply http_step_abs|by eapply http_step_new].
  - apply bind_Some in Hs as ([s pc'] & Hh & Hs). simplify_eq.
    split; [|constructor]. apply ta_same; try done.
    unfold reader_step in Hh. open_step; eauto with quiet.
  - apply bind_Some in Hs as ([[s pc'] n] & Hh & Hs). simplify_eq.
    split; [constructor; by eapply conn_step_abs|by eapply conn_step_new].
  - apply bind_Some in Hs as ([[s f] r] & Hh & Hs). simplify_eq.
    split; [|constructor]. apply ta_same; try done.
    unfold send_step in Hh.
    open_step; simplify_eq; eauto with quiet; (eapply quiet_put_sess; [done|by constructor]).
  - apply bind_Some in Hs as ([s pc'] & Hh & Hs). simplify_eq.
    split; [|constructor]. apply ta_same; try done.
    unfold beat_step in Hh. open_step; eauto with quiet.
Qed.

(** A step of the edge is a step of one thread, or only starts threads. *)
Lemma exec_abs w l w' :
  exec w l = Some w' →
  (∃ i t t' new, threads w !! i = Some t ∧ thread_abs (st w) t (st w') t'
     ∧ threads w' = <[i := t']> (threads w) ++ new ∧ Forall idle new)
  ∨ (st w' = st w ∧ ∃ new, threads w' = threads w ++ new ∧ Forall idle new).
Proof.
  destruct l; simpl; intros Hs.
  - apply bind_Some in Hs as (t & Ht & ([[s t'] new] & Hstep & [= <-])%bind_Some).
    apply thread_step_abs in Hstep as [Habs Hnew]. left. by exists i, t, t', new.
  - apply bind_Some in Hs as (t & Ht & (t' & Hc & [= <-])%bind_Some).
    left. exists i, t, t', []. rewrite app_nil_r. split_and!; try done.
    destruct t as [r [] out pc| | | |]; simplify_eq/=. by apply ta_same.
  - simplify_eq. right. split; [done|]. eexists. split; [done|]. repeat constructor.
  - simplify_eq. right. split; [done|]. eexists. split; [done|]. repeat constructor.
Qed.

(** ** Accounting *)

Definition inflight_sum (st : state) : nat :=
  sum_list_with (λ s, size (inflight s)) (sessH st).

Definition limits_ok (s : Server) : Prop :=
  (0 < maxInflight s ∧ 0 < maxTotalInflight s ≤ max_i64)%Z.

Record inv (w : world) : Prop := {
  inv_limits : limits_ok (srv (st w));
  inv_total : totalInflight (srv (st w)) =
    (Z.of_nat (inflight_sum (st w)) + Zsum pending (threads w))%Z;
  inv_max : (totalInflight (srv (st w)) ≤ maxTotalInflight (srv (st w)))%Z;
  inv_pending : Forall (λ t, 0 ≤ pending t)%Z (threads w);
  inv_bound : Forall (tbound (maxTotalInflight (srv (st w)))) (threads w);
  inv_cap : ∀ p s, sessH (st w) !! p = Some s →
    (Z.of_nat (size (inflight s)) ≤ maxInflight (srv (st w)))%Z;
  inv_next : (0 ≤ nextRequestID (srv (st w)))%Z;
  inv_ident : ∀ i t id, threads w !! i = Some t → ident t = Some id →
    ∃ n, id = FormatUint n ∧ (0 < n ≤ nextRequestID (srv (st w)))%Z;
  inv_unique : ∀ i j t u id, threads w !! i = Some t → threads w !! j = Some u →
    ident t = Some id → ident u = Some id → i = j;
  inv_owner : ∀ p s id r, sessH (st w) !! p = Some s → inflight s !! id = Some r →
    ∃ i t, threads w !! i = Some t ∧ holds t = Some (p, id, r) }.

Lemma FormatUint_inj m n :
  (0 ≤ m)%Z → (0 ≤ n)%Z → FormatUint m = FormatUint n → m = n.
Proof. unfold FormatUint. intros ?? Heq%(inj pretty). lia. Qed.

Lemma holds_ident t p id r : holds t = Some (p, id, r) → ident t = Some id.
Proof. destruct t as [? ? ? pc| | | |]; [|done..]. destruct pc; naive_solver. Qed.

(** A request about to be registered is not registered yet. *)
Lemma unregistered w i r ctx out p id ws q s :
  inv w → threads w !! i = Some (THttp r ctx out (PTryStart p id ws)) →
  sessH (st w) !! q = Some s → inflight s !! id = None.
Proof.
  intros Hinv Hi Hs. destruct (inflight s !! id) as [rp|] eqn:E; [|done]. exfalso.
  destruct (inv_owner w Hinv q s id rp Hs E) as (j & u & Hj & Hh).
  pose proof (inv_unique w Hinv i j _ u id Hi Hj eq_refl (holds_ident _ _ _ _ Hh)) as <-.
  by simplify_eq.
Qed.

(** Sums and bounds over related heaps. *)
Lemma quiet_inflight_sum T st1 st2 : quiet T st1 st2 → inflight_sum st2 = inflight_sum st1.
Proof.
  intros [_ Hs _ _]. unfold inflight_sum.
  induction Hs as [|s s' l l' Hreg _ IH]; simpl; [done|].
  by rewrite IH, (reg_inflight _ _ Hreg).
Qed.

Lemma quiet_lookup T st1 st2 p s' :
  quiet T st1 st2 → sessH st2 !! p = Some s' →
  ∃ s, sessH st1 !! p = Some s ∧ same_reg s s'.
Proof.
  intros [_ Hs _ _] Hp. destruct (Forall2_lookup_r _ _ _ _ _ Hs Hp) as (s & ? & ?). eauto.
Qed.

(** The step as far as the counter goes: the balance of the step's thread. *)
Lemma http_abs_total st1 pc st2 pc' :
  http_abs st1 pc st2 pc' →
  (∀ p id ws s, pc = PTryStart p id ws → sessH st1 !! p = Some s → inflight s !! id = None) →
  http_bound (maxTotalInflight (srv st1)) pc →
  limits_ok (srv st1) →
  (Z.of_nat (inflight_sum st1) + http_pending pc ≤ totalInflight (srv st1)
     ≤ maxTotalInflight (srv st1))%Z →
  (totalInflight (srv st2) - Z.of_nat (inflight_sum st2) - http_pending pc'
   = totalInflight (srv st1) - Z.of_nat (inflight_sum st1) - http_pending pc)%Z
  ∧ (totalInflight (srv st2) ≤ maxTotalInflight (srv st1))%Z
  ∧ (0 ≤ http_pending pc')%Z
  ∧ http_bound (maxTotalInflight (srv st1)) pc'.
Proof.
  intros Habs Hfresh Hb [_ Hlim] Htot. unfold max_i64 in Hlim.
  destruct Habs as
    [st pc st' pc' Hq Hp Hh Hi Hb' | st p id ws | st p ws n | st pc p id ws Hp Hh Hi Hps Hlt
    | st p id ws | st p id ws s pc' Hs Hcap Hp Hh Hi | st pc Hp Hh Hi
    | st k s r Hs Hr | st k s Hs Hr]; unfold inflight_sum in *; simpl in *; try lia.
  - rewrite (quiet_srv _ _ _ Hq), Hp. fold (inflight_sum st') (inflight_sum st).
    rewrite (quiet_inflight_sum _ _ _ Hq).
    assert (0 ≤ http_pending pc)%Z by (by destruct pc). split_and!; [lia..|done].
  - specialize (Hlt Hb ltac:(lia)). rewrite wrap_i64_small, Hp by lia. lia.
  - pose proof (sum_list_with_insert (λ s, size (inflight s)) (sessH st) p s
      (set_inflight s (<[id:=length (rsH st)]> (inflight s))) Hs) as Hsum.
    simpl in Hsum. rewrite map_size_insert_None in Hsum by eauto.
    rewrite Hp. split_and!; [lia..|]. by destruct pc'.
  - unfold releaseGlobalSlots. simpl. rewrite wrap_i64_small, Hp in * by lia. lia.
  - pose proof (sum_list_with_insert (λ s, size (inflight s)) (sessH st) (k_sess k) s
      (set_inflight s (delete (k_id k) (inflight s))) Hs) as Hsum.
    simpl in Hsum. rewrite map_size_delete_Some in Hsum by eauto.
    assert (size (inflight s) ≠ 0) by (eapply map_size_ne_0_lookup_2; eauto). lia.
Qed.

Lemma conn_abs_total st1 pc st2 pc' :
  conn_abs st1 pc st2 pc' →
  limits_ok (srv st1) → (0 ≤ conn_pending pc)%Z →
  (Z.of_nat (inflight_sum st1) + conn_pending pc ≤ totalInflight (srv st1)
     ≤ maxTotalInflight (srv st1))%Z →
  (totalInflight (srv st2) - Z.of_nat (inflight_sum st2) - conn_pending pc'
   = totalInflight (srv st1) - Z.of_nat (inflight_sum st1) - conn_pending pc)%Z
  ∧ (totalInflight (srv st2) ≤ maxTotalInflight (srv st1))%Z
  ∧ (0 ≤ conn_pending pc')%Z.
Proof.
  intros Habs [_ Hlim] Hpos Htot. unfold max_i64 in Hlim.
  destruct Habs as
    [st pc st' pc' Hq Hp Hd | st f reg u pc' Hr Hu id sess p Hp Hd
    | st pc st' pc' p s Hs Hsrv HsH Hlen Hrs Hp Hp' Hd | st pc pc' Hp Hd | st p s ret Hs];
    simpl in *.
  - rewrite (quiet_srv _ _ _ Hq), (quiet_inflight_sum _ _ _ Hq), Hp. lia.
  - rewrite Hp. unfold inflight_sum in *. simpl. rewrite sum_list_with_app. simpl.
    rewrite map_size_empty. lia.
  - rewrite Hsrv, Hp'.
    pose proof (sum_list_with_insert (λ s, size (inflight s)) (sessH st) p s (emptied s) Hs)
      as Hsum.
    unfold inflight_sum in *. rewrite HsH. simpl in Hsum. rewrite map_size_empty in Hsum. lia.
  - unfold releaseGlobalSlots, inflight_sum in *.
    destruct (Z.leb_spec (conn_pending pc) 0); simpl; [lia|].
    rewrite wrap_i64_small by lia. lia.
  - unfold removeSession, inflight_sum in *. case_bool_decide; simpl; lia.
Qed.

(** Parameters of the server never change; the request counter moves by at most one. *)
Lemma thread_abs_params st1 t st2 t' :
  thread_abs st1 t st2 t' →
  maxInflight (srv st2) = maxInflight (srv st1)
  ∧ maxTotalInflight (srv st2) = maxTotalInflight (srv st1)
  ∧ publicDomain (srv st2) = publicDomain (srv st1)
  ∧ tokenUsers (srv st2) = tokenUsers (srv st1)
  ∧ publicHosts (srv st2) = publicHosts (srv st1).
Proof.
  destruct 1 as [??????? ? Ha| ??? ? Ha | ???? Hq].
  - destruct Ha as [???? Hq| | | | | | | |]; simpl; try done.
    by rewrite (quiet_srv _ _ _ Hq).
  - destruct Ha as [???? Hq| |? ? ? ? ? ? ? Hsrv| |]; simpl; try done.
    + by rewrite (quiet_srv _ _ _ Hq).
    + by rewrite Hsrv.
    + unfold releaseGlobalSlots. by destruct (_ <=? _)%Z.
    + unfold removeSession. by case_bool_decide.
  - by rewrite (quiet_srv _ _ _ Hq).
Qed.

(** The per-session limit. *)
Lemma thread_abs_cap st1 t st2 t' m :
  thread_abs st1 t st2 t' → maxInflight (srv st1) = m → (0 < m)%Z →
  (∀ p s, sessH st1 !! p = Some s → (Z.of_nat (size (inflight s)) ≤ m)%Z) →
  ∀ p s, sessH st2 !! p = Some s → (Z.of_nat (size (inflight s)) ≤ m)%Z.
Proof.
  intros Habs Hm Hpos Hcap q s' Hs'.
  assert (∀ T, quiet T st1 st2 → (Z.of_nat (size (inflight s')) ≤ m)%Z) as Hquiet.
  { intros T Hq. destruct (quiet_lookup _ _ _ _ _ Hq Hs') as (s & Hs & Hreg).
    rewrite (reg_inflight _ _ Hreg). eauto. }
  destruct Habs as [??????? ? Ha| ??? ? Ha | ???? Hq]; [| |by eapply Hquiet].
  - destruct Ha as [???? Hq| | | | |st0 p id ws s pc1 Hs Hlt|? pc|st0 k s rp Hs|]; simpl in *;
      eauto.
    + apply insert_lookup_cases in Hs' as [(-> & <- & _)|[_ ?]]; [|eauto]. simpl.
      specialize (Hlt ltac:(lia)).
      pose proof (map_size_insert_le (inflight s) id (length (rsH st0))). lia.
    + apply insert_lookup_cases in Hs' as [(-> & <- & _)|[_ ?]]; [|eauto]. simpl.
      specialize (Hcap _ _ Hs).
      pose proof (map_size_delete_le (inflight s) (k_id k)). lia.
  - destruct Ha as [???? Hq|? f reg u ? Hr Hu id sess p| ? ? ? ? p s Hs Hsrv HsH| |];
      simpl in *; eauto.
    + apply lookup_snoc_cases in Hs' as [?|[_ <-]]; [eauto|]. simpl. rewrite map_size_empty. lia.
    + rewrite HsH in Hs'. apply insert_lookup_cases in Hs' as [(-> & <- & _)|[_ ?]]; [|eauto].
      simpl. rewrite map_size_empty. lia.
Qed.

(** ** Ids *)

(** What a step does to the ids of its thread. *)
Lemma thread_abs_ident st1 t st2 t' :
  thread_abs st1 t st2 t' →
  (nextRequestID (srv st2) = nextRequestID (srv st1) ∧ (ident t' = ident t ∨ ident t' = None))
  ∨ (nextRequestID (srv st2) = wrap_u64 (nextRequestID (srv st1) + 1)
     ∧ ident t' = Some (FormatUint (nextRequestID (srv st2)))).
Proof.
  destruct 1 as [??????? ? Ha| ??? ? Ha | ???? Hq].
  - destruct Ha as [???? Hq ?? Hi| | | ? ? ? ? ? ? ? Hi| |? ? ? ? ? ? ? ? ? ? Hi| ? ? ? ? Hi| |];
      simpl; rewrite ?(quiet_srv _ _ _ Hq), ?Hi; auto.
  - left. destruct Ha as [???? Hq| |? ? ? ? ? ? ? Hsrv| |]; simpl; auto.
    + rewrite (quiet_srv _ _ _ Hq). auto.
    + rewrite Hsrv. auto.
    + unfold releaseGlobalSlots. destruct (_ <=? _)%Z; auto.
    + unfold removeSession. case_bool_decide; auto.
  - left. rewrite (quiet_srv _ _ _ Hq). auto.
Qed.

(** What a step does to the registered requests: they were there, or its thread has
    just registered them; and it holds on to its own until it removes it. *)
Lemma thread_abs_owner st1 t st2 t' p s id r :
  thread_abs st1 t st2 t' → sessH st2 !! p = Some s → inflight s !! id = Some r →
  holds t' = Some (p, id, r)
  ∨ ∃ s0, sessH st1 !! p = Some s0 ∧ inflight s0 !! id = Some r
      ∧ (holds t = Some (p, id, r) → holds t' = Some (p, id, r)).
Proof.
  intros Habs Hs Hr.
  assert (∀ T, quiet T st1 st2 → ∃ s0, sessH st1 !! p = Some s0 ∧ inflight s0 !! id = Some r)
    as Hquiet.
  { intros T Hq. destruct (quiet_lookup _ _ _ _ _ Hq Hs) as (s0 & Hs0 & Hreg).
    rewrite (reg_inflight _ _ Hreg) in Hr. eauto. }
  destruct Habs as [??????? ? Ha| ??? ? Ha | ???? Hq].
  - simpl. destruct Ha as
      [???? Hq ? Hh| | | ? ? ? ? ? ? Hh| |? p1 id1 ws s1 pc' Hs1 ? ? Hh| ? ? ? Hh
      |? k s1 r1 Hs1 Hr1|? k s1 Hs1 Hr1]; simpl in *.
    + right. destruct (Hquiet _ Hq) as (s0 & ? & ?). exists s0. rewrite Hh. auto.
    + right. exists s. split_and!; [done..|congruence].
    + right. exists s. split_and!; [done..|congruence].
    + right. exists s. rewrite Hh. split_and!; [done..|congruence].
    + right. exists s. split_and!; [done..|congruence].
    + apply insert_lookup_cases in Hs as [(-> & <- & _)|[_ ?]];
        [|right; exists s; split_and!; [done..|congruence]].
      simpl in Hr. apply lookup_insert_Some in Hr as [[<- <-]|[_ ?]]; [by left|].
      right. exists s1. split_and!; [done..|congruence].
    + right. exists s. rewrite Hh. split_and!; [done..|congruence].
    + right. apply insert_lookup_cases in Hs as [(Hp & <- & _)|[Hne ?]].
      * subst p. simpl in Hr. apply lookup_delete_Some in Hr as [Hne ?].
        exists s1. split_and!; [done..|congruence].
      * exists s. split_and!; [done..|congruence].
    + right. exists s. split_and!; [done..|]. intros. simplify_eq.
  - right. simpl. destruct Ha as
      [???? Hq|? f reg u ? Hrg Hu id1 sess p1| ? ? ? ? p1 s1 Hs1 Hsrv HsH| |]; simpl in *.
    + destruct (Hquiet _ Hq) as (s0 & ? & ?). eauto.
    + apply lookup_snoc_cases in Hs as [?|[_ <-]]; [eauto|]. simpl in Hr. done.
    + rewrite HsH in Hs. apply insert_lookup_cases in Hs as [(-> & <- & _)|[_ ?]]; [|eauto].
      simpl in Hr. done.
    + eauto.
    + eauto.
  - right. destruct (Hquiet _ Hq) as (s0 & ? & ?). exists s0. split_and!; try done.
    congruence.
Qed.

(** ** Preservation *)

Lemma lookup_app_idle (ts new : list thread) i t :
  Forall idle new → (ts ++ new) !! i = Some t → ts !! i = Some t ∨ idle t.
Proof.
  intros Hnew [?|[_ Hi]]%lookup_app_Some; [by left|right].
  by eapply Forall_lookup_1 in Hi.
Qed.

Lemma inv_spawn w new :
  inv w → Forall idle new → inv (mkWorld (st w) (threads w ++ new)).
Proof.
  intros [] Hnew. constructor; simpl; try done.
  - rewrite Zsum_app, (Zsum_zero _ new); [lia|].
    eapply Forall_impl; [done|]. by intros t [].
  - apply Forall_app. split; [done|]. eapply Forall_impl; [done|]. intros t []. lia.
  - apply Forall_app. split; [done|]. eapply Forall_impl; [done|]. intros t []. auto.
  - intros i t id [?|[? ? Hid ? ?]]%lookup_app_idle; [eauto|congruence|done].
  - intros i j t u id [?|[? ? Hid ? ?]]%lookup_app_idle; [|congruence|done].
    intros [?|[? ? Hid ? ?]]%lookup_app_idle; [eauto|congruence|done].
  - intros p s id r Hs Hr. destruct (inv_owner0 p s id r Hs Hr) as (i & t & Hi & Hh).
    exists i, t. split; [by apply lookup_app_l_Some|done].
Qed.

(** The counter and the slots, for a step of the thread [i]. *)
Lemma thread_abs_total w i t st' t' :
  inv w → threads w !! i = Some t → thread_abs (st w) t st' t' →
  (totalInflight (srv st') - Z.of_nat (inflight_sum st') - pending t'
   = totalInflight (srv (st w)) - Z.of_nat (inflight_sum (st w)) - pending t)%Z
  ∧ (totalInflight (srv st') ≤ maxTotalInflight (srv (st w)))%Z
  ∧ (0 ≤ pending t')%Z ∧ tbound (maxTotalInflight (srv (st w))) t'.
Proof.
  intros Hinv Hi Habs.
  assert (t ∈ threads w) as Hin by (by eapply list_elem_of_lookup_2).
  pose proof (Zsum_elem _ _ _ (inv_pending w Hinv) Hin) as Hle.
  pose proof (proj1 (Forall_forall _ _) (inv_pending w Hinv) t Hin) as Hpos.
  pose proof (proj1 (Forall_forall _ _) (inv_bound w Hinv) t Hin) as Hb.
  pose proof (inv_total w Hinv) as Htot. pose proof (inv_max w Hinv) as Hmax.
  remember (st w) as st1 eqn:Est.
  destruct Habs as [st1 r ctx out pc st' out' pc' Ha|st1 pc st' pc' Ha|st1 t st' t' Hq Hp].
  - apply http_abs_total in Ha; simpl in *;
      [done| |done|by rewrite Est; apply inv_limits|lia].
    intros p id ws s -> Hs. rewrite Est in Hs. eapply unregistered; eauto.
  - apply conn_abs_total in Ha; simpl in *;
      [|by rewrite Est; apply inv_limits|lia|lia].
    destruct Ha as (? & ? & ?). done.
  - rewrite (quiet_srv _ _ _ Hq), (quiet_inflight_sum _ _ _ Hq), Hp. split_and!; try lia. auto.
Qed.

(** The ids, for a step of the thread [i]. *)
Lemma thread_abs_ids w i t st' t' :
  inv w → (nextRequestID (srv (st w)) < 2^64 - 1)%Z →
  threads w !! i = Some t → thread_abs (st w) t st' t' →
  (nextRequestID (srv (st w)) ≤ nextRequestID (srv st') ≤ nextRequestID (srv (st w)) + 1)%Z
  ∧ (∀ id, ident t' = Some id →
       (∃ n, id = FormatUint n ∧ (0 < n ≤ nextRequestID (srv st'))%Z)
       ∧ ∀ j u, threads w !! j = Some u → ident u = Some id → i = j).
Proof.
  intros Hinv Hlt Hi Habs. pose proof (inv_next w Hinv) as Hnext.
  destruct (thread_abs_ident _ _ _ _ Habs) as [[Hn Hid]|[Hn Hid]].
  - rewrite Hn. split; [lia|]. intros id Hid'.
    assert (ident t = Some id) as Hidt by (destruct Hid; congruence). split.
    + eapply inv_ident; eauto.
    + intros j u Hj Hu. eapply inv_unique; eauto.
  - rewrite wrap_u64_small in Hn by lia. split; [lia|].
    intros id Hid'. rewrite Hid in Hid'. simplify_eq. split.
    + eexists. split; [done|]. lia.
    + intros j u Hj Hu. destruct (inv_ident w Hinv j u _ Hj Hu) as (n & Heq & Hle).
      apply FormatUint_inj in Heq; lia.
Qed.

Lemma inv_thread w i t st' t' :
  inv w → (nextRequestID (srv (st w)) < 2^64 - 1)%Z →
  threads w !! i = Some t → thread_abs (st w) t st' t' →
  inv (mkWorld st' (<[i := t']> (threads w))).
Proof.
  intros Hinv Hlt Hi Habs.
  destruct (thread_abs_total w i t st' t' Hinv Hi Habs) as (Htot & Hmax & Hpos & Hb).
  destruct (thread_abs_ids w i t st' t' Hinv Hlt Hi Habs) as [Hn Hids].
  destruct (thread_abs_params _ _ _ _ Habs) as (Hmi & Hmt & _).
  pose proof (lookup_lt_Some _ _ _ Hi) as Hlen.
  constructor; simpl; rewrite ?Hmi, ?Hmt; try done.
  - destruct (inv_limits w Hinv). unfold limits_ok. by rewrite Hmi, Hmt.
  - rewrite (Zsum_insert _ _ _ _ _ Hi). pose proof (inv_total w Hinv). lia.
  - apply Forall_insert; [apply Hinv|done].
  - apply Forall_insert; [apply Hinv|done].
  - eapply thread_abs_cap; [done..|apply Hinv|apply Hinv].
  - pose proof (inv_next w Hinv). lia.
  - intros j u id [(<- & <- & _)|[_ Hj]]%insert_lookup_cases Hu; [by apply Hids|].
    destruct (inv_ident w Hinv j u id Hj Hu) as (n & -> & ?). exists n. split; [done|lia].
  - intros j k u v id Hj Hk Hu Hv.
    apply insert_lookup_cases in Hj as [(<- & <- & _)|[? Hj]];
      apply insert_lookup_cases in Hk as [(<- & <- & _)|[? Hk]]; [done|..].
    + by eapply Hids.
    + symmetry. by eapply Hids.
    + by eapply inv_unique.
  - intros p s id r Hs Hr.
    destruct (thread_abs_owner _ _ _ _ _ _ _ _ Habs Hs Hr) as [Hh|(s0 & Hs0 & Hr0 & Hh)].
    { exists i, t'. by rewrite list_lookup_insert_eq. }
    destruct (inv_owner w Hinv p s0 id r Hs0 Hr0) as (j & u & Hj & Hu).
    destruct (decide (i = j)) as [<-|Hne].
    + simplify_eq. exists i, t'. rewrite list_lookup_insert_eq by done. auto.
    + exists j, u. by rewrite list_lookup_insert_ne.
Qed.

Lemma inv_step w l w' :
  inv w → (nextRequestID (srv (st w)) < 2^64 - 1)%Z → exec w l = Some w' →
  inv w' ∧ (nextRequestID (srv (st w')) ≤ nextRequestID (srv (st w)) + 1)%Z.
Proof.
  intros Hinv Hlt Hs. destruct w' as [st' ts'].
  destruct (exec_abs _ _ _ Hs) as [(i & t & t' & new & Hi & Habs & Hts & Hnew)|[Hst (new & Hts & Hnew)]];
    simpl in *; subst.
  - split; [|by destruct (thread_abs_ids w i t st' t' Hinv Hlt Hi Habs) as [[_ ?] _]].
    exact (inv_spawn (mkWorld st' (<[i:=t']> (threads w))) new
             (inv_thread w i t st' t' Hinv Hlt Hi Habs) Hnew).
  - split; [by apply inv_spawn|lia].
Qed.

(** ** Reachability *)

(** The invariant along a run of fewer than 2^64 - 1 steps; a longer one could draw a
    request id a second time. *)
Lemma inv_nsteps n w w' :
  inv w → nsteps step n w w' → (nextRequestID (srv (st w)) + Z.of_nat n < 2^64)%Z →
  inv w'.
Proof.
  intros Hinv Hn. revert Hinv. induction Hn as [w|n w w1 w' [l Hl] _ IH]; intros Hinv Hlt; [done|].
  destruct (inv_step w l w1 Hinv) as [Hinv1 Hle]; [lia|done|]. apply IH; [done|lia].
Qed.

Lemma inv_init s :
  limits_ok s → totalInflight s = 0%Z → nextRequestID s = 0%Z → inv (init_world s).
Proof.
  intros Hlim Htot Hreq. pose proof Hlim as [? ?].
  constructor; simpl; rewrite ?Htot, ?Hreq; try done; try lia.
Qed.

(** ** Response states *)

Definition holds_rs (t : thread) : option nat := snd <$> holds t.

(** A step of a thread that has no way to a response state leaves it alone, and still
    has none afterwards. *)
Lemma thread_abs_untouched st1 t st2 t' q :
  thread_abs st1 t st2 t' → q < length (rsH st1) →
  holds_rs t ≠ Some q →
  (∀ pc, t = TConn pc → ¬ conn_touches st1 pc q) →
  delivers t ≠ Some q →
  (∀ pc p, t = TConn pc → conn_receives pc = Some p → ¬ registered st1 p q) →
  rsH st2 !! q = rsH st1 !! q ∧ holds_rs t' ≠ Some q ∧ delivers t' ≠ Some q
  ∧ ∀ p, registered st2 p q → registered st1 p q.
Proof.
  intros Habs Hlen Hh Hc Hd Hreg.
  assert (∀ p, registered st2 p q → holds_rs t' ≠ Some q → registered st1 p q) as Hold.
  { intros p (s & id & Hs & Hi) Hn.
    destruct (thread_abs_owner _ _ _ _ _ _ _ _ Habs Hs Hi) as [Ht|(s0 & ? & ? & _)].
    - unfold holds_rs in Hn. by rewrite Ht in Hn.
    - by exists s0, id. }
  assert (rsH st2 !! q = rsH st1 !! q ∧ holds_rs t' ≠ Some q ∧ delivers t' ≠ Some q)
    as (? & ? & ?); [|by split_and!; eauto].
  clear Hold. unfold holds_rs in *.
  destruct Habs as [??????? ? Ha| st1 pc st2 pc' Ha | ???? Hq ? Hh' ? Hd'].
  - simpl in *. destruct Ha as
      [???? Hq ? Hh'| | | | |? ? ? ? ? ? ? ? ? Hh'| | |]; simpl in *; try done.
    + rewrite Hh'. split_and!; [by apply (quiet_rs _ _ _ Hq)|done..].
    + rewrite Hh'. simpl. split_and!; [by apply lookup_app_l|naive_solver lia|done].
  - specialize (Hc pc eq_refl). split_and!; try done.
    + destruct Ha as [???? Hq| | | |]; simpl; try done; [by apply (quiet_rs _ _ _ Hq)|auto].
    + destruct Ha as [???? ? ? Hnew| | | |]; try congruence; try done.
      intros [?|(p & Hp & Hr)]%Hnew; [done|]. by eapply Hreg.
  - rewrite Hh', Hd'. split_and!; try done. apply (quiet_rs _ _ _ Hq). by intros [].
Qed.

Lemma thread_abs_length st1 t st2 t' :
  thread_abs st1 t st2 t' → length (rsH st1) ≤ length (rsH st2).
Proof.
  destruct 1 as [??????? ? Ha| ??? ? Ha | ???? Hq].
  - destruct Ha as [???? Hq| | | | | | | |]; simpl; rewrite ?length_app; try lia.
    by rewrite (quiet_len _ _ _ Hq).
  - destruct Ha as [???? Hq| |? ? ? ? ? ? ? ? ? Hl| |]; simpl; try lia.
    by rewrite (quiet_len _ _ _ Hq).
  - by rewrite (quiet_len _ _ _ Hq).
Qed.

End invariants.
