(* ===== verification/Origins.v ===== *)
(** * server: where the threads of a new state come from.

    A step changes one thread and may start helpers: readers, send loops and heartbeats.
    Invariants about handlers and [Connect]s look only at the thread that steps and at the
    others, which stay as they are. *)

From S2P Require Import Prelude GoStrings Hostnames Proto Headers Channels ResponseState Server.
From S2P Require Import Steps Abstract Invariants.

Section origins.
Context `{UnicodeData}.

(** Neither a handler nor a [Connect]. *)
Definition helper (t : thread) : Prop :=
  match t with THttp _ _ _ _ | TConn _ => False | _ => True end.

Lemma new_helpers st ts t c st' t' new :
  thread_step st ts t c = Some (st', t', new) → Forall helper new.
Proof.
  intros Hs. destruct t as [r ctx out pc|q x pc|pc|q sent e|q run]; cbn [thread_step] in Hs;
    apply bind_Some in Hs as (y & Hs & Heq); repeat case_match; simplify_eq; try constructor.
  - destruct pc; cbn [http_step http_enter http_respond http_websocket http_exit] in Hs;
      try done; open_step; repeat constructor.
  - destruct pc; cbn [conn_step] in Hs; try done; open_step; repeat constructor.
Qed.

(** A handler is a handler afterwards, for the same request, and nothing else is. *)
Lemma thread_step_http st ts t c st' t' new :
  thread_step st ts t c = Some (st', t', new) →
  (∃ r ctx out pc ev pc', t = THttp r ctx out pc ∧ t' = THttp r ctx (out ++ ev) pc'
     ∧ http_step st r ctx (length ts) (read_done ts) pc c = Some (st', ev, pc', new))
  ∨ ∀ r ctx out pc, t ≠ THttp r ctx out pc ∧ t' ≠ THttp r ctx out pc.
Proof.
  intros Hs. destruct t; cbn [thread_step] in Hs; apply bind_Some in Hs as (x & Hs & Heq);
    repeat case_match; simplify_eq; [left; by repeat eexists|by right..].
Qed.

Lemma thread_step_conn st ts t c st' t' new :
  thread_step st ts t c = Some (st', t', new) →
  (∃ pc pc', t = TConn pc ∧ t' = TConn pc'
     ∧ conn_step st (length ts) (send_result ts) pc c = Some (st', pc', new))
  ∨ ∀ pc, t ≠ TConn pc ∧ t' ≠ TConn pc.
Proof.
  intros Hs. destruct t; cbn [thread_step] in Hs; apply bind_Some in Hs as (x & Hs & Heq);
    repeat case_match; simplify_eq; [by right..| |by right|by right].
  left. by repeat eexists.
Qed.

(** Where a handler and a [Connect] of the new state come from. *)
Lemma handler_origin st ts i t c st' t' new j r ctx out pc :
  thread_step st ts t c = Some (st', t', new) → ts !! i = Some t →
  (<[i := t']> ts ++ new) !! j = Some (THttp r ctx out pc) →
  (j ≠ i ∧ ts !! j = Some (THttp r ctx out pc))
  ∨ (j = i ∧ ∃ out0 pc0 ev, t = THttp r ctx out0 pc0 ∧ out = out0 ++ ev
       ∧ http_step st r ctx (length ts) (read_done ts) pc0 c = Some (st', ev, pc, new)).
Proof.
  intros Hs Hi [Hj|[_ Hj]]%lookup_app_Some.
  2: { pose proof (new_helpers _ _ _ _ _ _ _ Hs) as Hn. destruct (Forall_lookup_1 _ _ _ _ Hn Hj). }
  apply insert_lookup_cases in Hj as [(<- & Ht & _)|[? Hj]]; [right|by left]. split; [done|].
  destruct (thread_step_http _ _ _ _ _ _ _ Hs)
    as [(r0 & ctx0 & out0 & pc0 & ev & pc1 & -> & -> & Hstep)|Hn].
  - simplify_eq. by eexists _, _, _.
  - by destruct (Hn r ctx out pc).
Qed.

Lemma conn_origin st ts i t c st' t' new j pc :
  thread_step st ts t c = Some (st', t', new) → ts !! i = Some t →
  (<[i := t']> ts ++ new) !! j = Some (TConn pc) →
  (j ≠ i ∧ ts !! j = Some (TConn pc))
  ∨ (j = i ∧ ∃ pc0, t = TConn pc0
       ∧ conn_step st (length ts) (send_result ts) pc0 c = Some (st', pc, new)).
Proof.
  intros Hs Hi [Hj|[_ Hj]]%lookup_app_Some.
  2: { pose proof (new_helpers _ _ _ _ _ _ _ Hs) as Hn. destruct (Forall_lookup_1 _ _ _ _ Hn Hj). }
  apply insert_lookup_cases in Hj as [(<- & Ht & _)|[? Hj]]; [right|by left]. split; [done|].
  destruct (thread_step_conn _ _ _ _ _ _ _ Hs) as [(pc0 & pc1 & -> & -> & Hstep)|Hn].
  - simplify_eq. by eexists _.
  - by destruct (Hn pc).
Qed.
End origins.
