(* ===== verification/ServerConfig.v ===== *)
(** * server: what [New] accepts and what it builds.

    The credentials are a Go map, so the loop of [New] may see them in any order; the
    results hold for every order. *)

From S2P Require Import Prelude GoStrings Hostnames Proto Headers Channels ResponseState Server.
From S2P Require Import Steps Scenario.

Section config.
Context `{UnicodeData}.

Definition user_name (kv : string * string) : string := NormalizeLabel kv.2.

Definition user_ok (kv : string * string) : Prop :=
  kv.1 ≠ "" ∧ dns_label (user_name kv) ∧ user_name kv ≠ "edge".

(** A configuration the edge can start with. *)
Definition valid_config (cfg : Config) : Prop :=
  ValidateDomain (NormalizeDomain (PublicDomain cfg)) = Ok tt
  ∧ map_Forall (λ token name, user_ok (token, name)) (TokenUsers cfg)
  ∧ ∀ t t' n n', TokenUsers cfg !! t = Some n → TokenUsers cfg !! t' = Some n' →
      NormalizeLabel n = NormalizeLabel n' → t = t'.

Lemma New_user_Ok d acc kv acc' :
  New_user d acc kv = Ok acc' ↔
  user_ok kv ∧ acc.2 !! user_name kv = None
  ∧ acc' = (<[kv.1 := user_name kv]> acc.1.1, {[Subdomain (user_name kv) d]} ∪ acc.1.2,
            <[user_name kv := kv.1]> acc.2).
Proof.
  destruct acc as [[tu ph] ut]. unfold New_user, user_ok, user_name. simpl.
  rewrite <-ValidateLabel_Ok. split.
  - intros Hn. inv_ok. rewrite !bool_decide_eq_false in *. case_match; simplify_eq.
    by destruct x0.
  - intros ((? & -> & ?) & Hut & ->). rewrite !bool_decide_false by done. simpl. by rewrite Hut.
Qed.

Lemma foldM_New_user d iter acc acc' :
  foldM (New_user d) acc iter = Ok acc' ↔
  Forall user_ok iter ∧ NoDup (user_name <$> iter)
  ∧ (∀ n, n ∈ user_name <$> iter → acc.2 !! n = None)
  ∧ acc' = (foldl (λ m kv, <[kv.1 := user_name kv]> m) acc.1.1 iter,
            foldl (λ h kv, {[Subdomain (user_name kv) d]} ∪ h) acc.1.2 iter,
            foldl (λ m kv, <[user_name kv := kv.1]> m) acc.2 iter).
Proof.
  revert acc. induction iter as [|kv iter IH]; intros [[tu ph] ut]; cbn [foldM foldl fmap list_fmap].
  { split.
    - intros [= <-]. split_and!; try constructor. by intros n ?%not_elem_of_nil.
    - by intros (_ & _ & _ & ->). }
  rewrite bind_Ok. setoid_rewrite New_user_Ok. setoid_rewrite IH. cbn [fst snd].
  rewrite Forall_cons, NoDup_cons. split.
  - intros (? & (Hok & Hut & ->) & Hall & Hnd & Hfr & ->). simpl in *.
    split_and!; try done.
    + intros Hin. specialize (Hfr _ Hin). by rewrite lookup_insert_eq in Hfr.
    + intros n [->|Hn]%elem_of_cons; [done|]. specialize (Hfr n Hn).
      by apply lookup_insert_None in Hfr as [? _].
  - intros ([Hok Hall] & [Hni Hnd] & Hfr & ->). eexists. split.
    { split_and!; [done| |done]. apply Hfr. left. }
    split_and!; try done. intros n Hn. simpl.
    rewrite lookup_insert_ne by (intros <-; done). apply Hfr. by right.
Qed.

Lemma foldl_union_elem {A} (f : A → string) (l : list A) (h0 : gset string) x :
  x ∈ foldl (λ h a, {[f a]} ∪ h) h0 l ↔ x ∈ h0 ∨ ∃ a, a ∈ l ∧ x = f a.
Proof.
  revert h0. induction l as [|a l IH]; intros h0; simpl.
  - split; [by left|]. intros [?|(a & Ha & _)]; [done|]. by apply not_elem_of_nil in Ha.
  - rewrite IH, elem_of_union, elem_of_singleton. setoid_rewrite elem_of_cons. naive_solver.
Qed.

Lemma iterates_lookup {V} (m : gmap string V) l k v :
  iterates m l → (k, v) ∈ l ↔ m !! k = Some v.
Proof. intros Hl. by rewrite Hl, elem_of_map_to_list. Qed.

Lemma iterates_NoDup {V} (m : gmap string V) l : iterates m l → NoDup l.*1.
Proof. intros Hl. rewrite Hl. apply NoDup_fst_map_to_list. Qed.

Lemma iterates_names cfg iter :
  iterates (TokenUsers cfg) iter →
  (NoDup (user_name <$> iter) ↔
   ∀ t t' n n', TokenUsers cfg !! t = Some n → TokenUsers cfg !! t' = Some n' →
      NormalizeLabel n = NormalizeLabel n' → t = t').
Proof.
  intros Hit. split.
  - intros Hnd t t' n n' Ht Ht' Heq.
    rewrite <-(iterates_lookup _ _ t n Hit) in Ht.
    rewrite <-(iterates_lookup _ _ t' n' Hit) in Ht'.
    apply list_elem_of_lookup in Ht as [i Hi], Ht' as [j Hj].
    assert (i = j) as <-; [|congruence].
    eapply NoDup_lookup; [exact Hnd| |]; rewrite list_lookup_fmap.
    + by rewrite Hi.
    + rewrite Hj. simpl. unfold user_name. simpl. by rewrite Heq.
  - intros Hinj. pose proof (iterates_NoDup _ _ Hit) as Hnd.
    apply NoDup_fmap_2_strong; [|by eapply NoDup_fmap_1].
    intros [t n] [t' n'] Hn Hn'. unfold user_name. simpl. intros Heq.
    rewrite (iterates_lookup _ _ t n Hit) in Hn.
    rewrite (iterates_lookup _ _ t' n' Hit) in Hn'.
    assert (t = t') as <- by eauto. congruence.
Qed.

(** ** What [New] builds *)

Definition valid_server (cfg : Config) (s : Server) : Prop :=
  publicDomain s = NormalizeDomain (PublicDomain cfg)
  ∧ tokenUsers s = NormalizeLabel <$> TokenUsers cfg
  ∧ (∀ h, h ∈ publicHosts s ↔
       ∃ token u, tokenUsers s !! token = Some u ∧ h = Subdomain u (publicDomain s))
  ∧ heartbeat s = (if HeartbeatInterval cfg <=? 0 then 10 * second else HeartbeatInterval cfg)%Z
  ∧ maxInflight s = (if MaxInflightPerSession cfg <=? 0 then 128 else MaxInflightPerSession cfg)%Z
  ∧ maxTotalInflight s = (if MaxTotalInflight cfg <=? 0 then 512 else MaxTotalInflight cfg)%Z
  ∧ totalInflight s = 0%Z ∧ sessions s = ∅ ∧ nextSessionID s = 0%Z ∧ nextRequestID s = 0%Z.

Lemma New_tokenUsers cfg iter :
  iterates (TokenUsers cfg) iter →
  foldl (λ m kv, <[kv.1 := user_name kv]> m) (∅ : gmap string string) iter
  = NormalizeLabel <$> TokenUsers cfg.
Proof.
  intros Hit. apply map_eq. intros t. apply option_eq. intros u.
  rewrite (foldl_insert_lookup fst user_name) by (by eapply iterates_NoDup).
  rewrite lookup_fmap_Some. unfold user_name. split.
  - intros ([t' n] & Hin & <- & <-). exists n.
    by rewrite (iterates_lookup _ _ _ _ Hit) in Hin.
  - intros (n & <- & Hn). exists (t, n). by rewrite (iterates_lookup _ _ _ _ Hit).
Qed.

Lemma New_range_Ok cfg iter s :
  iterates (TokenUsers cfg) iter → New_range cfg iter = Ok s →
  valid_config cfg ∧ valid_server cfg s.
Proof.
  intros Hit. unfold New_range. intros Hn. inv_ok.
  match goal with Hf : foldM _ _ _ = Ok _ |- _ => apply foldM_New_user in Hf end.
  destruct_all. subst. simpl in *. split.
  - split_and!.
    + by match goal with Hv : ValidateDomain _ = Ok ?u |- _ => destruct u end.
    + intros t n Ht. rewrite <-(iterates_lookup _ _ _ _ Hit) in Ht.
      by eapply Forall_forall in Ht; [|done].
    + by apply (iterates_names cfg iter).
  - unfold valid_server. simpl. rewrite (New_tokenUsers cfg iter Hit). split_and!; try done.
    intros h. rewrite (foldl_union_elem (λ kv, Subdomain (user_name kv) _)).
    setoid_rewrite lookup_fmap_Some. unfold user_name. split.
    + intros [?%not_elem_of_empty|([t n] & Hin & ->)]; [done|].
      rewrite (iterates_lookup _ _ _ _ Hit) in Hin. eauto 10.
    + intros (t & u & (n & <- & Hn) & ->). right. exists (t, n).
      by rewrite (iterates_lookup _ _ _ _ Hit).
Qed.

Lemma New_range_valid cfg iter :
  iterates (TokenUsers cfg) iter → valid_config cfg → ∃ s, New_range cfg iter = Ok s.
Proof.
  intros Hit (Hd & Hu & Hinj). unfold New_range. rewrite Hd. simpl.
  destruct (foldM _ _ _) as [acc|e] eqn:Hf; simpl; [by eexists|]. exfalso.
  eassert (foldM (New_user (NormalizeDomain (PublicDomain cfg))) (∅, ∅, ∅) iter = Ok _) as Hok.
  { apply foldM_New_user. split_and!; [| | |done].
    - apply Forall_forall. intros [t n] Ht. apply Hu.
      by rewrite <-(iterates_lookup _ _ _ _ Hit).
    - by apply (iterates_names cfg iter).
    - done. }
  rewrite Hf in Hok. done.
Qed.

(** Two tokens of one server never name the same user. *)
Lemma valid_server_inj cfg s t t' u :
  valid_config cfg → valid_server cfg s →
  tokenUsers s !! t = Some u → tokenUsers s !! t' = Some u → t = t'.
Proof.
  intros (_ & _ & Hinj) (_ & Htu & _). rewrite Htu, !lookup_fmap_Some.
  intros (n & <- & Hn) (n' & Heq & Hn'). eauto.
Qed.

Lemma valid_server_user cfg s t u :
  valid_config cfg → valid_server cfg s → tokenUsers s !! t = Some u →
  t ≠ "" ∧ dns_label u ∧ u ≠ "edge".
Proof.
  intros (_ & Hu & _) (_ & Htu & _). rewrite Htu, lookup_fmap_Some.
  intros (n & <- & Hn). exact (Hu _ _ Hn).
Qed.

Lemma edge_host_reserved cfg s :
  valid_config cfg → valid_server cfg s →
  Subdomain "edge" (publicDomain s) ∉ publicHosts s.
Proof.
  intros Hcfg Hs. pose proof Hs as (_ & _ & Hph & _). rewrite Hph.
  intros (t & u & Htu & Heq).
  destruct (valid_server_user _ _ _ _ Hcfg Hs Htu) as (_ & Hu & Hne).
  apply Hne. symmetry. eapply Subdomain_inj; [|done|exact Heq].
  by apply ValidateLabel_Ok.
Qed.

Lemma valid_server_unique cfg s s' : valid_server cfg s → valid_server cfg s' → s = s'.
Proof.
  destruct s as [d tu ph hb mi mt tot ss n1 n2], s' as [d' tu' ph' hb' mi' mt' tot' ss' n1' n2'].
  unfold valid_server. simpl. intros Hv Hv'. destruct_all. subst.
  assert (ph = ph') as -> by set_solver. done.
Qed.

Lemma New_valid cfg s : New cfg = Ok s → valid_config cfg ∧ valid_server cfg s.
Proof. apply New_range_Ok. unfold iterates. reflexivity. Qed.

(** ** The theorems *)

(** C20. [New] accepts exactly the valid configurations and builds the same server
    whatever order the map of users is visited in: every token non-empty, every user a
    DNS label other than the reserved one after normalisation, no user twice; the
    server then has the normalised users, their hosts and the limits, defaults for
    those that are not positive, and nothing in flight. *)
Theorem New_accepts cfg iter :
  iterates (TokenUsers cfg) iter →
  ((∃ s, New_range cfg iter = Ok s) ↔ valid_config cfg)
  ∧ ∀ s, New_range cfg iter = Ok s → valid_server cfg s ∧ New cfg = Ok s.
Proof.
  intros Hit. split.
  - split; [intros [s Hs]; by eapply New_range_Ok|by apply New_range_valid].
  - intros s Hs. destruct (New_range_Ok _ _ _ Hit Hs) as [Hcfg Hval]. split; [done|].
    assert (iterates (TokenUsers cfg) (map_to_list (TokenUsers cfg))) as Hit'
      by (unfold iterates; reflexivity).
    destruct (New_range_valid cfg _ Hit' Hcfg) as [s' Hs']. fold (New cfg) in Hs'.
    rewrite Hs'. f_equal. eapply valid_server_unique; [|done]. by apply New_valid.
Qed.

(** C21. The hosts of the edge are apart: two users never share a public host, and the
    edge's own host, the subdomain edge of the domain, where the status page and the
    tunnel endpoint live, is nobody's.  For a domain in normal form the edge serves a
    browser's Host header exactly when it normalises to user.domain for a configured
    user. *)
Theorem public_hosts_apart cfg s :
  New cfg = Ok s →
  Subdomain "edge" (publicDomain s) ∉ publicHosts s
  ∧ (∀ t t' u u', tokenUsers s !! t = Some u → tokenUsers s !! t' = Some u' →
      Subdomain u (publicDomain s) = Subdomain u' (publicDomain s) → t = t')
  ∧ (dns_domain (publicDomain s) → ∀ host, HasPublicHost s host ↔
      ∃ t u, tokenUsers s !! t = Some u ∧ NormalizeHost host = u +:+ "." +:+ publicDomain s).
Proof.
  intros [Hcfg Hval]%New_valid. pose proof Hval as (_ & _ & Hph & _). split_and!.
  - by eapply edge_host_reserved.
  - intros t t' u u' Hu Hu' Heq. eapply valid_server_inj; [done..|].
    erewrite (Subdomain_inj u u'); [done| | |exact Heq]; by eapply valid_server_user.
  - intros Hd host. unfold HasPublicHost. rewrite bool_decide_spec, Hph.
    split; intros (t & u & Htu & Heq); exists t, u; (split; [done|]).
    + rewrite Heq. eapply Subdomain_dns; [by eapply valid_server_user|done].
    + rewrite Heq. symmetry. eapply Subdomain_dns; [by eapply valid_server_user|done].
Qed.
End config.

Section witnesses.
Import Scenario.

Example New_accepts_witness :
  valid_config config ∧ New_range config [("demo-token", "Demo")] = Ok server.
Proof.
  assert (iterates (TokenUsers config) [("demo-token", "Demo")]) as Hit.
  { unfold iterates. vm_compute. reflexivity. }
  destruct (New_accepts config [("demo-token", "Demo")] Hit) as [Hiff _].
  split; [apply Hiff; exists server|]; vm_compute; reflexivity.
Defined.

Example public_hosts_apart_witness :
  "edge.example.com" ∉ publicHosts server ∧ HasPublicHost server "DEMO.example.com:443" = true.
Proof.
  destruct (public_hosts_apart config server server_new) as [Hedge _].
  split; [exact Hedge|vm_compute; reflexivity].
Defined.
End witnesses.
