(* ===== verification/Routing.v ===== *)
(** * server: which requests reach which client.

    [routes] is the invariant behind the isolation of users: a session is filed under
    the host of the user whose token it registered with, a handler only ever works for
    the session of its request's host, and so every request on a session's queue, or
    already sent to its client, was made to that user's host. *)

From S2P Require Import Prelude GoStrings Hostnames Proto Headers Channels ResponseState Server.
From S2P Require Import Steps Abstract Invariants ServerConfig.

(** ** Queues *)

(** Frames in the queues were there before, or are new ones. *)
Definition out_sub (new : nat → ServerFrame → Prop) (st st' : state) : Prop :=
  ∀ p s' f, sessH st' !! p = Some s' → f ∈ outbound s' →
    new p f ∨ ∃ s, sessH st !! p = Some s ∧ f ∈ outbound s.

Definition no_frame : nat → ServerFrame → Prop := λ _ _, False.

Lemma out_sub_same new st st' : sessH st' = sessH st → out_sub new st st'.
Proof. intros Heq p s' f. rewrite Heq. eauto. Qed.

Lemma out_sub_mono (new new' : nat → ServerFrame → Prop) st st' :
  (∀ p f, new p f → new' p f) → out_sub new st st' → out_sub new' st st'.
Proof. intros Hn Ho p s' f Hs Hf. destruct (Ho p s' f Hs Hf); eauto. Qed.

Lemma out_sub_insert (new : nat → ServerFrame → Prop) st st' p s s' :
  sessH st !! p = Some s → sessH st' = <[p := s']> (sessH st) →
  (∀ f, f ∈ outbound s' → new p f ∨ f ∈ outbound s) → out_sub new st st'.
Proof.
  intros Hs Heq Hf q x f. rewrite Heq.
  intros [(<- & <- & _)|[_ ?]]%insert_lookup_cases; [|eauto].
  intros [?|?]%Hf; eauto.
Qed.

Lemma enqueue_out st p f st' :
  enqueue st p f = Some st' → out_sub (λ q g, q = p ∧ g = f) st st'.
Proof.
  unfold enqueue. intros (s & Hs & (q & Hq & [= <-])%bind_Some)%bind_Some.
  eapply out_sub_insert; [done..|]. simpl. intros g.
  apply chan_send_Some in Hq as [_ ->]. rewrite elem_of_app, list_elem_of_singleton. naive_solver.
Qed.

Lemma sendFrame_out st p f c st' e :
  sendFrame st p f c = Some (st', e) → out_sub (λ q g, q = p ∧ g = f) st st'.
Proof.
  unfold sendFrame. intros Hs. open_step; [by apply out_sub_same|by apply enqueue_out].
Qed.

Lemma sendFrameCtx_out ctx st p f c st' e :
  sendFrameCtx ctx st p f c = Some (st', e) → out_sub (λ q g, q = p ∧ g = f) st st'.
Proof.
  unfold sendFrameCtx. intros Hs.
  open_step; [by apply out_sub_same|by apply out_sub_same|by apply enqueue_out].
Qed.

Lemma cancelRequest_out st p id c st' :
  cancelRequest st p id c = Some st' →
  out_sub (λ q g, q = p ∧ g = ServerFrame_CancelRequest id) st st'.
Proof.
  unfold cancelRequest. intros Hs. open_step; try (by apply out_sub_same).
  by apply enqueue_out.
Qed.

Lemma out_sub_put_sess new st p s s' :
  sessH st !! p = Some s → outbound s' = outbound s → out_sub new st (put_sess st p s').
Proof.
  intros Hs Ho. eapply out_sub_insert; [done..|]. intros f. rewrite Ho. auto.
Qed.

Lemma putWS_out new st p id w st' : putWS st p id w = Some st' → out_sub new st st'.
Proof. intros (s & ? & [= <-])%bind_Some. by eapply out_sub_put_sess. Qed.
Lemma delWS_out new st p id st' : delWS st p id = Some st' → out_sub new st st'.
Proof. intros (s & ? & [= <-])%bind_Some. by eapply out_sub_put_sess. Qed.
Lemma shutdown_enter_out new st p st' b :
  shutdown_enter st p = Some (st', b) → out_sub new st st'.
Proof.
  intros (s & Hs & Hm)%bind_Some. destruct (sess_once s); simplify_eq;
    [by eapply out_sub_put_sess|by apply out_sub_same].
Qed.
Lemma shutdown_fail_out new st p e st' n :
  shutdown_fail st p e = Some (st', n) → out_sub new st st'.
Proof.
  intros (s & Hs & _ & _ & HsH & _)%shutdown_fail_spec.
  eapply out_sub_insert; [exact Hs|done|]. auto.
Qed.
Lemma sess_del_out new st p id st' b : sess_del st p id = Some (st', b) → out_sub new st st'.
Proof.
  intros (s & Hs & Hm)%bind_Some. destruct (inflight s !! id); simplify_eq;
    [by eapply out_sub_put_sess|by apply out_sub_same].
Qed.
Lemma tryStart_out new st p id m st' o :
  tryStart st p id m = Some (st', o) → out_sub new st st'.
Proof.
  intros (s & Hs & Hm)%bind_Some. destruct (_ && _); simplify_eq/=; [by apply out_sub_same|].
  eapply out_sub_insert; [exact Hs|reflexivity|]. auto.
Qed.

Create HintDb outq discriminated.
#[export] Hint Resolve putWS_out delWS_out shutdown_enter_out shutdown_fail_out sess_del_out
  tryStart_out : outq.
#[export] Hint Extern 1 (out_sub _ _ _) => by apply out_sub_same : outq.

Section routing.
Context `{UnicodeData}.

(** The frames a handler queues. *)
Definition http_frames (r : Request) (pc : http_pc) (q : nat) (f : ServerFrame) : Prop :=
  http_sess pc = Some q ∧
  match f with
  | ServerFrame_RequestStart m => Host m = r_Host r
  | _ => True
  end.

Lemma forwardRequest_out st r ctx p id f c st' res :
  forwardRequest st r ctx p id f c = Some (st', res) →
  out_sub (λ q g, q = p ∧ match g with
                          | ServerFrame_RequestStart m => Host m = r_Host r
                          | _ => True end) st st'.
Proof.
  intros Hf. destruct f; cbn [forwardRequest] in Hf; open_step; simplify_eq;
    try (by apply out_sub_same);
    (eapply out_sub_mono; [|by eapply sendFrameCtx_out]); by intros ?? [-> ->].
Qed.

Lemma http_step_out st r ctx self rd pc c st' out pc' new :
  http_step st r ctx self rd pc c = Some (st', out, pc', new) →
  out_sub (http_frames r pc) st st'.
Proof.
  intros Hs. destruct pc; cbn [http_step] in Hs; try done.
  8: { apply bind_Some in Hs as ([st1 res] & Hf & Hs). apply forwardRequest_out in Hf.
       destruct res; [|destruct (forwarded _ _ _)]; simplify_eq;
         (eapply out_sub_mono; [|done]); intros ?? [-> ?]; done. }
  12: { cbn [http_respond] in Hs. open_step.
        eapply out_sub_mono; [|by eapply cancelRequest_out]. by intros ?? [-> ->]. }
  all: cbn [http_enter http_respond http_websocket http_exit] in Hs; open_step;
    try destruct (reserve_load _); simplify_eq; eauto with outq.
  match goal with
  | Hp : putWS _ _ _ _ = Some _ |- _ => exact (putWS_out (http_frames r (PPutWS p id _)) _ _ _ _ _ Hp)
  end.
Qed.

Lemma conn_step_out st self res pc c st' pc' new :
  conn_step st self res pc c = Some (st', pc', new) → out_sub no_frame st st'.
Proof.
  intros Hs. destruct pc; cbn [conn_step] in Hs; try done.
  1: { open_step; try (by apply out_sub_same). intros q x fr.
       intros [?|[_ <-]]%lookup_snoc_cases; [eauto|]. by intros ?%not_elem_of_nil. }
  5: { open_step; try (by apply out_sub_same).
       match goal with Hh : handleClientFrame _ _ ?f = _ |- _ =>
         destruct f; simpl in Hh; repeat case_match; simplify_eq/= end;
         by apply out_sub_same. }
  5: { open_step. destruct d, c; simplify_eq/=; open_step; by apply out_sub_same. }
  all: open_step; simplify_eq; eauto with outq.
Qed.

(** ** Sessions keep their identity *)

Definition authentic (s : Server) (x : session) : Prop :=
  (∃ token, tokenUsers s !! token = Some (username x))
  ∧ publicHost x = Subdomain (username x) (publicDomain s).

(** The host and the user never change, and a session that has been shut down stays so. *)
Definition same_id (x y : session) : Prop :=
  publicHost y = publicHost x ∧ username y = username x
  ∧ (sess_done x = true → sess_done y = true)
  ∧ (sess_once x = OnceDone → sess_once y = OnceDone).

Lemma thread_abs_keeps st1 t st2 t' p s :
  thread_abs st1 t st2 t' → sessH st1 !! p = Some s →
  ∃ s', sessH st2 !! p = Some s' ∧ same_id s s'.
Proof.
  intros Habs Hs. pose proof (lookup_lt_Some _ _ _ Hs) as Hlen.
  assert (∀ T, quiet T st1 st2 → ∃ s', sessH st2 !! p = Some s' ∧ same_id s s') as Hquiet.
  { intros T [_ Hq _ _]. destruct (Forall2_lookup_l _ _ _ _ _ Hq Hs) as (s' & ? & []).
    exists s'. by split_and!. }
  assert (∀ q y, (∀ x, sessH st1 !! q = Some x → same_id x y) →
     sessH st2 = <[q := y]> (sessH st1) →
     ∃ s', sessH st2 !! p = Some s' ∧ same_id s s') as Hins.
  { intros q y Hy ->. destruct (decide (q = p)) as [->|Hne].
    - exists y. rewrite list_lookup_insert_eq by done. auto.
    - exists s. by rewrite list_lookup_insert_ne. }
  assert (sessH st2 = sessH st1 → ∃ s', sessH st2 !! p = Some s' ∧ same_id s s') as Hsame.
  { intros ->. by exists s. }
  destruct Habs as [??????? ? Ha| ??? ? Ha | ???? Hq]; [| |by eapply Hquiet].
  - destruct Ha as [???? Hq| | | | |? q ? ? x ? Hx| |? ? x ? Hx|];
      try (by apply Hsame); [by eapply Hquiet|..].
    + eapply Hins; [|done]. intros y Hy. simplify_eq. by split_and!.
    + eapply Hins; [|done]. intros y Hy. simplify_eq. by split_and!.
  - destruct Ha as [???? Hq| | ? ? ? ? q x Hx Hsrv HsH| |]; try (by apply Hsame);
      [by eapply Hquiet|..].
    + exists s. split; [by apply lookup_app_l_Some|done].
    + eapply Hins; [|done]. intros y Hy. simplify_eq. by split_and!.
Qed.

Lemma thread_abs_sessions st1 t st2 t' p s' :
  thread_abs st1 t st2 t' → sessH st2 !! p = Some s' →
  (∃ s, sessH st1 !! p = Some s ∧ same_id s s')
  ∨ (p = length (sessH st1) ∧ authentic (srv st1) s').
Proof.
  intros Habs Hs'. destruct (sessH st1 !! p) as [s|] eqn:Hs.
  { destruct (thread_abs_keeps _ _ _ _ _ _ Habs Hs) as (x & Hx & ?). simplify_eq. eauto. }
  right. apply lookup_ge_None in Hs.
  assert (∀ l, length l = length (sessH st1) → l !! p = Some s' → False) as Hlen.
  { intros l Hl Hp%lookup_lt_Some. lia. }
  destruct Habs as [??????? ? Ha| ??? ? Ha | ???? Hq].
  - exfalso. destruct Ha as [???? Hq| | | | | | | |]; simpl in *; eauto.
    + eapply Hlen; [symmetry; eapply Forall2_length, quiet_sess, Hq|done].
    + eapply Hlen; [|done]. apply length_insert.
    + eapply Hlen; [|done]. apply length_insert.
  - destruct Ha as [???? Hq|? f reg u ? Hr Hu| ? ? ? ? q x Hx Hsrv HsH| |]; simpl in *;
      try (exfalso; by eauto).
    + exfalso. eapply Hlen; [symmetry; eapply Forall2_length, quiet_sess, Hq|done].
    + apply lookup_snoc_cases in Hs' as [Hs'%lookup_lt_Some|[-> <-]]; [lia|].
      split; [done|]. split; [by eexists|done].
    + exfalso. rewrite HsH in Hs'. eapply Hlen; [|done]. apply length_insert.
  - exfalso. eapply Hlen; [symmetry; eapply Forall2_length, quiet_sess, Hq|done].
Qed.

(** The table of sessions. *)
Lemma thread_abs_table st1 t st2 t' h p :
  thread_abs st1 t st2 t' → sessions (srv st2) !! h = Some p →
  sessions (srv st1) !! h = Some p
  ∨ ∃ s, sessH st2 !! p = Some s ∧ publicHost s = h.
Proof.
  intros Habs Hp.
  destruct Habs as [??????? ? Ha| ??? ? Ha | ???? Hq].
  - left. destruct Ha as [???? Hq| | | | | | | |]; simpl in *; try done.
    by rewrite (quiet_srv _ _ _ Hq) in Hp.
  - destruct Ha as [???? Hq|? f reg u ? Hr Hu| ? ? ? ? q x Hx Hsrv HsH| |]; simpl in *.
    + left. by rewrite (quiet_srv _ _ _ Hq) in Hp.
    + apply lookup_insert_Some in Hp as [[<- <-]|[_ ?]]; [right|by left].
      eexists. by rewrite list_lookup_middle.
    + left. by rewrite Hsrv in Hp.
    + left. unfold releaseGlobalSlots in Hp. by destruct (_ <=? _)%Z.
    + left. unfold removeSession in Hp. case_bool_decide; [|done]. simpl in Hp.
      by apply lookup_delete_Some in Hp as [_ ?].
  - left. by rewrite (quiet_srv _ _ _ Hq) in Hp.
Qed.

Lemma holds_sess pc p id r : http_holds pc = Some (p, id, r) → http_sess pc = Some p.
Proof. destruct pc; simpl; intros; simplify_eq; done. Qed.

(** A handler gets its session from the table, under its request's host. *)
Lemma http_step_sess st r ctx self rd pc c st' out pc' new p :
  http_step st r ctx self rd pc c = Some (st', out, pc', new) → http_sess pc' = Some p →
  http_sess pc = Some p ∨ sessions (srv st) !! NormalizeHost (r_Host r) = Some p.
Proof.
  intros Hs Hp.
  destruct (http_step_abs _ _ _ _ _ _ _ _ _ _ _ Hs) as
    [st pc st' pc' Hq _ Hh _ _ | | | ? ? ? ? ? ? ? ? Hps| |? ? ? ? ? ? ? ? ? Hh| | |];
    simplify_eq/=; auto.
  - destruct (http_holds pc) as [[[p1 id1] r1]|] eqn:Hh1.
    + left. rewrite (holds_sess _ _ _ _ Hh) in Hp. by rewrite (holds_sess _ _ _ _ Hh1).
    + destruct pc; try done; cbn [http_step http_enter http_exit] in Hs; open_step;
        simplify_eq/=; auto; unfold reserve_load in *; repeat case_match; simplify_eq/=; auto.
  - left. rewrite (holds_sess _ _ _ _ Hh) in Hp. done.
Qed.

(** ** The invariant *)

Definition has_host (st : state) (p : nat) (h : string) : Prop :=
  ∃ s, sessH st !! p = Some s ∧ publicHost s = h.

(** What a thread knows about its session. *)
Definition thread_routed (st : state) (t : thread) : Prop :=
  match t with
  | THttp r _ _ pc => ∀ p, http_sess pc = Some p → has_host st p (NormalizeHost (r_Host r))
  | TSend p sent _ => ∀ m, ServerFrame_RequestStart m ∈ sent →
      has_host st p (NormalizeHost (Host m))
  | _ => True
  end.

Record routes (w : world) : Prop := {
  routes_auth : ∀ p s, sessH (st w) !! p = Some s → authentic (srv (st w)) s;
  routes_table : ∀ h p, sessions (srv (st w)) !! h = Some p → has_host (st w) p h;
  routes_queue : ∀ p s m, sessH (st w) !! p = Some s →
    ServerFrame_RequestStart m ∈ outbound s → NormalizeHost (Host m) = publicHost s;
  routes_threads : ∀ i t, threads w !! i = Some t → thread_routed (st w) t }.

Lemma has_host_keeps st1 t st2 t' p h :
  thread_abs st1 t st2 t' → has_host st1 p h → has_host st2 p h.
Proof.
  intros Habs (s & Hs & <-). destruct (thread_abs_keeps _ _ _ _ _ _ Habs Hs) as (s' & ? & ? & ?).
  by exists s'.
Qed.

Lemma thread_routed_keeps st1 t st2 t' u :
  thread_abs st1 t st2 t' → thread_routed st1 u → thread_routed st2 u.
Proof. intros Habs. destruct u; simpl; eauto using has_host_keeps. Qed.

(** Frames a step of thread [t] may add to queues. *)
Definition adds (t : thread) (q : nat) (f : ServerFrame) : Prop :=
  match t with
  | THttp r _ _ pc => http_frames r pc q f
  | _ => match f with ServerFrame_RequestStart _ => False | _ => True end
  end.

Lemma thread_step_out st ts t c st' t' new :
  thread_step st ts t c = Some (st', t', new) → out_sub (adds t) st st'.
Proof.
  intros Hs. destruct t; cbn [thread_step] in Hs; open_step.
  - by eapply http_step_out.
  - match goal with Hr : reader_step _ _ _ _ _ = _ |- _ => unfold reader_step in Hr end.
    open_step; try (by apply out_sub_same);
      (eapply out_sub_mono; [|by eapply sendFrame_out]); by intros ?? [_ ->].
  - eapply out_sub_mono; [|by eapply conn_step_out]. done.
  - match goal with Hr : send_step _ _ _ _ _ = _ |- _ => unfold send_step in Hr end.
    open_step; simplify_eq; try (by apply out_sub_same);
      (eapply out_sub_insert; [done..|]); simpl; intros g Hg; right;
      match goal with Hq : chan_recv _ = _ |- _ => apply chan_recv_Some in Hq as -> end; by right.
  - match goal with Hr : beat_step _ _ _ _ = _ |- _ => unfold beat_step in Hr end.
    open_step; try (by apply out_sub_same).
    eapply out_sub_mono; [|by eapply enqueue_out]. by intros ?? [_ ->].
Qed.

(** A thread still knows its session after its own step. *)
Lemma thread_step_routed w i t c st' t' new :
  routes w → threads w !! i = Some t →
  thread_step (st w) (threads w) t c = Some (st', t', new) →
  thread_routed st' t' ∧ Forall (thread_routed st') new.
Proof.
  intros Hr Hi Hs. pose proof (routes_threads _ Hr _ _ Hi) as Ht.
  destruct (thread_step_abs _ _ _ _ _ _ _ Hs) as [Habs _].
  destruct t; cbn [thread_step] in Hs; open_step; simpl in *.
  - match goal with Hh : http_step _ _ _ _ _ _ _ = _ |- _ => rename Hh into Hstep end. split.
    + intros p Hp. eapply has_host_keeps; [done|].
      destruct (http_step_sess _ _ _ _ _ _ _ _ _ _ _ _ Hstep Hp); [eauto|].
      by eapply routes_table.
    + destruct pc; cbn [http_step http_enter http_respond http_websocket http_exit] in Hstep;
        try done; open_step; repeat constructor.
  - done.
  - match goal with Hh : conn_step _ _ _ _ _ = _ |- _ => rename Hh into Hstep end. split; [done|].
    destruct pc; cbn [conn_step] in Hstep; try done; open_step; repeat constructor.
    by intros m ?%not_elem_of_nil.
  - split; [|constructor].
    match goal with Hh : send_step _ _ _ _ _ = _ |- _ => rename Hh into Hstep end.
    intros m Hm. eapply has_host_keeps; [done|].
    unfold send_step in Hstep. open_step; simplify_eq; eauto.
    apply elem_of_app in Hm as [?|Hm%list_elem_of_singleton]; [eauto|]. subst.
    match goal with Hq : chan_recv _ = _ |- _ => apply chan_recv_Some in Hq end.
    eexists. split; [done|]. symmetry. eapply routes_queue; [done..|].
    match goal with Hq : outbound _ = _ |- _ => rewrite Hq end. left.
  - done.
Qed.

Lemma routes_step w l w' : routes w → exec w l = Some w' → routes w'.
Proof.
  intros Hr Hs. destruct l as [i c|i e|r|]; cbn [exec] in Hs.
  2-4: open_step; destruct Hr; constructor; simpl; try done.
  2-4: intros j u Hj.
  - apply bind_Some in Hs as (t & Hi & ([[st' t'] new] & Hstep & [= <-])%bind_Some).
    destruct (thread_step_routed _ _ _ _ _ _ _ Hr Hi Hstep) as [Ht' Hnew].
    destruct (thread_step_abs _ _ _ _ _ _ _ Hstep) as [Habs _].
    destruct (thread_abs_params _ _ _ _ Habs) as (_ & _ & Hdom & Htok & _).
    pose proof (thread_step_out _ _ _ _ _ _ _ Hstep) as Hout. constructor; simpl.
    + intros p s Hs. unfold authentic. rewrite Hdom, Htok.
      destruct (thread_abs_sessions _ _ _ _ _ _ Habs Hs) as [(s0 & Hs0 & -> & -> & _)|[_ ?]]; [|done].
      by apply (routes_auth _ Hr p).
    + intros h p Hp. destruct (thread_abs_table _ _ _ _ _ _ Habs Hp); [|done].
      eapply has_host_keeps; [done|]. by apply (routes_table _ Hr).
    + intros p s' m Hs' Hm. destruct (Hout p s' _ Hs' Hm) as [Hadd|(s & Hs & Hq)].
      * destruct t; simpl in Hadd; try done. destruct Hadd as [Hp Hhost].
        pose proof (routes_threads _ Hr _ _ Hi p Hp) as Hh.
        destruct (has_host_keeps _ _ _ _ _ _ Habs Hh) as (s & Hs & Hp'). simplify_eq.
        by rewrite Hhost.
      * destruct (thread_abs_keeps _ _ _ _ _ _ Habs Hs) as (s1 & Hs1 & Hh & _). simplify_eq.
        rewrite Hh. by eapply routes_queue.
    + intros j u [Hj|[_ Hj]]%lookup_app_Some; [|by eapply Forall_lookup_1 in Hj].
      apply insert_lookup_cases in Hj as [(<- & <- & _)|[_ Hj]]; [done|].
      eapply thread_routed_keeps; [done|]. by eapply routes_threads.
  - apply insert_lookup_cases in Hj as [(<- & <- & _)|[_ Hj]]; [|by eapply routes_threads0].
    destruct x; simplify_eq/=. destruct ctx; simplify_eq. by apply (routes_threads0 i _ H0).
  - apply lookup_snoc_cases in Hj as [?|[_ <-]]; [by eapply routes_threads0|done].
  - apply lookup_snoc_cases in Hj as [?|[_ <-]]; [by eapply routes_threads0|done].
Qed.

Lemma routes_rtc w w' : routes w → rtc step w w' → routes w'.
Proof. induction 2 as [|?? ? [l Hl] _ IH]; eauto using routes_step. Qed.

Lemma routes_init s : sessions s = ∅ → routes (init_world s).
Proof. intros Hs. constructor; simpl; try done. intros h p. by rewrite Hs. Qed.
End routing.
