(* ===== verification/Sessions.v ===== *)
(** * server: sessions, their table and their channels.

    The table of sessions names live sessions only, and every channel of the edge stays
    within its capacity and is closed at most once. *)

From S2P Require Import Prelude GoStrings Hostnames Proto Headers Channels ResponseState Server.
From S2P Require Import Steps Scenario Abstract Invariants Origins ServerConfig Routing.

Section sessions.
Context `{UnicodeData}.

(** ** The table *)

(** The session a [Connect] serves, from its creation until it has taken it out of the
    table. *)
Definition conn_owns (pc : conn_pc) : option nat :=
  match pc with
  | CReplEnter p _ | CReplFail p _ | CReplRelease p _ | CSpawn p | CRecv p _ | CDeliver p _ _
  | CShutEnter p _ _ | CShutFail p _ _ | CShutRelease p _ _ _ | CWaitSend p _ _
  | CRemove p _ => Some p
  | CFirst | CReturn _ => None
  end.

Definition owns (t : thread) : option nat :=
  match t with TConn pc => conn_owns pc | _ => None end.

Definition owned (w : world) (p : nat) : Prop :=
  ∃ i t, threads w !! i = Some t ∧ owns t = Some p.

Lemma conn_step_owns st self res pc c st' pc' new p :
  conn_step st self res pc c = Some (st', pc', new) → conn_owns pc = Some p →
  conn_owns pc' = Some p ∨ ∃ ret, pc = CRemove p ret.
Proof.
  intros Hs Hp. destruct pc; cbn [conn_step] in Hs; try done; open_step; simplify_eq/=;
    repeat case_match; simplify_eq/=; eauto.
Qed.

(** What a step of a [Connect] does to the table. *)
Lemma conn_step_table st self res pc c st' pc' new h p :
  conn_step st self res pc c = Some (st', pc', new) → sessions (srv st') !! h = Some p →
  conn_owns pc' = Some p
  ∨ (sessions (srv st) !! h = Some p
     ∧ ∀ s ret, pc = CRemove p ret → sessH st !! p = Some s → publicHost s ≠ h).
Proof.
  intros Hs Hp.
  assert (srv st' = srv st → (∀ ret, pc ≠ CRemove p ret) →
    sessions (srv st) !! h = Some p
    ∧ ∀ s ret, pc = CRemove p ret → sessH st !! p = Some s → publicHost s ≠ h) as Hsame.
  { intros Heq Hn. rewrite <-Heq. split; [done|]. intros s ret Hr. by destruct (Hn ret). }
  assert (∀ n, sessions (releaseGlobalSlots (srv st) n) = sessions (srv st)) as Hrel.
  { intros n. unfold releaseGlobalSlots. by destruct (_ <=? _)%Z. }
  destruct pc; cbn [conn_step] in Hs; try done.
  - destruct c; try done; [|right; by apply Hsame; simplify_eq].
    destruct (authenticate (srv st) f) as [u|e]; [|right; by apply Hsame; simplify_eq].
    destruct (putSession _ _ _) as [s' repl] eqn:Hput. unfold putSession in Hput. simplify_eq/=.
    apply lookup_insert_Some in Hp as [[<- <-]|[_ Hp]]; [left|right; split; [done|by intros]].
    by repeat case_match.
  - right. apply Hsame; [|done]. open_step.
    match goal with E : shutdown_enter _ _ = _ |- _ =>
      by rewrite (quiet_srv _ _ _ (shutdown_enter_quiet none _ _ _ _ E)) end.
  - right. apply Hsame; [|done]. open_step.
    match goal with E : shutdown_fail _ _ _ = _ |- _ => apply shutdown_fail_spec in E end.
    naive_solver.
  - right. open_step. simpl in Hp. rewrite Hrel in Hp. by split.
  - right. apply Hsame; [|done]. open_step. done.
  - right. apply Hsame; [|done]. open_step; [|done..].
    match goal with E : handleClientFrame _ _ _ = _ |- _ =>
      by rewrite (quiet_srv _ _ _ (proj1 (handleClientFrame_abs _ _ _ _ _ E))) end.
  - right. apply Hsame; [|done]. apply bind_Some in Hs as (st1 & Hd & Hs). simplify_eq.
    by rewrite (quiet_srv _ _ _ (deliver_quiet _ p0 snd _ _ _ Hd)).
  - right. apply Hsame; [|done]. open_step.
    match goal with E : shutdown_enter _ _ = _ |- _ =>
      by rewrite (quiet_srv _ _ _ (shutdown_enter_quiet none _ _ _ _ E)) end.
  - right. apply Hsame; [|done]. open_step.
    match goal with E : shutdown_fail _ _ _ = _ |- _ => apply shutdown_fail_spec in E end.
    naive_solver.
  - right. open_step. simpl in Hp. rewrite Hrel in Hp. by split.
  - right. apply Hsame; [|done]. open_step; done.
  - right. destruct c; try done. apply bind_Some in Hs as (s & Hs & Heq). simplify_eq/=.
    unfold removeSession in Hp. case_bool_decide as Hcur; simpl in Hp.
    + apply lookup_delete_Some in Hp as [Hne ?]. split; [done|]. intros; simplify_eq. done.
    + split; [done|]. intros s' ret' ? Hs' <-. simplify_eq.
Qed.

(** Only a [Connect] changes the table. *)
Lemma thread_step_table st ts t c st' t' new :
  thread_step st ts t c = Some (st', t', new) → (∀ pc, t ≠ TConn pc) →
  sessions (srv st') = sessions (srv st).
Proof.
  intros Hs Hn. destruct (thread_step_abs _ _ _ _ _ _ _ Hs) as [Habs _].
  destruct Habs as [??????? ? Ha| ??? ? Ha | ???? Hq];
    [|by edestruct Hn|by rewrite (quiet_srv _ _ _ Hq)].
  destruct Ha as [???? Hq| | | | | | | |]; simpl; try done. by rewrite (quiet_srv _ _ _ Hq).
Qed.

Definition live_table (w : world) : Prop :=
  ∀ h p, sessions (srv (st w)) !! h = Some p → owned w p.

Lemma live_thread w i t c st' t' new :
  routes w → live_table w → threads w !! i = Some t →
  thread_step (st w) (threads w) t c = Some (st', t', new) →
  live_table (mkWorld st' (<[i := t']> (threads w) ++ new)).
Proof.
  intros Hr Hlive Hi Hs h p Hp. cbn [st] in Hp.
  assert (owns t' = Some p → owned (mkWorld st' (<[i:=t']> (threads w) ++ new)) p) as Hself.
  { intros Ho. exists i, t'. split; [|done]. apply lookup_app_l_Some.
    apply list_lookup_insert_eq. by eapply lookup_lt_Some. }
  assert (owned w p → (owns t = Some p → owns t' = Some p) →
    owned (mkWorld st' (<[i:=t']> (threads w) ++ new)) p) as Hkeep.
  { intros (j & u & Hj & Ho) Hk. destruct (decide (j = i)) as [->|Hne].
    - simplify_eq. auto.
    - exists j, u. split; [|done]. apply lookup_app_l_Some. by rewrite list_lookup_insert_ne. }
  destruct t as [r ctx out pc|q id pc|pc|q sent e|q run];
    try (erewrite thread_step_table in Hp by done; apply Hkeep; [by eapply Hlive|done]).
  cbn [thread_step] in Hs. apply bind_Some in Hs as ([[s1 pc1] n1] & Hs & Heq). simplify_eq.
  destruct (conn_step_table _ _ _ _ _ _ _ _ _ _ Hs Hp) as [Ho|[Hold Hrem]]; [by apply Hself|].
  apply Hkeep; [by eapply Hlive|]. intros Ho.
  destruct (conn_step_owns _ _ _ _ _ _ _ _ _ Hs Ho) as [?|[ret ->]]; [done|].
  destruct (routes_table _ Hr _ _ Hold) as (x & Hx & Hh). by destruct (Hrem x ret eq_refl Hx).
Qed.

Lemma live_step w l w' : routes w → live_table w → exec w l = Some w' → live_table w'.
Proof.
  intros Hr Hlive Hl. destruct l as [i c|i e|r|]; cbn [exec] in Hl.
  - apply bind_Some in Hl as (t & Hi & ([[st' t'] new] & Hs & [= <-])%bind_Some).
    by eapply live_thread.
  - apply bind_Some in Hl as (t & Hi & (t' & Hc & [= <-])%bind_Some).
    destruct t as [r0 [] out0 pc0| | | |]; simplify_eq/=.
    intros h p Hp. destruct (Hlive h p Hp) as (j & u & Hj & Ho). exists j, u.
    split; [|done]. simpl. rewrite list_lookup_insert_ne; [done|]. intros ->. by simplify_eq.
  - simplify_eq. intros h p Hp. destruct (Hlive h p Hp) as (j & u & Hj & Ho). exists j, u.
    split; [by apply lookup_app_l_Some|done].
  - simplify_eq. intros h p Hp. destruct (Hlive h p Hp) as (j & u & Hj & Ho). exists j, u.
    split; [by apply lookup_app_l_Some|done].
Qed.

Lemma live_rtc w w' : routes w → live_table w → rtc step w w' → live_table w'.
Proof.
  intros Hr Hlive Hs. revert Hr Hlive.
  induction Hs as [|w w1 w2 [l Hl] _ IH]; eauto using routes_step, live_step.
Qed.

(** ** Channels *)

Definition sess_ok (s : session) : Prop :=
  length (outbound s) ≤ sessionOutboundQueueDepth
  ∧ sess_done s = bool_decide (sess_once s ≠ OnceNew).

Definition ws_ok (w : wsState) : Prop := length (fromClient w) ≤ wsInboundQueueDepth.

(** Every channel within its capacity, every done channel closed exactly when its once
    has run. *)
Record heap_ok (st : state) : Prop := {
  heap_sess : Forall sess_ok (sessH st);
  heap_rs : Forall rs_ok (rsH st);
  heap_ws : Forall ws_ok (wsH st) }.

Lemma heap_put_sess st p s : heap_ok st → sess_ok s → heap_ok (put_sess st p s).
Proof. intros [] ?. constructor; simpl; try done. by apply Forall_insert. Qed.
Lemma heap_put_rs st p r : heap_ok st → rs_ok r → heap_ok (put_rs st p r).
Proof. intros [] ?. constructor; simpl; try done. by apply Forall_insert. Qed.
Lemma heap_put_ws st p w : heap_ok st → ws_ok w → heap_ok (put_ws st p w).
Proof. intros [] ?. constructor; simpl; try done. by apply Forall_insert. Qed.
Lemma heap_put_srv st s : heap_ok st → heap_ok (put_srv st s).
Proof. by intros []. Qed.

Lemma heap_lookup_sess st p s : heap_ok st → sessH st !! p = Some s → sess_ok s.
Proof. intros [Hs _ _] Hp. by eapply Forall_lookup_1 in Hs. Qed.
Lemma heap_lookup_rs st p r : heap_ok st → rsH st !! p = Some r → rs_ok r.
Proof. intros [_ Hs _] Hp. by eapply Forall_lookup_1 in Hs. Qed.
Lemma heap_lookup_ws st p w : heap_ok st → wsH st !! p = Some w → ws_ok w.
Proof. intros [_ _ Hs] Hp. by eapply Forall_lookup_1 in Hs. Qed.

Create HintDb heap discriminated.
#[local] Hint Resolve heap_put_sess heap_put_rs heap_put_ws heap_put_srv heap_lookup_sess
  heap_lookup_rs heap_lookup_ws : heap.

Lemma heap_enqueue st p f st' : enqueue st p f = Some st' → heap_ok st → heap_ok st'.
Proof.
  unfold enqueue.
  intros (s & Hs & (q & Hq%chan_send_length & [= <-])%bind_Some)%bind_Some Hh.
  apply heap_put_sess; [done|]. destruct (heap_lookup_sess _ _ _ Hh Hs). by split.
Qed.

Lemma heap_sendFrame st p f c st' e : sendFrame st p f c = Some (st', e) → heap_ok st → heap_ok st'.
Proof.
  unfold sendFrame. destruct c; try done; [by case_match; intros [= <- <-]|].
  intros (st1 & ? & [= <- <-])%bind_Some. by eapply heap_enqueue.
Qed.

Lemma heap_sendFrameCtx ctx st p f c st' e :
  sendFrameCtx ctx st p f c = Some (st', e) → heap_ok st → heap_ok st'.
Proof.
  unfold sendFrameCtx. destruct c; try done; [by case_match; intros [= <- <-]|..].
  - by intros (e1 & _ & [= <- <-])%bind_Some.
  - intros (st1 & ? & [= <- <-])%bind_Some. by eapply heap_enqueue.
Qed.

Lemma heap_cancelRequest st p id c st' :
  cancelRequest st p id c = Some st' → heap_ok st → heap_ok st'.
Proof.
  unfold cancelRequest. destruct c; try done; [by case_match; intros [= <-]| |].
  - apply heap_enqueue.
  - by repeat case_match; try done; intros [= <-].
Qed.

Lemma heap_sess_update st p s s' :
  sessH st !! p = Some s → outbound s' = outbound s → sess_done s' = sess_done s →
  sess_once s' = sess_once s → heap_ok st → heap_ok (put_sess st p s').
Proof.
  intros Hs Ho Hd Hc Hh. apply heap_put_sess; [done|].
  destruct (heap_lookup_sess _ _ _ Hh Hs). unfold sess_ok. by rewrite Ho, Hd, Hc.
Qed.

Lemma Forall_alter_ok {A} (P : A → Prop) f (l : list A) i :
  (∀ x, P x → P (f x)) → Forall P l → Forall P (alter f i l).
Proof.
  intros Hf Hl. apply Forall_alter; [done|]. intros x Hx ?. by apply Hf.
Qed.

Lemma heap_alter_rs st f p :
  (∀ r, rs_ok r → rs_ok (f r)) → heap_ok st →
  heap_ok (mkState (srv st) (sessH st) (alter f p (rsH st)) (wsH st)).
Proof. intros Hf []. constructor; simpl; try done. by apply Forall_alter_ok. Qed.

Lemma heap_alter_ws st f p :
  (∀ r, ws_ok r → ws_ok (f r)) → heap_ok st →
  heap_ok (mkState (srv st) (sessH st) (rsH st) (alter f p (wsH st))).
Proof. intros Hf []. constructor; simpl; try done. by apply Forall_alter_ok. Qed.

Lemma heap_foldl {A} (P : A → Prop) (f : list A → nat → list A) h l :
  (∀ h x, Forall P h → Forall P (f h x)) → Forall P h → Forall P (foldl f h l).
Proof. intros Hf. revert h. induction l as [|x l IH]; intros h Hh; simpl; auto. Qed.

Lemma heap_shutdown_enter st p st' b :
  shutdown_enter st p = Some (st', b) → heap_ok st → heap_ok st'.
Proof.
  intros (s & Hs & Hm)%bind_Some Hh. destruct (heap_lookup_sess _ _ _ Hh Hs) as [Ho Hd].
  destruct (sess_once s) eqn:E; simplify_eq; [|done].
  apply heap_put_sess; [done|]. by split.
Qed.

(** [shutdown_fail] only runs in a once that has closed the channel. *)
Lemma heap_shutdown_fail st p e st' n :
  shutdown_fail st p e = Some (st', n) → is_closed st p = true → heap_ok st → heap_ok st'.
Proof.
  unfold shutdown_fail, failAll, is_closed.
  intros ([st1 n1] & (s & Hs & [= <- <-])%bind_Some & (s' & Hs' & [= <- <-])%bind_Some)%bind_Some.
  rewrite Hs. intros Hcl Hh. destruct (heap_lookup_sess _ _ _ Hh Hs) as [Ho Hd].
  cbn [sessH] in Hs'. rewrite list_lookup_insert_eq in Hs' by (by eapply lookup_lt_Some).
  simplify_eq. destruct Hh as [Hss Hrs Hws]. constructor; simpl.
  - apply Forall_insert; [by apply Forall_insert|by split].
  - apply heap_foldl; [|done]. intros h x. apply Forall_alter_ok. intros r. by apply fail_ok.
  - apply heap_foldl; [|done]. intros h x. by apply Forall_alter_ok.
Qed.

Lemma heap_handleClientFrame st p f st' d :
  handleClientFrame st p f = (st', d) → heap_ok st → heap_ok st'.
Proof.
  intros Hf Hh. destruct f; simpl in Hf; injection Hf as <- _; try done; case_match; try done.
  - apply heap_alter_rs; [apply finish_ok|done].
  - apply heap_alter_rs; [|done]. intros r. apply fail_ok.
  - by apply heap_alter_ws.
Qed.

Lemma heap_deliver st d c st' : deliver st d c = Some st' → heap_ok st → heap_ok st'.
Proof.
  intros Hd Hh. destruct d, c; try done; cbn [deliver] in Hd; try (open_step; done).
  - apply bind_Some in Hd as (r1 & Hr1 & (r2 & Hp & [= <-])%bind_Some).
    apply heap_put_rs; [done|]. eapply push_start_ok; eauto with heap.
  - apply bind_Some in Hd as (r1 & Hr1 & (r2 & Hp & [= <-])%bind_Some).
    apply heap_put_rs; [done|]. eapply push_body_ok; eauto with heap.
  - apply bind_Some in Hd as (r1 & Hr1 & (r2 & Hp & [= <-])%bind_Some).
    apply heap_put_ws; [done|]. unfold push_ws in Hp.
    apply bind_Some in Hp as (q & Hq%chan_send_length & [= <-]). done.
Qed.

(** Handlers. *)
Lemma heap_http_enter st r pc st' ev pc' new :
  http_enter st r pc = Some (st', ev, pc', new) → heap_ok st → heap_ok st'.
Proof.
  intros Hs Hh. destruct pc; try done; cbn [http_enter] in Hs.
  - open_step; done.
  - open_step; by apply heap_put_srv.
  - destruct (reserve_load (srv st)) as [s [[|]|]]; simplify_eq; by apply heap_put_srv.
  - open_step; [by apply heap_put_srv|done].
  - apply bind_Some in Hs as ([st1 res] & Ht & Hs). simplify_eq.
    unfold tryStart in Ht. apply bind_Some in Ht as (s & Hs & Ht). case_match; simplify_eq; [done|].
    destruct (heap_lookup_sess _ _ _ Hh Hs) as [Ho Hd]. destruct Hh. constructor; simpl; try done.
    + apply Forall_insert; [done|by split].
    + apply Forall_app. split; [done|]. repeat constructor; apply new_ok.
  - open_step; by apply heap_put_srv.
  - apply bind_Some in Hs as (st1 & Hp & Hs). simplify_eq.
    unfold putWS in Hp. apply bind_Some in Hp as (s & Hs & [= <-]).
    eapply heap_sess_update; [done..|]. destruct Hh. constructor; simpl; try done.
    apply Forall_app. split; [done|]. repeat constructor; unfold wsInboundQueueDepth; simpl; lia.
Qed.

Lemma heap_http_respond st ctx pc c st' ev pc' new :
  http_respond st ctx pc c = Some (st', ev, pc', new) → heap_ok st → heap_ok st'.
Proof.
  intros Hs Hh. destruct pc; try done; cbn [http_respond] in Hs.
  - apply bind_Some in Hs as (r & Hr & Hs). pose proof (heap_lookup_rs _ _ _ Hh Hr) as Hok.
    destruct c; try done; try (open_step; done);
      try (open_step; apply heap_put_rs; auto with rs; done).
    destruct (done r); [|done]. pose proof (consumeStart_ok _ Hok) as Hok'.
    destruct (consumeStart r) as [[m|] r1] eqn:E; simpl in Hok'.
    + destruct (write_header k m). simplify_eq. by apply heap_put_rs.
    + pose proof (consumeErr_ok _ Hok') as Hok2.
      destruct (consumeErr r1) as [[e|] r2]; simplify_eq; [by apply heap_put_rs|done].
  - apply bind_Some in Hs as (r & Hr & Hs). pose proof (heap_lookup_rs _ _ _ Hh Hr) as Hok.
    destruct c; try done; open_step; try done. apply heap_put_rs; auto with rs.
  - destruct c as [| | | | | | | | | | | | | |[]| | | |]; by simplify_eq.
  - apply bind_Some in Hs as (r & Hr & Hs). pose proof (heap_lookup_rs _ _ _ Hh Hr) as Hok.
    destruct c; try done. pose proof (consumeBody_ok _ Hok) as Hok'.
    destruct (consumeBody r) as [[m|] r1]; simplify_eq; apply heap_put_rs; auto with rs.
  - apply bind_Some in Hs as (st1 & Hc & Hs). simplify_eq. by eapply heap_cancelRequest.
Qed.

Lemma heap_http_websocket st r ctx self rd pc c st' ev pc' new :
  http_websocket st r ctx self rd pc c = Some (st', ev, pc', new) → heap_ok st → heap_ok st'.
Proof.
  intros Hs Hh. destruct pc; try done; cbn [http_websocket] in Hs.
  - apply bind_Some in Hs as (x & Hr & Hs). pose proof (heap_lookup_rs _ _ _ Hh Hr) as Hok.
    destruct c; try done; try (open_step; done).
    + apply bind_Some in Hs as ([m q] & _ & Hs).
      destruct (negb _); [|destruct (r_Hijacker r)]; [destruct (write_header k m)|..];
        simplify_eq; apply heap_put_rs; auto with rs.
    + open_step. apply heap_put_rs; auto with rs.
    + destruct (done x); [|done]. pose proof (consumeErr_ok _ Hok) as Hok'.
      destruct (consumeErr x) as [[e|] x']; simplify_eq; [by apply heap_put_rs|done].
  - destruct c as [| | | | | | | | | | | | | |[]| | | |]; by simplify_eq.
  - destruct c as [| | | | | | | | | | | | | |[]| | | |]; by simplify_eq.
  - apply bind_Some in Hs as (w & Hw & (x & Hx & Hs)%bind_Some).
    destruct c; try done; try (open_step; done). open_step.
    apply heap_put_ws; [done|]. pose proof (heap_lookup_ws _ _ _ Hh Hx) as Hok.
    unfold ws_ok in *. destruct (fromClient x); simplify_eq/=. lia.
  - destruct c as [| | | | | | | | | | | | | |[]| | | |]; by simplify_eq.
Qed.

Lemma heap_http_exit st pc st' ev pc' new :
  http_exit st pc = Some (st', ev, pc', new) → heap_ok st → heap_ok st'.
Proof.
  intros Hs Hh. destruct pc; try done; cbn [http_exit] in Hs.
  - open_step. apply heap_put_ws; [done|].
    match goal with E : wsH _ !! _ = _ |- _ => exact (heap_lookup_ws _ _ _ Hh E) end.
  - unfold delWS in Hs. open_step. by eapply heap_sess_update.
  - apply bind_Some in Hs as ([st1 ok] & Hd & Hs). simplify_eq. unfold sess_del in Hd.
    apply bind_Some in Hd as (s & Hs & Hd). case_match; simplify_eq; [|done].
    by eapply heap_sess_update.
  - open_step. by apply heap_put_srv.
Qed.

Lemma heap_conn_step st self res pc c st' pc' new :
  conn_step st self res pc c = Some (st', pc', new) → heap_ok st →
  (∀ q, conn_failing pc = Some q → is_closed st q = true) → heap_ok st'.
Proof.
  intros Hs Hh Hcl. destruct pc; cbn [conn_step] in Hs; try done.
  - destruct c; try done; [|by simplify_eq].
    destruct (authenticate (srv st) f) as [u|e]; [|by simplify_eq].
    destruct (putSession _ _ _) as [s' repl]. simplify_eq. destruct Hh. constructor; simpl; try done.
    apply Forall_app. split; [done|]. repeat constructor.
  - open_step. by eapply heap_shutdown_enter.
  - open_step. match goal with E : shutdown_fail _ _ _ = _ |- _ =>
      exact (heap_shutdown_fail _ _ _ _ _ E (Hcl _ eq_refl) Hh) end.
  - open_step. by apply heap_put_srv.
  - by open_step.
  - destruct c; try done; [|by simplify_eq].
    destruct (handleClientFrame st p f) as [st1 d] eqn:Hf. simplify_eq.
    by eapply heap_handleClientFrame.
  - apply bind_Some in Hs as (st1 & Hd & Hs). simplify_eq. by eapply heap_deliver.
  - open_step. by eapply heap_shutdown_enter.
  - open_step. match goal with E : shutdown_fail _ _ _ = _ |- _ =>
      exact (heap_shutdown_fail _ _ _ _ _ E (Hcl _ eq_refl) Hh) end.
  - open_step. by apply heap_put_srv.
  - open_step; done.
  - open_step. by apply heap_put_srv.
Qed.

Lemma conn_step_closes st self res pc c st' pc' new q :
  conn_step st self res pc c = Some (st', pc', new) → conn_failing pc' = Some q →
  is_closed st' q = true.
Proof.
  intros Hs Hq. destruct pc; cbn [conn_step] in Hs; try done; open_step; simplify_eq/=;
    repeat case_match; simplify_eq/=;
    unfold shutdown_enter, is_closed in *; open_step; simpl;
    by rewrite list_lookup_insert_eq by (by eapply lookup_lt_Some).
Qed.

Lemma heap_thread_step st ts t c st' t' new :
  thread_step st ts t c = Some (st', t', new) → heap_ok st →
  (∀ pc q, t = TConn pc → conn_failing pc = Some q → is_closed st q = true) → heap_ok st'.
Proof.
  intros Hs Hh Hcl. destruct t; cbn [thread_step] in Hs; apply bind_Some in Hs as (x & Hs & Heq);
    repeat case_match; simplify_eq.
  - destruct pc; cbn [http_step] in Hs; try done;
      try (by eapply heap_http_respond); try (by eapply heap_http_websocket);
      try (destruct c; try done; by eapply heap_http_enter);
      try (destruct c; try done; by eapply heap_http_exit).
    apply bind_Some in Hs as ([st1 x] & Hf & Hs).
    assert (heap_ok st1).
    { destruct f; cbn [forwardRequest] in Hf;
        try (apply bind_Some in Hf as ([st2 y] & Hf & [= <- _]); by eapply heap_sendFrameCtx).
      destruct c; try done. destruct ctx; [by simplify_eq|].
      destruct reads as [|[] ?]; by simplify_eq. }
    destruct x as [|e]; [by simplify_eq|]. destruct (forwarded _ _ _). by simplify_eq.
  - destruct pc; cbn [reader_step] in Hs; try done; try (destruct c; by simplify_eq);
      apply bind_Some in Hs as ([st2 y] & Hf & [= <- _]); by eapply heap_sendFrame.
  - eapply heap_conn_step; [done..|]. intros q. by apply Hcl.
  - unfold send_step in Hs. destruct sendErr; [done|].
    destruct c; try done; try (by simplify_eq); [open_step; done|..].
    all: open_step; apply heap_put_sess; [done|].
    all: match goal with E : sessH _ !! _ = _ |- _ =>
           destruct (heap_lookup_sess _ _ _ Hh E) as [Hq Hd] end.
    all: match goal with E : chan_recv _ = _ |- _ => apply chan_recv_Some in E; rewrite E in Hq end.
    all: split; [simpl in *; lia|done].
  - unfold beat_step in Hs. destruct running; [|done].
    destruct c; try done; try (by simplify_eq); try (by case_match; simplify_eq).
    + repeat case_match; by simplify_eq.
    + open_step. by eapply heap_enqueue.
Qed.

(** ** Reachability *)

Definition heap_inv (w : world) : Prop :=
  heap_ok (st w)
  ∧ ∀ i pc q, threads w !! i = Some (TConn pc) → conn_failing pc = Some q →
      is_closed (st w) q = true.

Lemma is_closed_keeps st1 t st2 t' q :
  thread_abs st1 t st2 t' → is_closed st1 q = true → is_closed st2 q = true.
Proof.
  unfold is_closed. intros Habs. destruct (sessH st1 !! q) as [x|] eqn:Hx; [|done].
  destruct (thread_abs_keeps _ _ _ _ _ _ Habs Hx) as (y & -> & _ & _ & Hd & _). done.
Qed.

Lemma heap_inv_step w l w' : heap_inv w → exec w l = Some w' → heap_inv w'.
Proof.
  intros [Hh Hcl] Hl. destruct l as [i c|i e|r|]; cbn [exec] in Hl.
  - apply bind_Some in Hl as (t & Hi & ([[st' t'] new] & Hs & [= <-])%bind_Some).
    destruct (thread_step_abs _ _ _ _ _ _ _ Hs) as [Habs _]. split; simpl.
    + eapply heap_thread_step; [done..|]. intros pc q ->. by eapply Hcl.
    + intros j pc q Hj Hq.
      destruct (conn_origin _ _ _ _ _ _ _ _ _ _ Hs Hi Hj) as [[_ Hj']|(_ & pc0 & _ & Hc)];
        [eapply is_closed_keeps; [done|by eapply Hcl]|by eapply conn_step_closes].
  - apply bind_Some in Hl as (t & Hi & (t' & Hc & [= <-])%bind_Some).
    destruct t as [r0 [] out0 pc0| | | |]; simplify_eq/=. split; [done|].
    intros j pc q [(<- & ? & _)|[_ Hj]]%insert_lookup_cases; [done|by eapply Hcl].
  - simplify_eq. split; [done|]. intros j pc q [Hj|[_ ?]]%lookup_snoc_cases; [by eapply Hcl|done].
  - simplify_eq. split; [done|]. intros j pc q [Hj|[_ ?]]%lookup_snoc_cases; [by eapply Hcl|].
    by simplify_eq.
Qed.

Lemma heap_inv_rtc w w' : heap_inv w → rtc step w w' → heap_inv w'.
Proof. induction 2 as [|w w1 w2 [l Hl] _ IH]; eauto using heap_inv_step. Qed.

(** ** The theorems *)

(** C17. A browser is only ever routed to a live tunnel: whatever sessions connected,
    were replaced or ended, every entry of the table of sessions is a session for exactly
    that host whose [Connect] has not returned; in particular a session that was replaced
    never takes the entry of its successor away, and an ended one leaves no entry. *)
Theorem sessions_live cfg s ls w h p :
  New cfg = Ok s → run (init_world s) ls = Some w →
  sessions (srv (st w)) !! h = Some p →
  (∃ i pc, threads w !! i = Some (TConn pc) ∧ conn_owns pc = Some p)
  ∧ ∃ x, sessH (st w) !! p = Some x ∧ publicHost x = h.
Proof.
  intros Hnew Hrun Hp.
  destruct (New_valid _ _ Hnew) as [_ (_ & _ & _ & _ & _ & _ & _ & Hsess & _)].
  pose proof (routes_init s Hsess) as Hr. apply run_rtc in Hrun as Hrtc.
  assert (live_table (init_world s)) as Hlive.
  { intros h' p'. simpl. by rewrite Hsess. }
  split; [|by apply (routes_table _ (routes_rtc _ _ Hr Hrtc))].
  destruct (live_rtc _ _ Hr Hlive Hrtc h p Hp) as (i & t & Hi & Ho).
  destruct t; try done. by exists i, pc.
Qed.

End sessions.

Section witnesses.
Import Scenario.

Example sessions_live_witness :
  ∃ i pc, threads (after connect) !! i = Some (TConn pc) ∧ conn_owns pc = Some 0.
Proof.
  refine (proj1 (sessions_live config server connect (after connect) "demo.example.com" 0 _ _ _));
    [exact server_new|vm_compute; reflexivity..].
Defined.

End witnesses.
