(* ===== verification/Stalls.v ===== *)
(** * server: goroutines that never finish.

    Two places of the edge wait on channels that nobody is left to serve.  Both are
    stated for the detailed steps: a schedule reaches the state, and every further
    step of every goroutine keeps it. *)

From S2P Require Import Prelude GoStrings Hostnames Proto Headers Channels ResponseState Server.
From S2P Require Import Steps Abstract Invariants Origins Routing Scenario.

Section stalls.
Context `{UnicodeData}.

(** ** A receive loop waiting for a handler that has gone *)

(** The [Connect] of thread [i] is delivering a chunk to the full queue of a response
    state that no handler holds and that is in no session's map. *)
Record wedged (i p snd q : nat) (chunk : string) (w : world) : Prop := {
  wedged_conn : threads w !! i = Some (TConn (CDeliver p snd (DBody q chunk)));
  wedged_rs : ∃ r, rsH (st w) !! q = Some r ∧ done r = false
    ∧ responseBodyQueueDepth ≤ length (body r);
  wedged_holds : ∀ j t, threads w !! j = Some t → holds_rs t ≠ Some q;
  wedged_delivers : ∀ j t, threads w !! j = Some t → j ≠ i → delivers t ≠ Some q;
  wedged_reg : ∀ p, ¬ registered (st w) p q }.

(** The loop itself cannot move: neither arm of its select is ready. *)
Lemma wedged_blocked i p snd q chunk w c :
  wedged i p snd q chunk w → exec w (LStep i c) = None.
Proof.
  intros [Hi (r & Hr & Hd & Hb) _ _ _]. simpl. rewrite Hi. simpl.
  destruct c; simpl; try done; rewrite Hr; simpl; [|by rewrite Hd].
  unfold push_body. by rewrite (proj2 (chan_send_None _ _ _) Hb).
Qed.

Lemma conn_touches_wedged st pc q :
  conn_touches st pc q → delivers (TConn pc) = Some q ∨ ∃ p, registered st p q.
Proof. destruct pc; simpl; try done; eauto. case_match; naive_solver. Qed.

Lemma wedged_step i p snd q chunk w w' :
  wedged i p snd q chunk w → step w w' → wedged i p snd q chunk w'.
Proof.
  intros Hw [l Hl]. pose proof Hw as [Hi (r & Hr & Hd & Hb) Hh Hdel Hreg].
  pose proof (lookup_lt_Some _ _ _ Hi) as Hilen.
  destruct l as [j c|j e|req|]; cbn [exec] in Hl.
  - destruct (decide (j = i)) as [->|Hne].
    { pose proof (wedged_blocked i p snd q chunk w c Hw) as Hb'. cbn [exec] in Hb'. congruence. }
    apply bind_Some in Hl as (t & Hj & ([[st' t'] new] & Hstep & [= <-])%bind_Some).
    destruct (thread_step_abs _ _ _ _ _ _ _ Hstep) as [Habs Hnew].
    destruct (thread_abs_untouched _ _ _ _ q Habs) as (Hrs & Hht & Hdt & Hrt); eauto.
    { by eapply lookup_lt_Some. }
    { intros pc -> [Hq|[p' Hq]]%conn_touches_wedged;
        [exact (Hdel _ _ Hj Hne Hq)|exact (Hreg p' Hq)]. }
    assert (∀ k u, (<[j:=t']> (threads w) ++ new) !! k = Some u →
      holds_rs u ≠ Some q ∧ (k ≠ i → delivers u ≠ Some q)) as Hall.
    { intros k u [Hk|Hk]%lookup_app_idle; [| |done].
      - apply insert_lookup_cases in Hk as [(<- & <- & _)|[_ Hk]]; eauto.
      - destruct Hk as [_ Hk _ Hkd _]. unfold holds_rs. by rewrite Hk, Hkd. }
    constructor; simpl.
    + apply lookup_app_l_Some. by rewrite list_lookup_insert_ne.
    + rewrite Hrs. eauto.
    + intros k u Hk. by apply (Hall k u).
    + intros k u Hk. by apply (Hall k u).
    + intros p' Hp'. by eapply Hreg, Hrt.
  - apply bind_Some in Hl as (t & Hj & (t' & Hc & [= <-])%bind_Some).
    destruct t; simplify_eq/=. destruct ctx; simplify_eq.
    assert (j ≠ i) by congruence.
    constructor; simpl; eauto; [by rewrite list_lookup_insert_ne|..];
      intros k u [(<- & <- & _)|[_ Hk]]%insert_lookup_cases; eauto. exact (Hh j _ Hj).
  - simplify_eq. constructor; simpl; eauto; [by apply lookup_app_l_Some|..];
      intros k u [?|[_ <-]]%lookup_snoc_cases; eauto; done.
  - simplify_eq. constructor; simpl; eauto; [by apply lookup_app_l_Some|..];
      intros k u [?|[_ <-]]%lookup_snoc_cases; eauto; done.
Qed.

Lemma wedged_forever i p snd q chunk w w' :
  wedged i p snd q chunk w → rtc step w w' → wedged i p snd q chunk w'.
Proof. induction 2; eauto using wedged_step. Qed.

(** ** A handler waiting for a session that has ended *)

(** The handler of thread [i] waits for a response; its session has been shut down for
    good, nobody receives for that session any more, and nobody else can reach the
    response state. *)
Record orphaned (i : nat) (k : reqctx) (w : world) : Prop := {
  orphaned_waits : ∃ r out, threads w !! i = Some (THttp r None out (PWait k));
  orphaned_rs : ∃ r, rsH (st w) !! k_rs k = Some r ∧ done r = false ∧ start r = [] ∧ err r = [];
  orphaned_sess : ∃ s, sessH (st w) !! k_sess k = Some s ∧ sess_once s = OnceDone;
  orphaned_holds : ∀ j t, threads w !! j = Some t → j ≠ i → holds_rs t ≠ Some (k_rs k);
  orphaned_delivers : ∀ j t, threads w !! j = Some t → delivers t ≠ Some (k_rs k);
  orphaned_reg : ∀ p, registered (st w) p (k_rs k) → p = k_sess k;
  orphaned_conn : ∀ j pc, threads w !! j = Some (TConn pc) →
    conn_receives pc ≠ Some (k_sess k) ∧ conn_failing pc ≠ Some (k_sess k) }.

(** No arm of its select is ready. *)
Lemma orphaned_blocked i k w c : orphaned i k w → exec w (LStep i c) = None.
Proof.
  intros [(r & out & Hi) (rs & Hr & Hd & Hst & He) _ _ _ _ _].
  cbn [exec]. rewrite Hi. simpl. rewrite Hr. simpl.
  destruct c; simpl; try done; [by rewrite Hst|by rewrite He|by rewrite Hd].
Qed.

Lemma conn_touches_orphaned i k w j pc :
  orphaned i k w → threads w !! j = Some (TConn pc) → ¬ conn_touches (st w) pc (k_rs k).
Proof.
  intros Ho Hj Ht. destruct (orphaned_conn _ _ _ Ho _ _ Hj) as [Hrecv Hfail].
  pose proof (orphaned_delivers _ _ _ Ho _ _ Hj) as Hdel.
  destruct pc; simpl in *; try done.
  - apply Hfail. f_equal. by apply (orphaned_reg _ _ _ Ho).
  - apply Hrecv. f_equal. by apply (orphaned_reg _ _ _ Ho).
  - case_match; naive_solver.
  - apply Hfail. f_equal. by apply (orphaned_reg _ _ _ Ho).
Qed.

(** A [Connect] that does not serve the ended session never starts to. *)
Lemma orphaned_conn_step i k w j pc self res c st' pc' new :
  orphaned i k w → threads w !! j = Some (TConn pc) →
  conn_step (st w) self res pc c = Some (st', pc', new) →
  conn_receives pc' ≠ Some (k_sess k) ∧ conn_failing pc' ≠ Some (k_sess k).
Proof.
  intros Ho Hj Hs. destruct (orphaned_sess _ _ _ Ho) as (s & Hsess & Honce).
  destruct (orphaned_conn _ _ _ Ho _ _ Hj) as [Hrecv Hfail]. split; intros Hc.
  - destruct (conn_step_receives _ _ _ _ _ _ _ _ _ Hs Hc) as [?|Heq]; [done|].
    rewrite Heq in Hsess. by apply lookup_lt_Some, Nat.lt_irrefl in Hsess.
  - destruct (conn_step_failing _ _ _ _ _ _ _ _ _ Hs Hc) as (x & Hx & Hnew). simplify_eq.
    congruence.
Qed.

Lemma orphaned_thread_step i k w j c t st' t' new :
  orphaned i k w → threads w !! j = Some t → j ≠ i →
  thread_step (st w) (threads w) t c = Some (st', t', new) →
  orphaned i k (mkWorld st' (<[j := t']> (threads w) ++ new)).
Proof.
  intros Ho Hj Hne Hstep.
  destruct (thread_step_abs _ _ _ _ _ _ _ Hstep) as [Habs Hnew].
  pose proof Ho as [(r & out & Hi) (rs & Hr & Hrs) (s & Hs & Honce) Hh Hd Hreg Hc].
  destruct (thread_abs_untouched _ _ _ _ (k_rs k) Habs) as (Hkeep & Hht & Hdt & Hrt); eauto.
  { by eapply lookup_lt_Some. }
  { intros pc ->. by eapply conn_touches_orphaned. }
  { intros pc p -> Hrecv ->%Hreg. by destruct (Hc _ _ Hj). }
  assert (∀ m u, (<[j:=t']> (threads w) ++ new) !! m = Some u →
    (m ≠ i → holds_rs u ≠ Some (k_rs k)) ∧ delivers u ≠ Some (k_rs k)) as Hall.
  { intros m u [Hm|Hm]%lookup_app_idle; [| |done].
    - apply insert_lookup_cases in Hm as [(<- & <- & _)|[_ Hm]]; eauto.
    - destruct Hm as [_ Hm _ Hmd _]. unfold holds_rs. by rewrite Hm, Hmd. }
  constructor; simpl.
  - exists r, out. apply lookup_app_l_Some. by rewrite list_lookup_insert_ne.
  - rewrite Hkeep. eauto.
  - destruct (thread_abs_keeps _ _ _ _ _ _ Habs Hs) as (s' & Hs' & _ & _ & _ & Honce').
    eauto.
  - intros m u Hm. by apply (Hall m u).
  - intros m u Hm. by apply (Hall m u).
  - intros p Hp. by apply Hreg, Hrt.
  - intros m pc Hm. destruct (conn_origin _ _ _ _ _ _ _ _ _ _ Hstep Hj Hm)
      as [[_ Hm']|(_ & pc0 & -> & Hcs)]; [by eapply Hc|]. by eapply orphaned_conn_step.
Qed.

Lemma orphaned_exec i k w l w' :
  orphaned i k w → (∀ e, l ≠ LCancel i e) → exec w l = Some w' → orphaned i k w'.
Proof.
  intros Ho Hnc Hl. destruct l as [j c|j e|req|]; cbn [exec] in Hl.
  - destruct (decide (j = i)) as [->|Hne].
    { pose proof (orphaned_blocked i k w c Ho) as Hb. cbn [exec] in Hb. congruence. }
    apply bind_Some in Hl as (t & Hj & ([[st' t'] new] & Hstep & [= <-])%bind_Some).
    by eapply orphaned_thread_step.
  - assert (j ≠ i) by (intros ->; by apply (Hnc e)).
    apply bind_Some in Hl as (t & Hj & (t' & Hc & [= <-])%bind_Some).
    destruct t; simplify_eq/=. destruct ctx; simplify_eq.
    destruct Ho as [Hi Hr Hs Hh Hd Hreg Hconn].
    constructor; simpl; eauto; [by rewrite list_lookup_insert_ne|..];
      intros m u [(<- & Heq & _)|[_ Hm]]%insert_lookup_cases; eauto; simplify_eq; eauto.
    exact (Hh j _ Hj).
  - simplify_eq. destruct Ho as [(r & out & Hi) Hr Hs Hh Hd Hreg Hconn].
    constructor; simpl; eauto; [by do 2 eexists; apply lookup_app_l_Some|..];
      intros m u [?|[_ Heq]]%lookup_snoc_cases; eauto; by simplify_eq/=.
  - simplify_eq. destruct Ho as [(r & out & Hi) Hr Hs Hh Hd Hreg Hconn].
    constructor; simpl; eauto; [by do 2 eexists; apply lookup_app_l_Some|..];
      intros m u [?|[_ Heq]]%lookup_snoc_cases; eauto; by simplify_eq/=.
Qed.

Lemma orphaned_run i k w ls w' :
  orphaned i k w → Forall (λ l, ∀ e, l ≠ LCancel i e) ls → run w ls = Some w' →
  orphaned i k w'.
Proof.
  intros Ho Hls. revert w Ho. induction Hls as [|l ls Hl _ IH]; intros w Ho; simpl.
  { by intros [= <-]. }
  intros (w1 & Hw1 & Hr)%bind_Some. eauto using orphaned_exec.
Qed.
End stalls.

(** ** Both stalls are reachable *)

Import Scenario.

(** The registered pairs of a state, to decide the conditions on a concrete one. *)
Lemma registered_in st p q :
  registered st p q →
  (p, q) ∈ mjoin (imap (λ i s, (i,.) <$> (map_to_list (inflight s)).*2) (sessH st)).
Proof.
  intros (s & id & Hs & Hi). apply list_elem_of_join.
  exists ((p,.) <$> (map_to_list (inflight s)).*2). split.
  - apply list_elem_of_fmap. exists q. split; [done|].
    apply list_elem_of_fmap. exists (id, q). by rewrite elem_of_map_to_list.
  - apply list_elem_of_lookup. exists p. by rewrite list_lookup_imap, Hs.
Qed.

Lemma all_threads (P : thread → Prop) `{∀ t, Decision (P t)} w :
  bool_decide (Forall P (threads w)) = true → ∀ j t, threads w !! j = Some t → P t.
Proof. rewrite bool_decide_eq_true. intros Hall j t Hj. by eapply Forall_lookup_1. Qed.

Lemma other_threads (P : thread → Prop) `{∀ t, Decision (P t)} w i :
  bool_decide (Forall P (delete i (threads w))) = true →
  ∀ j t, threads w !! j = Some t → j ≠ i → P t.
Proof.
  rewrite bool_decide_eq_true, Forall_lookup. intros Hall j t Hj Hne.
  destruct (decide (j < i)).
  - apply (Hall j). by rewrite list_lookup_delete_lt.
  - apply (Hall (j - 1)). rewrite list_lookup_delete_ge by lia. rewrite <-Hj. f_equal. lia.
Qed.

Definition wedged_world : world := after (connect ++ arrive ++ forward ++ respond ++ overrun ++ leave).
Definition orphan_ctx : reqctx := mkK 0 "1" 0 None.
Definition orphaned_world : world := after (connect ++ arrive ++ hang_up ++ forward).

Lemma wedged_reached : wedged 0 0 1 0 "x" wedged_world.
Proof.
  constructor.
  - vm_compute. reflexivity.
  - eexists. split; [vm_compute; reflexivity|]. split; [done|]. unfold responseBodyQueueDepth. simpl. lia.
  - apply (all_threads (λ t, holds_rs t ≠ Some 0)). vm_compute. reflexivity.
  - apply (other_threads (λ t, delivers t ≠ Some 0)). vm_compute. reflexivity.
  - intros p Hp%registered_in. vm_compute in Hp. by apply not_elem_of_nil in Hp.
Qed.

Lemma orphaned_reached : orphaned 3 orphan_ctx orphaned_world.
Proof.
  constructor.
  - do 2 eexists. vm_compute. reflexivity.
  - eexists. split; [vm_compute; reflexivity|done].
  - eexists. split; vm_compute; reflexivity.
  - apply (other_threads (λ t, holds_rs t ≠ Some 0)). vm_compute. reflexivity.
  - apply (all_threads (λ t, delivers t ≠ Some 0)). vm_compute. reflexivity.
  - intros p Hp%registered_in. vm_compute in Hp. set_solver.
  - intros j pc Hj.
    pose (P t := match t with
                 | TConn pc => conn_receives pc ≠ Some 0 ∧ conn_failing pc ≠ Some 0
                 | _ => True
                 end).
    assert (∀ t, Decision (P t)) as Hdec by (intros []; simpl; apply _).
    apply (all_threads P orphaned_world) with (t := TConn pc) in Hj; [done|].
    apply bool_decide_eq_true. change (threads orphaned_world) with
      [TConn (CReturn None); TSend 0 [] (Some None); TBeat 0 true;
       THttp request None [] (PWait orphan_ctx)].
    repeat constructor; done.
Qed.

(** C35. A browser that leaves can wedge its client's whole session.  There is a schedule
    with one client and one request, in which the browser disconnects while the receive
    loop of [Connect] waits for room in the request's body queue: the handler returns
    without closing the response state, and from then on, whatever happens, the receive
    loop never takes another step, so no later frame of that client is ever handled. *)
Theorem receive_loop_wedged :
  run start_world (connect ++ arrive ++ forward ++ respond ++ overrun ++ leave)
    = Some wedged_world
  ∧ ∀ w c, rtc step wedged_world w →
      threads w !! 0 = Some (TConn (CDeliver 0 1 (DBody 0 "x"))) ∧ exec w (LStep 0 c) = None.
Proof.
  split; [vm_compute; reflexivity|]. intros w c Hw.
  pose proof (wedged_forever _ _ _ _ _ _ _ wedged_reached Hw) as Hwedged.
  split; [apply Hwedged|by eapply wedged_blocked].
Qed.

(** C37. A handler can be left waiting for a session that is gone.  There is a schedule
    with one client and one request, in which the stream ends between the handler's
    look-up of the session and its registration: [Connect] has returned and the session
    has left the table, the handler holds a slot of the total limit, and as long as the
    browser does not give up it never takes another step. *)
Theorem handler_orphaned :
  run start_world (connect ++ arrive ++ hang_up ++ forward) = Some orphaned_world
  ∧ threads orphaned_world !! 0 = Some (TConn (CReturn None))
  ∧ sessions (srv (st orphaned_world)) = ∅
  ∧ totalInflight (srv (st orphaned_world)) = 1%Z
  ∧ ∀ ls w c, Forall (λ l, ∀ e, l ≠ LCancel 3 e) ls → run orphaned_world ls = Some w →
      (∃ r out, threads w !! 3 = Some (THttp r None out (PWait orphan_ctx)))
      ∧ exec w (LStep 3 c) = None.
Proof.
  split_and!; [vm_compute; reflexivity..|]. intros ls w c Hls Hrun.
  pose proof (orphaned_run _ _ _ _ _ orphaned_reached Hls Hrun) as Ho.
  split; [apply Ho|by eapply orphaned_blocked].
Qed.
