(* ===== verification/Pipeline.v ===== *)
(** * server: a browser's response is what its client sent.

    What the receive loops of [Connect] put into the channels of a response state is
    recorded along a run; the handler's output is compared with that record.  The
    theorem is an invariant of every interleaving: nothing is lost, reordered, repeated
    or taken from another request. *)

From S2P Require Import Prelude GoStrings Hostnames Proto Headers Channels ResponseState Server.
From S2P Require Import Steps Scenario Abstract Invariants Origins.

(** ** References to response states *)

Section pipeline.
Context `{UnicodeData}.

(** Every reference is allocated, and no two handlers hold the same one. *)
Record refs_ok (w : world) : Prop := {
  refs_reg : ∀ p q, registered (st w) p q → q < length (rsH (st w));
  refs_holds : ∀ i t q, threads w !! i = Some t → holds_rs t = Some q → q < length (rsH (st w));
  refs_delivers : ∀ i t q, threads w !! i = Some t → delivers t = Some q →
    q < length (rsH (st w));
  refs_unique : ∀ i j t u q, threads w !! i = Some t → threads w !! j = Some u →
    holds_rs t = Some q → holds_rs u = Some q → i = j }.

Lemma thread_abs_refs st1 t st2 t' q :
  thread_abs st1 t st2 t' →
  (holds_rs t' = Some q → holds_rs t = Some q ∨ (q = length (rsH st1) ∧ q < length (rsH st2)))
  ∧ (delivers t' = Some q → delivers t = Some q ∨ ∃ p, registered st1 p q)
  ∧ (∀ p, registered st2 p q → holds_rs t' = Some q ∨ registered st1 p q).
Proof.
  intros Habs. split; [|split].
  - destruct Habs as [??????? ? Ha| ??? ? Ha | ???? Hq ? Hh]; unfold holds_rs; simpl; try done.
    + destruct Ha as [???? ? ? Hh| | | | |? ? ? ? ? ? ? ? ? Hh| | |]; simpl; try done.
      * rewrite Hh. by left.
      * rewrite Hh. intros [= <-]. right. rewrite length_app. simpl. lia.
    + rewrite Hh. by left.
  - destruct Habs as [??????? ? Ha| ??? ? Ha | ???? Hq ? Hh ? Hd]; try done.
    + destruct Ha as [???? ? ? Hd| | | |]; try (intros; congruence); try done.
      intros [?|(p & _ & ?)]%Hd; eauto.
    + rewrite Hd. by left.
  - intros p (s & id & Hs & Hi).
    destruct (thread_abs_owner _ _ _ _ _ _ _ _ Habs Hs Hi) as [Ht|(s0 & ? & ? & _)].
    + left. unfold holds_rs. by rewrite Ht.
    + right. by exists s0, id.
Qed.

Lemma refs_ok_step w l w' : refs_ok w → exec w l = Some w' → refs_ok w'.
Proof.
  intros Hr Hs. destruct w' as [st' ts'].
  destruct (exec_abs _ _ _ Hs) as [(i & t & t' & new & Hi & Habs & Hts & Hnew)|[Hst (new & Hts & Hnew)]];
    simpl in *; subst.
  - pose proof (thread_abs_length _ _ _ _ Habs) as Hlen.
    assert (∀ q, holds_rs t' = Some q → q < length (rsH st')) as Ht'.
    { intros q Hq. destruct (thread_abs_refs _ _ _ _ q Habs) as [[Ht|[_ ?]] _]; [done| |done].
      pose proof (refs_holds _ Hr _ _ _ Hi Ht). lia. }
    assert (∀ k u, (<[i:=t']> (threads w) ++ new) !! k = Some u →
      (k = i ∧ u = t') ∨ (k ≠ i ∧ threads w !! k = Some u)
      ∨ (holds_rs u = None ∧ delivers u = None)) as Hall.
    { intros k u [Hk|Hk]%lookup_app_idle; [| |done].
      - apply insert_lookup_cases in Hk as [(<- & <- & _)|[? Hk]]; auto.
      - destruct Hk as [_ Hk _ Hkd _]. unfold holds_rs. rewrite Hk. auto. }
    constructor; simpl.
    + intros p q Hp. destruct (thread_abs_refs _ _ _ _ q Habs) as (_ & _ & Hreg).
      destruct (Hreg p Hp) as [?|?]; [by apply Ht'|]. pose proof (refs_reg _ Hr p q). naive_solver lia.
    + intros k u q [[-> ->]|[[_ Hk]|[Hk _]]]%Hall Hq; [by apply Ht'| |congruence].
      pose proof (refs_holds _ Hr _ _ _ Hk Hq). lia.
    + intros k u q [[-> ->]|[[_ Hk]|[_ Hk]]]%Hall Hq; [|pose proof (refs_delivers _ Hr _ _ _ Hk Hq); lia|congruence].
      destruct (thread_abs_refs _ _ _ _ q Habs) as (_ & Hd & _).
      destruct (Hd Hq) as [?|[p ?]]; [pose proof (refs_delivers _ Hr _ _ _ Hi H0)|pose proof (refs_reg _ Hr _ _ H0)]; lia.
    + assert (∀ j u q, j ≠ i → threads w !! j = Some u → holds_rs u = Some q → holds_rs t' ≠ Some q) as Hne.
      { intros j u q Hj Hu Hq Hq'. destruct (thread_abs_refs _ _ _ _ q Habs) as [[Ht|[-> _]] _]; [done|..].
        - apply Hj. by eapply refs_unique.
        - pose proof (refs_holds _ Hr _ _ _ Hu Hq). lia. }
      intros j k u v q Hj%Hall Hk%Hall Hu Hv.
      destruct Hj as [[-> ->]|[[? Hj]|[? _]]], Hk as [[-> ->]|[[? Hk]|[? _]]]; try congruence;
        [exfalso; by eapply Hne..|by eapply refs_unique].
  - assert (∀ k u, (threads w ++ new) !! k = Some u →
      threads w !! k = Some u ∨ (holds_rs u = None ∧ delivers u = None)) as Hall.
    { intros k u [Hk|Hk]%lookup_app_idle; [by left| |done]. right.
      destruct Hk as [_ Hk _ Hkd _]. unfold holds_rs. by rewrite Hk. }
    destruct Hr. constructor; simpl; rewrite ?Hst; try done.
    + intros k u q [Hk|[? _]]%Hall; [by eauto|congruence].
    + intros k u q [Hk|[_ ?]]%Hall; [by eauto|congruence].
    + intros j k u v q [Hj|[? _]]%Hall [Hk|[? _]]%Hall; try congruence. by eauto.
Qed.

Lemma refs_ok_init s : refs_ok (init_world s).
Proof. constructor; simpl; try done. by intros p q (x & id & Hx & _). Qed.

(** ** The record of a run *)

(** What a step puts into the channels of response state [q]. *)
Definition conn_accept (pc : conn_pc) (c : choice) (q : nat) : list (ResponseStart + string) :=
  match pc, c with
  | CDeliver _ _ (DStart r m), OnSend => if decide (r = q) then [inl m] else []
  | CDeliver _ _ (DBody r x), OnSend => if decide (r = q) then [inr x] else []
  | _, _ => []
  end.

Definition accept (w : world) (l : label) (q : nat) : list (ResponseStart + string) :=
  match l with
  | LStep i c => match threads w !! i with Some (TConn pc) => conn_accept pc c q | _ => [] end
  | _ => []
  end.

(** What a whole run put there. *)
Fixpoint accepted (w : world) (ls : list label) (q : nat) : list (ResponseStart + string) :=
  match ls with
  | [] => []
  | l :: ls =>
    accept w l q ++ match exec w l with Some w' => accepted w' ls q | None => [] end
  end.

Definition starts (h : list (ResponseStart + string)) : list ResponseStart :=
  omap (λ x, match x with inl m => Some m | inr _ => None end) h.
Definition chunks (h : list (ResponseStart + string)) : list string :=
  omap (λ x, match x with inl _ => None | inr c => Some c end) h.

Lemma starts_app h h' : starts (h ++ h') = starts h ++ starts h'.
Proof. apply omap_app. Qed.
Lemma chunks_app h h' : chunks (h ++ h') = chunks h ++ chunks h'.
Proof. apply omap_app. Qed.

(** ** How far a response has come *)

Definition header_of (m : ResponseStart) : wevent :=
  WHeader (StatusCode m) (Copy ∅ (FromProto (Headers m))).

(** Nothing of a response has been written. *)
Definition unanswered (out : list wevent) : Prop :=
  Forall (λ e, match e with WHeader _ _ | WBody _ => False | _ => True end) out.

(** The header of the first accepted start, then [x], the accepted bytes up to [rest]. *)
Definition written (out : list wevent) (mid rest : string) (h : list (ResponseStart + string))
    : Prop :=
  ∃ m ms cs, starts h = m :: ms ∧ out = header_of m :: (WBody <$> cs)
    ∧ cat cs +:+ mid +:+ rest = cat (chunks h).

Definition settled (out : list wevent) (h : list (ResponseStart + string)) : Prop :=
  unanswered out ∨ ∃ rest, written out "" rest h.

Definition progress (pc : http_pc) (out : list wevent) (r : responseState)
    (h : list (ResponseStart + string)) : Prop :=
  match pc with
  | PPutWS _ _ _ | PForward _ _ | PWait _ | PWsWait _ =>
    out = [] ∧ start r = starts h ∧ body r = chunks h
  | PBody _ | PDrain _ => written out "" (cat (body r)) h
  | PWrite _ c _ => written out c (cat (body r)) h
  | PHijack _ _ | PHandshake _ _ | PWsLoop _ _ | PWsWrite _ _ _ => unanswered out
  | _ => settled out h
  end.

(** Before the request is registered nothing at all is written. *)
Definition entering (pc : http_pc) : bool :=
  match pc with
  | PStart | PNextID _ | PReserve _ _ _ | PCas _ _ _ _ | PTryStart _ _ _ | PUndo => true
  | _ => false
  end.

Lemma written_push out mid rest h h' :
  written out mid rest h → written out mid (rest +:+ cat (chunks h')) (h ++ h').
Proof.
  intros (m & ms & cs & Hs & Ho & Hc). exists m, (ms ++ starts h'), cs.
  rewrite starts_app, Hs, chunks_app, cat_app, <-Hc. split_and!; [done..|].
  by rewrite !app_assoc_str.
Qed.

Lemma settled_push out h h' : settled out h → settled out (h ++ h').
Proof.
  intros [?|[rest Hw]]; [by left|right]. eexists. by apply written_push.
Qed.

Lemma progress_push pc out r r' h h' :
  start r' = start r ++ starts h' → body r' = body r ++ chunks h' →
  progress pc out r h → progress pc out r' (h ++ h').
Proof.
  intros Hs Hb.
  assert (∀ mid, written out mid (cat (body r)) h → written out mid (cat (body r')) (h ++ h'))
    as Hw by (intros mid Hw; rewrite Hb, cat_app; by apply written_push).
  destruct pc; simpl; auto using settled_push;
    rewrite ?starts_app, ?chunks_app; naive_solver congruence.
Qed.

(** *** Steps of the handler *)

Lemma written_settled out mid rest h : written out mid rest h → settled out h.
Proof.
  intros (m & ms & cs & Hs & Ho & Hc). right. exists (mid +:+ rest). by exists m, ms, cs.
Qed.

Lemma written_chunk out mid rest h : written out mid rest h → written (out ++ [WBody mid]) "" rest h.
Proof.
  intros (m & ms & cs & Hs & -> & Hc). exists m, ms, (cs ++ [mid]).
  split_and!; [done|by rewrite fmap_app|].
  rewrite cat_app. cbn [cat foldr]. by rewrite app_nil_r_str, app_assoc_str.
Qed.

Lemma written_next out c q h :
  written out "" (cat (c :: q)) h → written out c (cat q) h.
Proof. done. Qed.

Lemma progress_exit k out r h : settled out h → progress (exit k) out r h.
Proof. unfold exit. by destruct (k_ws k). Qed.

Lemma progress_write_chunk k c d out r q h :
  body r = q → written out "" (cat (c :: q)) h → progress (write_chunk k c d) out r h.
Proof.
  intros <- Hw. unfold write_chunk. case_bool_decide as Hc; [|done].
  subst c. by destruct d.
Qed.

Lemma progress_write_header k m out' pc r q h :
  write_header k m = (out', pc) → starts h = m :: q → body r = chunks h →
  progress pc out' r h.
Proof.
  unfold write_header. intros Hw Hs Hb. case_match; simplify_eq.
  - apply progress_exit. left. by repeat constructor.
  - exists m, q, []. split_and!; [done..|]. cbn [cat foldr]. by rewrite Hb.
Qed.

Lemma unanswered_app out ev : unanswered out → unanswered ev → unanswered (out ++ ev).
Proof. intros ??. by apply Forall_app. Qed.

(** The response state [q] of [st'] continues as [P] says. *)
Definition goes (st' : state) (q : nat) (P : responseState → Prop) : Prop :=
  ∃ r', rsH st' !! q = Some r' ∧ P r'.

Lemma goes_same T st st' q r (P : responseState → Prop) :
  quiet T st st' → ¬ T q → rsH st !! q = Some r → P r → goes st' q P.
Proof. intros Hq HT Hr HP. exists r. by rewrite (quiet_rs _ _ _ Hq q HT). Qed.

Lemma goes_put st q r r' (P : responseState → Prop) :
  rsH st !! q = Some r → P r' → goes (put_rs st q r') q P.
Proof.
  intros Hr HP. exists r'. split; [|done]. simpl.
  apply list_lookup_insert_eq. by eapply lookup_lt_Some.
Qed.

Lemma goes_here st q r (P : responseState → Prop) : rsH st !! q = Some r → P r → goes st q P.
Proof. by exists r. Qed.

Lemma consumeErr_keeps r :
  start (consumeErr r).2 = start r ∧ body (consumeErr r).2 = body r.
Proof. unfold consumeErr. by destruct (chan_recv (err r)) as [[]|]. Qed.

Lemma settled_error e r k h :
  match e with WHeader _ _ | WBody _ => False | _ => True end → progress (exit k) [e] r h.
Proof. intros He. apply progress_exit. left. by constructor. Qed.

Lemma wait_header k st q r m w out pc h :
  rsH st !! q = Some r → starts h = m :: w → body r = chunks h →
  write_header k m = (out, pc) →
  ∀ r', start r' = w → body r' = body r → goes (put_rs st q r') q (λ r, progress pc out r h).
Proof.
  intros Hr Hs Hb Hw r' Hs' Hb'. eapply goes_put; [done|].
  eapply progress_write_header; [done..|]. by rewrite Hb'.
Qed.

Lemma http_wait_progress st ctx k c st' ev pc' new r h :
  http_respond st ctx (PWait k) c = Some (st', ev, pc', new) → rsH st !! k_rs k = Some r →
  start r = starts h → body r = chunks h →
  goes st' (k_rs k) (λ r, progress pc' ev r h).
Proof.
  intros Hs Hr Hst Hb. cbn [http_respond] in Hs. rewrite Hr in Hs. simpl in Hs.
  destruct c; try done.
  - open_step. eapply goes_here; [done|]. left. constructor.
  - destruct (start r) as [|m q] eqn:E; [done|]. simpl in Hs.
    destruct (write_header k m) eqn:Hw. simplify_eq.
    eapply wait_header; [done..| |]; unfold consumeStart; rewrite E; done.
  - destruct (err r) as [|e q] eqn:E; [done|]. simpl in Hs. simplify_eq.
    eapply goes_put; [done|]. by apply settled_error.
  - destruct (done r); [|done]. unfold consumeStart in Hs.
    destruct (start r) as [|m q] eqn:E; simpl in Hs.
    + destruct (consumeErr r) as [[e|] r'] eqn:Ee; simplify_eq.
      * eapply goes_put; [done|]. by apply settled_error.
      * eapply goes_here; [done|]. by apply settled_error.
    + destruct (write_header k m) eqn:Hw. simplify_eq.
      eapply wait_header; done.
Qed.

Lemma http_body_progress st ctx pc c st' ev pc' new p id q out r h :
  http_respond st ctx pc c = Some (st', ev, pc', new) →
  (∀ k, pc ≠ PWait k) → http_holds pc = Some (p, id, q) →
  rsH st !! q = Some r → progress pc out r h →
  goes st' q (λ r, progress pc' (out ++ ev) r h).
Proof.
  intros Hs Hnw Hh Hr Hp. destruct pc; try done; [by edestruct Hnw|..];
    cbn [http_holds] in Hh; simplify_eq; cbn [http_respond] in Hs.
  - rewrite Hr in Hs. simpl in Hs. destruct c; try done.
    + open_step. rewrite app_nil_r. eapply goes_here; [done|]. by eapply written_settled.
    + destruct (done r); [|done]. simplify_eq. rewrite app_nil_r. by eapply goes_here.
    + destruct (body r) as [|x q] eqn:E; [done|]. simpl in Hs. simplify_eq.
      rewrite app_nil_r. eapply goes_put; [done|]. unfold consumeBody. rewrite E.
      eapply progress_write_chunk; [done|]. simpl in Hp. by rewrite E in Hp.
  - destruct c as [| | | | | | | | | | | | | |[]| | | |]; try done; simplify_eq.
    + eapply goes_here; [done|]. destruct draining; by apply written_chunk.
    + rewrite app_nil_r. eapply goes_here; [done|]. by eapply written_settled.
  - rewrite Hr in Hs. simpl in Hs. destruct c; try done. unfold consumeBody in Hs.
    destruct (body r) as [|x q] eqn:E; simpl in Hs; simplify_eq; rewrite app_nil_r.
    + eapply goes_put; [done|]. apply progress_exit. by eapply written_settled.
    + eapply goes_put; [done|]. eapply progress_write_chunk; [done|].
      simpl in Hp. by rewrite E in Hp.
  - apply bind_Some in Hs as (st1 & Hc & Hs). simplify_eq. rewrite app_nil_r.
    eapply (goes_same none); [by eapply cancelRequest_quiet|by intros []|done|].
    by apply progress_exit.
Qed.

Lemma http_websocket_progress st r ctx self rd pc c st' ev pc' new p id q out rs h :
  http_websocket st r ctx self rd pc c = Some (st', ev, pc', new) →
  http_holds pc = Some (p, id, q) → rsH st !! q = Some rs → progress pc out rs h →
  goes st' q (λ r, progress pc' (out ++ ev) r h).
Proof.
  intros Hs Hh Hr Hp. destruct pc; try done; cbn [http_holds] in Hh; simplify_eq;
    cbn [http_websocket] in Hs.
  - destruct Hp as (-> & Hst & Hb). rewrite Hr in Hs. simpl in Hs.
    destruct c; try done.
    + destruct (is_closed _ _); [|done]. simplify_eq. eapply goes_here; [done|]. by apply settled_error.
    + open_step. eapply goes_here; [done|]. left. constructor.
    + destruct (start rs) as [|m q] eqn:E; [done|]. simpl in Hs.
      destruct (negb _); [|destruct (r_Hijacker r)].
      * destruct (write_header k m) as [o pc1] eqn:Hw. simplify_eq. eapply goes_put; [done|].
        apply progress_exit. unfold write_header in Hw. case_match; simplify_eq.
        { left. by repeat constructor. }
        right. exists (cat (chunks h)), m, q, []. by split_and!.
      * simplify_eq. eapply goes_put; [done|]. constructor.
      * simplify_eq. eapply goes_put; [done|]. by apply settled_error.
    + destruct (err rs) as [|e q] eqn:E; [done|]. simpl in Hs. simplify_eq.
      eapply goes_put; [done|]. by apply settled_error.
    + destruct (done rs); [|done]. destruct (consumeErr rs) as [[e|] r'] eqn:Ee; simplify_eq.
      * eapply goes_put; [done|]. by apply settled_error.
      * eapply goes_here; [done|]. by apply settled_error.
  - destruct c as [| | | | | | | | | | | | | |[]| | | |]; try done; simplify_eq; rewrite app_nil_r.
    + by eapply goes_here.
    + eapply goes_here; [done|]. apply progress_exit. by left.
  - destruct c as [| | | | | | | | | | | | | |[]| | | |]; try done; simplify_eq.
    + eapply goes_here; [done|]. apply unanswered_app; [done|by repeat constructor].
    + rewrite app_nil_r. eapply goes_here; [done|]. by left.
  - apply bind_Some in Hs as (w & Hw & (ws & Hws & Hs)%bind_Some).
    assert (unanswered (out ++ [])) as Hun by (by rewrite app_nil_r).
    destruct c; try done; open_step; (eapply goes_here; [done|]); try done; by left.
  - assert (unanswered (out ++ [WConn data])) as Hun
      by (apply unanswered_app; [done|by repeat constructor]).
    destruct c as [| | | | | | | | | | | | | |[]| | | |]; try done; simplify_eq;
      (eapply goes_here; [done|]); try done; left; [done|by rewrite app_nil_r].
Qed.

Lemma http_forward_progress st r ctx self rd k f c st' ev pc' new rs h :
  http_step st r ctx self rd (PForward k f) c = Some (st', ev, pc', new) →
  rsH st !! k_rs k = Some rs → start rs = starts h → body rs = chunks h →
  goes st' (k_rs k) (λ r, progress pc' ev r h).
Proof.
  intros Hs Hr Hst Hb. cbn [http_step] in Hs.
  apply bind_Some in Hs as ([st1 res] & Hf & Hs).
  assert (∀ P : responseState → Prop, P rs → goes st1 (k_rs k) P) as Hgo.
  { intros P HP. eapply (goes_same none); [by eapply forwardRequest_quiet|by intros []|done..]. }
  destruct res as [f'|e]; simplify_eq; [by apply Hgo|].
  unfold forwarded in Hs. destruct e as [e|].
  - destruct (_ || _); simplify_eq; apply Hgo; [apply progress_exit; left; constructor|].
    by apply settled_error.
  - destruct (k_ws k); simplify_eq; by apply Hgo.
Qed.

(** A handler that holds a response state. *)
Lemma http_step_progress st r ctx self rd pc c st' ev pc' new p id q out rs h :
  http_step st r ctx self rd pc c = Some (st', ev, pc', new) →
  http_holds pc = Some (p, id, q) → rsH st !! q = Some rs → progress pc out rs h →
  goes st' q (λ r, http_holds pc' = Some (p, id, q) → progress pc' (out ++ ev) r h).
Proof.
  intros Hs Hh Hr Hp.
  assert (∀ pc2 st2 ev2, goes st2 q (λ r, progress pc2 (out ++ ev2) r h) →
    goes st2 q (λ r, http_holds pc2 = Some (p, id, q) → progress pc2 (out ++ ev2) r h)) as Hgo.
  { intros ??? (r' & ? & ?). by exists r'. }
  destruct pc; try done; cbn [http_holds] in Hh; simplify_eq.
  - cbn [http_step http_enter] in Hs. destruct c; try done.
    apply bind_Some in Hs as (st1 & Hput & Hs). simplify_eq. destruct Hp as (-> & ? & ?).
    apply Hgo. eapply (goes_same none); [by eapply putWS_quiet|by intros []|done|done].
  - destruct Hp as (-> & ? & ?). apply Hgo. by eapply http_forward_progress.
  - destruct Hp as (-> & ? & ?). apply Hgo. by eapply http_wait_progress.
  - apply Hgo. eapply http_body_progress; [exact Hs|done..].
  - apply Hgo. eapply http_body_progress; [exact Hs|done..].
  - apply Hgo. eapply http_body_progress; [exact Hs|done..].
  - apply Hgo. eapply http_body_progress; [exact Hs|done..].
  - apply Hgo. eapply http_websocket_progress; [exact Hs|done..].
  - apply Hgo. eapply http_websocket_progress; [exact Hs|done..].
  - apply Hgo. eapply http_websocket_progress; [exact Hs|done..].
  - apply Hgo. eapply http_websocket_progress; [exact Hs|done..].
  - apply Hgo. eapply http_websocket_progress; [exact Hs|done..].
  - cbn [http_step http_exit] in Hs. destruct c; try done. open_step. rewrite app_nil_r.
    by eapply goes_here.
  - cbn [http_step http_exit] in Hs. destruct c; try done.
    apply bind_Some in Hs as (st1 & Hput & Hs). simplify_eq. rewrite app_nil_r.
    eapply (goes_same none); [by eapply delWS_quiet|by intros []|done|done].
  - cbn [http_step http_exit] in Hs. destruct c; try done.
    apply bind_Some in Hs as ([st1 ok] & Hd & Hs). simplify_eq.
    unfold sess_del in Hd. apply bind_Some in Hd as (s & _ & Hd).
    assert (rsH st' = rsH st) as Heq by (case_match; by simplify_eq).
    exists rs. rewrite Heq. split; [done|]. by destruct ok.
Qed.

(** A handler that does not hold one, and may get one. *)
Lemma http_step_enter st r ctx self rd pc c st' ev pc' new out :
  http_step st r ctx self rd pc c = Some (st', ev, pc', new) →
  http_holds pc = None → (entering pc → out = []) →
  match http_holds pc' with
  | Some (p, id, q) => q = length (rsH st)
      ∧ goes st' q (λ r, progress pc' (out ++ ev) r [])
  | None => entering pc' → out ++ ev = []
  end.
Proof.
  intros Hs Hh Hout. destruct pc; try done; cbn [http_step] in Hs; cbn [http_enter http_exit] in Hs;
    destruct c; try done; try (rewrite (Hout I)); clear Hout.
  - open_step; simpl; try done; by intros [].
  - open_step; simpl; try done; by intros [].
  - destruct (reserve_load (srv st)) as [s [[|]|]]; simplify_eq; simpl; try done; by intros [].
  - open_step; simpl; try done; by intros [].
  - apply bind_Some in Hs as ([st1 res] & Ht & Hs). simplify_eq.
    unfold tryStart in Ht. apply bind_Some in Ht as (s & Hs & Ht). case_match; simplify_eq; [done|].
    assert (∀ pc, (∀ r, start r = [] → body r = [] → progress pc [] r []) →
      goes (mkState (srv st) (<[p:=set_inflight s (<[id:=length (rsH st)]> (inflight s))]> (sessH st))
              (rsH st ++ [newResponseState]) (wsH st)) (length (rsH st))
        (λ r, progress pc [] r [])) as Hgo.
    { intros pc Hpc. exists newResponseState. split; [by apply list_lookup_middle|by apply Hpc]. }
    destruct ws; (split; [done|]); by apply Hgo.
  - open_step; simpl; try done; by intros [].
  - open_step; simpl; try done; by intros [].
Qed.

(** *** Steps of the other goroutines *)

Lemma alter_keeps (f : responseState → responseState) (h : list responseState) x q r :
  (∀ r, start (f r) = start r ∧ body (f r) = body r) → h !! q = Some r →
  ∃ r', alter f x h !! q = Some r' ∧ start r' = start r ∧ body r' = body r.
Proof.
  intros Hf Hr. destruct (decide (x = q)) as [->|Hne].
  - exists (f r). rewrite list_lookup_alter_eq, Hr. split; [done|apply Hf].
  - exists r. by rewrite list_lookup_alter_ne.
Qed.

Lemma finish_keeps r : start (finish r) = start r ∧ body (finish r) = body r.
Proof. unfold finish. by destruct (rs_once r). Qed.
Lemma fail_keeps r e : start (fail r e) = start r ∧ body (fail r e) = body r.
Proof. unfold fail. by destruct (rs_once r). Qed.

Lemma foldl_fail_keeps e l h q r :
  h !! q = Some r →
  ∃ r', foldl (fail_at e) h l !! q = Some r' ∧ start r' = start r ∧ body r' = body r.
Proof.
  revert h r. induction l as [|x l IH]; intros h r Hr; simpl; [eauto|].
  destruct (alter_keeps (λ r, fail r e) h x q r) as (r1 & Hr1 & Hst & Hb);
    [intros; apply fail_keeps|done|].
  destruct (IH _ _ Hr1) as (r2 & ? & ? & ?). exists r2. split_and!; [done|congruence..].
Qed.

Lemma failAll_keeps st p e st' n q r :
  failAll st p e = Some (st', n) → rsH st !! q = Some r →
  ∃ r', rsH st' !! q = Some r' ∧ start r' = start r ∧ body r' = body r.
Proof. intros (s & Hs & [= <- <-])%bind_Some. simpl. apply foldl_fail_keeps. Qed.

Lemma shutdown_fail_keeps st p e st' n q r :
  shutdown_fail st p e = Some (st', n) → rsH st !! q = Some r →
  ∃ r', rsH st' !! q = Some r' ∧ start r' = start r ∧ body r' = body r.
Proof.
  unfold shutdown_fail. intros ([st1 m] & Hf & (s & _ & [= <- <-])%bind_Some)%bind_Some Hr.
  exact (failAll_keeps _ _ _ _ _ _ _ Hf Hr).
Qed.

Lemma handleClientFrame_keeps st p f st' d q r :
  handleClientFrame st p f = (st', d) → rsH st !! q = Some r →
  ∃ r', rsH st' !! q = Some r' ∧ start r' = start r ∧ body r' = body r.
Proof.
  intros Hf Hr. destruct f; simpl in Hf; injection Hf as <- _; eauto;
    case_match; simpl; eauto; apply alter_keeps; try done; intros;
    [apply finish_keeps|apply fail_keeps].
Qed.

Lemma deliver_keeps st p snd d c st' q r :
  deliver st d c = Some st' → rsH st !! q = Some r →
  ∃ r', rsH st' !! q = Some r'
    ∧ start r' = start r ++ starts (conn_accept (CDeliver p snd d) c q)
    ∧ body r' = body r ++ chunks (conn_accept (CDeliver p snd d) c q).
Proof.
  intros Hd Hr. destruct d as [x m|x b|x b], c; try done; cbn [deliver conn_accept] in *;
    try (open_step; exists r; by rewrite !app_nil_r).
  - apply bind_Some in Hd as (r1 & Hr1 & (r2 & Hp & [= <-])%bind_Some).
    apply bind_Some in Hp as (q' & [_ ->]%chan_send_Some & [= <-]). case_decide as Hq.
    + subst x. simplify_eq. eexists. simpl. rewrite list_lookup_insert_eq by (by eapply lookup_lt_Some).
      split_and!; [done..|by rewrite app_nil_r].
    + exists r. simpl. rewrite list_lookup_insert_ne by done. by rewrite !app_nil_r.
  - apply bind_Some in Hd as (r1 & Hr1 & (r2 & Hp & [= <-])%bind_Some).
    apply bind_Some in Hp as (q' & [_ ->]%chan_send_Some & [= <-]). case_decide as Hq.
    + subst x. simplify_eq. eexists. simpl. rewrite list_lookup_insert_eq by (by eapply lookup_lt_Some).
      split_and!; [done|by rewrite app_nil_r|done].
    + exists r. simpl. rewrite list_lookup_insert_ne by done. by rewrite !app_nil_r.
Qed.

Lemma shutdown_enter_rs st p st' b : shutdown_enter st p = Some (st', b) → rsH st' = rsH st.
Proof. intros (s & _ & Hm)%bind_Some. destruct (sess_once s); by simplify_eq. Qed.

(** What a [Connect] adds to the queues, in terms of the record. *)
Lemma conn_step_keeps st self res pc c st' pc' new q r :
  conn_step st self res pc c = Some (st', pc', new) → rsH st !! q = Some r →
  ∃ r', rsH st' !! q = Some r' ∧ start r' = start r ++ starts (conn_accept pc c q)
    ∧ body r' = body r ++ chunks (conn_accept pc c q).
Proof.
  intros Hs Hr.
  assert (conn_accept pc c q = [] →
    (∃ r', rsH st' !! q = Some r' ∧ start r' = start r ∧ body r' = body r) →
    ∃ r', rsH st' !! q = Some r' ∧ start r' = start r ++ starts (conn_accept pc c q)
      ∧ body r' = body r ++ chunks (conn_accept pc c q)) as Hnone.
  { intros -> (r' & ? & ? & ?). exists r'. by rewrite !app_nil_r. }
  destruct pc; cbn [conn_step] in Hs; try done;
    try (apply Hnone; [done|]; clear Hnone; destruct c; try done).
  - open_step; by exists r.
  - open_step; by exists r.
  - open_step. erewrite shutdown_enter_rs by done. by exists r.
  - open_step. by eapply shutdown_fail_keeps.
  - open_step; by exists r.
  - open_step; by exists r.
  - open_step. by eapply handleClientFrame_keeps.
  - open_step; by exists r.
  - apply bind_Some in Hs as (st1 & Hd & Hs). simplify_eq. by eapply deliver_keeps.
  - open_step. erewrite shutdown_enter_rs by done. by exists r.
  - open_step. by eapply shutdown_fail_keeps.
  - open_step; by exists r.
  - open_step; by exists r.
  - open_step; by exists r.
Qed.

(** A step of thread [i], seen from a response state it does not hold. *)
Lemma thread_step_keeps st ts t c st' t' new q r :
  thread_step st ts t c = Some (st', t', new) → holds_rs t ≠ Some q →
  rsH st !! q = Some r →
  let h := match t with TConn pc => conn_accept pc c q | _ => [] end in
  ∃ r', rsH st' !! q = Some r' ∧ start r' = start r ++ starts h ∧ body r' = body r ++ chunks h.
Proof.
  intros Hs Hh Hr h.
  assert ((∀ pc, t ≠ TConn pc) → rsH st' !! q = rsH st !! q) as Hother.
  { intros Hn. destruct (thread_step_abs _ _ _ _ _ _ _ Hs) as [Habs _].
    apply (thread_abs_untouched _ _ _ _ q Habs); try done.
    - by eapply lookup_lt_Some.
    - intros pc ->. by edestruct Hn.
    - destruct t as [| |pc| |]; try done. by edestruct Hn.
    - intros pc p ->. by edestruct Hn. }
  destruct t as [| |pc| |]; try (exists r; rewrite Hother, !app_nil_r by done; done).
  subst h. cbn [thread_step] in Hs. apply bind_Some in Hs as ([[s1 pc1] n1] & Hs & Heq).
  simplify_eq. by eapply conn_step_keeps.
Qed.

(** ** The invariant *)

Record piped (h : nat → list (ResponseStart + string)) (w : world) : Prop := {
  piped_refs : refs_ok w;
  piped_fresh : ∀ q, length (rsH (st w)) ≤ q → h q = [];
  piped_holds : ∀ i r ctx out pc p id q, threads w !! i = Some (THttp r ctx out pc) →
    http_holds pc = Some (p, id, q) → goes (st w) q (λ r, progress pc out r (h q));
  piped_enter : ∀ i r ctx out pc, threads w !! i = Some (THttp r ctx out pc) →
    entering pc → out = [] }.

Lemma conn_accept_delivers pc c q :
  conn_accept pc c q ≠ [] → delivers (TConn pc) = Some q.
Proof.
  destruct pc as [| | | | | |? ? [] | | | | | | ], c; try done; simpl; case_decide; naive_solver.
Qed.

Lemma entering_holds pc : entering pc → http_holds pc = None.
Proof. by destruct pc. Qed.

(** A step of one thread. *)
Lemma piped_thread h w i c t st' t' new :
  piped h w → threads w !! i = Some t →
  thread_step (st w) (threads w) t c = Some (st', t', new) →
  piped (λ q, h q ++ accept w (LStep i c) q) (mkWorld st' (<[i := t']> (threads w) ++ new)).
Proof.
  intros Hp Hi Hs. pose proof Hp as [Hrefs Hfresh Hholds Henter].
  assert (exec w (LStep i c) = Some (mkWorld st' (<[i := t']> (threads w) ++ new))) as Hexec.
  { cbn [exec]. rewrite Hi. simpl. by rewrite Hs. }
  destruct (thread_step_abs _ _ _ _ _ _ _ Hs) as [Habs Hnew].
  assert (∀ j u, (<[i:=t']> (threads w) ++ new) !! j = Some u →
    (j = i ∧ u = t') ∨ (j ≠ i ∧ threads w !! j = Some u)
    ∨ ∀ r ctx out pc, u ≠ THttp r ctx out pc) as Hall.
  { intros j u [Hj|[_ Hj]]%lookup_app_Some.
    - apply insert_lookup_cases in Hj as [(<- & <- & _)|[? Hj]]; auto.
    - right. right. intros r ctx out pc ->. pose proof (new_helpers _ _ _ _ _ _ _ Hs) as Hn.
      destruct (Forall_lookup_1 _ _ _ _ Hn Hj). }
  assert (∀ q, accept w (LStep i c) q = match t with TConn pc => conn_accept pc c q | _ => [] end)
    as Hacc by (intros q; simpl; by rewrite Hi).
  constructor; simpl threads.
  - by eapply refs_ok_step.
  - intros q Hq. pose proof (thread_abs_length _ _ _ _ Habs). cbn [st] in Hq.
    rewrite Hfresh by lia. rewrite Hacc. destruct t as [| |pc| |]; try done.
    destruct (conn_accept pc c q) eqn:E; [done|].
    assert (delivers (TConn pc) = Some q) as Hd by (apply (conn_accept_delivers _ c); by rewrite E).
    pose proof (refs_delivers _ Hrefs _ _ _ Hi Hd). lia.
  - intros j r ctx out pc p id q Hj Hh. apply Hall in Hj as [[-> <-]|[[Hne Hj]|Hidle]].
    + destruct t; cbn [thread_step] in Hs; apply bind_Some in Hs as (x & Hs & Heq);
        repeat case_match; simplify_eq.
      rewrite Hacc, app_nil_r. destruct (http_holds pc0) as [[[p0 id0] q0]|] eqn:Hh0.
      * assert ((p0, id0, q0) = (p, id, q)) as Heq.
        { apply http_step_abs in Hs. destruct Hs; simpl in *; congruence. }
        simplify_eq. destruct (Hholds _ _ _ _ _ _ _ _ Hi Hh0) as (r0 & Hr0 & Hp0).
        destruct (http_step_progress _ _ _ _ _ _ _ _ _ _ _ _ _ _ _ _ _ Hs Hh0 Hr0 Hp0)
          as (r1 & Hr1 & Hp1).
        exists r1. auto.
      * pose proof (http_step_enter _ _ _ _ _ _ _ _ _ _ _ out0 Hs Hh0 (Henter _ _ _ _ _ Hi)) as He.
        rewrite Hh in He. destruct He as [-> Hgo]. by rewrite Hfresh.
    + destruct (Hholds _ _ _ _ _ _ _ _ Hj Hh) as (r0 & Hr0 & Hp0).
      assert (holds_rs (THttp r ctx out pc) = Some q) as Hq by (unfold holds_rs; simpl; by rewrite Hh).
      destruct (thread_step_keeps _ _ _ _ _ _ _ q r0 Hs) as (r1 & Hr1 & Hst & Hb); [|done|].
      { intros Hq'. apply Hne. by eapply refs_unique. }
      exists r1. split; [done|]. rewrite Hacc. by eapply progress_push.
    + by edestruct Hidle.
  - intros j r ctx out pc Hj He. apply Hall in Hj as [[-> <-]|[[Hne Hj]|Hidle]].
    + destruct t; cbn [thread_step] in Hs; apply bind_Some in Hs as (x & Hs & Heq);
        repeat case_match; simplify_eq.
      destruct (http_holds pc0) as [[[p0 id0] q0]|] eqn:Hh0.
      * exfalso. apply http_step_abs in Hs. destruct Hs; simpl in *; try congruence.
        rewrite (entering_holds _ He) in *. congruence.
      * pose proof (http_step_enter _ _ _ _ _ _ _ _ _ _ _ out0 Hs Hh0 (Henter _ _ _ _ _ Hi)) as He'.
        rewrite (entering_holds _ He) in He'. by apply He'.
    + by eapply Henter.
    + by edestruct Hidle.
Qed.

Lemma piped_ext h h' w : (∀ q, h q = h' q) → piped h w → piped h' w.
Proof.
  intros Heq [Hr Hf Hh He]. constructor; try done.
  - intros q Hq. rewrite <-Heq. by apply Hf.
  - intros. rewrite <-Heq. by eapply Hh.
Qed.

Lemma piped_step h w l w' :
  piped h w → exec w l = Some w' → piped (λ q, h q ++ accept w l q) w'.
Proof.
  intros Hp Hl. destruct l as [i c|i e|r|].
  { pose proof Hl as Hl'. cbn [exec] in Hl.
    apply bind_Some in Hl as (t & Hi & ([[st' t'] new] & Hs & [= <-])%bind_Some).
    by eapply piped_thread. }
  all: apply (piped_ext h); [intros q; simpl; by rewrite app_nil_r|].
  all: pose proof (refs_ok_step _ _ _ (piped_refs _ _ Hp) Hl) as Hrefs.
  all: destruct Hp as [_ Hf Hh He]; cbn [exec] in Hl.
  - apply bind_Some in Hl as (t & Hi & (t' & Hc & [= <-])%bind_Some).
    destruct t as [r0 [] out0 pc0| | | |]; simplify_eq/=.
    constructor; simpl; try done; intros j r ctx out pc.
    + intros p id q [(<- & ? & _)|[_ Hj]]%insert_lookup_cases; simplify_eq; by eapply Hh.
    + intros [(<- & ? & _)|[_ Hj]]%insert_lookup_cases; simplify_eq; by eapply He.
  - simplify_eq. constructor; simpl; try done; intros j r' ctx out pc.
    + intros p id q [Hj|[_ ?]]%lookup_snoc_cases; [by eapply Hh|by simplify_eq/=].
    + intros [Hj|[_ ?]]%lookup_snoc_cases; [by eapply He|by simplify_eq/=].
  - simplify_eq. constructor; simpl; try done; intros j r' ctx out pc.
    + intros p id q [Hj|[_ ?]]%lookup_snoc_cases; [by eapply Hh|by simplify_eq/=].
    + intros [Hj|[_ ?]]%lookup_snoc_cases; [by eapply He|by simplify_eq/=].
Qed.

Lemma piped_run h w ls w' :
  piped h w → run w ls = Some w' → piped (λ q, h q ++ accepted w ls q) w'.
Proof.
  revert h w. induction ls as [|l ls IH]; intros h w Hp; simpl.
  { intros [= <-]. eapply piped_ext; [|done]. intros q. by rewrite app_nil_r. }
  intros (w1 & Hl & Hr)%bind_Some.
  eapply piped_ext; [|by eapply IH; [by eapply piped_step|]].
  intros q. simpl. by rewrite Hl, app_assoc.
Qed.

Lemma piped_init s : piped (λ _, []) (init_world s).
Proof. constructor; [apply refs_ok_init|done..]. Qed.

Lemma progress_settled pc out r h : progress pc out r h → settled out h.
Proof.
  destruct pc; simpl; auto; try (by left); try apply written_settled;
    intros (-> & _ & _); left; constructor.
Qed.

Lemma run_piped s ls w : run (init_world s) ls = Some w → piped (accepted (init_world s) ls) w.
Proof.
  intros Hrun. eapply piped_ext; [|by eapply piped_run; [apply piped_init|]]. done.
Qed.

Lemma drained_complete s ls w i r ctx out k w' out' :
  run (init_world s) ls = Some w →
  threads w !! i = Some (THttp r ctx out (PDrain k)) →
  exec w (LStep i Go) = Some w' → threads w' !! i = Some (THttp r ctx out' (exit k)) →
  ∃ m ms cs, starts (accepted (init_world s) ls (k_rs k)) = m :: ms
    ∧ out' = header_of m :: (WBody <$> cs)
    ∧ cat cs = cat (chunks (accepted (init_world s) ls (k_rs k))).
Proof.
  intros Hrun Hi Hx Hi'.
  destruct (piped_holds _ _ (run_piped _ _ _ Hrun) _ _ _ _ _ _ _ _ Hi eq_refl)
    as (rs & Hr & m & ms & cs & Hs & -> & Hc).
  cbn [exec] in Hx. rewrite Hi in Hx. cbn in Hx. rewrite Hr in Hx. simpl in Hx.
  unfold consumeBody in Hx. destruct (body rs) as [|c q] eqn:Hb; simplify_eq/=.
  - rewrite app_nil_r, list_lookup_insert_eq in Hi' by (by eapply lookup_lt_Some).
    simplify_eq. rewrite app_nil_r. exists m, ms, cs. split_and!; try done.
    rewrite <-Hc. by rewrite !app_nil_r_str.
  - exfalso. rewrite app_nil_r, list_lookup_insert_eq in Hi' by (by eapply lookup_lt_Some).
    unfold write_chunk, exit in Hi'. case_bool_decide; destruct (k_ws k); simplify_eq.
Qed.

(** ** The theorems *)

(** C6. Responses arrive in order and unmixed: in every reachable state, what a handler
    has written to its browser is nothing of a response yet, or the status and headers of
    the first ResponseStart put into its response state followed by bytes that are a
    prefix of the chunks put there, in the order the receive loop put them.  Nothing is
    lost, repeated, reordered or taken from another request on the way. *)
Theorem response_in_order s ls w i r ctx out pc p id q :
  run (init_world s) ls = Some w →
  threads w !! i = Some (THttp r ctx out pc) → http_holds pc = Some (p, id, q) →
  unanswered out
  ∨ ∃ m ms cs rest, starts (accepted (init_world s) ls q) = m :: ms
      ∧ out = header_of m :: (WBody <$> cs)
      ∧ cat cs +:+ rest = cat (chunks (accepted (init_world s) ls q)).
Proof.
  intros Hrun Hi Hh. destruct (piped_holds _ _ (run_piped _ _ _ Hrun) _ _ _ _ _ _ _ _ Hi Hh)
    as (r0 & _ & Hp%progress_settled).
  destruct Hp as [?|(rest & m & ms & cs & ? & ? & ?)]; [by left|right].
  exists m, ms, cs, rest. by split_and!.
Qed.

(** A response that ends is whole: when a handler leaves the loop that drains the
    body queue after the response has ended, it has written every byte that was put into
    its response state, after the header. *)
Theorem response_complete s ls w i r ctx out k w' out' :
  run (init_world s) ls = Some w →
  threads w !! i = Some (THttp r ctx out (PDrain k)) →
  exec w (LStep i Go) = Some w' → threads w' !! i = Some (THttp r ctx out' (exit k)) →
  ∃ m ms cs, starts (accepted (init_world s) ls (k_rs k)) = m :: ms
    ∧ out' = header_of m :: (WBody <$> cs)
    ∧ cat cs = cat (chunks (accepted (init_world s) ls (k_rs k))).
Proof. apply drained_complete. Qed.
End pipeline.

(** ** A truncated response *)

Import Scenario.

(** The exchange of [complete], ended by a ResponseError. *)
Definition broken : list label :=
  [LStep 0 (Recv chunk); LStep 0 OnSend; LStep 3 OnBody; LStep 3 (IO true);
   LStep 0 (Recv (ClientFrame_ResponseError "1" "backend died")); LStep 3 OnDone; LStep 3 Go;
   LStep 3 Go; LStep 3 Go].

(** A response that breaks off looks complete: when the client reports an error after
    the headers, the browser's handler writes exactly what it writes for a response that
    ends properly, and returns the same way, so the browser cannot tell the two apart. *)
Theorem truncation_unnoticed :
  let ended ls := threads (after (connect ++ arrive ++ forward ++ respond ++ ls)) !! 3 in
  ended complete = Some (THttp request None [WHeader 200 ∅; WBody "x"] PDone)
  ∧ ended broken = ended complete.
Proof. split; vm_compute; reflexivity. Qed.

Section witnesses.

Definition drained : list label := connect ++ arrive ++ forward ++ respond ++ take 6 complete.

Example response_in_order_witness :
  ∃ m ms, starts (accepted start_world (connect ++ arrive ++ forward ++ respond) 0) = m :: ms
    ∧ StatusCode m = 200%Z.
Proof.
  destruct (response_in_order server (connect ++ arrive ++ forward ++ respond)
    (after (connect ++ arrive ++ forward ++ respond)) 3 request None [WHeader 200 ∅]
    (PBody (mkK 0 "1" 0 None)) 0 "1" 0) as [Hun|(m & ms & cs & rest & Hs & Ho & _)];
    [vm_compute; reflexivity..| |].
  - by apply Forall_cons_1 in Hun as [[] _].
  - exists m, ms. split; [exact Hs|]. by injection Ho.
Defined.

Example response_complete_witness :
  ∃ cs, [WHeader 200 ∅; WBody "x"] = WHeader 200 ∅ :: (WBody <$> cs) ∧ cat cs = "x".
Proof.
  destruct (response_complete server drained (after drained) 3 request None
    [WHeader 200 ∅; WBody "x"] (mkK 0 "1" 0 None) (after (drained ++ [LStep 3 Go]))
    [WHeader 200 ∅; WBody "x"]) as (m & ms & cs & Hs & Ho & Hc);
    [vm_compute; reflexivity..|].
  exists cs. split; [injection Ho as _ _ Ho; by rewrite <-Ho|]. rewrite Hc. vm_compute. reflexivity.
Defined.
End witnesses.
