(* ===== verification/Edge.v ===== *)
(** * server: what holds of the edge under every interleaving.

    The runs start from a server [New] has built.  A run is a list of labels, one per
    step, so the theorems bound nothing but its length, and that only where ids could
    wrap around. *)

From S2P Require Import Prelude GoStrings Hostnames Proto Headers Channels ResponseState Server.
From S2P Require Import Steps Scenario Abstract Invariants ServerConfig Routing Stalls.

Section edge.
Context `{UnicodeData}.

Lemma New_limits cfg s :
  New cfg = Ok s → (MaxTotalInflight cfg ≤ max_i64)%Z → limits_ok s.
Proof.
  intros [_ (_ & _ & _ & _ & Hm & Ht & _)]%New_valid Hmax. unfold limits_ok. rewrite Hm, Ht.
  unfold max_i64 in *. destruct (Z.leb_spec (MaxInflightPerSession cfg) 0),
    (Z.leb_spec (MaxTotalInflight cfg) 0); lia.
Qed.

Lemma run_inv cfg s ls w :
  New cfg = Ok s → (MaxTotalInflight cfg ≤ max_i64)%Z → (Z.of_nat (length ls) < 2^64)%Z →
  run (init_world s) ls = Some w → inv w.
Proof.
  intros Hnew Hmax Hlen Hrun%run_nsteps.
  destruct (New_valid _ _ Hnew) as [_ (_ & _ & _ & _ & _ & _ & Htot & _ & _ & Hreq)].
  eapply inv_nsteps; [|done|simpl; lia].
  apply inv_init; [by eapply New_limits|done..].
Qed.

(** The parameters of the server never change. *)
Definition same_params (s s' : Server) : Prop :=
  maxInflight s' = maxInflight s ∧ maxTotalInflight s' = maxTotalInflight s
  ∧ publicDomain s' = publicDomain s ∧ tokenUsers s' = tokenUsers s.

Lemma run_params w ls w' : run w ls = Some w' → same_params (srv (st w)) (srv (st w')).
Proof.
  revert w. induction ls as [|l ls IH]; intros w; simpl; [by intros [= <-]|].
  intros (w1 & Hl & Hr)%bind_Some. specialize (IH w1 Hr). unfold same_params in *.
  destruct (exec_abs _ _ _ Hl) as [(? & ? & ? & ? & _ & Ha & _)|[Heq _]].
  - destruct (thread_abs_params _ _ _ _ Ha) as (? & ? & ? & ? & _). naive_solver congruence.
  - by rewrite Heq in IH.
Qed.

(** The goroutines are between requests: handlers have returned and no [Connect] is in
    the middle of a shutdown. *)
Definition quiescent (t : thread) : Prop :=
  match t with
  | THttp _ _ _ pc => pc = PDone
  | TConn pc => match pc with CReplRelease _ _ | CShutRelease _ _ _ _ => False | _ => True end
  | _ => True
  end.

Lemma quiescent_idle t : quiescent t → pending t = 0%Z ∧ holds t = None.
Proof. destruct t as [??? []| |[]| |]; naive_solver. Qed.

(** ** Admission *)

(** C5. The limits on requests in flight hold under every interleaving of handlers,
    connects and shutdowns: no session has more registered requests than
    MaxInflightPerSession, and all sessions together, also sessions that were replaced or
    have ended, have no more than the counter says, which never exceeds
    MaxTotalInflight (with the defaults for limits that are not positive). *)
Theorem inflight_bounded cfg s ls w :
  New cfg = Ok s → (MaxTotalInflight cfg ≤ max_i64)%Z → (Z.of_nat (length ls) < 2^64)%Z →
  run (init_world s) ls = Some w →
  (∀ p x, sessH (st w) !! p = Some x → Z.of_nat (size (inflight x)) ≤ maxInflight s)%Z
  ∧ (Z.of_nat (inflight_sum (st w)) ≤ totalInflight (srv (st w)) ≤ maxTotalInflight s)%Z.
Proof.
  intros Hnew Hmax Hlen Hrun. pose proof (run_inv _ _ _ _ Hnew Hmax Hlen Hrun) as Hinv.
  destruct (run_params _ _ _ Hrun) as (Hm & Ht & _). simpl in Hm, Ht.
  rewrite <-Hm, <-Ht. split; [apply inv_cap, Hinv|].
  split; [|apply inv_max, Hinv]. rewrite (inv_total _ Hinv).
  pose proof (Zsum_nonneg _ _ (inv_pending _ Hinv)). lia.
Qed.

(** C10. No slot leaks: whatever happened before, once every handler has returned and no
    shutdown is half way, the counter is zero and no session has a registered request
    left. *)
Theorem inflight_released cfg s ls w :
  New cfg = Ok s → (MaxTotalInflight cfg ≤ max_i64)%Z → (Z.of_nat (length ls) < 2^64)%Z →
  run (init_world s) ls = Some w → Forall quiescent (threads w) →
  totalInflight (srv (st w)) = 0%Z
  ∧ ∀ p x, sessH (st w) !! p = Some x → inflight x = ∅.
Proof.
  intros Hnew Hmax Hlen Hrun Hq. pose proof (run_inv _ _ _ _ Hnew Hmax Hlen Hrun) as Hinv.
  rewrite Forall_forall in Hq.
  assert (∀ p x, sessH (st w) !! p = Some x → inflight x = ∅) as Hempty.
  { intros p x Hx. apply map_empty. intros id. destruct (inflight x !! id) as [r|] eqn:E; [|done].
    destruct (inv_owner _ Hinv _ _ _ _ Hx E) as (i & t & Ht & Hh).
    destruct (quiescent_idle t); [by eapply Hq, list_elem_of_lookup_2|congruence]. }
  split; [|done]. rewrite (inv_total _ Hinv).
  unfold inflight_sum. rewrite sum_list_with_zero, Zsum_zero; [done|..].
  - rewrite Forall_forall. intros t Ht. by apply quiescent_idle, Hq.
  - intros x [p Hx]%list_elem_of_lookup. by rewrite (Hempty p x Hx), map_size_empty.
Qed.

(** ** Requests *)

(** C15. Request ids never collide: two handlers never work under the same id, a
    registered id belongs to exactly one session and to a live handler that holds
    exactly this session and response state, so a frame of a client can reach the
    response of one browser only. *)
Theorem request_ids_unique cfg s ls w :
  New cfg = Ok s → (MaxTotalInflight cfg ≤ max_i64)%Z → (Z.of_nat (length ls) < 2^64)%Z →
  run (init_world s) ls = Some w →
  (∀ i j t u id, threads w !! i = Some t → threads w !! j = Some u →
     ident t = Some id → ident u = Some id → i = j)
  ∧ (∀ p id r, sess_get (st w) p id = Some r →
     ∃ i t, threads w !! i = Some t ∧ holds t = Some (p, id, r))
  ∧ (∀ p p' id r r', sess_get (st w) p id = Some r → sess_get (st w) p' id = Some r' →
     p = p' ∧ r = r').
Proof.
  intros Hnew Hmax Hlen Hrun. pose proof (run_inv _ _ _ _ Hnew Hmax Hlen Hrun) as Hinv.
  assert (∀ p id r, sess_get (st w) p id = Some r →
     ∃ i t, threads w !! i = Some t ∧ holds t = Some (p, id, r)) as Hown.
  { intros p id r (x & Hx & Hr)%bind_Some. by eapply inv_owner. }
  split_and!; [apply inv_unique, Hinv|done|].
  intros p p' id r r' (i & t & Hi & Ht)%Hown (j & u & Hj & Hu)%Hown.
  assert (i = j) as <-.
  { eapply inv_unique; [exact Hinv|done..| |]; by eapply holds_ident. }
  by simplify_eq.
Qed.

(** C8. Tunnels are isolated: a request is only ever handed to the client whose user the
    request's host belongs to.  Whenever a RequestStart is queued on a session or has
    been sent on its stream, that session was authenticated with a token of the
    configuration, the request's host is the host of that user, and no other token's
    user has that host. *)
Theorem requests_isolated cfg s ls w p x m :
  New cfg = Ok s → run (init_world s) ls = Some w →
  sessH (st w) !! p = Some x →
  ServerFrame_RequestStart m ∈ outbound x
  ∨ (∃ i sent e, threads w !! i = Some (TSend p sent e) ∧ ServerFrame_RequestStart m ∈ sent) →
  ∃ token, tokenUsers s !! token = Some (username x)
    ∧ NormalizeHost (Host m) = Subdomain (username x) (publicDomain s)
    ∧ ∀ token' u', tokenUsers s !! token' = Some u' →
        NormalizeHost (Host m) = Subdomain u' (publicDomain s) → token' = token.
Proof.
  intros Hnew Hrun Hx Hm.
  destruct (New_valid _ _ Hnew) as [Hcfg Hs].
  pose proof Hs as (_ & _ & _ & _ & _ & _ & _ & Hsess & _).
  pose proof (routes_rtc _ _ (routes_init s Hsess) (run_rtc _ _ _ Hrun)) as Hr.
  destruct (run_params _ _ _ Hrun) as (_ & _ & Hd & Ht). simpl in Hd, Ht.
  destruct (routes_auth _ Hr _ _ Hx) as [[token Htok] Hhost]. rewrite Hd, Ht in *.
  assert (NormalizeHost (Host m) = publicHost x) as Hm'.
  { destruct Hm as [Hm|(i & sent & e & Hi & Hm)]; [by eapply routes_queue|].
    destruct (routes_threads _ Hr _ _ Hi m Hm) as (y & Hy & <-). by simplify_eq. }
  exists token. split_and!; [done|congruence|].
  intros token' u' Hu' Heq.
  assert (u' = username x) as ->.
  { eapply Subdomain_inj with (d := publicDomain s); [..|congruence];
      eapply valid_server_user; eauto. }
  by eapply valid_server_inj.
Qed.
End edge.

(** ** Witnesses *)

Section witnesses.
Import Scenario.

Example inflight_bounded_witness :
  inflight_sum (st (after (connect ++ arrive ++ forward))) = 1
  ∧ (Z.of_nat (inflight_sum (st (after (connect ++ arrive ++ forward))))
     ≤ totalInflight (srv (st (after (connect ++ arrive ++ forward)))) ≤ 2)%Z.
Proof.
  split; [vm_compute; reflexivity|].
  eapply (inflight_bounded config server (connect ++ arrive ++ forward));
    [exact server_new|done|done|vm_compute; reflexivity].
Defined.

Example inflight_released_witness :
  totalInflight (srv (st (after (connect ++ arrive ++ forward ++ respond ++ complete)))) = 0%Z.
Proof.
  eapply (inflight_released config server (connect ++ arrive ++ forward ++ respond ++ complete));
    [exact server_new|done|done|vm_compute; reflexivity|vm_compute; repeat constructor].
Defined.

Example request_ids_unique_witness :
  sess_get (st (after (connect ++ arrive ++ forward))) 0 "1" = Some 0
  ∧ ∃ i t, threads (after (connect ++ arrive ++ forward)) !! i = Some t
      ∧ holds t = Some (0, "1", 0).
Proof.
  split; [vm_compute; reflexivity|].
  eapply (request_ids_unique config server (connect ++ arrive ++ forward));
    [exact server_new|done|done|vm_compute; reflexivity|vm_compute; reflexivity].
Defined.

Example requests_isolated_witness :
  ∃ token, tokenUsers server !! token = Some "demo"
    ∧ NormalizeHost "demo.example.com" = Subdomain "demo" "example.com".
Proof.
  edestruct (requests_isolated config server (connect ++ arrive ++ forward)
    (after (connect ++ arrive ++ forward)) 0) as (token & Ht & Hh & _);
    [exact server_new|vm_compute; reflexivity|vm_compute; reflexivity|left; left|].
  exists token. split; [exact Ht|exact Hh].
Defined.
End witnesses.
