(* ===== verification/Frames.v ===== *)
(** * The frames of one request and of its response.

    What the edge queues for a request and what the tunnel client receives of it are lists
    of frames; this file says which frames carry a request, what the list of a whole
    request looks like, and what an initial part of it can be; then the same for the frames
    that answer it. *)

From S2P Require Import Prelude GoStrings Proto Channels.

(** The frames that carry a request, apart from its cancellation. *)
Definition carries (id : string) (f : ServerFrame) : bool :=
  match f with
  | ServerFrame_RequestStart _ | ServerFrame_RequestBody _ _ | ServerFrame_RequestEnd _ =>
    bool_decide (server_frame_id f = Some id)
  | _ => false
  end.

Definition about (id : string) (l : list ServerFrame) : list ServerFrame :=
  filter (λ f, carries id f) l.

(** What follows a read that returned the error [e]. *)
Definition frames_after (id : string) (e : option GoError) (rest : list ServerFrame)
    : list ServerFrame :=
  match e with
  | None => rest
  | Some EOF => [ServerFrame_RequestEnd id]
  | Some _ => []
  end.

Definition chunk_frame (id chunk : string) : list ServerFrame :=
  if bool_decide (chunk = "") then [] else [ServerFrame_RequestBody id chunk].

(** The frames of a body whose reads are [reads]: one for each piece of it and, if it ends
    without an error, the end. *)
Fixpoint body_frames (id : string) (reads : list (string * option GoError)) : list ServerFrame :=
  match reads with
  | [] => [ServerFrame_RequestEnd id]
  | (chunk, e) :: reads => chunk_frame id chunk ++ frames_after id e (body_frames id reads)
  end.

(** What [io.ReadAll] would make of the body, and the error it ends with. *)
Fixpoint body_bytes (reads : list (string * option GoError)) : string * option GoError :=
  match reads with
  | [] => ("", None)
  | (chunk, None) :: reads => let '(s, e) := body_bytes reads in (chunk +:+ s, e)
  | (chunk, Some e) :: _ => (chunk, if bool_decide (e = EOF) then None else Some e)
  end.

(** The chunks of the body frames. *)
Definition chunks_of (l : list ServerFrame) : list string :=
  omap (λ f, match f with ServerFrame_RequestBody _ chunk => Some chunk | _ => None end) l.

Lemma about_app id l l' : about id (l ++ l') = about id l ++ about id l'.
Proof. apply filter_app. Qed.

Lemma chunks_of_app l l' : chunks_of (l ++ l') = chunks_of l ++ chunks_of l'.
Proof. apply omap_app. Qed.

Lemma about_prefix id l l' : l `prefix_of` l' → about id l `prefix_of` about id l'.
Proof. intros [k ->]. exists (about id k). apply about_app. Qed.

Lemma cat_chunk_frame id chunk : cat (chunks_of (chunk_frame id chunk)) = chunk.
Proof.
  unfold chunk_frame. case_bool_decide as Hc; [by subst|]. simpl. apply app_nil_r_str.
Qed.

(** The frames carry the bytes of the body. *)
Lemma body_frames_bytes id reads :
  cat (chunks_of (body_frames id reads)) = (body_bytes reads).1
  ∧ ((body_bytes reads).2 = None ↔ ServerFrame_RequestEnd id ∈ body_frames id reads).
Proof.
  induction reads as [|[chunk e] reads [IHc IHe]]; simpl.
  { split; [done|]. split; [by left|done]. }
  assert (ServerFrame_RequestEnd id ∉ chunk_frame id chunk) as Hn.
  { unfold chunk_frame. case_bool_decide; [by intros ?%elem_of_nil|].
    by intros ?%list_elem_of_singleton. }
  rewrite chunks_of_app, cat_app, cat_chunk_frame, elem_of_app.
  destruct e as [e|]; simpl.
  - destruct (decide (e = EOF)) as [->|Hne].
    + rewrite bool_decide_true by done. simpl. rewrite app_nil_r_str.
      split; [done|]. rewrite list_elem_of_singleton. tauto.
    + rewrite bool_decide_false by done.
      assert (match e with EOF => [ServerFrame_RequestEnd id] | _ => [] end = []) as ->
        by (by destruct e).
      simpl. rewrite app_nil_r_str, elem_of_nil. split; [done|]. split; [done|].
      by intros [?|[]].
  - destruct (body_bytes reads) as [s e]. simpl in *. rewrite IHc. split; [done|]. tauto.
Qed.

(** The frames of a request carry it and no other. *)
Lemma about_all id l : Forall (λ f, carries id f) l → about id l = l.
Proof.
  unfold about. induction 1 as [|f l Hf _ IH]; [done|]. by rewrite filter_cons_True, IH.
Qed.

Lemma about_other id id' l : id ≠ id' → Forall (λ f, carries id' f) l → about id l = [].
Proof.
  intros Hne. unfold about. induction 1 as [|f l Hf _ IH]; [done|].
  rewrite filter_cons_False; [done|]. intros Hc. apply Hne.
  destruct f; try done; simpl in *; apply bool_decide_unpack in Hc, Hf; congruence.
Qed.

Lemma carries_after id e rest :
  Forall (λ f, carries id f) rest → Forall (λ f, carries id f) (frames_after id e rest).
Proof.
  intros Hr. destruct e as [[]|]; simpl; auto. repeat constructor. by apply bool_decide_pack.
Qed.

Lemma carries_body id reads : Forall (λ f, carries id f) (body_frames id reads).
Proof.
  induction reads as [|[chunk e] reads IH]; simpl.
  - repeat constructor. by apply bool_decide_pack.
  - apply Forall_app. split; [|by apply carries_after]. unfold chunk_frame.
    case_bool_decide; repeat constructor. by apply bool_decide_pack.
Qed.

(** *** Initial parts *)

(** A start comes first, an end comes last. *)
Record proper (l : list ServerFrame) : Prop := {
  proper_start : ∀ i m, l !! i = Some (ServerFrame_RequestStart m) → i = 0;
  proper_end : ∀ i id, l !! i = Some (ServerFrame_RequestEnd id) → S i = length l }.

Lemma proper_prefix l l' : l `prefix_of` l' → proper l' → proper l.
Proof.
  intros [k ->] [Hs He]. split; intros i x Hi.
  - apply (Hs i x). by apply lookup_app_l_Some.
  - specialize (He i x (lookup_app_l_Some _ _ _ _ Hi)). rewrite length_app in He.
    apply lookup_lt_Some in Hi. lia.
Qed.

Lemma proper_snoc_start l m : proper (l ++ [ServerFrame_RequestStart m]) → l = [].
Proof.
  intros [Hs _]. apply length_zero_iff_nil. apply (Hs _ m). by apply list_lookup_middle.
Qed.

Lemma proper_snoc_end l id f : ¬ proper ((l ++ [ServerFrame_RequestEnd id]) ++ [f]).
Proof.
  intros [_ He].
  assert (S (length l) = length ((l ++ [ServerFrame_RequestEnd id]) ++ [f])) as Hlen.
  { apply (He _ id), lookup_app_l_Some. by apply list_lookup_middle. }
  rewrite !length_app in Hlen. simpl in Hlen. lia.
Qed.

(** A part that has the end is all. *)
Lemma proper_whole l l' id :
  proper l' → l `prefix_of` l' → ServerFrame_RequestEnd id ∈ l → l = l'.
Proof.
  intros [_ He] [k ->] [i Hi]%list_elem_of_lookup.
  specialize (He i id (lookup_app_l_Some _ _ _ _ Hi)). rewrite length_app in He.
  apply lookup_lt_Some in Hi. destruct k; [by rewrite app_nil_r|simpl in He; lia].
Qed.

(** Frames of a body, with nothing after its end. *)
Lemma body_frames_shape id reads :
  ∃ cs tl, body_frames id reads = (ServerFrame_RequestBody id <$> cs) ++ tl
    ∧ (tl = [] ∨ tl = [ServerFrame_RequestEnd id]).
Proof.
  induction reads as [|[chunk e] reads (cs & tl & IH & Htl)]; simpl.
  { exists [], [ServerFrame_RequestEnd id]. auto. }
  assert (∃ c0, chunk_frame id chunk = ServerFrame_RequestBody id <$> c0) as [c0 ->].
  { unfold chunk_frame. case_bool_decide; [by exists []|by exists [chunk]]. }
  destruct e as [e|]; simpl.
  - exists c0. destruct e; eauto.
  - exists (c0 ++ cs), tl. rewrite fmap_app, IH, <-app_assoc. auto.
Qed.

Lemma proper_shape id m cs tl :
  tl = [] ∨ tl = [ServerFrame_RequestEnd id] →
  proper (ServerFrame_RequestStart m :: (ServerFrame_RequestBody id <$> cs) ++ tl).
Proof.
  assert (∀ i x, (ServerFrame_RequestBody id <$> cs) !! i = Some x →
    ∃ c, x = ServerFrame_RequestBody id c) as Hb.
  { intros i x Hi. rewrite list_lookup_fmap in Hi.
    apply fmap_Some in Hi as (c & _ & ->). eauto. }
  intros Htl. split; intros [|i] x Hi; simplify_eq/=; try done.
  - exfalso. apply lookup_app_Some in Hi as [Hi|[_ Hi]].
    + by destruct (Hb _ _ Hi).
    + destruct Htl as [-> | ->]; [done|].
      by apply list_lookup_singleton_Some in Hi as [_ ?].
  - apply lookup_app_Some in Hi as [Hi|[Hge Hi]].
    + by destruct (Hb _ _ Hi).
    + destruct Htl as [-> | ->]; [done|].
      apply list_lookup_singleton_Some in Hi as [Hi _]. rewrite length_app. simpl. lia.
Qed.

(** ** Frames of a response *)

(** The request a frame answers. *)
Definition reply_id (f : ClientFrame) : option string :=
  match f with
  | ClientFrame_ResponseStart m => Some (RequestId m)
  | ClientFrame_ResponseBody id _ | ClientFrame_ResponseEnd id
  | ClientFrame_ResponseError id _ => Some id
  | _ => None
  end.

(** The frames that answer request [id]. *)
Definition replies (id : string) (l : list ClientFrame) : list ClientFrame :=
  filter (λ f, reply_id f = Some id) l.

(** What a frame puts into a response state. *)
Definition frame_content (f : ClientFrame) : option (ResponseStart + string) :=
  match f with
  | ClientFrame_ResponseStart m => Some (inl m)
  | ClientFrame_ResponseBody _ c => Some (inr c)
  | _ => None
  end.
Definition contents (l : list ClientFrame) : list (ResponseStart + string) := omap frame_content l.

(** A frame after which nothing more of its response comes. *)
Definition ending (f : ClientFrame) : Prop :=
  match f with ClientFrame_ResponseEnd _ | ClientFrame_ResponseError _ _ => True | _ => False end.
Definition ended_by (l : list ClientFrame) : Prop := Exists ending l.

(** Nothing follows an end. *)
Fixpoint orderly (l : list ClientFrame) : Prop :=
  match l with [] => True | f :: l => (ending f → l = []) ∧ orderly l end.

Lemma replies_app id l l' : replies id (l ++ l') = replies id l ++ replies id l'.
Proof. apply filter_app. Qed.

Lemma replies_prefix id l l' : l `prefix_of` l' → replies id l `prefix_of` replies id l'.
Proof. intros [k ->]. rewrite replies_app. by eexists. Qed.
Lemma orderly_prefix l l' : l `prefix_of` l' → orderly l' → orderly l.
Proof.
  intros [k ->]. induction l as [|f l IH]; [done|]. intros [Hf Ho]. split; [|by apply IH].
  intros He. by apply Hf, app_nil in He as [-> _].
Qed.
Lemma contents_prefix l l' : l `prefix_of` l' → contents l `prefix_of` contents l'.
Proof. apply prefix_omap. Qed.

Lemma replies_one id f : replies id [f] = if decide (reply_id f = Some id) then [f] else [].
Proof. unfold replies. by rewrite filter_cons, filter_nil. Qed.

Lemma orderly_snoc l f : orderly (l ++ [f]) → orderly l ∧ ¬ ended_by l.
Proof.
  induction l as [|g l IH]; simpl; [split; [done|inversion 1]|]. intros [Hg Ho].
  destruct (IH Ho) as [Hl Hn]. split.
  - split; [|done]. intros He. specialize (Hg He). by destruct l.
  - intros [He|He]%Exists_cons; [|done]. specialize (Hg He). by destruct l.
Qed.

Lemma ended_one f : ended_by [f] ↔ ending f.
Proof. unfold ended_by. rewrite Exists_cons, Exists_nil. naive_solver. Qed.

Lemma orderly_app l f : Forall (λ g, ¬ ending g) l → orderly (l ++ [f]).
Proof. induction 1; simpl; [done|]. by split. Qed.
