(* ===== verification/Messages.v ===== *)
(** * The messages of a WebSocket among the frames of a session. *)

From S2P Require Import Prelude Proto.

Definition message (id : string) (f : ServerFrame) : option string :=
  match f with
  | ServerFrame_WsData id' payload => if bool_decide (id' = id) then Some payload else None
  | _ => None
  end.
Definition messages (id : string) (l : list ServerFrame) : list string := omap (message id) l.

Lemma messages_app id l l' : messages id (l ++ l') = messages id l ++ messages id l'.
Proof. apply omap_app. Qed.

Lemma messages_none (P : ServerFrame → Prop) id l :
  (∀ f, P f → message id f = None) → Forall P l → messages id l = [].
Proof. intros HP. induction 1 as [|f l Hf _ IH]; [done|]. csimpl. by rewrite HP. Qed.

Lemma messages_prefix id l l' : l `prefix_of` l' → messages id l `prefix_of` messages id l'.
Proof. intros [k ->]. rewrite messages_app. by eexists. Qed.

(** The same for what the client sends. *)
Definition utterance (id : string) (f : ClientFrame) : option string :=
  match f with
  | ClientFrame_WsData id' payload => if bool_decide (id' = id) then Some payload else None
  | _ => None
  end.
Definition utterances (id : string) (l : list ClientFrame) : list string := omap (utterance id) l.

Lemma utterances_app id l l' : utterances id (l ++ l') = utterances id l ++ utterances id l'.
Proof. apply omap_app. Qed.

Lemma utterances_prefix id l l' : l `prefix_of` l' → utterances id l `prefix_of` utterances id l'.
Proof. intros [k ->]. rewrite utterances_app. by eexists. Qed.

(** A start comes once, and before the messages of its WebSocket. *)
Definition starts_first (g : list ServerFrame) : Prop :=
  ∀ pre m post, g = pre ++ ServerFrame_RequestStart m :: post →
    messages (rs_RequestId m) pre = []
    ∧ ∀ m', ServerFrame_RequestStart m' ∈ pre → rs_RequestId m' ≠ rs_RequestId m.

Lemma starts_first_prefix g g' : g `prefix_of` g' → starts_first g' → starts_first g.
Proof. intros [k ->] Hf pre m post ->. apply (Hf pre m (post ++ k)). by rewrite <-app_assoc. Qed.
