(* ===== verification/Forward.v ===== *)
(** * server: the request a tunnel client gets is the browser's.

    [Pipeline] follows a response from the receive loop to the browser; this file follows a
    request the other way, from the browser's body into the queue of a session and from
    there onto its stream.  The frames queued on each session are recorded along a run; the
    record is compared with what a request should be and with what the send loops have
    sent. *)

From S2P Require Import Prelude GoStrings Hostnames Proto Headers Channels ResponseState Server.
From S2P Require Import Frames Steps Scenario Abstract Invariants Origins ServerConfig Edge.

(** The bytes of a request's body and the error it ends with. *)
Definition request_body (r : Request) : string * option GoError :=
  body_bytes (default [] (r_Body r)).

Section forward.
Context `{UnicodeData}.

(** All the frames of request [r] under the id [id]. *)
Definition sends (r : Request) (id : string) : list ServerFrame :=
  ServerFrame_RequestStart (request_start r id)
  :: match r_Body r with
     | None => [ServerFrame_RequestEnd id]
     | Some reads => body_frames id reads
     end.

(** What is still to be queued at a program point of [forwardRequest]. *)
Definition fwd_left (r : Request) (id : string) (f : fwd_pc) : list ServerFrame :=
  match f with
  | FStart => sends r id
  | FLoop reads => body_frames id reads
  | FChunk chunk e reads =>
    ServerFrame_RequestBody id chunk :: frames_after id e (body_frames id reads)
  | FEnd => [ServerFrame_RequestEnd id]
  end.

(** The same for a handler; [None] if it may have given up half way. *)
Definition http_left (r : Request) (pc : http_pc) : option (list ServerFrame) :=
  match pc with
  | PPutWS _ id _ => Some (sends r id)
  | PForward k f => Some (fwd_left r (k_id k) f)
  | PWait _ | PBody _ | PWrite _ _ _ | PDrain _ | PCancel _ | PWsWait _ | PHijack _ _
  | PHandshake _ _ | PWsLoop _ _ | PWsWrite _ _ _ | PCloseWS _ => Some []
  | _ => None
  end.

(** [told left sent]: what was queued fits what is left. *)
Definition told (r : Request) (id : string) (left : option (list ServerFrame))
    (queued : list ServerFrame) : Prop :=
  match left with
  | Some rest => queued ++ rest = sends r id
  | None => queued `prefix_of` sends r id
  end.

Lemma told_prefix r id left queued : told r id left queued → queued `prefix_of` sends r id.
Proof. destruct left; [|done]. intros <-. by exists l. Qed.

(** Queuing [fs] leads from [left] to [left']. *)
Definition continues (left : option (list ServerFrame)) (fs : list ServerFrame)
    (left' : option (list ServerFrame)) : Prop :=
  match left, left' with
  | Some l, Some l' => fs ++ l' = l
  | Some l, None => fs `prefix_of` l
  | None, None => fs = []
  | None, Some _ => False
  end.

Lemma told_continues r id left fs left' queued :
  told r id left queued → continues left fs left' → told r id left' (queued ++ fs).
Proof.
  destruct left as [l|], left' as [l'|]; simpl; try done.
  - intros <- <-. by rewrite app_assoc.
  - intros <- Hf. by apply prefix_app.
  - intros Hq ->. by rewrite app_nil_r.
Qed.

(** ** Queues *)

Definition queue_of (st : state) (p : nat) : list ServerFrame :=
  from_option outbound [] (sessH st !! p).

(** The queues grow by [g]. *)
Definition grows (g : nat → list ServerFrame) (st st' : state) : Prop :=
  ∀ p, queue_of st' p = queue_of st p ++ g p.

Definition silent : nat → list ServerFrame := λ _, [].
Definition only (p : nat) (l : list ServerFrame) : nat → list ServerFrame :=
  λ q, if decide (q = p) then l else [].

Lemma grows_same st st' : sessH st' = sessH st → grows silent st st'.
Proof. intros Heq p. unfold queue_of. rewrite Heq. by rewrite app_nil_r. Qed.

Lemma grows_insert st st' p s s' l :
  sessH st !! p = Some s → sessH st' = <[p := s']> (sessH st) →
  outbound s' = outbound s ++ l → grows (only p l) st st'.
Proof.
  intros Hs Heq Ho q. unfold queue_of, only. rewrite Heq. case_decide as Hq.
  - subst q. rewrite list_lookup_insert_eq by (by eapply lookup_lt_Some). by rewrite Hs.
  - by rewrite list_lookup_insert_ne, app_nil_r.
Qed.

Lemma only_nil p st st' : grows (only p []) st st' → grows silent st st'.
Proof. intros Hg q. rewrite Hg. unfold only. by case_decide. Qed.

Lemma grows_put_sess st p s s' :
  sessH st !! p = Some s → outbound s' = outbound s → grows silent st (put_sess st p s').
Proof.
  intros Hs Ho. eapply only_nil, grows_insert; [done..|]. by rewrite app_nil_r.
Qed.

Lemma enqueue_grows st p f st' : enqueue st p f = Some st' → grows (only p [f]) st st'.
Proof.
  unfold enqueue. intros (s & Hs & (q & Hq & [= <-])%bind_Some)%bind_Some.
  apply chan_send_Some in Hq as [_ ->]. by eapply grows_insert.
Qed.

Lemma sendFrame_grows st p f c st' e :
  sendFrame st p f c = Some (st', e) →
  grows (only p (match e with None => [f] | Some _ => [] end)) st st'.
Proof.
  unfold sendFrame. intros Hs. open_step; [|by apply enqueue_grows].
  intros q. unfold only. case_decide; by rewrite app_nil_r.
Qed.

Lemma sendFrameCtx_grows ctx st p f c st' e :
  sendFrameCtx ctx st p f c = Some (st', e) →
  grows (only p (match e with None => [f] | Some _ => [] end)) st st'.
Proof.
  unfold sendFrameCtx. intros Hs. open_step; [..|by apply enqueue_grows];
    intros q; unfold only; case_decide; by rewrite app_nil_r.
Qed.

Lemma putWS_grows st p id w st' : putWS st p id w = Some st' → grows silent st st'.
Proof. intros (s & ? & [= <-])%bind_Some. by eapply grows_put_sess. Qed.
Lemma delWS_grows st p id st' : delWS st p id = Some st' → grows silent st st'.
Proof. intros (s & ? & [= <-])%bind_Some. by eapply grows_put_sess. Qed.
Lemma shutdown_enter_grows st p st' b : shutdown_enter st p = Some (st', b) → grows silent st st'.
Proof.
  intros (s & Hs & Hm)%bind_Some.
  destruct (sess_once s); simplify_eq; [by eapply grows_put_sess|by apply grows_same].
Qed.
Lemma shutdown_fail_grows st p e st' n :
  shutdown_fail st p e = Some (st', n) → grows silent st st'.
Proof.
  intros (s & Hs & _ & _ & HsH & _)%shutdown_fail_spec. eapply only_nil, grows_insert; [done..|].
  by rewrite app_nil_r.
Qed.
Lemma sess_del_grows st p id st' b : sess_del st p id = Some (st', b) → grows silent st st'.
Proof.
  intros (s & Hs & Hm)%bind_Some.
  destruct (inflight s !! id); simplify_eq; [by eapply grows_put_sess|by apply grows_same].
Qed.
Lemma tryStart_grows st p id m st' o : tryStart st p id m = Some (st', o) → grows silent st st'.
Proof.
  intros (s & Hs & Hm)%bind_Some. destruct (_ && _); simplify_eq/=; [by apply grows_same|].
  eapply only_nil, grows_insert; [exact Hs|reflexivity|]. by rewrite app_nil_r.
Qed.

Create HintDb grows discriminated.
#[local] Hint Resolve putWS_grows delWS_grows shutdown_enter_grows shutdown_fail_grows
  sess_del_grows tryStart_grows : grows.
#[local] Hint Extern 1 (grows silent _ _) => by apply grows_same : grows.

(** ** Steps *)

Lemma grows_carried g st st' p l :
  grows (only p l) st st' → grows g st st' → g p = l ∧ ∀ q, q ≠ p → g q = [].
Proof.
  intros H1 H2. assert (∀ q, g q = only p l q) as Hq.
  { intros q. apply (app_inv_head (queue_of st q)). by rewrite <-H1, <-H2. }
  unfold only in Hq. split; [by rewrite Hq, decide_True|]. intros q Hne. by rewrite Hq, decide_False.
Qed.

Lemma continues_app l rest left' :
  continues (Some rest) [] left' → continues (Some (l ++ rest)) l left'.
Proof.
  destruct left' as [l'|]; simpl; [by intros ->|]. intros _. by exists rest.
Qed.

Lemma after_read_left r id e reads :
  continues (Some (frames_after id e (body_frames id reads))) []
    (match after_read e reads with
     | inl f => Some (fwd_left r id f) | inr None => Some [] | inr (Some _) => None end).
Proof. destruct e as [[]|]; simpl; try done; apply prefix_nil. Qed.

(** [forwardRequest] queues what is next and goes on with the rest. *)
Lemma forwardRequest_grows st r ctx p id f c st' res :
  forwardRequest st r ctx p id f c = Some (st', res) →
  ∃ l, grows (only p l) st st'
    ∧ continues (Some (fwd_left r id f)) l
        (match res with inl f' => Some (fwd_left r id f') | inr None => Some [] | inr (Some _) => None end).
Proof.
  intros Hf. destruct f as [|reads|chunk e reads|]; cbn [forwardRequest] in Hf.
  - apply bind_Some in Hf as ([st1 e] & Hs & Hf). simplify_eq.
    eexists. split; [by eapply sendFrameCtx_grows|].
    destruct e as [e|]; simpl; [apply prefix_nil|]. unfold sends. by destruct (r_Body r).
  - destruct c; try done. exists []. split.
    { assert (st' = st) as ->.
      { destruct ctx; [by simplify_eq|]. by destruct reads as [|[]]; simplify_eq. }
      intros q. unfold only. destruct (decide _); by rewrite app_nil_r. }
    destruct ctx as [e|]; [simplify_eq; apply prefix_nil|].
    destruct reads as [|[chunk e] reads]; simpl in Hf; [by simplify_eq|].
    cbn [fwd_left body_frames]. unfold chunk_frame.
    case_bool_decide as Hc; simplify_eq; [apply after_read_left|done].
  - apply bind_Some in Hf as ([st1 e'] & Hs & Hf). simplify_eq.
    eexists. split; [by eapply sendFrameCtx_grows|].
    destruct e' as [e'|]; [apply prefix_nil|].
    apply (continues_app [_]), after_read_left.
  - apply bind_Some in Hf as ([st1 e] & Hs & Hf). simplify_eq.
    eexists. split; [by eapply sendFrameCtx_grows|]. destruct e; [apply prefix_nil|done].
Qed.

(** Only frames of the kind [P] are queued. *)
Definition murmurs (P : ServerFrame → Prop) (st st' : state) : Prop :=
  ∃ g, grows g st st' ∧ ∀ p, Forall P (g p).

(** What handlers and heartbeats queue beside requests, and what a reader does. *)
Definition control (f : ServerFrame) : Prop :=
  match f with ServerFrame_CancelRequest _ | ServerFrame_Ping _ => True | _ => False end.
Definition socket (id : string) (f : ServerFrame) : Prop :=
  match f with
  | ServerFrame_WsData id' _ | ServerFrame_WsClose id' => id' = id
  | _ => False
  end.

Lemma silent_murmurs P st st' : grows silent st st' → murmurs P st st'.
Proof. intros Hg. exists silent. split; [done|]. constructor. Qed.

Lemma only_murmurs (P : ServerFrame → Prop) st st' p l :
  Forall P l → grows (only p l) st st' → murmurs P st st'.
Proof.
  intros Hl Hg. eexists. split; [done|]. intros q. unfold only. by destruct (decide _).
Qed.

Lemma cancelRequest_murmurs st p id c st' : cancelRequest st p id c = Some st' → murmurs control st st'.
Proof.
  unfold cancelRequest. intros Hs. open_step; try (by apply silent_murmurs, grows_same).
  by eapply only_murmurs; [|by apply enqueue_grows]; repeat constructor.
Qed.
#[local] Hint Resolve silent_murmurs cancelRequest_murmurs : grows.

Lemma continues_exit r k l : continues (Some l) [] (http_left r (exit k)).
Proof. unfold exit. destruct (k_ws k); apply prefix_nil. Qed.

Lemma left_write_header r k m out pc :
  write_header k m = (out, pc) → continues (Some []) [] (http_left r pc).
Proof. intros [-> | ->]%write_header_exit; [apply continues_exit|done]. Qed.

Lemma left_write_chunk r k chunk d : http_left r (write_chunk k chunk d) = Some [].
Proof. unfold write_chunk. case_bool_decide; by destruct d. Qed.

Lemma http_forward_step st r ctx self rd k f c st' out pc' new :
  http_step st r ctx self rd (PForward k f) c = Some (st', out, pc', new) →
  http_holds pc' = http_holds (PForward k f)
  ∧ ∃ l, grows (only (k_sess k) l) st st' ∧ continues (http_left r (PForward k f)) l (http_left r pc').
Proof.
  intros Hs. cbn [http_step] in Hs. apply bind_Some in Hs as ([st1 res] & Hf & Hs).
  apply forwardRequest_grows in Hf as (l & Hg & Hc). destruct res as [f'|e]; simplify_eq.
  { split; [done|]. by exists l. }
  destruct (forwarded ctx k e) as [ev pc1] eqn:Hfw. simplify_eq.
  unfold forwarded in Hfw. destruct e as [e|].
  - assert (pc' = exit k) as -> by (by case_match; simplify_eq).
    unfold exit. split; [by destruct (k_ws k)|]. exists l. by destruct (k_ws k).
  - split; [by destruct (k_ws k); simplify_eq|]. exists l. split; [done|].
    by destruct (k_ws k); simplify_eq.
Qed.

Lemma http_other_murmurs st r ctx self rd pc c st' out pc' new :
  http_step st r ctx self rd pc c = Some (st', out, pc', new) → (∀ k f, pc ≠ PForward k f) →
  murmurs control st st'.
Proof.
  intros Hs Hn. destruct pc; cbn [http_step] in Hs; try done; try (by edestruct Hn).
  all: cbn [http_enter http_respond http_websocket http_exit] in Hs; open_step;
    try destruct (reserve_load _); simplify_eq; eauto with grows.
  match goal with Hp : putWS _ _ _ _ = Some _ |- _ =>
    exact (silent_murmurs _ _ _ (putWS_grows _ _ _ _ _ Hp)) end.
Qed.

#[local] Hint Resolve continues_exit left_write_header : grows.
#[local] Hint Extern 1 (continues _ _ _) => done : grows.
#[local] Hint Extern 1 (continues _ _ (http_left _ (write_chunk _ _ _))) =>
  rewrite left_write_chunk; done : grows.
#[local] Hint Extern 2 (continues _ _ (http_left _ (if ?b then _ else _))) => destruct b; done : grows.

Lemma http_respond_left st r ctx pc c st' out pc' new :
  http_respond st ctx pc c = Some (st', out, pc', new) →
  continues (http_left r pc) [] (http_left r pc').
Proof.
  intros Hs. destruct pc; try done; cbn [http_respond] in Hs;
    change (continues (Some []) [] (http_left r pc')); open_step; eauto with grows.
Qed.

Lemma http_websocket_left st r ctx self rd pc c st' out pc' new :
  http_websocket st r ctx self rd pc c = Some (st', out, pc', new) →
  continues (http_left r pc) [] (http_left r pc').
Proof.
  intros Hs. destruct pc; try done; cbn [http_websocket] in Hs;
    change (continues (Some []) [] (http_left r pc')); open_step; eauto with grows.
Qed.

Lemma http_other_left st r ctx self rd pc c st' out pc' new p id q :
  http_step st r ctx self rd pc c = Some (st', out, pc', new) → (∀ k f, pc ≠ PForward k f) →
  http_holds pc' = Some (p, id, q) →
  (http_holds pc = Some (p, id, q) ∧ continues (http_left r pc) [] (http_left r pc'))
  ∨ ∃ ws, pc = PTryStart p id ws ∧ http_left r pc' = Some (sends r id).
Proof.
  intros Hs Hn Hh.
  assert (http_holds pc = Some (p, id, q) ∨ ∃ ws, pc = PTryStart p id ws) as [Hpc|[ws ->]].
  { destruct (http_step_abs _ _ _ _ _ _ _ _ _ _ _ Hs); simplify_eq/=; try congruence; eauto.
    left. congruence. }
  - left. split; [done|]. destruct pc; try done; try (by edestruct Hn);
      cbn [http_step] in Hs; eauto using http_respond_left, http_websocket_left;
      destruct c; try done; cbn [http_enter http_exit] in Hs; open_step; simplify_eq/=;
      try done; try apply prefix_nil; by repeat case_match.
  - right. exists ws. split; [done|]. cbn [http_step http_enter] in Hs. open_step; simplify_eq/=.
    all: repeat (case_match; simplify_eq/=); done.
Qed.

Lemma conn_step_grows st self res pc c st' pc' new :
  conn_step st self res pc c = Some (st', pc', new) → grows silent st st'.
Proof.
  intros Hs. destruct pc; cbn [conn_step] in Hs; try done.
  1: { open_step; try (by apply grows_same). intros q. unfold queue_of. simpl. rewrite app_nil_r.
       destruct (decide (q < length (sessH st))) as [Hq|Hq]; [by rewrite lookup_app_l|].
       rewrite (lookup_ge_None_2 (sessH st)) by lia. rewrite lookup_app_r by lia.
       by destruct (q - length (sessH st)). }
  5: { open_step; try (by apply grows_same).
       match goal with Hh : handleClientFrame _ _ ?f = _ |- _ =>
         destruct f; simpl in Hh; repeat case_match; simplify_eq/= end;
         by apply grows_same. }
  5: { open_step. destruct d, c; simplify_eq/=; open_step; by apply grows_same. }
  all: open_step; simplify_eq; eauto with grows.
Qed.

Lemma reader_step_murmurs st p id pc c st' pc' :
  reader_step st p id pc c = Some (st', pc') → murmurs (socket id) st st'.
Proof.
  unfold reader_step. intros Hs. open_step; try (by apply silent_murmurs, grows_same);
    (eapply only_murmurs; [|by eapply sendFrame_grows]); case_match; by repeat constructor.
Qed.

Lemma beat_step_murmurs st p run c st' run' :
  beat_step st p run c = Some (st', run') → murmurs control st st'.
Proof.
  unfold beat_step. intros Hs. open_step; try (by apply silent_murmurs, grows_same).
  by eapply only_murmurs; [|by eapply enqueue_grows]; repeat constructor.
Qed.

(** The send loop only takes frames, the first one of its queue. *)
Definition takes (st st' : state) (p : nat) (f : ServerFrame) : Prop :=
  queue_of st p = f :: queue_of st' p ∧ ∀ q, q ≠ p → queue_of st' q = queue_of st q.

Lemma send_step_queue st p sent e c st' sent' e' :
  send_step st p sent e c = Some (st', sent', e') →
  (st' = st ∧ sent' = sent ∧ e = None ∧ ∃ x, e' = Some x)
  ∨ ∃ f, takes st st' p f ∧ e = None
      ∧ ((sent' = sent ++ [f] ∧ e' = None) ∨ (sent' = sent ∧ ∃ x, e' = Some x)).
Proof.
  unfold send_step. intros Hs. destruct e; [done|].
  assert (∀ s f q, sessH st !! p = Some s → chan_recv (outbound s) = Some (f, q) →
    takes st (put_sess st p (set_outbound s q)) p f) as Htake.
  { intros s f q Hp Hq%chan_recv_Some. unfold takes, queue_of. simpl. split.
    - rewrite list_lookup_insert_eq by (by eapply lookup_lt_Some). by rewrite Hp.
    - intros x Hx. by rewrite list_lookup_insert_ne. }
  destruct c; try done; open_step; simplify_eq; try (left; by eauto).
  all: right; eexists; (split; [by eapply Htake|]); split; [done|]; eauto.
Qed.

(** *** What a step queues *)

Definition grown (st st' : state) (p : nat) : list ServerFrame :=
  drop (length (queue_of st p)) (queue_of st' p).

Lemma grown_grows g st st' : grows g st st' → ∀ p, grown st st' p = g p.
Proof. intros Hg p. unfold grown. by rewrite Hg, drop_app_length. Qed.

Lemma grown_takes st st' p f : takes st st' p f → ∀ q, grown st st' q = [].
Proof.
  intros [Hp Hq] q. unfold grown. apply drop_ge. destruct (decide (q = p)) as [->|Hne].
  - rewrite Hp. simpl. lia.
  - by rewrite Hq.
Qed.

Lemma grown_murmurs P st st' p : murmurs P st st' → Forall P (grown st st' p).
Proof. intros (g & Hg & Ha). by rewrite (grown_grows _ _ _ Hg). Qed.

Lemma about_none (P : ServerFrame → Prop) id l :
  (∀ f, P f → carries id f = false) → Forall P l → about id l = [].
Proof.
  intros HP. unfold about. induction 1 as [|f l Hf _ IH]; [done|].
  rewrite filter_cons_False; [done|]. rewrite (HP f Hf). by intros [].
Qed.

Lemma grown_control st st' p id : murmurs control st st' → about id (grown st st' p) = [].
Proof. intros Hm%(grown_murmurs _ _ _ p). eapply about_none; [|done]. by intros []. Qed.
Lemma grown_socket x st st' p id : murmurs (socket x) st st' → about id (grown st st' p) = [].
Proof. intros Hm%(grown_murmurs _ _ _ p). eapply about_none; [|done]. by intros []. Qed.

Lemma carries_sends r id : Forall (λ f, carries id f) (sends r id).
Proof.
  constructor; [by apply bool_decide_pack|]. destruct (r_Body r); [apply carries_body|].
  repeat constructor. by apply bool_decide_pack.
Qed.

Lemma proper_sends r id : proper (sends r id).
Proof.
  unfold sends. destruct (r_Body r) as [reads|].
  - destruct (body_frames_shape id reads) as (cs & tl & -> & Htl). by apply proper_shape.
  - apply (proper_shape id _ [] [ServerFrame_RequestEnd id]). by right.
Qed.

(** The frames carry the bytes of the body, and the end if it is whole. *)
Lemma sends_bytes r id :
  cat (chunks_of (sends r id)) = (request_body r).1
  ∧ (ServerFrame_RequestEnd id ∈ sends r id ↔ (request_body r).2 = None).
Proof.
  unfold sends, request_body. destruct (r_Body r) as [reads|].
  - destruct (body_frames_bytes id reads) as [Hc He]. simpl. split; [exact Hc|].
    rewrite elem_of_cons, He. naive_solver.
  - split; [done|]. split; [done|]. intros _. right. left.
Qed.

Lemma carries_left r id f : Forall (λ f, carries id f) (fwd_left r id f).
Proof.
  destruct f; [apply carries_sends|apply carries_body| |].
  - constructor; [by apply bool_decide_pack|]. apply carries_after, carries_body.
  - repeat constructor. by apply bool_decide_pack.
Qed.

Lemma continues_carries r id f l left' :
  continues (Some (fwd_left r id f)) l left' → Forall (λ f, carries id f) l.
Proof.
  intros Hc. pose proof (carries_left r id f) as Hall. destruct left' as [l'|]; simpl in Hc.
  - rewrite <-Hc, Forall_app in Hall. by destruct Hall.
  - destruct Hc as [k Hc]. rewrite Hc, Forall_app in Hall. by destruct Hall.
Qed.

(** Only a handler in [forwardRequest] queues frames of a request. *)
Lemma http_forward_grown st r ctx self rd k f c st' out pc' new p id :
  http_step st r ctx self rd (PForward k f) c = Some (st', out, pc', new) →
  (p = k_sess k ∧ id = k_id k
   ∧ continues (http_left r (PForward k f)) (about id (grown st st' p)) (http_left r pc'))
  ∨ (¬ (p = k_sess k ∧ id = k_id k) ∧ about id (grown st st' p) = []).
Proof.
  intros Hs. destruct (http_forward_step _ _ _ _ _ _ _ _ _ _ _ _ Hs) as (_ & l & Hg & Hc).
  rewrite (grown_grows _ _ _ Hg). unfold only.
  pose proof (continues_carries _ _ _ _ _ Hc) as Hall.
  destruct (decide (p = k_sess k)) as [->|Hp]; [|right; by split; [intros [? _]|]].
  destruct (decide (id = k_id k)) as [->|Hid].
  - left. by rewrite about_all.
  - right. split; [by intros [_ ?]|]. by apply (about_other _ (k_id k)).
Qed.

Lemma is_forward pc : (∃ k f, pc = PForward k f) ∨ ∀ k f, pc ≠ PForward k f.
Proof. destruct pc; eauto. Qed.

Lemma thread_step_grown st ts t c st' t' new p id :
  thread_step st ts t c = Some (st', t', new) →
  (∀ r ctx out k f, t = THttp r ctx out (PForward k f) → ¬ (p = k_sess k ∧ id = k_id k)) →
  about id (grown st st' p) = [].
Proof.
  intros Hs Hn. destruct t as [r ctx out pc|q x pc|pc|q sent e|q run]; cbn [thread_step] in Hs;
    apply bind_Some in Hs as (y & Hs & Heq); repeat case_match; simplify_eq.
  - destruct (is_forward pc) as [(k & f & ->)|Hpc].
    + by destruct (http_forward_grown _ _ _ _ _ _ _ _ _ _ _ _ p id Hs) as [(? & ? & _)|[_ ?]];
        [edestruct Hn|].
    + by eapply grown_control, http_other_murmurs.
  - by eapply grown_socket, reader_step_murmurs.
  - by eapply grown_control, silent_murmurs, conn_step_grows.
  - destruct (send_step_queue _ _ _ _ _ _ _ _ Hs) as [(-> & _)|(f & Ht & _)].
    + by eapply grown_control, silent_murmurs, grows_same.
    + by rewrite (grown_takes _ _ _ _ Ht).
  - by eapply grown_control, beat_step_murmurs.
Qed.

(** ** The record of a run *)

(** The frames queued on session [p] along a run. *)
Fixpoint queued (w : world) (ls : list label) (p : nat) : list ServerFrame :=
  match ls with
  | [] => []
  | l :: ls =>
    match exec w l with
    | Some w' => grown (st w) (st w') p ++ queued w' ls p
    | None => []
    end
  end.

(** The record [h] and the handlers. *)
Record forwards (h : nat → list ServerFrame) (w : world) : Prop := {
  fw_fresh : ∀ n p, (nextRequestID (srv (st w)) < n)%Z → about (FormatUint n) (h p) = [];
  fw_drawn : ∀ i r ctx out pc id p, threads w !! i = Some (THttp r ctx out pc) →
    http_ident pc = Some id → http_holds pc = None → about id (h p) = [];
  fw_holds : ∀ i r ctx out pc p id q, threads w !! i = Some (THttp r ctx out pc) →
    http_holds pc = Some (p, id, q) → told r id (http_left r pc) (about id (h p));
  fw_whose : ∀ p id, about id (h p) = [] ∨
    ∃ i r ctx out pc, threads w !! i = Some (THttp r ctx out pc)
      ∧ about id (h p) `prefix_of` sends r id }.

(** What a step of a handler leaves of the ids that are drawn but not registered. *)
Lemma http_step_drawn st r ctx self rd pc c st' out pc' new id :
  http_step st r ctx self rd pc c = Some (st', out, pc', new) →
  http_ident pc' = Some id → http_holds pc' = None →
  (http_ident pc = Some id ∧ http_holds pc = None)
  ∨ (id = FormatUint (wrap_u64 (nextRequestID (srv st) + 1))
     ∧ nextRequestID (srv st') = wrap_u64 (nextRequestID (srv st) + 1)).
Proof.
  intros Hs Hi Hh. destruct (http_step_abs _ _ _ _ _ _ _ _ _ _ _ Hs); simplify_eq/=; try congruence.
  - left. split; congruence.
  - by right.
  - by left.
Qed.

(** The step of a handler, for its own record. *)
Lemma http_step_told st r ctx self rd pc c st' out pc' new p id q F :
  http_step st r ctx self rd pc c = Some (st', out, pc', new) →
  http_holds pc' = Some (p, id, q) →
  (∀ ws, pc = PTryStart p id ws → F = []) →
  (http_holds pc = Some (p, id, q) → told r id (http_left r pc) F) →
  told r id (http_left r pc') (F ++ about id (grown st st' p)).
Proof.
  intros Hs Hh Hnew Hold. destruct (is_forward pc) as [(k & f & ->)|Hpc].
  - destruct (http_forward_step _ _ _ _ _ _ _ _ _ _ _ _ Hs) as (Heq & _).
    rewrite Heq in Hh. specialize (Hold Hh). injection Hh as <- <- <-.
    destruct (http_forward_grown _ _ _ _ _ _ _ _ _ _ _ _ (k_sess k) (k_id k) Hs)
      as [(_ & _ & Hc)|[Hn _]]; [by eapply told_continues|by destruct Hn].
  - rewrite (grown_control _ _ _ _ (http_other_murmurs _ _ _ _ _ _ _ _ _ _ _ Hs Hpc)), app_nil_r.
    destruct (http_other_left _ _ _ _ _ _ _ _ _ _ _ _ _ _ Hs Hpc Hh) as [[Hp Hc]|(ws & -> & ->)].
    + rewrite <-(app_nil_r F). eapply told_continues; eauto.
    + by rewrite (Hnew ws).
Qed.

(** Handlers after a step of the thread [i]. *)
Lemma handlers_after w i t' new j r ctx out pc :
  Forall idle new → (<[i := t']> (threads w) ++ new) !! j = Some (THttp r ctx out pc) →
  http_ident pc ≠ None →
  (j = i ∧ t' = THttp r ctx out pc) ∨ (j ≠ i ∧ threads w !! j = Some (THttp r ctx out pc)).
Proof.
  intros Hnew [Hj|Hj]%lookup_app_idle Hid; [| |done].
  - apply insert_lookup_cases in Hj as [(<- & <- & _)|[? Hj]]; auto.
  - by destruct (idle_ident _ Hj).
Qed.

Section step.
Context (h : nat → list ServerFrame) (w : world) (i : nat) (t : thread) (c : choice).
Context (st' : state) (t' : thread) (new : list thread).
Hypothesis Hfw : forwards h w.
Hypothesis Hinv : inv w.
Hypothesis Hnext : (nextRequestID (srv (st w)) < 2^64 - 1)%Z.
Hypothesis Hi : threads w !! i = Some t.
Hypothesis Hs : thread_step (st w) (threads w) t c = Some (st', t', new).

Let w' := mkWorld st' (<[i := t']> (threads w) ++ new).
Let g := grown (st w) st'.

(** Frames of a request are queued under the id of the handler that steps. *)
Lemma grown_own p id : about id (g p) = [] ∨ ident t = Some id.
Proof.
  destruct (decide (about id (g p) = [])) as [|Hne]; [by left|right].
  destruct (decide (ident t = Some id)) as [|Hid]; [done|]. destruct Hne.
  eapply thread_step_grown; [exact Hs|]. intros r ctx out k f -> [_ ->]. by apply Hid.
Qed.

Lemma step_idle : Forall idle new.
Proof. by destruct (thread_step_abs _ _ _ _ _ _ _ Hs). Qed.

(** Other handlers have other ids. *)
Lemma grown_others j u id p :
  threads w !! j = Some u → j ≠ i → ident u = Some id → about id (g p) = [].
Proof.
  intros Hj Hne Hu. destruct (grown_own p id) as [?|Ht]; [done|].
  destruct Hne. by eapply inv_unique.
Qed.

Lemma forwards_fresh n p :
  (nextRequestID (srv st') < n)%Z → about (FormatUint n) (h p ++ g p) = [].
Proof.
  intros Hn. destruct (thread_step_abs _ _ _ _ _ _ _ Hs) as [Habs _].
  destruct (thread_abs_ids _ _ _ _ _ Hinv Hnext Hi Habs) as [[Hle _] _].
  rewrite about_app, (fw_fresh _ _ Hfw) by lia.
  destruct (grown_own p (FormatUint n)) as [->|Hid]; [done|].
  destruct (inv_ident _ Hinv _ _ _ Hi Hid) as (m & Heq & Hm).
  apply FormatUint_inj in Heq; lia.
Qed.

Lemma forwards_drawn j r ctx out pc id p :
  threads w' !! j = Some (THttp r ctx out pc) → http_ident pc = Some id →
  http_holds pc = None → about id (h p ++ g p) = [].
Proof.
  pose proof grown_own as Hown. pose proof grown_others as Hothers.
  intros Hj Hid Hh. rewrite about_app.
  destruct (handlers_after _ _ _ _ _ _ _ _ _ step_idle Hj) as [[-> ->]|[Hne Hj']]; [congruence|..].
  - destruct (thread_step_http _ _ _ _ _ _ _ Hs)
      as [(r0 & ctx0 & out0 & pc0 & ev & pc' & -> & Heq & Hstep)|Hn]; [|by destruct (Hn r ctx out pc)].
    simplify_eq.
    destruct (http_step_drawn _ _ _ _ _ _ _ _ _ _ _ _ Hstep Hid Hh) as [[Hid0 Hh0]|[-> Hn']].
    + rewrite (fw_drawn _ _ Hfw _ _ _ _ _ _ _ Hi Hid0 Hh0). destruct (is_forward pc0) as [(k & f & ->)|Hpc].
      * done.
      * by eapply grown_control, http_other_murmurs.
    + pose proof (inv_next _ Hinv). rewrite wrap_u64_small in * by lia.
      rewrite (fw_fresh _ _ Hfw) by lia.
      destruct (Hown p (FormatUint (nextRequestID (srv (st w)) + 1))) as [->|Ht]; [done|].
      destruct (inv_ident _ Hinv _ _ _ Hi Ht) as (m & Heq & Hm). apply FormatUint_inj in Heq; lia.
  - rewrite (fw_drawn _ _ Hfw _ _ _ _ _ _ _ Hj' Hid Hh). by eapply Hothers.
Qed.

Lemma holds_some_ident pc p id q : http_holds pc = Some (p, id, q) → http_ident pc = Some id.
Proof. exact (holds_ident (THttp (mkRequest "" "" "" "" "" "" false ∅ None false) None [] pc) p id q). Qed.

Lemma forwards_holds j r ctx out pc p id q :
  threads w' !! j = Some (THttp r ctx out pc) → http_holds pc = Some (p, id, q) →
  told r id (http_left r pc) (about id (h p ++ g p)).
Proof.
  pose proof grown_others as Hothers. intros Hj Hh. pose proof (holds_some_ident _ _ _ _ Hh) as Hid. rewrite about_app.
  destruct (handlers_after _ _ _ _ _ _ _ _ _ step_idle Hj) as [[-> ->]|[Hne Hj']]; [congruence|..].
  - destruct (thread_step_http _ _ _ _ _ _ _ Hs)
      as [(r0 & ctx0 & out0 & pc0 & ev & pc' & -> & Heq & Hstep)|Hn]; [|by destruct (Hn r ctx out pc)].
    simplify_eq. eapply http_step_told; [done..| |].
    + intros ws ->. by eapply (fw_drawn _ _ Hfw).
    + intros Hh0. by eapply (fw_holds _ _ Hfw).
  - rewrite (Hothers _ _ _ _ Hj' Hne Hid), app_nil_r. by eapply (fw_holds _ _ Hfw).
Qed.

Lemma forwards_whose p id : about id (h p ++ g p) = [] ∨
  ∃ j r ctx out pc, threads w' !! j = Some (THttp r ctx out pc)
    ∧ about id (h p ++ g p) `prefix_of` sends r id.
Proof.
  pose proof forwards_holds as Hholds. assert (threads w' !! i = Some t') as Hi'.
  { apply lookup_app_l_Some, list_lookup_insert_eq. by eapply lookup_lt_Some. }
  destruct (decide (about id (g p) = [])) as [Hg|Hg].
  - rewrite about_app, Hg, app_nil_r.
    destruct (fw_whose _ _ Hfw p id) as [->|(j & r & ctx & out & pc & Hj & Hpre)]; [by left|right].
    destruct (decide (j = i)) as [->|Hne].
    + destruct (thread_step_http _ _ _ _ _ _ _ Hs)
        as [(r0 & ctx0 & out0 & pc0 & ev & pc' & -> & -> & _)|Hn].
      * simplify_eq. by do 5 eexists.
      * simplify_eq. by destruct (Hn r ctx out pc).
    + exists j, r, ctx, out, pc. split; [|done]. apply lookup_app_l_Some.
      by rewrite list_lookup_insert_ne.
  - right. destruct (thread_step_http _ _ _ _ _ _ _ Hs)
      as [(r & ctx & out & pc & ev & pc' & -> & -> & Hstep)|Hn].
    + destruct (is_forward pc) as [(k & f & ->)|Hpc].
      * destruct (http_forward_grown _ _ _ _ _ _ _ _ _ _ _ _ p id Hstep)
          as [(-> & -> & _)|[_ ?]]; [|done].
        destruct (http_forward_step _ _ _ _ _ _ _ _ _ _ _ _ Hstep) as [Hh _].
        exists i, r, ctx, (out ++ ev), pc'. split; [done|].
        eapply told_prefix, Hholds; [exact Hi'|exact Hh].
      * destruct Hg. by eapply grown_control, http_other_murmurs.
    + destruct Hg. eapply thread_step_grown; [exact Hs|]. intros r ctx out k f ->.
      by destruct (Hn r ctx out (PForward k f)).
Qed.

Lemma forwards_thread : forwards (λ p, h p ++ g p) w'.
Proof.
  constructor; [apply forwards_fresh|apply forwards_drawn|apply forwards_holds|apply forwards_whose].
Qed.
End step.

(** *** Runs *)

Lemma forwards_ext h h' w : (∀ p, h p = h' p) → forwards h w → forwards h' w.
Proof. intros Heq []. constructor; intros; rewrite <-Heq; eauto. Qed.

Lemma grown_same st st' p : sessH st' = sessH st → grown st st' p = [].
Proof. intros Heq. by rewrite (grown_grows _ _ _ (grows_same _ _ Heq)). Qed.

Lemma forwards_step h w l w' :
  forwards h w → inv w → (nextRequestID (srv (st w)) < 2^64 - 1)%Z → exec w l = Some w' →
  forwards (λ p, h p ++ grown (st w) (st w') p) w'.
Proof.
  intros Hfw Hinv Hn Hl. destruct l as [i c|i e|r|]; cbn [exec] in Hl.
  - apply bind_Some in Hl as (t & Hi & ([[s t'] new] & Hs & [= <-])%bind_Some).
    by eapply forwards_thread.
  - apply bind_Some in Hl as (t & Hi & (t' & Hc & [= <-])%bind_Some).
    eapply (forwards_ext h); [intros p; by rewrite grown_same, app_nil_r|].
    destruct t as [r [] out pc| | | |]; simplify_eq/=. destruct Hfw as [Hf Hd Hh Hw].
    assert (∀ j r0 ctx0 out0 pc0, <[i:=THttp r (Some e) out pc]> (threads w) !! j
      = Some (THttp r0 ctx0 out0 pc0) → ∃ ctx1, threads w !! j = Some (THttp r0 ctx1 out0 pc0)) as Hall.
    { intros j r0 ctx0 out0 pc0 [(<- & ? & _)|[_ ?]]%insert_lookup_cases; simplify_eq; eauto. }
    constructor; simpl; [done|naive_solver..|].
    intros p id. destruct (Hw p id) as [?|(j & r0 & ctx0 & out0 & pc0 & Hj & Hp)]; [by left|right].
    destruct (decide (j = i)) as [->|Hne].
    + simplify_eq. do 5 eexists. split; [|exact Hp].
      apply list_lookup_insert_eq. by eapply lookup_lt_Some.
    + do 5 eexists. split; [|exact Hp]. by rewrite list_lookup_insert_ne.
  - simplify_eq. eapply (forwards_ext h); [intros p; by rewrite grown_same, app_nil_r|].
    destruct Hfw as [Hf Hd Hh Hw]. constructor; simpl; [done|..].
    + intros j r0 ctx out pc id p [?|[_ ?]]%lookup_snoc_cases; [by eapply Hd|by simplify_eq].
    + intros j r0 ctx out pc p id q [?|[_ ?]]%lookup_snoc_cases; [by eapply Hh|by simplify_eq].
    + intros p id. destruct (Hw p id) as [?|(j & r0 & ctx & out & pc & ? & ?)]; [by left|right].
      exists j, r0, ctx, out, pc. split; [by apply lookup_app_l_Some|done].
  - simplify_eq. eapply (forwards_ext h); [intros p; by rewrite grown_same, app_nil_r|].
    destruct Hfw as [Hf Hd Hh Hw]. constructor; simpl; [done|..].
    + intros j r0 ctx out pc id p [?|[_ ?]]%lookup_snoc_cases; [by eapply Hd|done].
    + intros j r0 ctx out pc p id q [?|[_ ?]]%lookup_snoc_cases; [by eapply Hh|done].
    + intros p id. destruct (Hw p id) as [?|(j & r0 & ctx & out & pc & ? & ?)]; [by left|right].
      exists j, r0, ctx, out, pc. split; [by apply lookup_app_l_Some|done].
Qed.

Lemma forwards_run h w ls w' :
  forwards h w → inv w → (nextRequestID (srv (st w)) + Z.of_nat (length ls) < 2^64)%Z →
  run w ls = Some w' → forwards (λ p, h p ++ queued w ls p) w'.
Proof.
  revert h w. induction ls as [|l ls IH]; intros h w Hfw Hinv Hn; simpl.
  { intros [= <-]. eapply forwards_ext; [|done]. intros p. by rewrite app_nil_r. }
  intros (w1 & Hl & Hr)%bind_Some. simpl in Hn.
  destruct (inv_step w l w1 Hinv) as [Hinv1 Hle]; [lia|done|].
  eapply forwards_ext; [|eapply IH; [eapply forwards_step; [done..|lia|done]|done|lia|done]].
  intros p. simpl. by rewrite Hl, app_assoc.
Qed.

Lemma forwards_init s : forwards (λ _, []) (init_world s).
Proof. constructor; [done..|by left]. Qed.

(** ** The stream *)

(** The thread that sends, or is about to start the one that sends, for session [p]. *)
Definition sender (t : thread) : option nat :=
  match t with
  | TSend p _ _ => Some p
  | TConn (CReplEnter p _) | TConn (CReplFail p _) | TConn (CReplRelease p _)
  | TConn (CSpawn p) => Some p
  | _ => None
  end.

(** What has been sent, against the record [l] and the queue [q] of the session. *)
Definition streams (t : thread) (l q : list ServerFrame) : Prop :=
  match t with
  | TSend _ sent None => l = sent ++ q
  | TSend _ sent (Some _) => sent `prefix_of` l
  | _ => l = q
  end.

Record fifo (h : nat → list ServerFrame) (w : world) : Prop := {
  fifo_len : ∀ i t p, threads w !! i = Some t → sender t = Some p → p < length (sessH (st w));
  fifo_unique : ∀ i j t u p, threads w !! i = Some t → threads w !! j = Some u →
    sender t = Some p → sender u = Some p → i = j;
  fifo_fresh : ∀ p, length (sessH (st w)) ≤ p → h p = [];
  fifo_sent : ∀ i t p, threads w !! i = Some t → sender t = Some p →
    streams t (h p) (queue_of (st w) p) }.

(** A session's sender is created with it, passes the task on once, and keeps it. *)
Lemma conn_step_sender st self res pc c st' pc' new :
  conn_step st self res pc c = Some (st', pc', new) →
  (sender (TConn pc') = sender (TConn pc) ∧ Forall (λ t, sender t = None) new)
  ∨ (pc = CFirst ∧ new = [] ∧ length (sessH st') = S (length (sessH st))
     ∧ sender (TConn pc') = Some (length (sessH st)))
  ∨ ∃ p, pc = CSpawn p ∧ sender (TConn pc') = None ∧ new = [TSend p [] None; TBeat p true].
Proof.
  intros Hs. destruct pc; cbn [conn_step] in Hs; try done.
  1: { open_step; try (left; split; [done|apply Forall_nil_2]); right; left;
       simpl; rewrite length_app; simpl; (split_and!; [done|done|lia|by repeat (case_match; simplify_eq/=)]). }
  4: { open_step. right. right. by eexists. }
  all: left; open_step; simplify_eq; split; try constructor; by repeat case_match.
Qed.

Lemma streams_grows t l q g :
  streams t l q → streams t (l ++ g) (q ++ g).
Proof.
  destruct t as [| | |p sent [e|]|]; simpl; try (by intros ->).
  - intros Hp. by apply prefix_app_r.
  - intros ->. by rewrite app_assoc.
Qed.

Lemma thread_step_sessions st ts t c st' t' new :
  thread_step st ts t c = Some (st', t', new) → length (sessH st) ≤ length (sessH st').
Proof.
  intros Hs. destruct (thread_step_abs _ _ _ _ _ _ _ Hs) as [Habs _].
  destruct (decide (length (sessH st) ≤ length (sessH st'))) as [|Hlt]; [done|].
  destruct (lookup_lt_is_Some_2 (sessH st) (length (sessH st'))) as [s Hp]; [lia|].
  destruct (Routing.thread_abs_keeps _ _ _ _ _ _ Habs Hp) as (s' & Hs'%lookup_lt_Some & _). lia.
Qed.

(** What one step does to the queues: they grow, or a send loop takes a frame. *)
Lemma thread_step_queues st ts t c st' t' new :
  thread_step st ts t c = Some (st', t', new) →
  (∃ g, grows g st st' ∧ ∀ p sent e, t = TSend p sent e → ∃ x, t' = TSend p sent (Some x))
  ∨ ∃ p sent f, takes st st' p f ∧ t = TSend p sent None ∧ new = []
      ∧ (t' = TSend p (sent ++ [f]) None ∨ ∃ x, t' = TSend p sent (Some x)).
Proof.
  intros Hs. destruct t as [r ctx out pc|q x pc|pc|q sent e|q run]; cbn [thread_step] in Hs;
    apply bind_Some in Hs as (y & Hs & Heq); repeat case_match; simplify_eq.
  - left. destruct (is_forward pc) as [(k & f & ->)|Hpc].
    + destruct (http_forward_step _ _ _ _ _ _ _ _ _ _ _ _ Hs) as (_ & l & Hg & _).
      eexists. by split.
    + destruct (http_other_murmurs _ _ _ _ _ _ _ _ _ _ _ Hs Hpc) as (g & Hg & _). exists g. by split.
  - left. destruct (reader_step_murmurs _ _ _ _ _ _ _ Hs) as (g & Hg & _). exists g. by split.
  - left. exists silent. split; [by eapply conn_step_grows|done].
  - destruct (send_step_queue _ _ _ _ _ _ _ _ Hs) as [(-> & -> & -> & x & ->)|(f & Ht & -> & Ho)].
    + left. exists silent. split; [by apply grows_same|]. intros; simplify_eq. eauto.
    + right. exists q, sent, f. split_and!; [done..|].
      destruct Ho as [[-> ->]|[-> [x ->]]]; eauto.
  - left. destruct (beat_step_murmurs _ _ _ _ _ _ Hs) as (g & Hg & _). exists g. by split.
Qed.

(** Who sends for a session after a step. *)
Lemma thread_step_sender st ts t c st' t' new :
  thread_step st ts t c = Some (st', t', new) →
  (sender t' = sender t ∧ Forall (λ u, sender u = None) new)
  ∨ (sender t = None ∧ new = [] ∧ (∀ p sent e, t' ≠ TSend p sent e)
     ∧ length (sessH st') = S (length (sessH st)) ∧ sender t' = Some (length (sessH st)))
  ∨ ∃ p, t = TConn (CSpawn p) ∧ sender t' = None ∧ new = [TSend p [] None; TBeat p true].
Proof.
  intros Hs. destruct t as [r ctx out pc|q x pc|pc|q sent e|q run]; cbn [thread_step] in Hs;
    apply bind_Some in Hs as (y & Hs & Heq); repeat case_match; simplify_eq;
    try (left; split; [done|apply Forall_nil_2]).
  - left. split; [done|].
    destruct pc; cbn [http_step http_enter http_respond http_websocket http_exit] in Hs;
      try done; open_step; repeat constructor.
  - destruct (conn_step_sender _ _ _ _ _ _ _ _ Hs) as [[? ?]|[(-> & -> & ? & ?)|(p & -> & ? & ->)]].
    + by left.
    + right. left. by split_and!.
    + right. right. by exists p.
Qed.

(** Where the senders of the new state come from. *)
Lemma sender_origin st ts i t c st' t' new j u p :
  thread_step st ts t c = Some (st', t', new) → ts !! i = Some t →
  (<[i := t']> ts ++ new) !! j = Some u → sender u = Some p →
  (j ≠ i ∧ ts !! j = Some u)
  ∨ (j = i ∧ u = t' ∧ sender t = Some p)
  ∨ (j = i ∧ u = t' ∧ sender t = None ∧ (∀ p sent e, t' ≠ TSend p sent e)
     ∧ p = length (sessH st) ∧ length (sessH st') = S (length (sessH st)))
  ∨ (j = length ts ∧ u = TSend p [] None ∧ t = TConn (CSpawn p) ∧ sender t' = None).
Proof.
  intros Hs Hi Hj Hu. pose proof (thread_step_sender _ _ _ _ _ _ _ Hs) as Hsend.
  apply lookup_app_Some in Hj as [Hj|[Hge Hj]].
  - apply insert_lookup_cases in Hj as [(<- & <- & _)|[? Hj]]; [|by left]. right.
    destruct Hsend as [[Heq _]|[(Hn & -> & Ht & Hlen & Heq)|(q & -> & Hn & _)]].
    + left. split_and!; congruence.
    + right. left. split_and!; congruence.
    + congruence.
  - rewrite length_insert in Hge, Hj.
    destruct Hsend as [[_ Hn]|[(_ & -> & _)|(q & -> & Hn & ->)]].
    + eapply Forall_lookup_1 in Hn; [|done]. congruence.
    + done.
    + right. right. right. destruct (j - length ts) as [|[|?]] eqn:E; simplify_eq/=.
      split_and!; [lia|done..].
Qed.

Lemma streams_own st ts t c st' t' new l p :
  thread_step st ts t c = Some (st', t', new) → sender t = Some p → sender t' = Some p →
  streams t l (queue_of st p) → streams t' (l ++ grown st st' p) (queue_of st' p).
Proof.
  intros Hs Ht Ht' Hst.
  destruct (thread_step_queues _ _ _ _ _ _ _ Hs) as [(g & Hg & Hn)|(q & sent & f & Htk & -> & _ & Ho)].
  - rewrite (grown_grows _ _ _ Hg), (Hg p).
    destruct t as [| |pc|q sent e|]; try done.
    + cbn [thread_step] in Hs. apply bind_Some in Hs as ([[s1 pc1] n1] & _ & Heq). simplify_eq.
      change (l = queue_of st p) in Hst. by rewrite Hst.
    + destruct (Hn _ _ _ eq_refl) as [x ->]. simpl in *.
      destruct e; [by apply prefix_app_r|]. subst l. rewrite <-app_assoc. by apply prefix_app_r.
  - simplify_eq/=. rewrite (grown_takes _ _ _ _ Htk), app_nil_r. destruct Htk as [Hq _].
    rewrite Hq. destruct Ho as [->|[x ->]]; simpl.
    + by rewrite <-app_assoc.
    + by eexists.
Qed.

Lemma streams_other st ts t c st' t' new u l p :
  thread_step st ts t c = Some (st', t', new) → sender t ≠ Some p →
  streams u l (queue_of st p) → streams u (l ++ grown st st' p) (queue_of st' p).
Proof.
  intros Hs Ht Hst.
  destruct (thread_step_queues _ _ _ _ _ _ _ Hs) as [(g & Hg & _)|(q & sent & f & Htk & -> & _)].
  - rewrite (grown_grows _ _ _ Hg), (Hg p). by apply streams_grows.
  - rewrite (grown_takes _ _ _ _ Htk), app_nil_r. destruct Htk as [_ Hq].
    rewrite Hq; [done|]. by intros ->.
Qed.

Lemma fifo_thread h w i t c st' t' new :
  fifo h w → threads w !! i = Some t → thread_step (st w) (threads w) t c = Some (st', t', new) →
  fifo (λ p, h p ++ grown (st w) st' p) (mkWorld st' (<[i := t']> (threads w) ++ new)).
Proof.
  intros [Hlen Huniq Hfresh Hsent] Hi Hs. pose proof (thread_step_sessions _ _ _ _ _ _ _ Hs) as Hle.
  pose proof (λ j u p, sender_origin _ _ i _ _ _ _ _ j u p Hs Hi) as Horig.
  assert (∀ p, length (sessH (st w)) ≤ p → queue_of (st w) p = []) as Hq.
  { intros p Hp. unfold queue_of. by rewrite lookup_ge_None_2. }
  constructor; cbn [st threads].
  - intros j u p Hj Hu. destruct (Horig _ _ _ Hj Hu) as
      [[_ Hj']|[(_ & _ & Ht)|[(_ & _ & _ & _ & -> & ->)|(_ & _ & -> & _)]]]; [..|lia|].
    + specialize (Hlen _ _ _ Hj' Hu). lia.
    + specialize (Hlen _ _ _ Hi Ht). lia.
    + specialize (Hlen _ _ _ Hi eq_refl). lia.
  - intros j k u v p Hj Hk Hu Hv.
    destruct (Horig _ _ _ Hj Hu) as
      [[Hnj Hj']|[(-> & -> & Ht)|[(-> & -> & _ & _ & Hp & _)|(-> & -> & Ht & Hn)]]],
      (Horig _ _ _ Hk Hv) as
      [[Hnk Hk']|[(-> & -> & Ht2)|[(-> & -> & Hn2 & _ & Hp2 & _)|(-> & -> & Ht2 & Hn2)]]];
      try done; try congruence; try (by eapply Huniq);
      try (exfalso; pose proof (Hlen _ _ _ Hj' Hu); lia);
      try (exfalso; pose proof (Hlen _ _ _ Hk' Hv); lia).
    + exfalso. apply Hnj. by eapply (Huniq _ _ _ _ p Hj' Hi Hu); subst.
    + exfalso. apply Hnk. by eapply (Huniq _ _ _ _ p Hk' Hi Hv); subst.
  - intros p Hp. rewrite Hfresh by lia. simpl. unfold grown, queue_of.
    rewrite (lookup_ge_None_2 (sessH st')) by lia. apply drop_nil.
  - intros j u p Hj Hu. destruct (Horig _ _ _ Hj Hu) as
      [[Hnj Hj']|[(-> & -> & Ht)|[(-> & -> & Hn & Hns & -> & _)|(-> & -> & -> & Hn)]]].
    + eapply streams_other; [done| |by eapply Hsent]. intros Ht. by destruct Hnj; eapply Huniq.
    + eapply streams_own; [done..|]. by eapply Hsent.
    + eapply streams_other; [done|congruence|]. rewrite Hfresh, Hq by lia.
      destruct t'; try done. by destruct (Hns p sent sendErr).
    + pose proof (Hsent _ _ _ Hi eq_refl) as Hst. simpl in Hst. rewrite Hst.
      destruct (thread_step_queues _ _ _ _ _ _ _ Hs) as [(g & Hg & _)|(q & sent & f & _ & ? & _)]; [|done].
      rewrite (grown_grows _ _ _ Hg), (Hg p). done.
Qed.

Lemma fifo_ext h h' w : (∀ p, h p = h' p) → fifo h w → fifo h' w.
Proof. intros Heq []. constructor; intros; rewrite <-?Heq; eauto. Qed.

Lemma fifo_step h w l w' :
  fifo h w → exec w l = Some w' → fifo (λ p, h p ++ grown (st w) (st w') p) w'.
Proof.
  intros Hf Hl. destruct l as [i c|i e|r|]; cbn [exec] in Hl.
  { apply bind_Some in Hl as (t & Hi & ([[st' t'] new] & Hs & [= <-])%bind_Some).
    by eapply fifo_thread. }
  { apply bind_Some in Hl as (t & Hi & (t' & Hc & [= <-])%bind_Some).
    eapply (fifo_ext h); [intros p; by rewrite grown_same, app_nil_r|].
    destruct t as [r [] out pc| | | |]; simplify_eq/=. destruct Hf as [Hlen Huniq Hfresh Hsent].
    assert (∀ j u p, <[i:=THttp r (Some e) out pc]> (threads w) !! j = Some u →
      sender u = Some p → threads w !! j = Some u) as Hall.
    { intros j u p [(<- & <- & _)|[_ ?]]%insert_lookup_cases; done. }
    constructor; simpl; eauto. }
  all: simplify_eq; eapply (fifo_ext h); [intros p; by rewrite grown_same, app_nil_r|].
  all: destruct Hf as [Hlen Huniq Hfresh Hsent]; constructor; cbn [st threads]; [..|done|].
  all: try (intros j u p [?|[_ <-]]%lookup_snoc_cases Hu; [eauto|done]).
  all: intros j k u v p [?|[_ <-]]%lookup_snoc_cases [?|[_ <-]]%lookup_snoc_cases Hu Hv; try done;
    by eapply Huniq.
Qed.

Lemma fifo_run h w ls w' :
  fifo h w → run w ls = Some w' → fifo (λ p, h p ++ queued w ls p) w'.
Proof.
  revert h w. induction ls as [|l ls IH]; intros h w Hf; simpl.
  { intros [= <-]. eapply (fifo_ext h); [|done]. intros p. by rewrite app_nil_r. }
  intros (w1 & Hl & Hr)%bind_Some.
  eapply fifo_ext; [|by eapply IH; [by eapply fifo_step|]].
  intros p. simpl. by rewrite Hl, app_assoc.
Qed.

Lemma fifo_init s : fifo (λ _, []) (init_world s).
Proof. constructor; by intros []. Qed.

Lemma run_forwards cfg s ls w :
  New cfg = Ok s → (MaxTotalInflight cfg ≤ max_i64)%Z → (Z.of_nat (length ls) < 2^64)%Z →
  run (init_world s) ls = Some w →
  forwards (queued (init_world s) ls) w ∧ fifo (queued (init_world s) ls) w.
Proof.
  intros Hnew Hmax Hlen Hrun. destruct (New_valid _ _ Hnew) as [_ (_ & _ & _ & _ & _ & _ & Htot & _ & _ & Hreq)].
  split; [|exact (fifo_run _ _ _ _ (fifo_init s) Hrun)].
  apply (forwards_run (λ _, []) (init_world s)); [apply forwards_init| |simpl; lia|done].
  apply inv_init; [by eapply New_limits|done..].
Qed.

(** What a send loop has sent is what was queued, from its beginning. *)
Lemma fifo_prefix h w i p sent e :
  fifo h w → threads w !! i = Some (TSend p sent e) → sent `prefix_of` h p.
Proof.
  intros Hf Hi. pose proof (fifo_sent _ _ Hf _ _ _ Hi eq_refl) as Hst. destruct e; simpl in Hst; [done|].
  rewrite Hst. by apply prefix_app_r.
Qed.

Lemma sent_whose cfg s ls w i p sent e id :
  New cfg = Ok s → (MaxTotalInflight cfg ≤ max_i64)%Z → (Z.of_nat (length ls) < 2^64)%Z →
  run (init_world s) ls = Some w → threads w !! i = Some (TSend p sent e) →
  about id sent = [] ∨ ∃ j r ctx out pc, threads w !! j = Some (THttp r ctx out pc)
    ∧ about id sent `prefix_of` sends r id.
Proof.
  intros Hnew Hmax Hlen Hrun Hi. destruct (run_forwards _ _ _ _ Hnew Hmax Hlen Hrun) as [Hfw Hff].
  pose proof (about_prefix id _ _ (fifo_prefix _ _ _ _ _ _ Hff Hi)) as Hpre.
  destruct (fw_whose _ _ Hfw p id) as [Hn|(j & r & ctx & out & pc & Hj & Hr)].
  - left. rewrite Hn in Hpre. by apply prefix_nil_inv in Hpre.
  - right. exists j, r, ctx, out, pc. split; [done|]. by etrans.
Qed.

(** C12. Requests are forwarded whole, in order and unmixed, under every interleaving: what
    a session's stream carries under a request id is an initial part of the frames of one
    browser's request (its start with method, host, path, query and headers, the pieces of
    its body as they were read, and the end exactly if the body ended without an error);
    and once a handler waits for its response, all of it has been queued, so that a stream
    that has caught up with its queue carries exactly these frames. *)
Theorem requests_forwarded cfg s ls w :
  New cfg = Ok s → (MaxTotalInflight cfg ≤ max_i64)%Z → (Z.of_nat (length ls) < 2^64)%Z →
  run (init_world s) ls = Some w →
  (∀ i p sent e id, threads w !! i = Some (TSend p sent e) → about id sent ≠ [] →
     ∃ j r ctx out pc, threads w !! j = Some (THttp r ctx out pc)
       ∧ about id sent `prefix_of` sends r id)
  ∧ (∀ i r ctx out pc p id q j sent,
       threads w !! i = Some (THttp r ctx out pc) → http_holds pc = Some (p, id, q) →
       http_left r pc = Some [] → threads w !! j = Some (TSend p sent None) →
       about id sent ++ about id (queue_of (st w) p) = sends r id).
Proof.
  intros Hnew Hmax Hlen Hrun. split.
  - intros i p sent e id Hi Hne.
    by destruct (sent_whose _ _ _ _ _ _ _ _ id Hnew Hmax Hlen Hrun Hi).
  - destruct (run_forwards _ _ _ _ Hnew Hmax Hlen Hrun) as [Hfw Hff].
    intros i r ctx out pc p id q j sent Hi Hh Hleft Hj.
    pose proof (fw_holds _ _ Hfw _ _ _ _ _ _ _ _ Hi Hh) as Ht. rewrite Hleft in Ht. simpl in Ht.
    rewrite app_nil_r, (fifo_sent _ _ Hff _ _ _ Hj eq_refl), about_app in Ht. exact Ht.
Qed.
End forward.

(** ** A request with a body *)

Section witnesses.
Import Scenario.

Definition post : Request :=
  mkRequest "demo.example.com" "POST" "/up" "" "" "192.0.2.1:5" true ∅
    (Some [("ab", None); ("", None); ("c", Some EOF)]) true.

(** It is registered and forwarded; the send loop, thread 1, sends all but the end. *)
Definition upload : list label :=
  connect ++ [LRequest post] ++ replicate 5 (LStep 3 Go)
  ++ [LStep 3 OnSend; LStep 3 Go; LStep 3 OnSend; LStep 3 Go; LStep 3 Go; LStep 3 OnSend;
      LStep 3 OnSend; LStep 1 OnSend; LStep 1 OnSend; LStep 1 OnSend].

Definition uploaded : list ServerFrame :=
  [ServerFrame_RequestStart (request_start post "1"); ServerFrame_RequestBody "1" "ab";
   ServerFrame_RequestBody "1" "c"].

Example requests_forwarded_witness :
  uploaded `prefix_of` sends post "1"
  ∧ uploaded ++ [ServerFrame_RequestEnd "1"] = sends post "1"
  ∧ ∃ j r ctx out pc, threads (after upload) !! j = Some (THttp r ctx out pc)
      ∧ uploaded `prefix_of` sends r "1".
Proof.
  destruct (requests_forwarded config server upload (after upload)) as [Hsent Hall];
    [exact server_new|done|done|vm_compute; reflexivity|].
  assert (uploaded ++ [ServerFrame_RequestEnd "1"] = sends post "1") as Hs.
  { refine (Hall 3 post None [] (PWait (mkK 0 "1" 0 None)) 0 "1" 0 1 uploaded _ _ _ _);
      vm_compute; reflexivity. }
  split; [rewrite <-Hs; by eexists|]. split; [exact Hs|].
  refine (Hsent 1 0 uploaded None "1" _ _); [vm_compute; reflexivity|done].
Defined.
End witnesses.
