(* ===== verification/Wire.v ===== *)
(** * What can be encoded on the stream of a session.

    The frames are proto3 messages, whose [string] fields have to be UTF-8:
    [stream.Send] fails for a message it cannot encode, and the send loop of [Connect] ends
    with the first failure.  Strings of a [RequestStart] come from the browser as they are,
    the path after percent-decoding. *)

From S2P Require Import Prelude GoStrings Hostnames Proto Headers Channels ResponseState Server.
From S2P Require Import Steps Scenario Origins Frames Forward.

(** [utf8.ValidString]. *)
Definition ValidString (s : string) : bool :=
  forallb (λ r, negb (bool_decide (r = (rune_error, 1)))) (runes s).

(** The [string] fields of a frame of the edge (proto/tunnel.proto). *)
Definition header_texts (h : option Header) : list string :=
  match h with Some h => Key h :: Values h | None => [] end.
Definition texts (f : ServerFrame) : list string :=
  match f with
  | ServerFrame_RequestStart m =>
    [rs_RequestId m; Method m; Scheme m; Host m; Path m; RawQuery m; RemoteAddr m; RawPath m]
    ++ mjoin (header_texts <$> rs_Headers m)
  | ServerFrame_RequestBody id _ | ServerFrame_RequestEnd id | ServerFrame_CancelRequest id
  | ServerFrame_WsData id _ | ServerFrame_WsClose id => [id]
  | _ => []
  end.

Section wire.
Context `{UnicodeData} (encodes : ServerFrame → bool).
Hypothesis encodes_utf8 : ∀ f, encodes f = true → forallb ValidString (texts f) = true.

(** The frame a step hands to the stream and that [stream.Send] takes. *)
Definition sending (w : world) (l : label) : option ServerFrame :=
  match l with
  | LStep i OnSend =>
    match threads w !! i with
    | Some (TSend p _ None) => s ← sessH (st w) !! p; fst <$> chan_recv (outbound s)
    | _ => None
    end
  | _ => None
  end.

(** A run in which [stream.Send] takes only what it can encode. *)
Fixpoint wired (w : world) (ls : list label) : bool :=
  match ls with
  | [] => true
  | l :: ls =>
    from_option encodes true (sending w l)
    && match exec w l with Some w' => wired w' ls | None => true end
  end.

Definition all_encoded (w : world) : Prop :=
  ∀ i p sent e, threads w !! i = Some (TSend p sent e) → Forall encodes sent.

Lemma send_step_encoded w i p sent e c st' sent' e' :
  threads w !! i = Some (TSend p sent e) →
  send_step (st w) p sent e c = Some (st', sent', e') →
  from_option encodes true (sending w (LStep i c)) = true →
  Forall encodes sent → Forall encodes sent'.
Proof.
  intros Hi Hs He Hall. unfold send_step in Hs. destruct e; [done|].
  destruct c; try done; open_step; simplify_eq; try done.
  apply Forall_app. split; [done|]. constructor; [|done].
  unfold sending in He. rewrite Hi in He. simpl in He.
  repeat match goal with Hx : ?x = Some _ |- _ => rewrite Hx in He; simpl in He end.
  by rewrite He.
Qed.

Lemma exec_encoded w l w' :
  exec w l = Some w' → from_option encodes true (sending w l) = true →
  all_encoded w → all_encoded w'.
Proof.
  intros Hl He Hall j p sent e Hj. destruct l as [i c|i x|r|]; cbn [exec] in Hl.
  - apply bind_Some in Hl as (t & Hi & ([[st' t'] new] & Hs & [= <-])%bind_Some).
    cbn [threads] in Hj. apply lookup_app_Some in Hj as [Hj|[_ Hj]].
    + apply insert_lookup_cases in Hj as [(<- & Ht & _)|[_ Hj]]; [|by eapply Hall].
      destruct t; cbn [thread_step] in Hs; apply bind_Some in Hs as (y & Hs & Heq);
        repeat case_match; simplify_eq.
      eapply send_step_encoded; [exact Hi|exact Hs|exact He|by eapply Hall].
    + assert (sent = []) as ->; [|constructor].
      pose proof (list_elem_of_lookup_2 _ _ _ Hj) as Hin.
      destruct t as [? ? ? pc| |pc| |]; cbn [thread_step] in Hs; apply bind_Some in Hs as (y & Hs & Heq);
        repeat case_match; simplify_eq; try (by apply elem_of_nil in Hin).
      * destruct pc; cbn [http_step http_enter http_respond http_websocket http_exit] in Hs;
          try done; open_step; set_solver.
      * destruct pc; cbn [conn_step] in Hs; try done; open_step; set_solver.
  - apply bind_Some in Hl as (t & Hi & (t' & Ht & [= <-])%bind_Some). cbn [threads] in Hj.
    apply insert_lookup_cases in Hj as [(<- & -> & _)|[_ Hj]]; [|by eapply Hall].
    by destruct t as [? [] | | | |].
  - simplify_eq. apply lookup_snoc_cases in Hj as [Hj|[_ ?]]; [by eapply Hall|done].
  - simplify_eq. apply lookup_snoc_cases in Hj as [Hj|[_ ?]]; [by eapply Hall|done].
Qed.

Lemma run_encoded w ls w' :
  run w ls = Some w' → wired w ls = true → all_encoded w → all_encoded w'.
Proof.
  revert w. induction ls as [|l ls IH]; intros w; simpl; [by intros [= <-]|].
  intros (w1 & Hl & Hr)%bind_Some [He Hw]%andb_prop Hall. rewrite Hl in Hw.
  eapply IH; [done..|]. by eapply exec_encoded.
Qed.

(** A request that is not UTF-8 has a start that cannot be encoded. *)
Lemma bad_start r id :
  forallb ValidString [r_Method r; r_Path r; r_RawQuery r; r_Host r] = false →
  ¬ encodes (ServerFrame_RequestStart (request_start r id)).
Proof using encodes_utf8.
  intros Hbad He%Is_true_true%encodes_utf8. cbn [texts] in He.
  rewrite forallb_app in He. apply andb_prop in He as [He _]. simpl in He, Hbad.
  rewrite !andb_true_iff in He. destruct He as (_ & Hm & _ & Hh & Hp & Hq & _).
  by rewrite Hm, Hh, Hp, Hq in Hbad.
Qed.

End wire.

Section witnesses.
Import Scenario.

(** A path with a byte that is no UTF-8, as [GET /%FF] has it. *)
Definition bad_path : Request :=
  mkRequest "demo.example.com" "GET" (String "/" (String "255" "")) "/%FF" "" "192.0.2.1:5" true
    ∅ None true.

(** It is queued, and then a heartbeat, thread 2; the send loop, thread 1, can only fail. *)
Definition poison : list label :=
  connect ++ [LRequest bad_path] ++ replicate 5 (LStep 3 Go) ++ [LStep 3 OnSend; LStep 3 OnSend]
  ++ [LStep 2 (OnTick 7); LStep 1 (IOErr (ErrNew "grpc: error while marshaling: string field contains invalid UTF-8"))].

End witnesses.
