(* ===== verification/WebSocket.v ===== *)
(** * server: WebSocket messages in both directions.

    From the browser: the reader goroutine sends what it reads from the hijacked
    connection.  To the browser: [serveWebSocket] writes what the receive loop puts into
    the channel of the WebSocket.  As in Forward and Pipeline, what is queued is recorded
    along a run and compared with the two ends. *)

From S2P Require Import Prelude GoStrings Hostnames Proto Headers Channels ResponseState Server.
From S2P Require Import Frames Messages Steps Scenario Abstract Invariants Origins ServerConfig Routing Edge Forward.

Section websocket.
Context `{UnicodeData}.

(** ** From the browser *)

(** What a [Read] of the connection by goroutine [i] returned. *)
Definition read_by (i : nat) (l : label) : list string :=
  match l with
  | LStep j (Read data _) =>
    if decide (j = i) then (if bool_decide (data = "") then [] else [data]) else []
  | _ => []
  end.
Definition reads_by (ls : list label) (i : nat) : list string := mjoin (read_by i <$> ls).

(** What the reader has in its hands. *)
Definition unsent (pc : read_pc) : list string :=
  match pc with RBuffered data | RSend data _ => [data] | _ => [] end.

(** Points of a handler at which its reader has not been started. *)
Definition before (pc : http_pc) : bool :=
  match pc with
  | PWsLoop _ _ | PWsWrite _ _ _ | PCloseWS _ | PDelWS _ | PFinish _ => false
  | _ => true
  end.

(** A step of the reader sends what it held and holds what it has read; if the session is
    closed it may drop it. *)
Lemma reader_step_messages st p id pc c st' pc' i :
  reader_step st p id pc c = Some (st', pc') →
  ∃ l, grows (only p l) st st'
    ∧ (unsent pc ++ read_by i (LStep i c) = messages id l ++ unsent pc'
       ∨ (is_closed st p = true ∧ messages id l = [] ∧ unsent pc' = [] ∧ read_by i (LStep i c) = [])).
Proof.
  assert (∀ f c st1 e, sendFrame st p f c = Some (st1, e) →
    ∃ l, grows (only p l) st st1 ∧ read_by i (LStep i c) = []
      ∧ (l = [f] ∧ e = None ∨ l = [] ∧ is_closed st p = true ∧ is_Some e)) as Hsend.
  { intros f c0 st1 e Hs. eexists. split; [by eapply sendFrame_grows|].
    unfold sendFrame in Hs. destruct c0; try done; open_step; simplify_eq; eauto 6. }
  assert (∀ st1, st1 = st → grows (only p []) st st1) as Hsame.
  { intros st1 -> q. unfold only. destruct (decide _); by rewrite app_nil_r. }
  unfold reader_step. intros Hs. destruct pc as [|data| |data e| |]; try done.
  - destruct c; try done. exists []. split; [by apply Hsame; simplify_eq|left].
    simpl. rewrite decide_True by done. by case_bool_decide; simplify_eq.
  - apply bind_Some in Hs as ([st1 e] & Hs & Heq). simplify_eq.
    destruct (Hsend _ _ _ _ Hs) as (l & Hg & -> & [[-> _]|(-> & Hc & _)]).
    + eexists. split; [exact Hg|left]. simpl. by rewrite bool_decide_true.
    + eexists. split; [exact Hg|by right].
  - destruct c; try done. exists []. split; [by apply Hsame; simplify_eq|left].
    simpl. rewrite decide_True by done. by repeat case_match; simplify_eq.
  - apply bind_Some in Hs as ([st1 e1] & Hs & Heq). simplify_eq.
    destruct (Hsend _ _ _ _ Hs) as (l & Hg & -> & [[-> ->]|(-> & Hc & [x ->])]).
    + eexists. split; [exact Hg|left]. simpl. rewrite bool_decide_true by done. by destruct e.
    + eexists. split; [exact Hg|by right].
  - apply bind_Some in Hs as ([st1 e1] & Hs & Heq). simplify_eq.
    destruct (Hsend _ _ _ _ Hs) as (l & Hg & -> & [[-> ->]|(-> & Hc & [x ->])]);
      (eexists; split; [exact Hg|by left]).
Qed.

(** Other goroutines queue no messages, and the reader none of another WebSocket. *)
Lemma thread_step_messages st ts t c st' t' new p id :
  thread_step st ts t c = Some (st', t', new) →
  (∀ pc, t ≠ TReader p id pc) → messages id (grown st st' p) = [].
Proof.
  intros Hs Hn.
  assert (murmurs control st st' → messages id (grown st st' p) = []) as Hcontrol.
  { intros Hm%(grown_murmurs _ _ _ p). eapply messages_none; [|done]. by intros []. }
  destruct t as [r ctx out pc|q x pc|pc|q sent e|q run]; cbn [thread_step] in Hs;
    apply bind_Some in Hs as (y & Hs & Heq); repeat case_match; simplify_eq.
  - destruct (is_forward pc) as [(k & f & ->)|Hpc].
    + destruct (http_forward_step _ _ _ _ _ _ _ _ _ _ _ _ Hs) as (_ & l & Hg & Hc).
      rewrite (grown_grows _ _ _ Hg). unfold only. case_decide; [|done].
      eapply messages_none; [|exact (continues_carries _ _ _ _ _ Hc)]. by intros [].
    + by eapply Hcontrol, http_other_murmurs.
  - destruct (reader_step_messages _ _ _ _ _ _ _ 0 Hs) as (l & Hg & _).
    pose proof (grown_murmurs _ _ _ p (reader_step_murmurs _ _ _ _ _ _ _ Hs)) as Hall.
    rewrite (grown_grows _ _ _ Hg) in Hall |- *. unfold only in *. case_decide; [|done]. subst q.
    eapply messages_none; [|exact Hall]. intros [] Hf; try done; simpl in *.
    rewrite bool_decide_false; [done|]. intros ->. subst. by destruct (Hn pc).
  - by eapply Hcontrol, silent_murmurs, conn_step_grows.
  - destruct (send_step_queue _ _ _ _ _ _ _ _ Hs) as [(-> & _)|(f & Ht & _)].
    + by eapply Hcontrol, silent_murmurs, grows_same.
    + by rewrite (grown_takes _ _ _ _ Ht).
  - by eapply Hcontrol, beat_step_murmurs.
Qed.

Definition is_reader (id : string) (t : thread) : Prop := ∃ p pc, t = TReader p id pc.

(** A reader is started by the handler that has just written its handshake. *)
Lemma thread_step_reader st ts t c st' t' new j p id pc :
  thread_step st ts t c = Some (st', t', new) → new !! j = Some (TReader p id pc) →
  j = 0 ∧ pc = RInit
  ∧ ∃ r ctx out k m out', t = THttp r ctx out (PHandshake k m)
      ∧ t' = THttp r ctx out' (PWsLoop k (length ts)) ∧ p = k_sess k ∧ id = k_id k.
Proof.
  intros Hs Hj. destruct t as [r ctx out pc0|q x pc0|pc0|q sent e|q run]; cbn [thread_step] in Hs;
    apply bind_Some in Hs as (y & Hs & Heq); repeat case_match; simplify_eq.
  - destruct pc0; cbn [http_step http_enter http_respond http_websocket http_exit] in Hs;
      try done; open_step; try done.
    destruct j as [|j]; simplify_eq/=. split_and!; [done..|]. by do 6 eexists.
  - destruct pc0; cbn [conn_step] in Hs; try done; open_step; try done.
    by destruct j as [|[|j]]; simplify_eq/=.
Qed.

(** No way back to the points before the handshake. *)
Lemma http_step_before st r ctx self rd pc c st' out pc' new id :
  http_step st r ctx self rd pc c = Some (st', out, pc', new) →
  http_ident pc' = Some id → before pc' = true →
  (http_ident pc = Some id ∧ before pc = true)
  ∨ (id = FormatUint (wrap_u64 (nextRequestID (srv st) + 1))
     ∧ nextRequestID (srv st') = wrap_u64 (nextRequestID (srv st) + 1)).
Proof.
  intros Hs Hi Hb.
  assert (before pc = true) as Hpc.
  { destruct pc; try done; cbn [http_step http_websocket http_exit] in Hs; open_step; simplify_eq/=;
      try done; repeat case_match; simplify_eq/=. }
  destruct (http_step_abs _ _ _ _ _ _ _ _ _ _ _ Hs); simplify_eq/=; try congruence; auto.
  - left. split; congruence.
Qed.

(** A closed session stays closed. *)
Lemma thread_step_closed st ts t c st' t' new p :
  thread_step st ts t c = Some (st', t', new) → is_closed st p = true → is_closed st' p = true.
Proof.
  intros Hs. destruct (thread_step_abs _ _ _ _ _ _ _ Hs) as [Habs _]. unfold is_closed.
  destruct (sessH st !! p) as [s|] eqn:Hp; [|done].
  destruct (thread_abs_keeps _ _ _ _ _ _ Habs Hp) as (s' & -> & _ & _ & Hd & _). done.
Qed.

(** The record [h] of the queues and the record [rd] of the reads. *)
Record readers (h : nat → list ServerFrame) (rd : nat → list string) (w : world) : Prop := {
  rr_unique : ∀ i j t u id, threads w !! i = Some t → threads w !! j = Some u →
    is_reader id t → is_reader id u → i = j;
  rr_fresh : ∀ n, (nextRequestID (srv (st w)) < n)%Z →
    (∀ p, messages (FormatUint n) (h p) = [])
    ∧ ∀ i t, threads w !! i = Some t → ¬ is_reader (FormatUint n) t;
  rr_before : ∀ i r ctx out pc id, threads w !! i = Some (THttp r ctx out pc) →
    http_ident pc = Some id → before pc = true →
    (∀ p, messages id (h p) = []) ∧ ∀ j t, threads w !! j = Some t → ¬ is_reader id t;
  rr_new : ∀ i, length (threads w) ≤ i → rd i = [];
  rr_ok : ∀ i p id pc, threads w !! i = Some (TReader p id pc) →
    messages id (h p) ++ unsent pc `sublist_of` rd i
    ∧ (is_closed (st w) p = false → messages id (h p) ++ unsent pc = rd i) }.

Section step.
Context (h : nat → list ServerFrame) (rd : nat → list string) (w : world) (i : nat) (t : thread).
Context (c : choice) (st' : state) (t' : thread) (new : list thread).
Hypothesis Hrd : readers h rd w.
Hypothesis Hinv : inv w.
Hypothesis Hnext : (nextRequestID (srv (st w)) < 2^64 - 1)%Z.
Hypothesis Hi : threads w !! i = Some t.
Hypothesis Hs : thread_step (st w) (threads w) t c = Some (st', t', new).

Let w' := mkWorld st' (<[i := t']> (threads w) ++ new).
Let h' := λ p, h p ++ grown (st w) st' p.

(** Readers of the new world: old ones, or the one just started. *)
Lemma reader_origin j u id :
  threads w' !! j = Some u → is_reader id u →
  (j ≠ i ∧ threads w !! j = Some u)
  ∨ (j = i ∧ u = t' ∧ is_reader id t)
  ∨ (j = length (threads w) ∧ ∃ r ctx out k m out', t = THttp r ctx out (PHandshake k m)
       ∧ t' = THttp r ctx out' (PWsLoop k (length (threads w)))
       ∧ u = TReader (k_sess k) (k_id k) RInit ∧ id = k_id k).
Proof.
  intros [Hj|[Hge Hj]]%lookup_app_Some Hu.
  - apply insert_lookup_cases in Hj as [(<- & <- & _)|[? Hj]]; [right; left|by left].
    split_and!; [done..|]. destruct Hu as (p & pc & ->).
    destruct t; cbn [thread_step] in Hs; apply bind_Some in Hs as (y & _ & Heq);
      repeat case_match; simplify_eq. by eexists _, _.
  - right. right. destruct Hu as (p & pc & ->). rewrite length_insert in *.
    destruct (thread_step_reader _ _ _ _ _ _ _ _ _ _ _ Hs Hj) as (H0 & -> & r & ctx & out & k & m & out' & -> & -> & -> & ->).
    split; [lia|]. by do 6 eexists.
Qed.

Lemma readers_unique j1 j2 u1 u2 id :
  threads w' !! j1 = Some u1 → threads w' !! j2 = Some u2 →
  is_reader id u1 → is_reader id u2 → j1 = j2.
Proof.
  assert (∀ r ctx out k m, t = THttp r ctx out (PHandshake k m) → id = k_id k →
    ∀ j u, threads w !! j = Some u → ¬ is_reader id u) as Hno.
  { intros r ctx out k m Heq ->. rewrite Heq in Hi. by eapply (rr_before _ _ _ Hrd). }
  pose proof (rr_unique _ _ _ Hrd) as Hu.
  intros H1 H2 R1 R2.
  destruct (reader_origin _ _ _ H1 R1) as
      [[N1 O1]|[(-> & -> & T1)|(-> & r1 & c1 & o1 & k1 & m1 & p1 & E1 & _ & _ & I1)]],
    (reader_origin _ _ _ H2 R2) as
      [[N2 O2]|[(-> & -> & T2)|(-> & r2 & c2 & o2 & k2 & m2 & p2 & E2 & _ & _ & I2)]];
    eauto; exfalso.
  - by destruct (Hno _ _ _ _ _ E2 I2 _ _ O1).
  - by destruct (Hno _ _ _ _ _ E2 I2 _ _ Hi).
  - by destruct (Hno _ _ _ _ _ E1 I1 _ _ O2).
  - by destruct (Hno _ _ _ _ _ E1 I1 _ _ Hi).
Qed.

(** Messages are queued by the reader only. *)
Lemma messages_kept p id :
  ¬ is_reader id t → messages id (h' p) = messages id (h p).
Proof.
  intros Hn. unfold h'. rewrite messages_app.
  rewrite (thread_step_messages _ _ _ _ _ _ _ _ _ Hs); [apply app_nil_r|].
  intros pc ->. apply Hn. by eexists _, _.
Qed.

Lemma readers_fresh n :
  (nextRequestID (srv st') < n)%Z →
  (∀ p, messages (FormatUint n) (h' p) = [])
  ∧ ∀ j u, threads w' !! j = Some u → ¬ is_reader (FormatUint n) u.
Proof.
  intros Hn. destruct (thread_step_abs _ _ _ _ _ _ _ Hs) as [Habs _].
  destruct (thread_abs_ids _ _ _ _ _ Hinv Hnext Hi Habs) as [[Hle _] _].
  destruct (rr_fresh _ _ _ Hrd n) as [Hm Hr]; [lia|].
  split.
  - intros p. rewrite messages_kept; [done|]. by eapply Hr.
  - intros j u Hj Hu.
    destruct (reader_origin _ _ _ Hj Hu) as [[_ Hj']|[(_ & _ & Ht)|(_ & r & ctx & out & k & m & out' & E & _ & _ & Hid)]].
    + exact (Hr _ _ Hj' Hu).
    + exact (Hr _ _ Hi Ht).
    + rewrite E in Hi. destruct (inv_ident _ Hinv _ _ (k_id k) Hi eq_refl) as (x & Hx & ?).
      rewrite <-Hid in Hx. apply FormatUint_inj in Hx; [lia| |lia].
      pose proof (inv_next _ Hinv). lia.
Qed.

Lemma readers_before j r ctx out pc id :
  threads w' !! j = Some (THttp r ctx out pc) → http_ident pc = Some id → before pc = true →
  (∀ p, messages id (h' p) = []) ∧ ∀ k u, threads w' !! k = Some u → ¬ is_reader id u.
Proof.
  pose proof messages_kept as Hkept. pose proof readers_fresh as Hfr. pose proof reader_origin as Horig.
  intros Hj Hid Hb.
  assert (∀ i0 r0 ctx0 out0 pc0, threads w !! i0 = Some (THttp r0 ctx0 out0 pc0) →
    http_ident pc0 = Some id → before pc0 = true →
    (∀ r1 c1 o1 k m, t = THttp r1 c1 o1 (PHandshake k m) → i0 ≠ i) →
    (∀ p, messages id (h' p) = []) ∧ ∀ k u, threads w' !! k = Some u → ¬ is_reader id u) as Hold.
  { intros i0 r0 ctx0 out0 pc0 Hi0 Hid0 Hb0 Hns.
    destruct (rr_before _ _ _ Hrd _ _ _ _ _ _ Hi0 Hid0 Hb0) as [Hm Hr]. split.
    - intros p. rewrite Hkept; [done|]. by eapply Hr.
    - intros k u Hk Hu.
      destruct (Horig _ _ _ Hk Hu) as [[_ Hk']|[(_ & _ & Ht)|(_ & r1 & c1 & o1 & k1 & m1 & p1 & E & _ & _ & ->)]].
      + exact (Hr _ _ Hk' Hu).
      + exact (Hr _ _ Hi Ht).
      + destruct (Hns _ _ _ _ _ E). rewrite E in Hi.
        exact (inv_unique _ Hinv i0 i _ _ (k_id k1) Hi0 Hi Hid0 eq_refl). }
  destruct (handlers_after _ _ _ _ _ _ _ _ _ (step_idle _ _ _ _ _ _ Hs) Hj) as [[-> Ht']|[Hne Hj']]; [congruence|..].
  - destruct (thread_step_http _ _ _ _ _ _ _ Hs)
      as [(r0 & ctx0 & out0 & pc0 & ev & pc1 & Et & Et' & Hstep)|Hn]; [|by destruct (Hn r ctx out pc)].
    rewrite Et' in Ht'. injection Ht' as -> -> <- ->.
    destruct (http_step_before _ _ _ _ _ _ _ _ _ _ _ _ Hstep Hid Hb) as [[Hid0 Hb0]|[-> Hn']].
    + rewrite Et in Hi. eapply (Hold _ _ _ _ _ Hi Hid0 Hb0). intros r1 c1 o1 k m E _.
      rewrite Et in E. injection E as -> -> -> ->. cbn [http_step http_websocket] in Hstep. open_step; done.
    + assert (∀ x, ¬ is_reader x t) as Hnr by (intros x (p & q & Eq); congruence).
      pose proof (inv_next _ Hinv). rewrite wrap_u64_small by lia.
      destruct (rr_fresh _ _ _ Hrd (nextRequestID (srv (st w)) + 1)) as [Hm Hr]; [lia|]. split.
      * intros p. rewrite Hkept; [apply Hm|apply Hnr].
      * intros k u Hk Hu. destruct (Horig _ _ _ Hk Hu)
          as [[_ Hk']|[(_ & _ & Ht)|(_ & r1 & c1 & o1 & k1 & m1 & p1 & _ & E & _)]].
        -- exact (Hr _ _ Hk' Hu).
        -- exact (Hr _ _ Hi Ht).
        -- rewrite Et' in E. by simplify_eq.
  - eapply (Hold _ _ _ _ _ Hj' Hid Hb). by intros.
Qed.

Lemma readers_ok j p id pc :
  threads w' !! j = Some (TReader p id pc) →
  messages id (h' p) ++ unsent pc `sublist_of` rd j ++ read_by j (LStep i c)
  ∧ (is_closed st' p = false →
     messages id (h' p) ++ unsent pc = rd j ++ read_by j (LStep i c)).
Proof.
  pose proof messages_kept as Hkept. pose proof reader_origin as Horig.
  intros Hj. pose proof (thread_step_closed _ _ _ _ _ _ _ p Hs) as Hcl.
  assert (is_closed st' p = false → is_closed (st w) p = false) as Hop.
  { intros Ho. destruct (is_closed (st w) p); [|done]. rewrite Hcl in Ho; done. }
  assert (∀ k, k ≠ i → read_by k (LStep i c) = []) as Hother.
  { intros k Hk. simpl. destruct c; try done. by rewrite decide_False. }
  destruct (Horig j _ id Hj) as
    [[Hne Hj']|[(-> & Et' & Ht)|(-> & r & ctx & out & k & m & out' & Et & _ & Eu & ->)]];
    [by eexists _, _|..].
  - rewrite Hother, app_nil_r by done. destruct (rr_ok _ _ _ Hrd _ _ _ _ Hj') as [Hsub Heq].
    rewrite Hkept; [by auto|].
    intros Ht. apply Hne. eapply (rr_unique _ _ _ Hrd); [exact Hj'|exact Hi|by eexists _, _|exact Ht].
  - destruct Ht as (p0 & pc0 & Et). rewrite Et in Hs. cbn [thread_step] in Hs.
    apply bind_Some in Hs as ([st1 pc1] & Hstep & Heq). rewrite <-Et' in Heq. simplify_eq.
    destruct (rr_ok _ _ _ Hrd _ _ _ _ Hi) as [Hsub Hall].
    destruct (reader_step_messages _ _ _ _ _ _ _ i Hstep) as (l & Hg & Hl).
    unfold h'. rewrite (grown_grows _ _ _ Hg). unfold only. rewrite decide_True by done.
    rewrite messages_app, <-app_assoc. destruct Hl as [Hl|(Hc & -> & -> & ->)].
    + rewrite <-Hl, app_assoc. split; [by apply sublist_app|]. intros Ho. by rewrite Hall by auto.
    + simpl. rewrite !app_nil_r. split.
      * etrans; [|exact Hsub]. by apply sublist_inserts_r.
      * intros Ho. by rewrite Hcl in Ho.
  - simplify_eq. rewrite Hother, (rr_new _ _ _ Hrd) by (done || (apply lookup_lt_Some in Hi; lia)).
    rewrite Hkept by (intros (q & x & ?); done).
    destruct (rr_before _ _ _ Hrd _ _ _ _ _ _ Hi eq_refl eq_refl) as [-> _]. done.
Qed.

Lemma readers_thread : readers h' (λ j, rd j ++ read_by j (LStep i c)) w'.
Proof.
  constructor; [apply readers_unique|apply readers_fresh|apply readers_before| |apply readers_ok].
  intros j. unfold w'. cbn [threads]. rewrite length_app, length_insert. intros Hj.
  rewrite (rr_new _ _ _ Hrd) by lia. simpl. destruct c; try done.
  rewrite decide_False; [done|]. apply lookup_lt_Some in Hi. lia.
Qed.
End step.

Lemma readers_ext h h' rd rd' w :
  (∀ p, h' p = h p) → (∀ i, rd' i = rd i) → readers h rd w → readers h' rd' w.
Proof.
  intros Hh Hr []. constructor; try setoid_rewrite Hh; try setoid_rewrite Hr; eauto.
Qed.

(** Readers stay, and handlers with an id keep their point. *)
Lemma readers_threads h rd w ts :
  readers h rd w → length (threads w) ≤ length ts →
  (∀ j p id pc, ts !! j = Some (TReader p id pc) → threads w !! j = Some (TReader p id pc)) →
  (∀ j r ctx out pc id, ts !! j = Some (THttp r ctx out pc) → http_ident pc = Some id →
     ∃ ctx', threads w !! j = Some (THttp r ctx' out pc)) →
  readers h rd (mkWorld (st w) ts).
Proof.
  intros [Hu Hf Hb Hn Ho] Hlen Hr Hh.
  assert (∀ j t id, ts !! j = Some t → is_reader id t → threads w !! j = Some t) as Hr'.
  { intros j t id Hj (p & pc & ->). by apply Hr. }
  constructor; cbn [st threads].
  - intros i j t u id Hi Hj Ht Hu'. eapply Hu; eauto.
  - intros n Hlt. destruct (Hf n Hlt) as [Hm Hno]. split; [done|].
    intros i t Hi Ht. exact (Hno _ _ (Hr' _ _ _ Hi Ht) Ht).
  - intros i r ctx out pc id Hi Hid Hbf. destruct (Hh _ _ _ _ _ _ Hi Hid) as [ctx' Hi'].
    destruct (Hb _ _ _ _ _ _ Hi' Hid Hbf) as [Hm Hno]. split; [done|].
    intros j t Hj Ht. exact (Hno _ _ (Hr' _ _ _ Hj Ht) Ht).
  - intros i Hi. apply Hn. lia.
  - intros i p id pc Hi. apply Ho. by apply Hr.
Qed.

Lemma readers_step h rd w l w' :
  readers h rd w → inv w → (nextRequestID (srv (st w)) < 2^64 - 1)%Z → exec w l = Some w' →
  readers (λ p, h p ++ grown (st w) (st w') p) (λ i, rd i ++ read_by i l) w'.
Proof.
  intros Hrd Hinv Hn Hl. destruct l as [i c|i e|r|]; cbn [exec] in Hl.
  { apply bind_Some in Hl as (t & Hi & ([[st' t'] new] & Hs & [= <-])%bind_Some).
    by eapply readers_thread. }
  { apply bind_Some in Hl as (t & Hi & (t' & Hc & [= <-])%bind_Some).
    apply (readers_ext h _ rd);
      [intros p; by rewrite grown_same, app_nil_r|intros j; apply app_nil_r|].
    destruct t as [r [] out pc| | | |]; simplify_eq/=.
    apply readers_threads; [done|by rewrite length_insert|..].
    - intros j p id pc0 [(_ & ? & _)|[_ ?]]%insert_lookup_cases; done.
    - intros j r0 ctx0 out0 pc0 id [(<- & ? & _)|[_ ?]]%insert_lookup_cases _; simplify_eq; eauto. }
  all: simplify_eq; apply (readers_ext h _ rd);
    [intros p; by rewrite grown_same, app_nil_r|intros j; apply app_nil_r|].
  all: apply readers_threads; [done|rewrite length_app; lia|..].
  all: try (intros j p id pc0 [?|[_ ?]]%lookup_snoc_cases; done).
  all: intros j r0 ctx0 out0 pc0 id [?|[_ ?]]%lookup_snoc_cases Hid; simplify_eq; eauto.
Qed.

Lemma readers_run h rd w ls w' :
  readers h rd w → inv w → (nextRequestID (srv (st w)) + Z.of_nat (length ls) < 2^64)%Z →
  run w ls = Some w' → readers (λ p, h p ++ queued w ls p) (λ i, rd i ++ reads_by ls i) w'.
Proof.
  revert h rd w. induction ls as [|l ls IH]; intros h rd w Hrd Hinv Hn; simpl.
  { intros [= <-]. apply (readers_ext h _ rd); [intros; apply app_nil_r..|done]. }
  intros (w1 & Hl & Hr)%bind_Some. simpl in Hn.
  destruct (inv_step w l w1 Hinv) as [Hinv1 Hle]; [lia|done|].
  eapply readers_ext; [..|eapply IH; [eapply readers_step; [done..|lia|done]|done|lia|done]].
  - intros p. simpl. by rewrite Hl, app_assoc.
  - intros i. unfold reads_by. simpl. by rewrite app_assoc.
Qed.

Lemma readers_init s : readers (λ _, []) (λ _, []) (init_world s).
Proof. constructor; done. Qed.

Lemma run_readers cfg s ls w :
  New cfg = Ok s → (MaxTotalInflight cfg ≤ max_i64)%Z → (Z.of_nat (length ls) < 2^64)%Z →
  run (init_world s) ls = Some w → readers (queued (init_world s) ls) (reads_by ls) w.
Proof.
  intros Hnew Hmax Hlen Hrun.
  destruct (New_valid _ _ Hnew) as [_ (_ & _ & _ & _ & _ & _ & Htot & _ & _ & Hreq)].
  apply (readers_run (λ _, []) (λ _, []) (init_world s)); [apply readers_init| |simpl; lia|done].
  apply inv_init; [by eapply New_limits|done..].
Qed.

(** ** To the browser *)

(** The channel of a WebSocket. *)
Definition from_client (st : state) (w : nat) : list string :=
  from_option fromClient [] (wsH st !! w).

Definition wgrows (g : nat → list string) (st st' : state) : Prop :=
  ∀ w, from_client st' w = from_client st w ++ g w.
Definition wsame (st st' : state) : Prop := wgrows (λ _, []) st st'.

Lemma wsame_eq st st' : wsH st' = wsH st → wsame st st'.
Proof. intros Heq w. unfold from_client. by rewrite Heq, app_nil_r. Qed.

Lemma wsame_close st st' f :
  wsH st' = f (wsH st) → (∀ l w, fromClient <$> f l !! w = fromClient <$> l !! w) → wsame st st'.
Proof.
  intros Heq Hf w. unfold from_client. rewrite Heq, app_nil_r. specialize (Hf (wsH st) w).
  destruct (f (wsH st) !! w), (wsH st !! w); simplify_eq/=; done.
Qed.

Lemma close_at_keeps l x w : fromClient <$> close_at l x !! w = fromClient <$> l !! w.
Proof.
  unfold close_at. destruct (decide (w = x)) as [->|Hne].
  - rewrite list_lookup_alter_eq. by destruct (l !! x).
  - by rewrite list_lookup_alter_ne.
Qed.

Lemma close_all_keeps xs l w : fromClient <$> foldl close_at l xs !! w = fromClient <$> l !! w.
Proof.
  revert l. induction xs as [|x xs IH]; intros l; [done|]. simpl. rewrite IH. apply close_at_keeps.
Qed.

Lemma enqueue_wsH st p f st' : enqueue st p f = Some st' → wsH st' = wsH st.
Proof. unfold enqueue. intros (s & _ & (q & _ & [= <-])%bind_Some)%bind_Some. done. Qed.
Lemma sendFrame_wsH st p f c st' e : sendFrame st p f c = Some (st', e) → wsH st' = wsH st.
Proof. unfold sendFrame. intros. open_step; [done|by eapply enqueue_wsH]. Qed.
Lemma sendFrameCtx_wsH ctx st p f c st' e :
  sendFrameCtx ctx st p f c = Some (st', e) → wsH st' = wsH st.
Proof. unfold sendFrameCtx. intros. open_step; [done..|by eapply enqueue_wsH]. Qed.
Lemma cancelRequest_wsH st p id c st' : cancelRequest st p id c = Some st' → wsH st' = wsH st.
Proof. unfold cancelRequest. intros. open_step; try done. by eapply enqueue_wsH. Qed.
Lemma forwardRequest_wsH st r ctx p id f c st' res :
  forwardRequest st r ctx p id f c = Some (st', res) → wsH st' = wsH st.
Proof.
  intros Hf. destruct f; cbn [forwardRequest] in Hf; open_step; simplify_eq; try done;
    by eapply sendFrameCtx_wsH.
Qed.
Lemma putWS_wsH st p id w st' : putWS st p id w = Some st' → wsH st' = wsH st.
Proof. intros (s & ? & [= <-])%bind_Some. done. Qed.
Lemma delWS_wsH st p id st' : delWS st p id = Some st' → wsH st' = wsH st.
Proof. intros (s & ? & [= <-])%bind_Some. done. Qed.
Lemma sess_del_wsH st p id st' b : sess_del st p id = Some (st', b) → wsH st' = wsH st.
Proof. intros (s & Hs & Hm)%bind_Some. by destruct (inflight s !! id); simplify_eq. Qed.
Lemma tryStart_wsH st p id m st' o : tryStart st p id m = Some (st', o) → wsH st' = wsH st.
Proof. intros (s & Hs & Hm)%bind_Some. by destruct (_ && _); simplify_eq/=. Qed.
Lemma shutdown_enter_wsH st p st' b : shutdown_enter st p = Some (st', b) → wsH st' = wsH st.
Proof. intros (s & Hs & Hm)%bind_Some. by destruct (sess_once s); simplify_eq. Qed.

Create HintDb wsock discriminated.
#[local] Hint Resolve enqueue_wsH sendFrame_wsH cancelRequest_wsH forwardRequest_wsH delWS_wsH
  sess_del_wsH tryStart_wsH shutdown_enter_wsH : wsock.
#[local] Hint Extern 1 (wsH _ = wsH _) => reflexivity : wsock.

Lemma length_close_all xs l : length (foldl close_at l xs) = length l.
Proof.
  revert l. induction xs as [|x xs IH]; intros l; [done|]. simpl. rewrite IH. apply length_alter.
Qed.

Lemma shutdown_fail_wsame st p e st' n :
  shutdown_fail st p e = Some (st', n) → wsame st st' ∧ length (wsH st') = length (wsH st).
Proof.
  unfold shutdown_fail, failAll.
  intros ([st1 n1] & (s & Hs & [= <- <-])%bind_Some & (s' & Hs' & [= <- <-])%bind_Some)%bind_Some.
  split; [|apply length_close_all].
  eapply (wsame_close _ _ (λ l, foldl close_at l _)); [done|]. intros l w. apply close_all_keeps.
Qed.

(** What a step puts into the channel of WebSocket [w]. *)
Definition conn_push (pc : conn_pc) (c : choice) (w : nat) : list string :=
  match pc, c with
  | CDeliver _ _ (DWs v data), OnSend => if decide (v = w) then [data] else []
  | _, _ => []
  end.

Definition push (w : world) (l : label) (v : nat) : list string :=
  match l with
  | LStep i c => match threads w !! i with Some (TConn pc) => conn_push pc c v | _ => [] end
  | _ => []
  end.

(** What a whole run put there. *)
Fixpoint pushed (w : world) (ls : list label) (v : nat) : list string :=
  match ls with
  | [] => []
  | l :: ls => push w l v ++ match exec w l with Some w' => pushed w' ls v | None => [] end
  end.

(** The receive loop puts messages into channels; nothing else in a [Connect] does. *)
Lemma conn_step_wgrows st self res pc c st' pc' new :
  conn_step st self res pc c = Some (st', pc', new) →
  wgrows (conn_push pc c) st st' ∧ length (wsH st') = length (wsH st).
Proof.
  assert (∀ pc c, wsame st st' → length (wsH st') = length (wsH st) → (∀ v, conn_push pc c v = []) →
    wgrows (conn_push pc c) st st' ∧ length (wsH st') = length (wsH st)) as Hsame.
  { intros pc0 c0 Hw Hl Hn. split; [|done]. intros v. by rewrite Hn, Hw. }
  assert (∀ pc c, wsH st' = wsH st → (∀ v, conn_push pc c v = []) →
    wgrows (conn_push pc c) st st' ∧ length (wsH st') = length (wsH st)) as Heq.
  { intros pc0 c0 Hw. apply Hsame; [by apply wsame_eq|by rewrite Hw]. }
  intros Hs. destruct pc; cbn [conn_step] in Hs; try done.
  3: { open_step. match goal with Hf : shutdown_fail _ _ _ = _ |- _ =>
         destruct (shutdown_fail_wsame _ _ _ _ _ Hf); by apply Hsame end. }
  5: { open_step; try (by apply Heq).
       match goal with Hh : handleClientFrame _ _ ?f = _ |- _ => destruct f; simpl in Hh end;
         repeat case_match; simplify_eq/=; try (by apply Heq).
       apply Hsame; [|apply length_alter|done].
       eapply (wsame_close _ _ (λ l, close_at l _)); [done|]. intros. apply close_at_keeps. }
  5: { apply bind_Some in Hs as (st1 & Hd & Hs). simplify_eq.
       destruct d as [| |w data], c; simplify_eq/=; open_step; try (by apply Heq).
       match goal with Hp : push_ws ?x data = Some ?y |- _ =>
         apply bind_Some in Hp as (q & [_ ->]%chan_send_Some & [= <-]) end.
       split; [|apply length_insert]. intros v. unfold from_client. simpl.
       destruct (decide (w = v)) as [->|Hne].
       - rewrite list_lookup_insert_eq by (by eapply lookup_lt_Some).
         match goal with Hw : wsH _ !! v = Some _ |- _ => by rewrite Hw end.
       - by rewrite list_lookup_insert_ne, app_nil_r. }
  6: { open_step. match goal with Hf : shutdown_fail _ _ _ = _ |- _ =>
         destruct (shutdown_fail_wsame _ _ _ _ _ Hf); by apply Hsame end. }
  all: open_step; (apply Heq; [simplify_eq; eauto with wsock|done]).
Qed.

(** The WebSocket of a handler. *)
Definition pc_ws (pc : http_pc) : option nat :=
  match pc with
  | PForward k _ | PWait k | PBody k | PWrite k _ _ | PDrain k | PCancel k | PWsWait k
  | PHijack k _ | PHandshake k _ | PWsLoop k _ | PWsWrite k _ _ | PCloseWS k | PDelWS k
  | PFinish k => k_ws k
  | _ => None
  end.

(** What has been written to the hijacked connection. *)
Definition conns (out : list wevent) : list string :=
  omap (λ e, match e with WConn data => Some data | _ => None end) out.

Lemma conns_app out out' : conns (out ++ out') = conns out ++ conns out'.
Proof. apply omap_app. Qed.

(** The handshake and then messages. *)
Definition spoken (out : list wevent) (cs : list string) : Prop := ∃ hs, conns out = hs :: cs.

Definition hung_up (out : list wevent) (l : list string) : Prop :=
  conns out = [] ∨ ∃ cs, spoken out cs ∧ cs `prefix_of` l.

(** How far a handler has come with [l], of which [q] is still in the channel. *)
Definition conversation (pc : http_pc) (out : list wevent) (q l : list string) : Prop :=
  match pc with
  | PForward _ _ | PWsWait _ | PHijack _ _ | PHandshake _ _ => conns out = [] ∧ l = q
  | PWsLoop _ _ => ∃ cs, spoken out cs ∧ l = cs ++ q
  | PWsWrite _ _ data => ∃ cs, spoken out cs ∧ l = cs ++ data :: q
  | _ => hung_up out l
  end.

(** Before it has a WebSocket a handler has written nothing to a connection. *)
Definition early (pc : http_pc) : bool :=
  match pc with
  | PStart | PNextID _ | PReserve _ _ _ | PCas _ _ _ _ | PTryStart _ _ _ | PUndo
  | PPutWS _ _ _ => true
  | _ => false
  end.

Lemma hung_up_app out ev l : conns ev = [] → hung_up out l → hung_up (out ++ ev) l.
Proof. unfold hung_up, spoken. rewrite conns_app. intros ->. by rewrite app_nil_r. Qed.

Lemma conversation_hung_up pc out q l : conversation pc out q l → hung_up out l.
Proof.
  destruct pc; simpl; try done; try (intros [? _]; by left);
    intros (cs & Hs & ->); right; exists cs; (split; [done|by eexists]).
Qed.

Lemma conversation_push pc out q l g :
  conversation pc out q l → conversation pc out (q ++ g) (l ++ g).
Proof.
  assert (hung_up out l → hung_up out (l ++ g)) as Hh.
  { intros [?|(cs & ? & ?)]; [by left|right]. exists cs. split; [done|by apply prefix_app_r]. }
  destruct pc; simpl; auto; try (intros [? ->]; done);
    intros (cs & ? & ->); exists cs; by rewrite <-app_assoc.
Qed.

Lemma conversation_exit k out q l : hung_up out l → conversation (exit k) out q l.
Proof. unfold exit. by destruct (k_ws k). Qed.

Lemma write_header_conns k m out pc :
  write_header k m = (out, pc) → conns out = [] ∧ (pc = exit k ∨ pc = PBody k).
Proof. unfold write_header. case_match; intros; simplify_eq; auto. Qed.

Lemma hung_up_write_header k m ev pc out q l :
  write_header k m = (ev, pc) → hung_up out l → conversation pc (out ++ ev) q l.
Proof.
  intros [He [-> | ->]]%write_header_conns Hh; [apply conversation_exit|]; by apply hung_up_app.
Qed.

Lemma conversation_write_chunk k chunk d out q l :
  hung_up out l → conversation (write_chunk k chunk d) out q l.
Proof. unfold write_chunk. by destruct (bool_decide _), d. Qed.

(** The steps of [ServeHTTP]'s loops write nothing to a connection. *)
Lemma http_respond_conversation st ctx pc c st' ev pc' new out q' l :
  http_respond st ctx pc c = Some (st', ev, pc', new) →
  hung_up out l → conversation pc' (out ++ ev) q' l ∧ wsH st' = wsH st.
Proof.
  intros Hs Hh.
  assert (∀ ev, conns ev = [] → hung_up (out ++ ev) l) as Happ by (intros; by apply hung_up_app).
  destruct pc; try done; cbn [http_respond] in Hs.
  all: open_step; simplify_eq;
    (split; [|first [reflexivity|by eapply cancelRequest_wsH]]).
  all: try (by eapply hung_up_write_header); try (by apply conversation_exit, Happ);
    try (by apply Happ); rewrite ?app_nil_r; try done; try (by apply conversation_write_chunk).
  destruct draining; by apply Happ.
Qed.

Lemma from_client_put st w x ws :
  wsH st !! w = Some x →
  from_client (put_ws st w ws) w = fromClient ws
  ∧ ∀ v, v ≠ w → from_client (put_ws st w ws) v = from_client st v.
Proof.
  intros Hw. unfold from_client. simpl. split.
  - by rewrite list_lookup_insert_eq by (by eapply lookup_lt_Some).
  - intros v Hv. by rewrite list_lookup_insert_ne.
Qed.

(** [serveWebSocket] takes the messages of its own channel, one by one, and writes them. *)
Lemma http_websocket_conversation st r ctx self rd pc c st' ev pc' new w out l :
  http_websocket st r ctx self rd pc c = Some (st', ev, pc', new) → pc_ws pc = Some w →
  conversation pc out (from_client st w) l →
  conversation pc' (out ++ ev) (from_client st' w) l
  ∧ ∀ v, v ≠ w → from_client st' v = from_client st v.
Proof.
  intros Hs Hw Hc. pose proof (conversation_hung_up _ _ _ _ Hc) as Hh.
  assert (∀ k ev, conns ev = [] → conversation (exit k) (out ++ ev) (from_client st' w) l) as Hexit.
  { intros k0 ev0 He. by apply conversation_exit, hung_up_app. }
  assert (∀ q r, from_client (put_rs st q r) w = from_client st w
    ∧ ∀ v, v ≠ w → from_client (put_rs st q r) v = from_client st v) as Hrs by done.
  destruct pc; try done; cbn [http_websocket pc_ws] in *.
  - open_step; simplify_eq; (split; [|done]); try (by apply Hexit);
      try (rewrite app_nil_r; done).
    match goal with Hh : write_header _ _ = _ |- _ => apply write_header_conns in Hh as [? _] end.
    by apply Hexit.
  - open_step; simplify_eq; (split; [|done]); [rewrite app_nil_r; done|by apply Hexit].
  - open_step; simplify_eq; (split; [|done]).
    + destruct Hc as [Hn ->]. exists []. split; [|done]. eexists. by rewrite conns_app, Hn.
    + by apply hung_up_app.
  - rewrite Hw in Hs. cbn [mbind option_bind] in Hs.
    apply bind_Some in Hs as (ws & Hws & Hs). destruct Hc as (cs & Hsp & ->).
    destruct c; try done; open_step; simplify_eq; rewrite app_nil_r;
      try (by split; [right; exists cs; split; [done|by eexists]|]).
    match goal with Hr : chan_recv _ = _ |- _ => apply chan_recv_Some in Hr end.
    destruct (from_client_put st w ws (mkWS l (ws_done ws)) Hws) as [-> Hv]. split; [|done].
    exists cs. split; [done|]. unfold from_client. rewrite Hws. simpl. congruence.
  - destruct Hc as (cs & [hs Hsp] & ->).
    open_step; simplify_eq; (split; [|done]).
    + right. exists (cs ++ [data]). split; [exists hs; by rewrite conns_app, Hsp|].
      exists (from_client st' w). by rewrite <-app_assoc.
    + exists (cs ++ [data]). split; [|by rewrite <-app_assoc]. exists hs.
      by rewrite conns_app, Hsp.
    + rewrite app_nil_r. right. exists cs. split; [by exists hs|by eexists].
Qed.

Lemma http_exit_conversation st pc st' ev pc' new w out l :
  http_exit st pc = Some (st', ev, pc', new) → pc_ws pc = Some w →
  conversation pc out (from_client st w) l →
  conversation pc' (out ++ ev) (from_client st' w) l
  ∧ ∀ v, v ≠ w → from_client st' v = from_client st v.
Proof.
  intros Hs Hw Hc. pose proof (conversation_hung_up _ _ _ _ Hc) as Hh.
  destruct pc; try done; cbn [http_exit pc_ws] in *.
  - rewrite Hw in Hs. cbn [mbind option_bind] in Hs.
    apply bind_Some in Hs as (ws & Hws & Hs). simplify_eq. rewrite app_nil_r.
    destruct (from_client_put st w ws (ws_close ws) Hws) as [_ Hv]. by split.
  - apply bind_Some in Hs as (st1 & Hd & Hs). simplify_eq. rewrite app_nil_r.
    apply delWS_wsH in Hd. unfold from_client. by rewrite Hd.
  - apply bind_Some in Hs as ([st1 b] & Hd & Hs). simplify_eq. rewrite app_nil_r.
    apply sess_del_wsH in Hd. unfold from_client. rewrite Hd. split; [|done]. by destruct b.
Qed.

(** A handler with a WebSocket. *)
Lemma http_step_conversation st r ctx self rd pc c st' ev pc' new w out l :
  http_step st r ctx self rd pc c = Some (st', ev, pc', new) → pc_ws pc = Some w →
  conversation pc out (from_client st w) l →
  conversation pc' (out ++ ev) (from_client st' w) l
  ∧ ∀ v, v ≠ w → from_client st' v = from_client st v.
Proof.
  intros Hs Hw Hc. pose proof (conversation_hung_up _ _ _ _ Hc) as Hh.
  assert (∀ v, wsH st' = wsH st → from_client st' v = from_client st v) as Hsame.
  { unfold from_client. by intros v ->. }
  destruct pc; try done; cbn [http_step] in Hs;
    try (by eapply http_websocket_conversation);
    try (destruct c; try done; by eapply http_exit_conversation);
    try (destruct (http_respond_conversation _ _ _ _ _ _ _ _ _ (from_client st' w) _ Hs Hh); by auto).
  apply bind_Some in Hs as ([st1 res] & Hf & Hs). apply forwardRequest_wsH in Hf.
  cbn [pc_ws] in Hw. destruct res as [f'|e]; simplify_eq.
  { rewrite app_nil_r, Hsame by done. by split; [|auto]. }
  destruct (forwarded ctx k e) as [ev1 pc1] eqn:Hfw. simplify_eq. split; [|by auto].
  unfold forwarded in Hfw. destruct e as [e|].
  - case_match; simplify_eq; by apply conversation_exit, hung_up_app.
  - rewrite Hw in Hfw. simplify_eq. rewrite app_nil_r, Hsame by done. exact Hc.
Qed.

(** A handler gets its WebSocket when it creates it. *)
Lemma http_enter_plain st r pc st' ev pc' new :
  http_enter st r pc = Some (st', ev, pc', new) →
  conns ev = []
  ∧ (wsH st' = wsH st ∧ pc_ws pc' = None
     ∨ ∃ k, pc' = PForward k FStart ∧ k_ws k = Some (length (wsH st))
         ∧ wsH st' = wsH st ++ [new_wsState]).
Proof.
  intros Hs. destruct pc; try done; cbn [http_enter] in Hs; open_step; simplify_eq;
    (split; [by repeat case_match|]).
  all: try (left; split; [first [reflexivity|by eapply tryStart_wsH]|by repeat case_match]).
  right. eexists. split_and!; [done..|].
  match goal with Hp : putWS _ _ _ _ = _ |- _ => by apply putWS_wsH in Hp end.
Qed.

(** Later it keeps the one it has, or the none. *)
Definition keeps_ws (o : option nat) (pc : http_pc) : Prop :=
  early pc = false ∧ (pc_ws pc = o ∨ pc_ws pc = None).

Lemma keeps_exit k : keeps_ws (k_ws k) (exit k).
Proof. unfold keeps_ws, exit. destruct (k_ws k) eqn:Hk; simpl; auto. Qed.
Lemma keeps_write_header k m ev pc : write_header k m = (ev, pc) → keeps_ws (k_ws k) pc.
Proof.
  intros [_ [-> | ->]]%write_header_conns; [apply keeps_exit|]. split; simpl; auto.
Qed.
Lemma keeps_write_chunk k chunk d : keeps_ws (k_ws k) (write_chunk k chunk d).
Proof. unfold write_chunk. destruct (bool_decide _), d; split; simpl; auto. Qed.

Lemma forwarded_keeps ctx k e ev pc : forwarded ctx k e = (ev, pc) → keeps_ws (k_ws k) pc.
Proof.
  unfold forwarded. intros. repeat case_match; simplify_eq; try apply keeps_exit; split; simpl; auto.
Qed.

Lemma http_step_keeps st r ctx self rd pc c st' ev pc' new :
  http_step st r ctx self rd pc c = Some (st', ev, pc', new) → early pc = false →
  keeps_ws (pc_ws pc) pc' ∧ length (wsH st') = length (wsH st)
  ∧ (pc_ws pc = None → wsH st' = wsH st).
Proof.
  assert (∀ q x, length (wsH (put_ws st q x)) = length (wsH st)) as Hput.
  { intros q x. apply length_insert. }
  intros Hs He. destruct pc; try done; cbn [http_step http_respond http_websocket http_exit pc_ws] in *;
    open_step; simplify_eq; split_and!;
    first [ done | apply Hput | congruence
      | apply keeps_exit | by eapply keeps_write_header | apply keeps_write_chunk
      | by eapply forwarded_keeps | by split; repeat case_match; simpl; auto
      | by eapply cancelRequest_wsH | by erewrite cancelRequest_wsH
      | by eapply forwardRequest_wsH | by erewrite forwardRequest_wsH
      | by eapply delWS_wsH | by erewrite delWS_wsH
      | by eapply sess_del_wsH | by erewrite sess_del_wsH ].
Qed.

(** Threads that are no handlers: what they put into channels. *)
Lemma thread_step_wgrows st ts t c st' t' new :
  thread_step st ts t c = Some (st', t', new) → (∀ r ctx out pc, t ≠ THttp r ctx out pc) →
  wgrows (λ v, match t with TConn pc => conn_push pc c v | _ => [] end) st st'
  ∧ length (wsH st') = length (wsH st).
Proof.
  intros Hs Hn.
  assert (wsH st' = wsH st → wsame st st' ∧ length (wsH st') = length (wsH st)) as Heq.
  { intros Hw. split; [by apply wsame_eq|by rewrite Hw]. }
  destruct t as [r ctx out pc|q x pc|pc|q sent e|q run]; cbn [thread_step] in Hs;
    [by destruct (Hn r ctx out pc)|..]; apply bind_Some in Hs as (y & Hs & Hy);
    repeat case_match; simplify_eq.
  - apply Heq. destruct pc, c; cbn [reader_step] in Hs; try done; open_step; simplify_eq;
      first [done|by eapply sendFrame_wsH].
  - by eapply conn_step_wgrows.
  - apply Heq. unfold send_step in Hs. open_step; by simplify_eq.
  - apply Heq. unfold beat_step in Hs. destruct run, c; try done; open_step; simplify_eq;
      first [done|by eapply enqueue_wsH].
Qed.

(** The record [h] of what was put into the channels. *)
Record socks (h : nat → list string) (w : world) : Prop := {
  so_len : ∀ i r ctx out pc v, threads w !! i = Some (THttp r ctx out pc) →
    pc_ws pc = Some v → v < length (wsH (st w));
  so_unique : ∀ i j r ctx out pc r' ctx' out' pc' v,
    threads w !! i = Some (THttp r ctx out pc) → threads w !! j = Some (THttp r' ctx' out' pc') →
    pc_ws pc = Some v → pc_ws pc' = Some v → i = j;
  so_fresh : ∀ v, length (wsH (st w)) ≤ v → h v = [];
  so_early : ∀ i r ctx out pc, threads w !! i = Some (THttp r ctx out pc) →
    early pc = true → conns out = [];
  so_ok : ∀ i r ctx out pc v, threads w !! i = Some (THttp r ctx out pc) →
    pc_ws pc = Some v → conversation pc out (from_client (st w) v) (h v) }.

Section sockets.
Context (h : nat → list string) (w : world) (i : nat) (t : thread) (c : choice).
Context (st' : state) (t' : thread) (new : list thread).
Hypothesis Hso : socks h w.
Hypothesis Hi : threads w !! i = Some t.
Hypothesis Hs : thread_step (st w) (threads w) t c = Some (st', t', new).

Let w' := mkWorld st' (<[i := t']> (threads w) ++ new).
Let h' := λ v, h v ++ push w (LStep i c) v.

(** A handler that has, or gets, a WebSocket. *)
Lemma http_step_ws r ctx out pc ev pc' :
  t = THttp r ctx out pc →
  http_step (st w) r ctx (length (threads w)) (read_done (threads w)) pc c = Some (st', ev, pc', new) →
  length (wsH (st w)) ≤ length (wsH st')
  ∧ ∀ v, pc_ws pc' = Some v →
      pc_ws pc = Some v
      ∨ v = length (wsH (st w)) ∧ v < length (wsH st') ∧ early pc = true
        ∧ ∃ k, pc' = PForward k FStart.
Proof.
  intros _ Hstep. destruct (early pc) eqn:He.
  - assert (http_enter (st w) r pc = Some (st', ev, pc', new)) as Hen.
    { destruct pc; try done; by destruct c. }
    destruct (http_enter_plain _ _ _ _ _ _ _ Hen) as [_ [[Hw Hn]|(k & -> & Hk & Hw)]]; rewrite Hw.
    + split; [done|]. intros v Hv. congruence.
    + rewrite length_app. split; [lia|]. simpl. intros v Hv. right.
      replace v with (length (wsH (st w))) by congruence. split_and!; [done|lia|done|by eexists].
  - destruct (http_step_keeps _ _ _ _ _ _ _ _ _ _ _ Hstep He) as ([_ Hk] & Hl & _).
    split; [lia|]. intros v Hv. left. destruct Hk; congruence.
Qed.

(** The channels other than the stepping handler's. *)
Lemma channels_after v :
  (∀ r ctx out pc, t = THttp r ctx out pc → pc_ws pc ≠ Some v) →
  from_client st' v = from_client (st w) v ++ push w (LStep i c) v.
Proof.
  intros Hv. simpl. rewrite Hi.
  destruct (thread_step_http _ _ _ _ _ _ _ Hs) as [(r & ctx & out & pc & ev & pc' & -> & -> & Hstep)|Hn].
  - rewrite app_nil_r. specialize (Hv _ _ _ _ eq_refl). destruct (early pc) eqn:He.
    + assert (http_enter (st w) r pc = Some (st', ev, pc', new)) as Hen.
      { destruct pc; try done; by destruct c. }
      destruct (http_enter_plain _ _ _ _ _ _ _ Hen) as [_ [[Hw _]|(k & _ & _ & Hw)]];
        unfold from_client; rewrite Hw; [done|].
      destruct (decide (v < length (wsH (st w)))); [by rewrite lookup_app_l|].
      rewrite lookup_app_r, (lookup_ge_None_2 (wsH (st w))) by lia.
      by destruct (v - length (wsH (st w))) as [|[]].
    + destruct (pc_ws pc) as [x|] eqn:Hx.
      * pose proof (so_ok _ _ Hso _ _ _ _ _ _ Hi Hx) as Hc.
        destruct (http_step_conversation _ _ _ _ _ _ _ _ _ _ _ _ _ _ Hstep Hx Hc) as [_ Ho].
        apply Ho. congruence.
      * destruct (http_step_keeps _ _ _ _ _ _ _ _ _ _ _ Hstep He) as (_ & _ & Hw).
        unfold from_client. by rewrite Hw.
  - destruct (thread_step_wgrows _ _ _ _ _ _ _ Hs) as [Hg _]; [by intros; apply Hn|].
    rewrite Hg. by destruct t.
Qed.

Lemma push_fresh v : length (wsH st') ≤ v → push w (LStep i c) v = [].
Proof.
  intros Hv. simpl. rewrite Hi. destruct t as [| |pc| |] eqn:Ht; try done.
  destruct (thread_step_wgrows _ _ _ _ _ _ _ Hs) as [Hg _]; [done|]. specialize (Hg v). simpl in Hg.
  unfold from_client at 1 in Hg. rewrite lookup_ge_None_2 in Hg by done. simpl in Hg.
  by symmetry in Hg; apply app_nil in Hg as [_ ?].
Qed.

Lemma wsH_length : length (wsH (st w)) ≤ length (wsH st').
Proof.
  destruct (thread_step_http _ _ _ _ _ _ _ Hs) as [(r & ctx & out & pc & ev & pc' & Et & _ & Hstep)|Hn].
  - by destruct (http_step_ws _ _ _ _ _ _ Et Hstep).
  - destruct (thread_step_wgrows _ _ _ _ _ _ _ Hs) as [_ Hl]; [by intros; apply Hn|]. lia.
Qed.

Lemma socks_thread : socks h' w'.
Proof.
  pose proof (λ j r ctx out pc, handler_origin _ _ _ _ _ _ _ _ j r ctx out pc Hs Hi) as Ho. pose proof http_step_ws as Hws.
  constructor; change (st w') with st'.
  - intros j r ctx out pc v [[_ Hj]|(-> & out0 & pc0 & ev & Et & -> & Hstep)]%Ho Hv.
    + pose proof (so_len _ _ Hso _ _ _ _ _ _ Hj Hv). pose proof wsH_length. lia.
    + destruct (Hws _ _ _ _ _ _ Et Hstep) as [Hl Hor]. rewrite Et in Hi.
      destruct (Hor _ Hv) as [Hv'|(_ & ? & _)]; [|done].
      pose proof (so_len _ _ Hso _ _ _ _ _ _ Hi Hv'). lia.
  - assert (∀ j1 r1 ctx1 out1 pc1 r2 ctx2 out2 pc2 ev v, j1 ≠ i →
      threads w !! j1 = Some (THttp r1 ctx1 out1 pc1) → t = THttp r2 ctx2 out2 pc2 →
      ∀ pc2', http_step (st w) r2 ctx2 (length (threads w)) (read_done (threads w)) pc2 c
        = Some (st', ev, pc2', new) → pc_ws pc1 = Some v → pc_ws pc2' ≠ Some v) as Hne.
    { intros j1 r1 ctx1 out1 pc1 r2 ctx2 out2 pc2 ev v Hn Hj1 Et pc2' Hstep Hv1 Hv2.
      destruct (Hws _ _ _ _ _ _ Et Hstep) as [_ Hor]. rewrite Et in Hi.
      destruct (Hor _ Hv2) as [Hv|(-> & _)].
      - destruct Hn. by eapply (so_unique _ _ Hso).
      - pose proof (so_len _ _ Hso _ _ _ _ _ _ Hj1 Hv1). lia. }
    intros j1 j2 r1 ctx1 out1 pc1 r2 ctx2 out2 pc2 v
      [[N1 H1]|(-> & o1 & q1 & e1 & E1 & _ & S1)]%Ho [[N2 H2]|(-> & o2 & q2 & e2 & E2 & _ & S2)]%Ho V1 V2;
      [by eapply (so_unique _ _ Hso)| | |done]; exfalso; by eapply Hne.
  - intros v Hv. unfold h'. pose proof wsH_length.
    rewrite push_fresh by done. rewrite (so_fresh _ _ Hso v); [done|]. by etrans.
  - intros j r ctx out pc [[_ Hj]|(-> & out0 & pc0 & ev & Et & -> & Hstep)]%Ho He;
      [by eapply (so_early _ _ Hso)|].
    rewrite Et in Hi. destruct (early pc0) eqn:He0.
    + assert (http_enter (st w) r pc0 = Some (st', ev, pc, new)) as Hen.
      { destruct pc0; try done; by destruct c. }
      rewrite conns_app, (so_early _ _ Hso _ _ _ _ _ Hi He0).
      by destruct (http_enter_plain _ _ _ _ _ _ _ Hen) as [-> _].
    + destruct (http_step_keeps _ _ _ _ _ _ _ _ _ _ _ Hstep He0) as ([? _] & _). congruence.
  - intros j r ctx out pc v Hj Hv. unfold h'.
    apply Ho in Hj as [[Hne Hj]|(-> & out0 & pc0 & ev & Et & -> & Hstep)].
    + rewrite channels_after.
      * apply conversation_push. by eapply (so_ok _ _ Hso).
      * intros r0 ctx0 out0 pc0 Et Hv0. rewrite Et in Hi. apply Hne. by eapply (so_unique _ _ Hso).
    + assert (push w (LStep i c) v = []) as -> by (simpl; by rewrite Hi, Et). rewrite app_nil_r.
      destruct (Hws _ _ _ _ _ _ Et Hstep) as [_ Hor]. rewrite Et in Hi.
      destruct (Hor _ Hv) as [Hv'|(-> & Hl & He & k & ->)].
      * eapply http_step_conversation; [exact Hstep|done|]. by eapply (so_ok _ _ Hso).
      * rewrite (so_fresh _ _ Hso) by done. simpl.
        assert (http_enter (st w) r pc0 = Some (st', ev, PForward k FStart, new)) as Hen.
        { destruct pc0; try done; by destruct c. }
        destruct (http_enter_plain _ _ _ _ _ _ _ Hen) as [Hev [[Hw _]|(k' & _ & _ & Hw)]];
          [rewrite Hw in Hl; lia|].
        rewrite conns_app, (so_early _ _ Hso _ _ _ _ _ Hi He), Hev. split; [done|].
        unfold from_client. by rewrite Hw, lookup_app_r, Nat.sub_diag by done.
Qed.
End sockets.

Lemma socks_ext h h' w : (∀ v, h' v = h v) → socks h w → socks h' w.
Proof. intros Hh []. constructor; try setoid_rewrite Hh; eauto. Qed.

(** Handlers keep their point and what they have written; new ones are at the start. *)
Lemma socks_threads h w ts :
  socks h w →
  (∀ j r ctx out pc, ts !! j = Some (THttp r ctx out pc) →
     (∃ ctx', threads w !! j = Some (THttp r ctx' out pc)) ∨ (out = [] ∧ pc = PStart)) →
  socks h (mkWorld (st w) ts).
Proof.
  intros [Hl Hu Hf He Ho] Hh. constructor; cbn [st threads].
  - intros i r ctx out pc v Hi Hv. destruct (Hh _ _ _ _ _ Hi) as [[ctx' Hi']|[-> ->]]; [eauto|done].
  - intros i j r ctx out pc r' ctx' out' pc' v Hi Hj Hv Hv'.
    destruct (Hh _ _ _ _ _ Hi) as [[? Hi']|[-> ->]], (Hh _ _ _ _ _ Hj) as [[? Hj']|[-> ->]]; try done.
    eauto.
  - done.
  - intros i r ctx out pc Hi Hp. destruct (Hh _ _ _ _ _ Hi) as [[ctx' Hi']|[-> ->]]; [eauto|done].
  - intros i r ctx out pc v Hi Hv. destruct (Hh _ _ _ _ _ Hi) as [[ctx' Hi']|[-> ->]]; [eauto|done].
Qed.

Lemma socks_step h w l w' : socks h w → exec w l = Some w' → socks (λ v, h v ++ push w l v) w'.
Proof.
  intros Hso Hl. destruct l as [i c|i e|r|]; cbn [exec] in Hl.
  { apply bind_Some in Hl as (t & Hi & ([[st' t'] new] & Hs & [= <-])%bind_Some).
    by eapply socks_thread. }
  { apply bind_Some in Hl as (t & Hi & (t' & Hc & [= <-])%bind_Some).
    apply (socks_ext h); [intros v; apply app_nil_r|].
    destruct t as [r [] out pc| | | |]; simplify_eq/=.
    apply socks_threads; [done|]. intros j r0 ctx0 out0 pc0 [(<- & ? & _)|[_ ?]]%insert_lookup_cases;
      simplify_eq; eauto. }
  all: simplify_eq; apply (socks_ext h); [intros v; apply app_nil_r|]; apply socks_threads; [done|].
  all: intros j r0 ctx0 out0 pc0 [?|[_ ?]]%lookup_snoc_cases; simplify_eq; eauto.
Qed.

Lemma socks_run h w ls w' :
  socks h w → run w ls = Some w' → socks (λ v, h v ++ pushed w ls v) w'.
Proof.
  revert h w. induction ls as [|l ls IH]; intros h w Hso; simpl.
  { intros [= <-]. apply (socks_ext h); [intros; apply app_nil_r|done]. }
  intros (w1 & Hl & Hr)%bind_Some. eapply socks_ext; [|eapply IH; [by eapply socks_step|done]].
  intros v. simpl. by rewrite Hl, app_assoc.
Qed.

Lemma socks_init s : socks (λ _, []) (init_world s).
Proof. constructor; done. Qed.

(** WebSocket messages stay whole and in order in both directions, under every
    interleaving.  What a session's stream carries of a WebSocket is what the reader has
    read from the browser's connection, piece by piece in the order of the reads; while the
    session is open nothing is missing: what has been sent, what is queued and what the
    reader holds make up all that was read.  (When the session closes, pieces may be
    dropped but never exchanged or repeated.)  The other way, the handler writes the
    handshake first and then an initial part of the messages that the receive loop put into
    its WebSocket's channel, one by one; and while it serves the WebSocket nothing is lost:
    what is written and what is in the channel are all the messages. *)
Theorem websocket_in_order cfg s ls w :
  New cfg = Ok s → (MaxTotalInflight cfg ≤ max_i64)%Z → (Z.of_nat (length ls) < 2^64)%Z →
  run (init_world s) ls = Some w →
  (∀ i j p id pc sent e, threads w !! i = Some (TReader p id pc) →
     threads w !! j = Some (TSend p sent e) →
     messages id sent `sublist_of` reads_by ls i
     ∧ (is_closed (st w) p = false → e = None →
        messages id sent ++ messages id (queue_of (st w) p) ++ unsent pc = reads_by ls i))
  ∧ (∀ i r ctx out pc v, threads w !! i = Some (THttp r ctx out pc) → pc_ws pc = Some v →
     hung_up out (pushed (init_world s) ls v)
     ∧ ∀ k reader, pc = PWsLoop k reader → ∃ hs cs, conns out = hs :: cs
         ∧ pushed (init_world s) ls v = cs ++ from_client (st w) v).
Proof.
  intros Hnew Hmax Hlen Hrun. split.
  - intros i j p id pc sent e Hi Hj.
    destruct (run_forwards _ _ _ _ Hnew Hmax Hlen Hrun) as [_ Hff].
    destruct (rr_ok _ _ _ (run_readers _ _ _ _ Hnew Hmax Hlen Hrun) _ _ _ _ Hi) as [Hsub Hall].
    split.
    + destruct (fifo_prefix _ _ _ _ _ _ Hff Hj) as [rest Hq]. etrans; [|exact Hsub].
      rewrite Hq, messages_app, <-app_assoc. by apply sublist_inserts_r.
    + intros Ho ->. rewrite <-Hall by done. rewrite (fifo_sent _ _ Hff _ _ _ Hj eq_refl).
      by rewrite messages_app, <-app_assoc.
  - intros i r ctx out pc v Hi Hv.
    pose proof (so_ok _ _ (socks_run _ _ _ _ (socks_init s) Hrun) _ _ _ _ _ _ Hi Hv) as Hc.
    split; [by eapply conversation_hung_up|]. intros k reader ->.
    destruct Hc as (cs & [hs Hsp] & Hp). eauto.
Qed.
End websocket.

Section witnesses.
Import Scenario.

Definition upgrade : Request :=
  mkRequest "demo.example.com" "GET" "/ws" "" "" "192.0.2.1:5" true
    {[ "Upgrade" := ["websocket"] ]} None true.

Definition switching : ClientFrame := ClientFrame_ResponseStart (mkResponseStart "1" 101 []).

(** It is hijacked; the reader, thread 4, reads a piece and sends it; two messages arrive,
    of which one is written. *)
Definition chat : list label :=
  connect ++ [LRequest upgrade] ++ replicate 6 (LStep 3 Go)
  ++ [LStep 3 OnSend; LStep 3 OnSend; LStep 0 (Recv switching); LStep 0 OnSend;
      LStep 3 OnStart; LStep 3 (IO true); LStep 3 (IO true);
      LStep 4 (Read "" None); LStep 4 (Read "hi" None); LStep 4 OnSend; LStep 4 (Read "you" None);
      LStep 0 (Recv (ClientFrame_WsData "1" "a")); LStep 0 OnSend;
      LStep 0 (Recv (ClientFrame_WsData "1" "b")); LStep 0 OnSend;
      LStep 3 OnWsData; LStep 3 (IO true); LStep 1 OnSend; LStep 1 OnSend; LStep 1 OnSend].

Definition chat_sent : list ServerFrame :=
  [ServerFrame_RequestStart (request_start upgrade "1"); ServerFrame_RequestEnd "1";
   ServerFrame_WsData "1" "hi"].

Definition hello : string := handshake (∅ : HttpHeader).

Example websocket_in_order_witness :
  messages "1" chat_sent ++ [] ++ ["you"] = reads_by chat 4
  ∧ ∃ hs cs, [WConn hello; WConn "a"] = WConn hs :: (WConn <$> cs)
      ∧ pushed start_world chat 0 = cs ++ ["b"].
Proof.
  destruct (websocket_in_order config server chat (after chat)) as [Hup Hdown];
    [exact server_new|done|done|vm_compute; reflexivity|].
  split.
  - refine (proj2 (Hup 4 1 0 "1" (RSend "you" None) chat_sent None _ _) _ _); vm_compute; reflexivity.
  - destruct (proj2 (Hdown 3 upgrade None [WConn hello; WConn "a"]
      (PWsLoop (mkK 0 "1" 0 (Some 0)) 4) 0 ltac:(vm_compute; reflexivity) eq_refl) _ _ eq_refl)
      as (hs & cs & Hc & Hp).
    exists hs, cs. split; [|exact Hp]. cbn [conns omap list_omap] in Hc. injection Hc as <- <-. reflexivity.
Defined.
End witnesses.
