(* ===== verification/Replies.v ===== *)
(** * server: a response is what the client has sent for the request.

    [Pipeline] follows a response from the channels of its response state to the browser;
    this file follows it from the stream into these channels.  The frames that the receive
    loop of a session has received are recorded along a run; those that answer a request
    are compared with what was put into its response state. *)

From S2P Require Import Prelude GoStrings Hostnames Proto Headers Channels ResponseState Server.
From S2P Require Import Frames Steps Scenario Abstract Invariants Origins ServerConfig Routing Sessions Pipeline Edge Forward.

Section replies.
Context `{UnicodeData}.

(** ** The record of a run *)

(** What a step receives on the stream of session [p]. *)
Definition conn_hear (pc : conn_pc) (c : choice) (p : nat) : list ClientFrame :=
  match pc, c with CRecv q _, Recv f => if decide (q = p) then [f] else [] | _, _ => [] end.

Definition hear (w : world) (l : label) (p : nat) : list ClientFrame :=
  match l with
  | LStep i c => match threads w !! i with Some (TConn pc) => conn_hear pc c p | _ => [] end
  | _ => []
  end.

(** What the receive loop of session [p] has received in a whole run. *)
Fixpoint heard (w : world) (ls : list label) (p : nat) : list ClientFrame :=
  match ls with
  | [] => []
  | l :: ls => hear w l p ++ match exec w l with Some w' => heard w' ls p | None => [] end
  end.

(** What a receive loop is about to put into response state [q]. *)
Definition hand (pc : conn_pc) (q : nat) : list (ResponseStart + string) := conn_accept pc OnSend q.

(** The client of session [p] answers a request only when it has been sent: at every moment
    of the run the session has received answers to requests only that are on its queue or
    stream. *)
Definition honest (w : world) (ls : list label) (p : nat) : Prop :=
  ∀ ls1 ls2 id, ls = ls1 ++ ls2 →
    replies id (heard w ls1 p) ≠ [] → about id (queued w ls1 p) ≠ [].

(** ** Steps *)

(** The done channel of response state [q] is closed. *)
Definition finished (st : state) (q : nat) : Prop := ∃ r, rsH st !! q = Some r ∧ done r = true.

Lemma finished_same st st' q : rsH st' !! q = rsH st !! q → finished st' q → finished st q.
Proof. unfold finished. by intros ->. Qed.

Lemma finished_alter f st st' x q :
  rsH st' = alter f x (rsH st) → x ≠ q → finished st' q → finished st q.
Proof. intros Heq Hne. apply finished_same. rewrite Heq. by apply list_lookup_alter_ne. Qed.

Lemma finished_put st x r r' q :
  rsH st !! x = Some r → done r' = done r → finished (put_rs st x r') q → finished st q.
Proof.
  intros Hr Hd (y & Hy & Hyd). simpl in Hy.
  apply insert_lookup_cases in Hy as [(<- & <- & _)|[_ Hy]]; [exists r|exists y]; split; congruence.
Qed.

(** A receive loop that receives a frame. *)
Lemma conn_step_hear st self res p snd f st' pc' new id q :
  conn_step st self res (CRecv p snd) (Recv f) = Some (st', pc', new) →
  sess_get st p id = Some q → (∀ id', sess_get st p id' = Some q → id' = id) →
  conn_receives pc' = Some p ∧ hand pc' q = contents (replies id [f])
  ∧ (ended_by (replies id [f]) → hand pc' q = [])
  ∧ (finished st' q → finished st q ∨ ended_by (replies id [f])).
Proof.
  intros Hs Hget Hinj. cbn [conn_step] in Hs.
  destruct (handleClientFrame st p f) as [st1 d] eqn:Hf. simplify_eq. rewrite replies_one.
  split; [by destruct d|].
  assert (∀ id' r, sess_get st p id' = Some r → id' ≠ id → r ≠ q) as Hne.
  { intros id' r Hr Hn ->. by apply Hn, Hinj. }
  assert (∀ x, finished st x → finished st x ∨ ended_by (replies id [f])) as Hfin by auto.
  assert (∀ d, conn_accept (match d with Some d => CDeliver p snd d | None => CRecv p snd end) OnSend q
    = match d with
      | Some (DStart r m) => if decide (r = q) then [inl m] else []
      | Some (DBody r x) => if decide (r = q) then [inr x] else []
      | _ => []
      end) as Hhand by (by intros [[]|]).
  unfold hand. rewrite Hhand.
  destruct f; cbn [handleClientFrame reply_id] in *; simplify_eq;
    try (rewrite decide_False by done);
    try (case_decide as Hid; [injection Hid as ->; rewrite Hget, ?ended_one|]); simpl;
    split_and!; auto;
    try match goal with |- context [sess_get ?s p ?i] => destruct (sess_get s p i) eqn:Hx; simpl; auto end;
    try match goal with |- context [getWS ?s p ?i] => destruct (getWS s p i) eqn:Hx; simpl; auto end.
  all: try (by rewrite decide_True).
  all: try (rewrite decide_False; [by auto|naive_solver]).
  all: intros Hd; left; eapply finished_alter; [..|exact Hd]; [reflexivity|naive_solver].
Qed.

(** What is put into a response state is what the receive loop has in its hands, or nothing. *)
Lemma conn_accept_hand pc c q : conn_accept pc c q = [] ∨ conn_accept pc c q = hand pc q.
Proof.
  destruct pc; try (left; reflexivity). destruct d; try (left; reflexivity);
    destruct c; first [left; reflexivity|right; reflexivity].
Qed.

(** The rest of a [Connect]: a receive loop puts what it has in its hands into its response
    state, or drops it because that is finished. *)
Lemma conn_step_hand st self res pc c st' pc' new p q :
  conn_step st self res pc c = Some (st', pc', new) →
  conn_receives pc' = Some p → (∀ snd f, pc = CRecv p snd → c ≠ Recv f) →
  hand pc' q = [] ∧ (conn_receives pc = Some p ∨ p = length (sessH st) ∧ pc = CFirst)
  ∧ (hand pc q = conn_accept pc c q ∨ finished st q ∧ conn_accept pc c q = []).
Proof.
  intros Hs Hp Hn. destruct pc; cbn [conn_step] in Hs; try done;
    try (open_step; repeat case_match; simplify_eq/=; by auto).
  - destruct c; try done; [|by simplify_eq].
    destruct (handleClientFrame st p0 f) as [st1 d] eqn:Hf. simplify_eq.
    assert (p0 = p) as -> by (by destruct d; simplify_eq/=). by destruct (Hn snd f).
  - apply bind_Some in Hs as (st1 & Hd & Hs). simplify_eq/=. split_and!; [done|by left|].
    destruct d as [x m|x b|x b], c; simplify_eq/=; auto; open_step.
    all: destruct (decide (x = q)) as [->|?]; [right; split; [by eexists|done]|left].
    all: unfold hand; simpl; try done; by rewrite decide_False.
Qed.

(** Only a receive loop that hears an end, and a failing session, finish response states. *)
Lemma conn_step_finished st self res pc c st' pc' new q :
  conn_step st self res pc c = Some (st', pc', new) → finished st' q →
  finished st q
  ∨ ∃ p, registered st p q ∧ (conn_failing pc = Some p ∨ ∃ snd f, pc = CRecv p snd ∧ c = Recv f).
Proof.
  intros Hs Hf.
  assert (rsH st' = rsH st → finished st q) as Hsame.
  { intros Heq. eapply finished_same; [|done]. by rewrite Heq. }
  assert (∀ p e n, shutdown_fail st p e = Some (st', n) → finished st q ∨ registered st p q) as Hfail.
  { intros p e n (s & Hp & _ & _ & _ & Hr)%shutdown_fail_spec.
    destruct (decide (q ∈ (map_to_list (inflight s)).*2)) as [([id x] & -> & Hin)%list_elem_of_fmap|Hno].
    - right. exists s, id. split; [done|]. by apply elem_of_map_to_list in Hin.
    - left. eapply finished_same; [|done]. rewrite Hr. by apply foldl_fail_at_ne. }
  destruct pc; cbn [conn_step] in Hs; try done; try (open_step; left; by apply Hsame);
    try (open_step; left; apply Hsame; by eapply shutdown_enter_rs).
  - open_step. match goal with Hsd : shutdown_fail _ _ _ = _ |- _ =>
      destruct (Hfail _ _ _ Hsd); [by left|right; eauto] end.
  - destruct c; try done; [|open_step; left; by apply Hsame].
    destruct (handleClientFrame st p f) as [st1 d] eqn:Hh. simplify_eq.
    assert (∀ g x i, rsH st' = alter g x (rsH st) → sess_get st p i = Some x →
      finished st q ∨ registered st p q) as Halter.
    { intros g x i Heq Hx%sess_get_registered. destruct (decide (x = q)) as [->|Hne]; [by right|left].
      by eapply finished_alter. }
    assert (finished st q ∨ registered st p q) as [?|?]; [|by left|right; eauto 10].
    destruct f; simplify_eq/=; try (left; by apply Hsame); try (case_match; simplify_eq/=);
      try (left; by apply Hsame); by eapply Halter.
  - apply bind_Some in Hs as (st1 & Hd & Hs). simplify_eq. left.
    destruct d, c; simplify_eq/=; open_step; try (by apply Hsame);
      match goal with Hp : push_start _ _ = _ |- _ => unfold push_start in Hp
        | Hp : push_body _ _ = _ |- _ => unfold push_body in Hp end;
      open_step; (eapply finished_put; [eassumption| |exact Hf]; reflexivity).
  - open_step. match goal with Hsd : shutdown_fail _ _ _ = _ |- _ =>
      destruct (Hfail _ _ _ Hsd); [by left|right; eauto] end.
Qed.

(** Handlers finish no response states. *)
Lemma consumeStart_done r : done (consumeStart r).2 = done r.
Proof. unfold consumeStart. by repeat case_match. Qed.
Lemma consumeBody_done r : done (consumeBody r).2 = done r.
Proof. unfold consumeBody. by repeat case_match. Qed.
Lemma consumeErr_done r : done (consumeErr r).2 = done r.
Proof. unfold consumeErr. by repeat case_match. Qed.

Lemma http_respond_finished st ctx pc c st' ev pc' new q :
  http_respond st ctx pc c = Some (st', ev, pc', new) → finished st' q → finished st q.
Proof.
  intros Hs Hf. destruct pc; try done; cbn [http_respond] in Hs; open_step; try done;
    try (match goal with Hc : cancelRequest _ _ _ _ = Some _ |- _ =>
           eapply finished_same; [|exact Hf];
           apply (quiet_rs _ _ _ (cancelRequest_quiet none _ _ _ _ _ Hc)); by intros [] end);
    (eapply finished_put; [eassumption| |exact Hf]);
    repeat match goal with E : _ = (?a, ?b) |- _ => apply (f_equal snd) in E; simpl in E; subst b end;
    by rewrite ?consumeErr_done, ?consumeStart_done, ?consumeBody_done.
Qed.

Lemma http_websocket_finished st r ctx self rd pc c st' ev pc' new q :
  http_websocket st r ctx self rd pc c = Some (st', ev, pc', new) → finished st' q → finished st q.
Proof.
  intros Hs Hf. destruct pc; try done; cbn [http_websocket] in Hs; open_step; try done;
    (eapply finished_put; [eassumption| |exact Hf]);
    repeat match goal with E : _ = (?a, ?b) |- _ => apply (f_equal snd) in E; simpl in E; subst b end;
    by rewrite ?consumeErr_done, ?consumeStart_done, ?consumeBody_done.
Qed.

Lemma http_step_finished st r ctx self rd pc c st' ev pc' new q :
  http_step st r ctx self rd pc c = Some (st', ev, pc', new) → finished st' q → finished st q.
Proof.
  intros Hs Hf.
  assert (rsH st' = rsH st → finished st q) as Hsame.
  { intros Heq. eapply finished_same; [|done]. by rewrite Heq. }
  destruct pc; try done; cbn [http_step] in Hs;
    try (by eapply http_respond_finished); try (by eapply http_websocket_finished);
    try (destruct c; try done; cbn [http_enter http_exit] in Hs; open_step; by apply Hsame).
  - destruct c; try done. cbn [http_enter] in Hs.
    apply bind_Some in Hs as ([st1 res] & (s & Hp & Ht)%bind_Some & Hs). simplify_eq.
    destruct (_ && _); injection Ht as <- <-; [by apply Hsame|].
    destruct Hf as (r0 & Hr & Hd). simpl in Hr.
    apply lookup_snoc_cases in Hr as [?|[_ <-]]; [by exists r0|done].
  - destruct c; try done. cbn [http_enter] in Hs. open_step.
    match goal with Hp : putWS _ _ _ _ = _ |- _ => apply bind_Some in Hp as (s & _ & [= <-]) end.
    by apply Hsame.
  - apply bind_Some in Hs as ([st1 res] & Hfw & Hs).
    assert (st1 = st') as -> by (destruct res; [|destruct (forwarded _ _ _)]; by simplify_eq).
    eapply finished_same; [|done]. apply (quiet_rs _ _ _ (forwardRequest_quiet none _ _ _ _ _ _ _ _ _ Hfw)).
    by intros [].
  - destruct c; try done. cbn [http_exit] in Hs. open_step.
    match goal with Hp : delWS _ _ _ = _ |- _ => apply bind_Some in Hp as (s & _ & [= <-]) end.
    by apply Hsame.
  - destruct c; try done. cbn [http_exit] in Hs.
    apply bind_Some in Hs as ([st1 b] & (s & Hp & Hd)%bind_Some & Hs).
    destruct (inflight s !! k_id k); simplify_eq; by apply Hsame.
Qed.

Lemma hearing pc c p :
  (∃ snd f, pc = CRecv p snd ∧ c = Recv f) ∨ ¬ ∃ snd f, pc = CRecv p snd ∧ c = Recv f.
Proof.
  destruct pc as [| | | | |q snd| | | | | | |]; try (right; by intros (? & ? & ? & _)).
  destruct c; try (right; by intros (? & ? & _ & ?)).
  destruct (decide (q = p)) as [->|]; [left; eauto|right; naive_solver].
Qed.

(** *** Registered requests *)

(** A handler holds what it held, or has just registered it. *)
Lemma http_abs_holds st pc st' pc' p id q :
  http_abs st pc st' pc' → http_holds pc' = Some (p, id, q) →
  http_holds pc = Some (p, id, q)
  ∨ ∃ ws, pc = PTryStart p id ws ∧ q = length (rsH st) ∧ sess_get st' p id = Some q.
Proof.
  intros Ha Hh. destruct Ha as [???? ? ? Hp| | | | |? p1 id1 ws s1 pc1 Hs1 ? ? Hp| | |];
    simpl in *; try done; [left; congruence|]. simplify_eq. right. exists ws. split_and!; [done..|].
  unfold sess_get. simpl. rewrite list_lookup_insert_eq by (by eapply lookup_lt_Some). simpl.
  apply lookup_insert_eq.
Qed.

Lemma quiet_sess_get T st st' p id : quiet T st st' → sess_get st' p id = sess_get st p id.
Proof.
  intros Hq. pose proof (quiet_sess _ _ _ Hq) as Hs. unfold sess_get.
  destruct (sessH st !! p) as [s|] eqn:Hp.
  - destruct (Forall2_lookup_l _ _ _ _ _ Hs Hp) as (s' & -> & Hr). simpl. by rewrite (reg_inflight _ _ Hr).
  - apply lookup_ge_None in Hp. rewrite (Forall2_length _ _ _ Hs) in Hp.
    by rewrite lookup_ge_None_2.
Qed.

(** Registrations stay: a handler removes only its own, a [Connect] only those of a session
    that it has closed. *)
Lemma http_abs_registered st pc st' pc' p id q :
  http_abs st pc st' pc' → http_ident pc ≠ Some id ∨ http_holds pc' = Some (p, id, q) →
  sess_get st p id = Some q → sess_get st' p id = Some q.
Proof.
  intros Ha Hid Hg. destruct Ha as [???? Hq| | | | |? p1 id1 ws s1 pc1 Hs1 ? ? Hp| |? k s1 r1 Hs1 Hr1|];
    try done.
  - by rewrite (quiet_sess_get _ _ _ _ _ Hq).
  - unfold sess_get in *. simpl. destruct (decide (p1 = p)) as [->|Hne];
      [|by rewrite list_lookup_insert_ne].
    rewrite list_lookup_insert_eq by (by eapply lookup_lt_Some). rewrite Hs1 in Hg. simpl in *.
    destruct (decide (id1 = id)) as [->|]; [|by rewrite lookup_insert_ne].
    destruct Hid as [Hid|Hid]; [done|]. rewrite Hp in Hid. simplify_eq. by rewrite lookup_insert_eq.
  - destruct Hid as [Hid|]; [|done]. unfold sess_get in *. simpl in *.
    destruct (decide (k_sess k = p)) as [<-|Hne]; [|by rewrite list_lookup_insert_ne].
    rewrite list_lookup_insert_eq by (by eapply lookup_lt_Some). rewrite Hs1 in Hg. simpl in *.
    rewrite lookup_delete_ne; [done|]. congruence.
Qed.

Lemma conn_step_registered st self res pc c st' pc' new p id q :
  conn_step st self res pc c = Some (st', pc', new) → conn_failing pc ≠ Some p →
  sess_get st p id = Some q → sess_get st' p id = Some q.
Proof.
  intros Hs Hf Hg.
  assert (∀ T, quiet T st st' → sess_get st' p id = Some q) as Hquiet.
  { intros T Hq. by rewrite (quiet_sess_get _ _ _ _ _ Hq). }
  assert (∀ x e n, shutdown_fail st x e = Some (st', n) → x ≠ p → sess_get st' p id = Some q) as Hfail.
  { intros x e n (s & _ & _ & _ & Heq & _)%shutdown_fail_spec Hne. unfold sess_get in *.
    by rewrite Heq, list_lookup_insert_ne. }
  destruct pc; cbn [conn_step] in Hs; try done; try (open_step; done).
  - open_step; try done; unfold sess_get in *; simpl; apply bind_Some in Hg as (s1 & Hs1 & Hg);
      by rewrite lookup_app_l, Hs1 by (by eapply lookup_lt_Some).
  - open_step. eapply (Hquiet none), shutdown_enter_quiet; eassumption.
  - open_step. eapply Hfail; [eassumption|]. naive_solver.
  - destruct c; try done; [|open_step; done].
    destruct (handleClientFrame st p0 f) as [st1 d] eqn:Hh. simplify_eq.
    destruct (handleClientFrame_abs _ _ _ _ _ Hh) as [Hq _]. by eapply Hquiet.
  - open_step. eapply Hquiet, (deliver_quiet _ 0 0); eassumption.
  - open_step. eapply (Hquiet none), shutdown_enter_quiet; eassumption.
  - open_step. eapply Hfail; [eassumption|]. naive_solver.
Qed.

(** A failing session has nothing registered afterwards. *)
Lemma conn_step_empties st self res pc c st' pc' new p id :
  conn_step st self res pc c = Some (st', pc', new) → conn_failing pc = Some p →
  sess_get st' p id = None.
Proof.
  intros Hs Hf.
  assert (∀ e n, shutdown_fail st p e = Some (st', n) → sess_get st' p id = None) as Hfail.
  { intros e n (s & Hp & _ & _ & Heq & _)%shutdown_fail_spec. unfold sess_get.
    by rewrite Heq, list_lookup_insert_eq by (by eapply lookup_lt_Some). }
  destruct pc; try done; injection Hf as ->; cbn [conn_step] in Hs; open_step; by eapply Hfail.
Qed.

(** What is registered afterwards was registered before or is new. *)
Lemma conn_step_registered_before st self res pc c st' pc' new p id q :
  conn_step st self res pc c = Some (st', pc', new) → sess_get st' p id = Some q →
  sess_get st p id = Some q.
Proof.
  intros Hs Hg.
  assert (∀ T, quiet T st st' → sess_get st p id = Some q) as Hquiet.
  { intros T Hq. by rewrite <-(quiet_sess_get _ _ _ _ _ Hq). }
  assert (∀ x e n, shutdown_fail st x e = Some (st', n) → sess_get st p id = Some q) as Hfail.
  { intros x e n (s & Hp & _ & _ & Heq & _)%shutdown_fail_spec. unfold sess_get in *.
    rewrite Heq in Hg. destruct (decide (x = p)) as [->|Hne]; [|by rewrite list_lookup_insert_ne in Hg].
    by rewrite list_lookup_insert_eq in Hg by (by eapply lookup_lt_Some). }
  destruct pc; cbn [conn_step] in Hs; try done; try (open_step; done).
  - open_step; try done; unfold sess_get in *; simpl in *; apply bind_Some in Hg as (s1 & Hs1 & Hg);
      apply lookup_snoc_cases in Hs1 as [->|[_ <-]]; done.
  - open_step. eapply (Hquiet none), shutdown_enter_quiet; eassumption.
  - open_step. eapply Hfail; eassumption.
  - destruct c; try done; [|open_step; done].
    destruct (handleClientFrame st p0 f) as [st1 d] eqn:Hh. simplify_eq.
    destruct (handleClientFrame_abs _ _ _ _ _ Hh) as [Hq _]. by eapply Hquiet.
  - open_step. eapply Hquiet, (deliver_quiet _ 0 0); eassumption.
  - open_step. eapply (Hquiet none), shutdown_enter_quiet; eassumption.
  - open_step. eapply Hfail; eassumption.
Qed.

Lemma http_abs_registered_before st pc st' pc' p id q :
  http_abs st pc st' pc' → sess_get st' p id = Some q →
  sess_get st p id = Some q ∨ q = length (rsH st).
Proof.
  intros Ha Hg. destruct Ha as [???? Hq| | | | |? p1 id1 ws s1 pc1 Hs1 ? ? Hp| |? k s1 r1 Hs1 Hr1|];
    auto.
  - left. by rewrite <-(quiet_sess_get _ _ _ _ _ Hq).
  - unfold sess_get in *. simpl in *. destruct (decide (p1 = p)) as [->|Hne];
      [|rewrite list_lookup_insert_ne in Hg by done; by left].
    rewrite list_lookup_insert_eq in Hg by (by eapply lookup_lt_Some). rewrite Hs1. simpl in *.
    destruct (decide (id1 = id)) as [->|]; [right|left; by rewrite lookup_insert_ne in Hg].
    rewrite lookup_insert_eq in Hg. by injection Hg.
  - left. unfold sess_get in *. simpl in *.
    destruct (decide (k_sess k = p)) as [<-|Hne]; [|by rewrite list_lookup_insert_ne in Hg].
    rewrite list_lookup_insert_eq in Hg by (by eapply lookup_lt_Some). rewrite Hs1. simpl in *.
    by apply lookup_delete_Some in Hg as [_ ?].
Qed.

Lemma conn_step_opens st self res pc c st' pc' new p :
  conn_step st self res pc c = Some (st', pc', new) → conn_receives pc' = Some p →
  conn_receives pc = Some p ∨ p = length (sessH st) ∧ length (sessH st') = S p.
Proof.
  intros Hs Hp. destruct pc; cbn [conn_step] in Hs; try done; open_step; simplify_eq/=; auto;
    repeat case_match; simplify_eq/=; auto; right; (split; [done|]); rewrite length_app; simpl; lia.
Qed.

(** What a [Connect] delivers it has just heard, for a registered request. *)
Lemma conn_step_delivers st self res pc c st' pc' new q :
  conn_step st self res pc c = Some (st', pc', new) → delivers (TConn pc') = Some q →
  ∃ p id, conn_receives pc' = Some p ∧ sess_get st p id = Some q.
Proof.
  intros Hs Hd. destruct pc; cbn [conn_step] in Hs; try done;
    try (open_step; repeat case_match; by simplify_eq/=).
  destruct c; try done; [|by simplify_eq].
  destruct (handleClientFrame st p f) as [st1 d] eqn:Hf. simplify_eq. exists p.
  destruct f; simplify_eq/=; try (by destruct (getWS _ _ _));
    match goal with Hd : context [sess_get ?s p ?j] |- _ => exists j; destruct (sess_get s p j) eqn:? end;
    by simplify_eq/=.
Qed.

(** ** The invariant *)

(** The record [hr] of what was received and the record [ac] of what was put into response
    states.  While a request of session [o] is registered, what answers it has been put
    into its response state, apart from what its receive loop still has in its hands; at any
    time an initial part of it has. *)
Record answers (o : nat) (hr : nat → list ClientFrame) (ac : nat → list (ResponseStart + string))
    (w : world) : Prop := {
  an_conns : ∀ i j pc pc' p, threads w !! i = Some (TConn pc) → threads w !! j = Some (TConn pc') →
    conn_receives pc = Some p → conn_receives pc' = Some p → i = j;
  an_opened : ∀ i pc p, threads w !! i = Some (TConn pc) → conn_receives pc = Some p →
    p < length (sessH (st w));
  an_fresh : ∀ p, length (sessH (st w)) ≤ p → hr p = [];
  an_registered : ∀ i r ctx out pc p id q, threads w !! i = Some (THttp r ctx out pc) →
    http_holds pc = Some (p, id, q) → is_closed (st w) p = false → sess_get (st w) p id = Some q;
  an_hand : ∀ i j r ctx out hpc p id q pc, threads w !! i = Some (THttp r ctx out hpc) →
    http_holds hpc = Some (p, id, q) → threads w !! j = Some (TConn pc) →
    delivers (TConn pc) = Some q → conn_receives pc = Some p;
  an_ok : ∀ i j r ctx out hpc id q pc, threads w !! i = Some (THttp r ctx out hpc) →
    http_holds hpc = Some (o, id, q) → threads w !! j = Some (TConn pc) →
    conn_receives pc = Some o → sess_get (st w) o id = Some q → orderly (replies id (hr o)) →
    contents (replies id (hr o)) = ac q ++ hand pc q
    ∧ (ended_by (replies id (hr o)) → hand pc q = [])
    ∧ (finished (st w) q → ended_by (replies id (hr o)));
  an_prefix : ∀ i r ctx out hpc id q, threads w !! i = Some (THttp r ctx out hpc) →
    http_holds hpc = Some (o, id, q) → orderly (replies id (hr o)) →
    ac q `prefix_of` contents (replies id (hr o))
    ∧ ∀ j pc, threads w !! j = Some (TConn pc) → conn_receives pc = Some o →
        ac q ++ hand pc q `prefix_of` contents (replies id (hr o)) }.

Section step.
Context (o : nat) (hr : nat → list ClientFrame) (ac : nat → list (ResponseStart + string)).
Context (w : world) (i : nat) (t : thread) (c : choice) (st' : state) (t' : thread) (new : list thread).
Hypothesis Han : answers o hr ac w.
Hypothesis Hpi : piped ac w.
Hypothesis Hinv : inv w.
Hypothesis Hheap : heap_inv w.
Hypothesis Hro : routes w.
Hypothesis Hhonest : ∀ r ctx out id ws, t = THttp r ctx out (PTryStart o id ws) →
  replies id (hr o) = [].
Hypothesis Hi : threads w !! i = Some t.
Hypothesis Hs : thread_step (st w) (threads w) t c = Some (st', t', new).

Let w' := mkWorld st' (<[i := t']> (threads w) ++ new).
Let hr' := λ p, hr p ++ hear w (LStep i c) p.
Let ac' := λ q, ac q ++ accept w (LStep i c) q.

Lemma step_abs : thread_abs (st w) t st' t'.
Proof. by destruct (thread_step_abs _ _ _ _ _ _ _ Hs). Qed.

Lemma open_before p : is_closed st' p = false → is_closed (st w) p = false.
Proof.
  intros Ho. destruct (is_closed (st w) p) eqn:Hc; [|done].
  rewrite (is_closed_keeps _ _ _ _ _ step_abs Hc) in Ho. done.
Qed.

(** Whose a registered response state is. *)
Lemma owner_same j r ctx out pc p id q p' id' :
  threads w !! j = Some (THttp r ctx out pc) → http_holds pc = Some (p, id, q) →
  sess_get (st w) p' id' = Some q → p' = p ∧ id' = id.
Proof.
  intros Hj Hh (s & Hsess & Hg)%bind_Some.
  destruct (inv_owner _ Hinv _ _ _ _ Hsess Hg) as (k & u & Hk & Hu).
  assert (k = j) as ->.
  { eapply (refs_unique _ (piped_refs _ _ Hpi)); [exact Hk|exact Hj|..]; unfold holds_rs;
      [by rewrite Hu|simpl; by rewrite Hh]. }
  rewrite Hj in Hk. injection Hk as <-. simpl in Hu. rewrite Hh in Hu. by injection Hu.
Qed.

Lemma held_session j r ctx out pc p id q :
  threads w !! j = Some (THttp r ctx out pc) → http_holds pc = Some (p, id, q) →
  p < length (sessH (st w)).
Proof.
  intros Hj Hh. destruct (routes_threads _ Hro _ _ Hj p (holds_sess _ _ _ _ Hh)) as (s & Hp & _).
  by eapply lookup_lt_Some.
Qed.

(** Handlers of the new world. *)
Lemma holder_origin j r ctx out pc p id q :
  threads w' !! j = Some (THttp r ctx out pc) → http_holds pc = Some (p, id, q) →
  (∃ out0 pc0, threads w !! j = Some (THttp r ctx out0 pc0) ∧ http_holds pc0 = Some (p, id, q)
     ∧ (j = i → t = THttp r ctx out0 pc0 ∧ http_abs (st w) pc0 st' pc))
  ∨ (j = i ∧ ∃ out0 ws, t = THttp r ctx out0 (PTryStart p id ws) ∧ q = length (rsH (st w))
       ∧ sess_get st' p id = Some q).
Proof.
  intros Hj Hh. destruct (handler_origin _ _ _ _ _ _ _ _ _ _ _ _ _ Hs Hi Hj)
    as [[Hne Hj']|(-> & out0 & pc0 & ev & Et & -> & Hstep)].
  - left. exists out, pc. split_and!; [done..|]. intros ->. done.
  - pose proof (http_step_abs _ _ _ _ _ _ _ _ _ _ _ Hstep) as Ha.
    destruct (http_abs_holds _ _ _ _ _ _ _ Ha Hh) as [Hh0|(ws & -> & -> & Hg)].
    + left. exists out0, pc0. rewrite <-Et. auto.
    + right. split; [done|]. by exists out0, ws.
Qed.

Lemma conns_unique j1 j2 pc1 pc2 p :
  threads w' !! j1 = Some (TConn pc1) → threads w' !! j2 = Some (TConn pc2) →
  conn_receives pc1 = Some p → conn_receives pc2 = Some p → j1 = j2.
Proof.
  assert (∀ j pc pc0 pc0', j ≠ i → threads w !! j = Some (TConn pc) → conn_receives pc = Some p →
    t = TConn pc0 → conn_step (st w) (length (threads w)) (send_result (threads w)) pc0 c
      = Some (st', pc0', new) → conn_receives pc0' ≠ Some p) as Hno.
  { intros j pc pc0 pc0' Hne Hj Hp Et Hstep Hp'.
    destruct (conn_step_opens _ _ _ _ _ _ _ _ _ Hstep Hp') as [Hp0|[-> _]].
    - apply Hne. rewrite Et in Hi. by eapply (an_conns _ _ _ _ Han).
    - by apply (an_opened _ _ _ _ Han _ _ _ Hj), Nat.lt_irrefl in Hp. }
  intros H1 H2 P1 P2.
  destruct (conn_origin _ _ _ _ _ _ _ _ _ _ Hs Hi H1) as [[N1 O1]|(-> & q1 & E1 & S1)],
    (conn_origin _ _ _ _ _ _ _ _ _ _ Hs Hi H2) as [[N2 O2]|(-> & q2 & E2 & S2)];
    [by eapply (an_conns _ _ _ _ Han)|exfalso; by eapply Hno..|done].
Qed.

Lemma conns_opened j pc p :
  threads w' !! j = Some (TConn pc) → conn_receives pc = Some p → p < length (sessH st').
Proof.
  pose proof (thread_step_sessions _ _ _ _ _ _ _ Hs) as Hle. intros Hj Hp.
  destruct (conn_origin _ _ _ _ _ _ _ _ _ _ Hs Hi Hj) as [[_ Hj']|(-> & pc0 & Et & Hstep)].
  - pose proof (an_opened _ _ _ _ Han _ _ _ Hj' Hp). lia.
  - destruct (conn_step_opens _ _ _ _ _ _ _ _ _ Hstep Hp) as [Hp0|[-> ->]]; [|lia].
    rewrite Et in Hi. pose proof (an_opened _ _ _ _ Han _ _ _ Hi Hp0). lia.
Qed.

(** A step hears only for the session it receives for. *)
Lemma hear_own p : hear w (LStep i c) p ≠ [] → ∃ pc, t = TConn pc ∧ conn_receives pc = Some p.
Proof.
  simpl. rewrite Hi. destruct t as [| |pc| |]; try done. exists pc. split; [done|].
  destruct pc, c; try done; simpl in *. by case_decide; subst.
Qed.

Lemma heard_fresh p : length (sessH st') ≤ p → hr' p = [].
Proof.
  intros Hp. pose proof (thread_step_sessions _ _ _ _ _ _ _ Hs). unfold hr'.
  rewrite (an_fresh _ _ _ _ Han) by lia. simpl app.
  destruct (decide (hear w (LStep i c) p = [])) as [|Hne]; [done|].
  destruct (hear_own _ Hne) as (pc & Et & Hr). rewrite Et in Hi.
  pose proof (an_opened _ _ _ _ Han _ _ _ Hi Hr). lia.
Qed.

Lemma other_quiet :
  (∀ r ctx out pc, t ≠ THttp r ctx out pc) → (∀ pc, t ≠ TConn pc) → quiet none (st w) st'.
Proof.
  intros Hh Hc. destruct step_abs as [? r ctx out pc| ? pc|]; [by destruct (Hh r ctx out pc)|
    by destruct (Hc pc)|done].
Qed.

Lemma registered_after j r ctx out pc p id q :
  threads w' !! j = Some (THttp r ctx out pc) → http_holds pc = Some (p, id, q) →
  is_closed st' p = false → sess_get st' p id = Some q.
Proof.
  intros Hj Hh Ho.
  destruct (holder_origin _ _ _ _ _ _ _ _ Hj Hh) as
    [(out0 & pc0 & Hj0 & Hh0 & Heq)|(_ & out0 & ws & _ & _ & Hg)]; [|done].
  pose proof (an_registered _ _ _ _ Han _ _ _ _ _ _ _ _ Hj0 Hh0 (open_before _ Ho)) as Hg.
  destruct (decide (j = i)) as [->|Hne].
  { destruct (Heq eq_refl) as [_ Ha]. eapply http_abs_registered; [exact Ha|by right|done]. }
  destruct (thread_step_http _ _ _ _ _ _ _ Hs) as [(r1 & ctx1 & out1 & pc1 & ev & pc1' & Et & _ & Hstep)|Hnh].
  { eapply http_abs_registered; [by eapply http_step_abs| |done]. left. intros Hid. apply Hne.
    rewrite Et in Hi. eapply (inv_unique _ Hinv); [exact Hj0|exact Hi| |exact Hid].
    by eapply (holds_ident (THttp r ctx out0 pc0)). }
  destruct (thread_step_conn _ _ _ _ _ _ _ Hs) as [(pc1 & pc1' & Et & _ & Hstep)|Hnc].
  { eapply conn_step_registered; [exact Hstep| |done]. intros Hf. rewrite Et in Hi.
    pose proof (open_before _ Ho) as Ho'. by rewrite (proj2 Hheap _ _ _ Hi Hf) in Ho'. }
  rewrite (quiet_sess_get none (st w)); [done|]. apply other_quiet; intros; [by apply Hnh|by apply Hnc].
Qed.

Lemma hand_after j k r ctx out hpc p id q pc :
  threads w' !! j = Some (THttp r ctx out hpc) → http_holds hpc = Some (p, id, q) →
  threads w' !! k = Some (TConn pc) → delivers (TConn pc) = Some q → conn_receives pc = Some p.
Proof.
  intros Hj Hh Hk Hd.
  destruct (holder_origin _ _ _ _ _ _ _ _ Hj Hh) as
    [(out0 & pc0 & Hj0 & Hh0 & _)|(_ & out0 & ws & Et & -> & _)];
  destruct (conn_origin _ _ _ _ _ _ _ _ _ _ Hs Hi Hk) as [[_ Hk']|(-> & pc1 & Et' & Hstep)].
  - by eapply (an_hand _ _ _ _ Han).
  - destruct (conn_step_delivers _ _ _ _ _ _ _ _ _ Hstep Hd) as (p1 & id1 & -> & Hg).
    by destruct (owner_same _ _ _ _ _ _ _ _ _ _ Hj0 Hh0 Hg) as [-> _].
  - by apply (refs_delivers _ (piped_refs _ _ Hpi) _ _ _ Hk'), Nat.lt_irrefl in Hd.
  - congruence.
Qed.

Lemma registered_before j r ctx out pc p id q :
  threads w !! j = Some (THttp r ctx out pc) → http_holds pc = Some (p, id, q) →
  sess_get st' p id = Some q → sess_get (st w) p id = Some q.
Proof.
  intros Hj Hh Hg. destruct (thread_step_conn _ _ _ _ _ _ _ Hs) as [(pc1 & pc1' & Et & _ & Hstep)|Hnc];
    [by eapply conn_step_registered_before|].
  destruct (thread_step_http _ _ _ _ _ _ _ Hs) as [(r1 & ctx1 & out1 & pc1 & ev & pc1' & Et & _ & Hstep)|Hnh].
  - destruct (http_abs_registered_before _ _ _ _ _ _ _ (http_step_abs _ _ _ _ _ _ _ _ _ _ _ Hstep) Hg) as [?| ->];
      [done|].
    assert (length (rsH (st w)) < length (rsH (st w))) as Hlt; [|by apply Nat.lt_irrefl in Hlt].
    apply (refs_holds _ (piped_refs _ _ Hpi) _ _ _ Hj). unfold holds_rs. simpl. by rewrite Hh.
  - rewrite <-(quiet_sess_get none (st w) st'); [done|].
    apply other_quiet; intros; [by apply Hnh|by apply Hnc].
Qed.

(** Threads that do not receive for a session hear nothing for it and put nothing into its
    response states. *)
Lemma step_silent j r ctx out hpc p id q :
  threads w !! j = Some (THttp r ctx out hpc) → http_holds hpc = Some (p, id, q) →
  (∀ pc1, t = TConn pc1 → conn_receives pc1 ≠ Some p) → hr' p = hr p ∧ ac' q = ac q.
Proof.
  intros Hj Hh Hno. split.
  - unfold hr'. destruct (decide (hear w (LStep i c) p = [])) as [Hn|Hn];
      [by rewrite Hn, app_nil_r|]. destruct (hear_own _ Hn) as (pc1 & Et & Hr1). by destruct (Hno pc1).
  - unfold ac'. destruct (decide (accept w (LStep i c) q = [])) as [Hn|Hn];
      [by rewrite Hn, app_nil_r|]. exfalso. simpl in Hn. rewrite Hi in Hn.
    destruct t as [| |pc1| |] eqn:Et; try done. apply conn_accept_delivers in Hn.
    eapply Hno; [done|]. by eapply (an_hand _ _ _ _ Han).
Qed.

(** Another thread hears nothing for the session, puts nothing into the response state, and
    finishes it only when the request is no longer registered. *)
Lemma step_elsewhere j k r ctx out hpc p id q pc :
  threads w !! j = Some (THttp r ctx out hpc) → http_holds hpc = Some (p, id, q) →
  threads w !! k = Some (TConn pc) → conn_receives pc = Some p → k ≠ i →
  hr' p = hr p ∧ ac' q = ac q
  ∧ (sess_get st' p id = Some q → finished st' q → finished (st w) q).
Proof.
  intros Hj Hh Hk Hr Hne.
  assert (∀ pc1, t = TConn pc1 → conn_receives pc1 ≠ Some p) as Hno.
  { intros pc1 Et Hr1. apply Hne. rewrite Et in Hi. by eapply (an_conns _ _ _ _ Han). }
  destruct (step_silent _ _ _ _ _ _ _ _ Hj Hh Hno) as [Hhr Hac]. split_and!; [done..|].
  intros Hreg.
  destruct (thread_step_http _ _ _ _ _ _ _ Hs) as [(r1 & ctx1 & out1 & pc1 & ev & pc1' & Et & _ & Hstep)|Hnh];
    [by eapply http_step_finished|].
  destruct (thread_step_conn _ _ _ _ _ _ _ Hs) as [(pc1 & pc1' & Et & _ & Hstep)|Hnc].
  - intros Hf. destruct (conn_step_finished _ _ _ _ _ _ _ _ _ Hstep Hf)
        as [?|(p1 & (s1 & id1 & Hp1 & Hg1) & Hor)]; [done|exfalso].
      assert (sess_get (st w) p1 id1 = Some q) as Hg by (unfold sess_get; by rewrite Hp1).
      destruct (owner_same _ _ _ _ _ _ _ _ _ _ Hj Hh Hg) as [-> ->]. rewrite Et in Hi.
      destruct Hor as [Hfail|(snd & f & -> & _)]; [|by eapply Hno].
      by rewrite (conn_step_empties _ _ _ _ _ _ _ _ _ _ Hstep Hfail) in Hreg.
  - apply finished_same, (quiet_rs none); [|by intros []].
      apply other_quiet; intros; [by apply Hnh|by apply Hnc].
Qed.

(** What the invariant says of one handler and its [Connect]. *)
Definition kept (l : list ClientFrame) (a : list (ResponseStart + string)) (pc : conn_pc)
    (fin : Prop) (q : nat) : Prop :=
  contents l = a ++ hand pc q ∧ (ended_by l → hand pc q = []) ∧ (fin → ended_by l).

(** The step of the [Connect] itself. *)
Lemma kept_own j r ctx out hpc id q pc pc' :
  threads w !! j = Some (THttp r ctx out hpc) → http_holds hpc = Some (o, id, q) →
  t = TConn pc → conn_step (st w) (length (threads w)) (send_result (threads w)) pc c
    = Some (st', pc', new) →
  conn_receives pc' = Some o → sess_get st' o id = Some q → orderly (replies id (hr' o)) →
  kept (replies id (hr' o)) (ac' q) pc' (finished st' q) q.
Proof.
  intros Hj Hh Et Hstep Hr Hg' Hord.
  pose proof (conn_step_registered_before _ _ _ _ _ _ _ _ _ _ _ Hstep Hg') as Hg.
  assert (hr' o = hr o ++ conn_hear pc c o ∧ ac' q = ac q ++ conn_accept pc c q) as [Hhr Hac].
  { unfold hr', ac'. simpl. by rewrite Hi, Et. }
  rewrite Et in Hi. rewrite Hhr, replies_app in *. rewrite Hac. clear Hhr Hac.
  destruct (hearing pc c o) as [(snd & f & -> & ->)|Hnr].
  - simpl conn_hear in *. rewrite decide_True in * by done. simpl conn_accept. rewrite app_nil_r.
    destruct (conn_step_hear _ _ _ _ _ _ _ _ _ _ _ Hstep Hg) as (_ & Hhand & Hend & Hfin).
    { intros id' Hgx. by destruct (owner_same _ _ _ _ _ _ _ _ _ _ Hj Hh Hgx). }
    assert (orderly (replies id (hr o)) ∧ (ended_by (replies id (hr o)) → replies id [f] = [])) as [Hord0 Hno].
    { rewrite replies_one in Hord |- *. case_decide; [|by rewrite app_nil_r in Hord].
      by apply orderly_snoc in Hord as [??]. }
    destruct (an_ok _ _ _ _ Han _ _ _ _ _ _ _ _ _ Hj Hh Hi eq_refl Hg Hord0) as (Hc & _ & Hf).
    unfold kept, contents. rewrite omap_app. fold (contents (replies id (hr o))) (contents (replies id [f])).
    unfold ended_by in *. rewrite Exists_app, Hc, Hhand, app_nil_r. split_and!; [done|..].
    + intros [He|He]; [by rewrite (Hno He)|by rewrite <-Hhand, Hend].
    + intros [?|?]%Hfin; auto.
  - destruct (conn_step_hand _ _ _ _ _ _ _ _ _ q Hstep Hr) as (Hhand & Hr0 & Hacc).
    { intros snd f -> ->. destruct Hnr. exists snd, f. split; [|done].
      cbn [conn_step] in Hstep. destruct (handleClientFrame _ _ _) as [st1 d]. simplify_eq.
      by destruct d; simplify_eq/=. }
    assert (conn_receives pc = Some o) as Hr1.
    { destruct Hr0 as [?|[-> _]]; [done|].
      by pose proof (Nat.lt_irrefl _ (held_session _ _ _ _ _ _ _ _ Hj Hh)). }
    assert (conn_hear pc c o = []) as Hhear.
    { destruct pc, c; try done. simpl in *. simplify_eq. destruct Hnr. by eexists _, _. }
    rewrite Hhear, app_nil_r in *.
    destruct (an_ok _ _ _ _ Han _ _ _ _ _ _ _ _ _ Hj Hh Hi Hr1 Hg Hord) as (Hc & He & Hf).
    assert (finished st' q → finished (st w) q) as Hfin.
    { intros Hf'. destruct (conn_step_finished _ _ _ _ _ _ _ _ _ Hstep Hf') as [?|(p1 & (s1 & id1 & Hp1 & Hg1) & Hor)];
        [done|exfalso].
      assert (sess_get (st w) p1 id1 = Some q) as Hgx by (unfold sess_get; by rewrite Hp1).
      destruct (owner_same _ _ _ _ _ _ _ _ _ _ Hj Hh Hgx) as [-> ->].
      destruct Hor as [Hfail|Hhr]; [|by destruct Hnr].
      by rewrite (conn_step_empties _ _ _ _ _ _ _ _ _ _ Hstep Hfail) in Hg'. }
    unfold kept. rewrite Hhand, app_nil_r, Hc. split_and!; [|done|auto].
    destruct Hacc as [->|[Hdone ->]]; [done|]. by rewrite He, app_nil_r by auto.
Qed.

Lemma fresh_hand j pc : threads w !! j = Some (TConn pc) → hand pc (length (rsH (st w))) = [].
Proof.
  intros Hj. destruct (decide (hand pc (length (rsH (st w))) = [])) as [|Hne]; [done|].
  apply conn_accept_delivers in Hne.
  by apply (refs_delivers _ (piped_refs _ _ Hpi) _ _ _ Hj), Nat.lt_irrefl in Hne.
Qed.

Lemma ok_after j k r ctx out hpc id q pc :
  threads w' !! j = Some (THttp r ctx out hpc) → http_holds hpc = Some (o, id, q) →
  threads w' !! k = Some (TConn pc) → conn_receives pc = Some o → sess_get st' o id = Some q →
  orderly (replies id (hr' o)) → kept (replies id (hr' o)) (ac' q) pc (finished st' q) q.
Proof.
  intros Hj Hh Hk Hr Hg Hord.
  destruct (holder_origin _ _ _ _ _ _ _ _ Hj Hh) as
    [(out0 & pc0 & Hj0 & Hh0 & _)|(_ & out0 & ws & Et & -> & _)];
  destruct (conn_origin _ _ _ _ _ _ _ _ _ _ Hs Hi Hk) as [[Hne Hk']|(-> & pc1 & Et' & Hstep)].
  - destruct (step_elsewhere _ _ _ _ _ _ _ _ _ _ Hj0 Hh0 Hk' Hr Hne) as (Hhr & Hac & Hf).
    rewrite Hhr, Hac in *.
    pose proof (registered_before _ _ _ _ _ _ _ _ Hj0 Hh0 Hg) as Hg0.
    destruct (an_ok _ _ _ _ Han _ _ _ _ _ _ _ _ _ Hj0 Hh0 Hk' Hr Hg0 Hord) as (? & ? & ?).
    split_and!; auto.
  - by eapply kept_own.
  - assert (hr' o = hr o ∧ ac' (length (rsH (st w))) = []) as [-> ->].
    { unfold hr', ac'. simpl. rewrite Hi, Et, !app_nil_r. split; [done|].
      by apply (piped_fresh _ _ Hpi). }
    rewrite (Hhonest _ _ _ _ _ Et). unfold kept. split_and!.
    + by rewrite (fresh_hand _ _ Hk').
    + intros He. by apply Exists_nil in He.
    + intros Hf. rewrite Et in Hs. cbn [thread_step] in Hs.
      apply bind_Some in Hs as ([[[s1 ev] pc1] n1] & Hstep & Heq). simplify_eq.
      apply (http_step_finished _ _ _ _ _ _ _ _ _ _ _ _ Hstep) in Hf as (x & Hx%lookup_lt_Some & _).
      by apply Nat.lt_irrefl in Hx.
  - congruence.
Qed.

(** A receive loop hands out what it has heard, or nothing. *)
Lemma kept_prefix j r ctx out hpc id q pc pc' :
  threads w !! j = Some (THttp r ctx out hpc) → http_holds hpc = Some (o, id, q) →
  t = TConn pc → conn_step (st w) (length (threads w)) (send_result (threads w)) pc c
    = Some (st', pc', new) →
  conn_receives pc = Some o → orderly (replies id (hr' o)) →
  ac' q `prefix_of` contents (replies id (hr' o))
  ∧ (conn_receives pc' = Some o → ac' q ++ hand pc' q `prefix_of` contents (replies id (hr' o))).
Proof.
  intros Hj Hh Et Hstep Hr Hord.
  assert (hr' o = hr o ++ conn_hear pc c o ∧ ac' q = ac q ++ conn_accept pc c q) as [Hhr Hac].
  { unfold hr', ac'. simpl. by rewrite Hi, Et. }
  rewrite Et in Hi. rewrite Hhr, replies_app in *. rewrite Hac. clear Hhr Hac.
  destruct (hearing pc c o) as [(snd & f & -> & ->)|Hnr].
  - simpl conn_hear in *. rewrite decide_True in * by done. simpl conn_accept. rewrite app_nil_r.
    assert (orderly (replies id (hr o))) as Hord0.
    { rewrite replies_one in Hord. case_decide; [|by rewrite app_nil_r in Hord].
      by apply orderly_snoc in Hord as [??]. }
    destruct (an_prefix _ _ _ _ Han _ _ _ _ _ _ _ Hj Hh Hord0) as [Hp _].
    unfold contents. rewrite omap_app. fold (contents (replies id (hr o))) (contents (replies id [f])).
    split; [by apply prefix_app_r|]. intros _.
    destruct (decide (sess_get (st w) o id = Some q)) as [Hg|Hg].
    + destruct (conn_step_hear _ _ _ _ _ _ _ _ _ _ _ Hstep Hg) as (_ & -> & _).
      { intros id' Hgx. by destruct (owner_same _ _ _ _ _ _ _ _ _ _ Hj Hh Hgx). }
      destruct (an_ok _ _ _ _ Han _ _ _ _ _ _ _ _ _ Hj Hh Hi eq_refl Hg Hord0) as (-> & _).
      by rewrite app_nil_r.
    + assert (hand pc' q = []) as ->; [|rewrite app_nil_r; by apply prefix_app_r].
      destruct (decide (hand pc' q = [])) as [|Hne]; [done|]. destruct Hg.
      apply conn_accept_delivers in Hne.
      destruct (conn_step_delivers _ _ _ _ _ _ _ _ _ Hstep Hne) as (p1 & id1 & _ & Hg).
      by destruct (owner_same _ _ _ _ _ _ _ _ _ _ Hj Hh Hg) as [-> ->].
  - assert (conn_hear pc c o = []) as Hhear.
    { destruct pc, c; try done. simpl in *. simplify_eq. destruct Hnr. by eexists _, _. }
    rewrite Hhear, app_nil_r in *.
    destruct (an_prefix _ _ _ _ Han _ _ _ _ _ _ _ Hj Hh Hord) as [Hp Hq].
    specialize (Hq _ _ Hi Hr).
    assert (ac q ++ conn_accept pc c q `prefix_of` contents (replies id (hr o))) as Ha.
    { destruct (conn_accept_hand pc c q) as [-> | ->]; [by rewrite app_nil_r|done]. }
    split; [done|]. intros Hr'. destruct (conn_step_hand _ _ _ _ _ _ _ _ _ q Hstep Hr') as (-> & _).
    { intros snd f -> ->. by destruct Hnr; exists snd, f. }
    by rewrite app_nil_r.
Qed.

Lemma receiver_before k pc :
  threads w' !! k = Some (TConn pc) → conn_receives pc = Some o → o < length (sessH (st w)) →
  (∀ pc1, t = TConn pc1 → conn_receives pc1 ≠ Some o) → threads w !! k = Some (TConn pc).
Proof.
  intros Hk Hr Hlt Hno.
  destruct (conn_origin _ _ _ _ _ _ _ _ _ _ Hs Hi Hk) as [[_ ?]|(-> & pc1 & Et & Hstep)]; [done|].
  destruct (conn_step_opens _ _ _ _ _ _ _ _ _ Hstep Hr) as [Hr1|[-> _]]; [by destruct (Hno pc1)|].
  by apply Nat.lt_irrefl in Hlt.
Qed.

Lemma prefix_after j r ctx out hpc id q :
  threads w' !! j = Some (THttp r ctx out hpc) → http_holds hpc = Some (o, id, q) →
  orderly (replies id (hr' o)) →
  ac' q `prefix_of` contents (replies id (hr' o))
  ∧ ∀ k pc, threads w' !! k = Some (TConn pc) → conn_receives pc = Some o →
      ac' q ++ hand pc q `prefix_of` contents (replies id (hr' o)).
Proof.
  intros Hj Hh Hord. destruct (holder_origin _ _ _ _ _ _ _ _ Hj Hh) as
    [(out0 & pc0 & Hj0 & Hh0 & _)|(_ & out0 & ws & Et & -> & _)].
  - destruct (thread_step_conn _ _ _ _ _ _ _ Hs) as [(pc1 & pc1' & Et & Et' & Hstep)|Hnc].
    1: destruct (decide (conn_receives pc1 = Some o)) as [Hr1|Hr1].
    { destruct (kept_prefix _ _ _ _ _ _ _ _ _ Hj0 Hh0 Et Hstep Hr1 Hord) as [Hp Hq].
      split; [done|]. intros k pc Hk Hr.
      destruct (conn_origin _ _ _ _ _ _ _ _ _ _ Hs Hi Hk) as [[Hne Hk']|(-> & pc2 & Et2 & Hstep2)].
      - destruct Hne. rewrite Et in Hi. by eapply (an_conns _ _ _ _ Han).
      - simplify_eq. by apply Hq. }
    all: assert (∀ pc2, t = TConn pc2 → conn_receives pc2 ≠ Some o) as Hno by (intros pc2 ->; by simplify_eq || by destruct (Hnc pc2)).
    all: destruct (step_silent _ _ _ _ _ _ _ _ Hj0 Hh0 Hno) as [Hhr Hac]; rewrite Hhr, Hac in *.
    all: destruct (an_prefix _ _ _ _ Han _ _ _ _ _ _ _ Hj0 Hh0 Hord) as [Hp Hq]; split; [done|].
    all: intros k pc Hk Hr; apply (Hq k); [|done].
    all: eapply receiver_before; [done..|by eapply held_session|done].
  - assert (ac' (length (rsH (st w))) = []) as ->.
    { unfold ac'. simpl. rewrite Hi, Et, app_nil_r. by apply (piped_fresh _ _ Hpi). }
    split; [apply prefix_nil|]. intros k pc Hk Hr.
    destruct (conn_origin _ _ _ _ _ _ _ _ _ _ Hs Hi Hk) as [[_ Hk']|(_ & pc1 & Et' & _)]; [|congruence].
    rewrite (fresh_hand _ _ Hk'). apply prefix_nil.
Qed.

Lemma answers_thread : answers o hr' ac' w'.
Proof.
  constructor.
  - apply conns_unique.
  - apply conns_opened.
  - apply heard_fresh.
  - apply registered_after.
  - apply hand_after.
  - apply ok_after.
  - apply prefix_after.
Qed.
End step.

Lemma answers_ext o hr hr' ac ac' w :
  (∀ p, hr' p = hr p) → (∀ q, ac' q = ac q) → answers o hr ac w → answers o hr' ac' w.
Proof.
  intros Hh Ha []. constructor; [try setoid_rewrite Hh; try setoid_rewrite Ha; by eauto..|].
  intros i r ctx out hpc id q. rewrite Hh, Ha. eauto.
Qed.

Lemma delivers_receives pc q : delivers (TConn pc) = Some q → is_Some (conn_receives pc).
Proof. by destruct pc. Qed.

(** Handlers with a response state and [Connect]s with a session stay at their point. *)
Lemma answers_threads o hr ac w ts :
  answers o hr ac w →
  (∀ j r ctx out pc, ts !! j = Some (THttp r ctx out pc) → is_Some (http_holds pc) →
     ∃ ctx', threads w !! j = Some (THttp r ctx' out pc)) →
  (∀ j pc, ts !! j = Some (TConn pc) → is_Some (conn_receives pc) → threads w !! j = Some (TConn pc)) →
  answers o hr ac (mkWorld (st w) ts).
Proof.
  intros [Hu Hl Hf Hr Hd Ho Hpre] Hh Hc. constructor; cbn [st threads].
  - intros i j pc pc' p Hi Hj Hp Hp'. eapply Hu; eauto.
  - intros i pc p Hi Hp. eapply Hl; eauto.
  - done.
  - intros i r ctx out pc p id q Hi Hq. destruct (Hh _ _ _ _ _ Hi) as [ctx' Hi']; [by eexists|]. eauto.
  - intros i j r ctx out hpc p id q pc Hi Hq Hj Hdel.
    destruct (Hh _ _ _ _ _ Hi) as [ctx' Hi']; [by eexists|].
    pose proof (delivers_receives _ _ Hdel). eauto.
  - intros i j r ctx out hpc id q pc Hi Hq Hj Hp.
    destruct (Hh _ _ _ _ _ Hi) as [ctx' Hi']; [by eexists|]. eauto.
  - intros i r ctx out hpc id q Hi Hq Hord.
    destruct (Hh _ _ _ _ _ Hi) as [ctx' Hi']; [by eexists|].
    destruct (Hpre _ _ _ _ _ _ _ Hi' Hq Hord) as [Ha Hb]. split; [done|].
    intros j pc Hj Hr'. eapply (Hb j); [|done]. apply Hc; [done|by eexists].
Qed.

Lemma answers_step o hr ac w l w' :
  answers o hr ac w → piped ac w → inv w → heap_inv w → routes w →
  (∀ i r ctx out id ws, threads w !! i = Some (THttp r ctx out (PTryStart o id ws)) →
     replies id (hr o) = []) →
  exec w l = Some w' →
  answers o (λ p, hr p ++ hear w l p) (λ q, ac q ++ accept w l q) w'.
Proof.
  intros Han Hpi Hinv Hheap Hro Hhon Hl. destruct l as [i c|i e|r|]; cbn [exec] in Hl.
  { apply bind_Some in Hl as (t & Hi & ([[st' t'] new] & Hs & [= <-])%bind_Some).
    apply answers_thread with t; try done. intros r ctx out id ws ->. by eapply Hhon. }
  { apply bind_Some in Hl as (t & Hi & (t' & Hc & [= <-])%bind_Some).
    apply (answers_ext _ hr _ ac); [intros; apply app_nil_r..|].
    destruct t as [r [] out pc| | | |]; simplify_eq/=. apply answers_threads; [done|..].
    - intros j r0 ctx0 out0 pc0 [(<- & ? & _)|[_ ?]]%insert_lookup_cases; simplify_eq; eauto.
    - intros j pc0 [(<- & ? & _)|[_ ?]]%insert_lookup_cases; by simplify_eq. }
  all: simplify_eq; apply (answers_ext _ hr _ ac); [intros; apply app_nil_r..|].
  all: apply answers_threads; [done|..].
  all: intros j; intros; match goal with Hj : (_ ++ _) !! _ = _, Hx : is_Some _ |- _ =>
    apply lookup_snoc_cases in Hj as [?|[_ ?]]; simplify_eq; first [by eauto|by destruct Hx] end.
Qed.

Lemma answers_run o hq hr ac w ls w' :
  answers o hr ac w → piped ac w → forwards hq w → inv w → heap_inv w → routes w →
  (nextRequestID (srv (st w)) + Z.of_nat (length ls) < 2^64)%Z →
  (∀ ls1 ls2 id, ls = ls1 ++ ls2 →
     replies id (hr o ++ heard w ls1 o) ≠ [] → about id (hq o ++ queued w ls1 o) ≠ []) →
  run w ls = Some w' →
  answers o (λ p, hr p ++ heard w ls p) (λ q, ac q ++ accepted w ls q) w'.
Proof.
  revert hq hr ac w. induction ls as [|l ls IH]; intros hq hr ac w Han Hpi Hfw Hinv Hheap Hro Hn Hhon; simpl.
  { intros [= <-]. apply (answers_ext _ hr _ ac); [intros; apply app_nil_r..|done]. }
  intros (w1 & Hl & Hr)%bind_Some. simpl in Hn.
  destruct (inv_step w l w1 Hinv) as [Hinv1 Hle]; [lia|done|].
  assert (answers o (λ p, hr p ++ hear w l p) (λ q, ac q ++ accept w l q) w1) as Han1.
  { apply answers_step; try done. intros i r ctx out id ws Hi.
    destruct (decide (replies id (hr o) = [])) as [|Hne]; [done|]. exfalso.
    apply (Hhon [] (l :: ls) id eq_refl); simpl; [by rewrite app_nil_r|].
    rewrite app_nil_r. by eapply (fw_drawn _ _ Hfw). }
  eapply answers_ext; [..|apply (IH (λ p, hq p ++ grown (st w) (st w1) p)); [exact Han1| | |done| | |lia| |done]].
  - intros p. simpl. by rewrite Hl, app_assoc.
  - intros q. simpl. by rewrite Hl, app_assoc.
  - by apply piped_step.
  - by eapply forwards_step; [..|lia|].
  - by eapply heap_inv_step.
  - by eapply routes_step.
  - intros ls1 ls2 id -> Hne. specialize (Hhon (l :: ls1) ls2 id eq_refl). simpl in Hhon.
    rewrite Hl, !app_assoc in Hhon. by apply Hhon.
Qed.

Lemma answers_init o s : answers o (λ _, []) (λ _, []) (init_world s).
Proof. constructor; done. Qed.

(** A run of the edge, with an honest client. *)
Lemma run_answers cfg s ls w p :
  New cfg = Ok s → (MaxTotalInflight cfg ≤ max_i64)%Z → (Z.of_nat (length ls) < 2^64)%Z →
  run (init_world s) ls = Some w → honest (init_world s) ls p →
  answers p (heard (init_world s) ls) (accepted (init_world s) ls) w.
Proof.
  intros Hnew Hmax Hlen Hrun Hhon.
  destruct (New_valid _ _ Hnew) as [_ (_ & _ & _ & _ & _ & _ & Htot & Hsess & _ & Hreq)].
  refine (answers_run p (λ _, []) (λ _, []) (λ _, []) (init_world s) ls w (answers_init p s)
    (piped_init s) (forwards_init s) _ _ (routes_init s Hsess) _ _ Hrun).
  - apply inv_init; [by eapply New_limits|done..].
  - by split; [constructor|].
  - simpl. lia.
  - exact Hhon.
Qed.

(** At every moment, also when the session has ended, what was put into the response state
    of a request is an initial part of what an honest client has sent to answer it. *)
Lemma accepted_prefix cfg s ls w i r ctx out hpc p id q :
  New cfg = Ok s → (MaxTotalInflight cfg ≤ max_i64)%Z → (Z.of_nat (length ls) < 2^64)%Z →
  run (init_world s) ls = Some w → honest (init_world s) ls p →
  threads w !! i = Some (THttp r ctx out hpc) → http_holds hpc = Some (p, id, q) →
  orderly (replies id (heard (init_world s) ls p)) →
  accepted (init_world s) ls q `prefix_of` contents (replies id (heard (init_world s) ls p)).
Proof.
  intros Hnew Hmax Hlen Hrun Hhon Hi Hh Hord.
  pose proof (run_answers _ _ _ _ _ Hnew Hmax Hlen Hrun Hhon) as Han.
  apply (an_prefix _ _ _ _ Han _ _ _ _ _ _ _ Hi Hh Hord).
Qed.

(** While a session is open and its [Connect] receives, what an honest client has sent to
    answer a request, if nothing follows its end, is what was put into the request's
    response state, up to a frame the receive loop has in its hands. *)
Lemma accepted_heard cfg s ls w i j r ctx out hpc p id q pc :
  New cfg = Ok s → (MaxTotalInflight cfg ≤ max_i64)%Z → (Z.of_nat (length ls) < 2^64)%Z →
  run (init_world s) ls = Some w → honest (init_world s) ls p →
  threads w !! i = Some (THttp r ctx out hpc) → http_holds hpc = Some (p, id, q) →
  threads w !! j = Some (TConn pc) → conn_receives pc = Some p → is_closed (st w) p = false →
  orderly (replies id (heard (init_world s) ls p)) →
  contents (replies id (heard (init_world s) ls p)) = accepted (init_world s) ls q ++ hand pc q
  ∧ (ended_by (replies id (heard (init_world s) ls p)) → hand pc q = []).
Proof.
  intros Hnew Hmax Hlen Hrun Hhon Hi Hh Hj Hr Ho Hord.
  pose proof (run_answers _ _ _ _ _ Hnew Hmax Hlen Hrun Hhon) as Han.
  pose proof (an_registered _ _ _ _ Han _ _ _ _ _ _ _ _ Hi Hh Ho) as Hg.
  by destruct (an_ok _ _ _ _ Han _ _ _ _ _ _ _ _ _ Hi Hh Hj Hr Hg Hord) as (? & ? & _).
Qed.
End replies.
