(* ===== verification/Listening.v ===== *)
(** * server: what a WebSocket's handler gets is what the client has said.

    [WebSocket] follows messages from the channel of a WebSocket to the browser; this file
    follows them from the stream into that channel.  The frames that the receive loop of a
    session has received are compared, id by id, with what was put into the channels. *)

From S2P Require Import Prelude GoStrings Hostnames Proto Headers Channels ResponseState Server.
From S2P Require Import Frames Messages Steps Scenario Abstract Invariants Origins ServerConfig Routing Sessions Pipeline Edge Forward WebSocket Replies.

Section listening.
Context `{UnicodeData}.

(** ** Steps *)

(** The WebSocket of a handler, until [delWS]. *)
Definition subscribed (pc : http_pc) : option nat :=
  match pc with PFinish _ => None | _ => pc_ws pc end.

Lemma subscribed_ws pc v : subscribed pc = Some v → pc_ws pc = Some v.
Proof. by destruct pc. Qed.

(** The [done] channel of a WebSocket is closed. *)
Definition ws_over (st : state) (v : nat) : bool := from_option ws_done false (wsH st !! v).

(** What a receive loop is about to put into the channel of WebSocket [v]. *)
Definition whand (pc : conn_pc) (v : nat) : list string := conn_push pc OnSend v.

(** The WebSockets of all sessions stay. *)
Definition same_ws (st st' : state) : Prop := ∀ p id, getWS st' p id = getWS st p id.

Lemma getWS_put st p s s' :
  sessH st !! p = Some s → wsMap s' = wsMap s → same_ws st (put_sess st p s').
Proof.
  intros Hs Hw q id. unfold getWS. simpl. destruct (decide (p = q)) as [->|Hne].
  - rewrite list_lookup_insert_eq by (by eapply lookup_lt_Some). rewrite Hs. simpl. by rewrite Hw.
  - by rewrite list_lookup_insert_ne.
Qed.

Lemma same_ws_eq st st' : sessH st' = sessH st → same_ws st st'.
Proof. intros Heq p id. unfold getWS. by rewrite Heq. Qed.

Lemma enqueue_same st p f st' : enqueue st p f = Some st' → same_ws st st'.
Proof. intros (s & Hs & (q & _ & [= <-])%bind_Some)%bind_Some. by eapply getWS_put. Qed.
Lemma sendFrame_same st p f c st' e : sendFrame st p f c = Some (st', e) → same_ws st st'.
Proof. unfold sendFrame. intros. open_step; [done|by eapply enqueue_same]. Qed.
Lemma sendFrameCtx_same ctx st p f c st' e :
  sendFrameCtx ctx st p f c = Some (st', e) → same_ws st st'.
Proof. unfold sendFrameCtx. intros. open_step; [done..|by eapply enqueue_same]. Qed.
Lemma cancelRequest_same st p id c st' : cancelRequest st p id c = Some st' → same_ws st st'.
Proof. unfold cancelRequest. intros. open_step; try done. by eapply enqueue_same. Qed.
Lemma forwardRequest_same st r ctx p id f c st' res :
  forwardRequest st r ctx p id f c = Some (st', res) → same_ws st st'.
Proof.
  intros Hf. destruct f; cbn [forwardRequest] in Hf; open_step; simplify_eq; try done;
    by eapply sendFrameCtx_same.
Qed.
Lemma sess_del_same st p id st' b : sess_del st p id = Some (st', b) → same_ws st st'.
Proof.
  intros (s & Hs & Hm)%bind_Some. destruct (inflight s !! id); simplify_eq; [by eapply getWS_put|done].
Qed.
Lemma tryStart_same st p id m st' o : tryStart st p id m = Some (st', o) → same_ws st st'.
Proof.
  intros (s & Hs & Hm)%bind_Some. destruct (_ && _); simplify_eq/=; [done|].
  exact (getWS_put st p s (set_inflight s _) Hs eq_refl).
Qed.
Lemma shutdown_enter_same st p st' b : shutdown_enter st p = Some (st', b) → same_ws st st'.
Proof.
  intros (s & Hs & Hm)%bind_Some. destruct (sess_once s); simplify_eq; [by eapply getWS_put|done].
Qed.
Lemma shutdown_fail_maps st p e st' n :
  shutdown_fail st p e = Some (st', n) →
  ∀ q id, getWS st' q id = getWS st q id ∨ (q = p ∧ getWS st' q id = None).
Proof.
  intros (s & Hs & _ & _ & Heq & _)%shutdown_fail_spec q id. unfold getWS. rewrite Heq.
  destruct (decide (q = p)) as [->|Hne]; [right|left].
  - split; [done|]. by rewrite list_lookup_insert_eq by (by eapply lookup_lt_Some).
  - by rewrite list_lookup_insert_ne.
Qed.

Create HintDb same_ws discriminated.
#[local] Hint Resolve enqueue_same sendFrame_same sendFrameCtx_same cancelRequest_same
  forwardRequest_same sess_del_same tryStart_same shutdown_enter_same : same_ws.
#[local] Hint Extern 1 (same_ws _ _) => (intros ? ?; reflexivity) : same_ws.

(** What a handler does with the WebSockets of its session: it keeps all, creates its own
    or removes its own. *)
Inductive subscribes (st : state) (pc : http_pc) (st' : state) (pc' : http_pc) : Prop :=
| su_keeps : subscribed pc' = subscribed pc → same_ws st st' → subscribes st pc st' pc'
| su_creates p id q :
    let k := mkK p id q (Some (length (wsH st))) in
    pc = PPutWS p id q → pc' = PForward k FStart → wsH st' = wsH st ++ [new_wsState] →
    getWS st' p id = Some (length (wsH st)) →
    (∀ p' id', (p', id') ≠ (p, id) → getWS st' p' id' = getWS st p' id') →
    subscribes st pc st' pc'
| su_removes k :
    pc = PDelWS k → pc' = PFinish k → getWS st' (k_sess k) (k_id k) = None →
    (∀ p id, (p, id) ≠ (k_sess k, k_id k) → getWS st' p id = getWS st p id) →
    subscribes st pc st' pc'.

Lemma subscribed_exit k : subscribed (exit k) = k_ws k.
Proof. unfold exit. by destruct (k_ws k) eqn:Hk. Qed.
Lemma subscribed_write_header k m ev pc : write_header k m = (ev, pc) → subscribed pc = k_ws k.
Proof. intros [_ [-> | ->]]%write_header_conns; [apply subscribed_exit|done]. Qed.
Lemma subscribed_write_chunk k chunk d : subscribed (write_chunk k chunk d) = k_ws k.
Proof. unfold write_chunk. by destruct (bool_decide _), d. Qed.
Lemma subscribed_forwarded ctx k e ev pc : forwarded ctx k e = (ev, pc) → subscribed pc = k_ws k.
Proof.
  unfold forwarded. intros. repeat case_match; simplify_eq; rewrite ?subscribed_exit; simpl; congruence.
Qed.

Lemma getWS_map st p s m q id :
  sessH st !! p = Some s →
  getWS (put_sess st p (set_wsMap s m)) q id = if decide (q = p) then m !! id else getWS st q id.
Proof.
  intros Hs. unfold getWS. simpl. case_decide as Hq.
  - subst. by rewrite list_lookup_insert_eq by (by eapply lookup_lt_Some).
  - by rewrite list_lookup_insert_ne.
Qed.

Lemma http_step_subscribes st r ctx self rd pc c st' ev pc' new :
  http_step st r ctx self rd pc c = Some (st', ev, pc', new) → subscribes st pc st' pc'.
Proof.
  intros Hs. destruct pc; try done; cbn [http_step] in Hs.
  all: try (destruct c; try done; cbn [http_enter http_exit] in Hs).
  7: { apply bind_Some in Hs as (st1 & (s & Hp & [= <-])%bind_Some & Hs). simplify_eq.
       eapply su_creates; [reflexivity..| |].
       - rewrite (getWS_map _ _ _ _ _ _ Hp), decide_True by done. apply lookup_insert_eq.
       - intros q i Hne. rewrite (getWS_map _ _ _ _ _ _ Hp). case_decide as Hq; [|done]. subst q.
         rewrite lookup_insert_ne by congruence. simpl in Hp. unfold getWS. simpl. by rewrite Hp. }
  all: try (apply su_keeps; cbn [http_respond http_websocket subscribed pc_ws] in *; open_step; simplify_eq;
    first [ done | by apply subscribed_exit | by eapply subscribed_write_header
      | by apply subscribed_write_chunk | by eapply subscribed_forwarded
      | by repeat case_match | by eauto with same_ws ]).
  apply bind_Some in Hs as (st1 & (s & Hp & [= <-])%bind_Some & Hs). simplify_eq.
  eapply su_removes; [reflexivity..| |].
  - rewrite (getWS_map _ _ _ _ _ _ Hp), decide_True by done. apply lookup_delete_eq.
  - intros q i Hne. rewrite (getWS_map _ _ _ _ _ _ Hp). case_decide as Hq; [|done]. subst q.
    rewrite lookup_delete_ne by congruence. simpl in Hp. unfold getWS. simpl. by rewrite Hp.
Qed.
(** While it keeps them it serves the same request. *)
Lemma subscribes_holds st r ctx self rd pc c st' ev pc' new v :
  http_step st r ctx self rd pc c = Some (st', ev, pc', new) →
  subscribed pc = Some v → http_holds pc' = http_holds pc.
Proof.
  intros Hs Hv. destruct (http_step_abs _ _ _ _ _ _ _ _ _ _ _ Hs); done.
Qed.

(** A closed WebSocket stays closed. *)
Definition ws_stays (st st' : state) : Prop := ∀ v, ws_over st v = true → ws_over st' v = true.

Lemma ws_stays_eq st st' : wsH st' = wsH st → ws_stays st st'.
Proof. intros Heq v. unfold ws_over. by rewrite Heq. Qed.

Lemma ws_stays_put st x w w' :
  wsH st !! x = Some w → (ws_done w = true → ws_done w' = true) → ws_stays st (put_ws st x w').
Proof.
  intros Hx Hw v. unfold ws_over. simpl. destruct (decide (x = v)) as [->|Hne].
  - rewrite list_lookup_insert_eq by (by eapply lookup_lt_Some). rewrite Hx. done.
  - by rewrite list_lookup_insert_ne.
Qed.

Lemma close_at_over l x v :
  from_option ws_done false (l !! v) = true → from_option ws_done false (close_at l x !! v) = true.
Proof.
  unfold close_at. destruct (decide (x = v)) as [->|Hne].
  - rewrite list_lookup_alter_eq. by destruct (l !! v).
  - by rewrite list_lookup_alter_ne.
Qed.

Lemma close_all_over xs l v :
  from_option ws_done false (l !! v) = true →
  from_option ws_done false (foldl close_at l xs !! v) = true.
Proof. revert l. induction xs as [|x xs IH]; intros l Hl; [done|]. apply IH. by apply close_at_over. Qed.

Lemma shutdown_fail_stays st p e st' n : shutdown_fail st p e = Some (st', n) → ws_stays st st'.
Proof.
  unfold shutdown_fail, failAll.
  intros ([st1 n1] & (s & Hs & [= <- <-])%bind_Some & (s' & Hs' & [= <- <-])%bind_Some)%bind_Some v.
  apply close_all_over.
Qed.

Lemma http_step_stays st r ctx self rd pc c st' ev pc' new :
  http_step st r ctx self rd pc c = Some (st', ev, pc', new) → ws_stays st st'.
Proof.
  intros Hs. destruct (early pc) eqn:He.
  { assert (http_enter st r pc = Some (st', ev, pc', new)) as Hen by (destruct pc; try done; by destruct c).
    destruct (http_enter_plain _ _ _ _ _ _ _ Hen) as [_ [[Hw _]|(k & _ & _ & Hw)]]; [by apply ws_stays_eq|].
    intros v. unfold ws_over. rewrite Hw. destruct (wsH st !! v) eqn:Hv; [|done].
    by rewrite (lookup_app_l_Some _ _ _ _ Hv). }
  destruct (pc_ws pc) eqn:Hw.
  2: { destruct (http_step_keeps _ _ _ _ _ _ _ _ _ _ _ Hs He) as (_ & _ & Hk). by apply ws_stays_eq, Hk. }
  destruct pc; try done; cbn [http_step http_websocket http_exit pc_ws] in *;
    try (destruct (http_respond_conversation _ _ _ _ _ _ _ _ [] [] [] Hs) as [_ ?];
         [by left|by apply ws_stays_eq]);
    open_step; simplify_eq; try (apply ws_stays_eq; first [reflexivity|by eapply forwardRequest_wsH
      |by eapply delWS_wsH|by eapply sess_del_wsH]);
    (eapply ws_stays_put; [eassumption|done]).
Qed.
(** Threads that are neither handlers nor [Connect]s. *)
Lemma helper_step_ws st ts t c st' t' new :
  thread_step st ts t c = Some (st', t', new) →
  (∀ r ctx out pc, t ≠ THttp r ctx out pc) → (∀ pc, t ≠ TConn pc) →
  same_ws st st' ∧ wsH st' = wsH st.
Proof.
  intros Hs Hh Hc. destruct t as [r ctx out pc|q x pc|pc|q sent e|q run]; cbn [thread_step] in Hs;
    [by destruct (Hh r ctx out pc)| |by destruct (Hc pc)|..]; apply bind_Some in Hs as (y & Hs & Hy);
    repeat case_match; simplify_eq.
  - destruct pc, c; cbn [reader_step] in Hs; try done; open_step; simplify_eq;
      first [done|split; [by eapply sendFrame_same|by eapply sendFrame_wsH]].
  - unfold send_step in Hs. open_step; simplify_eq; first [done|split; [by eapply getWS_put|done]].
  - unfold beat_step in Hs. destruct run, c; try done; open_step; simplify_eq;
      first [done|split; [by eapply enqueue_same|by eapply enqueue_wsH]].
Qed.

(** A [Connect] removes the WebSockets of a session it fails, and no others. *)
Lemma conn_step_maps st self res pc c st' pc' new :
  conn_step st self res pc c = Some (st', pc', new) →
  (∀ p id, getWS st' p id = getWS st p id ∨ (conn_failing pc = Some p ∧ getWS st' p id = None))
  ∧ ws_stays st st'.
Proof.
  intros Hs.
  assert (same_ws st st' → ws_stays st st' →
    (∀ p id, getWS st' p id = getWS st p id ∨ (conn_failing pc = Some p ∧ getWS st' p id = None))
    ∧ ws_stays st st') as Hsame by auto.
  assert (∀ q e n, conn_failing pc = Some q → shutdown_fail st q e = Some (st', n) →
    (∀ p id, getWS st' p id = getWS st p id ∨ (conn_failing pc = Some p ∧ getWS st' p id = None))
    ∧ ws_stays st st') as Hfail.
  { intros q e n Hq Hf. split; [|by eapply shutdown_fail_stays]. intros p id.
    destruct (shutdown_fail_maps _ _ _ _ _ Hf p id) as [?|[-> ?]]; auto. }
  destruct pc; cbn [conn_step] in Hs; try done.
  3: { open_step. by eapply Hfail. }
  5: { open_step; try (apply Hsame; [done|by apply ws_stays_eq]).
       match goal with Hh : handleClientFrame _ _ ?f = _ |- _ => destruct f; simpl in Hh end;
         repeat case_match; simplify_eq/=; apply Hsame; try done; try (by apply ws_stays_eq).
       intros v. apply close_at_over. }
  5: { apply bind_Some in Hs as (st1 & Hd & Hs). simplify_eq.
       destruct d as [| |w data], c; simplify_eq/=; open_step;
         (apply Hsame; [done|try (by apply ws_stays_eq)]).
       match goal with Hp : push_ws ?x data = Some ?y |- _ =>
         apply bind_Some in Hp as (q & _ & [= <-]) end.
       by eapply ws_stays_put. }
  6: { open_step. by eapply Hfail. }
  1: { open_step; (apply Hsame; [|by apply ws_stays_eq]); try done;
       intros p id; unfold getWS; simpl; (destruct (decide (p < length (sessH st)));
         [by rewrite lookup_app_l|rewrite lookup_app_r, (lookup_ge_None_2 (sessH st)) by lia;
          by destruct (p - length (sessH st)) as [|[]]]). }
  all: open_step; simplify_eq; (apply Hsame; [by eauto with same_ws|apply ws_stays_eq]);
    first [done|by eapply shutdown_enter_wsH].
Qed.

(** A receive loop gets what it hears and hands it on, unless the WebSocket is closed. *)
Lemma conn_step_says st self res pc c st' pc' new :
  conn_step st self res pc c = Some (st', pc', new) →
  (∃ p snd f, pc = CRecv p snd ∧ c = Recv f ∧ conn_receives pc' = Some p
     ∧ ∀ v, whand pc' v = match f with
         | ClientFrame_WsData id data => if decide (getWS st p id = Some v) then [data] else []
         | _ => [] end)
  ∨ ((∀ p, conn_hear pc c p = []) ∧ (∀ v, whand pc' v = [])
     ∧ ∀ v, conn_push pc c v = whand pc v ∨ conn_push pc c v = [] ∧ ws_over st v = true).
Proof.
  intros Hs. destruct pc; cbn [conn_step] in Hs; try done;
    try (open_step; right; repeat case_match; by auto).
  - destruct c; try done; [left|right; simplify_eq; by auto].
    destruct (handleClientFrame st p f) as [st1 d] eqn:Hf. simplify_eq. do 3 eexists.
    split; [done|]. split; [done|]. split; [by destruct d|]. intros v.
    destruct f; simplify_eq/=; try done; try (by destruct (sess_get _ _ _)).
    destruct (getWS st' p request_id) as [x|] eqn:Hx; rewrite ?Hx; [|by rewrite decide_False].
    unfold whand. simpl. destruct (decide (x = v)) as [->|Hne]; [by rewrite decide_True|].
    rewrite decide_False; [done|congruence].
  - apply bind_Some in Hs as (st1 & Hd & Hs). simplify_eq. right. split_and!; [by destruct c|done|].
    intros v. destruct d as [x m|x b|x b], c; try done; try (by left). cbn [deliver] in Hd. open_step.
    destruct (decide (x = v)) as [->|]; [right|left; unfold whand; simpl; by rewrite decide_False].
        split; [done|]. unfold ws_over.
    match goal with Hw : wsH _ !! _ = Some _ |- _ => by rewrite Hw end.
Qed.
(** ** The invariant *)

(** A message in the hands of a receive loop, or none. *)
Definition held (w : world) (v : nat) (l : list string) : Prop :=
  l = [] ∨ ∃ j pc, threads w !! j = Some (TConn pc) ∧ l = whand pc v.

(** The record [hr] of what was received and the record [ps] of what was put into the
    channels of WebSockets.  That is always an ordered part of the messages received under
    the id; it is all of them as long as session [o] is open and the WebSocket not closed. *)
Record listens (o : nat) (hr : nat → list ClientFrame) (ps : nat → list string) (w : world)
    : Prop := {
  li_reg : ∀ i r ctx out pc p id q v, threads w !! i = Some (THttp r ctx out pc) →
    http_holds pc = Some (p, id, q) → subscribed pc = Some v → is_closed (st w) p = false →
    getWS (st w) p id = Some v;
  li_whose : ∀ p id v, getWS (st w) p id = Some v →
    ∃ i r ctx out pc q, threads w !! i = Some (THttp r ctx out pc)
      ∧ http_holds pc = Some (p, id, q) ∧ subscribed pc = Some v;
  li_bound : ∀ j pc v, threads w !! j = Some (TConn pc) → whand pc v ≠ [] → v < length (wsH (st w));
  li_hand : ∀ j pc v i r ctx out hpc p id q, threads w !! j = Some (TConn pc) → whand pc v ≠ [] →
    threads w !! i = Some (THttp r ctx out hpc) → http_holds hpc = Some (p, id, q) →
    pc_ws hpc = Some v → conn_receives pc = Some p;
  li_part : ∀ i r ctx out hpc p id q v l, threads w !! i = Some (THttp r ctx out hpc) →
    http_holds hpc = Some (p, id, q) → pc_ws hpc = Some v → held w v l →
    ps v ++ l `sublist_of` utterances id (hr p);
  li_ok : ∀ i j r ctx out hpc id q v pc, threads w !! i = Some (THttp r ctx out hpc) →
    http_holds hpc = Some (o, id, q) → subscribed hpc = Some v →
    threads w !! j = Some (TConn pc) → conn_receives pc = Some o →
    is_closed (st w) o = false → ws_over (st w) v = false →
    ps v ++ whand pc v = utterances id (hr o) }.

Section step.
Context (o : nat) (hr : nat → list ClientFrame) (ac : nat → list (ResponseStart + string)).
Context (ps : nat → list string).
Context (w : world) (i : nat) (t : thread) (c : choice) (st' : state) (t' : thread) (new : list thread).
Hypothesis Hli : listens o hr ps w.
Hypothesis Han : answers o hr ac w.
Hypothesis Hso : socks ps w.
Hypothesis Hinv : inv w.
Hypothesis Hheap : heap_inv w.
Hypothesis Hro : routes w.
Hypothesis Hhonest : ∀ r ctx out id q, t = THttp r ctx out (PPutWS o id q) → utterances id (hr o) = [].
Hypothesis Hi : threads w !! i = Some t.
Hypothesis Hs : thread_step (st w) (threads w) t c = Some (st', t', new).

Let w' := mkWorld st' (<[i := t']> (threads w) ++ new).
Let hr' := λ p, hr p ++ hear w (LStep i c) p.
Let ps' := λ v, ps v ++ push w (LStep i c) v.

(** A handler of the new world that has a WebSocket: it had it before, or it has just
    created it. *)
Lemma socket_origin j r ctx out pc p id q v :
  threads w' !! j = Some (THttp r ctx out pc) → http_holds pc = Some (p, id, q) → pc_ws pc = Some v →
  (∃ out0 pc0, threads w !! j = Some (THttp r ctx out0 pc0) ∧ http_holds pc0 = Some (p, id, q)
     ∧ pc_ws pc0 = Some v ∧ (subscribed pc = Some v → subscribed pc0 = Some v))
  ∨ (j = i ∧ v = length (wsH (st w)) ∧ getWS st' p id = Some v
     ∧ ∃ out0, t = THttp r ctx out0 (PPutWS p id q)).
Proof.
  intros Hj Hh Hv. destruct (handler_origin _ _ _ _ _ _ _ _ _ _ _ _ _ Hs Hi Hj)
    as [[Hne Hj']|(-> & out0 & pc0 & ev & Et & -> & Hstep)].
  { left. exists out, pc. by split_and!. }
  pose proof (http_step_abs _ _ _ _ _ _ _ _ _ _ _ Hstep) as Ha.
  destruct (http_step_ws ps _ i _ _ _ _ _ Hs _ _ _ _ _ _ Et Hstep) as [_ Hws].
  destruct (http_step_subscribes _ _ _ _ _ _ _ _ _ _ _ Hstep)
    as [Hsu _|p1 id1 q1 k -> -> _ Hg _|k -> -> _ _].
  - left. exists out0, pc0. rewrite <-Et. split_and!; [done|..].
    + destruct (http_abs_holds _ _ _ _ _ _ _ Ha Hh) as [?|(ws & -> & _)]; [done|].
      destruct (Hws _ Hv) as [?|(_ & _ & _ & k & ->)]; [done|]. simpl in *. congruence.
    + destruct (Hws _ Hv) as [?|(_ & _ & He & k & ->)]; [done|]. simpl in *.
      by apply subscribed_ws; rewrite <-Hsu.
    + by rewrite Hsu.
  - right. simpl in Hh, Hv. injection Hh as -> -> ->. injection Hv as <-.
    split_and!; [done..|]. by exists out0.
  - left. exists out0, (PDelWS k). rewrite <-Et. by split_and!.
Qed.
(** Whose a registered WebSocket is. *)
Lemma socket_owner j r ctx out pc p id q v p' id' :
  threads w !! j = Some (THttp r ctx out pc) → http_holds pc = Some (p, id, q) → pc_ws pc = Some v →
  getWS (st w) p' id' = Some v → p' = p ∧ id' = id.
Proof.
  intros Hj Hh Hv (k & r1 & ctx1 & out1 & pc1 & q1 & Hk & Hh1 & Hv1%subscribed_ws)%(li_whose _ _ _ _ Hli).
  assert (k = j) as -> by (by eapply (so_unique _ _ Hso)). rewrite Hj in Hk. by simplify_eq.
Qed.

Lemma registered_bound p id v : getWS (st w) p id = Some v → v < length (wsH (st w)).
Proof.
  intros (k & r1 & ctx1 & out1 & pc1 & q1 & Hk & _ & Hv1%subscribed_ws)%(li_whose _ _ _ _ Hli).
  by eapply (so_len _ _ Hso).
Qed.

(** What the step does to the WebSockets of the sessions. *)
Lemma step_maps p id :
  getWS st' p id = getWS (st w) p id
  ∨ (is_closed st' p = true ∧ getWS st' p id = None)
  ∨ ∃ r ctx out pc q, t = THttp r ctx out pc ∧ http_holds pc = Some (p, id, q)
      ∧ ((∃ k, pc = PDelWS k) ∧ getWS st' p id = None
         ∨ pc = PPutWS p id q ∧ getWS st' p id = Some (length (wsH (st w)))).
Proof.
  destruct (thread_step_http _ _ _ _ _ _ _ Hs) as [(r & ctx & out & pc & ev & pc' & Et & _ & Hstep)|Hn].
  - destruct (http_step_subscribes _ _ _ _ _ _ _ _ _ _ _ Hstep)
      as [_ Hsame|p1 id1 q1 k -> -> _ Hg Hother|k -> -> Hg Hother]; [by left|..].
    + destruct (decide ((p, id) = (p1, id1))) as [[= -> ->]|Hne]; [|by left; apply Hother].
      right. right. exists r, ctx, out, (PPutWS p1 id1 q1), q1. by split_and!; [..|right].
    + destruct (decide ((p, id) = (k_sess k, k_id k))) as [[= -> ->]|Hne]; [|by left; apply Hother].
      right. right. exists r, ctx, out, (PDelWS k), (k_rs k). split_and!; [done..|left]. by split; [exists k|].
  - destruct (thread_step_conn _ _ _ _ _ _ _ Hs) as [(pc & pc' & Et & _ & Hstep)|Hc].
    + destruct (conn_step_maps _ _ _ _ _ _ _ _ Hstep) as [Hm _].
      destruct (Hm p id) as [?|[Hf ?]]; [by left|right; left]. split; [|done].
      rewrite Et in Hi. eapply is_closed_keeps; [by eapply step_abs|]. by eapply (proj2 Hheap).
    + left. destruct (helper_step_ws _ _ _ _ _ _ _ Hs) as [Hsame _]; [by intros; apply Hn|by apply Hc|].
      apply Hsame.
Qed.

Lemma over_before v : ws_over st' v = false → ws_over (st w) v = false.
Proof.
  intros Ho. destruct (ws_over (st w) v) eqn:Hv; [|done]. rewrite <-Ho. symmetry.
  destruct (thread_step_http _ _ _ _ _ _ _ Hs) as [(r & ctx & out & pc & ev & pc' & _ & _ & Hstep)|Hn];
    [by eapply http_step_stays|].
  destruct (thread_step_conn _ _ _ _ _ _ _ Hs) as [(pc & pc' & _ & _ & Hstep)|Hc];
    [by eapply conn_step_maps|].
  destruct (helper_step_ws _ _ _ _ _ _ _ Hs) as [_ Hw]; [by intros; apply Hn|by apply Hc|].
  by apply (ws_stays_eq _ _ Hw).
Qed.

Lemma reg_after j r ctx out pc p id q v :
  threads w' !! j = Some (THttp r ctx out pc) → http_holds pc = Some (p, id, q) →
  subscribed pc = Some v → is_closed st' p = false → getWS st' p id = Some v.
Proof.
  intros Hj Hh Hv Ho.
  destruct (socket_origin _ _ _ _ _ _ _ _ _ Hj Hh (subscribed_ws _ _ Hv))
    as [(out0 & pc0 & Hj0 & Hh0 & Hv0 & Hsu)|(_ & _ & ? & _)]; [|done].
  pose proof (li_reg _ _ _ _ Hli _ _ _ _ _ _ _ _ _ Hj0 Hh0 (Hsu Hv) (open_before _ _ _ _ _ _ Hs _ Ho)) as Hg.
  destruct (step_maps p id) as [->|[[? _]|(r1 & ctx1 & out1 & pc1 & q1 & Et & Hh1 & Hpc)]];
    [done|congruence|exfalso].
  assert (j = i) as ->.
  { rewrite Et in Hi. eapply (inv_unique _ Hinv); [exact Hj0|exact Hi|..]; eapply holds_ident; simpl; eassumption. }
  rewrite Hj0 in Hi. rewrite Et in Hi. injection Hi as -> -> -> ->.
  destruct Hpc as [[[k ->] Hn]|[-> _]]; [|done].
  destruct (thread_step_http _ _ _ _ _ _ _ Hs) as [(r0 & ctx0 & out0 & pc0 & ev & pc' & Et' & -> & Hstep)|Hn'];
    [|by destruct (Hn' r1 ctx1 out1 (PDelWS k))].
  rewrite Et in Et'. simplify_eq. unfold w' in Hj. cbn [threads] in Hj.
  rewrite lookup_app_l, list_lookup_insert_eq in Hj
    by (rewrite ?length_insert; by eapply lookup_lt_Some). injection Hj as <- ->.
  cbn [http_step http_exit] in Hstep. destruct c; try done. open_step. done.
Qed.

Lemma whose_after p id v :
  getWS st' p id = Some v →
  ∃ j r ctx out pc q, threads w' !! j = Some (THttp r ctx out pc)
    ∧ http_holds pc = Some (p, id, q) ∧ subscribed pc = Some v.
Proof.
  intros Hg.
  assert (i < length (threads w)) as Hlt by (by eapply lookup_lt_Some).
  assert (threads w' !! i = Some t') as Hown.
  { unfold w'. cbn [threads]. apply lookup_app_l_Some. by apply list_lookup_insert_eq. }
  assert (∀ j u, j ≠ i → threads w !! j = Some u → threads w' !! j = Some u) as Hstay.
  { intros j u Hne Hj. unfold w'. cbn [threads]. apply lookup_app_l_Some. by rewrite list_lookup_insert_ne. }
  destruct (thread_step_http _ _ _ _ _ _ _ Hs) as [(r & ctx & out & pc & ev & pc' & Et & Et' & Hstep)|Hn].
  2: { destruct (step_maps p id) as [Heq|[[_ ?]|(r & ctx & out & pc & q & Et & _)]];
         [|congruence|by destruct (Hn r ctx out pc)].
       rewrite Heq in Hg. destruct (li_whose _ _ _ _ Hli _ _ _ Hg) as (j & r & ctx & out & pc & q & Hj & ? & ?).
       exists j, r, ctx, out, pc, q. split; [|done]. apply Hstay; [|done]. intros ->.
       rewrite Hi in Hj. injection Hj as ->. by destruct (Hn r ctx out pc). }
  rewrite Et' in Hown. clear Et'. subst t.
  assert (getWS (st w) p id = Some v → (∀ q, subscribed pc = Some v → http_holds pc = Some (p, id, q) →
      http_holds pc' = Some (p, id, q) ∧ subscribed pc' = Some v) →
    ∃ j r ctx out pc q, threads w' !! j = Some (THttp r ctx out pc)
      ∧ http_holds pc = Some (p, id, q) ∧ subscribed pc = Some v) as Hold.
  { intros (j & r1 & ctx1 & out1 & pc1 & q1 & Hj & Hh1 & Hv1)%(li_whose _ _ _ _ Hli) Hk.
    destruct (decide (j = i)) as [->|Hne]; [|by eauto 10].
    rewrite Hi in Hj. injection Hj as <- <- <- <-. destruct (Hk _ Hv1 Hh1). by eauto 10. }
  destruct (http_step_subscribes _ _ _ _ _ _ _ _ _ _ _ Hstep)
    as [Hsu Hsame|p1 id1 q1 k -> -> _ Hg1 Hother|k -> -> Hg1 Hother].
  - apply Hold; [by rewrite <-Hsame|]. intros q Hv Hh. rewrite Hsu.
    by rewrite (subscribes_holds _ _ _ _ _ _ _ _ _ _ _ _ Hstep Hv).
  - destruct (decide ((p, id) = (p1, id1))) as [[= -> ->]|Hne].
    + rewrite Hg1 in Hg. injection Hg as <-. exists i, r, ctx, (out ++ ev), (PForward k FStart), q1. done.
    + apply Hold; [by rewrite <-Hother|done].
  - assert ((p, id) ≠ (k_sess k, k_id k)) as Hne by (intros [= -> ->]; congruence).
    apply Hold; [by rewrite <-Hother|]. intros q _ [= <- <- _]. done.
Qed.
Lemma sockets_grow : length (wsH (st w)) ≤ length (wsH st').
Proof. exact (wsH_length ps w i _ _ _ _ _ Hs). Qed.

(** A receive loop with a message: it had it before, or it has just received it. *)
Lemma hand_origin j pc v :
  threads w' !! j = Some (TConn pc) → whand pc v ≠ [] →
  (j ≠ i ∧ threads w !! j = Some (TConn pc))
  ∨ (j = i ∧ ∃ p snd id data, t = TConn (CRecv p snd) ∧ c = Recv (ClientFrame_WsData id data)
       ∧ getWS (st w) p id = Some v ∧ whand pc v = [data] ∧ conn_receives pc = Some p).
Proof.
  intros Hj Hne. destruct (conn_origin _ _ _ _ _ _ _ _ _ _ Hs Hi Hj) as [?|(-> & pc0 & Et & Hstep)]; [by left|].
  right. split; [done|].
  destruct (conn_step_says _ _ _ _ _ _ _ _ Hstep) as [(p & snd & f & -> & -> & Hr & Hw)|(_ & Hw & _)];
    [|by rewrite Hw in Hne].
  specialize (Hw v). destruct f; try congruence. case_decide; [|congruence]. by eauto 10.
Qed.

Lemma bound_after j pc v : threads w' !! j = Some (TConn pc) → whand pc v ≠ [] → v < length (wsH st').
Proof.
  intros Hj Hne. pose proof sockets_grow.
  destruct (hand_origin _ _ _ Hj Hne) as [[_ Hj']|(_ & p & snd & id & data & _ & _ & Hg%registered_bound & _)];
    [|lia]. pose proof (li_bound _ _ _ _ Hli _ _ _ Hj' Hne). lia.
Qed.

Lemma hand_new j pc : threads w !! j = Some (TConn pc) → whand pc (length (wsH (st w))) = [].
Proof.
  intros Hj. destruct (decide (whand pc (length (wsH (st w))) = [])) as [|Hne]; [done|].
  by apply (li_bound _ _ _ _ Hli _ _ _ Hj), Nat.lt_irrefl in Hne.
Qed.

Lemma whand_after j pc v k r ctx out hpc p id q :
  threads w' !! j = Some (TConn pc) → whand pc v ≠ [] → threads w' !! k = Some (THttp r ctx out hpc) →
  http_holds hpc = Some (p, id, q) → pc_ws hpc = Some v → conn_receives pc = Some p.
Proof.
  intros Hj Hne Hk Hh Hv.
  destruct (socket_origin _ _ _ _ _ _ _ _ _ Hk Hh Hv) as [(out0 & pc0 & Hk0 & Hh0 & Hv0 & _)|(-> & -> & _ & out0 & Et)];
  destruct (hand_origin _ _ _ Hj Hne) as [[_ Hj']|(_ & p1 & snd & id1 & data & Et1 & _ & Hg & _ & Hr)].
  - by eapply (li_hand _ _ _ _ Hli).
  - by destruct (socket_owner _ _ _ _ _ _ _ _ _ _ _ Hk0 Hh0 Hv0 Hg) as [-> _].
  - by rewrite (hand_new _ _ Hj') in Hne.
  - congruence.
Qed.

(** What a step that is none of a [Connect] changes of the records: nothing. *)
Lemma records_same :
  (∀ pc, t ≠ TConn pc) → (∀ p, hr' p = hr p) ∧ (∀ v, ps' v = ps v)
    ∧ ∀ j pc, threads w' !! j = Some (TConn pc) → threads w !! j = Some (TConn pc).
Proof.
  intros Hn. unfold hr', ps'. simpl. rewrite Hi. split_and!.
  - intros p. destruct t; try apply app_nil_r. by destruct (Hn pc).
  - intros p. destruct t; try apply app_nil_r. by destruct (Hn pc).
  - intros j pc Hj. destruct (conn_origin _ _ _ _ _ _ _ _ _ _ Hs Hi Hj) as [[_ ?]|(_ & pc0 & -> & _)]; [done|].
    by destruct (Hn pc0).
Qed.

Lemma records_conn pc :
  t = TConn pc → (∀ p, hr' p = hr p ++ conn_hear pc c p) ∧ ∀ v, ps' v = ps v ++ conn_push pc c v.
Proof. intros Et. unfold hr', ps'. simpl. by rewrite Hi, Et. Qed.

(** In a step of a [Connect] handlers stay. *)
Lemma handler_stays pc j r ctx out hpc :
  t = TConn pc → threads w' !! j = Some (THttp r ctx out hpc) → threads w !! j = Some (THttp r ctx out hpc).
Proof.
  intros -> Hj. destruct (handler_origin _ _ _ _ _ _ _ _ _ _ _ _ _ Hs Hi Hj) as [[_ ?]|(_ & ? & ? & ? & ? & _)]; done.
Qed.

(** Two receive loops do not have a message for the same WebSocket. *)
Lemma hand_unique j k pc1 pc2 r ctx out hpc p id q v x :
  threads w !! x = Some (THttp r ctx out hpc) → http_holds hpc = Some (p, id, q) → pc_ws hpc = Some v →
  threads w !! j = Some (TConn pc1) → threads w !! k = Some (TConn pc2) →
  whand pc1 v ≠ [] → whand pc2 v ≠ [] → j = k.
Proof.
  intros Hx Hh Hv Hj Hk H1 H2.
  eapply (an_conns _ _ _ _ Han); [exact Hj|exact Hk|..]; by eapply (li_hand _ _ _ _ Hli).
Qed.

Lemma part_conn pc pc' j r ctx out hpc p id q v l :
  t = TConn pc → conn_step (st w) (length (threads w)) (send_result (threads w)) pc c = Some (st', pc', new) →
  threads w !! j = Some (THttp r ctx out hpc) → http_holds hpc = Some (p, id, q) → pc_ws hpc = Some v →
  l = [] ∨ l = whand pc' v ∨ (∃ k pc1, k ≠ i ∧ threads w !! k = Some (TConn pc1) ∧ l = whand pc1 v) →
  ps' v ++ l `sublist_of` utterances id (hr' p).
Proof.
  intros Et Hstep Hj Hh Hv Hl. destruct (records_conn _ Et) as [-> ->].
  pose proof (λ l, li_part _ _ _ _ Hli _ _ _ _ _ _ _ _ _ l Hj Hh Hv) as Hpart.
  pose proof Hi as Hi'. rewrite Et in Hi'.
  rewrite utterances_app.
  destruct (conn_step_says _ _ _ _ _ _ _ _ Hstep) as [(p0 & snd & f & -> & -> & Hr & Hw)|(-> & Hw & Hp)].
  - assert (conn_push (CRecv p0 snd) (Recv f) v = []) as -> by done. rewrite app_nil_r.
    destruct Hl as [->|[->|(k & pc1 & _ & Hk & ->)]].
    + apply sublist_inserts_r, Hpart. by left.
    + rewrite Hw. destruct f; try (apply sublist_inserts_r, Hpart; by left).
      case_decide as Hg; [|apply sublist_inserts_r, Hpart; by left].
      destruct (socket_owner _ _ _ _ _ _ _ _ _ _ _ Hj Hh Hv Hg) as [-> ->].
      apply sublist_app; [specialize (Hpart []); rewrite app_nil_r in Hpart; apply Hpart; by left|].
      simpl. rewrite decide_True by done. csimpl. by rewrite bool_decide_true.
    + apply sublist_inserts_r, Hpart. right. eauto.
  - rewrite app_nil_r.
    assert (conn_push pc c v = [] ∨ conn_push pc c v = whand pc v ∧ whand pc v ≠ []) as [->|[-> Hne]].
    { destruct (Hp v) as [->|[-> _]]; [|by left]. destruct (decide (whand pc v = [])); auto. }
    + rewrite app_nil_r. apply Hpart. destruct Hl as [->|[->|(k & pc1 & _ & Hk & ->)]]; [by left| |right; eauto].
      left. apply Hw.
    + assert (l = []) as ->.
      { destruct Hl as [->|[->|(k & pc1 & Hk & Hpc1 & ->)]]; [done|apply Hw|].
        destruct (decide (whand pc1 v = [])) as [|Hne1]; [done|]. destruct Hk. by eapply hand_unique. }
      rewrite app_nil_r. apply Hpart. right. eauto.
Qed.

Lemma part_after j r ctx out hpc p id q v l :
  threads w' !! j = Some (THttp r ctx out hpc) → http_holds hpc = Some (p, id, q) → pc_ws hpc = Some v →
  held w' v l → ps' v ++ l `sublist_of` utterances id (hr' p).
Proof.
  intros Hj Hh Hv Hl.
  destruct (thread_step_conn _ _ _ _ _ _ _ Hs) as [(pc & pc' & Et & _ & Hstep)|Hnc].
  - pose proof (handler_stays _ _ _ _ _ _ Et Hj) as Hj'.
    eapply part_conn; [done|done|exact Hj'|done|done|].
    destruct Hl as [->|(k & pc1 & Hk & ->)]; [by left|right].
    destruct (conn_origin _ _ _ _ _ _ _ _ _ _ Hs Hi Hk) as [[Hne Hk']|(-> & pc0 & Et0 & Hstep0)]; [right; eauto|left].
    rewrite Et in Et0. by simplify_eq.
  - destruct records_same as (Hhr & Hps & Hconns); [by apply Hnc|]. rewrite Hhr, Hps.
    destruct (socket_origin _ _ _ _ _ _ _ _ _ Hj Hh Hv) as [(out0 & pc0 & Hj0 & Hh0 & Hv0 & _)|(-> & -> & _ & out0 & Et)].
    + eapply (li_part _ _ _ _ Hli); [done..|]. destruct Hl as [->|(k & pc1 & Hk%Hconns & ->)]; [by left|right; eauto].
    + rewrite (so_fresh _ _ Hso) by done.
      assert (l = []) as ->; [|apply sublist_nil_l].
      destruct Hl as [->|(k & pc1 & Hk%Hconns & ->)]; [done|by apply (hand_new _ _ Hk)].
Qed.

Lemma ok_conn pc pc' k j r ctx out hpc id q v :
  t = TConn pc → conn_step (st w) (length (threads w)) (send_result (threads w)) pc c = Some (st', pc', new) →
  threads w !! j = Some (THttp r ctx out hpc) → http_holds hpc = Some (o, id, q) → subscribed hpc = Some v →
  is_closed (st w) o = false → ws_over (st w) v = false →
  k = i ∧ conn_receives pc' = Some o →
  ps' v ++ whand pc' v = utterances id (hr' o).
Proof.
  intros Et Hstep Hj Hh Hv Ho Hw [-> Hr]. destruct (records_conn _ Et) as [-> ->].
  pose proof Hi as Hi'. rewrite Et in Hi'. rewrite utterances_app.
  pose proof (li_reg _ _ _ _ Hli _ _ _ _ _ _ _ _ _ Hj Hh Hv Ho) as Hg.
  assert (conn_receives pc = Some o) as Hr0.
  { destruct (conn_step_opens _ _ _ _ _ _ _ _ _ Hstep Hr) as [?|[-> _]]; [done|].
    by pose proof (Nat.lt_irrefl _ (held_session _ Hro _ _ _ _ _ _ _ _ Hj Hh)). }
  rewrite <-(li_ok _ _ _ _ Hli _ _ _ _ _ _ _ _ _ _ Hj Hh Hv Hi' Hr0 Ho Hw).
  destruct (conn_step_says _ _ _ _ _ _ _ _ Hstep) as [(p0 & snd & f & -> & -> & Hr1 & Hwh)|(-> & -> & Hp)].
  - assert (p0 = o) as -> by (by simplify_eq/=).
    assert (whand (CRecv o snd) v = []) as -> by done.
    assert (conn_push (CRecv o snd) (Recv f) v = []) as -> by done.
    rewrite !app_nil_r, Hwh. f_equal. simpl. rewrite decide_True by done.
    destruct f; try done. csimpl. rewrite bool_decide_decide.
    destruct (decide (request_id = id)) as [->|Hne]; [by rewrite decide_True|].
    rewrite decide_False; [done|]. intros Hg1.
    by destruct (socket_owner _ _ _ _ _ _ _ _ _ _ _ Hj Hh (subscribed_ws _ _ Hv) Hg1).
  - rewrite !app_nil_r. destruct (Hp v) as [->|[_ ?]]; [done|congruence].
Qed.

Lemma listen_ok_after j k r ctx out hpc id q v pc :
  threads w' !! j = Some (THttp r ctx out hpc) → http_holds hpc = Some (o, id, q) →
  subscribed hpc = Some v → threads w' !! k = Some (TConn pc) → conn_receives pc = Some o →
  is_closed st' o = false → ws_over st' v = false → ps' v ++ whand pc v = utterances id (hr' o).
Proof.
  intros Hj Hh Hv Hk Hr Ho0 Hw0. pose proof (open_before _ _ _ _ _ _ Hs _ Ho0) as Ho.
  pose proof (over_before _ Hw0) as Hw. clear Ho0 Hw0.
  destruct (thread_step_conn _ _ _ _ _ _ _ Hs) as [(pc0 & pc0' & Et & Et' & Hstep)|Hnc].
  - pose proof (handler_stays _ _ _ _ _ _ Et Hj) as Hj'.
    destruct (conn_origin _ _ _ _ _ _ _ _ _ _ Hs Hi Hk) as [[Hne Hk']|(-> & pc1 & Et0 & Hstep0)].
    2: { rewrite Et in Et0. injection Et0 as <-. by eapply ok_conn. }
    destruct (records_conn _ Et) as [-> ->]. pose proof Hi as Hi'. rewrite Et in Hi'.
    assert (conn_receives pc0 ≠ Some o) as Hno.
    { intros Hr0. apply Hne. by eapply (an_conns _ _ _ _ Han). }
    assert (conn_hear pc0 c o = []) as ->.
    { destruct pc0, c; try done. simpl in *. rewrite decide_False; [done|congruence]. }
    assert (conn_push pc0 c v = []) as ->.
    { destruct (decide (whand pc0 v = [])) as [Hn|Hn].
      - by destruct pc0 as [| | | | | |? ? []| | | | | |], c.
      - destruct Hno. eapply (li_hand _ _ _ _ Hli); [exact Hi'|exact Hn|exact Hj'|done|by apply subscribed_ws]. }
    rewrite !app_nil_r. by eapply (li_ok _ _ _ _ Hli).
  - destruct records_same as (-> & -> & Hconns); [by apply Hnc|]. apply Hconns in Hk.
    destruct (socket_origin _ _ _ _ _ _ _ _ _ Hj Hh (subscribed_ws _ _ Hv))
      as [(out0 & pc0 & Hj0 & Hh0 & _ & Hsu)|(-> & -> & _ & out0 & Et)].
    + eapply (li_ok _ _ _ _ Hli); eauto.
    + by rewrite (so_fresh _ _ Hso), (hand_new _ _ Hk), (Hhonest _ _ _ _ _ Et).
Qed.

Lemma listens_thread : listens o hr' ps' w'.
Proof.
  constructor.
  - apply reg_after.
  - apply whose_after.
  - apply bound_after.
  - intros. by eapply whand_after.
  - apply part_after.
  - intros. by eapply listen_ok_after.
Qed.
End step.

Lemma listens_ext o hr hr' ps ps' w :
  (∀ p, hr' p = hr p) → (∀ v, ps' v = ps v) → listens o hr ps w → listens o hr' ps' w.
Proof. intros Hh Hp []. constructor; try setoid_rewrite Hh; try setoid_rewrite Hp; eauto. Qed.

(** Handlers with a response state and [Connect]s stay at their point. *)
Lemma listens_threads o hr ps w ts :
  listens o hr ps w →
  (∀ j r ctx out pc, ts !! j = Some (THttp r ctx out pc) → is_Some (http_holds pc) →
     ∃ ctx', threads w !! j = Some (THttp r ctx' out pc)) →
  (∀ j r ctx out pc, threads w !! j = Some (THttp r ctx out pc) →
     ∃ ctx', ts !! j = Some (THttp r ctx' out pc)) →
  (∀ j pc, ts !! j = Some (TConn pc) → pc = CFirst ∨ threads w !! j = Some (TConn pc)) →
  listens o hr ps (mkWorld (st w) ts).
Proof.
  intros [Hr Hw Hb Hh Hp Ho] Hback Hforth Hc.
  assert (∀ j pc v, ts !! j = Some (TConn pc) → whand pc v ≠ [] → threads w !! j = Some (TConn pc)) as Hconn.
  { intros j pc v Hj Hne. by destruct (Hc _ _ Hj) as [->|?]. }
  constructor; cbn [st threads].
  - intros i r ctx out pc p id q v Hi Hq. destruct (Hback _ _ _ _ _ Hi) as [ctx' Hi']; [by eexists|]. eauto.
  - intros p id v (i & r & ctx & out & pc & q & Hi & ? & ?)%Hw. destruct (Hforth _ _ _ _ _ Hi) as [ctx' Hi'].
    eauto 10.
  - intros j pc v Hj Hne. eauto.
  - intros j pc v i r ctx out hpc p id q Hj Hne Hi Hq.
    destruct (Hback _ _ _ _ _ Hi) as [ctx' Hi']; [by eexists|]. eauto.
  - intros i r ctx out hpc p id q v l Hi Hq Hv Hl.
    destruct (Hback _ _ _ _ _ Hi) as [ctx' Hi']; [by eexists|]. eapply Hp; [done..|].
    destruct Hl as [->|(j & pc & Hj & ->)]; [by left|].
    destruct (decide (whand pc v = [])) as [->|Hne]; [by left|right; eauto].
  - intros i j r ctx out hpc id q v pc Hi Hq Hv Hj Hrecv.
    destruct (Hback _ _ _ _ _ Hi) as [ctx' Hi']; [by eexists|].
    destruct (Hc _ _ Hj) as [->|Hj']; [done|]. by eapply Ho.
Qed.

Lemma listens_step o hr ac ps w l w' :
  listens o hr ps w → answers o hr ac w → socks ps w → inv w → heap_inv w → routes w →
  (∀ i r ctx out id q, threads w !! i = Some (THttp r ctx out (PPutWS o id q)) → utterances id (hr o) = []) →
  exec w l = Some w' →
  listens o (λ p, hr p ++ hear w l p) (λ v, ps v ++ push w l v) w'.
Proof.
  intros Hli Han Hso Hinv Hheap Hro Hhon Hl. destruct l as [i c|i e|r|]; cbn [exec] in Hl.
  { apply bind_Some in Hl as (t & Hi & ([[st' t'] new] & Hs & [= <-])%bind_Some).
    eapply listens_thread with (t := t); try done. intros r ctx out id q ->. by eapply Hhon. }
  { apply bind_Some in Hl as (t & Hi & (t' & Hc & [= <-])%bind_Some).
    apply (listens_ext _ hr _ ps); [intros; apply app_nil_r..|].
    destruct t as [r [] out pc| | | |]; simplify_eq/=. apply listens_threads; [done|..].
    - intros j r0 ctx0 out0 pc0 [(<- & ? & _)|[_ ?]]%insert_lookup_cases; simplify_eq; eauto.
    - intros j r0 ctx0 out0 pc0 Hj. destruct (decide (j = i)) as [->|Hne].
      + rewrite Hi in Hj. simplify_eq. rewrite list_lookup_insert_eq by (by eapply lookup_lt_Some). eauto.
      + rewrite list_lookup_insert_ne by done. eauto.
    - intros j pc0 [(<- & ? & _)|[_ ?]]%insert_lookup_cases; simplify_eq; auto. }
  all: simplify_eq; apply (listens_ext _ hr _ ps); [intros; apply app_nil_r..|].
  all: apply listens_threads; [done|..].
  all: try (intros j r0 ctx0 out0 pc0 Hj; exists ctx0; by apply lookup_app_l_Some).
  all: intros j; intros; match goal with Hj : (_ ++ _) !! _ = _ |- _ =>
    apply lookup_snoc_cases in Hj as [?|[_ ?]]; simplify_eq; eauto end.
  all: by match goal with Hx : is_Some _ |- _ => destruct Hx end.
Qed.

Lemma listens_init o s : listens o (λ _, []) (λ _, []) (init_world s).
Proof. constructor; done. Qed.

(** ** Runs *)

Lemma run_snoc w ls l w' :
  run w (ls ++ [l]) = Some w' → ∃ w1, run w ls = Some w1 ∧ exec w1 l = Some w'.
Proof.
  revert w. induction ls as [|l1 ls IH]; intros w; simpl.
  { intros (w1 & ? & [= ->])%bind_Some. eauto. }
  intros (w1 & -> & Hr)%bind_Some. by apply IH.
Qed.

Lemma heard_snoc w ls l w1 p :
  run w ls = Some w1 → heard w (ls ++ [l]) p = heard w ls p ++ hear w1 l p.
Proof.
  revert w. induction ls as [|l1 ls IH]; intros w; simpl.
  { intros [= ->]. destruct (exec w1 l); by rewrite app_nil_r. }
  intros (w2 & -> & Hr)%bind_Some. by rewrite (IH _ Hr), app_assoc.
Qed.

Lemma pushed_snoc w ls l w1 v :
  run w ls = Some w1 → pushed w (ls ++ [l]) v = pushed w ls v ++ push w1 l v.
Proof.
  revert w. induction ls as [|l1 ls IH]; intros w; simpl.
  { intros [= ->]. destruct (exec w1 l); by rewrite app_nil_r. }
  intros (w2 & -> & Hr)%bind_Some. by rewrite (IH _ Hr), app_assoc.
Qed.

Lemma queued_snoc w ls l w1 w2 p :
  run w ls = Some w1 → exec w1 l = Some w2 →
  queued w (ls ++ [l]) p = queued w ls p ++ grown (st w1) (st w2) p.
Proof.
  revert w. induction ls as [|l1 ls IH]; intros w; simpl.
  { intros [= ->] ->. by rewrite app_nil_r. }
  intros (w3 & -> & Hr)%bind_Some Hl. by rewrite (IH _ Hr Hl), app_assoc.
Qed.

(** The client of session [p] talks on a WebSocket only when it has been asked for it. *)
Definition polite (w : world) (ls : list label) (p : nat) : Prop :=
  ∀ ls1 ls2 id, ls = ls1 ++ ls2 →
    utterances id (heard w ls1 p) ≠ [] → about id (queued w ls1 p) ≠ [].

Lemma run_heap_inv s ls w : run (init_world s) ls = Some w → heap_inv w.
Proof. intros Hr%run_rtc. eapply heap_inv_rtc; [|done]. by split; [constructor|]. Qed.

Lemma run_routes cfg s ls w : New cfg = Ok s → run (init_world s) ls = Some w → routes w.
Proof.
  intros Hnew Hr%run_rtc. destruct (New_valid _ _ Hnew) as [_ (_ & _ & _ & _ & _ & _ & _ & Hsess & _)].
  by eapply routes_rtc; [apply routes_init|].
Qed.

Lemma run_socks s ls w : run (init_world s) ls = Some w → socks (pushed (init_world s) ls) w.
Proof. intros Hr. exact (socks_run _ _ _ _ (socks_init s) Hr). Qed.

Lemma run_listens cfg s ls w p :
  New cfg = Ok s → (MaxTotalInflight cfg ≤ max_i64)%Z → (Z.of_nat (length ls) < 2^64)%Z →
  run (init_world s) ls = Some w → honest (init_world s) ls p → polite (init_world s) ls p →
  listens p (heard (init_world s) ls) (pushed (init_world s) ls) w.
Proof.
  intros Hnew Hmax. revert w. induction ls as [|l ls IH] using rev_ind; intros w Hlen Hrun Hhon Hpol.
  { injection Hrun as <-. apply listens_init. }
  rewrite length_app in Hlen. apply run_snoc in Hrun as (w1 & Hr & Hl).
  assert (honest (init_world s) ls p) as Hhon1.
  { intros ls1 ls2 id ->. apply (Hhon ls1 (ls2 ++ [l])). by rewrite app_assoc. }
  assert (polite (init_world s) ls p) as Hpol1.
  { intros ls1 ls2 id ->. apply (Hpol ls1 (ls2 ++ [l])). by rewrite app_assoc. }
  assert (Z.of_nat (length ls) < 2^64)%Z as Hlen1 by lia.
  eapply listens_ext; [intros; by apply heard_snoc|intros; by apply pushed_snoc|].
  eapply listens_step; [by apply IH|by eapply run_answers|by apply run_socks|by eapply run_inv
    |by eapply run_heap_inv|by eapply run_routes| |done].
  intros i r ctx out id q Hi. destruct (decide (utterances id (heard (init_world s) ls p) = [])) as [|Hne]; [done|].
  exfalso. apply (Hpol1 ls [] id); [by rewrite app_nil_r|done|].
  destruct (run_forwards _ _ _ _ Hnew Hmax Hlen1 Hr) as [Hfw _].
  pose proof (fw_holds _ _ Hfw _ _ _ _ _ _ _ _ Hi eq_refl) as Ht. simpl in Ht.
  by apply (app_inv_tail (sends r id)).
Qed.

(** ** Starts come first *)

Section queue.
Context (cfg : Config) (s : Server).
Hypothesis Hnew : New cfg = Ok s.
Hypothesis Hmax : (MaxTotalInflight cfg ≤ max_i64)%Z.

Lemma queued_proper ls w p id :
  (Z.of_nat (length ls) < 2^64)%Z → run (init_world s) ls = Some w →
  proper (about id (queued (init_world s) ls p)).
Proof using Hnew Hmax.
  intros Hlen Hrun. destruct (run_forwards _ _ _ _ Hnew Hmax Hlen Hrun) as [Hfw _].
  destruct (fw_whose _ _ Hfw p id) as [->|(n & r & ctx & out & pc & _ & Hr)]; [by split|].
  eapply proper_prefix; [exact Hr|apply proper_sends].
Qed.

Lemma proper_once m m' pre post :
  proper (about (rs_RequestId m) (pre ++ ServerFrame_RequestStart m :: post)) →
  ServerFrame_RequestStart m' ∈ pre → rs_RequestId m' ≠ rs_RequestId m.
Proof.
  intros [Hst _] Hm Hid. unfold about in Hst. rewrite filter_app, filter_cons_True in Hst
    by (by apply bool_decide_pack).
  specialize (Hst _ m (list_lookup_middle _ _ _ _ eq_refl)).
  assert (ServerFrame_RequestStart m' ∈ about (rs_RequestId m) pre) as Hin.
  { apply list_elem_of_filter. split; [|done]. apply bool_decide_pack. simpl. by rewrite Hid. }
  unfold about in Hin. apply nil_length_inv in Hst. rewrite Hst in Hin. by apply elem_of_nil in Hin.
Qed.

(** A start is queued by the handler of its request, before that has a reader. *)
Lemma start_quiet ls w1 l w2 p m :
  (Z.of_nat (length ls) < 2^64)%Z → run (init_world s) ls = Some w1 → exec w1 l = Some w2 →
  ServerFrame_RequestStart m ∈ grown (st w1) (st w2) p →
  messages (rs_RequestId m) (queued (init_world s) ls p) = []
  ∧ messages (rs_RequestId m) (grown (st w1) (st w2) p) = [].
Proof using Hnew Hmax.
  intros Hlen Hrun Hl Hm.
  assert (about (rs_RequestId m) (grown (st w1) (st w2) p) ≠ []) as Hab.
  { intros Hn. assert (ServerFrame_RequestStart m ∈ about (rs_RequestId m) (grown (st w1) (st w2) p)) as Hin.
    { apply list_elem_of_filter. split; [by apply bool_decide_pack|done]. }
    rewrite Hn in Hin. by apply elem_of_nil in Hin. }
  destruct l as [i c|i e|r|]; cbn [exec] in Hl.
  2-4: open_step; simplify_eq; by rewrite grown_same in Hm; [apply elem_of_nil in Hm|].
  apply bind_Some in Hl as (t & Hi & ([[st' t'] new] & Hs & [= <-])%bind_Some). cbn [st] in *.
  assert (∃ r ctx out k f, t = THttp r ctx out (PForward k f) ∧ k_id k = rs_RequestId m) as (r & ctx & out & k & f & -> & Hid).
  { destruct t as [r ctx out pc| | | |]; [destruct (is_forward pc) as [(k & f & ->)|Hpc];
      [destruct (decide (k_id k = rs_RequestId m)); [by eauto 10|]|]|..];
      (destruct Hab; eapply thread_step_grown; [exact Hs|]; intros; naive_solver). }
  split.
  - rewrite <-Hid. by eapply (rr_before _ _ _ (run_readers _ _ _ _ Hnew Hmax Hlen Hrun)).
  - by eapply thread_step_messages.
Qed.

Lemma queued_starts_first ls w p :
  (Z.of_nat (length ls) < 2^64)%Z → run (init_world s) ls = Some w →
  starts_first (queued (init_world s) ls p).
Proof using Hnew Hmax.
  intros Hlen Hrun pre m post Heq. split.
  2: { intros m' Hm'. eapply proper_once; [|done]. rewrite <-Heq. by eapply queued_proper. }
  revert w pre post Hlen Hrun Heq. induction ls as [|l ls IH] using rev_ind; intros w pre post Hlen Hrun Heq.
  { by destruct pre. }
  rewrite length_app in Hlen. apply run_snoc in Hrun as (w1 & Hr & Hl).
  rewrite (queued_snoc _ _ _ _ _ _ Hr Hl) in Heq.
  assert (Z.of_nat (length ls) < 2^64)%Z as Hlen1 by lia.
  apply app_eq_app in Heq as (k & [[Hq Hk]|[-> Hk]]).
  - destruct k as [|f k]; simpl in Hk; [|injection Hk as <- ->; by eapply IH].
    rewrite app_nil_r in Hq. rewrite <-Hq. eapply start_quiet; [done..|]. rewrite <-Hk. left.
  - assert (ServerFrame_RequestStart m ∈ grown (st w1) (st w) p) as Hin.
    { rewrite Hk. apply elem_of_app. right. left. }
    destruct (start_quiet _ _ _ _ _ _ Hlen1 Hr Hl Hin) as [Hq Hg].
    rewrite Hk, messages_app in Hg. apply app_nil in Hg as [Hg _]. by rewrite messages_app, Hq, Hg.
Qed.
End queue.
End listening.
