(* ===== verification/Failures.v ===== *)
(** * server: what becomes of the handlers of a session that fails.

    [shutdown] fails the requests that are registered; this file shows that a handler whose
    request has been failed is never blocked again and returns after boundedly many steps,
    whatever its browser, its context and its channels do. *)

From S2P Require Import Prelude GoStrings Hostnames Proto Headers Channels ResponseState Server.
From S2P Require Import Steps Scenario Abstract Invariants Origins ServerConfig Routing Sessions Pipeline Edge WebSocket Replies Listening.

Section failures.
Context `{UnicodeData}.

(** ** Response states stay finished *)

Definition keeps_done (st st' : state) : Prop := ∀ q, finished st q → finished st' q.

Lemma keeps_same st st' : rsH st' = rsH st → keeps_done st st'.
Proof. unfold keeps_done, finished. by intros ->. Qed.

Lemma keeps_put st x r r' :
  rsH st !! x = Some r → done r' = done r → keeps_done st (put_rs st x r').
Proof.
  intros Hx Hd q (y & Hy & Hyd). unfold finished. simpl. destruct (decide (x = q)) as [->|Hne].
  - exists r'. rewrite list_lookup_insert_eq by (by eapply lookup_lt_Some). split; congruence.
  - exists y. by rewrite list_lookup_insert_ne.
Qed.

Lemma keeps_alter f st st' x :
  rsH st' = alter f x (rsH st) → (∀ r, done r = true → done (f r) = true) → keeps_done st st'.
Proof.
  intros Heq Hf q (y & Hy & Hyd). unfold finished. rewrite Heq. destruct (decide (x = q)) as [->|Hne].
  - exists (f y). rewrite list_lookup_alter_eq, Hy. auto.
  - exists y. by rewrite list_lookup_alter_ne.
Qed.

Lemma finish_keeps_done r : done r = true → done (finish r) = true.
Proof. unfold finish. by destruct (rs_once r). Qed.
Lemma fail_keeps_done e r : done r = true → done (fail r e) = true.
Proof. unfold fail. by destruct (rs_once r). Qed.

Lemma fail_all_keeps e l h q r :
  h !! q = Some r → done r = true → ∃ r', foldl (fail_at e) h l !! q = Some r' ∧ done r' = true.
Proof.
  revert h r. induction l as [|x l IH]; intros h r Hq Hd; simpl; [by eauto|].
  destruct (decide (x = q)) as [->|Hne].
  - eapply IH; [unfold fail_at; by rewrite list_lookup_alter_eq, Hq|by apply fail_keeps_done].
  - eapply IH; [unfold fail_at; by rewrite list_lookup_alter_ne|done].
Qed.

Lemma fail_all_done e l h q r :
  q ∈ l → h !! q = Some r → rs_ok r → ∃ r', foldl (fail_at e) h l !! q = Some r' ∧ done r' = true.
Proof.
  revert h r. induction l as [|x l IH]; intros h r Hin Hq Hok; [by apply elem_of_nil in Hin|]. simpl.
  destruct (decide (x = q)) as [->|Hne].
  - eapply fail_all_keeps; [unfold fail_at; by rewrite list_lookup_alter_eq, Hq|by apply fail_done].
  - apply elem_of_cons in Hin as [->|Hin]; [done|].
    eapply IH; [done|unfold fail_at; by rewrite list_lookup_alter_ne|done].
Qed.

(** [shutdown] finishes what is registered. *)
Lemma shutdown_fail_finishes st p e st' n id q :
  shutdown_fail st p e = Some (st', n) → sess_get st p id = Some q → heap_ok st →
  q < length (rsH st) → finished st' q.
Proof.
  intros (s & Hs & _ & _ & _ & Hrs)%shutdown_fail_spec Hg Hok Hlt.
  apply lookup_lt_is_Some in Hlt as [r Hr]. unfold finished. rewrite Hrs.
  eapply fail_all_done; [|exact Hr|].
  - apply list_elem_of_fmap. exists (id, q). split; [done|]. apply elem_of_map_to_list.
    apply bind_Some in Hg as (s' & Hs' & Hg). by simplify_eq.
  - eapply Forall_lookup_1; [|exact Hr]. by destruct Hok.
Qed.

Lemma shutdown_fail_keeps_done st p e st' n : shutdown_fail st p e = Some (st', n) → keeps_done st st'.
Proof.
  intros (s & _ & _ & _ & _ & Hrs)%shutdown_fail_spec q (r & Hr & Hd). unfold finished. rewrite Hrs.
  by eapply fail_all_keeps.
Qed.

(** *** Steps *)

Lemma keeps_quiet st st' : quiet none st st' → keeps_done st st'.
Proof. intros Hq q Hf. eapply finished_same; [|exact Hf]. symmetry. apply (quiet_rs _ _ _ Hq). by intros []. Qed.

Lemma sess_del_keeps st p id st' b : sess_del st p id = Some (st', b) → keeps_done st st'.
Proof.
  intros (s & Hs & Hm)%bind_Some. by destruct (inflight s !! id); simplify_eq; apply keeps_same.
Qed.

Lemma tryStart_keeps st p id m st' o : tryStart st p id m = Some (st', o) → keeps_done st st'.
Proof.
  intros (s & Hp & Ht)%bind_Some. destruct (_ && _); injection Ht as <- <-; [by apply keeps_same|].
  intros q (y & Hy & Hd). exists y. split; [|done]. by apply lookup_app_l_Some.
Qed.

Create HintDb keeps discriminated.
#[local] Hint Resolve sess_del_keeps tryStart_keeps shutdown_fail_keeps_done : keeps.
#[local] Hint Extern 2 (keeps_done _ _) => (apply keeps_same; reflexivity) : keeps.
#[local] Hint Extern 3 (keeps_done _ _) => (apply keeps_quiet; by eauto with quiet) : keeps.

Lemma http_step_done st r ctx self rd pc c st' ev pc' new :
  http_step st r ctx self rd pc c = Some (st', ev, pc', new) → keeps_done st st'.
Proof.
  intros Hs.
  assert (∀ x y y', rsH st !! x = Some y → done y' = done y → keeps_done st (put_rs st x y')) as Hput.
  { intros. by eapply keeps_put. }
  destruct pc; try done; cbn [http_step] in Hs;
    try (destruct c; try done; cbn [http_enter http_exit] in Hs);
    cbn [http_respond http_websocket] in Hs.
  all: try (match goal with Hp : context [putWS] |- _ =>
    apply bind_Some in Hs as (st1 & (s & _ & [= <-])%bind_Some & Hs); simplify_eq; by apply keeps_same end).
  all: try (apply bind_Some in Hs as ([st1 res] & Hf%(forwardRequest_quiet none) & Hs);
    assert (st1 = st') as -> by (destruct res; [|destruct (forwarded _ _ _)]; by simplify_eq); by apply keeps_quiet).
  all: open_step; simplify_eq; try (by eauto with keeps);
    (eapply Hput; [eassumption|]);
    repeat match goal with E : _ = (?a, ?b) |- _ => apply (f_equal snd) in E; simpl in E; subst b end;
    by rewrite ?consumeErr_done, ?consumeStart_done, ?consumeBody_done.
Qed.

Lemma conn_step_done st self res pc c st' pc' new :
  conn_step st self res pc c = Some (st', pc', new) → keeps_done st st'.
Proof.
  intros Hs. destruct pc; cbn [conn_step] in Hs; try done.
  6: { destruct c; try done; [|open_step; by apply keeps_same].
       destruct (handleClientFrame st p f) as [st1 d] eqn:Hf. simplify_eq.
       destruct f; simplify_eq/=; try (by apply keeps_same); case_match; simplify_eq/=; try (by apply keeps_same).
       - eapply keeps_alter; [done|apply finish_keeps_done].
       - eapply keeps_alter; [done|apply fail_keeps_done]. }
  6: { apply bind_Some in Hs as (st1 & Hd & Hs). simplify_eq.
       destruct d, c; simplify_eq/=; open_step; try (by apply keeps_same);
         match goal with Hp : push_start _ _ = _ |- _ => unfold push_start in Hp
           | Hp : push_body _ _ = _ |- _ => unfold push_body in Hp end;
         open_step; by eapply keeps_put. }
  all: open_step; simplify_eq; by eauto with keeps.
Qed.

Lemma helper_quiet st ts t c st' t' new :
  thread_step st ts t c = Some (st', t', new) →
  (∀ r ctx out pc, t ≠ THttp r ctx out pc) → (∀ pc, t ≠ TConn pc) → quiet none st st'.
Proof.
  intros Hs Hn Hc. destruct (thread_step_abs _ _ _ _ _ _ _ Hs) as [Habs _].
  destruct Habs as [? r ctx out pc| ? pc|]; [by destruct (Hn r ctx out pc)|by destruct (Hc pc)|done].
Qed.

Lemma thread_step_done st ts t c st' t' new :
  thread_step st ts t c = Some (st', t', new) → keeps_done st st'.
Proof.
  intros Hs.
  destruct (thread_step_http _ _ _ _ _ _ _ Hs) as [(r & ctx & out & pc & ev & pc' & _ & _ & Hstep)|Hn];
    [by eapply http_step_done|].
  destruct (thread_step_conn _ _ _ _ _ _ _ Hs) as [(pc & pc' & _ & _ & Hstep)|Hc]; [by eapply conn_step_done|].
  eapply keeps_quiet, helper_quiet; [exact Hs|by intros; apply Hn|by apply Hc].
Qed.
(** ** A request is registered or failed *)

(** The points of [serveWebSocket] after [forwardRequest]. *)
Definition in_socket (pc : http_pc) : bool :=
  match pc with
  | PWsWait _ | PHijack _ _ | PHandshake _ _ | PWsLoop _ _ | PWsWrite _ _ _ | PCloseWS _ => true
  | _ => false
  end.

Lemma in_socket_exit k : in_socket (exit k) = false.
Proof. unfold exit. by destruct (k_ws k). Qed.

Lemma http_step_in_socket st r ctx self rd pc c st' ev pc' new :
  http_step st r ctx self rd pc c = Some (st', ev, pc', new) →
  (in_socket pc = true → is_Some (pc_ws pc)) → in_socket pc' = true → is_Some (pc_ws pc').
Proof.
  intros Hs Hin Hin'. destruct pc; try done;
    cbn [http_step http_enter http_respond http_websocket http_exit] in Hs.
  all: open_step; simplify_eq; try done; try (by repeat case_match);
    try (by rewrite in_socket_exit in Hin'); try (by apply Hin).
  all: try match goal with Hw : write_header _ _ = _ |- _ =>
    apply write_header_conns in Hw as [_ [-> | ->]]; [by rewrite in_socket_exit in Hin'|done] end.
  all: try (unfold write_chunk in Hin'; by repeat case_match).
  match goal with Hf : forwarded _ _ _ = _ |- _ => unfold forwarded in Hf end.
  repeat case_match; simplify_eq; try (by rewrite in_socket_exit in Hin'); try done.
Qed.

Definition failed (st : state) (p q : nat) : Prop := finished st q ∧ is_closed st p = true.

Record settled (w : world) : Prop := {
  se_request : ∀ i r ctx out pc p id q, threads w !! i = Some (THttp r ctx out pc) →
    http_holds pc = Some (p, id, q) → sess_get (st w) p id = Some q ∨ failed (st w) p q;
  se_socket : ∀ i r ctx out pc, threads w !! i = Some (THttp r ctx out pc) →
    in_socket pc = true → is_Some (pc_ws pc) }.

Lemma conn_step_fails st self res pc c st' pc' new p id q :
  conn_step st self res pc c = Some (st', pc', new) → conn_failing pc = Some p →
  sess_get st p id = Some q → heap_ok st → q < length (rsH st) → finished st' q.
Proof.
  intros Hs Hf Hg Hok Hlt. destruct pc; try done; injection Hf as ->; cbn [conn_step] in Hs; open_step;
    by eapply shutdown_fail_finishes.
Qed.

Section step.
Context (w : world) (i : nat) (t : thread) (c : choice) (st' : state) (t' : thread) (new : list thread).
Hypothesis Hse : settled w.
Hypothesis Hinv : inv w.
Hypothesis Hheap : heap_inv w.
Hypothesis Hrefs : refs_ok w.
Hypothesis Hi : threads w !! i = Some t.
Hypothesis Hs : thread_step (st w) (threads w) t c = Some (st', t', new).

Lemma settled_thread : settled (mkWorld st' (<[i := t']> (threads w) ++ new)).
Proof.
  constructor.
  2: { intros j r ctx out pc Hj Hin.
       destruct (handler_origin _ _ _ _ _ _ _ _ _ _ _ _ _ Hs Hi Hj) as [[_ Hj']|(-> & out0 & pc0 & ev & Et & _ & Hstep)];
         [by eapply se_socket|]. rewrite Et in Hi.
       eapply http_step_in_socket; [exact Hstep|by eapply se_socket|done]. }
  intros j r ctx out pc p id q Hj Hh. cbn [st].
  destruct (holder_origin _ _ _ _ _ _ _ Hi Hs _ _ _ _ _ _ _ _ Hj Hh)
    as [(out0 & pc0 & Hj0 & Hh0 & Heq)|(_ & out0 & ws & _ & _ & Hg)]; [|by left].
  destruct (se_request _ Hse _ _ _ _ _ _ _ _ Hj0 Hh0) as [Hg|[Hf Hc]].
  2: { right. split; [by eapply thread_step_done|]. eapply is_closed_keeps; [by eapply step_abs|done]. }
  destruct (thread_step_http _ _ _ _ _ _ _ Hs) as [(r1 & ctx1 & out1 & pc1 & ev & pc1' & Et & _ & Hstep)|Hnh].
  { left. destruct (decide (j = i)) as [->|Hne].
    - destruct (Heq eq_refl) as [_ Ha]. eapply http_abs_registered; [exact Ha|by right|done].
    - eapply http_abs_registered; [by eapply http_step_abs| |done]. left. intros Hid. apply Hne.
      rewrite Et in Hi. eapply (inv_unique _ Hinv); [exact Hj0|exact Hi| |exact Hid].
      by eapply (holds_ident (THttp r ctx out0 pc0)). }
  destruct (thread_step_conn _ _ _ _ _ _ _ Hs) as [(pc1 & pc1' & Et & _ & Hstep)|Hnc].
  - destruct (decide (conn_failing pc1 = Some p)) as [Hf|Hf]; [right|left; by eapply conn_step_registered].
    split.
    + eapply conn_step_fails; [done..|by destruct Hheap|].
      eapply (refs_holds _ Hrefs _ _ _ Hj0). unfold holds_rs. simpl. by rewrite Hh0.
    + eapply is_closed_keeps; [by eapply step_abs|]. rewrite Et in Hi. by eapply (proj2 Hheap).
  - left. rewrite (quiet_sess_get none (st w)); [done|].
    eapply helper_quiet; [exact Hs|by intros; apply Hnh|by apply Hnc].
Qed.
End step.

Lemma settled_step w l w' :
  settled w → inv w → heap_inv w → refs_ok w → exec w l = Some w' → settled w'.
Proof.
  intros Hse Hinv Hheap Hrefs Hl. destruct l as [i c|i e|r|]; cbn [exec] in Hl.
  { apply bind_Some in Hl as (t & Hi & ([[st' t'] new] & Hs & [= <-])%bind_Some).
    by eapply settled_thread. }
  { apply bind_Some in Hl as (t & Hi & (t' & Hc & [= <-])%bind_Some).
    destruct t as [r [] out pc| | | |]; simplify_eq/=. constructor; cbn [st threads].
    - intros j r0 ctx0 out0 pc0 p id q [(<- & ? & _)|[_ ?]]%insert_lookup_cases; simplify_eq; by eapply se_request.
    - intros j r0 ctx0 out0 pc0 [(<- & ? & _)|[_ ?]]%insert_lookup_cases; simplify_eq; by eapply se_socket. }
  all: simplify_eq; constructor; cbn [st threads].
  all: intros j r0 ctx0 out0 pc0; intros; match goal with Hj : (_ ++ _) !! _ = _ |- _ =>
    apply lookup_snoc_cases in Hj as [?|[_ ?]] end; simplify_eq;
    first [by eapply se_request|by eapply se_socket].
Qed.

Lemma run_settled cfg s ls w :
  New cfg = Ok s → (MaxTotalInflight cfg ≤ max_i64)%Z → (Z.of_nat (length ls) < 2^64)%Z →
  run (init_world s) ls = Some w → settled w.
Proof.
  intros Hnew Hmax. revert w. induction ls as [|l ls IH] using rev_ind; intros w Hlen Hrun.
  { injection Hrun as <-. by constructor. }
  rewrite length_app in Hlen. apply run_snoc in Hrun as (w1 & Hr & Hl).
  assert (Z.of_nat (length ls) < 2^64)%Z as Hlen1 by lia.
  eapply settled_step; [by apply IH|by eapply run_inv|by eapply run_heap_inv| |done].
  apply (piped_refs _ _ (run_piped _ _ _ Hr)).
Qed.
(** ** A handler alone comes to its end *)

(** Chunks and messages that are waiting for a handler. *)
Definition body_at (st : state) (q : nat) : nat := from_option (λ r, length (body r)) 0 (rsH st !! q).
Definition inbox (st : state) (o : option nat) : nat :=
  from_option (λ v, length (from_client st v)) 0 o.
Definition waiting (st : state) (k : reqctx) : nat := 2 * body_at st (k_rs k) + 2 * inbox st (k_ws k).

Definition fwd_cost (r : Request) (f : fwd_pc) : nat :=
  match f with
  | FStart => 2 + 2 * length (default [] (r_Body r))
  | FLoop reads => 1 + 2 * length reads
  | FChunk _ _ reads => 2 + 2 * length reads
  | FEnd => 0
  end.

(** A bound on the steps a handler still makes if nobody else moves. *)
Definition cost (st : state) (r : Request) (pc : http_pc) : nat :=
  match pc with
  | PPutWS _ _ q => 11 + fwd_cost r FStart + 2 * body_at st q
  | PForward k f => 10 + fwd_cost r f + waiting st k
  | PWsWait k => 9 + waiting st k
  | PWait k | PHijack k _ => 8 + waiting st k
  | PBody k | PHandshake k _ => 7 + waiting st k
  | PWrite k _ false => 8 + waiting st k
  | PWrite k _ true | PWsWrite k _ _ => 6 + waiting st k
  | PDrain k | PWsLoop k _ => 5 + waiting st k
  | PCancel _ | PCloseWS _ => 4
  | PDelWS _ => 3
  | PFinish _ => 2
  | PRelease => 1
  | _ => 0
  end.

Lemma cost_exit st r k : cost st r (exit k) ≤ 3.
Proof. unfold exit. destruct (k_ws k); simpl; lia. Qed.

Lemma waiting_same st st' k : (∀ q, rsH st' !! q = rsH st !! q) → wsH st' = wsH st → waiting st' k = waiting st k.
Proof.
  intros Hr Hw. unfold waiting, body_at, inbox, from_client. by rewrite Hr, Hw.
Qed.

Lemma waiting_put st k r r' :
  rsH st !! k_rs k = Some r → waiting (put_rs st (k_rs k) r') k + 2 * length (body r) = waiting st k + 2 * length (body r').
Proof.
  intros Hr. unfold waiting, body_at. simpl. rewrite list_lookup_insert_eq by (by eapply lookup_lt_Some).
  rewrite Hr. simpl. change (inbox (put_rs st (k_rs k) r') (k_ws k)) with (inbox st (k_ws k)). lia.
Qed.

Lemma waiting_put_ws st k v w w' :
  k_ws k = Some v → wsH st !! v = Some w →
  waiting (put_ws st v w') k + 2 * length (fromClient w) = waiting st k + 2 * length (fromClient w').
Proof.
  intros Hk Hw. unfold waiting. rewrite Hk. simpl. destruct (from_client_put st v w w' Hw) as [-> _].
  change (body_at (put_ws st v w') (k_rs k)) with (body_at st (k_rs k)).
  unfold from_client. rewrite Hw. simpl. lia.
Qed.

Lemma after_read_cost e reads f : after_read e reads = inl f → ∀ r, fwd_cost r f ≤ 1 + 2 * length reads.
Proof. intros Ha r. destruct e as [[]|]; simplify_eq/=; lia. Qed.

Lemma forwardRequest_cost st r ctx p id f c st' f' :
  forwardRequest st r ctx p id f c = Some (st', inl f') → fwd_cost r f' < fwd_cost r f.
Proof.
  intros Hf. destruct f as [|reads|chunk e reads|]; cbn [forwardRequest] in Hf.
  - apply bind_Some in Hf as ([st1 e] & _ & Hf). simplify_eq.
    destruct e; simplify_eq. simpl. destruct (r_Body r); simpl; lia.
  - destruct c; try done. destruct ctx; [done|]. destruct reads as [|[chunk e] reads]; simpl in Hf; simplify_eq.
    + simpl. lia.
    + case_bool_decide; simplify_eq; [|simpl; lia].
      match goal with Ha : after_read _ _ = _ |- _ => pose proof (after_read_cost _ _ _ Ha r) end. simpl. lia.
  - apply bind_Some in Hf as ([st1 e'] & _ & Hf). destruct e'; simplify_eq.
    match goal with Ha : after_read _ _ = _ |- _ => pose proof (after_read_cost _ _ _ Ha r) end. simpl. lia.
  - apply bind_Some in Hf as ([st1 e'] & _ & Hf). by destruct e'.
Qed.
Lemma consumeStart_body r : body (consumeStart r).2 = body r.
Proof. unfold consumeStart. by repeat case_match. Qed.
Lemma consumeErr_body r : body (consumeErr r).2 = body r.
Proof. unfold consumeErr. by repeat case_match. Qed.
Lemma consumeBody_body r : length (body (consumeBody r).2) = length (body r) - 1.
Proof. unfold consumeBody. destruct (body r) as [|x l] eqn:Hb; simpl; rewrite ?Hb; simpl; lia. Qed.
Lemma consumeBody_some r c r' :
  consumeBody r = (Some c, r') → length (body r) = S (length (body r')).
Proof. unfold consumeBody. destruct (body r) eqn:Hb; [done|]. by intros [= _ <-]. Qed.

Lemma cost_write_header st r k m ev pc : write_header k m = (ev, pc) → cost st r pc ≤ 7 + waiting st k.
Proof.
  intros [_ [-> | ->]]%write_header_conns; [|done]. pose proof (cost_exit st r k). lia.
Qed.

Lemma cost_write_chunk st r k chunk d :
  cost st r (write_chunk k chunk d) ≤ (if d : bool then 6 else 8) + waiting st k.
Proof. unfold write_chunk. destruct (bool_decide _), d; simpl; lia. Qed.

Lemma cost_forwarded st r ctx k e ev pc : forwarded ctx k e = (ev, pc) → cost st r pc ≤ 9 + waiting st k.
Proof.
  unfold forwarded. intros. pose proof (cost_exit st r k).
  repeat case_match; simplify_eq; simpl; lia.
Qed.

Lemma cancelRequest_waiting st p id c st' k : cancelRequest st p id c = Some st' → waiting st' k = waiting st k.
Proof.
  intros Hc. apply waiting_same; [|by eapply cancelRequest_wsH]. intros q.
  apply (quiet_rs _ _ _ (cancelRequest_quiet none _ _ _ _ _ Hc)). by intros [].
Qed.

Lemma http_respond_cost st r ctx pc c st' ev pc' new :
  http_respond st ctx pc c = Some (st', ev, pc', new) → cost st' r pc' < cost st r pc.
Proof.
  assert (∀ k n, 3 < n → cost st' r (exit k) < n) as Hexit.
  { intros k n Hn. pose proof (cost_exit st' r k). lia. }
  intros Hs. destruct pc; try done; cbn [http_respond] in Hs.
  all: open_step; simplify_eq; try (apply Hexit; simpl; lia); try (simpl; lia).
  all: repeat match goal with E : consumeStart _ = _ |- _ =>
    apply (f_equal snd) in E; simpl in E; subst end.
  all: repeat match goal with
    | Hr : rsH _ !! k_rs ?k = Some ?x |- context [put_rs _ (k_rs ?k) ?y] =>
      pose proof (waiting_put _ k x y Hr); revert Hr end; intros.
  all: rewrite ?consumeStart_body, ?consumeErr_body in *.
  all: try match goal with Hw : write_header _ _ = _ |- context [cost ?s ?x _] =>
    pose proof (cost_write_header s x _ _ _ _ Hw); simpl in *; lia end.
  all: try match goal with |- context [cost ?s ?y (write_chunk ?k ?x ?d)] =>
    pose proof (cost_write_chunk s y k x d) end.
  all: try match goal with E : consumeBody _ = (Some _, _) |- _ => apply consumeBody_some in E; simpl in *; lia end.
  - match goal with E : chan_recv (body _) = _ |- _ => apply chan_recv_Some in E end.
    rewrite consumeBody_body in *.
    match goal with E : body _ = _ |- _ => rewrite E in * end. simpl in *. lia.
  - destruct draining; simpl; lia.
  - destruct draining; simpl; lia.
Qed.
Lemma http_websocket_cost st r ctx self rd pc c st' ev pc' new :
  http_websocket st r ctx self rd pc c = Some (st', ev, pc', new) → cost st' r pc' < cost st r pc.
Proof.
  assert (∀ k n, 3 < n → cost st' r (exit k) < n) as Hexit.
  { intros k n Hn. pose proof (cost_exit st' r k). lia. }
  intros Hs. destruct pc; try done; cbn [http_websocket] in Hs.
  all: open_step; simplify_eq; try (apply Hexit; simpl; lia); try (simpl; lia).
  - match goal with Hr : rsH ?s !! k_rs ?k = Some ?x |- _ =>
      pose proof (waiting_put s k x (consumeStart x).2 Hr) end.
    rewrite consumeStart_body in *. simpl. lia.
  - match goal with E : chan_recv _ = _ |- _ => apply chan_recv_Some in E end.
    match goal with Hk : k_ws k = Some ?v, Hw : wsH ?s !! ?v = Some ?x, E : fromClient ?x = _ |- context [put_ws _ _ ?y] =>
      pose proof (waiting_put_ws s k v x y Hk Hw); rewrite E in * end. simpl in *. lia.
Qed.

(** Every step of a handler that has registered its request brings it nearer to its end. *)
Lemma http_step_cost st r ctx self rd pc c st' ev pc' new :
  http_step st r ctx self rd pc c = Some (st', ev, pc', new) →
  is_Some (http_holds pc) ∨ pc = PRelease → cost st' r pc' < cost st r pc.
Proof.
  intros Hs Hh. destruct pc; try done; try (by destruct Hh as [[]|?]); cbn [http_step] in Hs;
    try (by eapply http_respond_cost); try (by eapply http_websocket_cost);
    try (destruct c; try done; cbn [http_enter http_exit] in Hs; []).
  - apply bind_Some in Hs as (st1 & (s & _ & [= <-])%bind_Some & Hs). simplify_eq.
    unfold cost, waiting, inbox, from_client, body_at. simpl.
    rewrite lookup_app_r, Nat.sub_diag by done. simpl. lia.
  - apply bind_Some in Hs as ([st1 res] & Hf & Hs).
    assert (waiting st1 k = waiting st k) as Hw.
    { apply waiting_same; [|by eapply forwardRequest_wsH]. intros q.
      apply (quiet_rs _ _ _ (forwardRequest_quiet none _ _ _ _ _ _ _ _ _ Hf)). by intros []. }
    destruct res as [f'|e]; simplify_eq.
    + apply forwardRequest_cost in Hf. simpl. rewrite Hw. lia.
    + destruct (forwarded ctx k e) as [ev1 pc1] eqn:Hfw. simplify_eq.
      pose proof (cost_forwarded st' r _ _ _ _ _ Hfw). cbn [cost]. lia.
  - open_step. simplify_eq. simpl. lia.
  - open_step. simplify_eq. simpl. lia.
  - open_step. simplify_eq. by destruct b; simpl; lia.
  - simplify_eq. simpl. lia.
Qed.
(** A handler whose request has been failed, or that has given it back. *)
Definition fit (st : state) (pc : http_pc) : Prop :=
  match http_holds pc with
  | Some (p, _, q) =>
    failed st p q ∧ (∀ v, pc_ws pc = Some v → v < length (wsH st))
    ∧ (in_socket pc = true → is_Some (pc_ws pc))
  | None => pc = PRelease ∨ pc = PDone
  end.

Lemma http_step_bound st r ctx self rd pc c st' ev pc' new :
  http_step st r ctx self rd pc c = Some (st', ev, pc', new) →
  (∀ v, pc_ws pc = Some v → v < length (wsH st)) → ∀ v, pc_ws pc' = Some v → v < length (wsH st').
Proof.
  intros Hs Hb v Hv. destruct (early pc) eqn:He.
  - assert (http_enter st r pc = Some (st', ev, pc', new)) as Hen by (destruct pc; try done; by destruct c).
    destruct (http_enter_plain _ _ _ _ _ _ _ Hen) as [_ [[_ Hn]|(k & -> & Hk & ->)]]; [congruence|].
    simpl in Hv. rewrite length_app. simpl. replace v with (length (wsH st)) by congruence. lia.
  - destruct (http_step_keeps _ _ _ _ _ _ _ _ _ _ _ Hs He) as ([_ Hk] & -> & _).
    destruct Hk; [|congruence]. apply Hb. congruence.
Qed.

Lemma http_step_fit st r ctx self rd pc c st' ev pc' new :
  http_step st r ctx self rd pc c = Some (st', ev, pc', new) → fit st pc → fit st' pc'.
Proof.
  intros Hs Hf. unfold fit in *. pose proof (http_step_abs _ _ _ _ _ _ _ _ _ _ _ Hs) as Ha.
  destruct (http_holds pc) as [[[p id] q]|] eqn:Hh.
  - destruct Hf as ([Hq Hc] & Hb & Hin).
    assert (failed st' p q) as Hf'.
    { split; [by eapply http_step_done|].
      eapply (is_closed_keeps _ (THttp r ctx [] pc) _ (THttp r ctx [] pc')); [by constructor|done]. }
    assert (http_holds pc' = Some (p, id, q) ∨ pc' = PRelease ∨ pc' = PDone) as [->|[-> | ->]].
    { destruct Ha; simplify_eq/=; auto. left. congruence. }
    + split_and!; [done|by eapply http_step_bound|by eapply http_step_in_socket].
    + by left.
    + by right.
  - destruct Hf as [-> | ->]; [|done]. cbn [http_step http_exit] in Hs. open_step. simplify_eq. by right.
Qed.

Ltac goes :=
  repeat match goal with
  | |- is_Some (Some _) => by eexists
  | |- context [match ?x with _ => _ end] => destruct x
  | _ => progress simpl
  end.

(** It is not blocked. *)
Lemma fit_able st r ctx self rd pc :
  fit st pc → pc = PDone ∨ ∃ c, is_Some (http_step st r ctx self rd pc c).
Proof.
  unfold fit. intros Hf.
  destruct (http_holds pc) as [[[p id] q]|] eqn:Hh.
  2: { destruct Hf as [-> | ->]; [right; exists Go; by eexists|by left]. }
  right. destruct Hf as ([(x & Hx & Hd) Hc] & Hb & Hin).
  assert (∃ s, sessH st !! p = Some s) as [s Hp].
  { unfold is_closed in Hc. destruct (sessH st !! p); [by eexists|done]. }
  destruct pc; simplify_eq/=.
  - exists Go. unfold putWS. simpl. rewrite Hp. by eexists.
  - destruct f; [exists OnSessDone|exists Go|exists OnSessDone..]; cbn [forwardRequest sendFrameCtx];
      rewrite ?Hc; goes.
  - exists OnDone. rewrite Hx. simpl. rewrite Hd. goes.
  - exists OnDone. rewrite Hx. simpl. rewrite Hd. by eexists.
  - exists (IO true). by eexists.
  - exists Go. rewrite Hx. simpl. goes.
  - exists OnSessDone. unfold cancelRequest. rewrite Hc. by eexists.
  - exists OnDone. rewrite Hx. simpl. rewrite Hd. goes.
  - exists (IO true). by eexists.
  - exists (IO true). by eexists.
  - destruct (Hin eq_refl) as [v Hv]. destruct (lookup_lt_is_Some_2 _ _ (Hb _ Hv)) as [y Hy].
    exists OnSessDone. rewrite Hv. simpl. rewrite Hy. simpl. rewrite Hc. by eexists.
  - exists (IO true). by eexists.
  - destruct (Hin eq_refl) as [v Hv]. destruct (lookup_lt_is_Some_2 _ _ (Hb _ Hv)) as [y Hy].
    exists Go. rewrite Hv. simpl. rewrite Hy. by eexists.
  - exists Go. unfold delWS. rewrite Hp. by eexists.
  - exists Go. unfold sess_del. rewrite Hp. simpl. destruct (inflight s !! k_id k); by eexists.
Qed.
(** ** The theorem *)

(** The steps of a fit handler alone. *)
Lemma fit_returns cs w w' i r ctx out pc :
  threads w !! i = Some (THttp r ctx out pc) → fit (st w) pc → run w (LStep i <$> cs) = Some w' →
  length cs ≤ cost (st w) r pc
  ∧ ∃ out' pc', threads w' !! i = Some (THttp r ctx out' pc')
      ∧ (pc' = PDone ∨ ∃ c, is_Some (exec w' (LStep i c))).
Proof.
  revert w out pc. induction cs as [|c cs IH]; intros w out pc Hi Hf; simpl.
  { intros [= <-]. split; [lia|]. exists out, pc. split; [done|].
    destruct (fit_able (st w) r ctx (length (threads w)) (read_done (threads w)) pc Hf) as [?|(c & x & Hx)];
      [by left|right]. exists c. rewrite Hi. simpl. rewrite Hx. by destruct x as [[[]]]; eexists. }
  intros (w1 & Hl & Hr)%bind_Some. rewrite Hi in Hl. simpl in Hl.
  apply bind_Some in Hl as ([[s1 t1] new] & Hs & [= <-]).
  apply bind_Some in Hs as ([[[s2 ev] pc1] n1] & Hs & [= <- <- <-]).
  assert (i < length (threads w)) as Hlt by (by eapply lookup_lt_Some).
  destruct (IH (mkWorld s2 (<[i := THttp r ctx (out ++ ev) pc1]> (threads w) ++ n1)) (out ++ ev) pc1)
    as [Hlen Hend]; cbn [st threads] in *.
  - apply lookup_app_l_Some. by apply list_lookup_insert_eq.
  - by eapply http_step_fit.
  - done.
  - split; [|done].
    assert (is_Some (http_holds pc) ∨ pc = PRelease) as Hh.
    { unfold fit in Hf. destruct (http_holds pc); [by left|right]. by destruct Hf as [-> | ->]. }
    pose proof (http_step_cost _ _ _ _ _ _ _ _ _ _ _ Hs Hh). lia.
Qed.

End failures.

Section witnesses.
Import Scenario.

(** The stream ends while a handler waits for its response. *)
Definition lost : list label := connect ++ arrive ++ forward ++ hang_up.

End witnesses.
