(* ===== verification/Outcomes.v ===== *)
(** * server: what a browser can get from the edge.

    Two facts about every handler of the edge.  It answers once: what it writes is one
    response, one refusal with a fixed text, or the bytes of an upgraded connection.  And
    error texts are opaque: the texts of the errors that come from the other side of the
    tunnel change nothing of what any handler does or writes. *)

From S2P Require Import Prelude GoStrings Hostnames Proto Headers Channels ResponseState Server.
From S2P Require Import Steps Scenario Abstract Invariants Origins.

Section outcomes.
Context `{UnicodeData}.

(** ** One answer *)

(** The refusals of the edge: text and status of every [http.Error] it writes. *)
Definition refusals : list (string * Z) :=
  [ ("no connected tunnel for host", 502); (publicBadGatewayMessage, 502);
    ("tunnel closed response before sending headers", 502);
    ("tunnel closed connection", 502); ("session closed", 502);
    ("WebSocket requires HTTP/1.1", 505);
    (inflightLimitMessage inflightLimitTotal, 503);
    (inflightLimitMessage inflightLimitPerSession, 503) ]%Z.

(** Something that is the whole answer. *)
Inductive lone : wevent → Prop :=
| lone_error msg code : (msg, code) ∈ refusals → lone (WError msg code)
| lone_not_found : lone WNotFound
| lone_panic : lone WPanic.

Definition is_response (out : list wevent) : Prop :=
  ∃ code h cs, out = WHeader code h :: (WBody <$> cs) ∧ (100 ≤ code ≤ 999)%Z.
Definition is_upgrade (out : list wevent) : Prop := ∃ c cs, out = WConn <$> c :: cs.
Definition is_refusal (out : list wevent) : Prop := ∃ e, out = [e] ∧ lone e.

(** All a handler can have written: nothing, or one of the three. *)
Definition answered (out : list wevent) : Prop :=
  out = [] ∨ is_response out ∨ is_upgrade out ∨ is_refusal out.

(** What a handler may have written, by the point it has reached. *)
Definition answer_ok (pc : http_pc) (out : list wevent) : Prop :=
  match pc with
  | PStart | PNextID _ | PReserve _ _ _ | PCas _ _ _ _ | PTryStart _ _ _ | PUndo
  | PPutWS _ _ _ | PForward _ _ | PWait _ | PWsWait _ | PHijack _ _ | PHandshake _ _ => out = []
  | PBody _ | PWrite _ _ _ | PDrain _ => is_response out
  | PWsLoop _ _ | PWsWrite _ _ _ => is_upgrade out
  | _ => answered out
  end.

Lemma answered_nil : answered [].
Proof. by left. Qed.
Lemma answered_response out : is_response out → answered out.
Proof. by right; left. Qed.
Lemma answered_upgrade out : is_upgrade out → answered out.
Proof. by right; right; left. Qed.
Lemma answered_one e : lone e → answered [e].
Proof. intros. right; right; right. by exists e. Qed.
Lemma answered_refusal msg code : (msg, code) ∈ refusals → answered [WError msg code].
Proof. intros. by apply answered_one, lone_error. Qed.
Lemma answer_exit k out : answered out → answer_ok (exit k) out.
Proof. unfold exit. by destruct (k_ws k). Qed.
Lemma answer_answered pc out : answer_ok pc out → answered out.
Proof. unfold answered. destruct pc; simpl; auto. Qed.

Lemma response_more out c : is_response out → is_response (out ++ [WBody c]).
Proof.
  intros (code & h & cs & -> & ?). exists code, h, (cs ++ [c]). by rewrite fmap_app.
Qed.
Lemma upgrade_more out c : is_upgrade out → is_upgrade (out ++ [WConn c]).
Proof. intros (c0 & cs & ->). exists c0, (cs ++ [c]). by rewrite !fmap_cons, fmap_app. Qed.
Lemma upgrade_first c : is_upgrade [WConn c].
Proof. by exists c, []. Qed.

#[local] Hint Resolve answered_nil answered_response answered_upgrade answered_one
  answered_refusal answer_exit response_more upgrade_more upgrade_first : core.
#[local] Hint Constructors lone : core.
#[local] Hint Extern 1 (_ ∈ refusals) => unfold refusals; set_solver : core.

Lemma answered_bad : answered [badGateway].
Proof. apply answered_refusal. auto. Qed.
#[local] Hint Resolve answered_bad : core.

Lemma answer_write_header k m ev pc :
  write_header k m = (ev, pc) → answer_ok pc ev ∧ answered ev.
Proof.
  unfold write_header. case_match eqn:Hc; intros; simplify_eq; [by auto|].
  assert (is_response [WHeader (StatusCode m) (Copy ∅ (FromProto (Headers m)))]); [|by auto].
  eexists _, _, []. split; [done|]. lia.
Qed.
Lemma answer_write_chunk k chunk d out : is_response out → answer_ok (write_chunk k chunk d) out.
Proof. unfold write_chunk. by destruct (bool_decide _), d. Qed.
Lemma answer_forwarded ctx k e ev pc : forwarded ctx k e = (ev, pc) → answer_ok pc ev.
Proof. unfold forwarded. intros. repeat case_match; simplify_eq; simpl; auto 6. Qed.

Lemma http_step_answer st r ctx self rd pc c st' ev pc' new out :
  http_step st r ctx self rd pc c = Some (st', ev, pc', new) →
  answer_ok pc out → answer_ok pc' (out ++ ev).
Proof.
  intros Hs Ho. destruct pc; try done; cbn [http_step answer_ok] in *.
  all: try (destruct c; try done; []).
  all: cbn [http_enter http_respond http_websocket http_exit] in *; open_step; simplify_eq.
  all: rewrite ?app_nil_r, ?app_nil_l.
  all: try (match goal with Hw : write_header _ _ = _ |- _ => apply answer_write_header in Hw as [??] end).
  all: try (by eauto using answer_write_chunk, answer_forwarded).
  all: try (repeat case_match; simpl; by auto 6).
Qed.

Definition answers_ok (w : world) : Prop :=
  ∀ i r ctx out pc, threads w !! i = Some (THttp r ctx out pc) → answer_ok pc out.

Lemma answers_ok_step w l w' : answers_ok w → exec w l = Some w' → answers_ok w'.
Proof.
  intros Hw Hl. destruct l as [i c|i e|r|]; cbn [exec] in Hl.
  { apply bind_Some in Hl as (t & Hi & ([[st' t'] new] & Hs & [= <-])%bind_Some).
    intros j r ctx out pc Hj.
    destruct (handler_origin _ _ _ _ _ _ _ _ _ _ _ _ _ Hs Hi Hj)
      as [[_ ?]|(-> & out0 & pc0 & ev & -> & -> & Hstep)]; [by eapply Hw|].
    eapply http_step_answer; [exact Hstep|by eapply Hw]. }
  { apply bind_Some in Hl as (t & Hi & (t' & Hc & [= <-])%bind_Some).
    destruct t as [r [] out pc| | | |]; simplify_eq/=.
    intros j r0 ctx0 out0 pc0 [(<- & ? & _)|[_ ?]]%insert_lookup_cases; simplify_eq; by eapply Hw. }
  all: simplify_eq; intros j r0 ctx0 out0 pc0 [?|[_ ?]]%lookup_snoc_cases; simplify_eq;
    try done; by eapply Hw.
Qed.

Lemma run_answers_ok s ls w : run (init_world s) ls = Some w → answers_ok w.
Proof.
  intros Hr%run_rtc. eapply (rtc_ind_r (λ w, answers_ok w)); [|..|exact Hr]; [by intros ?|].
  intros w1 w2 _ [l Hl] Hw1. by eapply answers_ok_step.
Qed.

(** ** Texts of errors *)

(** A response state, a state, a thread, a label without the errors that come from the other
    side of the tunnel: the text of a [ResponseError], the errors of the stream, what
    [Connect] returns. *)
Definition no_text : GoError := ErrNew "".
Definition rs_mask (r : responseState) : responseState :=
  mkRS (start r) (body r) (done r) ((λ _, no_text) <$> err r) (rs_once r).
Definition st_mask (st : state) : state :=
  mkState (srv st) (sessH st) (rs_mask <$> rsH st) (wsH st).

Definition pc_mask (pc : conn_pc) : conn_pc :=
  match pc with
  | CShutEnter p snd _ => CShutEnter p snd None
  | CShutFail p snd _ => CShutFail p snd None
  | CShutRelease p snd _ n => CShutRelease p snd None n
  | CWaitSend p snd _ => CWaitSend p snd None
  | CRemove p _ => CRemove p None
  | CReturn _ => CReturn None
  | pc => pc
  end.

Definition thread_mask (t : thread) : thread :=
  match t with
  | TConn pc => TConn (pc_mask pc)
  | TSend p sent e => TSend p sent ((λ _, None) <$> e)
  | t => t
  end.
Definition world_mask (w : world) : world := mkWorld (st_mask (st w)) (thread_mask <$> threads w).

Definition choice_mask (c : choice) : choice :=
  match c with
  | Recv (ClientFrame_ResponseError id _) => Recv (ClientFrame_ResponseError id "")
  | RecvErr _ => RecvErr no_text
  | IOErr _ => IOErr no_text
  | OnStreamDone _ => OnStreamDone no_text
  | c => c
  end.
Definition label_mask (l : label) : label :=
  match l with LStep i c => LStep i (choice_mask c) | l => l end.

(** The cases of a choice, with those of a received frame. *)
Ltac choices c := destruct c as [| | | | | | | | | | | |?|?|?|?|? ?|[]|?].
(** The cases of a choice, with those of a call to the outside. *)
Ltac outcomes c := destruct c as [| | | | | | | | | | | |?|?|[]|?|? ?|?|?].

(** *** Handlers do not look at them *)

Lemma mask_start r : consumeStart (rs_mask r) = ((consumeStart r).1, rs_mask (consumeStart r).2).
Proof. unfold consumeStart. by destruct r as [[]]. Qed.
Lemma mask_body r : consumeBody (rs_mask r) = ((consumeBody r).1, rs_mask (consumeBody r).2).
Proof. unfold consumeBody. by destruct r as [? []]. Qed.
Lemma mask_err r :
  consumeErr (rs_mask r) = ((λ _, no_text) <$> (consumeErr r).1, rs_mask (consumeErr r).2).
Proof. unfold consumeErr. by destruct r as [? ? ? []]. Qed.

Lemma mask_lookup st q : rsH (st_mask st) !! q = rs_mask <$> rsH st !! q.
Proof. simpl. by rewrite list_lookup_fmap. Qed.
Lemma mask_put st q r : put_rs (st_mask st) q (rs_mask r) = st_mask (put_rs st q r).
Proof. unfold put_rs, st_mask. simpl. by rewrite list_fmap_insert. Qed.

Lemma enqueue_mask st p f : enqueue (st_mask st) p f = st_mask <$> enqueue st p f.
Proof. unfold enqueue. simpl. destruct (sessH st !! p); simpl; [|done]. by destruct (chan_send _ _ _). Qed.
Lemma is_closed_mask st p : is_closed (st_mask st) p = is_closed st p.
Proof. done. Qed.
Lemma sendFrame_mask st p f c :
  sendFrame (st_mask st) p f c = prod_map st_mask id <$> sendFrame st p f c.
Proof.
  destruct c; try done; cbn [sendFrame]; rewrite ?is_closed_mask, ?enqueue_mask;
    [by destruct (is_closed st p)|by destruct (enqueue st p f)].
Qed.
Lemma sendFrameCtx_mask ctx st p f c :
  sendFrameCtx ctx (st_mask st) p f c = prod_map st_mask id <$> sendFrameCtx ctx st p f c.
Proof.
  destruct c; try done; cbn [sendFrameCtx]; rewrite ?is_closed_mask, ?enqueue_mask;
    [by destruct (is_closed st p)|by destruct ctx|by destruct (enqueue st p f)].
Qed.
Lemma cancelRequest_mask st p id c :
  cancelRequest (st_mask st) p id c = st_mask <$> cancelRequest st p id c.
Proof.
  destruct c; try done; unfold cancelRequest; rewrite ?is_closed_mask, ?enqueue_mask;
    [by destruct (is_closed st p)|done|].
  destruct (enqueue _ _ _); simpl; [done|by destruct (is_closed st p)].
Qed.
Lemma forwardRequest_mask st r ctx p i f c :
  forwardRequest (st_mask st) r ctx p i f c = prod_map st_mask id <$> forwardRequest st r ctx p i f c.
Proof.
  destruct f; cbn [forwardRequest].
  2: { destruct c, ctx; simpl; try done. by repeat case_match. }
  all: rewrite sendFrameCtx_mask; destruct (sendFrameCtx _ _ _ _ _) as [[? []]|]; done.
Qed.

Definition hres_mask (h : hres) : hres := let '(st, ev, pc, new) := h in (st_mask st, ev, pc, new).

Lemma http_respond_mask st ctx pc c :
  http_respond (st_mask st) ctx pc c = hres_mask <$> http_respond st ctx pc c.
Proof.
  destruct pc; try done; cbn [http_respond].
  all: try (rewrite mask_lookup; destruct (rsH st !! k_rs k) as [x|]; [cbn [fmap option_fmap option_map mbind option_bind]|done]).
  - destruct c; try done.
    + by destruct ctx.
    + rewrite mask_start. cbn [snd]. rewrite mask_put. simpl. destruct (start x); simpl; [done|].
      by destruct (write_header _ _).
    + rewrite mask_err. cbn [snd]. rewrite mask_put. simpl. by destruct (err x).
    + simpl. destruct (done x); [|done]. rewrite mask_start.
      destruct (consumeStart x) as [[m|] y]; simpl.
      * destruct (write_header _ _). simpl. by rewrite mask_put.
      * rewrite mask_err. destruct (consumeErr y) as [[e|] z]; simpl; [by rewrite mask_put|done].
  - destruct c; try done.
    + by destruct ctx.
    + simpl. by destruct (done x).
    + rewrite mask_body. cbn [snd]. rewrite mask_put. simpl. by destruct (body x).
  - outcomes c; try done.
  - destruct c; try done. rewrite mask_body. destruct (consumeBody x) as [[b|] y]; simpl.
    + by rewrite mask_put.
    + by rewrite mask_err, <-mask_put.
  - rewrite cancelRequest_mask. by destruct (cancelRequest _ _ _ _).
Qed.

Lemma http_websocket_mask st r ctx self rd rd' pc c :
  (∀ i, rd' i = rd i) →
  http_websocket (st_mask st) r ctx self rd' pc c = hres_mask <$> http_websocket st r ctx self rd pc c.
Proof.
  intros Hrd. destruct pc; try done; cbn [http_websocket].
  all: rewrite ?mask_lookup, ?is_closed_mask, ?Hrd.
  - destruct (rsH st !! k_rs k) as [x|]; [cbn [fmap option_fmap option_map mbind option_bind]|done].
    destruct c; try done.
    + by destruct (is_closed st (k_sess k)).
    + by destruct ctx.
    + rewrite mask_start. cbn [snd]. rewrite mask_put. simpl. destruct (start x) as [|m q]; simpl; [done|].
      destruct (negb _), (r_Hijacker r); simpl; try done; by destruct (write_header _ _).
    + rewrite mask_err. cbn [snd]. rewrite mask_put. simpl. by destruct (err x).
    + simpl. destruct (done x); [|done]. rewrite mask_err.
      destruct (consumeErr x) as [[e|] z]; simpl; [by rewrite mask_put|done].
  - by outcomes c; try done.
  - by outcomes c; try done.
  - destruct (k_ws k) as [v|]; [|done]. simpl. destruct (wsH st !! v) as [y|]; [|done]. simpl.
    destruct c; try done; simpl.
    + by destruct (is_closed st (k_sess k)).
    + by destruct ctx.
    + by destruct (fromClient y).
    + by destruct (ws_done y).
    + by destruct (rd reader).
  - by outcomes c; try done.
Qed.

Lemma tryStart_mask st p i m :
  tryStart (st_mask st) p i m = prod_map st_mask id <$> tryStart st p i m.
Proof.
  unfold tryStart. simpl. destruct (sessH st !! p) as [s|]; [|done]. simpl.
  destruct (_ && _); [done|]. simpl. unfold st_mask, put_sess. simpl.
  by rewrite fmap_app, length_fmap.
Qed.
Lemma http_enter_mask st r pc : http_enter (st_mask st) r pc = hres_mask <$> http_enter st r pc.
Proof.
  destruct pc; try done; cbn [http_enter].
  - simpl. destruct (HasPublicHost _ _); [|done]. by destruct (getSession _ _).
  - simpl. by destruct (reserve_load (srv st)).
  - simpl. by destruct (reserve_cas (srv st) current).
  - rewrite tryStart_mask. by destruct (tryStart _ _ _ _) as [[]|].
  - unfold putWS. simpl. by destruct (sessH st !! p).
Qed.
Lemma http_exit_mask st pc : http_exit (st_mask st) pc = hres_mask <$> http_exit st pc.
Proof.
  destruct pc; try done; cbn [http_exit].
  - destruct (k_ws k) as [v|]; [|done]. simpl. by destruct (wsH st !! v).
  - unfold delWS. simpl. by destruct (sessH st !! k_sess k).
  - unfold sess_del. simpl. destruct (sessH st !! k_sess k) as [s|]; [|done]. simpl.
    by destruct (inflight s !! k_id k).
Qed.

Lemma http_step_mask st r ctx self rd rd' pc c :
  (∀ i, rd' i = rd i) →
  http_step (st_mask st) r ctx self rd' pc c = hres_mask <$> http_step st r ctx self rd pc c.
Proof.
  intros Hrd. destruct pc; cbn [http_step]; try done;
    try apply http_respond_mask; try (by apply http_websocket_mask);
    try (destruct c; first [done|apply http_enter_mask|apply http_exit_mask]).
  rewrite forwardRequest_mask.
  destruct (forwardRequest _ _ _ _ _ _ _) as [[st1 [f1|e]]|]; [done| |done]. simpl.
  by destruct (forwarded ctx k e).
Qed.

Definition masked (c : choice) : bool :=
  match c with Recv _ | RecvErr _ | IOErr _ | OnStreamDone _ => true | _ => false end.
Lemma choice_mask_id c : masked c = false → choice_mask c = c.
Proof. by destruct c. Qed.
Lemma masked_mask c : masked (choice_mask c) = masked c.
Proof. by choices c. Qed.

Lemma http_step_masked st r ctx self rd pc c :
  masked c = true → http_step st r ctx self rd pc c = None.
Proof.
  intros Hc. destruct (http_step _ _ _ _ _ _ _) as [[[[]]]|] eqn:Hs; [|done]. exfalso.
  destruct pc; cbn [http_step http_enter http_respond http_websocket http_exit] in Hs; try done;
    unfold forwardRequest, sendFrameCtx, cancelRequest in Hs; by open_step.
Qed.
Lemma choice_mask_http st r ctx self rd pc c :
  http_step st r ctx self rd pc (choice_mask c) = http_step st r ctx self rd pc c.
Proof.
  destruct (masked c) eqn:Hc; [|by rewrite choice_mask_id].
  by rewrite !http_step_masked by (by rewrite ?masked_mask).
Qed.

(** *** Who receives and sends *)

Lemma reader_step_mask st p i pc c :
  reader_step (st_mask st) p i pc (choice_mask c) = prod_map st_mask id <$> reader_step st p i pc c.
Proof.
  destruct pc; cbn [reader_step]; try done.
  all: try (rewrite sendFrame_mask;
    assert (∀ f, sendFrame st p f (choice_mask c) = sendFrame st p f c) as -> by (intros; by choices c);
    by destruct (sendFrame _ _ _ _) as [[]|]).
  all: by choices c.
Qed.
Lemma beat_step_mask st p run c :
  beat_step (st_mask st) p run (choice_mask c) = prod_map st_mask id <$> beat_step st p run c.
Proof.
  destruct run; [|done]. choices c; try done; cbn [choice_mask beat_step];
    rewrite ?is_closed_mask, ?enqueue_mask; [by destruct (is_closed st p)| |by destruct (enqueue _ _ _)].
  destruct (enqueue _ _ _); simpl; [done|by destruct (is_closed st p)].
Qed.

(** The same error, or another one. *)
Lemma fail_mask r r' e e' :
  rs_mask r = rs_mask r' → rs_mask (fail r (Some e)) = rs_mask (fail r' (Some e')).
Proof.
  destruct r as [? ? ? q o], r' as [? ? ? q' o']. unfold rs_mask, fail. simpl. intros. simplify_eq.
  match goal with Hq : _ <$> q = _ <$> q' |- _ =>
    pose proof (f_equal length Hq) as Hl; rewrite !length_fmap in Hl; rename Hq into Heq end.
  destruct o'; f_equal; [exact Heq|]. unfold chan_send. rewrite Hl.
  destruct (_ <? _); cbn [err default from_option]; [|exact Heq].
  change (((λ _, no_text) <$> (q ++ [e])) = ((λ _, no_text) <$> (q' ++ [e']))).
  by rewrite !fmap_app, Heq.
Qed.
Lemma finish_mask r r' : rs_mask r = rs_mask r' → rs_mask (finish r) = rs_mask (finish r').
Proof.
  destruct r as [? ? ? q o], r' as [? ? ? q' o']. unfold rs_mask, finish. simpl. intros. simplify_eq.
  destruct o'; by f_equal.
Qed.
Lemma alter_mask f f' (l l' : list responseState) x :
  (∀ r r', rs_mask r = rs_mask r' → rs_mask (f r) = rs_mask (f' r')) →
  rs_mask <$> l = rs_mask <$> l' → rs_mask <$> alter f x l = rs_mask <$> alter f' x l'.
Proof.
  intros Hf Hl. apply list_eq. intros i.
  assert (rs_mask <$> l !! i = rs_mask <$> l' !! i) as Hi by (by rewrite <-!list_lookup_fmap, Hl).
  rewrite !list_lookup_fmap. destruct (decide (x = i)) as [->|Hne].
  - rewrite !list_lookup_alter_eq. destruct (l !! i), (l' !! i); cbn in *; try done.
    f_equal. apply Hf. congruence.
  - by rewrite !list_lookup_alter_ne.
Qed.
Lemma fail_all_mask l l' e e' xs :
  rs_mask <$> l = rs_mask <$> l' →
  rs_mask <$> foldl (fail_at (Some e)) l xs = rs_mask <$> foldl (fail_at (Some e')) l' xs.
Proof.
  revert l l'. induction xs as [|x xs IH]; intros l l' Hl; [done|]. simpl. apply IH, alter_mask; [|done].
  intros. by apply fail_mask.
Qed.

Lemma masks_mask (l : list responseState) : rs_mask <$> (rs_mask <$> l) = rs_mask <$> l.
Proof.
  rewrite <-list_fmap_compose. apply list_fmap_ext. intros _ r _. unfold rs_mask. simpl.
  by rewrite <-list_fmap_compose.
Qed.

Lemma shutdown_fail_mask st p e e' :
  prod_map st_mask id <$> shutdown_fail (st_mask st) p e' =
  prod_map st_mask id <$> shutdown_fail st p e.
Proof.
  unfold shutdown_fail, failAll. simpl. destruct (sessH st !! p) as [s|] eqn:Hp; [|done]. simpl.
  rewrite !list_lookup_insert_eq by (by eapply lookup_lt_Some). simpl. unfold st_mask, put_sess. simpl.
  do 3 f_equal. apply fail_all_mask, masks_mask.
Qed.
Lemma shutdown_enter_mask st p :
  shutdown_enter (st_mask st) p = prod_map st_mask id <$> shutdown_enter st p.
Proof.
  unfold shutdown_enter. simpl. destruct (sessH st !! p) as [s|]; [|done]. simpl. by destruct (sess_once s).
Qed.

Lemma deliver_mask st d c : deliver (st_mask st) d (choice_mask c) = st_mask <$> deliver st d c.
Proof.
  destruct d as [q m|q b|v b], c as [| | | | | | | | | | | |?|?|?|?|? ?|[]|?]; try done;
    cbn [deliver choice_mask]; rewrite ?mask_lookup;
    try (destruct (rsH st !! q) as [x|]; [|done]); simpl.
  - unfold push_start. simpl. destruct (chan_send _ (start x) _); simpl; [|done].
    by rewrite <-mask_put.
  - by destruct (done x).
  - unfold push_body. simpl. destruct (chan_send _ (body x) _); simpl; [|done].
    by rewrite <-mask_put.
  - by destruct (done x).
  - destruct (wsH st !! v) as [y|]; [|done]. simpl. by destruct (push_ws y b).
  - destruct (wsH st !! v) as [y|]; [|done]. simpl. by destruct (ws_done y).
Qed.

Definition frame_mask (f : ClientFrame) : ClientFrame :=
  match f with ClientFrame_ResponseError id _ => ClientFrame_ResponseError id "" | f => f end.

Lemma handleClientFrame_mask st p f :
  prod_map st_mask id (handleClientFrame (st_mask st) p (frame_mask f)) =
  prod_map st_mask id (handleClientFrame st p f).
Proof.
  assert (∀ i, sess_get (st_mask st) p i = sess_get st p i) as Hg by done.
  assert (∀ i, getWS (st_mask st) p i = getWS st p i) as Hw by done.
  assert (st_mask (st_mask st) = st_mask st) as Hmm by (unfold st_mask; simpl; by rewrite masks_mask).
  destruct f as [m|z|m|i b|i|i m|i b|i|]; cbn [frame_mask handleClientFrame prod_map]; rewrite ?Hg, ?Hw;
    cbn [fst snd]; rewrite ?Hmm; try done.
  - destruct (sess_get st p i) as [q|]; [|by rewrite Hmm]. unfold st_mask. simpl. do 2 f_equal.
    apply alter_mask; [apply finish_mask|apply masks_mask].
  - destruct (sess_get st p i) as [q|]; [|by rewrite Hmm]. unfold st_mask. simpl. do 2 f_equal.
    apply alter_mask; [intros; by apply fail_mask|apply masks_mask].
  - destruct (getWS st p i) as [q|]; [|by rewrite Hmm]. unfold st_mask. simpl. by rewrite masks_mask.
Qed.

Definition cres_mask (x : state * conn_pc * list thread) : state * conn_pc * list thread :=
  let '(st, pc, new) := x in (st_mask st, pc_mask pc, thread_mask <$> new).

Lemma st_mask_mask st : st_mask (st_mask st) = st_mask st.
Proof. unfold st_mask. simpl. by rewrite masks_mask. Qed.

(** The first frame: one that is no register frame is refused whatever it says. *)
Lemma authenticate_mask s f : authenticate s (frame_mask f) = authenticate s f.
Proof. by destruct f. Qed.

Lemma conn_step_mask st self res res' pc c :
  (∀ i, res' i = (λ _, None) <$> res i) →
  cres_mask <$> conn_step (st_mask st) self res' (pc_mask pc) (choice_mask c) =
  cres_mask <$> conn_step st self res pc c.
Proof.
  intros Hres.
  assert (∀ f, choice_mask (Recv f) = Recv (frame_mask f)) as Hrecv by (by intros []).
  assert (∀ (x x' : option (state * Z)) g g',
    prod_map st_mask id <$> x' = prod_map st_mask id <$> x →
    (∀ s s' n, st_mask s' = st_mask s → cres_mask (g' s' n) = cres_mask (g s n)) →
    cres_mask <$> ('(s, n) ← x'; Some (g' s n)) = cres_mask <$> ('(s, n) ← x; Some (g s n))) as Hbind.
  { intros [[s n]|] [[s' n']|] g g' Hx Hg; try done. cbn.
    assert (n' = n) as -> by exact (inj Some _ _ (f_equal (option_map snd) Hx)).
    f_equal. apply Hg. exact (inj Some _ _ (f_equal (option_map fst) Hx)). }
  destruct pc; cbn [pc_mask conn_step].
  - destruct c; try done; [|cbn; by rewrite st_mask_mask]. rewrite Hrecv, authenticate_mask. simpl.
    destruct (authenticate (srv st) f); [|cbn; by rewrite st_mask_mask].
    unfold putSession. cbn. repeat case_match; cbn; unfold st_mask; simpl; by rewrite masks_mask.
  - choices c; try done. cbn [choice_mask]. rewrite shutdown_enter_mask.
    destruct (shutdown_enter st old) as [[s []]|]; cbn; by rewrite ?st_mask_mask.
  - choices c; try done. apply Hbind; [apply shutdown_fail_mask|]. intros s s' n Hs. cbn. by rewrite Hs.
  - choices c; try done. cbn. unfold st_mask, put_srv. simpl. by rewrite masks_mask.
  - choices c; try done. cbn. by rewrite st_mask_mask.
  - destruct c; try done.
    + rewrite Hrecv. pose proof (handleClientFrame_mask st p f) as Hf.
      destruct (handleClientFrame (st_mask st) p (frame_mask f)) as [s1 d1], (handleClientFrame st p f) as [s2 d2].
      assert (d1 = d2) as -> by exact (f_equal Datatypes.snd Hf).
      assert (st_mask s1 = st_mask s2) as Hs by exact (f_equal fst Hf). cbn. by rewrite Hs; destruct d2.
    + cbn. by rewrite st_mask_mask.
  - rewrite deliver_mask. destruct (deliver st d c) as [s1|]; cbn; by rewrite ?st_mask_mask.
  - choices c; try done. cbn [choice_mask]. rewrite shutdown_enter_mask.
    destruct (shutdown_enter st p) as [[s []]|]; cbn; by rewrite ?st_mask_mask.
  - choices c; try done. apply Hbind; [apply shutdown_fail_mask|]. intros s s' n Hs. cbn. by rewrite Hs.
  - choices c; try done. cbn. unfold st_mask, put_srv. simpl. by rewrite masks_mask.
  - choices c; try done. cbn [choice_mask]. rewrite Hres. destruct (res snd) as [e|]; cbn; by rewrite ?st_mask_mask.
  - choices c; try done. simpl. destruct (sessH st !! p) as [s|]; [|done]. cbn.
    unfold st_mask, put_srv. simpl. by rewrite masks_mask.
  - done.
Qed.

Definition sres_mask (x : state * list ServerFrame * option (option GoError)) :
    state * list ServerFrame * option (option GoError) :=
  let '(st, sent, e) := x in (st_mask st, sent, (λ _, None) <$> e).

Lemma send_step_mask st p sent e c :
  sres_mask <$> send_step (st_mask st) p sent ((λ _, None) <$> e) (choice_mask c) =
  sres_mask <$> send_step st p sent e c.
Proof.
  destruct e; [done|]. choices c; try done;
    cbn [send_step fmap option_fmap option_map choice_mask]; rewrite ?is_closed_mask.
  all: try (destruct (is_closed st p)); try (simpl; destruct (sessH st !! p) as [s|]; [|done]; simpl;
    destruct (outbound s); [done|]); cbn; unfold st_mask, put_sess; simpl; by rewrite ?masks_mask.
Qed.

(** *** The whole edge *)

Definition tres_mask (x : state * thread * list thread) : state * thread * list thread :=
  let '(st, t, new) := x in (st_mask st, thread_mask t, thread_mask <$> new).

Lemma read_done_mask ts i : read_done (thread_mask <$> ts) i = read_done ts i.
Proof. unfold read_done. rewrite list_lookup_fmap. by destruct (ts !! i) as [[]|]. Qed.
Lemma send_result_mask ts i :
  send_result (thread_mask <$> ts) i = (λ _, None) <$> send_result ts i.
Proof. unfold send_result. rewrite list_lookup_fmap. by destruct (ts !! i) as [[]|]. Qed.

Lemma thread_step_mask st ts t c :
  tres_mask <$> thread_step (st_mask st) (thread_mask <$> ts) (thread_mask t) (choice_mask c) =
  tres_mask <$> thread_step st ts t c.
Proof.
  destruct t as [r ctx out pc|p i pc|pc|p sent e|p b]; cbn [thread_mask thread_step]; rewrite ?length_fmap.
  - rewrite (http_step_mask _ _ _ _ (read_done ts)), choice_mask_http by apply read_done_mask.
    destruct (http_step _ _ _ _ _ _ _) as [[[[]]]|]; [|done]. cbn. by rewrite st_mask_mask.
  - rewrite reader_step_mask. destruct (reader_step _ _ _ _ _) as [[]|]; [|done]. cbn. by rewrite st_mask_mask.
  - pose proof (conn_step_mask st (length ts) _ _ pc c (send_result_mask ts)) as Hc.
    destruct (conn_step (st_mask st) _ _ _ _) as [[[s1 pc1] n1]|],
      (conn_step st _ _ _ _) as [[[s2 pc2] n2]|]; try done. cbn in *. congruence.
  - pose proof (send_step_mask st p sent e c) as Hc.
    destruct (send_step (st_mask st) _ _ _ _) as [[[s1 m1] e1]|], (send_step st _ _ _ _) as [[[s2 m2] e2]|];
      try done. cbn in *. congruence.
  - rewrite beat_step_mask. destruct (beat_step _ _ _ _) as [[]|]; [|done]. cbn. by rewrite st_mask_mask.
Qed.

Lemma thread_mask_mask t : thread_mask (thread_mask t) = thread_mask t.
Proof. destruct t as [| |[]|p sent []|]; done. Qed.
Lemma cancel_mask e t : thread_mask <$> cancel_thread e (thread_mask t) = thread_mask <$> cancel_thread e t.
Proof. by destruct t as [? [] | | | |]. Qed.
Lemma threads_mask (ts ts' : list thread) (i : nat) t t' :
  thread_mask <$> ts' = thread_mask <$> ts → thread_mask t' = thread_mask t →
  thread_mask <$> <[i := t']> ts' = thread_mask <$> <[i := t]> ts.
Proof. intros Hts Ht. by rewrite !list_fmap_insert, Hts, Ht. Qed.
Lemma threads_mask_mask (ts : list thread) : thread_mask <$> (thread_mask <$> ts) = thread_mask <$> ts.
Proof. rewrite <-list_fmap_compose. apply list_fmap_ext. intros. apply thread_mask_mask. Qed.

Lemma exec_mask w l :
  world_mask <$> exec (world_mask w) (label_mask l) = world_mask <$> exec w l.
Proof.
  assert (∀ s s' ts ts', st_mask s' = st_mask s → thread_mask <$> ts' = thread_mask <$> ts →
    Some (world_mask (mkWorld s' ts')) = Some (world_mask (mkWorld s ts))) as Heq.
  { intros s s' ts ts' Hs Hts. unfold world_mask. cbn [st threads]. by rewrite Hs, Hts. }
  destruct l as [i c|i e|r|]; cbn [label_mask exec world_mask st threads].
  - rewrite list_lookup_fmap. destruct (threads w !! i) as [t|]; [|done]. cbn [fmap option_fmap option_map mbind option_bind].
    pose proof (thread_step_mask (st w) (threads w) t c) as Hs.
    destruct (thread_step (st_mask _) _ _ _) as [[[s1 t1] n1]|],
      (thread_step (st w) _ _ _) as [[[s2 t2] n2]|]; try done. injection Hs as Hs Hrs Hws Ht Hn.
    apply Heq; [unfold st_mask; by f_equal|]. rewrite !fmap_app. f_equal; [|done].
    apply threads_mask; [apply threads_mask_mask|done].
  - rewrite list_lookup_fmap. destruct (threads w !! i) as [t|]; [|done]. cbn [fmap option_fmap option_map mbind option_bind].
    pose proof (cancel_mask e t) as Hc.
    destruct (cancel_thread e (thread_mask t)) as [t1|], (cancel_thread e t) as [t2|]; try done.
    apply Heq; [apply st_mask_mask|]. apply threads_mask; [apply threads_mask_mask|].
    exact (inj Some _ _ Hc).
  - apply Heq; [apply st_mask_mask|]. by rewrite !fmap_app, threads_mask_mask.
  - apply Heq; [apply st_mask_mask|]. by rewrite !fmap_app, threads_mask_mask.
Qed.

Lemma run_mask w w' ls ls' :
  world_mask w = world_mask w' → label_mask <$> ls = label_mask <$> ls' →
  world_mask <$> run w ls = world_mask <$> run w' ls'.
Proof.
  revert w w' ls'. induction ls as [|l ls IH]; intros w w' [|l' ls'] Hw Hls; try done; simpl; [congruence|].
  assert (label_mask l = label_mask l') as Hl by (cbn in Hls; congruence).
  assert (world_mask <$> exec w l = world_mask <$> exec w' l') as Hx.
  { by rewrite <-(exec_mask w l), <-(exec_mask w' l'), Hw, Hl. }
  destruct (exec w l) as [w1|], (exec w' l') as [w1'|]; try done. simpl.
  apply IH; [exact (inj Some _ _ Hx)|cbn in Hls; congruence].
Qed.

(** ** The theorems *)


(** C9. Error texts do not cross the edge: take any schedule and change, in any of its steps,
    the text of a [ResponseError] a client sends, the error a stream's receive or send fails
    with, or the reason a stream is done, except for when they happen.  The changed schedule
    can be run as well, and every handler has written exactly the same to its browser and is
    at the same point. *)
Theorem errors_opaque s ls ls' w :
  run (init_world s) ls = Some w → label_mask <$> ls = label_mask <$> ls' →
  ∃ w', run (init_world s) ls' = Some w'
    ∧ ∀ i r ctx out pc, threads w !! i = Some (THttp r ctx out pc) ↔ threads w' !! i = Some (THttp r ctx out pc).
Proof.
  intros Hr Hls. pose proof (run_mask (init_world s) (init_world s) ls ls' eq_refl Hls) as Hm.
  rewrite Hr in Hm. destruct (run (init_world s) ls') as [w'|]; [|done]. exists w'. split; [done|].
  assert (thread_mask <$> threads w = thread_mask <$> threads w') as Hts
    by exact (f_equal threads (inj Some _ _ Hm)).
  assert (∀ t r ctx out pc, thread_mask t = THttp r ctx out pc → t = THttp r ctx out pc) as Hinv by (by intros []).
  intros i r ctx out pc. pose proof (f_equal (lookup i) Hts) as Hi. rewrite !list_lookup_fmap in Hi.
  split; intros Ht; rewrite Ht in Hi; cbn in Hi.
  - destruct (threads w' !! i) as [t|]; [|done]. f_equal. apply Hinv. by injection Hi.
  - destruct (threads w !! i) as [t|]; [|done]. f_equal. apply Hinv. by injection Hi.
Qed.
End outcomes.

Section witnesses.
Import Scenario.

(** The client fails the request, once with a text of its own and once without. *)
Definition refuse (text : string) : list label :=
  connect ++ arrive ++ forward
  ++ [LStep 0 (Recv (ClientFrame_ResponseError "1" text)); LStep 3 OnErr].


Example errors_opaque_witness :
  ∃ w', run start_world (refuse "") = Some w'
    ∧ threads w' !! 3 = Some (THttp request None [badGateway] (PFinish (mkK 0 "1" 0 None))).
Proof.
  destruct (errors_opaque server (refuse "dial tcp 10.0.0.7:5432") (refuse "")
    (after (refuse "dial tcp 10.0.0.7:5432"))) as (w' & Hr & Hw); [vm_compute; reflexivity..|].
  exists w'. split; [exact Hr|]. apply (proj1 (Hw _ _ _ _ _)). vm_compute. reflexivity.
Defined.
End witnesses.
