(* ===== verification/ResponseWriter.v ===== *)
(** * tunnel: [tunnelResponseWriter], the response writer a client gives its handler.

    The tunnel's [send] is code of the session: [answer n] is what its [n]-th call
    returns.  The frames handed to [send] are kept in order, with or without an error. *)

From S2P Require Import Prelude GoStrings Proto Headers Channels.

Record tunnelResponseWriter := mkRW {
  header : HttpHeader;
  wroteHeader : bool;
  ended : bool;
  statusCode : Z;
  requestID : string;
  sendErr : option GoError;
  frames : list ClientFrame }.   (** every call of [send] so far *)

Section writer.
Context `{UnicodeData} (answer : nat → option GoError).

Definition newTunnelResponseWriter (requestID : string) : tunnelResponseWriter :=
  mkRW ∅ false false 200 requestID None [].

(** ** Operations *)

Definition send (w : tunnelResponseWriter) (f : ClientFrame)
    : tunnelResponseWriter * option GoError :=
  (mkRW (header w) (wroteHeader w) (ended w) (statusCode w) (requestID w) (sendErr w)
     (frames w ++ [f]), answer (length (frames w))).

(** The first error stays. *)
Definition set_sendErr (w : tunnelResponseWriter) (e : GoError) : tunnelResponseWriter :=
  match sendErr w with
  | Some _ => w
  | None => mkRW (header w) (wroteHeader w) (ended w) (statusCode w) (requestID w) (Some e)
              (frames w)
  end.

(** What the handler does to the map [Header] returns. *)
Definition set_header (w : tunnelResponseWriter) (h : HttpHeader) : tunnelResponseWriter :=
  mkRW h (wroteHeader w) (ended w) (statusCode w) (requestID w) (sendErr w) (frames w).

Definition set_ended (w : tunnelResponseWriter) : tunnelResponseWriter :=
  mkRW (header w) (wroteHeader w) true (statusCode w) (requestID w) (sendErr w) (frames w).

Definition WriteHeader (w : tunnelResponseWriter) (status : Z) : tunnelResponseWriter :=
  if wroteHeader w || ended w then w
  else
    let w := mkRW (header w) true (ended w) status (requestID w) (sendErr w) (frames w) in
    let h := ToProto (header w) in
    let '(w, err) := send w (ClientFrame_ResponseStart
                               (mkResponseStart (requestID w) (wrap_i32 status) h)) in
    match err with Some e => set_sendErr w e | None => w end.

(** Returns the number of bytes and the error. *)
Definition Write (w : tunnelResponseWriter) (p : string)
    : tunnelResponseWriter * (Z * option GoError) :=
  match sendErr w with
  | Some e => (w, (0%Z, Some e))
  | None =>
    let w := if negb (wroteHeader w) then WriteHeader w 200 else w in
    match sendErr w with
    | Some e => (w, (0%Z, Some e))
    | None =>
      let '(w, err) := send w (ClientFrame_ResponseBody (requestID w) p) in
      match err with
      | Some e => (set_sendErr w e, (0%Z, Some e))
      | None => (w, (Z.of_nat (String.length p), None))
      end
    end
  end.

Definition Flush (w : tunnelResponseWriter) : tunnelResponseWriter :=
  if negb (wroteHeader w) && negb (ended w) then WriteHeader w 200 else w.

Definition Finish (w : tunnelResponseWriter) : tunnelResponseWriter * option GoError :=
  if ended w then (w, None)
  else
    let w := if negb (wroteHeader w) then WriteHeader w (statusCode w) else w in
    if ended w then (w, None)
    else send (set_ended w) (ClientFrame_ResponseEnd (requestID w)).

(** The argument is the error's message; nil for no error. *)
Definition Fail (w : tunnelResponseWriter) (err : option string)
    : tunnelResponseWriter * option GoError :=
  match err with
  | None => (w, None)
  | Some msg =>
    if ended w then (w, None)
    else send (set_ended w) (ClientFrame_ResponseError (requestID w) msg)
  end.

(** ** A handler *)

(** What a handler does with its writer. *)
Inductive hop :=
| OpHeader (h : HttpHeader)
| OpWriteHeader (status : Z)
| OpWrite (p : string)
| OpFlush.

Definition do_op (w : tunnelResponseWriter) (o : hop) : tunnelResponseWriter :=
  match o with
  | OpHeader h => set_header w h
  | OpWriteHeader status => WriteHeader w status
  | OpWrite p => (Write w p).1
  | OpFlush => Flush w
  end.

(** [serveRequest]'s use of the writer: the handler's calls, then [Fail] with the panic's
    message or [Finish]. *)
Definition serve_response (id : string) (ops : list hop) (panic : option string)
    : tunnelResponseWriter :=
  let w := foldl do_op (newTunnelResponseWriter id) ops in
  match panic with
  | Some msg => (Fail w (Some ("panic while serving request: " +:+ msg))).1
  | None => (Finish w).1
  end.

(** ** Reference *)

(** The status and headers a handler's calls amount to. *)
Fixpoint first_header (h : HttpHeader) (ops : list hop) : Z * HttpHeader :=
  match ops with
  | [] => (200%Z, h)
  | OpHeader h :: ops => first_header h ops
  | OpWriteHeader status :: _ => (status, h)
  | OpWrite _ :: _ | OpFlush :: _ => (200%Z, h)
  end.

Definition writes (ops : list hop) : list string :=
  omap (λ o, match o with OpWrite p => Some p | _ => None end) ops.

(** The calls that send the header. *)
Definition starts_response (ops : list hop) : bool :=
  existsb (λ o, match o with OpHeader _ => false | _ => true end) ops.

Definition start_frame (id : string) (sh : Z * HttpHeader) : ClientFrame :=
  ClientFrame_ResponseStart (mkResponseStart id (wrap_i32 sh.1) (ToProto sh.2)).

(** ** The writer while the handler runs *)

(** [cs] is what has been sent of the body. *)
Record started (id : string) (start : ClientFrame) (cs : list string)
    (w : tunnelResponseWriter) : Prop := {
  started_wrote : wroteHeader w = true;
  started_ended : ended w = false;
  started_id : requestID w = id;
  started_frames : frames w = start :: (ClientFrame_ResponseBody id <$> cs) }.

Record fresh (id : string) (h : HttpHeader) (w : tunnelResponseWriter) : Prop := {
  fresh_header : header w = h;
  fresh_wrote : wroteHeader w = false;
  fresh_ended : ended w = false;
  fresh_status : statusCode w = 200%Z;
  fresh_id : requestID w = id;
  fresh_err : sendErr w = None;
  fresh_frames : frames w = [] }.

Lemma set_sendErr_started id start cs w e : started id start cs w → started id start cs (set_sendErr w e).
Proof. intros []. unfold set_sendErr. case_match; by constructor. Qed.

Lemma WriteHeader_fresh id h w status :
  fresh id h w → started id (start_frame id (status, h)) [] (WriteHeader w status)
    ∧ sendErr (WriteHeader w status) = answer 0.
Proof.
  intros [Hh Hw He Hs Hi Herr Hf]. unfold WriteHeader. rewrite Hw, He. simpl.
  rewrite Hf, Hh, Hi, Herr. simpl.
  destruct (answer 0); simpl; (split; [by constructor|done]).
Qed.

Lemma WriteHeader_started id start cs w status :
  started id start cs w → WriteHeader w status = w.
Proof. intros [Hw _ _ _]. unfold WriteHeader. by rewrite Hw. Qed.

Lemma Write_started id start cs w p :
  started id start cs w →
  started id start (if sendErr w then cs else cs ++ [p]) (Write w p).1
  ∧ (Write w p).2 = match sendErr w with
                    | Some e => (0%Z, Some e)
                    | None => match answer (length (frames w)) with
                              | Some e => (0%Z, Some e)
                              | None => (Z.of_nat (String.length p), None)
                              end
                    end
  ∧ sendErr (Write w p).1 = match sendErr w with Some e => Some e | None => answer (length (frames w)) end.
Proof.
  destruct w as [hd wr en sc rid se fr]. intros [Hw He Hi Hf]. simpl in *. subst.
  destruct se as [e|]; simpl; [by split_and!|].
  unfold Write, send. cbn [sendErr wroteHeader negb frames].
  destruct (answer _) as [e|]; simpl; (split; [constructor; simpl; by rewrite ?fmap_app|done]).
Qed.

(** ** Frames of a whole response *)

(** The error is sticky, and is there only after [send] has failed. *)
Lemma do_op_started id start cs w o :
  started id start cs w →
  started id start (cs ++ (if sendErr w then [] else writes [o])) (do_op w o)
  ∧ (sendErr w ≠ None → sendErr (do_op w o) ≠ None)
  ∧ ((∀ n, answer n = None) → sendErr w = None → sendErr (do_op w o) = None).
Proof.
  intros Hst.
  assert (writes [o] = [] → started id start cs (do_op w o) → sendErr (do_op w o) = sendErr w →
    started id start (cs ++ (if sendErr w then [] else writes [o])) (do_op w o)
    ∧ (sendErr w ≠ None → sendErr (do_op w o) ≠ None)
    ∧ ((∀ n, answer n = None) → sendErr w = None → sendErr (do_op w o) = None)) as Hquiet.
  { intros -> ? ->. destruct (sendErr w); rewrite app_nil_r; naive_solver. }
  destruct o as [h|status|p|].
  - apply Hquiet; try done. destruct Hst. by constructor.
  - apply Hquiet; simpl; [done|by erewrite WriteHeader_started..].
  - destruct (Write_started _ _ _ _ p Hst) as (Hst' & _ & Herr). cbn [do_op]. rewrite Herr.
    split_and!; [|by destruct (sendErr w)|by intros Hall ->].
    destruct (sendErr w); by rewrite ?app_nil_r.
  - assert (do_op w OpFlush = w) as Heq
      by (simpl; unfold Flush; by rewrite (started_wrote _ _ _ _ Hst)).
    by apply Hquiet; rewrite ?Heq.
Qed.

Lemma writes_cons o ops : writes (o :: ops) = writes [o] ++ writes ops.
Proof. by destruct o. Qed.

Lemma do_ops_started id start cs w ops :
  started id start cs w →
  ∃ cs', started id start (cs ++ cs') (foldl do_op w ops) ∧ cs' `prefix_of` writes ops
    ∧ (sendErr w ≠ None → cs' = [])
    ∧ ((∀ n, answer n = None) → sendErr w = None → cs' = writes ops).
Proof.
  revert cs w. induction ops as [|o ops IH]; intros cs w Hst.
  { exists []. rewrite app_nil_r. by split_and!. }
  destruct (do_op_started _ _ _ _ o Hst) as (Hst' & Hstick & Hclean).
  destruct (IH _ _ Hst') as (cs' & Hst2 & Hpre & Hnil & Hall). cbn [foldl].
  rewrite <-app_assoc in Hst2. eexists. split; [exact Hst2|]. rewrite (writes_cons o ops).
  destruct (sendErr w) as [e|].
  - rewrite Hnil by (by apply Hstick). split_and!; [apply prefix_nil|done|done].
  - split_and!; [by apply prefix_app|done|].
    intros Ha _. f_equal. apply Hall; [done|by apply Hclean].
Qed.

(** The first write sends the header by itself. *)
Lemma Write_fresh id h w p : fresh id h w → Write w p = Write (WriteHeader w 200) p.
Proof.
  intros Hf. destruct (WriteHeader_fresh _ _ _ 200 Hf) as [[Hw _ _ _] _].
  unfold Write at 1 2. rewrite (fresh_err _ _ _ Hf), (fresh_wrote _ _ _ Hf), Hw. simpl.
  by destruct (sendErr (WriteHeader w 200)).
Qed.

Lemma do_ops_fresh id h w ops :
  fresh id h w →
  if starts_response ops
  then ∃ cs, started id (start_frame id (first_header h ops)) cs (foldl do_op w ops)
         ∧ cs `prefix_of` writes ops ∧ ((∀ n, answer n = None) → cs = writes ops)
  else fresh id (first_header h ops).2 (foldl do_op w ops) ∧ (first_header h ops).1 = 200%Z
       ∧ writes ops = [].
Proof.
  revert h w. induction ops as [|o ops IH]; intros h w Hf; [by simpl|].
  assert (∀ w' cs0 sh, started id (start_frame id sh) cs0 w' →
    cs0 = writes [o] ∨ (cs0 = [] ∧ sendErr w' ≠ None) →
    ((∀ n, answer n = None) → sendErr w' = None) →
    ∃ cs, started id (start_frame id sh) cs (foldl do_op w' ops)
      ∧ cs `prefix_of` writes (o :: ops) ∧ ((∀ n, answer n = None) → cs = writes (o :: ops)))
    as Hrest.
  { intros w' cs0 sh Hst Hcs Hclean. destruct (do_ops_started _ _ _ _ ops Hst)
      as (cs' & Hst' & Hp & Hnil & Hall). exists (cs0 ++ cs').
    rewrite (writes_cons o ops). destruct Hcs as [->|[-> Herr]].
    - split_and!; [done|by apply prefix_app|]. intros Ha. f_equal. auto.
    - rewrite Hnil in * by done. split_and!; [done|apply prefix_nil|]. naive_solver. }
  destruct o as [h'|status|p|]; cbn [starts_response existsb first_header foldl do_op].
  - apply (IH h'). destruct Hf. by constructor.
  - destruct (WriteHeader_fresh _ _ _ status Hf) as [Hst Herr]. simpl.
    eapply (Hrest _ []); [done|by left|]. intros Ha. by rewrite Herr.
  - simpl. rewrite (Write_fresh _ _ _ _ Hf).
    destruct (WriteHeader_fresh _ _ _ 200 Hf) as [Hst Herr].
    destruct (do_op_started _ _ _ _ (OpWrite p) Hst) as (Hst' & _ & Hclean).
    eapply Hrest; [exact Hst'|..].
    + destruct (sendErr (WriteHeader w 200)) as [e|] eqn:E; [right|by left].
      split; [done|]. cbn [do_op]. unfold Write. rewrite E. simpl. by rewrite E.
    + intros Ha. apply Hclean; [done|]. by rewrite Herr.
  - unfold Flush. rewrite (fresh_wrote _ _ _ Hf), (fresh_ended _ _ _ Hf). simpl.
    destruct (WriteHeader_fresh _ _ _ 200 Hf) as [Hst Herr].
    eapply (Hrest _ []); [done|by left|]. intros Ha. by rewrite Herr.
Qed.

Lemma Finish_started id start cs w :
  started id start cs w →
  frames (Finish w).1 = start :: (ClientFrame_ResponseBody id <$> cs) ++ [ClientFrame_ResponseEnd id].
Proof.
  intros [Hw He Hi Hf]. unfold Finish. rewrite He, Hw. cbn [negb]. rewrite He. simpl.
  by rewrite Hf, Hi.
Qed.

Lemma Finish_fresh id h w :
  fresh id h w → frames (Finish w).1 = [start_frame id (200%Z, h); ClientFrame_ResponseEnd id].
Proof.
  intros Hf. destruct (WriteHeader_fresh _ _ _ 200 Hf) as [[Hw He Hi Hfr] _]. unfold Finish.
  rewrite (fresh_ended _ _ _ Hf), (fresh_wrote _ _ _ Hf), (fresh_status _ _ _ Hf).
  cbn [negb]. rewrite He. simpl. by rewrite Hfr, Hi.
Qed.

Lemma Fail_frames w msg :
  ended w = false →
  frames (Fail w (Some msg)).1 = frames w ++ [ClientFrame_ResponseError (requestID w) msg].
Proof. intros He. unfold Fail. by rewrite He. Qed.

Lemma new_fresh id : fresh id ∅ (newTunnelResponseWriter id).
Proof. by constructor. Qed.

(** ** The theorems *)

(** C16. What a handler makes of its response is what goes down the tunnel.  Whatever calls
    it makes and whichever sends fail, the frames of a request are one ResponseStart, with
    the status of the first call that fixes it (200 if none does) and the headers set
    before that call, then bodies, then one ResponseEnd; after a panic the end is a
    ResponseError, alone if nothing had started.  The bodies are the handler's writes in
    order, all of them if no send fails, and otherwise an initial part of them. *)
Theorem response_frames id ops panic :
  ∃ cs, cs `prefix_of` writes ops ∧ ((∀ n, answer n = None) → cs = writes ops)
    ∧ frames (serve_response id ops panic) =
      match panic with
      | None => start_frame id (first_header ∅ ops)
                :: (ClientFrame_ResponseBody id <$> cs) ++ [ClientFrame_ResponseEnd id]
      | Some msg =>
        (if starts_response ops
         then start_frame id (first_header ∅ ops) :: (ClientFrame_ResponseBody id <$> cs)
         else [])
        ++ [ClientFrame_ResponseError id ("panic while serving request: " +:+ msg)]
      end.
Proof.
  pose proof (do_ops_fresh _ _ _ ops (new_fresh id)) as Hops. unfold serve_response.
  set (w := foldl do_op (newTunnelResponseWriter id) ops) in *.
  destruct (starts_response ops).
  - destruct Hops as (cs & Hst & Hpre & Hall). exists cs. split_and!; [done..|].
    destruct panic as [msg|]; [|by apply Finish_started].
    destruct Hst as [_ He Hi Hf]. by rewrite Fail_frames, Hf, Hi.
  - destruct Hops as (Hf & Hstatus & Hw). exists []. rewrite Hw. split_and!; [done..|].
    destruct panic as [msg|].
    + destruct Hf as [_ _ He _ Hi _ Hfr]. by rewrite Fail_frames, Hfr, Hi.
    + rewrite (Finish_fresh _ _ _ Hf). destruct (first_header ∅ ops); simpl in *. by subst.
Qed.

(** [Write] reports what happened: the number of bytes when the frame was sent, else
    zero and the error; and the first failed send makes every later [Write] fail with the
    same error without sending anything. *)
Theorem Write_result w p w' n e :
  Write w p = (w', (n, e)) →
  (e = None ↔ n = Z.of_nat (String.length p) ∧ frames w' = frames w
     ++ (if wroteHeader w || ended w then [] else [start_frame (requestID w) (200%Z, header w)])
     ++ [ClientFrame_ResponseBody (requestID w) p] ∧ sendErr w' = None)
  ∧ (∀ x, e = Some x → n = 0%Z ∧ ∀ p', Write w' p' = (w', (0%Z, Some x))).
Proof.
  destruct w as [hd wr en sc rid se fr]. unfold Write. simpl.
  destruct se as [x|]; simpl.
  { intros [= <- <- <-]. split; [split; [done|by intros (_ & _ & ?)]|]. intros y [= <-]. done. }
  destruct wr; simpl.
  - destruct (answer (length fr)) as [x|] eqn:E; intros [= <- <- <-]; simpl.
    + split; [split; [done|by intros (_ & _ & ?)]|]. intros y [= <-]. done.
    + split; [|done]. split; [intros _; by split_and!|done].
  - unfold WriteHeader. simpl. destruct en; simpl.
    + destruct (answer (length fr)) as [x|] eqn:E; intros [= <- <- <-]; simpl.
      * split; [split; [done|by intros (_ & _ & ?)]|]. intros y [= <-]. done.
      * split; [|done]. split; [intros _; by split_and!|done].
    + destruct (answer (length fr)) as [x|] eqn:E; simpl.
      * intros [= <- <- <-]. split; [split; [done|by intros (_ & _ & ?)]|]. intros y [= <-]. done.
      * match goal with |- context [answer ?n] => destruct (answer n) as [x|] eqn:E' end; intros [= <- <- <-]; simpl.
        -- split; [split; [done|by intros (_ & _ & ?)]|]. intros y [= <-]. done.
        -- split; [|done]. split; [intros _; split_and!; try done; by rewrite <-app_assoc|done].
Qed.

(** An informational response swallows the real one: after WriteHeader with a 1xx
    status, which net/http lets a handler call before the final status, the final status
    is never sent, whatever it is. *)
Theorem informational_is_final id info status p :
  (100 ≤ info ≤ 199)%Z →
  ∃ h, frames (serve_response id [OpWriteHeader info; OpWriteHeader status; OpWrite p] None) !! 0
    = Some (ClientFrame_ResponseStart (mkResponseStart id info h))
  ∧ ∀ i m, frames (serve_response id [OpWriteHeader info; OpWriteHeader status; OpWrite p] None) !! i
      = Some (ClientFrame_ResponseStart m) → StatusCode m = info.
Proof.
  intros Hinfo.
  pose proof (do_ops_fresh _ _ _ [OpWriteHeader info; OpWriteHeader status; OpWrite p] (new_fresh id))
    as (cs & Hst & _). unfold serve_response.
  rewrite (Finish_started _ _ _ _ Hst). cbn [first_header].
  assert (wrap_i32 info = info) as Hw.
  { apply wrap_i32_small. lia. }
  unfold start_frame. simpl. rewrite Hw. eexists. split; [done|].
  intros [|i] m Hi; simpl in Hi; [by simplify_eq|].
  apply list_elem_of_lookup_2, elem_of_app in Hi as [Hi|Hi].
  - apply list_elem_of_fmap in Hi as (c & ? & _). done.
  - by apply list_elem_of_singleton in Hi.
Qed.
End writer.

Section witnesses.
#[local] Instance ascii_case : UnicodeData := {| unicode_to_lower := λ r, r |}.

(** The third send fails. *)
Definition fails_later (n : nat) : option GoError :=
  if bool_decide (n = 2) then Some EOF else None.

Example Write_result_witness :
  ∃ w, Write fails_later (Write fails_later (newTunnelResponseWriter "7") "ab").1 "c"
    = (w, (0%Z, Some EOF)) ∧ Write fails_later w "d" = (w, (0%Z, Some EOF)).
Proof.
  eexists. split; [vm_compute; reflexivity|].
  eapply (Write_result fails_later (Write fails_later (newTunnelResponseWriter "7") "ab").1 "c");
    [vm_compute; reflexivity|reflexivity].
Defined.

Example informational_is_final_witness :
  ∃ h, frames (serve_response (λ _, None) "7" [OpWriteHeader 103; OpWriteHeader 404; OpWrite "x"] None)
    !! 0 = Some (ClientFrame_ResponseStart (mkResponseStart "7" 103 h)).
Proof.
  destruct (informational_is_final (λ _, None) "7" 103 404 "x") as (h & Hh & _); [lia|].
  exists h. exact Hh.
Defined.
End witnesses.
