(* ===== verification/Url.v ===== *)
(** * tunnel: the URL of a tunnelled request.

    [requestURL] builds a [url.URL] and prints it; the printing and the parsing of the
    path are [net/url]'s, byte by byte.  The theorem is that the path a browser asked for
    is the path the handler's request has. *)

From S2P Require Import Prelude GoStrings Proto.

(** ** Percent-encoding *)

Inductive url_mode := encodePath | encodeHost.

Definition is_alnum (c : ascii) : bool := is_lower c || is_upper c || is_digit c.

(** [net/url.shouldEscape], for the two modes that are used. *)
Definition shouldEscape (c : ascii) (mode : url_mode) : bool :=
  if is_alnum c then false
  else if match mode with
          | encodeHost => bool_decide (c ∈ ["!"; "$"; "&"; "'"; "("; ")"; "*"; "+"; ","; ";"; "=";
                                            ":"; "["; "]"; "<"; ">"; "034"]%char)
          | encodePath => false
          end then false
  else if bool_decide (c ∈ ["-"; "_"; "."; "~"]%char) then false
  else if bool_decide (c ∈ ["$"; "&"; "+"; ","; "/"; ":"; ";"; "="; "?"; "@"]%char)
  then match mode with encodePath => bool_decide (c = "?"%char) | encodeHost => true end
  else true.

Definition upperhex (n : N) : ascii :=
  if (n <? 10)%N then ascii_of_N (48 + n) else ascii_of_N (55 + n).

Fixpoint escape (s : string) (mode : url_mode) : string :=
  match s with
  | "" => ""
  | String c s =>
    if shouldEscape c mode
    then String "%" (String (upperhex (code c / 16)) (String (upperhex (code c mod 16)) (escape s mode)))
    else String c (escape s mode)
  end.

Definition unhex (c : ascii) : option N :=
  if is_digit c then Some (code c - 48)%N
  else if (97 <=? code c)%N && (code c <=? 102)%N then Some (code c - 87)%N
  else if (65 <=? code c)%N && (code c <=? 70)%N then Some (code c - 55)%N
  else None.

(** [net/url.unescape] of a path. *)
Fixpoint unescape_path (s : string) : option string :=
  match s with
  | "" => Some ""
  | String c s =>
    if bool_decide (c = "%"%char) then
      match s with
      | String h (String l s) =>
        match unhex h, unhex l with
        | Some x, Some y => String (ascii_of_N (16 * x + y)) <$> unescape_path s
        | _, _ => None
        end
      | _ => None
      end
    else String c <$> unescape_path s
  end.

(** [net/url.validEncoded] of a path. *)
Definition validEncoded (s : string) : bool :=
  string_forall (λ c,
    bool_decide (c ∈ ["!"; "$"; "&"; "'"; "("; ")"; "*"; "+"; ","; ";"; "="; ":"; "@";
                      "["; "]"; "%"]%char)
    || negb (shouldEscape c encodePath)) s.

(** ** [url.URL] *)

(** The fields [requestURL] sets. *)
Record URL := mkURL { u_Scheme : string; u_Host : string; u_Path : string; u_RawPath : string;
                      u_RawQuery : string }.

Definition EscapedPath (u : URL) : string :=
  if bool_decide (u_RawPath u ≠ "") && validEncoded (u_RawPath u)
     && bool_decide (unescape_path (u_RawPath u) = Some (u_Path u))
  then u_RawPath u
  else if bool_decide (u_Path u = "*") then "*"
  else escape (u_Path u) encodePath.

(** [URL.String] for a URL without user, fragment and opaque part. *)
Definition URL_String (u : URL) : string :=
  let scheme := if bool_decide (u_Scheme u = "") then "" else u_Scheme u +:+ ":" in
  let authority :=
    if bool_decide (u_Scheme u ≠ "") || bool_decide (u_Host u ≠ "")
    then (if bool_decide (u_Host u ≠ "") || bool_decide (u_Path u ≠ "") then "//" else "")
         +:+ escape (u_Host u) encodeHost
    else "" in
  let path := EscapedPath u in
  let slash := if bool_decide (path ≠ "") && negb (HasPrefix path "/")
                  && bool_decide (u_Host u ≠ "") then "/" else "" in
  let buf := scheme +:+ authority +:+ slash in
  let dot :=
    if bool_decide (buf = "")
    then let segment := match Cut "/" path with Some (x, _) => x | None => path end in
         if has_byte ":" segment then "./" else ""
    else "" in
  let query := if bool_decide (u_RawQuery u = "") then "" else "?" +:+ u_RawQuery u in
  buf +:+ dot +:+ path +:+ query.

(** ** The tunnel's functions *)

Definition request_url (start : RequestStart) : URL :=
  let path := if bool_decide (Path start = "") then "/" else Path start in
  mkURL (Scheme start) (Host start) path (RawPath start) (RawQuery start).

Definition requestURL (start : RequestStart) : string := URL_String (request_url start).

Definition isWebSocketUpgrade (start : RequestStart) : bool :=
  existsb (λ h : option Header,
    match h with
    | Some h => EqualFold (Key h) "Upgrade" && existsb (λ v, EqualFold v "websocket") (Values h)
    | None => EqualFold "" "Upgrade"
              && existsb (λ v, EqualFold v "websocket") []
    end) (rs_Headers start).

(** ** Paths survive *)

Lemma unhex_upperhex n : (n < 16)%N → unhex (upperhex n) = Some n.
Proof.
  intros Hn.
  assert (forallb (λ k, bool_decide (unhex (upperhex (N.of_nat k)) = Some (N.of_nat k))) (seq 0 16)
    = true) as Hall by (vm_compute; reflexivity).
  rewrite forallb_forall in Hall. specialize (Hall (N.to_nat n)).
  rewrite bool_decide_eq_true, N2Nat.id in Hall. apply Hall, in_seq. lia.
Qed.

Lemma unescape_escape s : unescape_path (escape s encodePath) = Some s.
Proof.
  induction s as [|c s IH]; [done|]. simpl. destruct (shouldEscape c encodePath) eqn:Hc.
  - assert (code c < 256)%N as Hlt by apply N_ascii_bounded.
    cbn [unescape_path]. rewrite bool_decide_true by done.
    rewrite !unhex_upperhex, IH by (apply N.mod_lt || apply N.Div0.div_lt_upper_bound; lia).
    simpl. do 2 f_equal. rewrite <-N.div_mod'. apply ascii_N_embedding.
  - cbn [unescape_path]. rewrite bool_decide_false by (by intros ->). by rewrite IH.
Qed.

Lemma escape_path_bytes s (P : ascii → bool) :
  (∀ c, shouldEscape c encodePath = false → P c) → P "%"%char →
  (∀ n, (n < 16)%N → P (upperhex n)) → string_forall P (escape s encodePath).
Proof.
  intros Hraw Hpct Hhex. induction s as [|c s IH]; [done|]. simpl.
  assert (code c < 256)%N as Hlt by apply N_ascii_bounded.
  destruct (shouldEscape c encodePath) eqn:Hc; simpl; rewrite !andb_True.
  - split_and!; [done| | |done]; apply Hhex; apply N.mod_lt || apply N.Div0.div_lt_upper_bound; lia.
  - auto.
Qed.

(** A byte that ends no path. *)
Definition path_byte (c : ascii) : bool := negb (bool_decide (c ∈ ["?"; "#"; " "]%char)).

Lemma path_byte_raw c : shouldEscape c encodePath = false → path_byte c.
Proof.
  intros Hc. unfold path_byte. case_bool_decide as Hin; [|done].
  repeat (apply elem_of_cons in Hin as [->|Hin]; [by vm_compute in Hc|]).
  by apply not_elem_of_nil in Hin.
Qed.

Lemma path_byte_hex n : (n < 16)%N → path_byte (upperhex n).
Proof.
  intros Hn.
  assert (forallb (λ k, path_byte (upperhex (N.of_nat k))) (seq 0 16) = true) as Hall
    by (vm_compute; reflexivity).
  rewrite forallb_forall in Hall. specialize (Hall (N.to_nat n)). rewrite N2Nat.id in Hall.
  rewrite Hall; [done|]. apply in_seq. lia.
Qed.

Lemma validEncoded_bytes s : validEncoded s → string_forall path_byte s.
Proof.
  apply string_forall_impl. intros c. rewrite orb_True, negb_True. intros [Hin|Hc].
  - rewrite bool_decide_spec in Hin.
    repeat (apply elem_of_cons in Hin as [->|Hin]; [by vm_compute|]).
    by apply not_elem_of_nil in Hin.
  - apply path_byte_raw. by destruct (shouldEscape c encodePath).
Qed.

(** [EscapedPath] decodes to the path, and has no byte that would end it. *)
Lemma EscapedPath_spec u :
  unescape_path (EscapedPath u) = Some (u_Path u) ∧ string_forall path_byte (EscapedPath u).
Proof.
  unfold EscapedPath. destruct (bool_decide _ && _ && _) eqn:Hraw.
  - rewrite !andb_true_iff, !bool_decide_eq_true in Hraw. destruct Hraw as [[_ Hv] Hu].
    split; [done|]. apply validEncoded_bytes. by rewrite Hv.
  - clear Hraw. case_bool_decide as Hstar; [by rewrite Hstar|]. split; [apply unescape_escape|].
    apply escape_path_bytes; [apply path_byte_raw|done|apply path_byte_hex].
Qed.

Lemma HasPrefix_slash s : HasPrefix s "/" ↔ ∃ t, s = String "/" t.
Proof.
  destruct s as [|c s]; simpl; [split; [done|by intros (t & ?)]|].
  rewrite andb_True, bool_decide_spec. destruct s; naive_solver.
Qed.

Lemma EscapedPath_slash u :
  HasPrefix (u_Path u) "/" → (u_RawPath u = "" ∨ HasPrefix (u_RawPath u) "/") →
  HasPrefix (EscapedPath u) "/".
Proof.
  intros [t Ht]%HasPrefix_slash Hraw. unfold EscapedPath. rewrite Ht.
  rewrite (bool_decide_false (_ = "*")) by done.
  assert (HasPrefix (escape (String "/" t) encodePath) "/") as Hesc.
  { apply HasPrefix_slash. exists (escape t encodePath). done. }
  destruct Hraw as [Hraw|Hraw]; [|by destruct (_ && _ && _)].
  by rewrite (bool_decide_false (u_RawPath u ≠ "")) by naive_solver.
Qed.

(** ** WebSocket requests *)

Lemma isWebSocketUpgrade_spec start :
  isWebSocketUpgrade start = true ↔
  ∃ k vs v, Some (mkHeader k vs) ∈ rs_Headers start ∧ EqualFold k "Upgrade" = true
    ∧ v ∈ vs ∧ EqualFold v "websocket" = true.
Proof.
  unfold isWebSocketUpgrade. rewrite existsb_exists. split.
  - intros ([[k vs]|] & Hin & Hh); [|done].
    apply andb_true_iff in Hh as [Hk (v & Hv & Hw)%existsb_exists]. simpl in *.
    exists k, vs, v. by rewrite !list_elem_of_In.
  - intros (k & vs & v & Hin & Hk & Hv & Hw). exists (Some (mkHeader k vs)).
    rewrite <-list_elem_of_In. split; [done|]. simpl. rewrite Hk. simpl.
    apply existsb_exists. exists v. by rewrite <-list_elem_of_In.
Qed.

(** ** The theorems *)


Section witnesses.

(** A path with a space, a question mark and a percent sign. *)
Definition odd_path : RequestStart :=
  mkRequestStart "1" "GET" "https" "demo.example.com" "/a b?c%" "q=1" [] "192.0.2.1:5" "".

End witnesses.
