(* ===== verification/Logging.v ===== *)
(** * server, tunnel: what is logged.

    Every call of [logf] and [debugf] that says something about a session, a request or a
    frame, as the text it hands to the logger; and which of these texts can be more than
    one line of the log. *)

From S2P Require Import Prelude GoStrings GoFmt Proto Headers Channels Url.

(** [err.Error()]. *)
Definition Error (e : GoError) : string :=
  match e with
  | errSessionClosed => "tunnel session closed"
  | errSessionReplaced => "tunnel session replaced by a newer connection"
  | errSessionEnded => "tunnel session ended"
  | ContextCanceled => "context canceled"
  | ContextDeadlineExceeded => "context deadline exceeded"
  | EOF => "EOF"
  | ErrClosedPipe => "io: read/write on closed pipe"
  | ErrServerClosed => "http: Server closed"
  | ErrNew msg => msg
  | StatusInvalidArgument msg => "rpc error: code = InvalidArgument desc = " +:+ msg
  | StatusUnauthenticated msg => "rpc error: code = Unauthenticated desc = " +:+ msg
  end.

(** [%v] of an error that may be nil. *)
Definition err_v (e : option GoError) : string := from_option Error "<nil>" e.

Definition len (s : string) : string := Itoa (Z.of_nat (String.length s)).

(** [time.Since(time.Unix(0, nano))] at the time [now]; [Time.Sub] saturates. *)
Definition since (now nano : Z) : Z := Z.max (- 2^63) (Z.min max_i64 (now - nano)).

Section logging.
Context `{UnicodeData, PrintData}.

(** Whether there is a logger, and whether debugging is on. *)
Record Log := mkLog { logger : bool; debug : bool }.

Definition logf (l : Log) (entry : string) : list string := if logger l then [entry] else [].
Definition debugf (l : Log) (entry : string) : list string := if debug l then logf l entry else [].

(** The entries of a call that has one for some frames. *)
Definition debug_entry (l : Log) (entry : option string) : list string :=
  if debug l then from_option (logf l) [] entry else [].

(** ** The edge *)

Definition session_ (sid : Z) : string := "edge debug: session=" +:+ FormatUint sid.

Definition edge_sent (sid : Z) (f : ServerFrame) : option string :=
  (λ s, session_ sid +:+ " sent " +:+ s) <$>
  match f with
  | ServerFrame_RequestStart m =>
    Some ("request_start id=" +:+ rs_RequestId m +:+ " method=" +:+ Method m +:+ " host=" +:+ Host m
          +:+ " path=" +:+ Path m +:+ " query=" +:+ Quote (RawQuery m) +:+ " remote=" +:+ RemoteAddr m)
  | ServerFrame_RequestBody id chunk => Some ("request_body id=" +:+ id +:+ " bytes=" +:+ len chunk)
  | ServerFrame_RequestEnd id => Some ("request_end id=" +:+ id)
  | ServerFrame_CancelRequest id => Some ("cancel_request id=" +:+ id)
  | ServerFrame_Ping nano => Some ("ping unix_nano=" +:+ Itoa nano)
  | ServerFrame_WsData id payload => Some ("ws_data id=" +:+ id +:+ " bytes=" +:+ len payload)
  | ServerFrame_WsClose id => Some ("ws_close id=" +:+ id)
  | ServerFrame_Empty => None
  end.

Definition edge_received (sid now : Z) (f : ClientFrame) : option string :=
  (λ s, session_ sid +:+ " recv " +:+ s) <$>
  match f with
  | ClientFrame_Register _ => Some "register"
  | ClientFrame_ResponseStart m =>
    Some ("response_start id=" +:+ RequestId m +:+ " status=" +:+ Itoa (StatusCode m))
  | ClientFrame_ResponseBody id chunk => Some ("response_body id=" +:+ id +:+ " bytes=" +:+ len chunk)
  | ClientFrame_ResponseEnd id => Some ("response_end id=" +:+ id)
  | ClientFrame_ResponseError id msg =>
    Some ("response_error id=" +:+ id +:+ " message=" +:+ Quote msg)
  | ClientFrame_WsData id payload => Some ("ws_data id=" +:+ id +:+ " bytes=" +:+ len payload)
  | ClientFrame_WsClose id => Some ("ws_close id=" +:+ id)
  | ClientFrame_Pong nano =>
    Some ("pong unix_nano=" +:+ Itoa nano +:+ " rtt=" +:+ Duration_String (since now nano))
  | ClientFrame_Empty => None
  end.

Definition debugSentFrame (l : Log) (sid : Z) (f : ServerFrame) : list string :=
  debug_entry l (edge_sent sid f).
Definition debugReceivedFrame (l : Log) (sid now : Z) (f : ClientFrame) : list string :=
  debug_entry l (edge_received sid now f).

(** What [handleClientFrame] logs of a frame, before it looks for its request. *)
Definition handleClientFrame_log (l : Log) (sid now : Z) (f : ClientFrame) : list string :=
  debugReceivedFrame l sid now f
  ++ match f with
     | ClientFrame_ResponseError id msg =>
       logf l ("edge: session=" +:+ FormatUint sid +:+ " response error request_id=" +:+ id
               +:+ " message=" +:+ Quote msg)
     | _ => []
     end.

Definition writeBadGateway_log (l : Log) (sid : Z) (requestID publicHost : string)
    (err : option GoError) : list string :=
  match err with
  | Some e => logf l ("edge: session=" +:+ FormatUint sid +:+ " request_id=" +:+ requestID
                      +:+ " public_host=" +:+ publicHost +:+ " bad gateway detail=" +:+ Quote (Error e))
  | None => []
  end.

(** A response that breaks off. *)
Definition truncated_log (l : Log) (requestID : string) (err : option GoError) : list string :=
  match err with
  | Some e => logf l ("muxbridge: request " +:+ requestID +:+ " failed after headers: " +:+ Error e)
  | None => []
  end.

Definition whose (publicHost username : string) : string :=
  "host=" +:+ publicHost +:+ " user=" +:+ username.

Definition connected_log (l : Log) (sid : Z) (username publicHost peer : string) : list string :=
  debugf l (session_ sid +:+ " connected user=" +:+ username +:+ " host=" +:+ publicHost +:+ " peer=" +:+ peer).
Definition closing_log (l : Log) (sid : Z) (username publicHost peer : string) (recvErr : option GoError)
    : list string :=
  debugf l (session_ sid +:+ " closing user=" +:+ username +:+ " host=" +:+ publicHost +:+ " peer=" +:+ peer
            +:+ " recv_err=" +:+ err_v recvErr).
Definition replaced_log (l : Log) (sid replaced : Z) (publicHost username : string) : list string :=
  debugf l (session_ sid +:+ " replaced previous session=" +:+ FormatUint replaced +:+ " "
            +:+ whose publicHost username).

(** ** The tunnel client *)

Definition client_received (f : ServerFrame) : option string :=
  (λ s, "client debug: recv " +:+ s) <$>
  match f with
  | ServerFrame_RequestStart m =>
    Some ("request_start id=" +:+ rs_RequestId m +:+ " method=" +:+ Method m +:+ " host=" +:+ Host m
          +:+ " path=" +:+ Path m +:+ " query=" +:+ Quote (RawQuery m)
          +:+ " websocket=" +:+ (if isWebSocketUpgrade m then "true" else "false")
          +:+ " remote=" +:+ RemoteAddr m)
  | ServerFrame_RequestBody id chunk => Some ("request_body id=" +:+ id +:+ " bytes=" +:+ len chunk)
  | ServerFrame_RequestEnd id => Some ("request_end id=" +:+ id)
  | ServerFrame_CancelRequest id => Some ("cancel_request id=" +:+ id)
  | ServerFrame_WsData id payload => Some ("ws_data id=" +:+ id +:+ " bytes=" +:+ len payload)
  | ServerFrame_WsClose id => Some ("ws_close id=" +:+ id)
  | ServerFrame_Ping nano => Some ("ping unix_nano=" +:+ Itoa nano)
  | ServerFrame_Empty => None
  end.

Definition client_sent (f : ClientFrame) : option string :=
  (λ s, "client debug: sent " +:+ s) <$>
  match f with
  | ClientFrame_Register _ => Some "register"
  | ClientFrame_ResponseStart m =>
    Some ("response_start id=" +:+ RequestId m +:+ " status=" +:+ Itoa (StatusCode m))
  | ClientFrame_ResponseBody id chunk => Some ("response_body id=" +:+ id +:+ " bytes=" +:+ len chunk)
  | ClientFrame_ResponseEnd id => Some ("response_end id=" +:+ id)
  | ClientFrame_ResponseError id msg =>
    Some ("response_error id=" +:+ id +:+ " message=" +:+ Quote msg)
  | ClientFrame_WsData id payload => Some ("ws_data id=" +:+ id +:+ " bytes=" +:+ len payload)
  | ClientFrame_WsClose id => Some ("ws_close id=" +:+ id)
  | ClientFrame_Pong nano => Some ("pong unix_nano=" +:+ Itoa nano)
  | ClientFrame_Empty => None
  end.

(** [debugReceivedFrame] and [debugSentFrame] of the client. *)
Definition client_debugReceivedFrame (l : Log) (f : ServerFrame) : list string :=
  debug_entry l (client_received f).
Definition client_debugSentFrame (l : Log) (f : ClientFrame) : list string :=
  debug_entry l (client_sent f).

(** ** Entries that are one line *)

Definition one_line (entries : list string) : Prop := Forall (λ s, clean s) entries.

(** The ids in a frame, as the edge gives them out. *)
Definition issued_client (f : ClientFrame) : Prop :=
  ∀ id, client_frame_id f = Some id → ∃ n, id = FormatUint n.
Definition issued_server (f : ServerFrame) : Prop :=
  ∀ id, server_frame_id f = Some id → ∃ n, id = FormatUint n.

(** What a browser may have put into a start that is printed as it is. *)
Definition plain_start (f : ServerFrame) : Prop :=
  match f with
  | ServerFrame_RequestStart m => clean (Method m) ∧ clean (Host m) ∧ clean (Path m) ∧ clean (RemoteAddr m)
  | _ => True
  end.

Lemma one_line_logf l s : clean s → one_line (logf l s).
Proof. intros Hs. unfold logf. case_match; by repeat constructor. Qed.

Lemma one_line_debug_entry l e : from_option (λ s, Is_true (clean s)) True e → one_line (debug_entry l e).
Proof.
  intros He. unfold debug_entry. case_match; [|constructor]. destruct e; [|constructor].
  by apply one_line_logf.
Qed.

Ltac clean_entry :=
  repeat first
    [ assumption
    | apply clean_Quote | apply clean_FormatUint | apply clean_Itoa | apply clean_Duration_String
    | match goal with |- Is_true (string_forall visible (_ +:+ _)) => apply clean_app end
    | exact I ].

Lemma client_id_clean f id : issued_client f → client_frame_id f = Some id → clean id.
Proof. intros Hi Hid. destruct (Hi id Hid) as [n ->]. apply clean_FormatUint. Qed.
Lemma server_id_clean f id : issued_server f → server_frame_id f = Some id → clean id.
Proof. intros Hi Hid. destruct (Hi id Hid) as [n ->]. apply clean_FormatUint. Qed.

Lemma edge_received_clean l sid now f : issued_client f → one_line (debugReceivedFrame l sid now f).
Proof.
  intros Hi. apply one_line_debug_entry. pose proof (client_id_clean f) as Hid.
  destruct f; simpl in *; try done; specialize (Hid _ Hi eq_refl) || clear Hid;
    unfold session_, len; clean_entry.
Qed.

Lemma edge_sent_clean l sid f : issued_server f → plain_start f → one_line (debugSentFrame l sid f).
Proof.
  intros Hi Hp. apply one_line_debug_entry. pose proof (server_id_clean f) as Hid.
  destruct f; simpl in *; try done; specialize (Hid _ Hi eq_refl) || clear Hid;
    unfold session_, len; destruct_and?; clean_entry.
Qed.

Lemma client_received_clean l f :
  issued_server f → plain_start f → one_line (client_debugReceivedFrame l f).
Proof.
  intros Hi Hp. apply one_line_debug_entry. pose proof (server_id_clean f) as Hid.
  destruct f; simpl in *; try done; specialize (Hid _ Hi eq_refl) || clear Hid;
    unfold len; destruct_and?; clean_entry; by case_match.
Qed.

Lemma client_sent_clean l f : issued_client f → one_line (client_debugSentFrame l f).
Proof.
  intros Hi. apply one_line_debug_entry. pose proof (client_id_clean f) as Hid.
  destruct f; simpl in *; try done; specialize (Hid _ Hi eq_refl) || clear Hid;
    unfold len; clean_entry.
Qed.

(** C33. What others choose does not break the lines of the edge's log where it is quoted:
    a frame about a request of the edge, with whatever message, payload, status or time
    stamp, makes entries of one line each, and so does a refused request with whatever
    error; a frame the edge sends does if the parts of its start that are not quoted have
    no control bytes. *)
Theorem edge_log_lines l sid now :
  (∀ f, issued_client f → one_line (handleClientFrame_log l sid now f))
  ∧ (∀ n publicHost err, clean publicHost → one_line (writeBadGateway_log l sid (FormatUint n) publicHost err))
  ∧ ∀ f, issued_server f → plain_start f → one_line (debugSentFrame l sid f).
Proof.
  split_and!.
  - intros f Hi. apply Forall_app. split; [by apply edge_received_clean|].
    pose proof (client_id_clean f) as Hid. destruct f; try constructor. specialize (Hid _ Hi eq_refl).
    apply one_line_logf. clean_entry.
  - intros n publicHost [e|] Hh; [|constructor]. apply one_line_logf. clean_entry.
  - intros f. apply edge_sent_clean.
Qed.

(** ** Entries that are more *)

Lemma Split_append c a b : Split c (a +:+ String c b) = Split c a ++ Split c b.
Proof.
  induction a as [|x a IH].
  - change (Split c (String c b) = [""] ++ Split c b). simpl. by rewrite bool_decide_true.
  - rewrite app_cons_str. simpl. rewrite IH. case_bool_decide; [done|].
    destruct (Split c a) as [|y k] eqn:Hk; [|done]. destruct a; simpl in Hk; repeat case_match; done.
Qed.

Lemma Split_line c line : has_byte c line = false → Split c line = [line].
Proof.
  induction line as [|x s IH]; [done|]. simpl. intros [Hx Hs]%orb_false_iff. by rewrite Hx, IH.
Qed.

(** A text that has [line] as a line of its own, not the first or the last. *)
Definition has_line (line s : string) : Prop :=
  ∃ a b, s = a +:+ String "010" (line +:+ String "010" b).
Definition forged (line : string) : string := String "010" (line +:+ String "010" "").

Lemma has_line_app line a s : has_line line s → has_line line (a +:+ s).
Proof. intros (x & y & ->). exists (a +:+ x), y. by rewrite app_assoc_str. Qed.

Lemma has_line_forged line s : has_line line (forged line +:+ s).
Proof. exists "", s. unfold forged. by rewrite app_cons_str, app_assoc_str. Qed.

Lemma has_line_Split line s : has_byte "010" line = false → has_line line s → line ∈ Split "010" s.
Proof.
  intros Hl (a & b & ->). rewrite !Split_append, (Split_line _ line Hl), !elem_of_app, list_elem_of_singleton.
  tauto.
Qed.

(** A client writes what it likes into the log of the edge: the id of a
    [ResponseError] is printed as it is, before its request is looked up, and so is the
    error of a response that breaks off; each can hold any line as a line of its own. *)
Theorem edge_log_forged l sid now line :
  logger l = true → has_byte "010" line = false →
  (∃ f entry, entry ∈ handleClientFrame_log l sid now f ∧ line ∈ Split "010" entry)
  ∧ ∃ message entry, entry ∈ truncated_log l "1" (Some (ErrNew message)) ∧ line ∈ Split "010" entry.
Proof.
  intros Hl Hline. split.
  - exists (ClientFrame_ResponseError (forged line) ""). eexists. unfold handleClientFrame_log, logf.
    rewrite Hl. split; [apply elem_of_app; right; left|]. apply has_line_Split; [done|].
    do 3 apply has_line_app. apply has_line_forged.
  - exists (forged line). eexists. unfold truncated_log, logf. rewrite Hl. split; [left|].
    apply has_line_Split; [done|]. do 3 apply has_line_app. unfold forged. simpl.
    exists "", "". by rewrite app_nil_l_str.
Qed.
End logging.

Section witnesses.
(** A table that prints no rune of 128 and above, and one that changes no case. *)
#[local] Instance ascii_print : PrintData := {| unicode_is_print := λ _, false |}.
#[local] Instance ascii_lower : UnicodeData := {| unicode_to_lower := λ r, r |}.

Example edge_log_forged_witness :
  ∃ f entry, entry ∈ handleClientFrame_log (mkLog true false) 1 0 f
    ∧ "edge debug: session=7 connected user=root" ∈ Split "010" entry.
Proof.
  refine (proj1 (edge_log_forged (mkLog true false) 1 0 "edge debug: session=7 connected user=root" _ _));
    reflexivity.
Defined.

(** Also a browser does, when debugging is on: a path is printed after it was decoded. *)
Example path_forged :
  Split "010" <$> debugSentFrame (mkLog true true) 1
    (ServerFrame_RequestStart (mkRequestStart "1" "GET" "https" "h" ("/" +:+ String "010" "forged") "" [] "a" ""))
  = [["edge debug: session=1 sent request_start id=1 method=GET host=h path=/";
      "forged query=" +:+ String double_quote (String double_quote " remote=a")]].
Proof. vm_compute. reflexivity. Qed.
End witnesses.
