(* ===== verification/Client.v ===== *)
(** * tunnel: the client around a session: configuration, reconnecting, closing.

    Connections are numbers; what a session, a context or a timer does is observed.
    [Close], [setConn] and [clearConn] may run concurrently with each other: their locked
    sections are steps, and what [Close] still does after unlocking is a pending action
    that any later step may run. *)

From S2P Require Import Prelude GoStrings Channels.

Module Client.

(** ** Configuration *)

Record Config := mkConfig {
  EdgeAddr : string;
  TunnelID : string;
  Token : string;
  Handler : bool;               (** not nil *)
  Insecure : bool;
  ReconnectBackoff : Z;
  DialTimeout : Z }.

Record Client := mkClient {
  cfg : Config;
  closed : bool;
  conn : option nat;
  closeCh : option bool }.      (** nil, or whether it is closed *)

Definition second : Z := 1000000000.

Definition New (cfg : Config) : result string Client :=
  _ ← guard_err (bool_decide (EdgeAddr cfg = "")) "edge address is required";
  _ ← guard_err (negb (Handler cfg)) "handler is required";
  _ ← guard_err (bool_decide (Token cfg = "")) "token is required";
  Ok (mkClient
        (mkConfig (EdgeAddr cfg) (TunnelID cfg) (Token cfg) (Handler cfg) (Insecure cfg)
           (if (ReconnectBackoff cfg <=? 0)%Z then (2 * second)%Z else ReconnectBackoff cfg)
           (if (DialTimeout cfg <=? 0)%Z then (10 * second)%Z else DialTimeout cfg))
        false None (Some false)).

(** ** [Run] *)

(** How the wait after a session ends. *)
Inductive wait := WaitCtx (e : GoError) | WaitClosed | WaitTimer.

(** One turn of the loop, as [Run] sees it. *)
Record attempt := mkAttempt {
  a_err : option GoError;       (** what [runSession] returns *)
  a_ctx : option GoError;       (** the context's error after it *)
  a_closed : bool;              (** [isClosed] after it *)
  a_wait : wait }.

(** The loop: [Some] is what [Run] returns, [None] says it is still running after these
    attempts. *)
Fixpoint Run (attempts : list attempt) : option (option GoError) :=
  match attempts with
  | [] => None
  | a :: attempts =>
    match a_ctx a with
    | Some e => Some (Some e)
    | None =>
      if a_closed a then Some None
      else match a_wait a with
           | WaitCtx e => Some (Some e)
           | WaitClosed => Some None
           | WaitTimer => Run attempts
           end
    end
  end.

(** ** [waitForConnReady] *)

Inductive connectivity := Idle | Connecting | Ready | TransientFailure | Shutdown.

(** One turn: the state, and if it has to wait, whether the state changed, else the error
    of the context. *)
Fixpoint waitForConnReady (turns : list (connectivity * (bool * option GoError)))
    : option (result (GoError + connectivity) unit) :=
  match turns with
  | [] => None
  | (s, (changed, ctx)) :: turns =>
    match s with
    | Ready => Some (Ok tt)
    | Shutdown => Some (Err (inl (ErrNew "grpc connection shut down before becoming ready")))
    | _ =>
      if changed : bool then waitForConnReady turns
      else match ctx with
           | Some e => Some (Err (inl e))
           | None => Some (Err (inr s))
           end
    end
  end.

(** ** Closing *)

(** What a [Close] has still to do. *)
Inductive pending := PendCloseCh | PendCloseConn (n : nat).

(** [open] are the connections that are open; [panicked] is set by a second close of the
    channel. *)
Record cstate := mkC { client : Client; open : list nat; todo : list pending; panicked : bool }.

Definition put_client (s : cstate) (c : Client) : cstate := mkC c (open s) (todo s) (panicked s).
Definition close_conn (l : list nat) (n : nat) : list nat := filter (λ m, m ≠ n) l.

(** The locked section of [Close]. *)
Definition Close (s : cstate) : cstate :=
  let c := client s in
  mkC (mkClient (cfg c) true None (closeCh c)) (open s)
    (todo s
     ++ (if negb (closed c) && bool_decide (closeCh c ≠ None) then [PendCloseCh] else [])
     ++ match conn c with Some n => [PendCloseConn n] | None => [] end)
    (panicked s).

(** One of the actions after it. *)
Definition close_action (s : cstate) (i : nat) : option cstate :=
  a ← todo s !! i;
  let rest := delete i (todo s) in
  Some match a with
       | PendCloseCh =>
         match closeCh (client s) with
         | Some false =>
           mkC (mkClient (cfg (client s)) (closed (client s)) (conn (client s)) (Some true))
             (open s) rest (panicked s)
         | _ => mkC (client s) (open s) rest true
         end
       | PendCloseConn n => mkC (client s) (close_conn (open s) n) rest (panicked s)
       end.

Definition setConn (s : cstate) (n : nat) : cstate :=
  let c := client s in
  if closed c then mkC c (close_conn (open s) n) (todo s) (panicked s)
  else put_client s (mkClient (cfg c) (closed c) (Some n) (closeCh c)).

Definition clearConn (s : cstate) (n : nat) : cstate :=
  let c := client s in
  if bool_decide (conn c = Some n)
  then put_client s (mkClient (cfg c) (closed c) None (closeCh c)) else s.

(** The first section of [Run]. *)
Definition run_init (s : cstate) : cstate :=
  let c := client s in
  match closeCh c with
  | None => put_client s (mkClient (cfg c) (closed c) (conn c) (Some false))
  | Some _ => s
  end.

Definition isClosed (s : cstate) : bool := closed (client s).

Inductive cop := OpClose | OpAction (i : nat) | OpDial (n : nat) | OpSetConn (n : nat)
  | OpClearConn (n : nat) | OpConnClose (n : nat) | OpRun.

Definition cexec (s : cstate) (o : cop) : option cstate :=
  match o with
  | OpClose => Some (Close s)
  | OpAction i => close_action s i
  | OpDial n => Some (mkC (client s) (n :: open s) (todo s) (panicked s))
  | OpSetConn n => Some (setConn s n)
  | OpClearConn n => Some (clearConn s n)
  | OpConnClose n => Some (mkC (client s) (close_conn (open s) n) (todo s) (panicked s))
  | OpRun => Some (run_init s)
  end.

Fixpoint crun (s : cstate) (os : list cop) : option cstate :=
  match os with
  | [] => Some s
  | o :: os => s ← cexec s o; crun s os
  end.

(** ** Invariant *)

Definition is_close_ch (a : pending) : bool :=
  match a with PendCloseCh => true | PendCloseConn _ => false end.

Record c_ok (s : cstate) : Prop := {
  ok_panic : panicked s = false;
  ok_conn : closed (client s) = true → conn (client s) = None;
  ok_ch : closed (client s) = false →
    closeCh (client s) ≠ Some true ∧ Forall (λ a, is_close_ch a = false) (todo s);
  ok_once : match closeCh (client s) with
            | Some true | None => Forall (λ a, is_close_ch a = false) (todo s)
            | Some false => ∀ i j a b, todo s !! i = Some a → todo s !! j = Some b →
                is_close_ch a = true → is_close_ch b = true → i = j
            end }.

Lemma Forall_unique (l : list pending) :
  Forall (λ a, is_close_ch a = false) l →
  ∀ i j a b, l !! i = Some a → l !! j = Some b → is_close_ch a = true → is_close_ch b = true → i = j.
Proof. rewrite Forall_lookup. intros Hl i j a b Ha%Hl. congruence. Qed.

Lemma lookup_delete_unique (l : list pending) k :
  (∀ i j a b, l !! i = Some a → l !! j = Some b → is_close_ch a = true → is_close_ch b = true → i = j) →
  ∀ a, l !! k = Some a → is_close_ch a = true → Forall (λ a, is_close_ch a = false) (delete k l).
Proof.
  intros Hu a Ha Hc. rewrite Forall_lookup. intros j b Hb.
  destruct (is_close_ch b) eqn:Hbc; [|done]. exfalso.
  destruct (decide (j < k)).
  - rewrite list_lookup_delete_lt in Hb by done. pose proof (Hu _ _ _ _ Hb Ha Hbc Hc). lia.
  - rewrite list_lookup_delete_ge in Hb by lia. pose proof (Hu _ _ _ _ Hb Ha Hbc Hc). lia.
Qed.

Lemma unique_delete (l : list pending) k :
  (∀ i j a b, l !! i = Some a → l !! j = Some b → is_close_ch a = true → is_close_ch b = true → i = j) →
  ∀ i j a b, delete k l !! i = Some a → delete k l !! j = Some b →
    is_close_ch a = true → is_close_ch b = true → i = j.
Proof.
  intros Hu i j a b Ha Hb Hca Hcb.
  destruct (decide (i < k)), (decide (j < k));
    rewrite ?list_lookup_delete_lt, ?list_lookup_delete_ge in * by lia;
    pose proof (Hu _ _ _ _ Ha Hb Hca Hcb); lia.
Qed.

Lemma Close_ok s : c_ok s → c_ok (Close s).
Proof.
  intros [Hp Hconn Hch Ho]. unfold Close.
  assert (Forall (λ a, is_close_ch a = false)
    match conn (client s) with Some n => [PendCloseConn n] | None => [] end) as Hc
    by (destruct (conn (client s)); by repeat constructor).
  constructor; simpl; try done.
  destruct (closed (client s)) eqn:Hcl; simpl.
  - destruct (closeCh (client s)) as [[]|]; try (by apply Forall_app).
    by rewrite Hconn, app_nil_r.
  - destruct (Hch eq_refl) as [Hne Hnone].
    destruct (closeCh (client s)) as [[]|]; simpl; [done| |by apply Forall_app].
    intros i j a b Ha Hb Hca Hcb.
    assert (∀ k x, (todo s ++ [PendCloseCh]
        ++ match conn (client s) with Some n => [PendCloseConn n] | None => [] end) !! k = Some x →
      is_close_ch x = true → k = length (todo s)) as Honly.
    { intros k x [Hx|[Hge Hx]]%lookup_app_Some Hcx.
      - rewrite Forall_lookup in Hnone. apply Hnone in Hx. congruence.
      - destruct (k - length (todo s)) as [|m] eqn:E; [lia|]. simpl in Hx.
        rewrite Forall_lookup in Hc. apply Hc in Hx. congruence. }
    rewrite (Honly i a Ha Hca), (Honly j b Hb Hcb). done.
Qed.

Lemma close_action_ok s i s' : c_ok s → close_action s i = Some s' → c_ok s'.
Proof.
  intros [Hp Hconn Hch Ho]. unfold close_action. intros (a & Ha & [= <-])%bind_Some.
  destruct a as [|n].
  - destruct (closeCh (client s)) as [[]|] eqn:E.
    + rewrite Forall_lookup in Ho. by apply Ho in Ha.
    + constructor; simpl; try done.
      * intros Hcl. destruct (Hch Hcl) as [_ Hn]. rewrite Forall_lookup in Hn. by apply Hn in Ha.
      * by eapply lookup_delete_unique.
    + rewrite Forall_lookup in Ho. by apply Ho in Ha.
  - constructor; simpl; try done.
    + intros Hcl. destruct (Hch Hcl). split; [done|]. by apply Forall_delete.
    + destruct (closeCh (client s)) as [[]|]; try (by apply Forall_delete). by apply unique_delete.
Qed.

Lemma cexec_ok s o s' : c_ok s → cexec s o = Some s' → c_ok s'.
Proof.
  intros Hs. destruct o; simpl; try (intros [= <-]).
  - by apply Close_ok.
  - by apply close_action_ok.
  - destruct Hs. by constructor.
  - destruct Hs. unfold setConn. destruct (closed (client s)) eqn:E;
      constructor; simpl; rewrite ?E; auto. done.
  - destruct Hs. unfold clearConn. case_bool_decide; constructor; simpl; auto.
  - destruct Hs. by constructor.
  - destruct Hs as [Hp Hconn Hch Ho]. unfold run_init.
    destruct (closeCh (client s)) eqn:E; [constructor; simpl; rewrite ?E in *; done|].
    constructor; simpl; [done|done| |by apply Forall_unique].
    intros Hcl. by destruct (Hch Hcl).
Qed.

Lemma crun_ok s os s' : c_ok s → crun s os = Some s' → c_ok s'.
Proof.
  revert s. induction os as [|o os IH]; intros s Hs; simpl; [by intros [= <-]|].
  intros (s1 & Ho & Hr)%bind_Some. eauto using cexec_ok.
Qed.

Lemma cexec_closed s o s' :
  cexec s o = Some s' → closed (client s) = true → closed (client s') = true.
Proof.
  intros Ho Hc. destruct o; simpl in Ho; try (by simplify_eq).
  - unfold close_action in Ho. apply bind_Some in Ho as (a & _ & [= <-]).
    destruct a; [destruct (closeCh (client s)) as [[]|]|]; done.
  - simplify_eq. unfold setConn. by rewrite Hc.
  - simplify_eq. unfold clearConn. by case_bool_decide.
  - simplify_eq. unfold run_init. by destruct (closeCh (client s)).
Qed.

Lemma crun_closed s os s' : crun s os = Some s' → closed (client s) = true → closed (client s') = true.
Proof.
  revert s. induction os as [|o os IH]; intros s; simpl; [by intros [= <-]|].
  intros (s1 & Ho & Hr)%bind_Some Hc. eauto using cexec_closed.
Qed.

Definition initial (c : Client) : cstate := mkC c [] [] false.

Lemma New_initial k c : New k = Ok c → c_ok (initial c) ∧ closed c = false.
Proof.
  unfold New. intros Hn. inv_ok. split; [|done]. constructor; simpl; try done.
Qed.

(** ** The theorems *)

(** C24. Closing is safe and final.  In any interleaving of any number of Close calls (also
    of what each still does after unlocking), of sessions that set, clear and close their
    connections and of Run: the close channel is never closed twice, the client never
    keeps a connection after a Close, and a connection a session hands over after a Close
    is closed on the spot. *)
Theorem Close_safe k c os s :
  New k = Ok c → crun (initial c) os = Some s →
  panicked s = false
  ∧ (isClosed s = true → conn (client s) = None ∧ ∀ n, n ∉ open (setConn s n))
  ∧ ∀ os' s', crun (Close s) os' = Some s' → isClosed s' = true ∧ conn (client s') = None.
Proof.
  intros Hn Hr. destruct (New_initial _ _ Hn) as [Hok _].
  pose proof (crun_ok _ _ _ Hok Hr) as Hs. split_and!.
  - apply Hs.
  - intros Hc. split; [by apply Hs|]. intros n. unfold setConn, isClosed in *. rewrite Hc. simpl.
    unfold close_conn. rewrite list_elem_of_filter. naive_solver.
  - intros os' s' Hr'. assert (isClosed s' = true) as Hc by (by eapply crun_closed).
    split; [done|]. by apply (ok_conn _ (crun_ok _ _ _ (Close_ok _ Hs) Hr')).
Qed.

(** [Run] gives up for two reasons only: it returns exactly when, after some number of
    sessions each followed by the whole backoff, the context has ended (then with the
    context's error) or the client was closed (then with nil); an error of a session never
    stops it. *)
Theorem Run_returns attempts r :
  Run attempts = Some r ↔
  ∃ before a after, attempts = before ++ a :: after
    ∧ Forall (λ a, a_ctx a = None ∧ a_closed a = false ∧ a_wait a = WaitTimer) before
    ∧ ((∃ e, (a_ctx a = Some e ∨ (a_ctx a = None ∧ a_closed a = false ∧ a_wait a = WaitCtx e))
             ∧ r = Some e)
       ∨ (a_ctx a = None ∧ (a_closed a = true ∨ a_wait a = WaitClosed) ∧ r = None)).
Proof.
  induction attempts as [|a l IH]; simpl.
  { split; [done|]. by intros ([|] & ? & ? & ? & _). }
  destruct (a_ctx a) as [e|] eqn:Hctx; [|destruct (a_closed a) eqn:Hcl; [|destruct (a_wait a) as [e| |] eqn:Hw]].
  - split.
    + intros [= <-]. exists [], a, l. split_and!; [done..|]. left. exists e. auto.
    + intros ([|b before] & a' & after & Heq & Hb & Ha); simplify_eq/=.
      * destruct Ha as [(e' & [?|(? & _)] & ->)|(? & _)]; congruence.
      * apply Forall_cons in Hb as [[? _] _]. congruence.
  - split.
    + intros [= <-]. exists [], a, l. split_and!; [done..|]. right. auto.
    + intros ([|b before] & a' & after & Heq & Hb & Ha); simplify_eq/=.
      * destruct Ha as [(e' & [?|(? & ? & _)] & ->)|(? & _ & ->)]; congruence.
      * apply Forall_cons in Hb as [(_ & ? & _) _]. congruence.
  - split.
    + intros [= <-]. exists [], a, l. split_and!; [done..|]. left. exists e. auto.
    + intros ([|b before] & a' & after & Heq & Hb & Ha); simplify_eq/=.
      * destruct Ha as [(e' & [?|(? & ? & ?)] & ->)|(? & [?|?] & _)]; congruence.
      * apply Forall_cons in Hb as [(_ & _ & ?) _]. congruence.
  - split.
    + intros [= <-]. exists [], a, l. split_and!; [done..|]. right. auto.
    + intros ([|b before] & a' & after & Heq & Hb & Ha); simplify_eq/=.
      * destruct Ha as [(e' & [?|(? & ? & ?)] & ->)|(? & [?|?] & ->)]; congruence.
      * apply Forall_cons in Hb as [(_ & _ & ?) _]. congruence.
  - rewrite IH. split.
    + intros (before & a' & after & -> & Hb & Ha). exists (a :: before), a', after.
      split_and!; [done|by constructor|done].
    + intros ([|b before] & a' & after & Heq & Hb & Ha); simplify_eq/=.
      * destruct Ha as [(e' & [?|(? & ? & ?)] & ->)|(? & [?|?] & ->)]; congruence.
      * apply Forall_cons in Hb as [_ Hb]. by exists before, a', after.
Qed.

Definition some_config : Config := mkConfig "edge:443" "" "demo-token" true false 0 0.

Example Close_safe_witness :
  ∃ c s, New some_config = Ok c
    ∧ crun (initial c) [OpDial 7; OpSetConn 7; OpClose; OpClose; OpAction 0] = Some s
    ∧ panicked s = false.
Proof.
  eexists _, _. split; [vm_compute; reflexivity|]. split; [vm_compute; reflexivity|].
  eapply (Close_safe some_config _ [OpDial 7; OpSetConn 7; OpClose; OpClose; OpAction 0]);
    vm_compute; reflexivity.
Defined.
End Client.
