(* ===== verification/Dial.v ===== *)
(** * tunnel: opening a session, from the dial to the registration.

    The part of [runSession] before its receive loop and its deferred calls, interleaved
    with calls of [Close], over the client state of Client.v; and [oneConnListener], the
    listener of one connection.  The receive loop itself is Session.v's: here it is one
    step with its result. *)

From S2P Require Import Prelude GoStrings Proto Channels Client.

Module Dial.
Import Client.

(** ** [oneConnListener] *)

(** A connection is its number. *)
Record oneConnListener := mkListener {
  l_ch : list nat;                (** chan, capacity 1 *)
  l_closed : bool;
  l_once : bool }.

Definition newOneConnListener (conn : nat) : oneConnListener := mkListener [conn] false false.

(** [None] blocks; [Err tt] is [net.ErrClosed]. *)
Definition Accept (l : oneConnListener) : option (oneConnListener * result unit nat) :=
  match l_ch l with
  | conn :: q => Some (mkListener q (l_closed l) (l_once l), Ok conn)
  | [] => if l_closed l then Some (l, Err tt) else None
  end.

Definition listener_Close (l : oneConnListener) : oneConnListener :=
  if l_once l then l else mkListener (l_ch l) true true.

(** The listener hands out its connection once, also when it has been closed meanwhile,
    then blocks until it is closed; closing twice is closing once. *)
Lemma oneConnListener_once conn :
  let l := newOneConnListener conn in
  (∃ l', Accept l = Some (l', Ok conn) ∧ Accept l' = None
     ∧ Accept (listener_Close l') = Some (listener_Close l', Err tt))
  ∧ (∃ l', Accept (listener_Close l) = Some (l', Ok conn) ∧ Accept l' = Some (l', Err tt))
  ∧ listener_Close (listener_Close l) = listener_Close l.
Proof. split_and!; [eexists; by split_and!|eexists; by split_and!|done]. Qed.

(** ** A session *)

Inductive dial_pc :=
| DIdle                                   (** between two sessions *)
| DReady (n : nat)                        (** inside [waitForConnReady] *)
| DSet (n : nat)
| DConnect (n : nat)
| DRegister (n : nat)
| DLoop (n : nat)
| DClear (n : nat) (e : option GoError)   (** the deferred [clearConn] *)
| DClose (n : nat) (e : option GoError)   (** the deferred [conn.Close] *)
| DReturn (e : option GoError).

(** [sent] is what the session has sent on its stream; [next] names the next
    connection. *)
Record dial := mkDial { d_client : cstate; d_pc : dial_pc; sent : list ClientFrame; next : nat }.

Inductive dlabel :=
| DStep (answer : option GoError)         (** what the call of the step returns *)
| DCloseCall                              (** a [Close] *)
| DCloseAction (i : nat).                 (** what a [Close] does after unlocking *)

Definition open_conn (s : cstate) (n : nat) : cstate :=
  mkC (client s) (n :: open s) (todo s) (panicked s).

Definition conn_close (s : cstate) (n : nat) : cstate :=
  mkC (client s) (close_conn (open s) n) (todo s) (panicked s).

Definition register_frame (s : cstate) : ClientFrame :=
  ClientFrame_Register (mkRegister (TunnelID (cfg (client s))) (Token (cfg (client s)))).

(** One step of [runSession]; a new session starts after one that has returned. *)
Definition session_step (d : dial) (answer : option GoError) : dial :=
  let s := d_client d in
  match d_pc d with
  | DIdle | DReturn _ =>
    match answer with
    | Some e => mkDial s (DReturn (Some e)) [] (next d)
    | None => mkDial (open_conn s (next d)) (DReady (next d)) [] (S (next d))
    end
  | DReady n =>
    mkDial s (match answer with Some e => DClose n (Some e) | None => DSet n end) (sent d) (next d)
  | DSet n => mkDial (setConn s n) (DConnect n) (sent d) (next d)
  | DConnect n =>
    mkDial s (match answer with Some e => DClear n (Some e) | None => DRegister n end) (sent d) (next d)
  | DRegister n =>
    mkDial s (match answer with Some e => DClear n (Some e) | None => DLoop n end)
      (sent d ++ [register_frame s]) (next d)
  | DLoop n => mkDial s (DClear n answer) (sent d) (next d)
  | DClear n e => mkDial (clearConn s n) (DClose n e) (sent d) (next d)
  | DClose n e => mkDial (conn_close s n) (DReturn e) (sent d) (next d)
  end.

Definition dexec (d : dial) (l : dlabel) : option dial :=
  match l with
  | DStep answer => Some (session_step d answer)
  | DCloseCall => Some (mkDial (Close (d_client d)) (d_pc d) (sent d) (next d))
  | DCloseAction i => s ← close_action (d_client d) i; Some (mkDial s (d_pc d) (sent d) (next d))
  end.

Fixpoint drun (d : dial) (ls : list dlabel) : option dial :=
  match ls with
  | [] => Some d
  | l :: ls => d ← dexec d l; drun d ls
  end.

Definition dial_init (c : Client) : dial := mkDial (initial c) DIdle [] 0.

(** ** Invariant *)

(** The connection a session may hold open. *)
Definition holds_conn (pc : dial_pc) : option nat :=
  match pc with
  | DIdle | DReturn _ => None
  | DReady n | DSet n | DConnect n | DRegister n | DLoop n | DClear n _ | DClose n _ => Some n
  end.

(** Where the client may hold the session's connection. *)
Definition may_set (pc : dial_pc) : option nat :=
  match pc with
  | DConnect n | DRegister n | DLoop n | DClear n _ => Some n
  | _ => None
  end.

Definition registered_sent (pc : dial_pc) (s : cstate) (fs : list ClientFrame) : Prop :=
  match pc with
  | DReady _ | DSet _ | DConnect _ | DRegister _ => fs = []
  | DLoop _ => fs = [register_frame s]
  | _ => fs = [] ∨ fs = [register_frame s]
  end.

Record dial_ok (d : dial) : Prop := {
  dial_open : ∀ n, n ∈ open (d_client d) → holds_conn (d_pc d) = Some n;
  dial_conn : ∀ n, conn (client (d_client d)) = Some n → may_set (d_pc d) = Some n;
  dial_sent : registered_sent (d_pc d) (d_client d) (sent d) }.

Lemma close_conn_elem l n m : m ∈ close_conn l n ↔ m ≠ n ∧ m ∈ l.
Proof. unfold close_conn. by rewrite list_elem_of_filter. Qed.

(** What [Close] does leaves the connections and the configuration. *)
Lemma close_action_keeps s i s' :
  close_action s i = Some s' →
  (∀ n, n ∈ open s' → n ∈ open s) ∧ conn (client s') = conn (client s)
  ∧ cfg (client s') = cfg (client s).
Proof.
  unfold close_action. intros (a & _ & [= <-])%bind_Some. destruct a as [|m].
  - destruct (closeCh (client s)) as [[]|]; by split_and!.
  - split_and!; [|done|done]. intros n. simpl. rewrite close_conn_elem. by intros [_ ?].
Qed.

Lemma registered_sent_cfg pc s s' fs :
  cfg (client s') = cfg (client s) → registered_sent pc s fs → registered_sent pc s' fs.
Proof. intros Hc. unfold registered_sent, register_frame. by rewrite Hc. Qed.

Lemma session_step_ok d answer : dial_ok d → dial_ok (session_step d answer).
Proof.
  intros [Ho Hc Hs]. unfold session_step.
  destruct (d_pc d) as [|n|n|n|n|n|n e|n e|e] eqn:Hpc; simpl in *.
  - destruct answer; constructor; simpl; auto.
    by intros n [->|Hn%Ho]%elem_of_cons.
  - destruct answer; constructor; simpl; auto.
  - unfold setConn. destruct (closed (client (d_client d))) eqn:Ec; constructor; simpl; auto.
    + intros m. rewrite close_conn_elem. intros [_ Hm]. auto.
    + intros m Hm. by apply Hc in Hm.
  - destruct answer; constructor; simpl; auto.
  - rewrite Hs. destruct answer; constructor; simpl; auto.
  - constructor; simpl; auto.
  - unfold clearConn. case_bool_decide as Hn; constructor; simpl; auto; try done.
    intros m Hm. exfalso. apply Hn. rewrite Hm. f_equal. apply Hc in Hm. congruence.
  - constructor; simpl; auto.
    intros m. rewrite close_conn_elem. intros [Hne Hm%Ho]. congruence.
  - destruct answer; constructor; simpl; auto.
    by intros n [->|Hn%Ho]%elem_of_cons.
Qed.

Lemma dexec_ok d l d' : dial_ok d → dexec d l = Some d' → dial_ok d'.
Proof.
  intros Hd. destruct l as [answer| |i]; simpl.
  - intros [= <-]. by apply session_step_ok.
  - intros [= <-]. destruct Hd. by constructor.
  - intros (s & Hs%close_action_keeps & [= <-])%bind_Some. destruct Hs as (Ho & Hc & Hcfg).
    destruct Hd as [Hdo Hdc Hds]. constructor; simpl.
    + intros n Hn. auto.
    + intros n. rewrite Hc. auto.
    + by eapply registered_sent_cfg.
Qed.

Lemma drun_ok d ls d' : dial_ok d → drun d ls = Some d' → dial_ok d'.
Proof.
  revert d. induction ls as [|l ls IH]; intros d Hd; simpl; [by intros [= <-]|].
  intros (d1 & Hl & Hr)%bind_Some. eauto using dexec_ok.
Qed.

Lemma Close_keeps_cfg s : cfg (client (Close s)) = cfg (client s).
Proof. done. Qed.

Lemma dexec_cfg d l d' : dexec d l = Some d' → cfg (client (d_client d')) = cfg (client (d_client d)).
Proof.
  destruct l as [answer| |i]; simpl.
  - intros [= <-]. unfold session_step, setConn, clearConn.
    destruct (d_pc d); simpl; try destruct answer; repeat case_match; done.
  - by intros [= <-].
  - intros (s & (_ & _ & Hs)%close_action_keeps & [= <-])%bind_Some. done.
Qed.

Lemma drun_cfg d ls d' : drun d ls = Some d' → cfg (client (d_client d')) = cfg (client (d_client d)).
Proof.
  revert d. induction ls as [|l ls IH]; intros d; simpl; [by intros [= <-]|].
  intros (d1 & Hl%dexec_cfg & Hr%IH)%bind_Some. congruence.
Qed.


(** ** A session that is closed while it dials *)

Definition some_config : Config := mkConfig "edge.example.com:443" "" "demo-token" true false 0 0.

Definition closed_meanwhile : list dlabel :=
  [DStep None; DStep None; DCloseCall; DStep None; DStep (Some ErrClosedPipe); DCloseAction 0].

End Dial.
