(* ===== verification/Session.v ===== *)
(** * tunnel: one session of the client.

    The receive loop of [runSession], the goroutines it starts ([serveRequest],
    [handleWebSocket] and its reader) and what they share: the maps [inflight] and
    [wsInbound], a pipe per request body and a channel per WebSocket.  As for the edge, a
    step is a critical section, a channel or pipe operation or a call to the outside, and
    [exec] runs one labelled step.

    The handler is the user's: [answer i n] is what the [n]-th [send] of goroutine [i]
    returns, and its reads and calls are labels.  [parse_url] is what [net/url] says about
    a request's URL. *)

From S2P Require Import Prelude GoStrings Proto Headers Channels ResponseWriter Url.

Module Session.

(** ** [io.Pipe] *)

(** The errors of the two ends; the first one of each counts.  The done channel is closed
    when either is set. *)
Record pipe := mkPipe { p_werr : option GoError; p_rerr : option GoError }.

Definition p_done (p : pipe) : bool :=
  bool_decide (p_werr p ≠ None) || bool_decide (p_rerr p ≠ None).

Definition first_err (old : option GoError) (e : GoError) : option GoError := Some (default e old).

(** [PipeWriter.CloseWithError]; [Close] passes [EOF]. *)
Definition closeWrite (p : pipe) (e : GoError) : pipe := mkPipe (first_err (p_werr p) e) (p_rerr p).
(** [PipeReader.CloseWithError]; [Close] passes [ErrClosedPipe]. *)
Definition closeRead (p : pipe) (e : GoError) : pipe := mkPipe (p_werr p) (first_err (p_rerr p) e).

Definition readCloseError (p : pipe) : GoError :=
  match p_rerr p, p_werr p with
  | None, Some e => e
  | _, _ => ErrClosedPipe
  end.

(** ** Data *)

Record inflightRequest := mkIR { ir_cancelled : bool; ir_pipe : pipe }.

Definition wsQueueDepth : nat := 16.
Record wsChan := mkChan { ch_queue : list string; ch_closed : bool }.

Record state := mkState {
  ctx : option GoError;             (** the context of [Run] *)
  inflight : gmap string nat;
  wsInbound : gmap string nat;
  irH : list inflightRequest;
  chH : list wsChan;
  panicked : bool }.

Definition set_inflight (s : state) (m : gmap string nat) : state :=
  mkState (ctx s) m (wsInbound s) (irH s) (chH s) (panicked s).
Definition set_wsInbound (s : state) (m : gmap string nat) : state :=
  mkState (ctx s) (inflight s) m (irH s) (chH s) (panicked s).
Definition set_irH (s : state) (h : list inflightRequest) : state :=
  mkState (ctx s) (inflight s) (wsInbound s) h (chH s) (panicked s).
Definition set_chH (s : state) (h : list wsChan) : state :=
  mkState (ctx s) (inflight s) (wsInbound s) (irH s) h (panicked s).
Definition set_panicked (s : state) : state :=
  mkState (ctx s) (inflight s) (wsInbound s) (irH s) (chH s) true.

Definition cancel (r : inflightRequest) : inflightRequest := mkIR true (ir_pipe r).
Definition on_pipe (f : pipe → pipe) (r : inflightRequest) : inflightRequest :=
  mkIR (ir_cancelled r) (f (ir_pipe r)).
Definition upd_ir (s : state) (r : nat) (f : inflightRequest → inflightRequest) : state :=
  set_irH s (alter f r (irH s)).

(** [close(ch)] and [ch <- x] panic on a closed channel. *)
Definition close_chan (s : state) (c : nat) : option state :=
  ch ← chH s !! c;
  Some (if ch_closed ch then set_panicked s
        else set_chH s (<[c := mkChan (ch_queue ch) true]> (chH s))).

Definition send_chan (s : state) (c : nat) (x : string) : option state :=
  ch ← chH s !! c;
  if ch_closed ch then Some (set_panicked s)
  else q ← chan_send wsQueueDepth (ch_queue ch) x;
       Some (set_chH s (<[c := mkChan q false]> (chH s))).

(** ** Threads *)

Inductive loop_pc :=
| LRecv
| LBody (r : nat) (rest : string)     (** inside [bodyW.Write] *)
| LWs (c : nat) (payload : string)    (** inside [dispatchWSInbound] *)
| LTeardown (e : option GoError)
| LEnd (e : option GoError).

(** The deferred calls of [serveRequest], last registered first. *)
Inductive serve_pc :=
| SRun
| SEnd (panic : option string)
| SCloseBody
| SCancel
| SDelete
| SDone.

Inductive ws_pc :=
| WDial
| WRefused (body : list (string * bool))   (** reads of the response body *)
| WLoop (reader : nat)
| WWrite (reader : nat) (payload : string)
| WWaitReader (reader : nat)
| WDelete
| WDone.

Inductive thread :=
| TLoop (pongs : list ClientFrame) (pc : loop_pc)
(** [got] is what the handler has read of the body, [rerr] the error a read returned. *)
| TServe (start : RequestStart) (r : nat) (w : tunnelResponseWriter) (got : string)
    (rerr : option GoError) (pc : serve_pc)
| TWs (start : RequestStart) (c : nat) (sent : list ClientFrame) (pc : ws_pc)
| TWsRead (id : string) (sent : list ClientFrame) (running : bool).

Inductive choice :=
| Go
| OnSend | OnCtx | OnDone | OnReadDone | OnInbound
| Recv (f : ServerFrame)
| RecvErr (e : GoError)
| HOp (o : hop)                        (** a call on the response writer *)
| HReadErr                             (** a read of a closed body *)
| HReturn (panic : option string)
| WsErr (msg : string)                 (** the request or the response failed *)
| WsResponse (status : Z) (h : HttpHeader) (body : option (list (string * bool)))
| IO (ok : bool)
| Read (data : string) (err : bool).

Section session.
Context `{UnicodeData} (answer : nat → nat → option GoError) (parse_url : string → option string).

(** [http.NewRequest]'s errors: a method that is not a token, or the URL. *)
Definition validMethod (m : string) : bool :=
  bool_decide (m = "") || string_forall validHeaderFieldByte m.

Definition newRequest_err (start : RequestStart) : option string :=
  if validMethod (Method start) then parse_url (requestURL start)
  else Some ("net/http: invalid method " +:+ Method start).

(** A [send] outside a response writer: the frames so far and the result. *)
Definition send_frame (self : nat) (sent : list ClientFrame) (f : ClientFrame)
    : list ClientFrame * option GoError := (sent ++ [f], answer self (length sent)).

(** ** The receive loop *)

(** The deferred function of [runSession]. *)
Definition teardown_ir (h : list inflightRequest) (r : nat) : list inflightRequest :=
  alter (λ x, on_pipe (λ p, closeRead (closeWrite p errSessionEnded) errSessionEnded) (cancel x)) r h.

Definition teardown (s : state) : option state :=
  let s := set_inflight (set_irH s (foldl teardown_ir (irH s) (map_to_list (inflight s)).*2)) ∅ in
  foldl (λ o c, s ← o; close_chan s c) (Some s) (map_to_list (wsInbound s)).*2.

(** One frame: the state, where the loop goes on, a goroutine it starts. *)
Definition handle_start (s : state) (self : nat) (sent : list ClientFrame) (start : RequestStart)
    : state * list ClientFrame * list thread :=
  let id := rs_RequestId start in
  if isWebSocketUpgrade start then
    let c := length (chH s) in
    (set_wsInbound (set_chH s (chH s ++ [mkChan [] false])) (<[id := c]> (wsInbound s)), sent,
     [TWs start c [] WDial])
  else
    match newRequest_err start with
    | Some msg => (s, (send_frame self sent (ClientFrame_ResponseError id msg)).1, [])
    | None =>
      let r := length (irH s) in
      (set_inflight (set_irH s (irH s ++ [mkIR false (mkPipe None None)])) (<[id := r]> (inflight s)),
       sent, [TServe start r (newTunnelResponseWriter id) "" None SRun])
    end.

Definition handle_frame (s : state) (self : nat) (sent : list ClientFrame) (f : ServerFrame)
    : option (state * list ClientFrame * loop_pc * list thread) :=
  match f with
  | ServerFrame_RequestStart start =>
    let '(s, sent, new) := handle_start s self sent start in Some (s, sent, LRecv, new)
  | ServerFrame_RequestBody id chunk =>
    match inflight s !! id with
    | None => Some (s, sent, LRecv, [])
    | Some r =>
      x ← irH s !! r;
      Some (s, sent, if p_done (ir_pipe x) then LRecv else LBody r chunk, [])
    end
  | ServerFrame_RequestEnd id =>
    Some (match inflight s !! id with
          | None => s
          | Some r => upd_ir s r (on_pipe (λ p, closeWrite p EOF))
          end, sent, LRecv, [])
  | ServerFrame_CancelRequest id =>
    Some (match inflight s !! id with
          | None => s
          | Some r => upd_ir s r (λ x, on_pipe (λ p, closeWrite p ContextCanceled) (cancel x))
          end, sent, LRecv, [])
  | ServerFrame_WsData id payload =>
    Some (s, sent, match wsInbound s !! id with Some c => LWs c payload | None => LRecv end, [])
  | ServerFrame_WsClose id =>
    match wsInbound s !! id with
    | None => Some (s, sent, LRecv, [])
    | Some c =>
      s ← close_chan (set_wsInbound s (delete id (wsInbound s))) c; Some (s, sent, LRecv, [])
    end
  | ServerFrame_Ping nano =>
    let '(sent, err) := send_frame self sent (ClientFrame_Pong nano) in
    Some (s, sent, match err with Some e => LTeardown (Some e) | None => LRecv end, [])
  | ServerFrame_Empty => Some (s, sent, LRecv, [])
  end.

Definition loop_step (s : state) (self : nat) (sent : list ClientFrame) (pc : loop_pc) (c : choice)
    : option (state * list ClientFrame * loop_pc * list thread) :=
  match pc, c with
  | LRecv, Recv f => handle_frame s self sent f
  | LRecv, RecvErr e =>
    Some (s, sent, LTeardown (if errors_Is e (Some EOF) then None else Some e), [])
  | LBody r rest, OnDone =>
    x ← irH s !! r; if p_done (ir_pipe x) then Some (s, sent, LRecv, []) else None
  | LWs ch payload, OnSend => s ← send_chan s ch payload; Some (s, sent, LRecv, [])
  | LWs ch payload, OnCtx => e ← ctx s; Some (s, sent, LTeardown (Some e), [])
  | LTeardown e, Go => s ← teardown s; Some (s, sent, LEnd e, [])
  | _, _ => None
  end.

(** ** [serveRequest] *)

Definition serve_step (s : state) (self : nat) (start : RequestStart) (r : nat)
    (w : tunnelResponseWriter) (rerr : option GoError) (pc : serve_pc) (c : choice)
    : option (state * tunnelResponseWriter * option GoError * serve_pc) :=
  match pc, c with
  | SRun, HOp o => Some (s, do_op (answer self) w o, rerr, SRun)
  | SRun, HReadErr =>
    x ← irH s !! r;
    if p_done (ir_pipe x) then Some (s, w, Some (readCloseError (ir_pipe x)), SRun) else None
  | SRun, HReturn panic => Some (s, w, rerr, SEnd panic)
  | SEnd panic, Go =>
    Some (s, match panic with
             | Some msg => (Fail (answer self) w (Some ("panic while serving request: " +:+ msg))).1
             | None => (Finish (answer self) w).1
             end, rerr, SCloseBody)
  | SCloseBody, Go => Some (upd_ir s r (on_pipe (λ p, closeRead p ErrClosedPipe)), w, rerr, SCancel)
  | SCancel, Go => Some (upd_ir s r cancel, w, rerr, SDelete)
  | SDelete, Go => Some (set_inflight s (delete (rs_RequestId start) (inflight s)), w, rerr, SDone)
  | _, _ => None
  end.

(** ** [handleWebSocket] *)

Definition ws_step (s : state) (self next : nat) (reader_done : nat → bool) (start : RequestStart)
    (ch : nat) (sent : list ClientFrame) (pc : ws_pc) (c : choice)
    : option (state * list ClientFrame * ws_pc * list thread) :=
  let id := rs_RequestId start in
  match pc, c with
  | WDial, WsErr msg =>
    Some (s, (send_frame self sent (ClientFrame_ResponseError id msg)).1, WDelete, [])
  | WDial, WsResponse status h body =>
    let '(sent, err) := send_frame self sent
      (ClientFrame_ResponseStart (mkResponseStart id (wrap_i32 status) (ToProto h))) in
    Some (s, sent,
          match err with
          | Some _ => WDelete
          | None => if (status =? 101)%Z then WLoop next else WRefused (default [] body)
          end,
          match err with
          | None => if (status =? 101)%Z then [TWsRead id [] true] else []
          | Some _ => []
          end)
  | WRefused [], Go => Some (s, (send_frame self sent (ClientFrame_ResponseEnd id)).1, WDelete, [])
  | WRefused ((data, failed) :: reads), Go =>
    let reads := if failed : bool then [] else reads in
    if bool_decide (data = "") then Some (s, sent, WRefused reads, [])
    else
      let '(sent, err) := send_frame self sent (ClientFrame_ResponseBody id data) in
      Some (s, sent, match err with Some _ => WDelete | None => WRefused reads end, [])
  | WLoop reader, OnInbound =>
    x ← chH s !! ch;
    match chan_recv (ch_queue x) with
    | Some (payload, q) =>
      Some (set_chH s (<[ch := mkChan q (ch_closed x)]> (chH s)), sent, WWrite reader payload, [])
    | None => if ch_closed x then Some (s, sent, WWaitReader reader, []) else None
    end
  | WLoop reader, OnReadDone => if reader_done reader then Some (s, sent, WDelete, []) else None
  | WLoop reader, OnCtx => _ ← ctx s; Some (s, sent, WDelete, [])
  | WWrite reader payload, IO ok => Some (s, sent, if ok : bool then WLoop reader else WDelete, [])
  | WWaitReader reader, OnReadDone =>
    if reader_done reader then Some (s, sent, WDelete, []) else None
  | WDelete, Go => Some (set_wsInbound s (delete id (wsInbound s)), sent, WDone, [])
  | _, _ => None
  end.

Definition read_step (self : nat) (id : string) (sent : list ClientFrame) (running : bool)
    (c : choice) : option (list ClientFrame * bool) :=
  match running, c with
  | true, Read data err =>
    let '(sent, e) := if bool_decide (data = "") then (sent, None)
                      else send_frame self sent (ClientFrame_WsData id data) in
    Some (match e with
          | Some _ => (sent, false)
          | None => if err : bool then ((send_frame self sent (ClientFrame_WsClose id)).1, false)
                    else (sent, true)
          end)
  | _, _ => None
  end.

(** ** The session *)

Record world := mkWorld { st : state; threads : list thread }.

Inductive label :=
| LStep (i : nat) (c : choice)
(** The handler of goroutine [i] reads at most [n] bytes of what the loop [l] writes. *)
| LRead (l i n : nat)
| LCancel (e : GoError).

Definition reader_done (ts : list thread) (i : nat) : bool :=
  match ts !! i with Some (TWsRead _ _ false) => true | _ => false end.

Definition string_take (n : nat) (s : string) : string := String.substring 0 n s.

Definition thread_step (s : state) (ts : list thread) (i : nat) (t : thread) (c : choice)
    : option (state * thread * list thread) :=
  match t with
  | TLoop sent pc =>
    '(s, sent, pc, new) ← loop_step s i sent pc c; Some (s, TLoop sent pc, new)
  | TServe start r w got rerr pc =>
    '(s, w, rerr, pc) ← serve_step s i start r w rerr pc c; Some (s, TServe start r w got rerr pc, [])
  | TWs start ch sent pc =>
    '(s, sent, pc, new) ← ws_step s i (length ts) (reader_done ts) start ch sent pc c;
    Some (s, TWs start ch sent pc, new)
  | TWsRead id sent running =>
    '(sent, running) ← read_step i id sent running c; Some (s, TWsRead id sent running, [])
  end.

Definition exec (w : world) (l : label) : option world :=
  match l with
  | LStep i c =>
    t ← threads w !! i;
    '(s, t, new) ← thread_step (st w) (threads w) i t c;
    Some (mkWorld s (<[i := t]> (threads w) ++ new))
  | LRead l i n =>
    match threads w !! l, threads w !! i with
    | Some (TLoop sent (LBody r rest)), Some (TServe start r' wr got rerr SRun) =>
      x ← irH (st w) !! r;
      if bool_decide (r = r') && negb (p_done (ir_pipe x)) then
        let left := string_drop n rest in
        Some (mkWorld (st w)
                (<[i := TServe start r' wr (got +:+ string_take n rest) rerr SRun]>
                   (<[l := TLoop sent (if bool_decide (left = "") then LRecv else LBody r left)]>
                      (threads w))))
      else None
    | _, _ => None
    end
  | LCancel e =>
    match ctx (st w) with
    | Some _ => None
    | None =>
      let s := st w in
      Some (mkWorld (mkState (Some e) (inflight s) (wsInbound s) (irH s) (chH s) (panicked s))
              (threads w))
    end
  end.

Fixpoint run (w : world) (ls : list label) : option world :=
  match ls with
  | [] => Some w
  | l :: ls => w ← exec w l; run w ls
  end.

(** [runSession] once the register frame has been sent. *)
Definition init_world : world :=
  mkWorld (mkState None ∅ ∅ [] [] false) [TLoop [] LRecv].


(** ** No channel is closed twice or sent on after it is closed *)

Definition loop_at (w : world) (pc : loop_pc) : Prop := ∃ sent, threads w !! 0 = Some (TLoop sent pc).

Definition open_chan (s : state) (c : nat) : Prop :=
  ∃ x, chH s !! c = Some x ∧ ch_closed x = false.

Record ws_ok (s : state) (pc : loop_pc) : Prop := {
  ws_panic : panicked s = false;
  ws_inj : ∀ id id' c, wsInbound s !! id = Some c → wsInbound s !! id' = Some c → id = id';
  ws_len : ∀ id c, wsInbound s !! id = Some c → c < length (chH s);
  ws_open : ∀ id c, (∀ e, pc ≠ LEnd e) → wsInbound s !! id = Some c → open_chan s c;
  ws_sending : ∀ c p, pc = LWs c p → open_chan s c }.

Lemma ws_ok_same s s' pc pc' :
  panicked s' = panicked s → wsInbound s' = wsInbound s → chH s' = chH s →
  ((∀ e, pc' ≠ LEnd e) → ∀ e, pc ≠ LEnd e) → (∀ c p, pc' = LWs c p → open_chan s c) →
  ws_ok s pc → ws_ok s' pc'.
Proof.
  intros Hp Hw Hc Hend Hsend [H1 H2 H3 H4 H5]. unfold open_chan in *.
  constructor; unfold open_chan; rewrite ?Hp, ?Hw, ?Hc; try done. intros id c Hne. eauto.
Qed.

Lemma close_chan_open s c s' :
  close_chan s c = Some s' → open_chan s c →
  s' = set_chH s (chH s') ∧ length (chH s') = length (chH s)
  ∧ ∀ d, d ≠ c → chH s' !! d = chH s !! d.
Proof.
  unfold close_chan. intros (x & Hx & [= <-])%bind_Some (y & Hy & Ho). simplify_eq. rewrite Ho. simpl.
  split_and!; [done|by rewrite length_insert|]. intros d Hd. by apply list_lookup_insert_ne.
Qed.

Lemma close_all_open l s s' :
  NoDup l → Forall (open_chan s) l →
  foldl (λ o c, s ← o; close_chan s c) (Some s) l = Some s' →
  s' = set_chH s (chH s') ∧ length (chH s') = length (chH s).
Proof.
  revert s. induction l as [|c l IH]; intros s Hnd Ho; simpl.
  { intros [= <-]. by destruct s. }
  apply NoDup_cons in Hnd as [Hc Hnd]. apply Forall_cons in Ho as [Hoc Ho].
  destruct (close_chan s c) as [s1|] eqn:Hs1; simpl.
  - destruct (close_chan_open _ _ _ Hs1 Hoc) as (Heq & Hlen & Hne). intros Hf.
    assert (Forall (open_chan s1) l) as Ho1.
    { rewrite Forall_forall in *. intros d Hd. destruct (Ho d Hd) as (x & Hx & ?).
      exists x. rewrite Hne; [done|]. by intros ->. }
    destruct (IH s1 Hnd Ho1 Hf) as [Heq' Hlen']. split; [|congruence].
    rewrite Heq'. rewrite Heq. by destruct s.
  - intros Hf. exfalso. clear -Hf. induction l as [|d l IH]; [done|]. simpl in Hf. auto.
Qed.

Lemma ws_ok_close s id c s' :
  ws_ok s LRecv → wsInbound s !! id = Some c →
  close_chan (set_wsInbound s (delete id (wsInbound s))) c = Some s' → ws_ok s' LRecv.
Proof.
  intros [H1 H2 H3 H4 H5] Hid Hc.
  assert (open_chan s c) as Ho by (by eapply H4).
  destruct (close_chan_open _ _ _ Hc Ho) as (Heq & Hlen & Hne).
  rewrite Heq. constructor; simpl; try done.
  - intros i j d [_ Hi]%lookup_delete_Some [_ Hj]%lookup_delete_Some. eauto.
  - intros i d [_ Hi]%lookup_delete_Some. rewrite Hlen. eauto.
  - intros i d _ [Hne' Hi]%lookup_delete_Some. unfold open_chan. simpl.
    rewrite Hne; [by eapply H4|]. intros ->. by apply Hne'; eapply H2.
Qed.

Lemma teardown_ws s e s' :
  ws_ok s (LTeardown e) → teardown s = Some s' → ws_ok s' (LEnd e).
Proof.
  intros [H1 H2 H3 H4 H5] Ht. unfold teardown in Ht.
  apply close_all_open in Ht as [-> Hlen].
  - constructor; simpl in *; try done.
    + intros id c Hc. rewrite Hlen. eauto.
    + intros id c Hne. by destruct (Hne e).
  - simpl. apply NoDup_fmap_2_strong.
    + intros [i c] [j d] Hi Hj ?. simpl in *. subst d.
      rewrite elem_of_map_to_list in Hi, Hj. by rewrite (H2 _ _ _ Hi Hj).
    + apply NoDup_map_to_list.
  - rewrite Forall_forall. intros c ([i d] & -> & Hi)%list_elem_of_fmap. simpl.
    rewrite elem_of_map_to_list in Hi. by eapply (H4 i).
Qed.

Lemma ws_ok_alloc s id :
  ws_ok s LRecv →
  ws_ok (set_wsInbound (set_chH s (chH s ++ [mkChan [] false])) (<[id := length (chH s)]> (wsInbound s)))
    LRecv.
Proof.
  intros [H1 H2 H3 H4 H5]. constructor; simpl; try done.
  - intros i j c [[<- <-]|[? Hi]]%lookup_insert_Some [[<- Hj]|[? Hj]]%lookup_insert_Some; try done.
    + apply H3 in Hj. lia.
    + subst. apply H3 in Hi. lia.
    + eauto.
  - intros i c. rewrite length_app. simpl. intros [[<- <-]|[? Hi]]%lookup_insert_Some; [lia|].
    apply H3 in Hi. lia.
  - intros i c Hne [[<- <-]|[? Hi]]%lookup_insert_Some.
    + exists (mkChan [] false). split; [by apply list_lookup_middle|done].
    + destruct (H4 i c Hne Hi) as (x & ? & ?). exists x. split; [by apply lookup_app_l_Some|done].
Qed.

Lemma ws_ok_update s pc ch x y :
  chH s !! ch = Some x → ch_closed y = ch_closed x →
  ws_ok s pc → ws_ok (set_chH s (<[ch := y]> (chH s))) pc.
Proof.
  intros Hx Hy [H1 H2 H3 H4 H5].
  assert (∀ c, open_chan s c → open_chan (set_chH s (<[ch := y]> (chH s))) c) as Ho.
  { intros c (z & Hz & Hc). unfold open_chan. simpl. destruct (decide (ch = c)) as [->|Hne].
    - exists y. rewrite list_lookup_insert_eq by (by eapply lookup_lt_Some). split; [done|congruence].
    - exists z. by rewrite list_lookup_insert_ne. }
  constructor; simpl; try done; [intros; rewrite length_insert; eauto|eauto..].
Qed.

Lemma ws_ok_delete s pc id : ws_ok s pc → ws_ok (set_wsInbound s (delete id (wsInbound s))) pc.
Proof.
  intros [H1 H2 H3 H4 H5]. constructor; simpl; try done.
  - intros i j c [_ Hi]%lookup_delete_Some [_ Hj]%lookup_delete_Some. eauto.
  - intros i c [_ Hi]%lookup_delete_Some. eauto.
  - intros i c Hne [_ Hi]%lookup_delete_Some. by eapply H4.
Qed.

Lemma handle_frame_ws s self sent f s' sent' pc' new :
  ws_ok s LRecv → handle_frame s self sent f = Some (s', sent', pc', new) → ws_ok s' pc'.
Proof.
  intros Hok Hf.
  assert (∀ s1 pc1, panicked s1 = panicked s → wsInbound s1 = wsInbound s → chH s1 = chH s →
    (∀ c p, pc1 ≠ LWs c p) → (∀ e, pc1 ≠ LEnd e) → ws_ok s1 pc1) as Hsame.
  { intros s1 pc1 ??? Hn He. apply (ws_ok_same s _ LRecv); [done..|by intros c p ?%Hn|done]. }
  destruct f as [start|id chunk|id|id|nano|id payload|id|]; cbn [handle_frame] in Hf.
  - unfold handle_start in Hf. destruct (isWebSocketUpgrade start); simplify_eq.
    + by apply ws_ok_alloc.
    + destruct (newRequest_err start); simplify_eq; by apply Hsame.
  - destruct (inflight s !! id); [|simplify_eq; by apply Hsame].
    apply bind_Some in Hf as (x & _ & Hf). simplify_eq. destruct (p_done _); by apply Hsame.
  - destruct (inflight s !! id); simplify_eq; by apply Hsame.
  - destruct (inflight s !! id); simplify_eq; by apply Hsame.
  - unfold send_frame in Hf. destruct (answer self (length sent)); simplify_eq; by apply Hsame.
  - simplify_eq. destruct (wsInbound s' !! id) as [c|] eqn:Hid; [|done].
    apply (ws_ok_same s' _ LRecv); try done. intros d p ?. simplify_eq. by eapply ws_open.
  - destruct (wsInbound s !! id) as [c|] eqn:Hid; [|by simplify_eq].
    apply bind_Some in Hf as (s1 & Hc & Hf). simplify_eq. by eapply ws_ok_close.
  - by simplify_eq.
Qed.

Lemma loop_step_ws s self sent pc c s' sent' pc' new :
  ws_ok s pc → loop_step s self sent pc c = Some (s', sent', pc', new) → ws_ok s' pc'.
Proof.
  intros Hok Hs. destruct pc as [|r rest|ch payload|e|e], c; try done; cbn [loop_step] in Hs.
  - by eapply handle_frame_ws.
  - simplify_eq. by apply (ws_ok_same s' _ LRecv).
  - apply bind_Some in Hs as (x & _ & Hs). case_match; simplify_eq.
    by apply (ws_ok_same s' _ (LBody r rest)).
  - apply bind_Some in Hs as (s1 & Hsend & Hs). simplify_eq.
    destruct (ws_sending _ _ Hok _ _ eq_refl) as (x & Hx & Ho).
    unfold send_chan in Hsend. rewrite Hx in Hsend. simpl in Hsend. rewrite Ho in Hsend.
    apply bind_Some in Hsend as (q & _ & [= <-]).
    eapply (ws_ok_same _ _ (LWs ch payload)); try done. by eapply ws_ok_update.
  - apply bind_Some in Hs as (e & _ & Hs). simplify_eq.
    by apply (ws_ok_same s' _ (LWs ch payload)).
  - apply bind_Some in Hs as (s1 & Ht & Hs). simplify_eq. by eapply teardown_ws.
Qed.

(** The goroutines other than the loop. *)
Lemma thread_step_ws s ts i t c s' t' new pc :
  ws_ok s pc → (∀ sent pc, t ≠ TLoop sent pc) → thread_step s ts i t c = Some (s', t', new) →
  ws_ok s' pc.
Proof.
  intros Hok Hn Hs.
  assert (∀ s1, panicked s1 = panicked s → wsInbound s1 = wsInbound s → chH s1 = chH s → ws_ok s1 pc)
    as Hsame.
  { intros s1 ???. apply (ws_ok_same s _ pc); try done. by apply Hok. }
  destruct t as [sent pc0|start r w got rerr pc0|start ch sent pc0|id sent running];
    [by edestruct Hn| | |]; cbn [thread_step] in Hs; apply bind_Some in Hs as (x & Hs & Heq);
    repeat case_match; simplify_eq.
  - destruct pc0, c; try done; cbn [serve_step] in Hs; simplify_eq; try (by apply Hsame).
    apply bind_Some in Hs as (x & _ & Hs). case_match; simplify_eq; by apply Hsame.
  - destruct pc0 as [|[|[data failed] reads]| | | | |], c; try done; cbn [ws_step] in Hs;
      unfold send_frame in Hs; simplify_eq; try (by apply Hsame); try (by apply ws_ok_delete);
      try (by open_step).
    apply bind_Some in Hs as (x & Hx & Hs).
    destruct (chan_recv (ch_queue x)) as [[payload q]|]; [|case_match]; simplify_eq; [|done].
    by eapply ws_ok_update.
  - by apply Hsame.
Qed.

(** *** The world *)

Record sess_ok (w : world) : Prop := {
  sess_loop : ∃ sent pc, threads w !! 0 = Some (TLoop sent pc) ∧ ws_ok (st w) pc;
  sess_only : ∀ i sent pc, threads w !! i = Some (TLoop sent pc) → i = 0 }.

Lemma thread_step_new s ts i t c s' t' new :
  thread_step s ts i t c = Some (s', t', new) →
  Forall (λ t, ∀ sent pc, t ≠ TLoop sent pc) new
  ∧ ((∃ sent pc, t = TLoop sent pc) ↔ (∃ sent pc, t' = TLoop sent pc)).
Proof.
  intros Hs. destruct t; cbn [thread_step] in Hs; apply bind_Some in Hs as (x & Hs & Heq);
    repeat case_match; simplify_eq; (split; [|naive_solver]); try constructor.
  - destruct pc, c; try done; cbn [loop_step] in Hs; try (open_step; constructor; done).
    destruct f; cbn [handle_frame] in Hs; try (open_step; constructor; done).
    unfold handle_start in Hs. repeat case_match; simplify_eq; repeat constructor; done.
  - destruct pc as [|[|[data failed] reads]| | | | |], c; try done; cbn [ws_step] in Hs;
      try (open_step; constructor; done).
    + unfold send_frame in Hs. repeat case_match; simplify_eq; repeat constructor; done.
Qed.

Lemma lookup_snoc_not_loop (ts new : list thread) i sent pc :
  Forall (λ t, ∀ sent pc, t ≠ TLoop sent pc) new →
  (ts ++ new) !! i = Some (TLoop sent pc) → ts !! i = Some (TLoop sent pc).
Proof.
  intros Hn [Hi|[_ Hi]]%lookup_app_Some; [done|].
  eapply Forall_lookup_1 in Hn; [|exact Hi]. by edestruct Hn.
Qed.

Lemma sess_ok_step w l w' : sess_ok w → exec w l = Some w' → sess_ok w'.
Proof.
  intros [(sent & pc & H0 & Hok) Honly] Hl. destruct l as [i c|l i n|e]; cbn [exec] in Hl.
  - apply bind_Some in Hl as (t & Hi & ([[s' t'] new] & Hs & [= <-])%bind_Some).
    destruct (thread_step_new _ _ _ _ _ _ _ _ Hs) as [Hnew Hiff].
    assert (0 < length (threads w)) as Hlen by (by eapply lookup_lt_Some).
    split; simpl.
    + destruct (decide (i = 0)) as [->|Hne].
      * simplify_eq. cbn [thread_step] in Hs.
        apply bind_Some in Hs as ([[[s1 sent1] pc1] n1] & Hs & Heq). simplify_eq.
        exists sent1, pc1. split; [|by eapply loop_step_ws].
        apply lookup_app_l_Some. by apply list_lookup_insert_eq.
      * exists sent, pc. split; [apply lookup_app_l_Some; by rewrite list_lookup_insert_ne|].
        eapply thread_step_ws; [done| |done]. intros sent1 pc1 ->. by apply Hne, (Honly i sent1 pc1).
    + intros j sent1 pc1 Hj%lookup_snoc_not_loop; [|done].
      apply insert_lookup_cases in Hj as [(<- & Heq & _)|[_ Hj]]; [|by eapply Honly].
      destruct Hiff as [_ (sent2 & pc2 & ->)]; [by eauto|]. by eapply Honly.
  - destruct (threads w !! l) as [[sent1 [| r rest | | |]| | |]|] eqn:Hl'; try done.
    destruct (threads w !! i) as [[|start r' wr got rerr []| |]|] eqn:Hi; try done.
    apply bind_Some in Hl as (x & Hx & Hl). case_match; simplify_eq.
    assert (l = 0) as -> by (by eapply Honly). simplify_eq.
    assert (i ≠ 0) as Hne by (intros ->; congruence).
    assert (0 < length (threads w)) as Hlen by (by eapply lookup_lt_Some).
    split; simpl.
    + eexists _, _. rewrite list_lookup_insert_ne, list_lookup_insert_eq by done. split; [done|].
      apply (ws_ok_same (st w) _ (LBody r rest)); try done.
      intros c p. by destruct (bool_decide (string_drop n rest = "")).
    + intros j sent1 pc1 [(<- & ? & _)|[_ [(<- & ? & _)|[_ Hj]]%insert_lookup_cases]]%insert_lookup_cases;
        [done|done|by eapply Honly].
  - destruct (ctx (st w)) eqn:Hc; [done|]. simplify_eq. split; simpl; [|done].
    exists sent, pc. split; [done|]. apply (ws_ok_same (st w) _ pc); try done. by apply Hok.
Qed.

Lemma sess_ok_run w ls w' : sess_ok w → run w ls = Some w' → sess_ok w'.
Proof.
  revert w. induction ls as [|l ls IH]; intros w Hw; simpl; [by intros [= <-]|].
  intros (w1 & Hl & Hr)%bind_Some. eauto using sess_ok_step.
Qed.

Lemma sess_ok_init : sess_ok init_world.
Proof.
  split.
  - exists [], LRecv. split; [done|]. constructor; simpl; try done.
  - by intros [|i] sent pc.
Qed.

(** ** A receive loop waiting for a WebSocket handler that has gone *)

(** Goroutines that can still take from channel [c]. *)
Definition takes (t : thread) (c : nat) : bool :=
  match t with
  | TWs _ d _ (WDial | WRefused _ | WLoop _ | WWrite _ _) => bool_decide (d = c)
  | _ => false
  end.

Record wedged (c : nat) (payload : string) (w : world) : Prop := {
  wedged_ctx : ctx (st w) = None;
  wedged_loop : loop_at w (LWs c payload);
  wedged_only : ∀ i sent pc, threads w !! i = Some (TLoop sent pc) → i = 0;
  wedged_chan : ∃ x, chH (st w) !! c = Some x ∧ ch_closed x = false
    ∧ wsQueueDepth ≤ length (ch_queue x);
  wedged_takes : ∀ i t, threads w !! i = Some t → takes t c = false }.

Lemma stuck_blocked c payload w x : wedged c payload w → exec w (LStep 0 x) = None.
Proof.
  intros [Hctx (sent & Hl) _ (y & Hy & Ho & Hq) _]. cbn [exec]. rewrite Hl. simpl.
  destruct x; simpl; try done.
  - unfold send_chan. rewrite Hy. simpl. rewrite Ho. by rewrite (proj2 (chan_send_None _ _ _) Hq).
  - by rewrite Hctx.
Qed.

(** A goroutine that does not take from [c] leaves it alone and starts nobody who does. *)
Lemma thread_step_takes s ts i t x s' t' new c y :
  thread_step s ts i t x = Some (s', t', new) → (∀ sent pc, t ≠ TLoop sent pc) →
  takes t c = false → chH s !! c = Some y →
  chH s' !! c = Some y ∧ takes t' c = false ∧ Forall (λ t, takes t c = false) new
  ∧ ctx s' = ctx s.
Proof.
  intros Hs Hn Ht Hc.
  destruct t as [sent pc0|start r w got rerr pc0|start ch sent pc0|id sent running];
    [by edestruct Hn| | |]; cbn [thread_step] in Hs; apply bind_Some in Hs as (z & Hs & Heq);
    repeat case_match; simplify_eq.
  - destruct pc0, x; try done; cbn [serve_step] in Hs; simplify_eq; try done.
    by open_step.
  - destruct pc0 as [|[|[data failed] reads]| | | | |], x; try done; cbn [ws_step] in Hs;
      cbn [takes] in Ht; unfold send_frame in Hs; simplify_eq; try done; try (by open_step).
    + split_and!; [done|by repeat case_match|repeat case_match; by repeat constructor|done].
    + destruct (bool_decide (data = "")); simplify_eq; [done|].
      split_and!; [done|by destruct (answer _ _)|done|done].
    + apply bind_Some in Hs as (z & Hz & Hs). rewrite bool_decide_eq_false in Ht.
      destruct (chan_recv (ch_queue z)) as [[payload q]|]; [|case_match]; simplify_eq; [|done].
      split_and!; [simpl; by rewrite list_lookup_insert_ne|simpl; by rewrite bool_decide_false|done|done].
    + destruct ok; done.
  - done.
Qed.

Lemma stuck_step c payload w l w' :
  wedged c payload w → (∀ e, l ≠ LCancel e) → exec w l = Some w' → wedged c payload w'.
Proof.
  intros Hw Hnc Hl. pose proof Hw as [Hctx (sent & H0) Honly (y & Hy & Ho) Ht].
  destruct l as [i x|l i n|e]; [| |by edestruct Hnc].
  - destruct (decide (i = 0)) as [->|Hne].
    { rewrite (stuck_blocked c payload w x Hw) in Hl. done. }
    cbn [exec] in Hl. apply bind_Some in Hl as (t & Hi & ([[s' t'] new] & Hs & [= <-])%bind_Some).
    assert (∀ sent pc, t ≠ TLoop sent pc) as Hn by (intros ?? ->; by apply Hne; eapply Honly).
    destruct (thread_step_takes _ _ _ _ _ _ _ _ c y Hs Hn (Ht _ _ Hi) Hy) as (Hy' & Ht' & Hnew & Hctx').
    destruct (thread_step_new _ _ _ _ _ _ _ _ Hs) as [Hnl Hiff].
    constructor; simpl.
    + congruence.
    + exists sent. simpl. apply lookup_app_l_Some. by rewrite list_lookup_insert_ne.
    + intros j sent1 pc1 Hj%lookup_snoc_not_loop; [|done].
      apply insert_lookup_cases in Hj as [(<- & Heq & _)|[_ Hj]]; [|by eapply Honly].
      destruct Hiff as [_ (sent2 & pc2 & ->)]; [by eauto|]. by edestruct Hn.
    + eauto.
    + intros j u [Hj|[_ Hj]]%lookup_app_Some; [|by eapply (Forall_lookup_1 _ _ _ _ Hnew)].
      apply insert_lookup_cases in Hj as [(<- & <- & _)|[_ Hj]]; eauto.
  - exfalso. cbn [exec] in Hl.
    destruct (threads w !! l) as [[sent1 [| r rest | | |]| | |]|] eqn:Hl'; try done.
    assert (l = 0) as -> by (by eapply Honly). congruence.
Qed.

Lemma wedged_run c payload w ls w' :
  wedged c payload w → Forall (λ l, ∀ e, l ≠ LCancel e) ls → run w ls = Some w' →
  wedged c payload w'.
Proof.
  intros Hw Hls. revert w Hw. induction Hls as [|l ls Hl _ IH]; intros w Hw; simpl.
  { by intros [= <-]. }
  intros (w1 & Hx & Hr)%bind_Some. eauto using stuck_step.
Qed.

(** C23. The client never panics on a channel: whatever the edge sends, whatever the
    handlers do and however a session ends, no WebSocket channel is closed twice and none
    is sent on after it was closed. *)
Theorem session_no_panic ls w : run init_world ls = Some w → panicked (st w) = false.
Proof.
  intros Hr. destruct (sess_ok_run _ _ _ sess_ok_init Hr) as [(sent & pc & _ & Hok) _]. apply Hok.
Qed.

(** ** Request bodies *)

(** What a step offers to the pipe [r]. *)
Definition loop_offer (s : state) (pc : loop_pc) (c : choice) (r : nat) : list string :=
  match pc, c with
  | LRecv, Recv (ServerFrame_RequestBody id chunk) =>
    match inflight s !! id with
    | Some r' =>
      match irH s !! r' with
      | Some x => if bool_decide (r' = r) && negb (p_done (ir_pipe x)) then [chunk] else []
      | None => []
      end
    | None => []
    end
  | _, _ => []
  end.

Definition offer (w : world) (l : label) (r : nat) : list string :=
  match l with
  | LStep i c =>
    match threads w !! i with Some (TLoop _ pc) => loop_offer (st w) pc c r | _ => [] end
  | _ => []
  end.

Fixpoint offered (w : world) (ls : list label) (r : nat) : list string :=
  match ls with
  | [] => []
  | l :: ls => offer w l r ++ match exec w l with Some w' => offered w' ls r | None => [] end
  end.

(** What the loop still has to hand over to [r]. *)
Definition in_hand (pc : loop_pc) (r : nat) : string :=
  match pc with LBody r' rest => if decide (r' = r) then rest else "" | _ => "" end.

(** How much of what was offered to [r] its handler has read. *)
Record body_ok (pc : loop_pc) (r : nat) (x : inflightRequest) (got : string)
    (rerr : option GoError) (h : list string) : Prop := {
  body_prefix : ∃ rest, got +:+ rest = cat h;
  body_live : p_done (ir_pipe x) = false → got +:+ in_hand pc r = cat h;
  body_eof : p_werr (ir_pipe x) = Some EOF → p_rerr (ir_pipe x) = None → got = cat h;
  body_rerr : rerr = Some EOF → p_done (ir_pipe x) = true ∧ got = cat h }.

Definition serves (t : thread) : option nat :=
  match t with TServe _ r _ _ _ _ => Some r | _ => None end.

(** Closing one end or the other of a pipe, and cancelling. *)
Lemma p_done_closeWrite p e : p_done (closeWrite p e) = true.
Proof. done. Qed.
Lemma p_done_closeRead p e : p_done (closeRead p e) = true.
Proof. unfold p_done, closeRead. simpl. by rewrite orb_true_r. Qed.

Lemma string_take_drop n s : string_take n s +:+ string_drop n s = s.
Proof.
  unfold string_take. revert n. induction s as [|c s IH]; intros [|n]; try done.
  simpl. by rewrite app_cons_str, IH.
Qed.

(** A pipe that is closed at the loop's side while nothing is in hand. *)
Lemma body_ok_closeWrite r x got rerr h e y :
  ir_pipe y = closeWrite (ir_pipe x) e → body_ok LRecv r x got rerr h → body_ok LRecv r y got rerr h.
Proof.
  intros Hy [Hp Hl He Hr]. constructor; rewrite ?Hy; try done.
  - simpl. intros Hw Hrn. unfold first_err in Hw.
    destruct (p_werr (ir_pipe x)) as [e'|] eqn:Ew; simpl in Hw; [apply He; congruence|].
    rewrite <-Hl; [by rewrite app_nil_r_str|]. unfold p_done. by rewrite Ew, Hrn.
  - intros Hre. destruct (Hr Hre). done.
Qed.

(** A pipe that is closed at the handler's side, or by both. *)
Lemma body_ok_closeRead pc r x got rerr h e y :
  p_rerr (ir_pipe y) = first_err (p_rerr (ir_pipe x)) e →
  body_ok pc r x got rerr h → body_ok pc r y got rerr h.
Proof.
  intros Hy [Hp Hl He Hr].
  assert (p_done (ir_pipe y) = true) as Hd.
  { unfold p_done. rewrite Hy. simpl. by rewrite orb_true_r. }
  constructor; rewrite ?Hd; try done.
  - rewrite Hy. done.
  - intros Hre. destruct (Hr Hre). done.
Qed.

Lemma body_ok_pipe pc r x y got rerr h :
  ir_pipe y = ir_pipe x → body_ok pc r x got rerr h → body_ok pc r y got rerr h.
Proof. intros Hy []. constructor; rewrite ?Hy; done. Qed.

(** The loop moves on and nothing is in its hand for [r] before or after. *)
Lemma body_ok_pc pc pc' r x got rerr h :
  in_hand pc' r = in_hand pc r → body_ok pc r x got rerr h → body_ok pc' r x got rerr h.
Proof. intros Hh []. constructor; try done. by rewrite Hh. Qed.

(** The write is given up because the pipe is closed. *)
Lemma body_ok_give_up pc pc' r x got rerr h :
  p_done (ir_pipe x) = true → body_ok pc r x got rerr h → body_ok pc' r x got rerr h.
Proof. intros Hd []. constructor; try done. by rewrite Hd. Qed.

Lemma body_ok_offer r x got rerr h chunk :
  p_done (ir_pipe x) = false → body_ok LRecv r x got rerr h →
  body_ok (LBody r chunk) r x got rerr (h ++ [chunk]).
Proof.
  intros Hd [Hp Hl He Hr].
  assert (got = cat h) as -> by (rewrite <-Hl by done; by rewrite app_nil_r_str).
  assert (cat (h ++ [chunk]) = cat h +:+ chunk) as Hc.
  { rewrite cat_app. simpl. by rewrite app_nil_r_str. }
  constructor; rewrite ?Hc.
  - by exists chunk.
  - intros _. simpl. by rewrite decide_True.
  - intros Hw Hrn. unfold p_done in Hd. by rewrite Hw in Hd.
  - intros Hre. destruct (Hr Hre). congruence.
Qed.

Lemma body_ok_read r x got rerr h rest n :
  p_done (ir_pipe x) = false → body_ok (LBody r rest) r x got rerr h →
  body_ok (if bool_decide (string_drop n rest = "") then LRecv else LBody r (string_drop n rest)) r x
    (got +:+ string_take n rest) rerr h.
Proof.
  intros Hd [Hp Hl He Hr]. specialize (Hl Hd). simpl in Hl. rewrite decide_True in Hl by done.
  assert ((got +:+ string_take n rest) +:+ string_drop n rest = cat h) as Hc.
  { by rewrite app_assoc_str, string_take_drop. }
  constructor.
  - by eexists.
  - intros _. case_bool_decide as Hn; simpl; [|by rewrite decide_True].
    by rewrite <-Hc, Hn.
  - intros Hw. unfold p_done in Hd. by rewrite Hw in Hd.
  - intros Hre. destruct (Hr Hre). congruence.
Qed.

(** *** Steps *)

(** The request [r] goes on as [body_ok]. *)
Definition body_at (s : state) (pc : loop_pc) (r : nat) (got : string) (rerr : option GoError)
    (h : list string) : Prop :=
  ∃ x, irH s !! r = Some x ∧ body_ok pc r x got rerr h.

Lemma body_at_alter s s' (f : inflightRequest → inflightRequest) r' pc r got rerr h :
  irH s' = alter f r' (irH s) → (∀ x, body_ok pc r x got rerr h → body_ok pc r (f x) got rerr h) →
  body_at s pc r got rerr h → body_at s' pc r got rerr h.
Proof.
  intros Hs Hf (x & Hx & Hb). unfold body_at. rewrite Hs. destruct (decide (r' = r)) as [->|Hne].
  - exists (f x). rewrite list_lookup_alter_eq, Hx. auto.
  - exists x. by rewrite list_lookup_alter_ne.
Qed.

Lemma body_at_same s s' pc r got rerr h :
  irH s' = irH s → body_at s pc r got rerr h → body_at s' pc r got rerr h.
Proof. unfold body_at. by intros ->. Qed.

Lemma body_at_pc s pc pc' r got rerr h :
  in_hand pc' r = in_hand pc r → body_at s pc r got rerr h → body_at s pc' r got rerr h.
Proof. intros Hh (x & Hx & Hb). exists x. split; [done|]. by eapply body_ok_pc. Qed.

Lemma body_at_teardown pc r got rerr h l irs x :
  irs !! r = Some x → body_ok pc r x got rerr h →
  ∃ y, foldl teardown_ir irs l !! r = Some y ∧ body_ok pc r y got rerr h.
Proof.
  revert irs x. induction l as [|k l IH]; intros irs x Hx Hb; simpl; [eauto|].
  unfold teardown_ir at 2. destruct (decide (k = r)) as [->|Hne].
  - eapply IH; [by rewrite list_lookup_alter_eq, Hx|].
    eapply (body_ok_closeRead _ _ x _ _ _ errSessionEnded); [reflexivity|exact Hb].
  - by eapply IH; [rewrite list_lookup_alter_ne|].
Qed.

Lemma close_chans_irH l s s' :
  foldl (λ o c, s ← o; close_chan s c) (Some s) l = Some s' → irH s' = irH s ∧ inflight s' = inflight s.
Proof.
  revert s. induction l as [|c l IH]; intros s; simpl; [by intros [= <-]|].
  destruct (close_chan s c) as [s1|] eqn:Hc; simpl.
  - intros [-> ->]%IH. unfold close_chan in Hc. apply bind_Some in Hc as (x & _ & [= <-]).
    by destruct (ch_closed x).
  - intros Hf. exfalso. clear -Hf. induction l as [|d l IH]; [done|]. simpl in Hf. auto.
Qed.

Lemma close_chan_irH s c s' :
  close_chan s c = Some s' → irH s' = irH s ∧ inflight s' = inflight s.
Proof. intros Hc. apply (close_chans_irH [c]). simpl. by rewrite Hc. Qed.

Lemma handle_frame_body s self sent f s' sent' pc' new r got rerr h :
  handle_frame s self sent f = Some (s', sent', pc', new) → body_at s LRecv r got rerr h →
  body_at s' pc' r got rerr (h ++ loop_offer s LRecv (Recv f) r).
Proof.
  intros Hf Hb.
  assert (loop_offer s LRecv (Recv f) r = [] →
    body_at s' pc' r got rerr h → body_at s' pc' r got rerr (h ++ loop_offer s LRecv (Recv f) r))
    as Hnone by (intros ->; by rewrite app_nil_r).
  destruct f as [start|id chunk|id|id|nano|id payload|id|]; cbn [handle_frame] in Hf;
    try (apply Hnone; [done|]; clear Hnone).
  - unfold handle_start in Hf. destruct (isWebSocketUpgrade start); simplify_eq; [done|].
    destruct (newRequest_err start); simplify_eq; [done|].
    destruct Hb as (x & Hx & Hb). exists x. split; [|done]. simpl. by apply lookup_app_l_Some.
  - cbn [loop_offer]. destruct (inflight s !! id) as [r'|]; [|simplify_eq; by rewrite app_nil_r].
    apply bind_Some in Hf as (x & Hx & Hf). rewrite Hx. simplify_eq.
    destruct (p_done (ir_pipe x)) eqn:Hd; rewrite ?andb_false_r, ?andb_true_r; simpl;
      [by rewrite app_nil_r|].
    case_bool_decide as Hr; simpl.
    + subst r'. destruct Hb as (y & Hy & Hb). simplify_eq. exists x. split; [done|].
      by apply body_ok_offer.
    + rewrite app_nil_r. eapply body_at_pc; [|exact Hb]. simpl. by rewrite decide_False.
  - destruct (inflight s !! id) as [r'|]; simplify_eq; [|done].
    eapply body_at_alter; [done| |done]. intros x. by apply body_ok_closeWrite with (e := EOF).
  - destruct (inflight s !! id) as [r'|]; simplify_eq; [|done].
    eapply body_at_alter; [done| |done]. intros x. by apply body_ok_closeWrite with (e := ContextCanceled).
  - unfold send_frame in Hf. destruct (answer _ _); simplify_eq; [|done]. eapply body_at_pc; [|exact Hb]; done.
  - simplify_eq. destruct (wsInbound s' !! id); [|done]. eapply body_at_pc; [|exact Hb]; done.
  - destruct (wsInbound s !! id) as [c|]; [|by simplify_eq].
    apply bind_Some in Hf as (s1 & Hc & Hf). simplify_eq.
    eapply body_at_same; [|exact Hb]. by destruct (close_chan_irH _ _ _ Hc).
  - by simplify_eq.
Qed.

Lemma loop_step_body s self sent pc c s' sent' pc' new r got rerr h :
  loop_step s self sent pc c = Some (s', sent', pc', new) → body_at s pc r got rerr h →
  body_at s' pc' r got rerr (h ++ loop_offer s pc c r).
Proof.
  intros Hs Hb. destruct pc as [|r' rest|ch payload|e|e], c; try done; cbn [loop_step] in Hs;
    try (by eapply handle_frame_body); cbn [loop_offer]; rewrite app_nil_r.
  - simplify_eq. eapply body_at_pc; [|exact Hb]; done.
  - apply bind_Some in Hs as (x & Hx & Hs). destruct (p_done (ir_pipe x)) eqn:Hd; simplify_eq.
    destruct (decide (r' = r)) as [->|Hne].
    + destruct Hb as (y & Hy & Hb). simplify_eq. exists x. split; [done|].
      by eapply body_ok_give_up.
    + eapply body_at_pc; [|exact Hb]. simpl. by rewrite decide_False.
  - apply bind_Some in Hs as (s1 & Hc & Hs). simplify_eq. unfold send_chan in Hc.
    apply bind_Some in Hc as (x & _ & Hc).
    eapply body_at_same; [|eapply body_at_pc; [|exact Hb]; done].
    destruct (ch_closed x); [by simplify_eq|]. by apply bind_Some in Hc as (q & _ & [= <-]).
  - apply bind_Some in Hs as (e & _ & Hs). simplify_eq. eapply body_at_pc; [|exact Hb]; done.
  - apply bind_Some in Hs as (s1 & Ht & Hs). simplify_eq. unfold teardown in Ht.
    apply close_chans_irH in Ht as [Hi _]. simpl in Hi.
    destruct Hb as (x & Hx & Hb). unfold body_at. rewrite Hi.
    destruct (body_at_teardown _ _ _ _ _ (map_to_list (inflight s)).*2 _ _ Hx Hb) as (y & Hy & Hb').
    exists y. split; [done|]. eapply body_ok_pc; [|exact Hb']; done.
Qed.

(** A handler's own step. *)
Lemma serve_step_body s self start r w rerr pc c s' w' rerr' pc' lpc got h :
  serve_step s self start r w rerr pc c = Some (s', w', rerr', pc') →
  body_at s lpc r got rerr h → body_at s' lpc r got rerr' h.
Proof.
  intros Hs Hb. destruct pc, c; try done; cbn [serve_step] in Hs; simplify_eq; try done.
  - apply bind_Some in Hs as (x & Hx & Hs). destruct (p_done (ir_pipe x)) eqn:Hd; simplify_eq.
    destruct Hb as (y & Hy & [Hp Hl He Hr]). simplify_eq. exists x. split; [done|].
    constructor; try done. intros Hre. split; [done|]. unfold readCloseError in Hre.
    destruct (p_rerr (ir_pipe x)) eqn:E1; [done|]. destruct (p_werr (ir_pipe x)) eqn:E2; simplify_eq.
    by apply He.
  - eapply body_at_alter; [done| |done]. intros x. by eapply body_ok_closeRead.
  - eapply body_at_alter; [done| |done]. intros x. by apply body_ok_pipe.
Qed.

(** The other requests during it. *)
Lemma serve_step_other s self start r w rerr pc c s' w' rerr' pc' q :
  serve_step s self start r w rerr pc c = Some (s', w', rerr', pc') → q ≠ r →
  irH s' !! q = irH s !! q.
Proof.
  intros Hs Hq. destruct pc, c; try done; cbn [serve_step] in Hs; simplify_eq; try done.
  - by open_step.
  - simpl. by rewrite list_lookup_alter_ne.
  - simpl. by rewrite list_lookup_alter_ne.
Qed.

Lemma serve_step_length s self start r w rerr pc c s' w' rerr' pc' :
  serve_step s self start r w rerr pc c = Some (s', w', rerr', pc') →
  length (irH s') = length (irH s) ∧ ∀ id q, inflight s' !! id = Some q → inflight s !! id = Some q.
Proof.
  intros Hs. destruct pc, c; try done; cbn [serve_step] in Hs; simplify_eq; try done.
  - by open_step.
  - simpl. by rewrite length_alter.
  - simpl. by rewrite length_alter.
  - simpl. split; [done|]. by intros id q [_ ?]%lookup_delete_Some.
Qed.

Lemma ws_step_irH s self next rd start ch sent pc c s' sent' pc' new :
  ws_step s self next rd start ch sent pc c = Some (s', sent', pc', new) →
  irH s' = irH s ∧ inflight s' = inflight s.
Proof.
  intros Hs. destruct pc as [|[|[data failed] reads]| | | | |], c; try done; cbn [ws_step] in Hs;
    unfold send_frame in Hs; simplify_eq; try done; try (by open_step).
Qed.

(** What a step of the loop does to the table and the number of requests. *)
Lemma loop_step_refs s self sent pc c s' sent' pc' new :
  loop_step s self sent pc c = Some (s', sent', pc', new) →
  (∀ id r, inflight s !! id = Some r → r < length (irH s)) →
  length (irH s) ≤ length (irH s')
  ∧ (∀ id r, inflight s' !! id = Some r → r < length (irH s'))
  ∧ (∀ r rest, pc' = LBody r rest → r < length (irH s'))
  ∧ ∀ i t r, new !! i = Some t → serves t = Some r →
      i = 0 ∧ r = length (irH s) ∧ r < length (irH s')
      ∧ ∃ start, t = TServe start r (newTunnelResponseWriter (rs_RequestId start)) "" None SRun
      ∧ pc' = LRecv ∧ irH s' !! r = Some (mkIR false (mkPipe None None)).
Proof.
  intros Hs Hmap.
  assert (irH s' = irH s → inflight s' = inflight s → new = [] → (∀ r rest, pc' ≠ LBody r rest) →
    length (irH s) ≤ length (irH s')
    ∧ (∀ id r, inflight s' !! id = Some r → r < length (irH s'))
    ∧ (∀ r rest, pc' = LBody r rest → r < length (irH s'))
    ∧ ∀ i t r, new !! i = Some t → serves t = Some r →
      i = 0 ∧ r = length (irH s) ∧ r < length (irH s')
      ∧ ∃ start, t = TServe start r (newTunnelResponseWriter (rs_RequestId start)) "" None SRun
      ∧ pc' = LRecv ∧ irH s' !! r = Some (mkIR false (mkPipe None None))) as Hsame.
  { intros -> -> -> Hn. split_and!; [done|done| |done]. intros r rest ->. by destruct (Hn r rest). }
  destruct pc as [|r' rest|ch payload|e|e], c as [| | | | | |f| | | | | | | |]; try done;
    cbn [loop_step] in Hs; try (open_step; apply Hsame; done).
  - destruct f as [start|id chunk|id|id|nano|id payload|id|]; cbn [handle_frame] in Hs.
    + unfold handle_start in Hs. destruct (isWebSocketUpgrade start); [|destruct (newRequest_err start)];
        simplify_eq; try (by apply Hsame).
      * split_and!; simpl; try done. by intros [|[]] t r ?; simplify_eq/=.
      * simpl. rewrite length_app. simpl. split_and!; try done; [lia| |].
        -- intros id r [[<- <-]|[_ Hr]]%lookup_insert_Some; [lia|]. apply Hmap in Hr. lia.
        -- intros [|[]] t r ? Hr; simplify_eq/=. split_and!; [done|done|lia|].
           exists start. split_and!; [done|done|by apply list_lookup_middle].
    + destruct (inflight s !! id) as [r|] eqn:Hr; [|simplify_eq; by apply Hsame].
      apply bind_Some in Hs as (x & Hx & Hs). simplify_eq.
      split_and!; [done|done| |done]. intros r0 rest0 Heq. destruct (p_done _); simplify_eq.
      by eapply lookup_lt_Some.
    + simplify_eq. destruct (inflight s !! id); [|by apply Hsame].
      simpl. rewrite length_alter. by split_and!.
    + simplify_eq. destruct (inflight s !! id); [|by apply Hsame].
      simpl. rewrite length_alter. by split_and!.
    + unfold send_frame in Hs. destruct (answer _ _); simplify_eq; by apply Hsame.
    + simplify_eq. destruct (wsInbound s' !! id); by apply Hsame.
    + destruct (wsInbound s !! id) as [c|]; [|simplify_eq; by apply Hsame].
      apply bind_Some in Hs as (s1 & Hc & Hs). simplify_eq.
      destruct (close_chan_irH _ _ _ Hc). by apply Hsame.
    + simplify_eq. by apply Hsame.
  - apply bind_Some in Hs as (s1 & Hc & Hs). simplify_eq. unfold send_chan in Hc.
    apply bind_Some in Hc as (x & _ & Hc). apply Hsame; try done;
      (destruct (ch_closed x); [by simplify_eq|]); by apply bind_Some in Hc as (q & _ & [= <-]).
  - apply bind_Some in Hs as (s1 & Ht & Hs). simplify_eq. unfold teardown in Ht.
    apply close_chans_irH in Ht as [Hi Hm]. simpl in Hi, Hm. rewrite Hi, Hm.
    assert (∀ l irs, length (foldl teardown_ir irs l) = length irs) as Hlen.
    { induction l as [|k l IH]; intros irs; simpl; [done|]. by rewrite IH; unfold teardown_ir; rewrite length_alter. }
    rewrite Hlen. by split_and!.
Qed.

(** *** The world *)

Record bodies (h : nat → list string) (w : world) : Prop := {
  bodies_loop : sess_ok w;
  bodies_fresh : ∀ r, length (irH (st w)) ≤ r → h r = [];
  bodies_map : ∀ id r, inflight (st w) !! id = Some r → r < length (irH (st w));
  bodies_hand : ∀ sent r rest, threads w !! 0 = Some (TLoop sent (LBody r rest)) →
    r < length (irH (st w));
  bodies_len : ∀ i t r, threads w !! i = Some t → serves t = Some r → r < length (irH (st w));
  bodies_unique : ∀ i j t u r, threads w !! i = Some t → threads w !! j = Some u →
    serves t = Some r → serves u = Some r → i = j;
  bodies_ok : ∀ i start r wr got rerr pc sent lpc,
    threads w !! i = Some (TServe start r wr got rerr pc) →
    threads w !! 0 = Some (TLoop sent lpc) → body_at (st w) lpc r got rerr (h r) }.

Lemma bodies_ext h h' w : (∀ r, h r = h' r) → bodies h w → bodies h' w.
Proof.
  intros Heq []. constructor; try done.
  - intros r Hr. rewrite <-Heq. auto.
  - intros. rewrite <-Heq. eauto.
Qed.

(** A step of the loop. *)
Lemma bodies_loop_step h w c sent pc s' sent' pc' new :
  bodies h w → threads w !! 0 = Some (TLoop sent pc) →
  loop_step (st w) 0 sent pc c = Some (s', sent', pc', new) →
  sess_ok (mkWorld s' (<[0 := TLoop sent' pc']> (threads w) ++ new)) →
  bodies (λ r, h r ++ loop_offer (st w) pc c r) (mkWorld s' (<[0 := TLoop sent' pc']> (threads w) ++ new)).
Proof.
  intros [_ Hfresh Hmap Hhand Hlen Huniq Hok] H0 Hs Hsess.
  destruct (loop_step_refs _ _ _ _ _ _ _ _ _ Hs Hmap) as (Hle & Hmap' & Hhand' & Hnew).
  assert (0 < length (threads w)) as H0len by (by eapply lookup_lt_Some).
  assert (∀ sent1 pc1, (<[0:=TLoop sent' pc']> (threads w) ++ new) !! 0 = Some (TLoop sent1 pc1) →
    pc1 = pc') as Hpc.
  { intros sent1 pc1 Heq. rewrite lookup_app_l in Heq by (by rewrite length_insert).
    rewrite list_lookup_insert_eq in Heq by done. by simplify_eq. }
  assert (∀ j t r, (<[0:=TLoop sent' pc']> (threads w) ++ new) !! j = Some t → serves t = Some r →
    (j ≠ 0 ∧ threads w !! j = Some t ∧ r < length (irH (st w)))
    ∨ (j = length (threads w) ∧ r = length (irH (st w)) ∧ r < length (irH s')
       ∧ ∃ start, t = TServe start r (newTunnelResponseWriter (rs_RequestId start)) "" None SRun
         ∧ pc' = LRecv ∧ irH s' !! r = Some (mkIR false (mkPipe None None)))) as Hall.
  { intros j t r [Hj|[Hge Hj]]%lookup_app_Some Hr.
    - apply insert_lookup_cases in Hj as [(<- & <- & _)|[Hne Hj]]; [done|]. left. eauto.
    - rewrite length_insert in Hge, Hj.
      destruct (Hnew _ _ _ Hj Hr) as (H0' & Hr' & Hlt & Ht). right.
      split_and!; [lia|done..]. }
  constructor; simpl; try done.
  - intros r Hr. rewrite Hfresh by lia. simpl.
    unfold loop_offer. destruct pc, c as [| | | | | |f| | | | | | | |]; try done.
    destruct f; try done. destruct (inflight (st w) !! request_id) as [r'|] eqn:E; [|done].
    apply Hmap in E. destruct (irH (st w) !! r') as [x|]; [|done].
    rewrite bool_decide_false by lia. done.
  - intros sent1 r rest Heq. apply (Hhand' r rest). symmetry. by eapply Hpc.
  - intros j t r Hj Hr. destruct (Hall j t r Hj Hr) as [(_ & _ & ?)|(_ & _ & ? & _)]; lia.
  - intros i j t u r Hi Hj Ht Hu.
    destruct (Hall _ _ _ Hi Ht) as [(_ & Hi' & ?)|(-> & ? & _)],
      (Hall _ _ _ Hj Hu) as [(_ & Hj' & ?)|(-> & ? & _)]; [by eapply Huniq|lia|lia|done].
  - intros j start r wr got rerr pcs sent1 lpc Hj Hl. apply Hpc in Hl as ->.
    destruct (Hall _ _ r Hj eq_refl) as [(_ & Hj' & _)|(_ & -> & _ & start' & Heq & -> & Hx)].
    + eapply loop_step_body; [done|by eapply Hok].
    + simplify_eq. eexists. split; [done|].
      assert (h (length (irH (st w))) ++ loop_offer (st w) pc c (length (irH (st w))) = []) as ->.
      { rewrite Hfresh by lia. simpl.
        unfold loop_offer. destruct pc, c as [| | | | | |f| | | | | | | |]; try done.
        destruct f; try done. destruct (inflight (st w) !! request_id) as [r'|] eqn:E; [|done].
        apply Hmap in E. destruct (irH (st w) !! r') as [x|]; [|done].
        rewrite bool_decide_false by lia. done. }
      constructor; simpl; try done. by exists "".
Qed.

(** A step of another goroutine [i]; the requests other than its own stay as they are. *)
Lemma bodies_other_step h w i t t' s' new :
  bodies h w → i ≠ 0 → threads w !! i = Some t → (∀ sent pc, t' ≠ TLoop sent pc) →
  serves t' = serves t → Forall (λ t, serves t = None) new →
  length (irH s') = length (irH (st w)) →
  (∀ id q, inflight s' !! id = Some q → inflight (st w) !! id = Some q) →
  (∀ q, serves t ≠ Some q → irH s' !! q = irH (st w) !! q) →
  (∀ start r wr got rerr pc sent lpc, t' = TServe start r wr got rerr pc →
     threads w !! 0 = Some (TLoop sent lpc) → body_at s' lpc r got rerr (h r)) →
  sess_ok (mkWorld s' (<[i := t']> (threads w) ++ new)) →
  bodies h (mkWorld s' (<[i := t']> (threads w) ++ new)).
Proof.
  intros Hb Hi0 Hi Hnl Hserves Hnew Hlen Hmap Hother Hown Hsess.
  pose proof Hb as [_ Bfresh Bmap Bhand Blen Buniq Bok].
  assert (∀ j u r, (<[i:=t']> (threads w) ++ new) !! j = Some u → serves u = Some r →
    (j = i ∧ u = t' ∧ serves t = Some r) ∨ (j ≠ i ∧ threads w !! j = Some u)) as Hall.
  { intros j u r [Hj|[_ Hj]]%lookup_app_Some Hr.
    - apply insert_lookup_cases in Hj as [(<- & <- & _)|[Hne Hj]]; [left; split_and!; congruence|auto].
    - eapply Forall_lookup_1 in Hnew; [|done]. congruence. }
  assert (∀ sent pc, (<[i:=t']> (threads w) ++ new) !! 0 = Some (TLoop sent pc) →
    threads w !! 0 = Some (TLoop sent pc)) as H0.
  { destruct Hb as [[(sent & pc & Hl & _) _] _ _ _ _ _ _].
    assert (0 < length (threads w)) by (by eapply lookup_lt_Some).
    intros sent1 pc1. rewrite lookup_app_l by (by rewrite length_insert).
    by rewrite list_lookup_insert_ne. }
  constructor; simpl; rewrite ?Hlen; try done.
  - intros id r Hr. eauto.
  - intros sent r rest Hl%H0. eauto.
  - intros j u r Hj Hr. destruct (Hall _ _ _ Hj Hr) as [(_ & _ & ?)|[_ ?]]; eauto.
  - intros j k u v r Hj Hk Hu Hv.
    destruct (Hall _ _ _ Hj Hu) as [(-> & _ & ?)|[? ?]], (Hall _ _ _ Hk Hv) as [(-> & _ & ?)|[? ?]];
      [done|by eapply Buniq|by eapply Buniq|by eapply Buniq].
  - intros j start r wr got rerr pc sent lpc Hj Hl%H0.
    destruct (Hall _ _ r Hj eq_refl) as [(_ & <- & _)|[Hne Hj']]; [by eapply Hown|].
    destruct (Bok _ _ _ _ _ _ _ _ _ Hj' Hl) as (x & Hx & Hbx). exists x. split; [|done].
    rewrite Hother; [done|]. intros Hr. by apply Hne, (Buniq j i _ _ r Hj' Hi).
Qed.

Lemma bodies_thread h w i c t s' t' new :
  bodies h w → i ≠ 0 → threads w !! i = Some t → (∀ sent pc, t ≠ TLoop sent pc) →
  thread_step (st w) (threads w) i t c = Some (s', t', new) →
  sess_ok (mkWorld s' (<[i := t']> (threads w) ++ new)) →
  bodies h (mkWorld s' (<[i := t']> (threads w) ++ new)).
Proof.
  intros Hb Hi0 Hi Hn Hs Hsess.
  destruct t as [sent pc|start r wr got rerr pc|start ch sent pc|id sent running];
    [by edestruct Hn| | |]; cbn [thread_step] in Hs;
    apply bind_Some in Hs as (x & Hs & Heq); repeat case_match; simplify_eq.
  - destruct (serve_step_length _ _ _ _ _ _ _ _ _ _ _ _ Hs) as [Hlen Hmap].
    eapply bodies_other_step; try done.
    + intros q Hq. eapply serve_step_other; [done|]. intros ->. by apply Hq.
    + intros start1 r1 wr1 got1 rerr1 pc1 sent lpc Heq Hl. simplify_eq.
      eapply serve_step_body; [done|by eapply bodies_ok].
  - destruct (ws_step_irH _ _ _ _ _ _ _ _ _ _ _ _ _ Hs) as [Hir Hin].
    eapply bodies_other_step; try done; rewrite ?Hir, ?Hin; try done.
    destruct pc as [|[|[data failed] reads]| | | | |], c; try done; cbn [ws_step] in Hs;
      unfold send_frame in Hs; try (open_step; constructor; done).
    simplify_eq. repeat case_match; repeat constructor; done.
  - by eapply bodies_other_step.
Qed.

Lemma bodies_read h w l i n w' :
  bodies h w → exec w (LRead l i n) = Some w' → bodies h w'.
Proof.
  intros Hb Hl. pose proof (sess_ok_step _ _ _ (bodies_loop _ _ Hb) Hl) as Hsess.
  pose proof Hb as [[(sent0 & pc0 & Hl0 & _) Honly] Bfresh Bmap Bhand Blen Buniq Bok].
  cbn [exec] in Hl.
  destruct (threads w !! l) as [[sent1 [| r rest | | |]| | |]|] eqn:Hl'; try done.
  destruct (threads w !! i) as [[|start r' wr got rerr []| |]|] eqn:Hi; try done.
  apply bind_Some in Hl as (x & Hx & Hl).
  destruct (bool_decide (r = r') && negb (p_done (ir_pipe x))) eqn:Hc; [|done]. simplify_eq.
  apply andb_true_iff in Hc as [->%bool_decide_eq_true Hd%negb_true_iff].
  assert (l = 0) as -> by (by eapply Honly).
  rewrite Hl0 in Hl'. injection Hl' as -> ->.
  assert (i ≠ 0) as Hi0 by (intros ->; congruence).
  set (lpc := if bool_decide (string_drop n rest = "") then LRecv else LBody r' (string_drop n rest)) in *.
  assert (∀ j u, <[i:=TServe start r' wr (got +:+ string_take n rest) rerr SRun]>
      (<[0:=TLoop sent1 lpc]> (threads w)) !! j = Some u →
    (j = 0 ∧ u = TLoop sent1 lpc)
    ∨ (j = i ∧ u = TServe start r' wr (got +:+ string_take n rest) rerr SRun)
    ∨ (j ≠ i ∧ j ≠ 0 ∧ threads w !! j = Some u)) as Hall.
  { intros j u [(<- & <- & _)|[? [(<- & <- & _)|[? Hj]]%insert_lookup_cases]]%insert_lookup_cases;
      naive_solver. }
  assert (∀ j u q, <[i:=TServe start r' wr (got +:+ string_take n rest) rerr SRun]>
      (<[0:=TLoop sent1 lpc]> (threads w)) !! j = Some u → serves u = Some q →
    ∃ v, threads w !! j = Some v ∧ serves v = Some q) as Hold.
  { intros j u q [[-> ->]|[[-> ->]|(_ & _ & Hj)]]%Hall Hq; simplify_eq/=; eauto. }
  constructor; simpl; try done.
  - intros sent q rest' [[_ Heq]|[[Heq _]|(_ & ? & _)]]%Hall; [|congruence|done].
    unfold lpc in Heq. case_bool_decide; simplify_eq. by eapply Bhand.
  - intros j u q Hj Hq. destruct (Hold _ _ _ Hj Hq) as (v & Hv & Hvq). eauto.
  - intros j k u v q Hj Hk Hu Hv.
    destruct (Hold _ _ _ Hj Hu) as (? & ? & ?), (Hold _ _ _ Hk Hv) as (? & ? & ?). eauto.
  - intros j start1 r1 wr1 got1 rerr1 pc1 sent lpc1 Hj H0.
    assert (lpc1 = lpc) as ->.
    { apply Hall in H0 as [[_ ?]|[[? _]|(_ & ? & _)]]; congruence. }
    apply Hall in Hj as [[_ ?]|[[-> Heq]|(Hne & Hj0 & Hj)]]; [done| |].
    + simplify_eq. destruct (Bok _ _ _ _ _ _ _ _ _ Hi Hl0) as (y & Hy & Hby). simplify_eq.
      exists x. split; [done|]. by apply body_ok_read.
    + destruct (Bok _ _ _ _ _ _ _ _ _ Hj Hl0) as (y & Hy & Hby). exists y. split; [done|].
      assert (r1 ≠ r') as Hr by (intros ->; by apply Hne, (Buniq _ _ _ _ r' Hj Hi)).
      eapply body_ok_pc; [|exact Hby]. unfold lpc. simpl. rewrite decide_False by done.
      case_bool_decide; simpl; [done|by rewrite decide_False].
Qed.

Lemma bodies_step h w l w' :
  bodies h w → exec w l = Some w' → bodies (λ r, h r ++ offer w l r) w'.
Proof.
  intros Hb Hl. pose proof (sess_ok_step _ _ _ (bodies_loop _ _ Hb) Hl) as Hsess.
  destruct l as [i c|l i n|e].
  - pose proof (bodies_loop _ _ Hb) as [(sent & pc & H0 & _) Honly].
    cbn [exec] in Hl. apply bind_Some in Hl as (t & Hi & ([[s' t'] new] & Hs & [= <-])%bind_Some).
    destruct (decide (i = 0)) as [->|Hne].
    + rewrite H0 in Hi. injection Hi as <-. cbn [thread_step] in Hs.
      apply bind_Some in Hs as ([[[s1 sent1] pc1] n1] & Hs & Heq). simplify_eq.
      eapply bodies_ext; [|by eapply bodies_loop_step]. intros r. simpl. by rewrite H0.
    + assert (∀ sent pc, t ≠ TLoop sent pc) as Hn by (intros ?? ->; by apply Hne; eapply Honly).
      eapply bodies_ext; [|by eapply bodies_thread]. intros r. simpl. rewrite Hi.
      destruct t; rewrite ?app_nil_r; try done. by edestruct Hn.
  - eapply bodies_ext; [|by eapply bodies_read]. intros r. simpl. by rewrite app_nil_r.
  - cbn [exec] in Hl. destruct (ctx (st w)); simplify_eq. destruct Hb. constructor; simpl; try done.
    + intros r Hr. rewrite bodies_fresh0; done.
    + intros i start r wr got rerr pc sent lpc Hi H0. rewrite app_nil_r. by eapply bodies_ok0.
Qed.

Lemma bodies_run h w ls w' :
  bodies h w → run w ls = Some w' → bodies (λ r, h r ++ offered w ls r) w'.
Proof.
  revert h w. induction ls as [|l ls IH]; intros h w Hp; simpl.
  { intros [= <-]. eapply bodies_ext; [|done]. intros q. by rewrite app_nil_r. }
  intros (w1 & Hl & Hr)%bind_Some.
  eapply bodies_ext; [|by eapply IH; [by eapply bodies_step|]].
  intros q. simpl. by rewrite Hl, app_assoc.
Qed.

Lemma bodies_init : bodies (λ _, []) init_world.
Proof.
  constructor; simpl; try done; [apply sess_ok_init|..].
  - intros [|i] t r; intros; simplify_eq/=.
  - intros [|i] j t u r; intros; simplify_eq/=.
  - intros [|i]; intros; simplify_eq/=.
Qed.

Lemma body_read ls w i start r wr got rerr pc :
  run init_world ls = Some w → threads w !! i = Some (TServe start r wr got rerr pc) →
  (∃ rest, got +:+ rest = cat (offered init_world ls r))
  ∧ (rerr = Some EOF → got = cat (offered init_world ls r)).
Proof.
  intros Hr Hi. pose proof (bodies_run _ _ _ _ bodies_init Hr) as Hb.
  pose proof (bodies_loop _ _ Hb) as [(sent & lpc & H0 & _) _].
  destruct (bodies_ok _ _ Hb _ _ _ _ _ _ _ _ _ Hi H0) as (x & _ & [Hp _ _ He]).
  split; [exact Hp|]. intros Hre. by destruct (He Hre).
Qed.

(** Request bodies arrive in order and whole: what a handler has read of its body is
    always an initial part of the chunks the edge sent for its request, in order, also
    with other requests in between and whatever the sizes of its reads; and when a read
    returns the end of the body, the handler has read all of it. *)
Theorem request_body_in_order ls w i start r wr got rerr pc :
  run init_world ls = Some w → threads w !! i = Some (TServe start r wr got rerr pc) →
  (∃ rest, got +:+ rest = cat (offered init_world ls r))
  ∧ (rerr = Some EOF → got = cat (offered init_world ls r)).
Proof. apply body_read. Qed.
End session.

(** ** A session to run *)

Section scenario.
#[local] Instance ascii_case : UnicodeData := {| unicode_to_lower := λ r, r |}.

Definition all_sent : nat → nat → option GoError := λ _ _, None.
Definition all_urls : string → option string := λ _, None.

Definition run_session : list label → option world := run all_sent all_urls init_world.
Definition after (ls : list label) : world := default init_world (run_session ls).

Definition upgrade : RequestStart :=
  mkRequestStart "1" "GET" "https" "demo.example.com" "/ws" ""
    [Some (mkHeader "Connection" ["Upgrade"]); Some (mkHeader "Upgrade" ["websocket"])]
    "192.0.2.1:5" "".
Definition post : RequestStart :=
  mkRequestStart "2" "POST" "https" "demo.example.com" "/" "" [] "192.0.2.1:5" "".

(** An accepted WebSocket whose handler stops reading; the queue fills up, one more
    message waits, and the handler's side of the connection ends: the goroutine of the
    WebSocket, thread 1, and its reader, thread 2, are done. *)
Definition ws_data : label := LStep 0 (Recv (ServerFrame_WsData "1" "x")).
Definition stalled : list label :=
  [LStep 0 (Recv (ServerFrame_RequestStart upgrade)); LStep 1 (WsResponse 101 ∅ None)]
  ++ mjoin (replicate 16 [ws_data; LStep 0 OnSend])
  ++ [ws_data; LStep 2 (Read "" true); LStep 1 OnReadDone; LStep 1 Go].

(** A request whose body is read in two pieces and to its end. *)
Definition upload : list label :=
  [LStep 0 (Recv (ServerFrame_RequestStart post));
   LStep 0 (Recv (ServerFrame_RequestBody "2" "hello")); LRead 0 1 2; LRead 0 1 10;
   LStep 0 (Recv (ServerFrame_RequestEnd "2")); LStep 1 HReadErr].

Definition stalled_world : world := after stalled.

Lemma stalled_wedged : wedged 0 "x" stalled_world.
Proof.
  assert (threads stalled_world =
    [TLoop [] (LWs 0 "x");
     TWs upgrade 0 [ClientFrame_ResponseStart (mkResponseStart "1" 101 [])] WDone;
     TWsRead "1" [ClientFrame_WsClose "1"] false]) as Hts by (vm_compute; reflexivity).
  constructor.
  - vm_compute. reflexivity.
  - exists []. by rewrite Hts.
  - rewrite Hts. clear Hts. by intros [|[|[|i]]] sent pc.
  - eexists. split; [vm_compute; reflexivity|]. split; [reflexivity|]. unfold wsQueueDepth. simpl. lia.
  - rewrite Hts. clear Hts. intros [|[|[|i]]] t Ht; by simplify_eq/=.
Qed.

(** C36. A WebSocket that ends can wedge the client for good.  There is a schedule with one
    WebSocket in which the receive loop waits to hand a message to a handler that has
    returned: nobody takes from the queue any more and nobody closes it, so as long as the
    context of Run lives the receive loop never takes another step, whatever happens, also
    when the stream to the edge breaks; the client neither serves nor reconnects. *)
Theorem client_wedged :
  run_session stalled = Some stalled_world
  ∧ threads stalled_world !! 1
      = Some (TWs upgrade 0 [ClientFrame_ResponseStart (mkResponseStart "1" 101 [])] WDone)
  ∧ ∀ ls w c, Forall (λ l, ∀ e, l ≠ LCancel e) ls → run all_sent all_urls stalled_world ls = Some w →
      (∃ sent, threads w !! 0 = Some (TLoop sent (LWs 0 "x")))
      ∧ exec all_sent all_urls w (LStep 0 c) = None.
Proof.
  split_and!; [vm_compute; reflexivity..|]. intros ls w c Hls Hr.
  pose proof (wedged_run _ _ _ _ _ _ _ stalled_wedged Hls Hr) as Hw.
  split; [apply Hw|by eapply stuck_blocked].
Qed.

Example session_no_panic_witness : panicked (st (after stalled)) = false.
Proof. apply (session_no_panic all_sent all_urls stalled). vm_compute. reflexivity. Defined.

Example request_body_in_order_witness :
  "hello" = cat (offered all_sent all_urls init_world upload 0).
Proof.
  refine (proj2 (request_body_in_order all_sent all_urls upload (after upload) 1 post 0
    (newTunnelResponseWriter "2") "hello" (Some EOF) SRun _ _) _);
    [vm_compute; reflexivity..|reflexivity].
Defined.
End scenario.
End Session.
