(* ===== verification/Delivery.v ===== *)
(** * tunnel: a handler's request is the one the edge sent.

    [Session.body_read] compares what a handler reads with what the receive
    loop offered to its pipe.  This file compares what the loop offered with the frames it
    received: if what the edge sends under each id is an initial part of one request's
    frames, then a handler belongs to exactly one of these requests, and its pipe gets the
    chunks of that request and no others, all of them if it ends. *)

From S2P Require Import Prelude GoStrings Proto Headers Channels Frames ResponseWriter Url Session.
Import Session.

Section delivery.
Context `{UnicodeData} (answer : nat → nat → option GoError) (parse_url : string → option string).

(** ** What is seen of the goroutines *)

Definition seen {A} (f : thread → option A) (ts : list thread) : nat → option A :=
  λ i, ts !! i ≫= f.

Lemma seen_app {A} (f : thread → option A) ts new i :
  Forall (λ t, f t = None) new → seen f (ts ++ new) i = seen f ts i.
Proof.
  intros Hnew. unfold seen. destruct (decide (i < length ts)) as [Hi|Hi].
  - by rewrite lookup_app_l.
  - rewrite lookup_app_r, (lookup_ge_None_2 ts) by lia. simpl.
    destruct (new !! (i - length ts)) as [t|] eqn:E; [|done]. simpl.
    by eapply Forall_lookup_1 in Hnew.
Qed.

Lemma seen_insert {A} (f : thread → option A) ts i t t' j :
  ts !! i = Some t →
  seen f (<[i := t']> ts) j = if decide (j = i) then f t' else seen f ts j.
Proof.
  intros Hi. unfold seen. case_decide as Hj.
  - subst j. by rewrite list_lookup_insert_eq by (by eapply lookup_lt_Some).
  - by rewrite list_lookup_insert_ne.
Qed.

Lemma seen_same {A} (f : thread → option A) ts i t t' j :
  ts !! i = Some t → f t' = f t → seen f (<[i := t']> ts) j = seen f ts j.
Proof.
  intros Hi Heq. rewrite (seen_insert _ _ _ t) by done. case_decide as Hj; [|done].
  subst j. unfold seen. by rewrite Hi.
Qed.

Lemma seen_snoc {A} (f : thread → option A) ts new j :
  length new ≤ 1 →
  seen f (ts ++ new) j = if decide (j = length ts) then new !! 0 ≫= f else seen f ts j.
Proof.
  intros Hlen. unfold seen. case_decide as Hj.
  - subst j. by rewrite lookup_app_r, Nat.sub_diag by done.
  - destruct (decide (j < length ts)) as [Hlt|Hge]; [by rewrite lookup_app_l|].
    rewrite (lookup_ge_None_2 ts), lookup_ge_None_2; [done|rewrite length_app|]; lia.
Qed.

(** ** The serving goroutines *)

Definition serve_of (t : thread) : option (RequestStart * nat * option GoError * serve_pc) :=
  match t with TServe start r _ _ rerr pc => Some (start, r, rerr, pc) | _ => None end.

Definition view := nat → option (RequestStart * nat * option GoError * serve_pc).

Notation serving := (seen serve_of).

(** ** Slots *)

(** A goroutine that has closed its body. *)
Definition closed_body (pc : serve_pc) : bool :=
  match pc with SCancel | SDelete | SDone => true | _ => false end.

(** The pipe [x] of request [id], offered [h] of the frames [tl] after its start. *)
Record slot_ok (id : string) (x : inflightRequest) (h : list string) (tl : list ServerFrame)
    (rerr : option GoError) (pc : serve_pc) : Prop := {
  slot_prefix : h `prefix_of` chunks_of tl;
  slot_open : p_done (ir_pipe x) = false → chunks_of tl = h;
  slot_eof : (p_werr (ir_pipe x) = Some EOF ∧ p_rerr (ir_pipe x) = None) ∨ rerr = Some EOF →
    chunks_of tl = h ∧ ∃ l, tl = l ++ [ServerFrame_RequestEnd id];
  slot_closed : closed_body pc = true → p_done (ir_pipe x) = true }.

Record delivered (g : list ServerFrame) (h : nat → list string) (s : state) (v : view) : Prop := {
  dv_map : ∀ id r, inflight s !! id = Some r →
    ∃ i start rerr pc, v i = Some (start, r, rerr, pc) ∧ rs_RequestId start = id;
  dv_unique : ∀ i j x y, v i = Some x → v j = Some y →
    rs_RequestId x.1.1.1 = rs_RequestId y.1.1.1 → i = j;
  dv_slots : ∀ i j x y, v i = Some x → v j = Some y → x.1.1.2 = y.1.1.2 → i = j;
  dv_ok : ∀ i start r rerr pc, v i = Some (start, r, rerr, pc) →
    ∃ x tl, irH s !! r = Some x
      ∧ about (rs_RequestId start) g = ServerFrame_RequestStart start :: tl
      ∧ slot_ok (rs_RequestId start) x (h r) tl rerr pc
      ∧ (p_done (ir_pipe x) = false → inflight s !! rs_RequestId start = Some r) }.

Lemma delivered_ext g g' h h' s s' v v' :
  (∀ id, about id g' = about id g) → (∀ r, h' r = h r) →
  irH s' = irH s → inflight s' = inflight s → (∀ i, v' i = v i) →
  delivered g h s v → delivered g' h' s' v'.
Proof.
  intros Hg Hh Hi Hm Hv [Hmap Hu Hsl Hok]. constructor; try setoid_rewrite Hv; rewrite ?Hi, ?Hm; eauto.
  intros i start r rerr pc Hvi. destruct (Hok _ _ _ _ _ Hvi) as (x & tl & ?).
  exists x, tl. by rewrite Hg, Hh.
Qed.

(** The slot the table has for an id is the slot of the goroutine that serves it. *)
Lemma delivered_lookup g h s v i start r rerr pc r' :
  delivered g h s v → v i = Some (start, r, rerr, pc) →
  inflight s !! rs_RequestId start = Some r' → r' = r.
Proof.
  intros Hd Hi Hr. destruct (dv_map _ _ _ _ Hd _ _ Hr) as (j & start' & rerr' & pc' & Hj & Hid).
  assert (j = i) as -> by exact (dv_unique _ _ _ _ Hd _ _ _ _ Hj Hi Hid). congruence.
Qed.

Lemma about_snoc id g f : about id (g ++ [f]) = about id g ++ (if carries id f then [f] else []).
Proof.
  rewrite about_app. f_equal. unfold about. destruct (carries id f) eqn:E.
  - rewrite filter_cons_True; [done|]. by rewrite E.
  - rewrite filter_cons_False; [done|]. rewrite E. by intros [].
Qed.

(** ** What a frame does to a slot *)

Lemma slot_eof_proper id m x h tl f rerr pc :
  slot_ok id x h tl rerr pc → proper (ServerFrame_RequestStart m :: tl ++ [f]) →
  ¬ ((p_werr (ir_pipe x) = Some EOF ∧ p_rerr (ir_pipe x) = None) ∨ rerr = Some EOF).
Proof.
  intros Hs Hp He. destruct (slot_eof _ _ _ _ _ _ Hs He) as [_ [l ->]].
  by apply (proper_snoc_end (ServerFrame_RequestStart m :: l) id f).
Qed.

Lemma slot_late id m x h tl f rerr pc :
  slot_ok id x h tl rerr pc → proper (ServerFrame_RequestStart m :: tl ++ [f]) →
  p_done (ir_pipe x) = true → slot_ok id x h (tl ++ [f]) rerr pc.
Proof.
  intros Hs Hp Hd. constructor; [|congruence| |by apply Hs].
  - rewrite chunks_of_app. apply prefix_app_r, Hs.
  - intros He. by destruct (slot_eof_proper _ _ _ _ _ _ _ _ Hs Hp).
Qed.

Lemma slot_push id m x h tl chunk rerr pc :
  slot_ok id x h tl rerr pc →
  proper (ServerFrame_RequestStart m :: tl ++ [ServerFrame_RequestBody id chunk]) →
  p_done (ir_pipe x) = false →
  slot_ok id x (h ++ [chunk]) (tl ++ [ServerFrame_RequestBody id chunk]) rerr pc.
Proof.
  intros Hs Hp Hd.
  assert (chunks_of (tl ++ [ServerFrame_RequestBody id chunk]) = h ++ [chunk]) as Heq.
  { rewrite chunks_of_app. by rewrite (slot_open _ _ _ _ _ _ Hs Hd). }
  constructor; rewrite ?Heq; [done|done| |by apply Hs].
  intros He. by destruct (slot_eof_proper _ _ _ _ _ _ _ _ Hs Hp).
Qed.

Lemma p_done_false p : p_done p = false ↔ p_werr p = None ∧ p_rerr p = None.
Proof.
  unfold p_done. rewrite orb_false_iff, !bool_decide_eq_false.
  destruct (p_werr p), (p_rerr p); naive_solver.
Qed.

Lemma slot_end id m x h tl rerr pc :
  slot_ok id x h tl rerr pc →
  proper (ServerFrame_RequestStart m :: tl ++ [ServerFrame_RequestEnd id]) →
  slot_ok id (on_pipe (λ p, closeWrite p EOF) x) h (tl ++ [ServerFrame_RequestEnd id]) rerr pc.
Proof.
  intros Hs Hp. pose proof (slot_eof_proper _ _ _ _ _ _ _ _ Hs Hp) as Hn. constructor; try done.
  - rewrite chunks_of_app. apply prefix_app_r, Hs.
  - simpl. intros [[Hw Hr]|?]; [|by destruct Hn; right].
    destruct (p_werr (ir_pipe x)) as [e|] eqn:E; simpl in Hw.
    + simplify_eq. destruct Hn. by left.
    + rewrite chunks_of_app, (slot_open _ _ _ _ _ _ Hs) by (by apply p_done_false).
      rewrite app_nil_r. eauto.
Qed.

(** Closing a pipe otherwise. *)
Lemma slot_close id x y h tl rerr pc pc' :
  slot_ok id x h tl rerr pc → p_done (ir_pipe y) = true →
  (p_werr (ir_pipe y) = Some EOF → p_rerr (ir_pipe y) = None →
   p_werr (ir_pipe x) = Some EOF ∧ p_rerr (ir_pipe x) = None) →
  slot_ok id y h tl rerr pc'.
Proof.
  intros Hs Hd He. constructor; [apply Hs|congruence| |done].
  intros [[? ?]|?]; apply (slot_eof _ _ _ _ _ _ Hs); auto.
Qed.

(** Changes of the slots that leave the goroutines and the table alone. *)
Lemma delivered_upd g g' h h' s s' v :
  delivered g h s v → inflight s' = inflight s →
  (∀ i start r rerr pc x tl, v i = Some (start, r, rerr, pc) → irH s !! r = Some x →
     about (rs_RequestId start) g = ServerFrame_RequestStart start :: tl →
     slot_ok (rs_RequestId start) x (h r) tl rerr pc →
     (p_done (ir_pipe x) = false → inflight s !! rs_RequestId start = Some r) →
     ∃ y tl', irH s' !! r = Some y
       ∧ about (rs_RequestId start) g' = ServerFrame_RequestStart start :: tl'
       ∧ slot_ok (rs_RequestId start) y (h' r) tl' rerr pc
       ∧ (p_done (ir_pipe y) = false → p_done (ir_pipe x) = false)) →
  delivered g' h' s' v.
Proof.
  intros Hd Hm Hupd. destruct Hd as [Hmap Hu Hsl Hok]. constructor; rewrite ?Hm; try done.
  intros i start r rerr pc Hi. destruct (Hok _ _ _ _ _ Hi) as (x & tl & Hx & Ha & Hs & Hin).
  destruct (Hupd _ _ _ _ _ _ _ Hi Hx Ha Hs Hin) as (y & tl' & ? & ? & ? & ?).
  exists y, tl'. split_and!; auto.
Qed.

(** One that stays as it is. *)
Lemma slot_stays g g' h h' s s' start r rerr pc x tl :
  about (rs_RequestId start) g' = about (rs_RequestId start) g → h' r = h r →
  irH s' !! r = irH s !! r → irH s !! r = Some x →
  about (rs_RequestId start) g = ServerFrame_RequestStart start :: tl →
  slot_ok (rs_RequestId start) x (h r) tl rerr pc →
  ∃ y tl', irH s' !! r = Some y
    ∧ about (rs_RequestId start) g' = ServerFrame_RequestStart start :: tl'
    ∧ slot_ok (rs_RequestId start) y (h' r) tl' rerr pc
    ∧ (p_done (ir_pipe y) = false → p_done (ir_pipe x) = false).
Proof. intros -> -> ->. eauto 6. Qed.

Lemma carries_ne id id' f : server_frame_id f = Some id' → id' ≠ id → carries id f = false.
Proof.
  intros Hf Hne. destruct f; try done; simpl in *; apply bool_decide_eq_false; congruence.
Qed.

(** ** The frames *)

Section frame.
Context (g : list ServerFrame) (h : nat → list string) (s : state) (v : view).
Hypothesis Hd : delivered g h s v.

Lemma about_quiet f id : carries id f = false → about id (g ++ [f]) = about id g.
Proof. intros Hc. by rewrite about_snoc, Hc, app_nil_r. Qed.

Lemma about_push f id : carries id f = true → about id (g ++ [f]) = about id g ++ [f].
Proof. intros Hc. by rewrite about_snoc, Hc. Qed.

(** A start finds no goroutine under its id. *)
Lemma start_fresh m i start r rerr pc :
  proper (about (rs_RequestId m) (g ++ [ServerFrame_RequestStart m])) →
  v i = Some (start, r, rerr, pc) → rs_RequestId start ≠ rs_RequestId m.
Proof.
  intros Hp Hi Heq. rewrite about_push in Hp by (by apply bool_decide_eq_true).
  apply proper_snoc_start in Hp.
  destruct (dv_ok _ _ _ _ Hd _ _ _ _ _ Hi) as (x & tl & _ & Ha & _). congruence.
Qed.

Lemma delivered_start m s' :
  proper (about (rs_RequestId m) (g ++ [ServerFrame_RequestStart m])) →
  irH s' = irH s → inflight s' = inflight s →
  delivered (g ++ [ServerFrame_RequestStart m]) h s' v.
Proof.
  intros Hp Hir Hm. eapply delivered_upd; [exact Hd|done|].
  intros i start r rerr pc x tl Hi Hx Ha Hs _. eapply slot_stays; [|done|by rewrite Hir|done..].
  eapply about_quiet, carries_ne; [done|]. apply not_eq_sym. by eapply start_fresh.
Qed.

(** The goroutine that serves it. *)
Lemma delivered_serve m s' n v' :
  proper (about (rs_RequestId m) (g ++ [ServerFrame_RequestStart m])) →
  h (length (irH s)) = [] → v n = None →
  irH s' = irH s ++ [mkIR false (mkPipe None None)] →
  inflight s' = <[rs_RequestId m := length (irH s)]> (inflight s) →
  (∀ i, v' i = if decide (i = n) then Some (m, length (irH s), None, SRun) else v i) →
  delivered (g ++ [ServerFrame_RequestStart m]) h s' v'.
Proof.
  intros Hp Hh Hn Hir Hm Hv.
  assert (∀ i start r rerr pc, v i = Some (start, r, rerr, pc) →
    i ≠ n ∧ rs_RequestId start ≠ rs_RequestId m ∧ r < length (irH s)) as Hold.
  { intros i start r rerr pc Hi. split; [congruence|]. split; [by eapply start_fresh|].
    destruct (dv_ok _ _ _ _ Hd _ _ _ _ _ Hi) as (x & _ & Hx & _). by eapply lookup_lt_Some. }
  constructor.
  - intros id r. rewrite Hm. intros [[<- <-]|[Hne Hr]]%lookup_insert_Some.
    + exists n, m, None, SRun. by rewrite Hv, decide_True.
    + destruct (dv_map _ _ _ _ Hd _ _ Hr) as (i & start & rerr & pc & Hi & <-).
      destruct (Hold _ _ _ _ _ Hi) as [Hin _].
      exists i, start, rerr, pc. by rewrite Hv, decide_False.
  - intros i j [[[a b] c] d] [[[a' b'] c'] d'] Hi Hj. simpl. rewrite Hv in Hi. rewrite Hv in Hj.
    intros Heq. destruct (decide (i = n)) as [->|], (decide (j = n)) as [->|]; [done|..].
    + injection Hi as <- <- <- <-. by destruct (Hold _ _ _ _ _ Hj) as (_ & [] & _).
    + injection Hj as <- <- <- <-. by destruct (Hold _ _ _ _ _ Hi) as (_ & [] & _).
    + exact (dv_unique _ _ _ _ Hd _ _ _ _ Hi Hj Heq).
  - intros i j [[[a b] c] d] [[[a' b'] c'] d'] Hi Hj. simpl. rewrite Hv in Hi. rewrite Hv in Hj.
    intros Heq. destruct (decide (i = n)) as [->|], (decide (j = n)) as [->|]; [done|..].
    + injection Hi as <- <- <- <-. destruct (Hold _ _ _ _ _ Hj) as (_ & _ & ?). lia.
    + injection Hj as <- <- <- <-. destruct (Hold _ _ _ _ _ Hi) as (_ & _ & ?). lia.
    + exact (dv_slots _ _ _ _ Hd _ _ _ _ Hi Hj Heq).
  - intros i start r rerr pc. rewrite Hv. intros Hi. destruct (decide (i = n)) as [->|].
    + simplify_eq. exists (mkIR false (mkPipe None None)), []. split_and!.
      * rewrite Hir. by apply list_lookup_middle.
      * rewrite about_push in Hp |- * by (by apply bool_decide_eq_true).
        by rewrite (proper_snoc_start _ _ Hp).
      * rewrite Hh. constructor; try done. simpl. by intros [[]|].
      * intros _. rewrite Hm. apply lookup_insert_eq.
    + destruct (Hold _ _ _ _ _ Hi) as (_ & Hne & Hlt).
      destruct (dv_ok _ _ _ _ Hd _ _ _ _ _ Hi) as (x & tl & Hx & Ha & Hs & Hin).
      exists x, tl. split_and!; [|rewrite about_quiet; [done|]|done|].
      * rewrite Hir. by apply lookup_app_l_Some.
      * by eapply carries_ne; [|apply not_eq_sym].
      * intros Ho. rewrite Hm, lookup_insert_ne by done. auto.
Qed.

Lemma delivered_body id chunk s' h' :
  proper (about id (g ++ [ServerFrame_RequestBody id chunk])) →
  irH s' = irH s → inflight s' = inflight s →
  (∀ r, h' r = h r ++ loop_offer s LRecv (Recv (ServerFrame_RequestBody id chunk)) r) →
  delivered (g ++ [ServerFrame_RequestBody id chunk]) h' s' v.
Proof.
  intros Hp Hir Hm Hh. eapply delivered_upd; [exact Hd|done|].
  intros i start r rerr pc x tl Hi Hx Ha Hs Hin. rewrite Hir.
  assert (rs_RequestId start ≠ id → inflight s !! id ≠ Some r) as Hother.
  { intros Hne Hr. destruct (dv_map _ _ _ _ Hd _ _ Hr) as (j & start' & rerr' & pc' & Hj & Hid).
    assert (j = i) as -> by exact (dv_slots _ _ _ _ Hd _ _ _ _ Hj Hi eq_refl). congruence. }
  cbn [loop_offer] in Hh. destruct (decide (rs_RequestId start = id)) as [<-|Hne].
  - rewrite about_push, Ha in Hp |- * by (by apply bool_decide_eq_true).
    destruct (p_done (ir_pipe x)) eqn:Hdone.
    + exists x. eexists. split_and!; [done|reflexivity| |congruence].
      assert (h' r = h r) as ->; [|by eapply slot_late].
      rewrite Hh. destruct (inflight s !! rs_RequestId start) as [r'|] eqn:E; [|apply app_nil_r].
      destruct (irH s !! r') as [y|] eqn:Hy; [|apply app_nil_r].
      rewrite (delivered_lookup _ _ _ _ _ _ _ _ _ _ Hd Hi E) in Hy. simplify_eq.
      rewrite Hdone, andb_false_r. apply app_nil_r.
    + exists x. eexists. split_and!; [done|reflexivity| |done].
      rewrite Hh, (Hin eq_refl), Hx, bool_decide_true, Hdone by done. by eapply slot_push.
  - eapply slot_stays; [| |done..].
    + apply about_quiet. eapply carries_ne; [done|]. congruence.
    + rewrite Hh. destruct (inflight s !! id) as [r'|] eqn:E; [|apply app_nil_r].
      destruct (irH s !! r') as [y|]; [|apply app_nil_r].
      rewrite bool_decide_false; [apply app_nil_r|]. intros ->. by destruct (Hother Hne).
Qed.

(** A frame that closes the pipe of its request, if the request is still in the table. *)
Lemma delivered_close id f (F : inflightRequest → inflightRequest) s' :
  (∀ i start r rerr pc x tl, v i = Some (start, r, rerr, pc) → rs_RequestId start = id →
     irH s !! r = Some x → about id g = ServerFrame_RequestStart start :: tl →
     slot_ok id x (h r) tl rerr pc →
     ∃ tl', about id (g ++ [f]) = ServerFrame_RequestStart start :: tl'
       ∧ slot_ok id (F x) (h r) tl' rerr pc ∧ p_done (ir_pipe (F x)) = true
       ∧ (p_done (ir_pipe x) = true → slot_ok id x (h r) tl' rerr pc)) →
  server_frame_id f = Some id →
  s' = match inflight s !! id with None => s | Some r => upd_ir s r F end →
  delivered (g ++ [f]) h s' v.
Proof.
  intros HF Hf ->.
  eapply delivered_upd; [exact Hd|by destruct (inflight s !! id)|].
  intros i start r rerr pc x tl Hi Hx Ha Hs Hin.
  destruct (decide (rs_RequestId start = id)) as [<-|Hne].
  - destruct (HF _ _ _ _ _ _ _ Hi eq_refl Hx Ha Hs) as (tl' & Ha' & HsF & HdF & Hs').
    destruct (inflight s !! rs_RequestId start) as [r'|] eqn:E.
    + assert (r' = r) as -> by (by eapply delivered_lookup). exists (F x), tl'. simpl.
      rewrite list_lookup_alter_eq, Hx. split_and!; [done..|congruence].
    + exists x, tl'. split_and!; [done|done| |done]. apply Hs'.
      destruct (p_done (ir_pipe x)); [done|]. by specialize (Hin eq_refl).
  - eapply slot_stays; [|done| |done..].
    + apply about_quiet. eapply carries_ne; [done|]. congruence.
    + destruct (inflight s !! id) as [r'|] eqn:E; [|done]. simpl. apply list_lookup_alter_ne.
      intros ->. destruct (dv_map _ _ _ _ Hd _ _ E) as (j & start' & rerr' & pc' & Hj & Hid).
      assert (j = i) as -> by exact (dv_slots _ _ _ _ Hd _ _ _ _ Hj Hi eq_refl). congruence.
Qed.

Lemma delivered_end id s' :
  proper (about id (g ++ [ServerFrame_RequestEnd id])) →
  s' = match inflight s !! id with
       | None => s | Some r => upd_ir s r (on_pipe (λ p, closeWrite p EOF)) end →
  delivered (g ++ [ServerFrame_RequestEnd id]) h s' v.
Proof.
  intros Hp. apply delivered_close; [|done].
  intros i start r rerr pc x tl Hi Hid Hx Ha Hs.
  rewrite about_push, Ha in Hp |- * by (by apply bool_decide_eq_true).
  eexists. split_and!; [reflexivity|by eapply slot_end|done|]. intros. by eapply slot_late.
Qed.

Lemma delivered_cancel id s' :
  s' = match inflight s !! id with
       | None => s
       | Some r => upd_ir s r (λ x, on_pipe (λ p, closeWrite p ContextCanceled) (cancel x)) end →
  delivered (g ++ [ServerFrame_CancelRequest id]) h s' v.
Proof.
  apply delivered_close; [|done].
  intros i start r rerr pc x tl Hi Hid Hx Ha Hs.
  exists tl. rewrite about_quiet by done. split_and!; [done| |done|done].
  eapply slot_close; [exact Hs|done|]. simpl. intros Hw Hr. split; [|done].
  by destruct (p_werr (ir_pipe x)).
Qed.
End frame.

(** Any frame; [n] is the index the first goroutine started gets. *)
Lemma handle_frame_delivered g h s v self sent f s' sent' pc' new n :
  handle_frame answer parse_url s self sent f = Some (s', sent', pc', new) →
  delivered g h s v → v n = None → (∀ r, length (irH s) ≤ r → h r = []) →
  (∀ id, proper (about id (g ++ [f]))) →
  delivered (g ++ [f]) (λ r, h r ++ loop_offer s LRecv (Recv f) r) s'
    (λ i, if decide (i = n) then new !! 0 ≫= serve_of else v i).
Proof.
  intros Hf Hd Hn Hh Hp.
  assert (∀ h' s', delivered (g ++ [f]) h' s' v → new !! 0 ≫= serve_of = None →
    (∀ r, h r ++ loop_offer s LRecv (Recv f) r = h' r) →
    delivered (g ++ [f]) (λ r, h r ++ loop_offer s LRecv (Recv f) r) s'
      (λ i, if decide (i = n) then new !! 0 ≫= serve_of else v i)) as Hold.
  { intros h1 s1 Hd1 Hnew Hh1. eapply delivered_ext; [..|exact Hd1]; try done.
    intros i. case_decide; [|done]. subst i. by rewrite Hnew, Hn. }
  destruct f as [start|id chunk|id|id|nano|id payload|id|]; cbn [handle_frame] in Hf.
  - unfold handle_start in Hf. destruct (isWebSocketUpgrade start); simplify_eq.
    { apply (Hold h); [by apply (delivered_start _ _ _ _ Hd)|done|intros; apply app_nil_r]. }
    destruct (newRequest_err _ start) eqn:E; simplify_eq.
    { apply (Hold h); [by apply (delivered_start _ _ _ _ Hd)|done|intros; apply app_nil_r]. }
    eapply delivered_ext; [..|eapply (delivered_serve _ _ _ _ Hd start _ n)]; try done; simpl.
    + intros r. apply app_nil_r.
    + by apply Hh.
  - eapply (Hold _); [eapply (delivered_body _ _ _ _ Hd id chunk)|..]; try done;
      destruct (inflight s !! id); open_step; done.
  - simplify_eq. eapply (Hold h); [eapply (delivered_end _ _ _ _ Hd id)|..]; try done.
    intros; apply app_nil_r.
  - simplify_eq. eapply (Hold h); [eapply (delivered_cancel _ _ _ _ Hd id)|..]; try done.
    intros; apply app_nil_r.
  - unfold send_frame in Hf. simplify_eq. apply (Hold h); [|done|intros; apply app_nil_r].
    eapply delivered_ext; [..|exact Hd]; try done. intros id. by apply about_quiet.
  - simplify_eq. apply (Hold h); [|done|intros; apply app_nil_r].
    eapply delivered_ext; [..|exact Hd]; try done. intros x. by apply about_quiet.
  - assert (irH s' = irH s ∧ inflight s' = inflight s ∧ new = []) as (Hir & Hm & ->).
    { destruct (wsInbound s !! id); [|by simplify_eq].
      apply bind_Some in Hf as (s1 & Hc & Hf). simplify_eq. by destruct (close_chan_irH _ _ _ Hc). }
    apply (Hold h); [|done|intros; apply app_nil_r].
    eapply delivered_ext; [..|exact Hd]; try done. intros x. by apply about_quiet.
  - simplify_eq. apply (Hold h); [|done|intros; apply app_nil_r].
    eapply delivered_ext; [..|exact Hd]; try done. intros x. by apply about_quiet.
Qed.

(** ** Steps *)

(** What a step of the loop has received. *)
Definition got_frame (pc : loop_pc) (c : choice) : list ServerFrame :=
  match pc, c with LRecv, Recv f => [f] | _, _ => [] end.

Lemma p_done_teardown irs l r x :
  irs !! r = Some x →
  ∃ y, foldl teardown_ir irs l !! r = Some y ∧ (r ∈ l → p_done (ir_pipe y) = true)
    ∧ (y = x ∨ p_done (ir_pipe y) = true ∧ p_rerr (ir_pipe y) ≠ None).
Proof.
  revert irs x. induction l as [|q l IH]; intros irs x Hx; simpl.
  { exists x. split_and!; [done|by intros ?%elem_of_nil|by left]. }
  set (f := λ x, on_pipe (λ p, closeRead (closeWrite p errSessionEnded) errSessionEnded) (cancel x)).
  destruct (decide (q = r)) as [->|Hne].
  - destruct (IH (teardown_ir irs r) (f x)) as (y & Hy & _ & Ho).
    { unfold teardown_ir. by rewrite list_lookup_alter_eq, Hx. }
    exists y. assert (p_done (ir_pipe y) = true ∧ p_rerr (ir_pipe y) ≠ None) as [? ?].
    { destruct Ho as [->|?]; [|done]. unfold f. simpl. by rewrite p_done_closeRead. }
    split_and!; auto.
  - destruct (IH (teardown_ir irs q) x) as (y & Hy & Hin & Ho).
    { unfold teardown_ir. by rewrite list_lookup_alter_ne. }
    exists y. split_and!; [done| |done]. intros [?|?]%elem_of_cons; [congruence|auto].
Qed.

Lemma teardown_delivered g h s s' v :
  delivered g h s v → teardown s = Some s' → delivered g h s' v.
Proof.
  intros Hd Ht. unfold teardown in Ht. apply close_chans_irH in Ht as [Hir Hm]. simpl in Hir, Hm.
  constructor; [| |apply Hd|]; rewrite ?Hm; [by intros id r ?|apply Hd|].
  intros i start r rerr pc Hi. destruct (dv_ok _ _ _ _ Hd _ _ _ _ _ Hi) as (x & tl & Hx & Ha & Hs & Hin).
  destruct (p_done_teardown _ (map_to_list (inflight s)).*2 _ _ Hx) as (y & Hy & Hl & Ho).
  assert (p_done (ir_pipe y) = true) as Hdone.
  { destruct (p_done (ir_pipe x)) eqn:E; [by destruct Ho as [->|[? _]]|]. apply Hl.
    apply list_elem_of_fmap. exists (rs_RequestId start, r). split; [done|].
    apply elem_of_map_to_list. auto. }
  exists y, tl. split_and!; [by rewrite Hir|done| |congruence].
  destruct Ho as [->|[_ Hr]]; [done|]. eapply slot_close; [exact Hs|done|]. by intros _ ?.
Qed.

Lemma loop_step_delivered g h s v self sent pc c s' sent' pc' new n :
  loop_step answer parse_url s self sent pc c = Some (s', sent', pc', new) →
  delivered g h s v → v n = None → (∀ r, length (irH s) ≤ r → h r = []) →
  (∀ id, proper (about id (g ++ got_frame pc c))) →
  delivered (g ++ got_frame pc c) (λ r, h r ++ loop_offer s pc c r) s'
    (λ i, if decide (i = n) then new !! 0 ≫= serve_of else v i).
Proof.
  intros Hs Hd Hn Hh Hp.
  assert (∀ s', delivered g h s' v → new = [] → got_frame pc c = [] →
    (∀ r, loop_offer s pc c r = []) →
    delivered (g ++ got_frame pc c) (λ r, h r ++ loop_offer s pc c r) s'
      (λ i, if decide (i = n) then new !! 0 ≫= serve_of else v i)) as Hquiet.
  { intros s1 Hd1 -> -> Ho. eapply delivered_ext; [..|exact Hd1]; try done.
    - intros id. by rewrite app_nil_r.
    - intros r. by rewrite Ho, app_nil_r.
    - intros i. case_decide; [|done]. by subst i. }
  destruct pc as [|r' rest|ch payload|e|e], c; try done; cbn [loop_step] in Hs;
    try (by eapply handle_frame_delivered).
  - simplify_eq. by apply Hquiet.
  - open_step; by apply Hquiet.
  - apply bind_Some in Hs as (s1 & Hc & Hs). simplify_eq. apply Hquiet; try done.
    unfold send_chan in Hc. apply bind_Some in Hc as (x & _ & Hc).
    eapply delivered_ext; [..|exact Hd]; try done;
      (destruct (ch_closed x); [by simplify_eq|]); by apply bind_Some in Hc as (q & _ & [= <-]).
  - open_step; by apply Hquiet.
  - apply bind_Some in Hs as (s1 & Ht & Hs). simplify_eq. apply Hquiet; try done.
    by eapply teardown_delivered.
Qed.

(** A step of the goroutine [i] that touches its own slot only. *)
Lemma delivered_own g h s s' v i start r rerr pc rerr' pc' :
  delivered g h s v → v i = Some (start, r, rerr, pc) →
  (∀ q, q ≠ r → irH s' !! q = irH s !! q) →
  (∀ id, id ≠ rs_RequestId start → inflight s' !! id = inflight s !! id) →
  (∀ id q, inflight s' !! id = Some q → inflight s !! id = Some q) →
  (∀ x tl, irH s !! r = Some x → slot_ok (rs_RequestId start) x (h r) tl rerr pc →
     (p_done (ir_pipe x) = false → inflight s !! rs_RequestId start = Some r) →
     ∃ y, irH s' !! r = Some y ∧ slot_ok (rs_RequestId start) y (h r) tl rerr' pc'
       ∧ (p_done (ir_pipe y) = false → inflight s' !! rs_RequestId start = Some r)) →
  delivered g h s' (λ j, if decide (j = i) then Some (start, r, rerr', pc') else v j).
Proof.
  intros [Hmap Hu Hsl Hok] Hi Hq Hne Hsub Hown.
  assert (∀ j x, (if decide (j = i) then Some (start, r, rerr', pc') else v j) = Some x →
    ∃ y, v j = Some y ∧ x.1.1 = y.1.1) as Hold.
  { intros j x. case_decide; [|by eauto]. subst j. intros [= <-]. by eexists. }
  constructor.
  - intros id q (j & start1 & rerr1 & pc1 & Hj & Hid)%Hsub%Hmap.
    destruct (decide (j = i)) as [->|Hji].
    + rewrite Hi in Hj. injection Hj as <- <- <- <-. exists i, start, rerr', pc'. by rewrite decide_True.
    + exists j, start1, rerr1, pc1. by rewrite decide_False.
  - intros j k x y (x1 & Hj & Hx)%Hold (y1 & Hk & Hy)%Hold Heq.
    apply (Hu j k x1 y1 Hj Hk). by rewrite <-Hx, <-Hy.
  - intros j k x y (x1 & Hj & Hx)%Hold (y1 & Hk & Hy)%Hold Heq.
    apply (Hsl j k x1 y1 Hj Hk). by rewrite <-Hx, <-Hy.
  - intros j start1 q rerr1 pc1. destruct (decide (j = i)) as [->|Hji].
    + intros [= <- <- <- <-]. destruct (Hok _ _ _ _ _ Hi) as (x & tl & Hx & Ha & Hs & Hin).
      destruct (Hown _ _ Hx Hs Hin) as (y & ? & ? & ?). by exists y, tl.
    + intros Hj. destruct (Hok _ _ _ _ _ Hj) as (x & tl & Hx & Ha & Hs & Hin).
      exists x, tl. split_and!; [|done|done|].
      * rewrite Hq; [done|]. intros ->. by destruct Hji; apply (Hsl _ _ _ _ Hj Hi).
      * intros Ho. rewrite Hne; [auto|]. intros Heq. by destruct Hji; apply (Hu _ _ _ _ Hj Hi).
Qed.

Lemma slot_same id x h tl rerr pc rerr' pc' :
  slot_ok id x h tl rerr pc → (rerr' = Some EOF → rerr = Some EOF) →
  (closed_body pc' = true → closed_body pc = true) → slot_ok id x h tl rerr' pc'.
Proof.
  intros [? ? He ?] Hr Hc. constructor; auto. intros [?|?]; apply He; auto.
Qed.

Lemma serve_step_delivered g h s v i self start r w rerr pc c s' w' rerr' pc' :
  serve_step answer s self start r w rerr pc c = Some (s', w', rerr', pc') →
  delivered g h s v → v i = Some (start, r, rerr, pc) →
  delivered g h s' (λ j, if decide (j = i) then Some (start, r, rerr', pc') else v j).
Proof.
  intros Hs Hd Hi.
  destruct pc, c; try done; cbn [serve_step] in Hs; simplify_eq.
  - eapply delivered_own; [done..|]. intros x tl Hx Hok Hin. eauto.
  - apply bind_Some in Hs as (x & Hx & Hs). destruct (p_done (ir_pipe x)) eqn:Hdone; [|done].
    injection Hs as <- <- <- <-. eapply delivered_own; [done..|].
    intros y tl Hy [? ? He ?] Hin. rewrite Hx in Hy. injection Hy as <-. exists x.
    split_and!; [done| |done]. constructor; [done..| |done].
    intros [?|Heq]; apply He; [by left|left]. injection Heq as Heq.
    unfold readCloseError in Heq. destruct (p_rerr (ir_pipe x)); [done|].
    destruct (p_werr (ir_pipe x)); [|done]. by subst.
  - eapply delivered_own; [done..|]. intros x tl Hx Hok Hin. exists x.
    split_and!; [done| |done]. by eapply slot_same.
  - eapply delivered_own; [done..|]. intros x tl Hx Hok Hin. exists x.
    split_and!; [done| |done]. by eapply slot_same.
  - eapply delivered_own; [exact Hd|exact Hi| |done|done|].
    { intros q Hq. simpl. by rewrite list_lookup_alter_ne. }
    intros x tl Hx Hok Hin. exists (on_pipe (λ p, closeRead p ErrClosedPipe) x). simpl.
    rewrite list_lookup_alter_eq, Hx, p_done_closeRead. split_and!; [done| |done].
    eapply slot_close; [exact Hok|apply p_done_closeRead|]. done.
  - eapply delivered_own; [exact Hd|exact Hi| |done|done|].
    { intros q Hq. simpl. by rewrite list_lookup_alter_ne. }
    intros x tl Hx Hok Hin. exists (cancel x). simpl. rewrite list_lookup_alter_eq, Hx.
    split_and!; [done| |done]. destruct Hok. by constructor.
  - eapply delivered_own; [exact Hd|exact Hi|done| | |].
    { intros id Hne. simpl. by rewrite lookup_delete_ne. }
    { intros id q Hq. simpl in Hq. by apply lookup_delete_Some in Hq as [_ ?]. }
    intros x tl Hx Hok Hin. exists x. split_and!; [done| |].
    + by eapply slot_same.
    + by rewrite (slot_closed _ _ _ _ _ _ Hok).
Qed.

(** *** The session *)

Definition receive (w : world) (l : label) : list ServerFrame :=
  match l with
  | LStep i c => match threads w !! i with Some (TLoop _ pc) => got_frame pc c | _ => [] end
  | _ => []
  end.

(** The frames the session has received along a run. *)
Fixpoint received (w : world) (ls : list label) : list ServerFrame :=
  match ls with
  | [] => []
  | l :: ls =>
    receive w l ++ match exec answer parse_url w l with Some w' => received w' ls | None => [] end
  end.

Lemma loop_step_new s self sent pc c s' sent' pc' new :
  loop_step answer parse_url s self sent pc c = Some (s', sent', pc', new) → length new ≤ 1.
Proof.
  intros Hs. destruct pc as [|r' rest|ch payload|e|e], c as [| | | | | |f| | | | | | | |]; try done;
    cbn [loop_step] in Hs; try (open_step; simpl; lia).
  destruct f; cbn [handle_frame] in Hs; try (open_step; simpl; lia).
  unfold handle_start in Hs. repeat case_match; simplify_eq; simpl; lia.
Qed.

Lemma ws_step_new s self next rd start ch sent pc c s' sent' pc' new :
  ws_step answer s self next rd start ch sent pc c = Some (s', sent', pc', new) →
  Forall (λ t, serve_of t = None) new.
Proof.
  intros Hs. destruct pc as [|[|[data failed] reads]| | | | |], c; try done; cbn [ws_step] in Hs;
    unfold send_frame in Hs; try (open_step; constructor; done).
  simplify_eq. repeat case_match; repeat constructor; done.
Qed.

Lemma thread_step_delivered g h w i t c s' t' new :
  delivered g h (st w) (serving (threads w)) → bodies h w → threads w !! i = Some t →
  thread_step answer parse_url (st w) (threads w) i t c = Some (s', t', new) →
  (∀ id, proper (about id (g ++ receive w (LStep i c)))) →
  delivered (g ++ receive w (LStep i c)) (λ r, h r ++ offer w (LStep i c) r) s'
    (serving (<[i := t']> (threads w) ++ new)).
Proof.
  intros Hd Hb Hi Hs Hp. cbn [receive offer] in *. rewrite Hi in *.
  assert (∀ v, delivered g h s' v → (∀ sent pc, t ≠ TLoop sent pc) →
    (∀ j, serving (<[i := t']> (threads w) ++ new) j = v j) →
    delivered (g ++ match t with TLoop _ pc => got_frame pc c | _ => [] end)
      (λ r, h r ++ match t with TLoop _ pc => loop_offer (st w) pc c r | _ => [] end) s'
      (serving (<[i := t']> (threads w) ++ new))) as Hother.
  { intros v Hd1 Hn Hv. eapply delivered_ext; [..|exact Hd1]; try done.
    - intros id. destruct t; rewrite ?app_nil_r; try done. by edestruct Hn.
    - intros r. destruct t; rewrite ?app_nil_r; try done. by edestruct Hn. }
  destruct t as [sent pc|start r wr got rerr pc|start ch sent pc|id sent running]; cbn [thread_step] in Hs;
    apply bind_Some in Hs as (x & Hs & Heq); repeat case_match; simplify_eq.
  - eapply delivered_ext;
      [..|eapply (loop_step_delivered _ _ _ _ _ _ _ _ _ _ _ _ (length (threads w)) Hs Hd)]; try done.
    + intros j. rewrite seen_snoc by (by eapply loop_step_new).
      rewrite length_insert. case_decide; [done|]. by erewrite seen_same.
    + unfold seen. by rewrite lookup_ge_None_2.
    + apply Hb.
  - apply (Hother _ (serve_step_delivered _ _ _ _ i _ _ _ _ _ _ _ _ _ _ _ Hs Hd
      ltac:(unfold seen; by rewrite Hi))); [done|].
    intros j. rewrite app_nil_r. by erewrite seen_insert.
  - destruct (ws_step_irH _ _ _ _ _ _ _ _ _ _ _ _ _ _ Hs) as [Hir Hin].
    apply (Hother (serving (threads w))); [by eapply delivered_ext; [..|exact Hd]|done|].
    intros j. rewrite seen_app by (by eapply ws_step_new). by erewrite seen_same.
  - apply (Hother (serving (threads w))); [done..|].
    intros j. rewrite app_nil_r. by erewrite seen_same.
Qed.

Lemma exec_delivered g h w l w' :
  delivered g h (st w) (serving (threads w)) → bodies h w → exec answer parse_url w l = Some w' →
  (∀ id, proper (about id (g ++ receive w l))) →
  delivered (g ++ receive w l) (λ r, h r ++ offer w l r) (st w') (serving (threads w')).
Proof.
  intros Hd Hb Hl Hp. destruct l as [i c|l i n|e].
  - cbn [exec] in Hl. apply bind_Some in Hl as (t & Hi & ([[s' t'] new] & Hs & [= <-])%bind_Some).
    by eapply thread_step_delivered.
  - cbn [exec] in Hl.
    destruct (threads w !! l) as [[sent1 [| r rest | | |]| | |]|] eqn:Hl'; try done.
    destruct (threads w !! i) as [[|start r' wr got rerr []| |]|] eqn:Hi; try done.
    apply bind_Some in Hl as (x & Hx & Hl). case_match; simplify_eq.
    eapply delivered_ext; [..|exact Hd]; try done.
    + intros id. by rewrite app_nil_r.
    + intros q. by rewrite app_nil_r.
    + intros j. simpl. set (ts := <[l:=_]> (threads w)).
      assert (∀ k, serving ts k = serving (threads w) k) as Hts by (intros k; by eapply seen_same).
      destruct (decide (l = i)) as [->|Hne]; [congruence|].
      rewrite <-Hts. apply (seen_same _ _ _ (TServe start r' wr got rerr SRun)); [|done].
      unfold ts. by rewrite list_lookup_insert_ne.
  - cbn [exec] in Hl. destruct (ctx (st w)); simplify_eq.
    eapply delivered_ext; [..|exact Hd]; try done.
    + intros id. by rewrite app_nil_r.
    + intros q. by rewrite app_nil_r.
Qed.

Lemma run_delivered g h w ls w' :
  delivered g h (st w) (serving (threads w)) → bodies h w → run answer parse_url w ls = Some w' →
  (∀ id, proper (about id (g ++ received w ls))) →
  delivered (g ++ received w ls) (λ r, h r ++ offered answer parse_url w ls r)
    (st w') (serving (threads w')).
Proof.
  revert g h w. induction ls as [|l ls IH]; intros g h w Hd Hb; simpl.
  { intros [= <-] _. eapply delivered_ext; [..|exact Hd]; try done.
    - intros id. by rewrite app_nil_r.
    - intros q. by rewrite app_nil_r. }
  intros (w1 & Hl & Hr)%bind_Some Hp. rewrite Hl in Hp.
  assert (∀ id, proper (about id (g ++ receive w l))) as Hp1.
  { intros id. eapply proper_prefix; [|apply (Hp id)]. rewrite app_assoc.
    apply about_prefix. by eexists. }
  assert (bodies (λ r, h r ++ offer w l r) w1) as Hb1 by (by eapply bodies_step).
  eapply delivered_ext; [..|apply (IH _ _ _ (exec_delivered _ _ _ _ _ Hd Hb Hl Hp1) Hb1 Hr)]; try done.
  - intros id. by rewrite Hl, <-app_assoc.
  - intros r. by rewrite Hl, <-app_assoc.
  - intros id. by rewrite <-app_assoc.
Qed.

Lemma delivered_init : delivered [] (λ _, []) (st init_world) (serving (threads init_world)).
Proof.
  assert (∀ i, serving (threads init_world) i = None) as Hn by (by intros [|i]).
  constructor; [done|..]; intros; by rewrite Hn in *.
Qed.

(** What a handler has read, against the frames its session has received. *)
Lemma delivered_read ls w i start r wr got rerr pc :
  run answer parse_url init_world ls = Some w →
  threads w !! i = Some (TServe start r wr got rerr pc) →
  (∀ id, proper (about id (received init_world ls))) →
  ∃ tl, about (rs_RequestId start) (received init_world ls) = ServerFrame_RequestStart start :: tl
    ∧ (∃ rest, got +:+ rest = cat (chunks_of tl))
    ∧ (rerr = Some EOF →
       got = cat (chunks_of tl) ∧ ServerFrame_RequestEnd (rs_RequestId start) ∈ tl).
Proof.
  intros Hr Hi Hp.
  destruct (body_read _ _ _ _ _ _ _ _ _ _ _ Hr Hi) as [[rest Hrest] Heof].
  pose proof (run_delivered _ _ _ _ _ delivered_init bodies_init Hr Hp) as Hd. simpl in Hd.
  destruct (dv_ok _ _ _ _ Hd i start r rerr pc) as (x & tl & _ & Ha & Hs & _).
  { unfold seen. by rewrite Hi. }
  exists tl. split; [exact Ha|]. split.
  - destruct (slot_prefix _ _ _ _ _ _ Hs) as [more ->]. rewrite cat_app, <-Hrest, app_assoc_str. eauto.
  - intros He. destruct (slot_eof _ _ _ _ _ _ Hs (or_intror He)) as [-> [l ->]].
    split; [by apply Heof|]. rewrite elem_of_app. right. left.
Qed.
End delivery.
