(* ===== verification/Answering.v ===== *)
(** * tunnel: what the client sends under a request's id is its handler's response.

    [ResponseWriter] says which frames one writer sends; here the writers of all goroutines
    of a session send on one stream.  The frames sent are recorded along a run; those that
    answer a request are compared with the frames of the one writer that serves it, and the
    writer with the calls its handler has made. *)

From S2P Require Import Prelude GoStrings Proto Headers Channels Frames ResponseWriter Url Session Delivery.
Import Session.

Section answering.
Context `{UnicodeData} (answer : nat → nat → option GoError) (parse_url : string → option string).

(** ** What a run sends *)

(** The frames a goroutine has sent. *)
Definition frames_of (t : thread) : list ClientFrame :=
  match t with
  | TLoop sent _ | TWs _ _ sent _ | TWsRead _ sent _ => sent
  | TServe _ _ w _ _ _ => frames w
  end.

(** The frames a step sends. *)
Definition emit (w : world) (l : label) : list ClientFrame :=
  match l with
  | LStep i c =>
    match threads w !! i, exec answer parse_url w l with
    | Some t, Some w' => drop (length (frames_of t)) (from_option frames_of [] (threads w' !! i))
    | _, _ => []
    end
  | _ => []
  end.

(** The frames a whole run sends, in the order in which it sends them. *)
Fixpoint emitted (w : world) (ls : list label) : list ClientFrame :=
  match ls with
  | [] => []
  | l :: ls =>
    emit w l ++ match exec answer parse_url w l with Some w' => emitted w' ls | None => [] end
  end.

(** The calls the handler of goroutine [i] makes, and how it returns. *)
Definition op_by (i : nat) (l : label) : list hop :=
  match l with LStep j (HOp o) => if decide (j = i) then [o] else [] | _ => [] end.
Definition ops_by (ls : list label) (i : nat) : list hop := mjoin (op_by i <$> ls).

Definition return_by (i : nat) (l : label) : list (option string) :=
  match l with LStep j (HReturn e) => if decide (j = i) then [e] else [] | _ => [] end.
Definition returns_by (ls : list label) (i : nat) : list (option string) := mjoin (return_by i <$> ls).

(** ** Frames of a writer *)

(** The writer [w'] is [w] after it has sent some more frames for its request. *)
Definition extends (w w' : tunnelResponseWriter) : Prop :=
  requestID w' = requestID w
  ∧ ∃ l, frames w' = frames w ++ l ∧ replies (requestID w) l = l.

Lemma extends_refl w w' : requestID w' = requestID w → frames w' = frames w → extends w w'.
Proof. intros Hi Hf. split; [done|]. exists []. by rewrite app_nil_r. Qed.

Lemma extends_trans w1 w2 w3 : extends w1 w2 → extends w2 w3 → extends w1 w3.
Proof.
  intros [Hi1 (l1 & Hf1 & Hr1)] [Hi2 (l2 & Hf2 & Hr2)]. split; [congruence|].
  exists (l1 ++ l2). rewrite Hf2, Hf1, app_assoc, replies_app, Hr1, <-Hi1, Hr2. done.
Qed.

Lemma send_extends a w f :
  reply_id f = Some (requestID w) → extends w (send a w f).1.
Proof.
  intros Hf. split; [done|]. exists [f]. split; [done|]. by rewrite replies_one, decide_True.
Qed.

Lemma set_sendErr_extends w e : extends w (set_sendErr w e).
Proof. unfold set_sendErr. by destruct (sendErr w); apply extends_refl. Qed.

Lemma WriteHeader_extends a w status : extends w (WriteHeader a w status).
Proof.
  unfold WriteHeader. destruct (_ || _); [by apply extends_refl|].
  destruct (send a _ _) as [w1 err] eqn:Hs.
  assert (extends w w1) as He.
  { apply (f_equal fst) in Hs. simpl in Hs. subst w1.
    eapply extends_trans; [|by apply (send_extends a)]. by apply extends_refl. }
  destruct err; [|done]. eapply extends_trans; [done|apply set_sendErr_extends].
Qed.

Lemma Write_extends a w p : extends w (Write a w p).1.
Proof.
  unfold Write. destruct (sendErr w); [by apply extends_refl|].
  set (w1 := if negb (wroteHeader w) then WriteHeader a w 200 else w).
  assert (extends w w1) as He.
  { unfold w1. destruct (negb _); [apply WriteHeader_extends|by apply extends_refl]. }
  destruct (sendErr w1); [done|]. eapply extends_trans; [done|].
  destruct (send a w1 _) as [w2 err] eqn:Hs.
  assert (extends w1 w2) as He2.
  { apply (f_equal fst) in Hs. simpl in Hs. subst w2. by apply (send_extends a). }
  destruct err; [|done]. eapply extends_trans; [done|apply set_sendErr_extends].
Qed.

Lemma do_op_extends a w o : extends w (do_op a w o).
Proof.
  destruct o; simpl; [by apply extends_refl|apply WriteHeader_extends|apply Write_extends|].
  unfold Flush. destruct (_ && _); [apply WriteHeader_extends|by apply extends_refl].
Qed.

Lemma Finish_extends a w : extends w (Finish a w).1.
Proof.
  unfold Finish. destruct (ended w); [by apply extends_refl|].
  set (w1 := if negb (wroteHeader w) then WriteHeader a w (statusCode w) else w).
  assert (extends w w1) as He.
  { unfold w1. destruct (negb _); [apply WriteHeader_extends|by apply extends_refl]. }
  destruct (ended w1); [done|]. eapply extends_trans; [done|].
  eapply extends_trans; [by apply (extends_refl _ (set_ended w1))|by apply (send_extends a)].
Qed.

Lemma Fail_extends a w e : extends w (Fail a w e).1.
Proof.
  unfold Fail. destruct e; [|by apply extends_refl]. destruct (ended w); [by apply extends_refl|].
  eapply extends_trans; [by apply (extends_refl _ (set_ended w))|by apply (send_extends a)].
Qed.

(** ** Steps *)

(** The request a goroutine answers. *)
Definition starts_of (t : thread) : option RequestStart :=
  match t with TServe start _ _ _ _ _ | TWs start _ _ _ => Some start | _ => None end.

(** A step appends [l] to what its goroutine has sent and starts [new].  Answers come from
    the goroutine of the request, or from the loop for a request that is refused. *)
Definition sends_on (t : thread) (got : list ServerFrame) (l : list ClientFrame) (new : list thread)
    : Prop :=
  ∀ id, replies id l ≠ [] →
    (∃ m, starts_of t = Some m ∧ rs_RequestId m = id)
    ∨ ∃ m, got = [ServerFrame_RequestStart m] ∧ rs_RequestId m = id ∧ new = [].

Definition begins (got : list ServerFrame) (u : thread) : Prop :=
  frames_of u = [] ∧ ∀ m, starts_of u = Some m → got = [ServerFrame_RequestStart m]
    ∧ ∀ r w x e pc, u = TServe m r w x e pc →
        w = newTunnelResponseWriter (rs_RequestId m) ∧ pc = SRun.

Lemma sends_on_none t got l new : (∀ id, replies id l = []) → sends_on t got l new.
Proof. intros Hn id. by rewrite Hn. Qed.

Lemma sends_on_own t got l new m :
  starts_of t = Some m → replies (rs_RequestId m) l = l → sends_on t got l new.
Proof.
  intros Hm Hl id Hne. left. exists m. split; [done|].
  assert (∃ f, f ∈ replies id l) as [f Hf].
  { destruct (replies id l) as [|f k]; [done|]. exists f. left. }
  apply list_elem_of_filter in Hf as [Hid Hf]. rewrite <-Hl in Hf.
  apply list_elem_of_filter in Hf as [Hid' _]. congruence.
Qed.

Lemma loop_step_sends s self sent pc c s' sent' pc' new :
  loop_step answer parse_url s self sent pc c = Some (s', sent', pc', new) →
  ∃ l, sent' = sent ++ l ∧ sends_on (TLoop sent pc) (got_frame pc c) l new
    ∧ Forall (begins (got_frame pc c)) new ∧ length new ≤ 1.
Proof.
  intros Hs. pose proof (loop_step_new _ _ _ _ _ _ _ _ _ _ _ Hs) as Hlen.
  assert (sent' = sent → new = [] → ∃ l, sent' = sent ++ l
    ∧ sends_on (TLoop sent pc) (got_frame pc c) l new ∧ Forall (begins (got_frame pc c)) new
    ∧ length new ≤ 1) as Hquiet.
  { intros -> ->. exists []. rewrite app_nil_r. split_and!; [done|by apply sends_on_none|constructor|done]. }
  destruct pc as [|r' rest|ch payload|e|e], c as [| | | | | |f| | | | | | | |]; try done;
    cbn [loop_step] in Hs; try (open_step; by apply Hquiet).
  destruct f; cbn [handle_frame] in Hs; try (open_step; by apply Hquiet).
  - unfold handle_start in Hs. cbn [got_frame].
    assert (∀ u, begins [ServerFrame_RequestStart m] u → new = [u] → sent' = sent →
      ∃ l, sent' = sent ++ l ∧ sends_on (TLoop sent LRecv) [ServerFrame_RequestStart m] l new
        ∧ Forall (begins [ServerFrame_RequestStart m]) new ∧ length new ≤ 1) as Hone.
    { intros u Hu -> ->. exists []. rewrite app_nil_r.
      split_and!; [done|by apply sends_on_none|by constructor|done]. }
    destruct (isWebSocketUpgrade m); [|destruct (newRequest_err parse_url m)]; simplify_eq.
    + eapply Hone; [|done..]. split; [done|]. by intros ? [= <-].
    + eexists. split; [done|]. split; [|done]. intros id Hne. right. exists m. split; [done|].
      split; [|done]. rewrite replies_one in Hne. simpl in Hne. case_decide; [congruence|done].
    + eapply Hone; [|done..]. split; [done|]. intros ? [= <-]. split; [done|]. by intros; simplify_eq.
  - destruct (send_frame answer self sent (ClientFrame_Pong unix_nano)) as [sent1 err] eqn:Hf.
    unfold send_frame in Hf. simplify_eq. eexists. split; [done|].
    split; [|done]. by apply sends_on_none.
Qed.

Lemma ws_step_sends s self next rd start ch sent pc c s' sent' pc' new :
  ws_step answer s self next rd start ch sent pc c = Some (s', sent', pc', new) →
  ∃ l, sent' = sent ++ l ∧ replies (rs_RequestId start) l = l ∧ Forall (begins []) new
    ∧ Forall (λ u, starts_of u = None) new.
Proof.
  intros Hs.
  assert (∀ f, reply_id f = Some (rs_RequestId start) → replies (rs_RequestId start) [f] = [f]) as Hrep.
  { intros f Hf. by rewrite replies_one, decide_True. }
  assert (sent' = sent → new = [] → ∃ l, sent' = sent ++ l ∧ replies (rs_RequestId start) l = l
    ∧ Forall (begins []) new ∧ Forall (λ u, starts_of u = None) new) as Hquiet.
  { intros -> ->. exists []. rewrite app_nil_r. by split_and!. }
  destruct pc as [|[|[data failed] reads]| | | | |], c; try done; cbn [ws_step] in Hs;
    unfold send_frame in Hs; try (open_step; by apply Hquiet).
  - simplify_eq. eexists. split; [done|]. by rewrite Hrep.
  - simplify_eq. eexists. split; [done|]. rewrite Hrep by done. split; [done|].
    split; repeat case_match; repeat constructor; done.
  - simplify_eq. eexists. split; [done|]. by rewrite Hrep.
  - case_bool_decide; simplify_eq; [by apply Hquiet|]. eexists. split; [done|]. by rewrite Hrep.
Qed.

Lemma read_step_sends self id sent running c sent' running' :
  read_step answer self id sent running c = Some (sent', running') →
  ∃ l, sent' = sent ++ l ∧ ∀ id', replies id' l = [].
Proof.
  intros Hs. destruct running, c; try done. cbn [read_step] in Hs. unfold send_frame in Hs.
  repeat case_match; simplify_eq; rewrite <-?app_assoc;
    first [by eexists|exists []; by rewrite app_nil_r].
Qed.

Lemma serve_step_extends s self start r w rerr pc c s' w' rerr' pc' :
  serve_step answer s self start r w rerr pc c = Some (s', w', rerr', pc') → extends w w'.
Proof.
  intros Hs. destruct pc, c; try done; cbn [serve_step] in Hs; open_step;
    try (by apply extends_refl).
  - apply do_op_extends.
  - destruct panic; [exact (Fail_extends _ _ (Some _))|apply Finish_extends].
Qed.

(** One step of a session. *)
Lemma thread_step_sends s ts i t c s' t' new :
  thread_step answer parse_url s ts i t c = Some (s', t', new) →
  let got := match t with TLoop _ pc => got_frame pc c | _ => [] end in
  ∃ l, frames_of t' = frames_of t ++ l ∧ starts_of t' = starts_of t ∧ Forall (begins got) new
    ∧ (Forall (λ u, starts_of u = None) new ∨ length new ≤ 1)
    ∧ ((∀ m r w x e pc, t = TServe m r w x e pc → requestID w = rs_RequestId m) → sends_on t got l new)
    ∧ ∀ m r w x e pc, t = TServe m r w x e pc → ∃ w' e' pc', t' = TServe m r w' x e' pc'
        ∧ extends w w' ∧ frames w' = frames w ++ l
        ∧ serve_step answer s i m r w e pc c = Some (s', w', e', pc').
Proof.
  intros Hs. destruct t as [sent pc|start r wr got rerr pc|start ch sent pc|id sent running];
    cbn [thread_step] in Hs; apply bind_Some in Hs as (x & Hs & Heq); repeat case_match; simplify_eq.
  - destruct (loop_step_sends _ _ _ _ _ _ _ _ _ Hs) as (l & -> & Hl & Hnew & Hlen).
    exists l. split_and!; auto. done.
  - pose proof (serve_step_extends _ _ _ _ _ _ _ _ _ _ _ _ Hs) as He.
    destruct He as [Hid (l & Hf & Hl)]. exists l. split_and!; [done|done|constructor|left; constructor|..].
    + intros Hw. eapply sends_on_own; [done|]. by rewrite <-(Hw _ _ _ _ _ _ eq_refl).
    + intros. simplify_eq. do 3 eexists. split_and!; [done| |done|done]. split; [done|]. by exists l.
  - destruct (ws_step_sends _ _ _ _ _ _ _ _ _ _ _ _ _ Hs) as (k & -> & Hl & Hnew & Hns).
    exists k. split_and!; auto; [|done]. intros _. by eapply sends_on_own.
  - destruct (read_step_sends _ _ _ _ _ _ _ Hs) as (k & -> & Hl).
    exists k. split_and!; [done|done|constructor|left; constructor| |done].
    intros _. by apply sends_on_none.
Qed.

(** What a writer is after the calls [ops] of its handler and its returns [rets]. *)
Definition called (a : nat → option GoError) (id : string) (ops : list hop)
    (rets : list (option string)) (wr : tunnelResponseWriter) (pc : serve_pc) : Prop :=
  match pc with
  | SRun => rets = [] ∧ wr = foldl (do_op a) (newTunnelResponseWriter id) ops
  | SEnd panic => rets = [panic] ∧ wr = foldl (do_op a) (newTunnelResponseWriter id) ops
  | _ => ∃ panic, rets = [panic] ∧ wr = serve_response a id ops panic
  end.

Lemma serve_step_called s self m r wr x pc c s' wr' x' pc' ops rets :
  serve_step answer s self m r wr x pc c = Some (s', wr', x', pc') →
  called (answer self) (rs_RequestId m) ops rets wr pc →
  called (answer self) (rs_RequestId m) (ops ++ op_by self (LStep self c))
    (rets ++ return_by self (LStep self c)) wr' pc'.
Proof.
  intros Hs Hc. destruct pc, c; try done; cbn [serve_step] in Hs; open_step;
    cbn [op_by return_by]; rewrite ?decide_True, ?app_nil_r by done; try exact Hc.
  - destruct Hc as [-> ->]. split; [done|]. by rewrite foldl_snoc.
  - destruct Hc as [-> ->]. by split.
  - destruct Hc as [-> ->]. exists panic. by split.
Qed.

(** ** The invariant *)

(** The frames received [g], the frames sent [e], the calls [ops] and returns [rets] of the
    handlers. *)
Record answering (g : list ServerFrame) (e : list ClientFrame) (ops : nat → list hop)
    (rets : nat → list (option string)) (w : world) : Prop := {
  aw_start : ∀ i t m, threads w !! i = Some t → starts_of t = Some m → ServerFrame_RequestStart m ∈ g;
  aw_unique : ∀ i j t u m m', threads w !! i = Some t → threads w !! j = Some u →
    starts_of t = Some m → starts_of u = Some m' → rs_RequestId m = rs_RequestId m' → i = j;
  aw_none : ∀ id, (∀ m, ServerFrame_RequestStart m ∈ g → rs_RequestId m ≠ id) → replies id e = [];
  aw_own : ∀ i m r wr got rerr pc, threads w !! i = Some (TServe m r wr got rerr pc) →
    requestID wr = rs_RequestId m ∧ replies (rs_RequestId m) e = frames wr;
  aw_idle : ∀ i, length (threads w) ≤ i → ops i = [] ∧ rets i = [];
  aw_calls : ∀ i m r wr got rerr pc, threads w !! i = Some (TServe m r wr got rerr pc) →
    called (answer i) (rs_RequestId m) (ops i) (rets i) wr pc }.

Section step.
Context (g : list ServerFrame) (e : list ClientFrame) (ops : nat → list hop).
Context (rets : nat → list (option string)) (w : world) (i : nat) (t : thread) (c : choice).
Context (s' : state) (t' : thread) (new : list thread).
Hypothesis Haw : answering g e ops rets w.
Hypothesis Hi : threads w !! i = Some t.
Hypothesis Hs : thread_step answer parse_url (st w) (threads w) i t c = Some (s', t', new).

Let got := receive w (LStep i c).
Let w' := mkWorld s' (<[i := t']> (threads w) ++ new).
Hypothesis Hproper : ∀ id, proper (about id (g ++ got)).

Lemma step_sends :
  ∃ l, emit w (LStep i c) = l ∧ frames_of t' = frames_of t ++ l ∧ starts_of t' = starts_of t
    ∧ Forall (begins got) new ∧ (Forall (λ u, starts_of u = None) new ∨ length new ≤ 1)
    ∧ sends_on t got l new
    ∧ ∀ m r w x e pc, t = TServe m r w x e pc → ∃ w' e' pc', t' = TServe m r w' x e' pc'
        ∧ extends w w' ∧ frames w' = frames w ++ l.
Proof.
  destruct (thread_step_sends _ _ _ _ _ _ _ _ Hs) as (l & Hf & Hst & Hb & Hnew & Hon & Hserve).
  exists l.
  assert (got = match t with TLoop _ pc => got_frame pc c | _ => [] end) as Hgot.
  { unfold got, receive. by rewrite Hi. }
  rewrite <-Hgot in *. split_and!; try done.
  - unfold emit. cbn [exec]. rewrite Hi. cbn [mbind option_bind]. rewrite Hs. cbn [mbind option_bind threads].
    rewrite lookup_app_l by (rewrite length_insert; by eapply lookup_lt_Some).
    rewrite list_lookup_insert_eq by (by eapply lookup_lt_Some). simpl.
    by rewrite Hf, drop_app_length.
  - apply Hon. intros m r wr x e0 pc ->. by destruct (aw_own _ _ _ _ _ Haw _ _ _ _ _ _ _ Hi).
  - intros m r wr x e0 pc Et. destruct (Hserve _ _ _ _ _ _ Et) as (w1 & e1 & pc1 & ? & ? & ? & _).
    eauto 10.
Qed.

(** A start comes once. *)
Lemma start_once m m' :
  got = [ServerFrame_RequestStart m] → ServerFrame_RequestStart m' ∈ g →
  rs_RequestId m' ≠ rs_RequestId m.
Proof.
  intros Hgot Hin Heq. pose proof (Hproper (rs_RequestId m)) as Hp.
  rewrite Hgot, about_push in Hp by (by apply bool_decide_eq_true).
  apply proper_snoc_start in Hp.
  assert (ServerFrame_RequestStart m' ∈ about (rs_RequestId m) g) as Hm.
  { apply list_elem_of_filter. split; [|done]. apply bool_decide_pack. simpl. by rewrite Heq. }
  rewrite Hp in Hm. by apply elem_of_nil in Hm.
Qed.

(** Threads of the new world. *)
Lemma thread_origin j u :
  threads w' !! j = Some u →
  (j ≠ i ∧ threads w !! j = Some u) ∨ (j = i ∧ u = t') ∨ (length (threads w) ≤ j ∧ u ∈ new).
Proof.
  intros [Hj|[Hge Hj]]%lookup_app_Some.
  - apply insert_lookup_cases in Hj as [(<- & <- & _)|[? Hj]]; auto.
  - rewrite length_insert in Hge. right. right. split; [done|]. by eapply list_elem_of_lookup_2.
Qed.

Lemma started_after j u m :
  threads w' !! j = Some u → starts_of u = Some m →
  (∃ u0, threads w !! j = Some u0 ∧ starts_of u0 = Some m ∧ (j = i → u0 = t ∧ u = t') ∧ (j ≠ i → u = u0))
  ∨ (length (threads w) ≤ j ∧ got = [ServerFrame_RequestStart m] ∧ u ∈ new ∧ length new ≤ 1).
Proof.
  destruct step_sends as (l & _ & _ & Hst & Hb & Hlen & _). intros Hj Hm.
  destruct (thread_origin _ _ Hj) as [[Hne Hj']|[[-> ->]|[Hge Hin]]].
  - left. exists u. by split_and!.
  - left. exists t. rewrite <-Hst. by split_and!.
  - right. rewrite Forall_forall in Hb. destruct (Hb u Hin) as [_ Hg]. destruct (Hg m Hm) as [Hgot _].
    split_and!; try done. destruct Hlen as [Hn|]; [|done].
    rewrite Forall_forall in Hn. by rewrite (Hn u Hin) in Hm.
Qed.

(** Nothing is sent under the id of a goroutine that does not step. *)
Lemma quiet_for id :
  (∀ m, starts_of t = Some m → rs_RequestId m ≠ id) →
  (∀ m, got = [ServerFrame_RequestStart m] → rs_RequestId m = id → new ≠ []) →
  replies id (emit w (LStep i c)) = [].
Proof.
  destruct step_sends as (l & -> & _ & _ & _ & _ & Hon & _). intros Ht Hg.
  destruct (decide (replies id l = [])) as [|Hne]; [done|exfalso].
  destruct (Hon id Hne) as [(m & Hm & Hid)|(m & Hgot & Hid & Hnew)]; [by eapply Ht|by eapply Hg].
Qed.

Lemma own_after j m r wr rd rerr pc :
  threads w' !! j = Some (TServe m r wr rd rerr pc) →
  requestID wr = rs_RequestId m ∧ replies (rs_RequestId m) (e ++ emit w (LStep i c)) = frames wr.
Proof.
  intros Hj. rewrite replies_app.
  destruct (started_after _ _ m Hj eq_refl) as [(u0 & Hj0 & Hm0 & Hown & Hoth)|(Hge & Hgot & Hin & Hlen)].
  - destruct (decide (j = i)) as [->|Hne].
    + destruct (Hown eq_refl) as [-> Et'].
      destruct step_sends as (l & -> & Hf & _ & _ & _ & _ & Hserve).
      destruct t as [|m0 r0 wr0 rd0 rerr0 pc0| |] eqn:Et; simpl in Hm0; simplify_eq.
      { destruct (Hserve _ _ _ _ _ _ eq_refl) as (wr1 & rerr1 & pc1 & Heq & [Hid (k & Hk & Hr)] & Hl).
        simplify_eq.
        destruct (aw_own _ _ _ _ _ Haw _ _ _ _ _ _ _ Hi) as [Hi0 Hf0].
        rewrite Hf0, Hid, Hi0. split; [done|]. rewrite Hl in Hk. apply app_inv_head in Hk as ->.
        rewrite <-Hi0 at 1. by rewrite Hr, Hl. }
      exfalso. cbn [thread_step] in Hs. apply bind_Some in Hs as (x & _ & Heq).
      repeat case_match; simplify_eq.
    + specialize (Hoth Hne). subst u0. destruct (aw_own _ _ _ _ _ Haw _ _ _ _ _ _ _ Hj0) as [Hid Hf].
      split; [done|]. rewrite quiet_for, app_nil_r; [done|..].
      * intros m' Hm' Heq. apply Hne. symmetry. by eapply (aw_unique _ _ _ _ _ Haw).
      * intros m' Hgot Heq. exfalso. eapply start_once; [exact Hgot| |by symmetry].
        by eapply (aw_start _ _ _ _ _ Haw).
  - destruct step_sends as (l & _ & _ & _ & Hb & _ & _ & _). rewrite Forall_forall in Hb.
    destruct (Hb _ Hin) as [Hfr Hnew]. destruct (Hnew m eq_refl) as [_ Hw].
    destruct (Hw _ _ _ _ _ eq_refl) as [-> _]. split; [done|].
    rewrite (aw_none _ _ _ _ _ Haw), quiet_for; [done|..].
    + intros m' Hm' Heq. eapply start_once; [exact Hgot| |exact Heq]. by eapply (aw_start _ _ _ _ _ Haw).
    + intros _ _ _ ->. by apply elem_of_nil in Hin.
    + intros m' Hm'. by apply start_once.
Qed.

Lemma calls_after j m r wr rd rerr pc :
  threads w' !! j = Some (TServe m r wr rd rerr pc) →
  called (answer j) (rs_RequestId m) (ops j ++ op_by j (LStep i c)) (rets j ++ return_by j (LStep i c)) wr pc.
Proof.
  intros Hj.
  assert (j ≠ i → op_by j (LStep i c) = [] ∧ return_by j (LStep i c) = []) as Hother.
  { intros Hne. simpl. destruct c; try done; by rewrite decide_False. }
  destruct (started_after _ _ m Hj eq_refl) as [(u0 & Hj0 & Hm0 & Hown & Hoth)|(Hge & Hgot & Hin & Hlen)].
  - destruct (decide (j = i)) as [->|Hne].
    + destruct (Hown eq_refl) as [-> Et']. rewrite <-Et' in Hs.
      destruct t as [|m0 r0 wr0 rd0 rerr0 pc0| |] eqn:Et; cbn [thread_step] in Hs;
        apply bind_Some in Hs as (x & Hstep & Heq); repeat case_match; simplify_eq.
      eapply serve_step_called; [exact Hstep|]. by eapply (aw_calls _ _ _ _ _ Haw).
    + specialize (Hoth Hne). subst u0. destruct (Hother Hne) as [-> ->]. rewrite !app_nil_r.
      by eapply (aw_calls _ _ _ _ _ Haw).
  - destruct (Hother ltac:(intros ->; apply lookup_lt_Some in Hi; lia)) as [-> ->].
    destruct (aw_idle _ _ _ _ _ Haw _ Hge) as [-> ->].
    destruct step_sends as (l & _ & _ & _ & Hb & _ & _ & _). rewrite Forall_forall in Hb.
    destruct (Hb _ Hin) as [_ Hnew]. destruct (Hnew m eq_refl) as [_ Hw].
    by destruct (Hw _ _ _ _ _ eq_refl) as [-> ->].
Qed.

Lemma answering_thread :
  answering (g ++ got) (e ++ emit w (LStep i c)) (λ j, ops j ++ op_by j (LStep i c))
    (λ j, rets j ++ return_by j (LStep i c)) w'.
Proof.
  constructor.
  - intros j u m Hj Hm. rewrite elem_of_app.
    destruct (started_after _ _ _ Hj Hm) as [(u0 & Hj0 & Hm0 & _)|(_ & -> & _)]; [left|right; left].
    by eapply (aw_start _ _ _ _ _ Haw).
  - intros j k u v m m' Hj Hk Hm Hm' Heq.
    destruct (started_after _ _ _ Hj Hm) as [(u0 & Hj0 & Hm0 & _)|(Hj0 & Hg & Hu & Hlen)],
      (started_after _ _ _ Hk Hm') as [(v0 & Hk0 & Hm0' & _)|(Hk0 & Hg' & Hv & _)].
    + by eapply (aw_unique _ _ _ _ _ Haw).
    + exfalso. eapply start_once; [exact Hg'| |exact Heq]. by eapply (aw_start _ _ _ _ _ Haw).
    + exfalso. eapply start_once; [exact Hg| |by symmetry]. by eapply (aw_start _ _ _ _ _ Haw).
    + unfold w' in Hj, Hk. cbn [threads] in Hj, Hk.
      apply lookup_lt_Some in Hj, Hk. rewrite length_app, length_insert in Hj, Hk. lia.
  - intros id Hno. rewrite replies_app, (aw_none _ _ _ _ _ Haw), quiet_for; [done|..].
    + intros m Hm. apply Hno, elem_of_app. left. by eapply (aw_start _ _ _ _ _ Haw).
    + intros m Hg Hid. exfalso. apply (Hno m); [|done]. rewrite Hg. apply elem_of_app. right. left.
    + intros m Hm. apply Hno, elem_of_app. by left.
  - apply own_after.
  - intros j. unfold w'. cbn [threads]. rewrite length_app, length_insert. intros Hj.
    destruct (aw_idle _ _ _ _ _ Haw j) as [-> ->]; [lia|]. apply lookup_lt_Some in Hi.
    simpl. destruct c; try done; by rewrite decide_False by lia.
  - apply calls_after.
Qed.
End step.

Lemma answering_ext g g' e e' ops ops' rets rets' w :
  g' = g → e' = e → (∀ j, ops' j = ops j) → (∀ j, rets' j = rets j) →
  answering g e ops rets w → answering g' e' ops' rets' w.
Proof.
  intros -> -> Ho Hr []. constructor; try setoid_rewrite Ho; try setoid_rewrite Hr; eauto.
Qed.

(** Goroutines that only read, or whose context ends, keep their writers. *)
Lemma answering_threads g e ops rets w s ts :
  answering g e ops rets w → length ts = length (threads w) →
  (∀ j u, ts !! j = Some u → ∃ u0, threads w !! j = Some u0 ∧ starts_of u = starts_of u0
     ∧ ∀ m r wr rd rerr pc, u = TServe m r wr rd rerr pc → ∃ rd0, u0 = TServe m r wr rd0 rerr pc) →
  answering g e ops rets (mkWorld s ts).
Proof.
  intros [Hst Hu Hn Ho Hid Hc] Hlen Hts. constructor; cbn [threads]; try done.
  - intros i t m Hi Hm. destruct (Hts _ _ Hi) as (u0 & ? & Heq & _). rewrite Heq in Hm. eauto.
  - intros i j t u m m' Hi Hj Hm Hm'. destruct (Hts _ _ Hi) as (u0 & ? & Heq & _).
    destruct (Hts _ _ Hj) as (v0 & ? & Heq' & _). rewrite Heq in Hm. rewrite Heq' in Hm'. eauto.
  - intros i m r wr rd rerr pc Hi. destruct (Hts _ _ Hi) as (u0 & Hi0 & _ & Hs).
    destruct (Hs _ _ _ _ _ _ eq_refl) as [rd0 ->]. eauto.
  - intros i. rewrite Hlen. apply Hid.
  - intros i m r wr rd rerr pc Hi. destruct (Hts _ _ Hi) as (u0 & Hi0 & _ & Hs).
    destruct (Hs _ _ _ _ _ _ eq_refl) as [rd0 ->]. eauto.
Qed.

Lemma answering_step g e ops rets w l w' :
  answering g e ops rets w → exec answer parse_url w l = Some w' →
  (∀ id, proper (about id (g ++ receive w l))) →
  answering (g ++ receive w l) (e ++ emit w l) (λ j, ops j ++ op_by j l) (λ j, rets j ++ return_by j l) w'.
Proof.
  intros Haw Hl Hp. destruct l as [i c|l i n|x]; cbn [exec] in Hl.
  { apply bind_Some in Hl as (t & Hi & ([[s' t'] new] & Hs & [= <-])%bind_Some).
    eapply answering_thread; eassumption. }
  all: apply (answering_ext g _ e _ ops _ rets); try (intros; apply app_nil_r).
  - destruct (threads w !! l) as [[sent1 [| r rest | | |]| | |]|] eqn:Hl'; try done.
    destruct (threads w !! i) as [[|start r' wr got rerr []| |]|] eqn:Hi; try done.
    apply bind_Some in Hl as (x & Hx & Hl). case_match; simplify_eq.
    apply (answering_threads _ _ _ _ w); [done|by rewrite !length_insert|].
    intros j u [(<- & <- & _)|[_ [(<- & <- & _)|[_ Hj]]%insert_lookup_cases]]%insert_lookup_cases.
    + eexists. split; [exact Hi|]. split; [done|]. intros. simplify_eq. eauto.
    + eexists. split; [exact Hl'|]. by split.
    + exists u. split_and!; [done..|]. intros. subst. eauto.
  - destruct (ctx (st w)); simplify_eq. apply (answering_threads _ _ _ _ w); [done..|].
    intros j u Hj. exists u. split_and!; [done..|]. intros. subst. eauto.
Qed.

Lemma answering_run g e ops rets w ls w' :
  answering g e ops rets w → run answer parse_url w ls = Some w' →
  (∀ id, proper (about id (g ++ received answer parse_url w ls))) →
  answering (g ++ received answer parse_url w ls) (e ++ emitted w ls) (λ j, ops j ++ ops_by ls j)
    (λ j, rets j ++ returns_by ls j) w'.
Proof.
  revert g e ops rets w. induction ls as [|l ls IH]; intros g e ops rets w Haw; simpl.
  { intros [= <-] _. by apply (answering_ext g _ e _ ops _ rets); try (intros; apply app_nil_r). }
  intros (w1 & Hl & Hr)%bind_Some Hp. rewrite Hl in *.
  assert (∀ id, proper (about id (g ++ receive w l))) as Hp1.
  { intros id. eapply proper_prefix; [|apply (Hp id)]. rewrite app_assoc. apply about_prefix. by eexists. }
  eapply answering_ext; [..|apply (IH _ _ _ _ _ (answering_step _ _ _ _ _ _ _ Haw Hl Hp1) Hr)].
  - by rewrite app_assoc.
  - by rewrite app_assoc.
  - intros j. unfold ops_by. simpl. by rewrite app_assoc.
  - intros j. unfold returns_by. simpl. by rewrite app_assoc.
  - intros id. by rewrite <-app_assoc.
Qed.

Lemma answering_init : answering [] [] (λ _, []) (λ _, []) init_world.
Proof.
  constructor; try done; intros [|]; intros; simplify_eq/=.
Qed.

Lemma run_answering ls w :
  run answer parse_url init_world ls = Some w →
  (∀ id, proper (about id (received answer parse_url init_world ls))) →
  answering (received answer parse_url init_world ls) (emitted init_world ls) (ops_by ls) (returns_by ls) w.
Proof. intros Hr Hp. exact (answering_run _ _ _ _ _ _ _ answering_init Hr Hp). Qed.
End answering.
