(* ===== verification/Talk.v ===== *)
(** * tunnel: the messages of a WebSocket at the client.

    From the edge: the receive loop puts the payloads of [WsData] frames into the channel
    of their WebSocket, whose goroutine writes them to the handler's connection.  To the
    edge: a second goroutine sends what it reads from the connection.  What is received,
    taken, read and sent is recorded along a run and compared. *)

From S2P Require Import Prelude GoStrings Proto Headers Channels Frames Messages ResponseWriter Url Session Delivery Answering.
Import Session.

Section talk.
Context `{UnicodeData} (answer : nat → nat → option GoError) (parse_url : string → option string).

(** ** From the edge *)

(** The WebSockets of a session: the start and the channel of each goroutine. *)
Definition talk_of (t : thread) : option (RequestStart * nat) :=
  match t with TWs start ch _ _ => Some (start, ch) | _ => None end.
Definition sockets := nat → option (RequestStart * nat).
Notation talking := (seen talk_of).

Definition queue_at (s : state) (ch : nat) : list string := from_option ch_queue [] (chH s !! ch).

(** What the receive loop is about to put into channel [ch]. *)
Definition pending (pc : loop_pc) (ch : nat) : list string :=
  match pc with LWs c payload => if decide (c = ch) then [payload] else [] | _ => [] end.

Definition receiving (pc : loop_pc) : bool :=
  match pc with LTeardown _ | LEnd _ => false | _ => true end.

(** The record [g] of the frames received and the record [tk] of the payloads taken from
    the channels: they are the messages of the WebSocket from the first one on, and all of
    them as long as the loop knows the channel. *)
Record hears (g : list ServerFrame) (tk : nat → list string) (s : state) (pc : loop_pc) (v : sockets)
    : Prop := {
  he_ids : ∀ i j x y, v i = Some x → v j = Some y → rs_RequestId x.1 = rs_RequestId y.1 → i = j;
  he_chans : ∀ i j x y, v i = Some x → v j = Some y → x.2 = y.2 → i = j;
  he_len : ∀ i x, v i = Some x → x.2 < length (chH s);
  he_map : ∀ id ch, wsInbound s !! id = Some ch → ∃ i start, v i = Some (start, ch) ∧ rs_RequestId start = id;
  he_start : ∀ i x, v i = Some x → ServerFrame_RequestStart x.1 ∈ g;
  he_ok : ∀ i start ch, v i = Some (start, ch) →
    ∃ rest, messages (rs_RequestId start) g = tk i ++ queue_at s ch ++ pending pc ch ++ rest
      ∧ (receiving pc = true → wsInbound s !! rs_RequestId start = Some ch → rest = []) }.

Lemma hears_ext g g' tk tk' s s' pc pc' v v' :
  (∀ id, messages id g' = messages id g) → (∀ m, ServerFrame_RequestStart m ∈ g → ServerFrame_RequestStart m ∈ g') →
  (∀ i, tk' i = tk i) → (∀ i, v' i = v i) → length (chH s') = length (chH s) →
  (∀ ch, queue_at s' ch = queue_at s ch) →
  (∀ id ch, wsInbound s' !! id = Some ch → wsInbound s !! id = Some ch) →
  (∀ ch, pending pc ch = pending pc' ch ∨ receiving pc' = false ∧ pending pc' ch = []) →
  (receiving pc' = true → receiving pc = true) →
  hears g tk s pc v → hears g' tk' s' pc' v'.
Proof.
  intros Hm Hst Htk Hv Hlen Hq Hin Hp Hr [H1 H2 H3 H4 H5 H6].
  constructor; try setoid_rewrite Hv; rewrite ?Hlen; eauto.
  intros i start ch Hi. destruct (H6 _ _ _ Hi) as (rest & Hrest & Hall). rewrite Hm, Htk, Hq, Hrest.
  destruct (Hp ch) as [->|[Hn ->]].
  - exists rest. split; [done|]. auto.
  - exists (pending pc ch ++ rest). split; [done|congruence].
Qed.

Lemma close_chan_keeps s c s' :
  close_chan s c = Some s' →
  wsInbound s' = wsInbound s ∧ length (chH s') = length (chH s) ∧ ∀ ch, queue_at s' ch = queue_at s ch.
Proof.
  intros (x & Hx & [= <-])%bind_Some. unfold queue_at. destruct (ch_closed x); [done|]. cbn.
  split; [done|]. split; [apply length_insert|]. intros ch. destruct (decide (c = ch)) as [->|Hne].
  - by rewrite list_lookup_insert_eq, Hx by (by eapply lookup_lt_Some).
  - by rewrite list_lookup_insert_ne.
Qed.

Lemma close_chans_keep l s s' :
  foldl (λ o c, s ← o; close_chan s c) (Some s) l = Some s' →
  wsInbound s' = wsInbound s ∧ length (chH s') = length (chH s) ∧ ∀ ch, queue_at s' ch = queue_at s ch.
Proof.
  revert s. induction l as [|c l IH]; intros s; simpl; [by intros [= <-]|].
  destruct (close_chan s c) as [s1|] eqn:Hc.
  - intros (-> & -> & Hq)%IH. destruct (close_chan_keeps _ _ _ Hc) as (-> & -> & Hq1).
    split_and!; [done..|]. intros ch. by rewrite Hq, Hq1.
  - intros Hf. exfalso. clear -Hf. induction l; simpl in Hf; auto; done.
Qed.

Section loop.
Context (g : list ServerFrame) (tk : nat → list string) (s : state) (v : sockets).
Hypothesis Hh : hears g tk s LRecv v.

(** Frames that are neither starts nor messages. *)
Lemma hears_quiet f s' pc' :
  (∀ id, message id f = None) → wsInbound s' = wsInbound s → chH s' = chH s →
  (∀ ch, pending pc' ch = []) → hears (g ++ [f]) tk s' pc' v.
Proof.
  intros Hf Hw Hc Hp. apply (hears_ext g _ tk _ s _ LRecv _ v); try done.
  - intros id. rewrite messages_app. csimpl. by rewrite Hf, app_nil_r.
  - intros m Hm. apply elem_of_app. by left.
  - by rewrite Hc.
  - intros ch. unfold queue_at. by rewrite Hc.
  - by rewrite Hw.
  - intros ch. left. by rewrite Hp.
Qed.

Lemma hears_data id payload :
  hears (g ++ [ServerFrame_WsData id payload]) tk s
    (match wsInbound s !! id with Some c => LWs c payload | None => LRecv end) v.
Proof.
  assert (∀ i, messages i [ServerFrame_WsData id payload] = if bool_decide (id = i) then [payload] else [])
    as Hone by (intros i; csimpl; by case_bool_decide).
  destruct Hh as [H1 H2 H3 H4 H5 H6]. constructor; try done.
  { intros i x Hi. apply elem_of_app. left. by eapply H5. }
  intros i start ch Hi. destruct (H6 _ _ _ Hi) as (rest & Hrest & Hall). simpl in Hrest, Hall.
  rewrite messages_app, Hrest, Hone. case_bool_decide as Hid.
  - subst id. destruct (wsInbound s !! rs_RequestId start) as [c|] eqn:Hc.
    + destruct (H4 _ _ Hc) as (j & start' & Hj & Hid').
      assert (j = i) as -> by exact (H1 _ _ _ _ Hj Hi Hid'). simplify_eq.
      rewrite (Hall eq_refl eq_refl). exists []. simpl. rewrite decide_True by done.
      by rewrite !app_nil_r, <-app_assoc.
    + exists (rest ++ [payload]). split; [by rewrite <-!app_assoc|congruence].
  - rewrite app_nil_r. destruct (wsInbound s !! id) as [c|] eqn:Hc; [|by eauto].
    exists rest. simpl. rewrite decide_False; [by auto|]. intros ->.
    destruct (H4 _ _ Hc) as (j & start' & Hj & <-).
    assert (j = i) as -> by exact (H2 _ _ _ _ Hj Hi eq_refl). by simplify_eq.
Qed.

Lemma hears_start m n s' v' :
  starts_first (g ++ [ServerFrame_RequestStart m]) → tk n = [] → v n = None →
  chH s' = chH s ++ [mkChan [] false] →
  wsInbound s' = <[rs_RequestId m := length (chH s)]> (wsInbound s) →
  (∀ i, v' i = if decide (i = n) then Some (m, length (chH s)) else v i) →
  hears (g ++ [ServerFrame_RequestStart m]) tk s' LRecv v'.
Proof.
  intros Hfirst Htk Hn Hc Hw Hv. destruct (Hfirst g m [] eq_refl) as [Hmsg Hother].
  assert (∀ i x, v i = Some x → i ≠ n ∧ rs_RequestId x.1 ≠ rs_RequestId m ∧ x.2 < length (chH s)) as Hold.
  { intros i x Hi. split_and!; [congruence| |by eapply he_len]. eapply Hother, (he_start _ _ _ _ _ Hh _ _ Hi). }
  assert (∀ id, messages id (g ++ [ServerFrame_RequestStart m]) = messages id g) as Hsame.
  { intros id. rewrite messages_app. csimpl. apply app_nil_r. }
  destruct Hh as [H1 H2 H3 H4 H5 H6]. constructor.
  - intros i j x y. rewrite !Hv. intros Hi Hj Heq.
    destruct (decide (i = n)) as [->|], (decide (j = n)) as [->|]; [done|..|by eauto].
    + injection Hi as <-. by destruct (Hold _ _ Hj) as (_ & [] & _).
    + injection Hj as <-. by destruct (Hold _ _ Hi) as (_ & [] & _).
  - intros i j x y. rewrite !Hv. intros Hi Hj Heq.
    destruct (decide (i = n)) as [->|], (decide (j = n)) as [->|]; [done|..|by eauto].
    + injection Hi as <-. destruct (Hold _ _ Hj) as (_ & _ & Hlt). simpl in *. lia.
    + injection Hj as <-. destruct (Hold _ _ Hi) as (_ & _ & Hlt). simpl in *. lia.
  - intros i x. rewrite Hv, Hc, length_app. case_decide; intros Hi; simplify_eq/=; [lia|].
    apply H3 in Hi. lia.
  - intros id ch. rewrite Hw. intros [[<- <-]|[Hne Hch]]%lookup_insert_Some.
    + exists n, m. by rewrite Hv, decide_True.
    + destruct (H4 _ _ Hch) as (i & start & Hi & <-). destruct (Hold _ _ Hi) as [Hin _].
      exists i, start. by rewrite Hv, decide_False.
  - intros i x. rewrite Hv. case_decide; intros Hi; simplify_eq/=; apply elem_of_app; [right; by left|left; eauto].
  - intros i start ch. rewrite Hv, Hsame. case_decide as Hin; intros Hi; simplify_eq/=.
    + exists []. unfold queue_at. rewrite Hc, Hmsg, Htk, list_lookup_middle by done. by split.
    + destruct (Hold _ _ Hi) as (_ & Hne & Hlt). destruct (H6 _ _ _ Hi) as (rest & Hrest & Hall).
      exists rest. unfold queue_at in *. rewrite Hc, lookup_app_l by done. split; [done|].
      intros _. simpl in Hne. rewrite Hw, lookup_insert_ne by congruence. by apply Hall.
Qed.

(** A request that is not a WebSocket. *)
Lemma hears_other_start m s' :
  wsInbound s' = wsInbound s → chH s' = chH s →
  hears (g ++ [ServerFrame_RequestStart m]) tk s' LRecv v.
Proof. intros. by eapply hears_quiet. Qed.
End loop.

Lemma hears_delete g tk s pc v id :
  hears g tk s pc v → hears g tk (set_wsInbound s (delete id (wsInbound s))) pc v.
Proof.
  intros Hh. apply (hears_ext g _ tk _ s _ pc _ v); try done; [|by auto].
  intros id' ch. simpl. by intros [_ ?]%lookup_delete_Some.
Qed.

(** The receive loop puts a payload into the channel of its WebSocket. *)
Lemma hears_put g tk s v ch payload s1 :
  hears g tk s (LWs ch payload) v → ws_ok s (LWs ch payload) → send_chan s ch payload = Some s1 →
  hears g tk s1 LRecv v.
Proof.
  intros Hh Hok Hsend.
  destruct (ws_sending _ _ Hok _ _ eq_refl) as (x & Hx & Ho).
  unfold send_chan in Hsend. rewrite Hx in Hsend. simpl in Hsend. rewrite Ho in Hsend.
  apply bind_Some in Hsend as (q & [_ ->]%chan_send_Some & [= <-]).
  destruct Hh as [H1 H2 H3 H4 H5 H6]. constructor; simpl; try done.
  { intros i y Hi. rewrite length_insert. eauto. }
  intros i start ch' Hi. destruct (H6 _ _ _ Hi) as (rest & Hrest & Hall). exists rest. simpl in Hall.
  split; [|by auto]. rewrite Hrest. unfold queue_at. simpl. destruct (decide (ch = ch')) as [->|Hne].
  + rewrite list_lookup_insert_eq by (by eapply lookup_lt_Some). rewrite Hx. simpl. by rewrite <-app_assoc.
  + by rewrite list_lookup_insert_ne.
Qed.

Ltac stays Hsame :=
  eapply Hsame; cycle 1; [reflexivity|reflexivity|done|first [rewrite app_nil_r; reflexivity|reflexivity]|].

Lemma loop_step_hears g tk s self sent pc c s' sent' pc' new v n :
  loop_step answer parse_url s self sent pc c = Some (s', sent', pc', new) →
  hears g tk s pc v → ws_ok s pc → starts_first (g ++ got_frame pc c) → v n = None → tk n = [] →
  hears (g ++ got_frame pc c) tk s' pc' (λ i, if decide (i = n) then new !! 0 ≫= talk_of else v i).
Proof.
  intros Hs Hh Hok Hfirst Hn Htk.
  assert (∀ g' s1 pc1, hears g' tk s1 pc1 v → s1 = s' → pc1 = pc' → new !! 0 ≫= talk_of = None →
    g' = g ++ got_frame pc c →
    hears (g ++ got_frame pc c) tk s' pc' (λ i, if decide (i = n) then new !! 0 ≫= talk_of else v i)) as Hsame.
  { intros g' s1 pc1 Hh1 -> -> Hnew <-. eapply hears_ext; [..|exact Hh1]; try done; [|by auto].
    intros i. case_decide as Hi; [|done]. by rewrite Hi, Hn, Hnew. }
  destruct pc as [|r rest|ch payload|e|e], c as [| | | | | |f| | | | | | | |]; try done; cbn [loop_step] in Hs.
  - destruct f as [m|id chunk|id|id|nano|id payload|id|]; cbn [handle_frame got_frame] in *.
    + destruct (handle_start answer parse_url s self sent m) as [[s1 sent1] new1] eqn:Hst. simplify_eq.
      unfold handle_start in Hst. destruct (isWebSocketUpgrade m); [simplify_eq|].
      { eapply hears_start; try done. }
      destruct (newRequest_err parse_url m); simplify_eq;
        (stays Hsame; by eapply hears_other_start).
    + destruct (inflight s !! id); [|simplify_eq; stays Hsame; by eapply hears_quiet].
      apply bind_Some in Hs as (x & _ & Hs). simplify_eq.
      stays Hsame. eapply hears_quiet; [exact Hh|done..|]. by destruct (p_done _).
    + destruct (inflight s !! id); simplify_eq; stays Hsame; by eapply hears_quiet.
    + destruct (inflight s !! id); simplify_eq; stays Hsame; by eapply hears_quiet.
    + unfold send_frame in Hs. simplify_eq.
      stays Hsame. eapply hears_quiet; [exact Hh|done..|]. by destruct (answer _ _).
    + simplify_eq. stays Hsame. by eapply hears_data.
    + destruct (wsInbound s !! id) as [ch|]; [|simplify_eq; stays Hsame; by eapply hears_quiet].
      apply bind_Some in Hs as (s1 & Hc & Hs). simplify_eq.
      destruct (close_chan_keeps _ _ _ Hc) as (Hw & Hl & Hq).
      stays Hsame. eapply hears_ext; [..|exact (hears_delete _ _ _ _ _ id (hears_quiet _ _ _ _ Hh
        (ServerFrame_WsClose id) s LRecv (λ _, eq_refl) eq_refl eq_refl (λ _, eq_refl)))]; try done.
      * by rewrite Hw.
      * by auto.
    + simplify_eq. stays Hsame. by eapply hears_quiet.
  - simplify_eq. stays Hsame.
    eapply hears_ext; [..|exact Hh]; try done. by auto.
  - apply bind_Some in Hs as (x & _ & Hs). destruct (p_done _); [|done]. simplify_eq.
    stays Hsame.
    eapply hears_ext; [..|exact Hh]; try done. by auto.
  - apply bind_Some in Hs as (s1 & Hsend & Hs). simplify_eq.
    stays Hsame. by eapply hears_put.
  - apply bind_Some in Hs as (e & _ & Hs). simplify_eq. stays Hsame.
    eapply hears_ext; [..|exact Hh]; try done. by auto.
  - apply bind_Some in Hs as (s1 & Ht & Hs). simplify_eq.
    destruct (close_chans_keep _ _ _ Ht) as (Hw & Hl & Hq).
    stays Hsame. eapply hears_ext; [..|exact Hh]; try done.
    + by rewrite Hw.
    + by auto.
Qed.

(** What the goroutine of a WebSocket takes from its channel. *)
Definition take_at (s : state) (t : thread) (c : choice) : list string :=
  match t, c with
  | TWs _ ch _ (WLoop _), OnInbound => from_option (λ r, [r.1]) [] (chan_recv (queue_at s ch))
  | _, _ => []
  end.

Definition take_by (w : world) (l : label) (i : nat) : list string :=
  match l with
  | LStep j c => if decide (j = i) then from_option (λ t, take_at (st w) t c) [] (threads w !! j) else []
  | _ => []
  end.

Fixpoint taken (w : world) (ls : list label) (i : nat) : list string :=
  match ls with
  | [] => []
  | l :: ls =>
    take_by w l i ++ match exec answer parse_url w l with Some w' => taken w' ls i | None => [] end
  end.

Lemma ws_step_hears g tk s self next rd start ch sent pc c s' sent' pc' new lpc v :
  ws_step answer s self next rd start ch sent pc c = Some (s', sent', pc', new) →
  hears g tk s lpc v → v self = Some (start, ch) →
  hears g (λ j, tk j ++ if decide (self = j) then take_at s (TWs start ch sent pc) c else []) s' lpc v.
Proof.
  intros Hs Hh Hv.
  assert (s' = s ∨ s' = set_wsInbound s (delete (rs_RequestId start) (wsInbound s)) →
    take_at s (TWs start ch sent pc) c = [] →
    hears g (λ j, tk j ++ if decide (self = j) then take_at s (TWs start ch sent pc) c else []) s' lpc v) as Hsame.
  { intros Hor ->. assert (hears g tk s' lpc v) as Hh'.
    { destruct Hor as [-> | ->]; [done|by apply hears_delete]. }
    eapply hears_ext; [..|exact Hh']; try done; [|by auto]. intros j. case_decide; apply app_nil_r. }
  destruct pc as [|[|[data failed] reads]| | | | |], c; try done; cbn [ws_step] in Hs; unfold send_frame in Hs;
    try (simplify_eq; apply Hsame; [by auto|done]); try (open_step; simplify_eq; apply Hsame; by auto).
  apply bind_Some in Hs as (x & Hx & Hs).
  assert (take_at s (TWs start ch sent (WLoop reader)) OnInbound
    = from_option (λ r, [r.1]) [] (chan_recv (ch_queue x))) as Htake.
  { simpl. unfold queue_at. by rewrite Hx. }
  destruct (chan_recv (ch_queue x)) as [[payload q]|] eqn:Hq.
  2: { case_match; simplify_eq. apply Hsame; auto. }
  apply chan_recv_Some in Hq. simplify_eq. rewrite Htake. simpl.
  destruct Hh as [H1 H2 H3 H4 H5 H6]. constructor; simpl; try done.
  { intros i y Hi. rewrite length_insert. eauto. }
  intros i st0 ch0 Hi. destruct (H6 _ _ _ Hi) as (rest & Hrest & Hall). exists rest. split; [|done].
  rewrite Hrest. unfold queue_at. simpl. case_decide as Hself.
  - subst i. rewrite Hv in Hi. simplify_eq.
    rewrite list_lookup_insert_eq by (by eapply lookup_lt_Some). rewrite Hx. simpl. rewrite Hq.
    by rewrite <-app_assoc.
  - rewrite list_lookup_insert_ne, app_nil_r; [done|]. intros ->. apply Hself.
    by apply (H2 self i (start, ch0) (st0, ch0)).
Qed.

(** *** The session *)

Definition loop_at (w : world) : loop_pc :=
  match threads w !! 0 with Some (TLoop _ pc) => pc | _ => LEnd None end.

Record hearing (g : list ServerFrame) (tk : nat → list string) (w : world) : Prop := {
  hg_hears : hears g tk (st w) (loop_at w) (talking (threads w));
  hg_new : ∀ i, length (threads w) ≤ i → tk i = [] }.

Lemma take_by_other w i j c : i ≠ j → take_by w (LStep i c) j = [].
Proof. intros Hne. simpl. by rewrite decide_False. Qed.

Lemma take_by_none w i t c j :
  threads w !! i = Some t → (∀ start ch sent pc, t ≠ TWs start ch sent pc) → take_by w (LStep i c) j = [].
Proof.
  intros Hi Hn. simpl. rewrite Hi. case_decide; [|done]. destruct t; try done. by destruct (Hn start c0 sent pc).
Qed.

Lemma serve_step_chans s self start r wr rerr pc c s' wr' rerr' pc' :
  serve_step answer s self start r wr rerr pc c = Some (s', wr', rerr', pc') →
  chH s' = chH s ∧ wsInbound s' = wsInbound s.
Proof. intros Hs. destruct pc, c; try done; cbn [serve_step] in Hs; by open_step. Qed.

Lemma ws_step_quiet s self next rd start ch sent pc c s' sent' pc' new :
  ws_step answer s self next rd start ch sent pc c = Some (s', sent', pc', new) →
  Forall (λ t, talk_of t = None) new.
Proof.
  intros Hs. destruct pc as [|[|[data failed] reads]| | | | |], c; try done; cbn [ws_step] in Hs;
    unfold send_frame in Hs; try (open_step; constructor; done).
  simplify_eq. repeat case_match; repeat constructor; done.
Qed.

Lemma loop_at_other w i t t' new s' :
  sess_ok w → threads w !! i = Some t → (∀ sent pc, t ≠ TLoop sent pc) →
  loop_at (mkWorld s' (<[i := t']> (threads w) ++ new)) = loop_at w.
Proof.
  intros Hok Hi Hn. destruct (sess_loop _ Hok) as (sent & pc & H0 & _).
  assert (i ≠ 0) as Hne by (intros ->; rewrite H0 in Hi; simplify_eq; by destruct (Hn sent pc)).
  unfold loop_at. cbn [threads]. rewrite lookup_app_l; [by rewrite list_lookup_insert_ne|].
  rewrite length_insert. by eapply lookup_lt_Some.
Qed.

Lemma loop_at_own s ts sent pc new :
  0 < length ts → loop_at (mkWorld s (<[0 := TLoop sent pc]> ts ++ new)) = pc.
Proof.
  intros Hlen. unfold loop_at. cbn [threads].
  by rewrite lookup_app_l, list_lookup_insert_eq by (by rewrite ?length_insert).
Qed.

Lemma thread_step_hearing g tk w i t c s' t' new :
  hearing g tk w → sess_ok w → threads w !! i = Some t →
  thread_step answer parse_url (st w) (threads w) i t c = Some (s', t', new) →
  starts_first (g ++ receive w (LStep i c)) →
  hears (g ++ receive w (LStep i c)) (λ j, tk j ++ take_by w (LStep i c) j) s'
    (loop_at (mkWorld s' (<[i := t']> (threads w) ++ new)))
    (talking (<[i := t']> (threads w) ++ new)).
Proof.
  intros [Hh Hnew] Hok Hi Hs Hfirst. cbn [receive] in *. rewrite Hi in *.
  assert (∀ g' tk' pc' v', hears g' tk' s' pc' v' → (∀ sent pc, t ≠ TLoop sent pc) →
    g' = g → pc' = loop_at w → (∀ j, tk j ++ take_by w (LStep i c) j = tk' j) →
    (∀ j, talking (<[i := t']> (threads w) ++ new) j = v' j) →
    hears (g ++ match t with TLoop _ pc => got_frame pc c | _ => [] end)
      (λ j, tk j ++ take_by w (LStep i c) j) s'
      (loop_at (mkWorld s' (<[i := t']> (threads w) ++ new)))
      (talking (<[i := t']> (threads w) ++ new))) as Hother.
  { intros g' tk' pc' v' Hh' Hn -> -> Htk Hv. rewrite (loop_at_other _ _ _ _ _ _ Hok Hi Hn).
    eapply hears_ext; [..|exact Hh']; try done; [..|by auto]; destruct t; try (by edestruct Hn);
      rewrite app_nil_r; done. }
  destruct t as [sent pc|start r wr got rerr pc|start ch sent pc|id sent running]; cbn [thread_step] in Hs;
    apply bind_Some in Hs as (x & Hs & Heq); repeat case_match; simplify_eq.
  - assert (i = 0) as -> by (by eapply sess_only). destruct (sess_loop _ Hok) as (sent1 & pc1 & H0 & Hws).
    rewrite Hi in H0. simplify_eq. unfold loop_at in Hh. rewrite Hi in Hh.
    rewrite loop_at_own by (by eapply lookup_lt_Some).
    eapply hears_ext; [..|eapply (loop_step_hears _ _ _ _ _ _ _ _ _ _ _ _ (length (threads w)) Hs Hh Hws Hfirst)];
      try done.
    + intros j. rewrite (take_by_none _ _ _ _ _ Hi) by done. apply app_nil_r.
    + intros j. rewrite seen_snoc by (by eapply loop_step_new).
      rewrite length_insert. case_decide; [done|]. by erewrite seen_same.
    + by auto.
    + unfold seen. by rewrite lookup_ge_None_2.
    + by apply Hnew.
  - destruct (serve_step_chans _ _ _ _ _ _ _ _ _ _ _ _ Hs) as [Hc Hw].
    eapply (Hother g tk (loop_at w) (talking (threads w))); try done.
    + eapply hears_ext; [..|exact Hh]; try done; rewrite ?Hc, ?Hw; try done; [|by auto].
      intros q. unfold queue_at. by rewrite Hc.
    + intros j. rewrite (take_by_none _ _ _ _ _ Hi) by done. apply app_nil_r.
    + intros j. rewrite app_nil_r. by erewrite seen_same.
  - eapply (Hother _ _ _ (talking (threads w)) (ws_step_hears _ _ _ _ _ _ _ _ _ _ _ _ _ _ _ _ _ Hs Hh
      ltac:(unfold seen; by rewrite Hi))); try done.
    + intros j. simpl. by rewrite Hi.
    + intros j. rewrite seen_app by (by eapply ws_step_quiet). by erewrite seen_same.
  - eapply (Hother g tk (loop_at w) (talking (threads w))); try done.
    + intros j. rewrite (take_by_none _ _ _ _ _ Hi) by done. apply app_nil_r.
    + intros j. rewrite app_nil_r. by erewrite seen_same.
Qed.

(** Reads of bodies and the end of a context take nothing. *)
Lemma hearing_threads g tk w s ts :
  hearing g tk w → chH s = chH (st w) → wsInbound s = wsInbound (st w) → length ts = length (threads w) →
  (∀ j, talking ts j = talking (threads w) j) →
  (∀ ch, pending (loop_at (mkWorld s ts)) ch = pending (loop_at w) ch) →
  receiving (loop_at (mkWorld s ts)) = receiving (loop_at w) →
  hearing g tk (mkWorld s ts).
Proof.
  intros [Hh Hn] Hc Hw Hlen Hts Hp Hr. split; [|cbn [threads]; by rewrite Hlen].
  eapply hears_ext; [..|exact Hh]; try done; cbn [st threads]; rewrite ?Hc, ?Hw; try done; [..|by rewrite Hr].
  - intros ch. unfold queue_at. by rewrite Hc.
  - intros ch. left. by rewrite Hp.
Qed.

Lemma hearing_step g tk w l w' :
  hearing g tk w → sess_ok w → exec answer parse_url w l = Some w' → starts_first (g ++ receive w l) →
  hearing (g ++ receive w l) (λ j, tk j ++ take_by w l j) w'.
Proof.
  intros Hg Hok Hl Hfirst. destruct l as [i c|l i n|e]; cbn [exec] in Hl.
  - apply bind_Some in Hl as (t & Hi & ([[s' t'] new] & Hs & [= <-])%bind_Some). split.
    + by eapply thread_step_hearing.
    + intros j. cbn [threads]. rewrite length_app, length_insert. intros Hj.
      rewrite (hg_new _ _ _ Hg), take_by_other by (apply lookup_lt_Some in Hi; lia). done.
  - destruct (threads w !! l) as [[sent1 [| r rest | | |]| | |]|] eqn:Hl'; try done.
    destruct (threads w !! i) as [[|start r' wr got rerr []| |]|] eqn:Hi; try done.
    apply bind_Some in Hl as (x & Hx & Hl). case_match; simplify_eq.
    assert (l = 0) as -> by (by eapply sess_only). cbn [receive]. rewrite app_nil_r.
    assert (hearing g tk (mkWorld (st w) (<[i := TServe start r' wr (got +:+ string_take n rest) rerr SRun]>
      (<[0 := TLoop sent1 (if bool_decide (string_drop n rest = "") then LRecv else LBody r (string_drop n rest))]>
         (threads w))))) as [Hh Hn].
    { assert (i ≠ 0) as Hne by (intros ->; congruence).
      assert (loop_at (mkWorld (st w) (<[i := TServe start r' wr (got +:+ string_take n rest) rerr SRun]>
        (<[0 := TLoop sent1 (if bool_decide (string_drop n rest = "") then LRecv else LBody r (string_drop n rest))]>
           (threads w)))) = if bool_decide (string_drop n rest = "") then LRecv else LBody r (string_drop n rest)) as Hla.
      { unfold loop_at. cbn [threads]. rewrite list_lookup_insert_ne by done.
        by rewrite list_lookup_insert_eq by (by eapply lookup_lt_Some). }
      assert (loop_at w = LBody r rest) as Hlw by (unfold loop_at; by rewrite Hl').
      apply (hearing_threads _ _ w); try done.
      - by rewrite !length_insert.
      - intros j. erewrite seen_same; [by erewrite seen_same|by rewrite list_lookup_insert_ne|done].
      - intros ch. rewrite Hla, Hlw. by case_bool_decide.
      - rewrite Hla, Hlw. by case_bool_decide. }
    split; [|intros j Hj; rewrite app_nil_r; by apply Hn].
    eapply hears_ext; [..|exact Hh]; try done; [|by auto]. intros j. apply app_nil_r.
  - destruct (ctx (st w)); simplify_eq. cbn [receive]. rewrite app_nil_r.
    destruct (hearing_threads g tk w (mkState (Some e) (inflight (st w)) (wsInbound (st w)) (irH (st w))
      (chH (st w)) (panicked (st w))) (threads w) Hg) as [Hh Hn]; try done.
    split; [|intros j Hj; rewrite app_nil_r; by apply Hn].
    eapply hears_ext; [..|exact Hh]; try done; [|by auto]. intros j. apply app_nil_r.
Qed.

(** *** What reaches the handler's connection *)

(** What the goroutine of a WebSocket writes to the handler's connection. *)
Definition write_at (t : thread) (c : choice) : list string :=
  match t, c with TWs _ _ _ (WWrite _ payload), IO true => [payload] | _, _ => [] end.

Definition write_by (w : world) (l : label) (i : nat) : list string :=
  match l with
  | LStep j c => if decide (j = i) then from_option (λ t, write_at t c) [] (threads w !! j) else []
  | _ => []
  end.

Fixpoint written (w : world) (ls : list label) (i : nat) : list string :=
  match ls with
  | [] => []
  | l :: ls =>
    write_by w l i ++ match exec answer parse_url w l with Some w' => written w' ls i | None => [] end
  end.

(** How far a goroutine has come with writing what it has taken. *)
Definition progress (tk wr : list string) (t : thread) : Prop :=
  match t with
  | TWs _ _ _ (WWrite _ payload) => tk = wr ++ [payload]
  | TWs _ _ _ (WDelete | WDone) => wr `prefix_of` tk
  | TWs _ _ _ _ => tk = wr
  | _ => True
  end.

Lemma progress_prefix tk wr start ch sent pc :
  progress tk wr (TWs start ch sent pc) → wr `prefix_of` tk.
Proof. destruct pc; simpl; try (intros ->); done || by eexists. Qed.

Lemma ws_step_progress s self next rd start ch sent pc c s' sent' pc' new tk wr :
  ws_step answer s self next rd start ch sent pc c = Some (s', sent', pc', new) →
  progress tk wr (TWs start ch sent pc) →
  progress (tk ++ take_at s (TWs start ch sent pc) c) (wr ++ write_at (TWs start ch sent pc) c)
    (TWs start ch sent' pc').
Proof.
  intros Hs Hp. destruct pc as [|[|[data failed] reads]| | | | |], c; try done; cbn [ws_step] in Hs;
    unfold send_frame in Hs; simpl in Hp |- *; rewrite ?app_nil_r.
  all: try (apply bind_Some in Hs as (x & Hx & Hs); unfold queue_at; rewrite ?Hx; simpl).
  all: repeat case_match; simplify_eq/=; rewrite ?app_nil_r; try done; by eexists.
Qed.

Record writing (tk wr : nat → list string) (w : world) : Prop := {
  wg_ok : ∀ i t, threads w !! i = Some t → progress (tk i) (wr i) t;
  wg_new : ∀ i, length (threads w) ≤ i → tk i = [] ∧ wr i = [] }.

(** ** To the edge *)

(** What a [Read] of the handler's connection by goroutine [i] returned. *)
Definition read_by (i : nat) (l : label) : list string :=
  match l with
  | LStep j (Read data _) =>
    if decide (j = i) then (if bool_decide (data = "") then [] else [data]) else []
  | _ => []
  end.
Definition reads_by (ls : list label) (i : nat) : list string := mjoin (read_by i <$> ls).

Definition is_reader (id : string) (t : thread) : Prop := ∃ sent running, t = TWsRead id sent running.

Lemma replies_utter i id l : replies i l = l → utterances id l = [].
Proof.
  intros Hl. assert (Forall (λ f, reply_id f = Some i) l) as Hall.
  { apply Forall_forall. intros f Hf. rewrite <-Hl in Hf. by apply list_elem_of_filter in Hf as [? _]. }
  clear Hl. induction Hall as [|f l Hf _ IH]; [done|]. csimpl. by destruct f.
Qed.

Lemma loop_step_utters s self sent pc c s' sent' pc' new :
  loop_step answer parse_url s self sent pc c = Some (s', sent', pc', new) →
  ∃ l, sent' = sent ++ l ∧ (∀ id, utterances id l = []) ∧ Forall (λ u, ∀ id, ¬ is_reader id u) new.
Proof.
  intros Hs.
  assert (sent' = sent → new = [] → ∃ l, sent' = sent ++ l ∧ (∀ id, utterances id l = [])
    ∧ Forall (λ u, ∀ id, ¬ is_reader id u) new) as Hquiet.
  { intros -> ->. exists []. rewrite app_nil_r. by split_and!. }
  destruct pc as [|r' rest|ch payload|e|e], c as [| | | | | |f| | | | | | | |]; try done;
    cbn [loop_step] in Hs; try (open_step; by apply Hquiet).
  destruct f; cbn [handle_frame] in Hs; try (open_step; by apply Hquiet).
  - unfold handle_start in Hs. destruct (isWebSocketUpgrade m); [|destruct (newRequest_err parse_url m)];
      simplify_eq; cbn [fst send_frame]; first [by eexists|exists []; rewrite app_nil_r];
      split_and!; try done; repeat constructor; by intros id (? & ? & ?).
  - unfold send_frame in Hs. simplify_eq. by eexists.
Qed.

Lemma ws_step_reader s self next rd start ch sent pc c s' sent' pc' new :
  ws_step answer s self next rd start ch sent pc c = Some (s', sent', pc', new) →
  new = [] ∨ (pc = WDial ∧ pc' ≠ WDial ∧ new = [TWsRead (rs_RequestId start) [] true]).
Proof.
  intros Hs. destruct pc as [|[|[data failed] reads]| | | | |], c; try done; cbn [ws_step] in Hs;
    unfold send_frame in Hs; try (open_step; by left).
  simplify_eq. repeat case_match; simplify_eq; auto.
Qed.

Lemma ws_step_dialled s self next rd start ch sent pc c s' sent' pc' new :
  ws_step answer s self next rd start ch sent pc c = Some (s', sent', pc', new) → pc' ≠ WDial.
Proof.
  intros Hs. destruct pc as [|[|[data failed] reads]| | | | |], c; try done; cbn [ws_step] in Hs;
    unfold send_frame in Hs; open_step; repeat case_match; done.
Qed.

(** A step sends messages only if it is one of a reader, and then what was read. *)
Lemma thread_step_utters s ts i t c s' t' new :
  thread_step answer parse_url s ts i t c = Some (s', t', new) →
  (∃ l, frames_of t' = frames_of t ++ l
     ∧ ∀ id, utterances id l = match t with
         | TWsRead id' _ _ => if bool_decide (id' = id) then read_by i (LStep i c) else []
         | _ => [] end)
  ∧ (∀ id, is_reader id t' ↔ is_reader id t)
  ∧ (Forall (λ u, ∀ id, ¬ is_reader id u) new
     ∨ ∃ start ch sent, t = TWs start ch sent WDial ∧ new = [TWsRead (rs_RequestId start) [] true]
         ∧ ∃ sent' pc', t' = TWs start ch sent' pc' ∧ pc' ≠ WDial)
  ∧ (∀ start ch sent pc, t = TWs start ch sent pc → ∃ sent' pc', t' = TWs start ch sent' pc' ∧ pc' ≠ WDial).
Proof.
  intros Hs. destruct t as [sent pc|start r wr got rerr pc|start ch sent pc|id sent running];
    cbn [thread_step] in Hs; apply bind_Some in Hs as (x & Hs & Heq); repeat case_match; simplify_eq.
  - destruct (loop_step_utters _ _ _ _ _ _ _ _ _ Hs) as (l' & -> & Hl & Hn).
    split_and!; [by exists l'|intros id; split; by intros (? & ? & ?)|by left|done].
  - apply serve_step_extends in Hs as [_ (l' & Hf & Hl)].
    split_and!; [exists l'; split; [done|]; intros id; by eapply replies_utter
      |intros id; split; by intros (? & ? & ?)|by left|done].
  - pose proof Hs as (l' & -> & Hl & _)%ws_step_sends.
    pose proof (ws_step_dialled _ _ _ _ _ _ _ _ _ _ _ _ _ Hs) as Hd.
    split_and!; [exists l'; split; [done|]; intros id; by eapply replies_utter
      |intros id; split; by intros (? & ? & ?)| |intros; simplify_eq; eauto].
    destruct (ws_step_reader _ _ _ _ _ _ _ _ _ _ _ _ _ Hs) as [-> |(-> & _ & ->)]; [by left|right].
    eauto 10.
  - split_and!; [|intros id'; split; intros (? & ? & ?); simplify_eq; by eexists _, _|by left|done].
    destruct running, c as [| | | | | | | | | | | | | |data err]; try done. cbn [read_step] in Hs. unfold send_frame in Hs.
    assert (read_by i (LStep i (Read data err)) = if bool_decide (data = "") then [] else [data]) as ->.
    { simpl. by rewrite decide_True. }
    assert (∀ id', utterances id' [ClientFrame_WsData id data] = if bool_decide (id = id') then [data] else []) as Hone.
    { intros id'. csimpl. by destruct (bool_decide (id = id')). }
    case_bool_decide; repeat case_match; simplify_eq; cbn [fst]; rewrite <-?app_assoc;
      first [by eexists; split; [reflexivity|]; intros id'; rewrite ?utterances_app, ?Hone; case_bool_decide
            |exists []; rewrite app_nil_r; split; [done|]; intros id'; by case_bool_decide].
Qed.

(** The record [e] of the frames sent and [rd] of the reads: under the id of a reader's
    WebSocket exactly what it has read has been sent. *)
Record speaking (e : list ClientFrame) (rd : nat → list string) (w : world) : Prop := {
  sp_owner : ∀ j t id, threads w !! j = Some t → is_reader id t →
    ∃ i start ch sent pc, threads w !! i = Some (TWs start ch sent pc) ∧ rs_RequestId start = id ∧ pc ≠ WDial;
  sp_unique : ∀ i j t u id, threads w !! i = Some t → threads w !! j = Some u →
    is_reader id t → is_reader id u → i = j;
  sp_none : ∀ id, (∀ j t, threads w !! j = Some t → ¬ is_reader id t) → utterances id e = [];
  sp_ok : ∀ j id t, threads w !! j = Some t → is_reader id t → utterances id e = rd j;
  sp_new : ∀ i, length (threads w) ≤ i → rd i = [] }.

Section speak.
Context (e : list ClientFrame) (rd : nat → list string) (w : world) (i : nat) (t : thread) (c : choice).
Context (s' : state) (t' : thread) (new : list thread).
Hypothesis Hsp : speaking e rd w.
Hypothesis Hids : ∀ i j m c m' c', talking (threads w) i = Some (m, c) → talking (threads w) j = Some (m', c') →
  rs_RequestId m = rs_RequestId m' → i = j.
Hypothesis Hi : threads w !! i = Some t.
Hypothesis Hs : thread_step answer parse_url (st w) (threads w) i t c = Some (s', t', new).

Let w' := mkWorld s' (<[i := t']> (threads w) ++ new).

Lemma speak_emit :
  ∀ id, utterances id (emit answer parse_url w (LStep i c)) = match t with
    | TWsRead id' _ _ => if bool_decide (id' = id) then read_by i (LStep i c) else []
    | _ => [] end.
Proof.
  destruct (thread_step_utters _ _ _ _ _ _ _ _ Hs) as ((l & Hf & Hl) & _). intros id. rewrite <-Hl.
  unfold emit. cbn [exec]. rewrite Hi. cbn [mbind option_bind]. rewrite Hs. cbn [mbind option_bind threads].
  rewrite lookup_app_l by (rewrite length_insert; by eapply lookup_lt_Some).
  rewrite list_lookup_insert_eq by (by eapply lookup_lt_Some). simpl. by rewrite Hf, drop_app_length.
Qed.

(** Readers of the new world: old ones, or the one just started, whose id has no other. *)
Lemma speak_origin j u id :
  threads w' !! j = Some u → is_reader id u →
  (∃ u0, threads w !! j = Some u0 ∧ is_reader id u0)
  ∨ (j = length (threads w) ∧ (∀ k t0, threads w !! k = Some t0 → ¬ is_reader id t0)
     ∧ (∀ id', ¬ is_reader id' t)
     ∧ ∃ start ch sent pc, t' = TWs start ch sent pc ∧ rs_RequestId start = id ∧ pc ≠ WDial).
Proof.
  destruct (thread_step_utters _ _ _ _ _ _ _ _ Hs) as (_ & Hr & Hnew & _).
  intros [Hj|[Hge Hj]]%lookup_app_Some Hu.
  - left. apply insert_lookup_cases in Hj as [(<- & <- & _)|[_ Hj]]; [|by eauto].
    exists t. split; [done|by apply Hr].
  - right. rewrite length_insert in *.
    destruct Hnew as [Hn|(start & ch & sent & -> & -> & sent' & pc' & -> & Hpc)].
    { by destruct (Forall_lookup_1 _ _ _ _ Hn Hj id). }
    apply list_lookup_singleton_Some in Hj as [Hz <-]. destruct Hu as (s1 & r1 & Heq). simplify_eq.
    split; [lia|]. split; [|split; [by intros id' (? & ? & ?)|eauto 10]].
    intros k t0 Hk Hr0. destruct (sp_owner _ _ _ Hsp _ _ _ Hk Hr0) as (i1 & start1 & ch1 & sent1 & pc1 & Hi1 & Hid & Hpc1).
    assert (i1 = i) as ->.
    { eapply Hids; [unfold seen; by rewrite Hi1|unfold seen; by rewrite Hi|done]. }
    rewrite Hi in Hi1. by simplify_eq.
Qed.

Lemma read_by_ne j : j ≠ i → read_by j (LStep i c) = [].
Proof. intros Hne. simpl. destruct c; try done. by rewrite decide_False. Qed.

Lemma speaking_thread :
  speaking (e ++ emit answer parse_url w (LStep i c)) (λ j, rd j ++ read_by j (LStep i c)) w'.
Proof.
  destruct (thread_step_utters _ _ _ _ _ _ _ _ Hs) as (_ & Hr & _ & Hws).
  assert (i < length (threads w)) as Hlt by (by eapply lookup_lt_Some).
  assert (∀ j u, threads w !! j = Some u → j ≠ i → threads w' !! j = Some u) as Hstay.
  { intros j u Hj Hne. unfold w'. cbn [threads]. apply lookup_app_l_Some. by rewrite list_lookup_insert_ne. }
  assert (threads w' !! i = Some t') as Hown.
  { unfold w'. cbn [threads]. apply lookup_app_l_Some. by apply list_lookup_insert_eq. }
  constructor.
  - intros j u id Hj Hu. destruct (speak_origin _ _ _ Hj Hu) as [(u0 & Hj0 & Hu0)|(_ & _ & _ & start & ch & sent & pc & -> & ? & ?)];
      [|by exists i, start, ch, sent, pc].
    destruct (sp_owner _ _ _ Hsp _ _ _ Hj0 Hu0) as (k & start & ch & sent & pc & Hk & Hid & Hpc).
    destruct (decide (k = i)) as [->|Hne]; [|by eauto 10].
    rewrite Hi in Hk. simplify_eq. destruct (Hws _ _ _ _ eq_refl) as (sent' & pc' & -> & Hpc').
    by exists i, start, ch, sent', pc'.
  - intros j k u v id Hj Hk Hu Hv.
    destruct (speak_origin _ _ _ Hj Hu) as [(u0 & Hj0 & Hu0)|(-> & Hno & _)],
      (speak_origin _ _ _ Hk Hv) as [(v0 & Hk0 & Hv0)|(-> & Hno' & _)]; [by eapply (sp_unique _ _ _ Hsp)|..|done].
    + by destruct (Hno' _ _ Hj0).
    + by destruct (Hno _ _ Hk0).
  - intros id Hno. rewrite utterances_app, speak_emit.
    assert (∀ j u, threads w !! j = Some u → ¬ is_reader id u) as Hno0.
    { intros j u Hj Hu. destruct (decide (j = i)) as [->|Hne]; [|by eapply Hno; [by apply Hstay|]].
      rewrite Hi in Hj. injection Hj as <-. eapply Hno; [exact Hown|]. by apply Hr. }
    rewrite (sp_none _ _ _ Hsp id Hno0). destruct t as [| | |id' sent running]; try done.
    rewrite bool_decide_false; [done|]. intros ->. eapply Hno0; [exact Hi|]. by eexists _, _.
  - intros j id u Hj Hu. rewrite utterances_app, speak_emit.
    destruct (speak_origin _ _ _ Hj Hu) as [(u0 & Hj0 & Hu0)|(-> & Hno & Hnt & _)].
    + rewrite (sp_ok _ _ _ Hsp _ _ _ Hj0 Hu0). f_equal. destruct (decide (j = i)) as [->|Hne].
      * rewrite Hi in Hj0. injection Hj0 as <-. destruct Hu0 as (? & ? & ->). by rewrite bool_decide_true.
      * rewrite (read_by_ne j) by done. destruct t as [| | |id' sent running]; try done.
        rewrite bool_decide_false; [done|]. intros ->. apply Hne.
        eapply (sp_unique _ _ _ Hsp); [exact Hj0|exact Hi|done|by eexists _, _].
    + rewrite (sp_none _ _ _ Hsp _ Hno), (sp_new _ _ _ Hsp), (read_by_ne (length (threads w))) by lia.
      destruct t as [| | |id' sent running]; try done. destruct (Hnt id'). by eexists _, _.
  - intros j. unfold w'. cbn [threads]. rewrite length_app, length_insert. intros Hj.
    rewrite (sp_new _ _ _ Hsp), read_by_ne by lia. done.
Qed.
End speak.

(** Goroutines that only read bodies, or whose context ends. *)
Lemma speaking_threads e rd w s ts :
  speaking e rd w → length ts = length (threads w) →
  (∀ j u, ts !! j = Some u → ∃ u0, threads w !! j = Some u0 ∧ ∀ id, is_reader id u ↔ is_reader id u0) →
  (∀ j start ch sent pc, threads w !! j = Some (TWs start ch sent pc) → ts !! j = Some (TWs start ch sent pc)) →
  speaking e rd (mkWorld s ts).
Proof.
  intros [Ho Hu Hn Hok Hnew] Hlen Hts Hws.
  assert (∀ j u id, ts !! j = Some u → is_reader id u → ∃ u0, threads w !! j = Some u0 ∧ is_reader id u0) as Hold.
  { intros j u id Hj Hr. destruct (Hts _ _ Hj) as (u0 & Hj0 & Hiff). exists u0. split; [done|by apply Hiff]. }
  constructor; cbn [threads].
  - intros j u id Hj Hr. destruct (Hold _ _ _ Hj Hr) as (u0 & Hj0 & Hr0).
    destruct (Ho _ _ _ Hj0 Hr0) as (k & start & ch & sent & pc & Hk & ?). eauto 10.
  - intros j k u v id Hj Hk Hr Hr'. destruct (Hold _ _ _ Hj Hr) as (u0 & Hj0 & Hr0).
    destruct (Hold _ _ _ Hk Hr') as (v0 & Hk0 & Hr0'). eauto.
  - intros id Hno. apply Hn. intros j u0 Hj0 Hr0.
    destruct (lookup_lt_is_Some_2 ts j) as [u Hj]; [rewrite Hlen; by eapply lookup_lt_Some|].
    destruct (Hts _ _ Hj) as (u1 & Hj1 & Hiff). rewrite Hj0 in Hj1. simplify_eq.
    eapply Hno; [exact Hj|by apply Hiff].
  - intros j id u Hj Hr. destruct (Hold _ _ _ Hj Hr) as (u0 & Hj0 & Hr0). eauto.
  - by rewrite Hlen.
Qed.

Lemma speaking_ext e e' rd rd' w :
  e' = e → (∀ j, rd' j = rd j) → speaking e rd w → speaking e' rd' w.
Proof. intros -> Hr []. constructor; try setoid_rewrite Hr; eauto. Qed.

Lemma speaking_step g tk e rd w l w' :
  hearing g tk w → speaking e rd w → exec answer parse_url w l = Some w' →
  speaking (e ++ emit answer parse_url w l) (λ j, rd j ++ read_by j l) w'.
Proof.
  intros Hg Hsp Hl. destruct l as [i c|l i n|x]; cbn [exec] in Hl.
  { apply bind_Some in Hl as (t & Hi & ([[s' t'] new] & Hs & [= <-])%bind_Some).
    eapply speaking_thread; [done| |done|done].
    intros j k m ch m' ch' Hj Hk Heq. by eapply (he_ids _ _ _ _ _ (hg_hears _ _ _ Hg)). }
  all: apply (speaking_ext e _ rd _); [apply app_nil_r|intros; apply app_nil_r|].
  - destruct (threads w !! l) as [[sent1 [| r rest | | |]| | |]|] eqn:Hl'; try done.
    destruct (threads w !! i) as [[|start r' wr got rerr []| |]|] eqn:Hi; try done.
    apply bind_Some in Hl as (x & Hx & Hl). case_match; simplify_eq.
    apply (speaking_threads _ _ w); [done|by rewrite !length_insert|..].
    + intros j u [(<- & <- & _)|[_ [(<- & <- & _)|[_ Hj]]%insert_lookup_cases]]%insert_lookup_cases.
      * eexists. split; [exact Hi|]. intros id. split; by intros (? & ? & ?).
      * eexists. split; [exact Hl'|]. intros id. split; by intros (? & ? & ?).
      * by exists u.
    + intros j st0 ch0 sent0 pc0 Hj.
      rewrite !list_lookup_insert_ne; [done|intros ->; congruence..].
  - destruct (ctx (st w)); simplify_eq. apply (speaking_threads _ _ w); try done.
    intros j u Hj. by exists u.
Qed.

Lemma new_progress s ts i t c s' t' new :
  thread_step answer parse_url s ts i t c = Some (s', t', new) → Forall (progress [] []) new.
Proof.
  intros Hs. destruct t as [sent pc|start r wr got rerr pc|start ch sent pc|id sent running];
    cbn [thread_step] in Hs; apply bind_Some in Hs as (x & Hs & Heq); repeat case_match; simplify_eq; try constructor.
  - destruct pc as [|r' rest|q payload|e|e], c as [| | | | | |f| | | | | | | |]; try done;
      cbn [loop_step] in Hs; try (open_step; constructor; done).
    destruct f; cbn [handle_frame] in Hs; try (open_step; constructor; done).
    unfold handle_start in Hs. repeat case_match; simplify_eq; repeat constructor.
  - apply ws_step_reader in Hs as [->|(_ & _ & ->)]; repeat constructor.
Qed.

Lemma thread_step_progress s ts i t c s' t' new tk wr :
  thread_step answer parse_url s ts i t c = Some (s', t', new) → progress tk wr t →
  progress (tk ++ take_at s t c) (wr ++ write_at t c) t'.
Proof.
  intros Hs Hp. destruct t as [sent pc|start r w got rerr pc|start ch sent pc|id sent running];
    cbn [thread_step] in Hs; apply bind_Some in Hs as (x & Hs & Heq); repeat case_match; simplify_eq; try done.
  by eapply ws_step_progress.
Qed.

Lemma writing_ext tk tk' wr wr' w :
  (∀ i, tk' i = tk i) → (∀ i, wr' i = wr i) → writing tk wr w → writing tk' wr' w.
Proof. intros Ht Hw []. constructor; try setoid_rewrite Ht; try setoid_rewrite Hw; eauto. Qed.

Lemma writing_step tk wr w l w' :
  writing tk wr w → exec answer parse_url w l = Some w' →
  writing (λ j, tk j ++ take_by w l j) (λ j, wr j ++ write_by w l j) w'.
Proof.
  intros [Hok Hnew] Hl. destruct l as [i c|l i n|e]; cbn [exec] in Hl.
  - apply bind_Some in Hl as (t & Hi & ([[s' t'] new] & Hs & [= <-])%bind_Some).
    assert (i < length (threads w)) as Hlt by (by eapply lookup_lt_Some).
    constructor; cbn [threads take_by write_by].
    + intros j u Hj. rewrite Hi. simpl. apply lookup_app_Some in Hj as [Hj|[Hge Hj]].
      * apply insert_lookup_cases in Hj as [(-> & <- & _)|[Hne Hj]].
        -- rewrite !decide_True by done. eapply thread_step_progress; eauto.
        -- rewrite !decide_False, !app_nil_r by done. eauto.
      * rewrite length_insert in Hge. rewrite !decide_False by lia.
        destruct (Hnew j Hge) as [-> ->]. exact (Forall_lookup_1 _ _ _ _ (new_progress _ _ _ _ _ _ _ _ Hs) Hj).
    + intros j. rewrite length_app, length_insert. intros Hj. rewrite !decide_False by lia.
      rewrite !app_nil_r. apply Hnew. lia.
  - destruct (threads w !! l) as [[sent1 [| r rest | | |]| | |]|] eqn:Hl'; try done.
    destruct (threads w !! i) as [[|start r' x got rerr []| |]|] eqn:Hi; try done.
    apply bind_Some in Hl as (y & Hx & Hl). case_match; simplify_eq.
    eapply writing_ext; [intros; apply app_nil_r..|]. constructor; cbn [threads].
    + intros j u [(_ & <- & _)|[_ [(_ & <- & _)|[_ Hj]]%insert_lookup_cases]]%insert_lookup_cases; [done..|eauto].
    + intros j. rewrite !length_insert. apply Hnew.
  - destruct (ctx (st w)); simplify_eq. eapply writing_ext; [intros; apply app_nil_r..|]. by constructor.
Qed.

Lemma writing_run tk wr w ls w' :
  writing tk wr w → run answer parse_url w ls = Some w' →
  writing (λ j, tk j ++ taken w ls j) (λ j, wr j ++ written w ls j) w'.
Proof.
  revert tk wr w. induction ls as [|l ls IH]; intros tk wr w Hw; simpl.
  { intros [= <-]. eapply writing_ext; [intros; apply app_nil_r..|done]. }
  intros (w1 & Hl & Hr)%bind_Some. rewrite Hl.
  eapply writing_ext; [..|exact (IH _ _ _ (writing_step _ _ _ _ _ Hw Hl) Hr)]; intros j; by rewrite app_assoc.
Qed.

Lemma run_writing ls w :
  run answer parse_url init_world ls = Some w → writing (taken init_world ls) (written init_world ls) w.
Proof.
  assert (writing (λ _, []) (λ _, []) init_world) as H0.
  { constructor; [|done]. intros [|j] t Hj; simplify_eq/=; done. }
  intros Hr. exact (writing_run _ _ _ _ _ H0 Hr).
Qed.

(** What is written is what was taken, up to one message. *)
Lemma written_taken ls w i start ch sent pc :
  run answer parse_url init_world ls = Some w → threads w !! i = Some (TWs start ch sent pc) →
  written init_world ls i `prefix_of` taken init_world ls i.
Proof.
  intros Hr Hi. eapply progress_prefix. exact (wg_ok _ _ _ (run_writing _ _ Hr) _ _ Hi).
Qed.

(** *** Whole runs *)

Lemma talk_run g tk e rd w ls w' :
  hearing g tk w → speaking e rd w → sess_ok w → run answer parse_url w ls = Some w' →
  starts_first (g ++ received answer parse_url w ls) →
  hearing (g ++ received answer parse_url w ls) (λ j, tk j ++ taken w ls j) w'
  ∧ speaking (e ++ emitted answer parse_url w ls) (λ j, rd j ++ reads_by ls j) w'.
Proof.
  revert g tk e rd w. induction ls as [|l ls IH]; intros g tk e rd w Hg Hsp Hok; simpl.
  { intros [= <-] _. rewrite !app_nil_r. destruct Hg as [Hh Hn]. split; [split|].
    - eapply hears_ext; [..|exact Hh]; try done; [|by auto]. intros j. apply app_nil_r.
    - intros j Hj. rewrite app_nil_r. by apply Hn.
    - eapply speaking_ext; [..|exact Hsp]; [done|]. intros j. apply app_nil_r. }
  intros (w1 & Hl & Hr)%bind_Some Hf. rewrite Hl in *.
  assert (hearing (g ++ receive w l) (λ j, tk j ++ take_by w l j) w1) as Hg1.
  { apply hearing_step; [done..|]. eapply starts_first_prefix; [|exact Hf]. rewrite app_assoc. by eexists. }
  rewrite app_assoc in Hf.
  destruct (IH _ _ _ _ _ Hg1 (speaking_step _ _ _ _ _ _ _ Hg Hsp Hl) (sess_ok_step _ _ _ _ _ Hok Hl) Hr Hf)
    as [[Hh Hn] Hsp1]. rewrite !app_assoc. split; [split|].
  - eapply hears_ext; [..|exact Hh]; try done; [|by auto]. intros j. by rewrite app_assoc.
  - intros j Hj. rewrite app_assoc. by apply Hn.
  - eapply speaking_ext; [..|exact Hsp1]; [done|]. intros j. unfold reads_by. simpl. by rewrite app_assoc.
Qed.

Lemma run_talk ls w :
  run answer parse_url init_world ls = Some w → starts_first (received answer parse_url init_world ls) →
  hearing (received answer parse_url init_world ls) (taken init_world ls) w
  ∧ speaking (emitted answer parse_url init_world ls) (reads_by ls) w.
Proof.
  intros Hr Hf. apply (talk_run [] (λ _, []) [] (λ _, []) init_world); [..|apply sess_ok_init|done|done].
  - split; [|done]. constructor; try done; intros [|]; intros; simplify_eq/=.
  - constructor; try done; intros [|j] **; simplify_eq/=;
      match goal with Hx : is_reader _ _ |- _ => by destruct Hx as (? & ? & ?) end.
Qed.

(** While the goroutine waits for messages it has written all it has taken. *)
Lemma written_all ls w i start ch sent rd :
  run answer parse_url init_world ls = Some w → threads w !! i = Some (TWs start ch sent (WLoop rd)) →
  written init_world ls i = taken init_world ls i.
Proof. intros Hr Hi. symmetry. exact (wg_ok _ _ _ (run_writing _ _ Hr) _ _ Hi). Qed.
End talk.
