(* ===== verification/EndToEnd.v ===== *)
(** * From the browser to the handler and back.

    The two halves of the program meet in the frames: what the edge makes of a browser's
    request is what the client starts from, and what the client's response writer sends is
    what the edge puts into the response state. *)

From S2P Require Import Prelude GoStrings Hostnames Proto Headers Channels ResponseState Server.
From S2P Require Import Frames Steps Scenario Abstract Invariants Pipeline Forward ResponseWriter Url Session Delivery.

Section end_to_end.
Context `{UnicodeData}.

(** ** Requests *)

Lemma ToProto_elem h k vs :
  Some (mkHeader k vs) ∈ ToProto h ↔
  h !! k = Some vs ∧ shouldStrip k (connectionTokens h) (hasUpgrade h) = false.
Proof.
  unfold ToProto. rewrite ToProto_range_spec, list_elem_of_fmap. split.
  - intros ([k' vs'] & Heq & Hin). simplify_eq/=.
    apply list_elem_of_filter in Hin as [? Hin]. by rewrite elem_of_map_to_list in Hin.
  - intros [Hk Hs]. exists (k, vs). split; [done|]. rewrite list_elem_of_filter.
    by rewrite elem_of_map_to_list.
Qed.

(** The two halves agree on WebSockets: a request the edge serves as a WebSocket is one
    the client takes for a WebSocket, because its Upgrade header crosses the tunnel. *)
Theorem websocket_agrees r id :
  EqualFold (Header_Get (r_Header r) "Upgrade") "websocket" = true →
  isWebSocketUpgrade (request_start r id) = true.
Proof.
  intros Hup. rewrite isWebSocketUpgrade_spec. unfold request_start. cbn [rs_Headers].
  assert (hasUpgrade (r_Header r) = true) as Hhas.
  { unfold hasUpgrade. apply bool_decide_eq_true. intros Heq. by rewrite Heq in Hup. }
  unfold Header_Get, Header_Values in Hup.
  change (CanonicalHeaderKey "Upgrade") with "Upgrade" in Hup.
  destruct (r_Header r !! "Upgrade") as [vs|] eqn:Hk;
    rewrite (lookup_total_correct _ _ vs) in Hup || rewrite lookup_total_alt, Hk in Hup; try done.
  destruct vs as [|v vs]; [done|].
  exists "Upgrade", (v :: vs), v. rewrite ToProto_elem, Hhas. split_and!; try done. left.
Qed.

(** They do not agree the other way round: the client looks at every value of every
    Upgrade header, the edge at the first one.  A request with a second Upgrade header is
    a WebSocket for the client and not for the edge, which then forwards a body the client
    ignores and ignores the messages the client sends. *)
Theorem websocket_disagrees :
  ∃ h, ∀ r id, r_Header r = h →
    EqualFold (Header_Get (r_Header r) "Upgrade") "websocket" = false
    ∧ isWebSocketUpgrade (request_start r id) = true.
Proof.
  exists {[ "Upgrade" := ["h2c"; "websocket"] ]}. intros r id Hh. split.
  - rewrite Hh. vm_compute. reflexivity.
  - rewrite isWebSocketUpgrade_spec. exists "Upgrade", ["h2c"; "websocket"], "websocket".
    unfold request_start. cbn [rs_Headers]. rewrite ToProto_elem, Hh.
    split_and!; try done. right. left.
Qed.

(** What a handler behind the client has read, if its frames are an initial part of those
    of request [r]. *)
Lemma received_request r start tl got rerr :
  ServerFrame_RequestStart start :: tl `prefix_of` sends r (rs_RequestId start) →
  (∃ rest, got +:+ rest = cat (chunks_of tl)) →
  (rerr = Some EOF →
   got = cat (chunks_of tl) ∧ ServerFrame_RequestEnd (rs_RequestId start) ∈ tl) →
  start = request_start r (rs_RequestId start)
  ∧ (∃ rest, got +:+ rest = (request_body r).1)
  ∧ (rerr = Some EOF → got = (request_body r).1 ∧ (request_body r).2 = None).
Proof.
  intros Hall [rest Hgot] Heof.
  destruct (sends_bytes r (rs_RequestId start)) as [Hbytes Hend]. split_and!.
  - apply prefix_cons_inv_1 in Hall. congruence.
  - destruct Hall as [more Hmore]. exists (rest +:+ cat (chunks_of more)).
    rewrite <-Hbytes, Hmore, chunks_of_app, cat_app, <-app_assoc_str, Hgot. done.
  - intros [-> He]%Heof.
    assert (ServerFrame_RequestStart start :: tl = sends r (rs_RequestId start)) as Heq.
    { eapply proper_whole; [apply proper_sends|done|]. right. exact He. }
    rewrite <-Hbytes, <-Hend, <-Heq. split; [done|]. right. exact He.
Qed.

(** A request makes it through the tunnel: if what a client's session has received is
    an initial part of what the edge has sent on the stream, every goroutine of the client
    that serves a request serves the request of one browser, with its method, path, query,
    host, address and headers; what its handler has read is an initial part of that
    browser's body; and if a read has returned the end of the body, the handler has read
    the whole body and the browser had sent all of it. *)
Theorem request_end_to_end cfg s ls w i p sent e answer parse_url ls' w' j start q wr got rerr pc :
  New cfg = Ok s → (MaxTotalInflight cfg ≤ max_i64)%Z → (Z.of_nat (length ls) < 2^64)%Z →
  run (init_world s) ls = Some w → threads w !! i = Some (TSend p sent e) →
  Session.run answer parse_url Session.init_world ls' = Some w' →
  received answer parse_url Session.init_world ls' `prefix_of` sent →
  Session.threads w' !! j = Some (Session.TServe start q wr got rerr pc) →
  ∃ n r ctx out hpc, threads w !! n = Some (THttp r ctx out hpc)
    ∧ start = request_start r (rs_RequestId start)
    ∧ (∃ rest, got +:+ rest = (request_body r).1)
    ∧ (rerr = Some EOF → got = (request_body r).1 ∧ (request_body r).2 = None).
Proof.
  intros Hnew Hmax Hlen Hrun Hi Hrun' Hpre Hj.
  pose proof (λ id, sent_whose _ _ _ _ _ _ _ _ id Hnew Hmax Hlen Hrun Hi) as Hsent.
  assert (∀ id, proper (about id sent)) as Hproper.
  { intros id. destruct (Hsent id) as [->|(n & r & ctx & out & hpc & _ & Hr)]; [by split|].
    eapply proper_prefix; [exact Hr|apply proper_sends]. }
  destruct (delivered_read _ _ _ _ _ _ _ _ _ _ _ Hrun' Hj) as (tl & Ha & Hgot & Heof).
  { intros id. eapply proper_prefix; [by apply about_prefix|done]. }
  pose proof (about_prefix (rs_RequestId start) _ _ Hpre) as Hab. rewrite Ha in Hab.
  destruct (Hsent (rs_RequestId start)) as [Hn|(n & r & ctx & out & hpc & Hn & Hr)].
  { rewrite Hn in Hab. by apply prefix_nil_inv in Hab. }
  exists n, r, ctx, out, hpc. split; [done|]. eapply received_request; [by etrans|done..].
Qed.

(** ** Responses *)

Lemma bodies_content id cs rest :
  starts (contents ((ClientFrame_ResponseBody id <$> cs) ++ rest))
    = starts (contents rest)
  ∧ chunks (contents ((ClientFrame_ResponseBody id <$> cs) ++ rest))
    = cs ++ chunks (contents rest).
Proof.
  induction cs as [|c cs [IHs IHc]]; [done|]. split; [exact IHs|exact (f_equal (cons c) IHc)].
Qed.

Lemma header_of_strip id status h :
  header_of (mkResponseStart id status (ToProto h)) = WHeader status (Copy ∅ (strip h)).
Proof.
  unfold header_of. simpl. rewrite FromProto_strip. unfold ToProto.
  rewrite gather_ToProto by (by unfold iterates). by rewrite strip_idemp.
Qed.

Lemma response_content answer id ops :
  (∀ n, answer n = None) →
  let h := contents (frames (serve_response answer id ops None)) in
  starts h = [mkResponseStart id (wrap_i32 (first_header ∅ ops).1) (ToProto (first_header ∅ ops).2)]
  ∧ chunks h = writes ops.
Proof.
  intros Ha. pose proof (do_ops_fresh answer _ _ _ ops (new_fresh id)) as Hops.
  unfold serve_response. destruct (starts_response ops).
  - destruct Hops as (cs & Hst & _ & Hall). rewrite (Finish_started _ _ _ _ _ Hst), Hall by done.
    destruct (bodies_content id (writes ops) [ClientFrame_ResponseEnd id]) as [Hs Hc].
    split; [exact (f_equal (cons _) Hs)|]. etrans; [exact Hc|apply app_nil_r].
  - destruct Hops as (Hf & Hstatus & Hw). rewrite (Finish_fresh _ _ _ _ Hf), Hw, Hstatus. by split.
Qed.

(** Its frames are in order and end. *)
Lemma response_orderly answer id ops :
  let l := frames (serve_response answer id ops None) in orderly l ∧ ended_by l.
Proof.
  pose proof (do_ops_fresh answer _ _ _ ops (new_fresh id)) as Hops. unfold serve_response.
  assert (∀ f l, ¬ ending f → Forall (λ g, ¬ ending g) l →
    orderly (f :: l ++ [ClientFrame_ResponseEnd id]) ∧ ended_by (f :: l ++ [ClientFrame_ResponseEnd id])) as Hl.
  { intros f l Hf Hl. split; [apply (orderly_app (f :: l)); by constructor|].
    unfold ended_by. rewrite app_comm_cons, Exists_app. right. by left. }
  destruct (starts_response ops).
  - destruct Hops as (cs & Hst & _ & _). rewrite (Finish_started _ _ _ _ _ Hst). apply Hl; [by intros []|].
    apply Forall_fmap, Forall_true. by intros ? [].
  - destruct Hops as (Hf & _ & _). rewrite (Finish_fresh _ _ _ _ Hf). apply (Hl _ []); [by intros []|constructor].
Qed.

(** A response makes it through the tunnel: if the frames of a handler that returned
    are what was put into the response state of a browser's request, then the browser's
    handler, when it leaves the drained body, has written the handler's status, its headers
    without the hop-by-hop ones, and exactly the bytes the handler wrote. *)
Theorem response_end_to_end s ls w i r ctx out k w' out' answer id ops :
  run (init_world s) ls = Some w →
  threads w !! i = Some (THttp r ctx out (PDrain k)) →
  exec w (LStep i Go) = Some w' → threads w' !! i = Some (THttp r ctx out' (exit k)) →
  (∀ n, answer n = None) →
  accepted (init_world s) ls (k_rs k) = contents (frames (serve_response answer id ops None)) →
  ∃ cs, out' = WHeader (wrap_i32 (first_header ∅ ops).1) (Copy ∅ (strip (first_header ∅ ops).2))
                 :: (WBody <$> cs)
    ∧ cat cs = cat (writes ops).
Proof.
  intros Hrun Hi Hx Hi' Ha Hacc.
  destruct (drained_complete _ _ _ _ _ _ _ _ _ _ Hrun Hi Hx Hi') as (m & ms & cs & Hs & -> & Hc).
  destruct (response_content answer id ops Ha) as [Hst Hch]. rewrite Hacc, Hst in Hs. simplify_eq.
  exists cs. rewrite header_of_strip. split; [done|]. by rewrite Hc, Hacc, Hch.
Qed.
End end_to_end.

Section witnesses.
Import Scenario.

Example websocket_agrees_witness :
  isWebSocketUpgrade (request_start
    (mkRequest "demo.example.com" "GET" "/ws" "" "" "192.0.2.1:5" true
       {[ "Upgrade" := ["WebSocket"] ]} None true) "1") = true.
Proof. apply websocket_agrees. vm_compute. reflexivity. Defined.

(** The client receives what [upload] and one more step have sent; its handler reads all of
    it and then the end. *)
Definition download : list Session.label :=
  (λ f, Session.LStep 0 (Session.Recv f)) <$> take 2 uploaded.
Definition download_all : list Session.label :=
  download ++ [Session.LRead 0 1 2; Session.LStep 0 (Session.Recv (ServerFrame_RequestBody "1" "c"));
               Session.LRead 0 1 5; Session.LStep 0 (Session.Recv (ServerFrame_RequestEnd "1"));
               Session.LStep 1 Session.HReadErr].

Example request_end_to_end_witness :
  ∃ n r ctx out hpc, threads (after (upload ++ [LStep 1 OnSend])) !! n = Some (THttp r ctx out hpc)
    ∧ (∃ rest, "abc" +:+ rest = (request_body r).1) ∧ "abc" = (request_body r).1.
Proof.
  destruct (request_end_to_end config server (upload ++ [LStep 1 OnSend])
    (after (upload ++ [LStep 1 OnSend])) 1 0 (uploaded ++ [ServerFrame_RequestEnd "1"]) None
    (λ _ _, None) (λ _, None) download_all
    (default Session.init_world
       (Session.run (λ _ _, None) (λ _, None) Session.init_world download_all))
    1 (request_start post "1") 0 (newTunnelResponseWriter "1") "abc" (Some EOF) Session.SRun)
    as (n & r & ctx & out & hpc & Hn & _ & Hgot & Heof);
    [exact server_new|done|done|vm_compute; reflexivity..| |vm_compute; reflexivity|].
  - exists []. vm_compute. reflexivity.
  - exists n, r, ctx, out, hpc. split; [exact Hn|]. split; [exact Hgot|]. by apply Heof.
Defined.

Example response_end_to_end_witness :
  ∃ cs, [WHeader 200 ∅; WBody "x"] = WHeader 200 (Copy ∅ (strip ∅)) :: (WBody <$> cs)
    ∧ cat cs = "x".
Proof.
  refine (response_end_to_end server drained (after drained) 3 request None
    [WHeader 200 ∅; WBody "x"] (mkK 0 "1" 0 None) (after (drained ++ [LStep 3 Go]))
    [WHeader 200 ∅; WBody "x"] (λ _, None) "1" [OpWrite "x"] _ _ _ _ _ _);
    vm_compute; reflexivity.
Defined.
End witnesses.
