(* ===== verification/System.v ===== *)
(** * An edge and the session of a client, together.

    [Steps] runs the edge and [Session] a client's session, each with whatever frames the
    other side may send.  Here the two run together: a schedule interleaves steps of both,
    and the stream between them carries frames in order.  A browser's request then makes
    the whole way to the user's handler and its response the whole way back. *)

From S2P Require Import Prelude GoStrings Hostnames Proto Headers Channels ResponseState Server.
From S2P Require Import Frames Steps Scenario Abstract Invariants ServerConfig Pipeline Forward Replies Listening ResponseWriter Url Session Delivery Answering EndToEnd.

(** ** Schedules *)

Inductive action :=
| AtEdge (l : label)
| AtClient (l : Session.label).

Definition edge_part (js : list action) : list label :=
  omap (λ a, match a with AtEdge l => Some l | _ => None end) js.
Definition client_part (js : list action) : list Session.label :=
  omap (λ a, match a with AtClient l => Some l | _ => None end) js.

Lemma edge_part_app js js' : edge_part (js ++ js') = edge_part js ++ edge_part js'.
Proof. apply omap_app. Qed.
Lemma client_part_app js js' : client_part (js ++ js') = client_part js ++ client_part js'.
Proof. apply omap_app. Qed.

Lemma edge_part_split js ls1 ls2 :
  edge_part js = ls1 ++ ls2 → ∃ js1 js2, js = js1 ++ js2 ∧ edge_part js1 = ls1.
Proof.
  revert ls1. induction js as [|a js IH]; intros ls1 Heq.
  { simpl in Heq. symmetry in Heq. apply app_nil in Heq as [-> _]. by exists [], []. }
  destruct ls1 as [|l ls1]; [by exists [], (a :: js)|].
  destruct a as [l'|l']; simpl in Heq.
  - injection Heq as -> Heq. destruct (IH _ Heq) as (js1 & js2 & -> & <-).
    by exists (AtEdge l :: js1), js2.
  - destruct (IH (l :: ls1) Heq) as (js1 & js2 & -> & Hjs). exists (AtClient l' :: js1), js2.
    by rewrite <-Hjs.
Qed.

Lemma client_run_prefix `{UnicodeData} answer parse_url w ls1 ls2 w' :
  Session.run answer parse_url w (ls1 ++ ls2) = Some w' →
  ∃ w1, Session.run answer parse_url w ls1 = Some w1.
Proof.
  revert w. induction ls1 as [|l ls1 IH]; intros w; simpl; [by eexists|].
  intros (w1 & -> & Hr)%bind_Some. simpl. eauto.
Qed.

Lemma edge_run_prefix `{UnicodeData} w ls1 ls2 w' :
  run w (ls1 ++ ls2) = Some w' → ∃ w1, run w ls1 = Some w1.
Proof.
  revert w. induction ls1 as [|l ls1 IH]; intros w; simpl; [by eexists|].
  intros (w1 & -> & Hr)%bind_Some. simpl. eauto.
Qed.

Section system.
Context `{UnicodeData} (cfg : Config) (s : Server).
Context (answer : nat → nat → option GoError) (parse_url : string → option string).
Hypothesis Hnew : New cfg = Ok s.
Hypothesis Hmax : (MaxTotalInflight cfg ≤ max_i64)%Z.

(** What the client has received, and what it has sent. *)
Definition down (js : list action) : list ServerFrame :=
  received answer parse_url Session.init_world (client_part js).
Definition up (js : list action) : list ClientFrame :=
  emitted answer parse_url Session.init_world (client_part js).

(** The client's stream is the one of session [p]: at every moment the client has received
    an initial part of what was queued for the session, and the edge an initial part of what
    the client has sent. *)
Definition linked (p : nat) (js : list action) : Prop :=
  ∀ js1 js2, js = js1 ++ js2 →
    down js1 `prefix_of` queued (init_world s) (edge_part js1) p
    ∧ heard (init_world s) (edge_part js1) p `prefix_of` up js1.

(** ** Both sides agree on requests *)

Section joint.
Context (p : nat) (js : list action) (w : world) (w' : Session.world).
Hypothesis Hlen : (Z.of_nat (length (edge_part js)) < 2^64)%Z.
Hypothesis Hrun : run (init_world s) (edge_part js) = Some w.
Hypothesis Hrun' : Session.run answer parse_url Session.init_world (client_part js) = Some w'.
Hypothesis Hlink : linked p js.

Lemma joint_prefix js1 js2 :
  js = js1 ++ js2 →
  ∃ w1 w1', run (init_world s) (edge_part js1) = Some w1
    ∧ Session.run answer parse_url Session.init_world (client_part js1) = Some w1'
    ∧ answering answer (down js1) (up js1) (ops_by (client_part js1)) (returns_by (client_part js1)) w1'.
Proof using Hnew Hmax Hlen Hrun Hrun' Hlink.
  intros ->. rewrite edge_part_app in Hrun, Hlen. rewrite client_part_app in Hrun'.
  destruct (edge_run_prefix _ _ _ _ Hrun) as [w1 Hw1].
  destruct (client_run_prefix _ _ _ _ _ _ Hrun') as [w1' Hw1'].
  exists w1, w1'. split_and!; [done..|]. apply run_answering; [done|]. intros id.
  eapply proper_prefix; [apply about_prefix; apply (Hlink js1 js2 eq_refl)|].
  eapply queued_proper; [exact Hnew|exact Hmax| |exact Hw1]. rewrite length_app in Hlen. lia.
Qed.

Definition begins_as (id : string) (f : ServerFrame) : bool :=
  match f with ServerFrame_RequestStart m => bool_decide (rs_RequestId m = id) | _ => false end.

(** A client that works as its model does answers only what it was sent. *)
Lemma linked_honest : honest (init_world s) (edge_part js) p.
Proof using Hnew Hmax Hlen Hrun Hrun' Hlink.
  intros ls1 ls2 id (js1 & js2 & Hjs & <-)%edge_part_split Hne.
  destruct (joint_prefix _ _ Hjs) as (w1 & w1' & _ & _ & Haw).
  destruct (Hlink _ _ Hjs) as [Hdown Hup].
  assert (replies id (up js1) ≠ []) as Hne'.
  { intros Hn. apply (replies_prefix id) in Hup. rewrite Hn in Hup. by apply prefix_nil_inv in Hup. }
  assert (∃ m, ServerFrame_RequestStart m ∈ down js1 ∧ rs_RequestId m = id) as (m & Hm & <-).
  { destruct (decide (Exists (λ f, begins_as id f) (down js1))) as [He|Hn].
    - apply Exists_exists in He as (f & Hf & Hid). destruct f; try done. exists m. split; [done|].
      by apply bool_decide_unpack in Hid.
    - destruct Hne'. apply (aw_none _ _ _ _ _ _ Haw). intros m Hm Hid. apply Hn, Exists_exists.
      exists (ServerFrame_RequestStart m). split; [done|]. by apply bool_decide_pack. }
  intros Hn. assert (ServerFrame_RequestStart m ∈ about (rs_RequestId m) (queued (init_world s) (edge_part js1) p)) as Hq.
  { apply list_elem_of_filter. split; [by apply bool_decide_pack|].
    destruct Hdown as [k ->]. apply elem_of_app. by left. }
  rewrite Hn in Hq. by apply elem_of_nil in Hq.
Qed.

(** The goroutine of the client that serves a request the edge holds. *)
Lemma served_request i r ctx out hpc id q n m x wr got rerr pc :
  threads w !! i = Some (THttp r ctx out hpc) → http_holds hpc = Some (p, id, q) →
  Session.threads w' !! n = Some (Session.TServe m x wr got rerr pc) → rs_RequestId m = id →
  m = request_start r id ∧ (∃ rest, got +:+ rest = (request_body r).1)
  ∧ (rerr = Some EOF → got = (request_body r).1 ∧ (request_body r).2 = None).
Proof using Hnew Hmax Hlen Hrun Hrun' Hlink.
  intros Hi Hh Hn <-. destruct (run_forwards _ _ _ _ Hnew Hmax Hlen Hrun) as [Hfw _].
  pose proof (told_prefix _ _ _ _ (fw_holds _ _ Hfw _ _ _ _ _ _ _ _ Hi Hh)) as Htold.
  destruct (Hlink js [] (eq_sym (app_nil_r js))) as [Hdown _].
  destruct (delivered_read _ _ _ _ _ _ _ _ _ _ _ Hrun' Hn) as (tl & Ha & Hgot & Heof).
  { intros id. eapply proper_prefix; [apply about_prefix, Hdown|by eapply queued_proper]. }
  eapply received_request; [|done..]. etrans; [|exact Htold]. rewrite <-Ha. by apply about_prefix.
Qed.

(** What it has sent. *)
Lemma served_response n m x wr got rerr pc :
  Session.threads w' !! n = Some (Session.TServe m x wr got rerr pc) →
  replies (rs_RequestId m) (up js) = frames wr
  ∧ called (answer n) (rs_RequestId m) (ops_by (client_part js) n) (returns_by (client_part js) n) wr pc.
Proof using Hnew Hmax Hlen Hrun Hrun' Hlink.
  intros Hn. destruct (joint_prefix js [] (eq_sym (app_nil_r js))) as (w1 & w1' & _ & Hw1' & Haw).
  rewrite Hrun' in Hw1'. injection Hw1' as <-.
  split; [by eapply (aw_own _ _ _ _ _ _ Haw)|by eapply (aw_calls _ _ _ _ _ _ Haw)].
Qed.
End joint.

(** The deferred calls of [serveRequest] that send the end have run. *)
Definition finished_serving (pc : Session.serve_pc) : bool :=
  match pc with Session.SRun | Session.SEnd _ => false | _ => true end.

End system.

(** ** The order of the stream, checked on a schedule *)

Definition in_step `{UnicodeData} (s : Server) (answer : nat → nat → option GoError)
    (parse_url : string → option string) (p : nat) (js : list action) (n : nat) : bool :=
  bool_decide (down answer parse_url (take n js) `prefix_of` queued (init_world s) (edge_part (take n js)) p)
  && bool_decide (heard (init_world s) (edge_part (take n js)) p `prefix_of` up answer parse_url (take n js)).

Lemma in_step_linked `{UnicodeData} s answer parse_url p js :
  forallb (in_step s answer parse_url p js) (seq 0 (S (length js))) = true →
  linked s answer parse_url p js.
Proof.
  intros Hall js1 js2 ->. rewrite forallb_forall in Hall.
  destruct (andb_prop _ _ (Hall (length js1) ltac:(apply in_seq; rewrite length_app; lia))) as [Hd Hu].
  apply bool_decide_eq_true in Hd, Hu. rewrite take_app_length in Hd, Hu.
  done.
Qed.

Section witnesses.
Import Scenario.

Definition silent : nat → nat → option GoError := λ _ _, None.
Definition no_url : string → option string := λ _, None.

(** The request goes down, the handler writes one byte, the response comes up. *)
Definition exchange : list action :=
  (AtEdge <$> connect ++ arrive ++ forward)
  ++ (AtClient <$> [Session.LStep 0 (Session.Recv (ServerFrame_RequestStart (request_start request "1")));
                    Session.LStep 0 (Session.Recv (ServerFrame_RequestEnd "1"));
                    Session.LStep 1 Session.HReadErr; Session.LStep 1 (Session.HOp (OpWrite "x"));
                    Session.LStep 1 (Session.HReturn None); Session.LStep 1 Session.Go])
  ++ (AtEdge <$> respond ++ take 6 complete).

End witnesses.
