(* ===== verification/Partial.v ===== *)
(** * An edge and a client at any moment: nothing but an initial part.

    [System.exchange_transparent] is about an exchange that comes to its end.  Here nothing
    is assumed of how far it has come or what went wrong: sends that fail, a handler that
    panics, a session that is closed or replaced, a browser that leaves. *)

From S2P Require Import Prelude GoStrings Hostnames Proto Headers Channels ResponseState Server.
From S2P Require Import Frames Steps Scenario Abstract Invariants ServerConfig Pipeline Forward Replies ResponseWriter Url Session Delivery Answering EndToEnd System.

(** ** Frames of an unfinished response *)

Section frames.
Context `{UnicodeData} (answer : nat → option GoError).

(** The header of the response is fixed: by a call of the handler, or because it returned. *)
Definition begun (ops : list hop) (rets : list (option string)) (pc : Session.serve_pc) : bool :=
  starts_response ops || finished_serving pc && bool_decide (rets = [None]).

(** A header if [b], some of the bodies, perhaps an end. *)
Definition partial (id : string) (ops : list hop) (b : bool) (l : list ClientFrame) : Prop :=
  ∃ cs tl, cs `prefix_of` writes ops ∧ Forall ending tl ∧ length tl ≤ 1
    ∧ l = (if b then start_frame id (first_header ∅ ops) :: (ClientFrame_ResponseBody id <$> cs)
           else []) ++ tl.

Lemma called_partial id ops rets wr pc :
  called answer id ops rets wr pc → partial id ops (begun ops rets pc) (frames wr).
Proof.
  assert (partial id ops (starts_response ops) (frames (foldl (do_op answer) (newTunnelResponseWriter id) ops)))
    as Hrun.
  { pose proof (do_ops_fresh answer _ _ _ ops (new_fresh id)) as Hops. destruct (starts_response ops).
    - destruct Hops as (cs & Hst & Hp & _). exists cs, []. rewrite (started_frames _ _ _ _ Hst), app_nil_r.
      split_and!; [done|constructor|simpl; lia|done].
    - destruct Hops as (Hf & _ & _). exists [], []. rewrite (fresh_frames _ _ _ Hf).
      split_and!; [apply prefix_nil|constructor|simpl; lia|done]. }
  assert (∀ panic, partial id ops (starts_response ops || bool_decide ([panic] = [None]))
    (frames (serve_response answer id ops panic))) as Hend.
  { intros panic. pose proof (do_ops_fresh answer _ _ _ ops (new_fresh id)) as Hops.
    unfold serve_response. destruct (starts_response ops).
    - destruct Hops as (cs & Hst & Hp & _). exists cs. destruct panic as [msg|]; eexists.
      + split_and!; [done|..|rewrite Fail_frames, (started_frames _ _ _ _ Hst) by apply Hst; reflexivity];
          [repeat constructor|simpl; lia].
      + split_and!; [done|..|by apply Finish_started]; [repeat constructor|simpl; lia].
    - destruct Hops as (Hf & Hstatus & Hw). exists []. destruct panic as [msg|]; eexists.
      + split_and!; [apply prefix_nil|..|rewrite Fail_frames, (fresh_frames _ _ _ Hf) by apply Hf; reflexivity];
          [repeat constructor|simpl; lia].
      + split_and!; [apply prefix_nil|..|rewrite (Finish_fresh _ _ _ _ Hf); simpl;
          rewrite (surjective_pairing (first_header ∅ ops)), Hstatus; reflexivity];
          [repeat constructor|simpl; lia]. }
  unfold begun. destruct pc; cbn [finished_serving andb]; rewrite ?orb_false_r.
  1-2: by intros [-> ->].
  all: intros (panic & -> & ->); apply Hend.
Qed.

Lemma partial_orderly id ops b l : partial id ops b l → orderly l.
Proof.
  intros (cs & tl & _ & Ht & Hlen & ->).
  assert (Forall (λ f, ¬ ending f) (if b then start_frame id (first_header ∅ ops)
    :: (ClientFrame_ResponseBody id <$> cs) else [])) as Hh.
  { destruct b; [|constructor]. constructor; [by intros []|]. apply Forall_fmap, Forall_true. by intros ? []. }
  revert Hh. generalize (if b then start_frame id (first_header ∅ ops)
    :: (ClientFrame_ResponseBody id <$> cs) else []). intros h Hh.
  destruct tl as [|f [|]]; [|by apply orderly_app|simpl in Hlen; lia].
  rewrite app_nil_r. induction Hh; simpl; [done|]. by split.
Qed.

(** What it contains. *)
Lemma partial_content id ops b l :
  partial id ops b l →
  ∃ cs, cs `prefix_of` writes ops
    ∧ starts (contents l) = (if b then [mkResponseStart id (wrap_i32 (first_header ∅ ops).1)
                                          (ToProto (first_header ∅ ops).2)] else [])
    ∧ chunks (contents l) = if b then cs else [].
Proof.
  intros (cs & tl & Hp & Ht & _ & ->). exists cs. split; [done|].
  assert (starts (contents tl) = [] ∧ chunks (contents tl) = []) as [Hs Hc].
  { induction Ht as [|f tl Hf _ [IHs IHc]]; [done|]. by destruct f. }
  destruct b; [|done]. destruct (bodies_content id cs tl) as [Hs' Hc'].
  rewrite Hs in Hs'. rewrite Hc, app_nil_r in Hc'. split; [exact (f_equal (cons _) Hs')|exact Hc'].
Qed.
End frames.

Section anytime.
Context `{UnicodeData} (cfg : Config) (s : Server).
Context (answer : nat → nat → option GoError) (parse_url : string → option string).
Hypothesis Hnew : New cfg = Ok s.
Hypothesis Hmax : (MaxTotalInflight cfg ≤ max_i64)%Z.

End anytime.

Section witnesses.
Import Scenario.

(** The user's handler writes two pieces and panics; the browser has got the first when the
    stream ends. *)
Definition crash : list action :=
  (AtEdge <$> connect ++ arrive ++ forward)
  ++ (AtClient <$> [Session.LStep 0 (Session.Recv (ServerFrame_RequestStart (request_start request "1")));
                    Session.LStep 1 (Session.HOp (OpWrite "x")); Session.LStep 1 (Session.HOp (OpWrite "y"));
                    Session.LStep 1 (Session.HReturn (Some "boom")); Session.LStep 1 Session.Go])
  ++ (AtEdge <$> respond ++ take 4 complete ++ take 4 hang_up).

End witnesses.
