(* ===== verification/Sockets.v ===== *)
(** * An edge and the session of a client: WebSockets.

    [System] runs both sides together and follows requests and responses; here the messages
    of a WebSocket are followed from the browser's connection to the connection of the
    user's handler, and back. *)

From S2P Require Import Prelude GoStrings Hostnames Proto Headers Channels ResponseState Server.
From S2P Require Import Frames Messages Steps Scenario Abstract Invariants ServerConfig Forward WebSocket Replies Listening ResponseWriter Url Session Delivery Answering Talk System.

Section sockets.
Context `{UnicodeData} (cfg : Config) (s : Server).
Context (answer : nat → nat → option GoError) (parse_url : string → option string).
Hypothesis Hnew : New cfg = Ok s.
Hypothesis Hmax : (MaxTotalInflight cfg ≤ max_i64)%Z.

Notation down := (down answer parse_url).
Notation up := (up answer parse_url).

(** What the client's goroutine [n] has taken from the stream and what it has written to the
    connection of the user's handler. *)
Definition took (js : list action) (n : nat) : list string :=
  taken answer parse_url Session.init_world (client_part js) n.
Definition wrote (js : list action) (n : nat) : list string :=
  written answer parse_url Session.init_world (client_part js) n.

Section joint.
Context (p : nat) (js : list action) (w : world) (w' : Session.world).
Hypothesis Hlen : (Z.of_nat (length (edge_part js)) < 2^64)%Z.
Hypothesis Hrun : run (init_world s) (edge_part js) = Some w.
Hypothesis Hrun' : Session.run answer parse_url Session.init_world (client_part js) = Some w'.
Hypothesis Hlink : linked s answer parse_url p js.

(** Both sides at every moment. *)
Lemma talk_prefix js1 js2 :
  js = js1 ++ js2 →
  ∃ w1 w1', run (init_world s) (edge_part js1) = Some w1
    ∧ Session.run answer parse_url Session.init_world (client_part js1) = Some w1'
    ∧ hearing (down js1) (took js1) w1' ∧ speaking (up js1) (Talk.reads_by (client_part js1)) w1'.
Proof using Hnew Hmax Hlen Hrun Hrun' Hlink.
  intros Hjs. destruct (joint_prefix _ _ _ _ Hnew Hmax _ _ _ _ Hlen Hrun Hrun' Hlink _ _ Hjs)
    as (w1 & w1' & Hw1 & Hw1' & _).
  exists w1, w1'. split; [done|]. split; [done|]. refine (run_talk answer parse_url (client_part js1) w1' Hw1' _).
  eapply starts_first_prefix; [apply (Hlink _ _ Hjs)|]. eapply queued_starts_first; [done|done| |exact Hw1].
  rewrite Hjs, edge_part_app, length_app in Hlen. lia.
Qed.

Lemma talk_now :
  hearing (down js) (took js) w' ∧ speaking (up js) (Talk.reads_by (client_part js)) w'.
Proof using Hnew Hmax Hlen Hrun Hrun' Hlink.
  destruct (talk_prefix js [] (eq_sym (app_nil_r js))) as (w1 & w1' & _ & Hw1' & Ht).
  rewrite Hrun' in Hw1'. by injection Hw1' as <-.
Qed.

(** A client that works as its model does talks only where it was asked to. *)
Lemma linked_polite : polite (init_world s) (edge_part js) p.
Proof using Hnew Hmax Hlen Hrun Hrun' Hlink.
  intros ls1 ls2 id (js1 & js2 & Hjs & <-)%edge_part_split Hne Hnone.
  destruct (talk_prefix _ _ Hjs) as (w1 & w1' & _ & _ & Hh & Hs).
  destruct (Hlink _ _ Hjs) as [Hdown Hup].
  assert (utterances id (up js1) = []) as Hn.
  { apply (sp_none _ _ _ Hs). intros j t Hj Ht.
    destruct (sp_owner _ _ _ Hs _ _ _ Hj Ht) as (i & start & ch & sent & pc & Hi & <- & _).
    assert (ServerFrame_RequestStart start ∈ down js1) as Hin.
    { apply (he_start _ _ _ _ _ (hg_hears _ _ _ Hh) i (start, ch)). unfold seen. by rewrite Hi. }
    destruct Hdown as [k Hk].
    assert (ServerFrame_RequestStart start ∈ about (rs_RequestId start) (queued (init_world s) (edge_part js1) p)) as Hq.
    { apply list_elem_of_filter. split; [by apply bool_decide_pack|]. rewrite Hk. apply elem_of_app. by left. }
    rewrite Hnone in Hq. by apply elem_of_nil in Hq. }
  apply (utterances_prefix id) in Hup. rewrite Hn in Hup. by apply prefix_nil_inv in Hup.
Qed.

Lemma joint_listens :
  listens p (heard (init_world s) (edge_part js)) (pushed (init_world s) (edge_part js)) w.
Proof using Hnew Hmax Hlen Hrun Hrun' Hlink.
  eapply run_listens; [done..|by eapply linked_honest|exact linked_polite].
Qed.

Lemma joint_readers :
  readers (queued (init_world s) (edge_part js)) (WebSocket.reads_by (edge_part js)) w.
Proof using Hnew Hmax Hlen Hrun. by eapply run_readers. Qed.

(** A goroutine of the client and the handler of its WebSocket. *)
Context (i : nat) (r : Request) (ctx : option GoError) (out : list wevent) (hpc : http_pc).
Context (id : string) (q v : nat).
Hypothesis Hi : threads w !! i = Some (THttp r ctx out hpc).
Hypothesis Hholds : http_holds hpc = Some (p, id, q).
Hypothesis Hws : pc_ws hpc = Some v.
Context (n : nat) (start : RequestStart) (ch : nat) (sent : list ClientFrame) (pc : Session.ws_pc).
Hypothesis Hn : Session.threads w' !! n = Some (Session.TWs start ch sent pc).
Hypothesis Hid : rs_RequestId start = id.

Lemma socket_start : start = request_start r id.
Proof using Hnew Hmax Hlen Hrun Hrun' Hlink Hi Hholds Hn Hid.
  destruct talk_now as [Hh _].
  assert (ServerFrame_RequestStart start ∈ down js) as Hin.
  { apply (he_start _ _ _ _ _ (hg_hears _ _ _ Hh) n (start, ch)). unfold seen. by rewrite Hn. }
  destruct (Hlink js [] (eq_sym (app_nil_r js))) as [[k Hk] _].
  destruct (run_forwards _ _ _ _ Hnew Hmax Hlen Hrun) as [Hfw _].
  pose proof (told_prefix _ _ _ _ (fw_holds _ _ Hfw _ _ _ _ _ _ _ _ Hi Hholds)) as Htold.
  assert (ServerFrame_RequestStart start ∈ sends r id) as Hs.
  { eapply elem_of_prefix; [|exact Htold]. apply list_elem_of_filter. split.
    - apply bool_decide_pack. simpl. by rewrite Hid.
    - rewrite Hk. apply elem_of_app. by left. }
  pose proof (proper_sends r id) as [Hst _].
  apply list_elem_of_lookup in Hs as [x Hx]. pose proof (Hst _ _ Hx) as ->.
  unfold sends in Hx. by injection Hx as <-.
Qed.

(** What it has taken of the messages that were queued. *)
Lemma took_queued : took js n `prefix_of` messages id (queued (init_world s) (edge_part js) p).
Proof using Hnew Hmax Hlen Hrun Hrun' Hlink Hn Hid.
  destruct talk_now as [Hh _].
  destruct (he_ok _ _ _ _ _ (hg_hears _ _ _ Hh) n start ch) as (rest & Hm & _).
  { unfold seen. by rewrite Hn. }
  rewrite Hid in Hm. etrans; [|apply messages_prefix, (Hlink js [] (eq_sym (app_nil_r js)))].
  rewrite Hm. by eexists.
Qed.
(** What it has written of what the browser's connection gave. *)
Lemma wrote_took : wrote js n `prefix_of` took js n.
Proof using Hrun' Hn. exact (written_taken answer parse_url _ _ _ _ _ _ _ Hrun' Hn). Qed.

Lemma wrote_read j rpc :
  threads w !! j = Some (TReader p id rpc) →
  wrote js n `sublist_of` WebSocket.reads_by (edge_part js) j
  ∧ (is_closed (st w) p = false → wrote js n `prefix_of` WebSocket.reads_by (edge_part js) j).
Proof using Hnew Hmax Hlen Hrun Hrun' Hlink Hn Hid.
  intros Hj. assert (wrote js n `prefix_of` messages id (queued (init_world s) (edge_part js) p)) as Hq.
  { etrans; [apply wrote_took|apply took_queued]. }
  destruct (rr_ok _ _ _ joint_readers _ _ _ _ Hj) as [Hsub Hall]. split.
  - etrans; [by apply prefix_sublist|]. etrans; [|exact Hsub]. by apply sublist_inserts_r.
  - intros Ho. rewrite <-(Hall Ho). by apply prefix_app_r.
Qed.

(** What the browser's connection has got of what the client's reader has read. *)
Lemma heard_said j t :
  Session.threads w' !! j = Some t → Talk.is_reader id t →
  utterances id (heard (init_world s) (edge_part js) p) `prefix_of` Talk.reads_by (client_part js) j.
Proof using Hnew Hmax Hlen Hrun Hrun' Hlink.
  intros Hj Ht. destruct talk_now as [_ Hs]. rewrite <-(sp_ok _ _ _ Hs _ _ _ Hj Ht).
  apply utterances_prefix, (Hlink js [] (eq_sym (app_nil_r js))).
Qed.

Lemma spoken_pushed hs cs :
  conns out = hs :: cs → cs `prefix_of` pushed (init_world s) (edge_part js) v.
Proof using Hrun Hi Hws.
  intros Hc. pose proof (so_ok _ _ (run_socks _ _ _ Hrun) _ _ _ _ _ _ Hi Hws) as Hv.
  apply conversation_hung_up in Hv as [Hn0|(cs' & [hs' Hc'] & Hp)]; [congruence|].
  rewrite Hc in Hc'. by injection Hc' as <- <-.
Qed.

Lemma said_spoken j t hs cs :
  Session.threads w' !! j = Some t → Talk.is_reader id t → conns out = hs :: cs →
  cs `sublist_of` Talk.reads_by (client_part js) j
  ∧ ∀ k cpc, subscribed hpc = Some v → is_closed (st w) p = false → ws_over (st w) v = false →
      threads w !! k = Some (TConn cpc) → conn_receives cpc = Some p →
      cs `prefix_of` Talk.reads_by (client_part js) j.
Proof using Hnew Hmax Hlen Hrun Hrun' Hlink Hi Hholds Hws.
  intros Hj Ht Hc. pose proof (spoken_pushed _ _ Hc) as Hp. pose proof (heard_said _ _ Hj Ht) as Hh.
  pose proof joint_listens as Hl. split.
  - etrans; [by apply prefix_sublist|]. etrans; [|by apply prefix_sublist].
    pose proof (li_part _ _ _ _ Hl _ _ _ _ _ _ _ _ _ [] Hi Hholds Hws (or_introl eq_refl)) as Hsub.
    by rewrite app_nil_r in Hsub.
  - intros k cpc Hsu Ho Hv Hk Hr. etrans; [exact Hp|]. etrans; [|exact Hh].
    rewrite <-(li_ok _ _ _ _ Hl _ _ _ _ _ _ _ _ _ _ Hi Hholds Hsu Hk Hr Ho Hv). by eexists.
Qed.
(** All of it, when nothing is under way. *)
Lemma wrote_all j rpc rd :
  threads w !! j = Some (TReader p id rpc) → is_closed (st w) p = false → unsent rpc = [] →
  messages id (down js) = messages id (queued (init_world s) (edge_part js) p) →
  pc = Session.WLoop rd → loop_at w' = Session.LRecv →
  Session.wsInbound (Session.st w') !! id = Some ch → queue_at (Session.st w') ch = [] →
  wrote js n = WebSocket.reads_by (edge_part js) j.
Proof using Hnew Hmax Hlen Hrun Hrun' Hlink Hn Hid.
  intros Hj Ho Hu Hm -> Hloop Hin Hq. unfold wrote. rewrite (written_all _ _ _ _ _ _ _ _ _ Hrun' Hn).
  destruct (rr_ok _ _ _ joint_readers _ _ _ _ Hj) as [_ Hall]. rewrite <-(Hall Ho), Hu, app_nil_r, <-Hm.
  destruct talk_now as [Hh _].
  destruct (he_ok _ _ _ _ _ (hg_hears _ _ _ Hh) n start ch) as (rest & Hr & Hrest).
  { unfold seen. by rewrite Hn. }
  rewrite Hloop, Hid in *. rewrite Hr, Hq, (Hrest eq_refl Hin). simpl. by rewrite app_nil_r.
Qed.

Lemma said_all j t k rd conn snd :
  Session.threads w' !! j = Some t → Talk.is_reader id t → hpc = PWsLoop k rd →
  is_closed (st w) p = false → ws_over (st w) v = false → from_client (st w) v = [] →
  threads w !! conn = Some (TConn (CRecv p snd)) →
  utterances id (heard (init_world s) (edge_part js) p) = utterances id (up js) →
  ∃ hs, conns out = hs :: Talk.reads_by (client_part js) j.
Proof using Hnew Hmax Hlen Hrun Hrun' Hlink Hi Hholds Hws.
  intros Hj Ht Hk Ho Hv Hq Hc Hu.
  pose proof (so_ok _ _ (run_socks _ _ _ Hrun) _ _ _ _ _ _ Hi Hws) as Hconv.
  assert (subscribed hpc = Some v) as Hsu by (by rewrite Hk; rewrite Hk in Hws).
  pose proof (li_ok _ _ _ _ joint_listens _ _ _ _ _ _ _ _ _ _ Hi Hholds Hsu Hc eq_refl Ho Hv) as Hl.
  subst hpc. destruct Hconv as (cs & [hs Hcs] & Hp).
  destruct talk_now as [_ Hs]. rewrite Hu, (sp_ok _ _ _ Hs _ _ _ Hj Ht), Hp, Hq, app_nil_r in Hl.
  simpl in Hl. rewrite app_nil_r in Hl. exists hs. by rewrite Hcs, Hl.
Qed.
End joint.


(** C4. A WebSocket loses nothing while it lives.  In a run as above, with the session open
    and the WebSocket not closed, everything that was read on one side has been written on
    the other as soon as nothing is under way: towards the handler when the reader has sent
    what it read, the client has received what was queued under the id, and its receive loop
    and its goroutine have emptied the channel; towards the browser when the edge has
    received what the client sent under the id and the handler has emptied its channel. *)
Theorem websocket_complete js w w' i r ctx out k rd p id q v n start ch sent rd' :
  (Z.of_nat (length (edge_part js)) < 2^64)%Z →
  run (init_world s) (edge_part js) = Some w →
  Session.run answer parse_url Session.init_world (client_part js) = Some w' →
  linked s answer parse_url p js →
  threads w !! i = Some (THttp r ctx out (PWsLoop k rd)) →
  http_holds (PWsLoop k rd) = Some (p, id, q) → k_ws k = Some v →
  Session.threads w' !! n = Some (Session.TWs start ch sent (Session.WLoop rd')) → rs_RequestId start = id →
  is_closed (st w) p = false → ws_over (st w) v = false →
  (∀ j rpc, threads w !! j = Some (TReader p id rpc) → unsent rpc = [] →
     messages id (down js) = messages id (queued (init_world s) (edge_part js) p) →
     loop_at w' = Session.LRecv → Session.wsInbound (Session.st w') !! id = Some ch →
     queue_at (Session.st w') ch = [] →
     wrote js n = WebSocket.reads_by (edge_part js) j)
  ∧ (∀ j sent' running conn snd, Session.threads w' !! j = Some (Session.TWsRead id sent' running) →
       threads w !! conn = Some (TConn (CRecv p snd)) → from_client (st w) v = [] →
       utterances id (heard (init_world s) (edge_part js) p) = utterances id (up js) →
       ∃ hs, conns out = hs :: Talk.reads_by (client_part js) j).
Proof using Hnew Hmax.
  intros Hlen Hrun Hrun' Hlink Hi Hholds Hws Hn Hid Ho Hv. split.
  - intros j rpc Hj Hu Hm Hloop Hin Hq. by eapply wrote_all.
  - intros j sent' running conn snd Hj Hc Hq Hu.
    eapply said_all; [done..|by eexists _, _|done|done|done|done|done|done].
Qed.
End sockets.

(** ** Witnesses *)

Section witnesses.
Import Scenario.

(** The browser's connection is upgraded; it says hi, the handler says a and b. *)
Definition dialogue : list action :=
  (AtEdge <$> connect ++ [LRequest upgrade] ++ replicate 6 (LStep 3 Go) ++ [LStep 3 OnSend; LStep 1 OnSend; LStep 3 OnSend; LStep 1 OnSend])
  ++ (AtClient <$> [Session.LStep 0 (Session.Recv (ServerFrame_RequestStart (request_start upgrade "1")));
                    Session.LStep 0 (Session.Recv (ServerFrame_RequestEnd "1"));
                    Session.LStep 1 (Session.WsResponse 101 ∅ None)])
  ++ (AtEdge <$> [LStep 0 (Recv switching); LStep 0 OnSend; LStep 3 OnStart; LStep 3 (IO true);
                  LStep 3 (IO true); LStep 4 (Read "" None); LStep 4 (Read "hi" None); LStep 4 OnSend; LStep 1 OnSend])
  ++ (AtClient <$> [Session.LStep 0 (Session.Recv (ServerFrame_WsData "1" "hi"));
                    Session.LStep 0 Session.OnSend; Session.LStep 1 Session.OnInbound;
                    Session.LStep 1 (Session.IO true);
                    Session.LStep 2 (Session.Read "a" false); Session.LStep 2 (Session.Read "b" false)])
  ++ (AtEdge <$> [LStep 0 (Recv (ClientFrame_WsData "1" "a")); LStep 0 OnSend;
                  LStep 0 (Recv (ClientFrame_WsData "1" "b")); LStep 0 OnSend;
                  LStep 3 OnWsData; LStep 3 (IO true); LStep 3 OnWsData; LStep 3 (IO true)]).

Definition client_after : Session.world :=
  default Session.init_world (Session.run silent no_url Session.init_world (client_part dialogue)).

Definition upgrade_start : RequestStart := request_start upgrade "1".

Ltac checked :=
  lazymatch goal with
  | |- linked _ _ _ _ _ => apply in_step_linked; vm_compute; reflexivity
  | |- @eq _ _ _ => vm_compute; reflexivity
  | |- (_ < _)%Z => done
  end.

(** The messages of both directions. *)
Definition from_browser : list string := WebSocket.reads_by (edge_part dialogue) 4.
Definition from_handler : list string := Talk.reads_by (client_part dialogue) 2.
Definition to_handler : list string := wrote silent no_url dialogue 1.


Example websocket_complete_witness :
  to_handler = from_browser ∧ ∃ hs, [hello; "a"; "b"] = hs :: from_handler.
Proof.
  destruct (websocket_complete config server silent no_url server_new ltac:(vm_compute; done)
    dialogue (after (edge_part dialogue)) client_after 3 upgrade None
    [WConn hello; WConn "a"; WConn "b"] (mkK 0 "1" 0 (Some 0)) 4 0 "1" 0 0
    1 upgrade_start 0 [switching] 2
    ltac:(checked) ltac:(checked) ltac:(checked) ltac:(checked) ltac:(checked) ltac:(checked)
    ltac:(checked) ltac:(checked) ltac:(checked) ltac:(checked) ltac:(checked)) as (Hdown & Hup).
  split.
  - exact (Hdown 4 RRead ltac:(checked) eq_refl ltac:(checked) ltac:(checked) ltac:(checked) ltac:(checked)).
  - exact (Hup 2 [ClientFrame_WsData "1" "a"; ClientFrame_WsData "1" "b"] true 0 1
      ltac:(checked) ltac:(checked) ltac:(checked) ltac:(checked)).
Defined.
End witnesses.
