(* ===== verification/EdgeConfig.v ===== *)
(** * cmd/edge/config.go: the configuration of the edge from flags and environment.

    [getenv] is a parameter of [loadConfig] as it is in the code; [homeDir] is what
    [os.UserHomeDir] answers. *)

From S2P Require Import Prelude GoStrings GoFlag Hostnames Proto Headers Channels ResponseState.
From S2P Require Import Server ServerConfig Scenario.

Definition publicDomainEnv : string := "MUXBRIDGE_PUBLIC_DOMAIN".
Definition clientCredentialsEnv : string := "MUXBRIDGE_CLIENT_CREDENTIALS".
Definition tlsCertFileEnv : string := "MUXBRIDGE_TLS_CERT_FILE".
Definition tlsKeyFileEnv : string := "MUXBRIDGE_TLS_KEY_FILE".
Definition debugEnv : string := "MUXBRIDGE_DEBUG".
Definition dataDirEnv : string := "MUXBRIDGH_DATA".
Definition dataDirCompatEnv : string := "MUXBRIDGE_DATA".
Definition maxInflightEnv : string := "MUXBRIDGE_MAX_INFLIGHT_PER_SESSION".
Definition maxTotalInflightEnv : string := "MUXBRIDGE_MAX_TOTAL_INFLIGHT".

Module EdgeConfig.

Record edgeConfig := mkEdgeConfig {
  PublicDomain : string;
  EdgeDomain : string;
  ClientCredentials : gmap string string;
  TLSCertFile : string;
  TLSKeyFile : string;
  Debug : bool;
  DataDir : string;
  MaxInflightPerSession : Z;
  MaxTotalInflight : Z }.

(** *** Errors *)

Inductive cred_err :=
| EmptyEntry
| NoEquals (entry : string)
| NoToken (entry : string)
| BadUsername (entry : string) (e : label_err)
| EdgeReserved
| DuplicateToken (token previousUser username : string)
| DuplicateUsername (username previousToken token : string).

Inductive int_err := NotInt (e : num_err) | NotPositive.

Inductive load_err :=
| FlagError (e : flag_err)
| InvalidEnv (key : string) (e : int_err)
| BadPublicDomain (e : domain_err)
| TLSFilesApart
| CredentialError (e : cred_err).

(** The variables the flags are bound to. *)
Record flagVars := mkVars {
  publicDomain : string;
  tlsCertFile : string;
  tlsKeyFile : string;
  debug : bool;
  credentialFlags : list string }.

Section config.
Context `{UnicodeData}.

(** *** Users and hosts *)

Definition sortedUsers (c : edgeConfig) : list string :=
  merge_sort String.le (map_to_list (ClientCredentials c)).*2.

Definition managedHosts (c : edgeConfig) : list string :=
  [PublicDomain c; EdgeDomain c]
  ++ ((λ username, Subdomain username (PublicDomain c)) <$> sortedUsers c).

(** *** Values *)

Definition parseBoolString (value : string) : bool :=
  bool_decide (ToLower (TrimSpace value) ∈ ["1"; "t"; "true"; "y"; "yes"; "on"]).

Definition resolvePositiveEnvInt (getenv : string → string) (key : string) : result load_err Z :=
  let value := TrimSpace (getenv key) in
  if bool_decide (value = "") then Ok 0%Z
  else
    resolved ← map_err (λ e, InvalidEnv key (NotInt e)) (Atoi value);
    _ ← guard_err (resolved <=? 0)%Z (InvalidEnv key NotPositive);
    Ok resolved.

Definition resolveMaxInflightPerSession (getenv : string → string) : result load_err Z :=
  resolvePositiveEnvInt getenv maxInflightEnv.
Definition resolveMaxTotalInflight (getenv : string → string) : result load_err Z :=
  resolvePositiveEnvInt getenv maxTotalInflightEnv.

Definition resolveDataDir (getenv : string → string) (homeDir : option string) : string :=
  match list_find (λ key, TrimSpace (getenv key) ≠ "") [dataDirEnv; dataDirCompatEnv] with
  | Some (_, key) => Clean (TrimSpace (getenv key))
  | None =>
    match homeDir with
    | Some dir =>
      if bool_decide (TrimSpace dir = "") then Clean "muxbridge-data"
      else JoinPath [dir; ".local"; "share"; "muxbridge"]
    | None => Clean "muxbridge-data"
    end
  end.

(** *** Credentials *)

Definition parseCredential (entry : string) : result cred_err (string * string) :=
  let entry := TrimSpace entry in
  _ ← guard_err (bool_decide (entry = "")) EmptyEntry;
  match Cut "=" entry with
  | None => Err (NoEquals entry)
  | Some (token, username) =>
    let token := TrimSpace token in
    let username := NormalizeLabel username in
    _ ← guard_err (bool_decide (token = "")) (NoToken entry);
    _ ← map_err (BadUsername entry) (ValidateLabel username);
    _ ← guard_err (bool_decide (username = "edge")) EdgeReserved;
    Ok (token, username)
  end.

Definition splitCredentialEnv (value : string) : list string := TrimSpace <$> Split "," value.

Definition credential_entries (envValue : string) (cliValues : list string) : list string :=
  let trimmed := TrimSpace envValue in
  (if bool_decide (trimmed = "") then [] else splitCredentialEnv trimmed) ++ cliValues.

(** The body of the loop; the accumulator holds [credentials] and [userTokens]. *)
Definition add_credential (acc : gmap string string * gmap string string) (entry : string)
    : result cred_err (gmap string string * gmap string string) :=
  '(token, username) ← parseCredential entry;
  match acc.1 !! token, acc.2 !! username with
  | Some previousUser, _ => Err (DuplicateToken token previousUser username)
  | None, Some previousToken => Err (DuplicateUsername username previousToken token)
  | None, None => Ok (<[token := username]> acc.1, <[username := token]> acc.2)
  end.

Definition parseCredentials (envValue : string) (cliValues : list string)
    : result cred_err (gmap string string) :=
  acc ← foldM add_credential (∅, ∅) (credential_entries envValue cliValues); Ok acc.1.

(** *** [loadConfig] *)

Definition edge_flags : list (flag flagVars) := [
  StringVar "public-domain" (λ v x, mkVars v (tlsCertFile x) (tlsKeyFile x) (debug x) (credentialFlags x));
  StringVar "tls-cert-file" (λ v x, mkVars (publicDomain x) v (tlsKeyFile x) (debug x) (credentialFlags x));
  StringVar "tls-key-file" (λ v x, mkVars (publicDomain x) (tlsCertFile x) v (debug x) (credentialFlags x));
  BoolVar "debug" (λ b x, mkVars (publicDomain x) (tlsCertFile x) (tlsKeyFile x) b (credentialFlags x));
  StringVar "client-credential" (λ v x,
    mkVars (publicDomain x) (tlsCertFile x) (tlsKeyFile x) (debug x) (credentialFlags x ++ [v]))].

Definition or_env (value fallback : string) : string :=
  if bool_decide (value = "") then fallback else value.

Definition loadConfig (args : list string) (getenv : string → string) (homeDir : option string)
    : result load_err edgeConfig :=
  vars ← map_err FlagError
    (Parse edge_flags (mkVars "" "" "" (parseBoolString (getenv debugEnv)) []) args);
  let publicDomain := or_env (publicDomain vars) (getenv publicDomainEnv) in
  let tlsCertFile := or_env (tlsCertFile vars) (TrimSpace (getenv tlsCertFileEnv)) in
  let tlsKeyFile := or_env (tlsKeyFile vars) (TrimSpace (getenv tlsKeyFileEnv)) in
  let dataDir := resolveDataDir getenv homeDir in
  maxInflightPerSession ← resolveMaxInflightPerSession getenv;
  maxTotalInflight ← resolveMaxTotalInflight getenv;
  let publicDomain := NormalizeDomain publicDomain in
  _ ← map_err BadPublicDomain (ValidateDomain publicDomain);
  _ ← guard_err (xorb (bool_decide (tlsCertFile = "")) (bool_decide (tlsKeyFile = "")))
        TLSFilesApart;
  credentials ← map_err CredentialError
    (parseCredentials (getenv clientCredentialsEnv) (credentialFlags vars));
  Ok (mkEdgeConfig publicDomain (Subdomain "edge" publicDomain) credentials tlsCertFile
        tlsKeyFile (debug vars) dataDir maxInflightPerSession maxTotalInflight).

(** The server configuration [run] makes of it. *)
Definition server_config (c : edgeConfig) : Config :=
  mkConfig (PublicDomain c) (ClientCredentials c) 0 (MaxInflightPerSession c) (MaxTotalInflight c).

(** ** Credentials *)

(** What an entry says: a token and a user, around the first equals sign. *)
Definition says (entry : string) (p : string * string) : Prop :=
  ∃ token username, Cut "=" (TrimSpace entry) = Some (token, username)
    ∧ p = (TrimSpace token, NormalizeLabel username)
    ∧ p.1 ≠ "" ∧ dns_label p.2 ∧ p.2 ≠ "edge".

Lemma parseCredential_Ok entry p : parseCredential entry = Ok p ↔ says entry p.
Proof.
  unfold parseCredential, says. split.
  - intros Hp. inv_ok. destruct (Cut "=" (TrimSpace entry)) as [[t u]|] eqn:E; [|done].
    inv_ok. rewrite !bool_decide_eq_false in *. exists t, u.
    repeat match goal with u : unit |- _ => destruct u end.
    split_and!; try done. by apply ValidateLabel_Ok.
  - intros (t & u & Hc & -> & Ht & Hu & He). simpl in *.
    rewrite (bool_decide_false (TrimSpace entry = "")).
    2: { intros E. by rewrite E in Hc. }
    simpl. rewrite Hc. apply ValidateLabel_Ok in Hu. rewrite Hu.
    by rewrite !bool_decide_false.
Qed.

Lemma foldM_add_credential entries acc acc' :
  foldM add_credential acc entries = Ok acc' ↔
  ∃ ps, Forall2 says entries ps ∧ NoDup ps.*1 ∧ NoDup ps.*2
    ∧ Forall (λ p, acc.1 !! p.1 = None ∧ acc.2 !! p.2 = None) ps
    ∧ acc' = (foldl (λ m p, <[p.1 := p.2]> m) acc.1 ps, foldl (λ m p, <[p.2 := p.1]> m) acc.2 ps).
Proof.
  revert acc. induction entries as [|e entries IH]; intros acc; simpl.
  { split.
    - intros [= <-]. exists []. simpl. split_and!; try constructor. by destruct acc.
    - intros (ps & Hps & _ & _ & _ & ->). inversion Hps. by destruct acc. }
  rewrite bind_Ok. split.
  - intros (acc1 & Hadd & Hrest). unfold add_credential in Hadd. inv_ok.
    destruct x as [t u]. destruct (acc.1 !! t) eqn:Et; [done|].
    destruct (acc.2 !! u) eqn:Eu; [done|]. simplify_eq.
    apply IH in Hrest as (ps & Hps & H1 & H2 & Hf & ->). exists ((t, u) :: ps). simpl in *.
    rewrite Forall_forall in Hf. split_and!; try done.
    + constructor; [by apply parseCredential_Ok|done].
    + constructor; [|done]. intros ([t' u'] & -> & Hin)%list_elem_of_fmap.
      destruct (Hf _ Hin) as [Hn _]. simpl in Hn. by rewrite lookup_insert_eq in Hn.
    + constructor; [|done]. intros ([t' u'] & -> & Hin)%list_elem_of_fmap.
      destruct (Hf _ Hin) as [_ Hn]. simpl in Hn. by rewrite lookup_insert_eq in Hn.
    + constructor; [done|]. apply Forall_forall. intros p Hp. destruct (Hf _ Hp) as [Hn1 Hn2].
      by apply lookup_insert_None in Hn1 as [? _], Hn2 as [? _].
  - intros (ps & Hps & H1 & H2 & Hf & ->). inversion Hps as [|? [t u] ? ps' Hp Hps']; subst.
    simpl in *. apply NoDup_cons in H1 as [H1 H1'], H2 as [H2 H2'].
    apply Forall_cons in Hf as [[Ht Hu] Hf]. simpl in *.
    exists (<[t := u]> acc.1, <[u := t]> acc.2). split.
    { unfold add_credential. apply parseCredential_Ok in Hp. rewrite Hp. simpl. by rewrite Ht, Hu. }
    apply IH. exists ps'. simpl. split_and!; try done.
    apply Forall_forall. intros p Hin. rewrite Forall_forall in Hf.
    destruct (Hf _ Hin) as [Hn1 Hn2]. rewrite !lookup_insert_None. split_and!; try done.
    + intros ->. apply H1, list_elem_of_fmap. eauto.
    + intros ->. apply H2, list_elem_of_fmap. eauto.
Qed.

Lemma says_ok entry p : says entry p → p.1 ≠ "" ∧ dns_label p.2 ∧ p.2 ≠ "edge".
Proof. intros (? & ? & _ & _ & ?). done. Qed.

Lemma dns_label_normal u : dns_label u → NormalizeLabel u = u.
Proof.
  intros Hu%dns_label_bytes. unfold NormalizeLabel.
  rewrite ToLower_caseless, TrimSpace_solid; [done|..];
    (eapply string_forall_impl; [|exact Hu]);
    intros c Hc%label_byte_domain; auto using domain_byte_solid, domain_byte_caseless.
Qed.

Lemma parseCredentials_Ok env cli m :
  parseCredentials env cli = Ok m ↔
  ∃ ps, Forall2 says (credential_entries env cli) ps ∧ NoDup ps.*1 ∧ NoDup ps.*2
    ∧ m = list_to_map ps.
Proof.
  unfold parseCredentials. split.
  - intros (acc & Hf & [= <-])%bind_Ok.
    apply foldM_add_credential in Hf as (ps & Hps & H1 & H2 & _ & ->).
    exists ps. split_and!; try done. simpl. rewrite foldl_insert_list_to_map.
    symmetry. apply list_to_map_proper; [done|]. symmetry. apply reverse_Permutation.
  - intros (ps & Hps & H1 & H2 & ->). apply bind_Ok. eexists. split.
    + apply foldM_add_credential. exists ps. split_and!; try done.
      by apply Forall_forall.
    + simpl. f_equal. rewrite foldl_insert_list_to_map.
      symmetry. apply list_to_map_proper; [done|]. symmetry. apply reverse_Permutation.
Qed.

(** The users of a configuration are labels, none is reserved and none has two tokens. *)
Definition users_ok (m : gmap string string) : Prop :=
  map_Forall (λ token user, token ≠ "" ∧ dns_label user ∧ user ≠ "edge") m
  ∧ ∀ t t' u, m !! t = Some u → m !! t' = Some u → t = t'.

Lemma parseCredentials_users env cli m : parseCredentials env cli = Ok m → users_ok m.
Proof.
  intros (ps & Hps & H1 & H2 & ->)%parseCredentials_Ok. split.
  - intros t u Htu. apply elem_of_list_to_map in Htu; [|done].
    apply list_elem_of_lookup in Htu as (i & Hi).
    destruct (Forall2_lookup_r _ _ _ _ _ Hps Hi) as (e & _ & He). exact (says_ok _ _ He).
  - intros t t' u Ht Ht'. apply elem_of_list_to_map in Ht, Ht'; try done.
    apply list_elem_of_lookup in Ht as (i & Hi), Ht' as (j & Hj).
    assert (i = j) as ->; [|congruence].
    eapply (NoDup_lookup ps.*2 i j u); [done|..]; by rewrite list_lookup_fmap, ?Hi, ?Hj.
Qed.

(** ** Loading *)

Lemma resolvePositiveEnvInt_Ok getenv key n :
  resolvePositiveEnvInt getenv key = Ok n ↔
  (TrimSpace (getenv key) = "" ∧ n = 0%Z)
  ∨ (TrimSpace (getenv key) ≠ "" ∧ Atoi (TrimSpace (getenv key)) = Ok n ∧ (0 < n)%Z).
Proof.
  unfold resolvePositiveEnvInt. case_bool_decide as E; [rewrite E; naive_solver|].
  rewrite bind_Ok. setoid_rewrite map_err_Ok. split.
  - intros (x & Hx & Hn). inv_ok. rewrite Z.leb_gt in *. auto.
  - intros [[? _]|(_ & Hx & Hn)]; [done|]. exists n. split; [done|].
    by rewrite (proj2 (Z.leb_gt n 0)).
Qed.

Lemma Atoi_range s n : Atoi s = Ok n → (- 2^63 ≤ n < 2^63)%Z.
Proof.
  unfold Atoi.
  match goal with |- context [let '(_, _) := ?x in _] => destruct x as [neg digits] end.
  destruct digits; [done|]. destruct (parse_digits _ _) as [v|]; [|done]. cbv zeta.
  destruct (_ && _) eqn:E; [|done]. intros [= <-].
  apply andb_true_iff in E as [?%Z.leb_le ?%Z.ltb_lt]. done.
Qed.

Lemma resolved_bounds getenv key n :
  resolvePositiveEnvInt getenv key = Ok n → (0 ≤ n ≤ max_i64)%Z.
Proof.
  unfold max_i64. rewrite resolvePositiveEnvInt_Ok.
  intros [[_ ->]|(_ & Hn%Atoi_range & ?)]; lia.
Qed.

Record config_ok (c : edgeConfig) : Prop := {
  cfg_domain : dns_domain (NormalizeHost (PublicDomain c));
  cfg_edge : EdgeDomain c = Subdomain "edge" (PublicDomain c);
  cfg_users : users_ok (ClientCredentials c);
  cfg_files : TLSCertFile c = "" ↔ TLSKeyFile c = "";
  cfg_per_session : (0 ≤ MaxInflightPerSession c ≤ max_i64)%Z;
  cfg_total : (0 ≤ MaxTotalInflight c ≤ max_i64)%Z }.

Lemma loadConfig_ok args getenv homeDir c :
  loadConfig args getenv homeDir = Ok c → config_ok c.
Proof.
  unfold loadConfig. intros (v & Hv & Hc)%bind_Ok.
  apply bind_Ok in Hc as (mi & Hmi & Hc). apply bind_Ok in Hc as (mt & Hmt & Hc).
  apply bind_Ok in Hc as ([] & Hd%map_err_Ok & Hc). apply bind_Ok in Hc as (x & Hx & Hc).
  apply bind_Ok in Hc as (creds & Hcreds%map_err_Ok & [= <-]).
  apply guard_err_Ok in Hx. constructor; simpl.
  - by apply ValidateDomain_Ok.
  - done.
  - by eapply parseCredentials_users.
  - do 2 case_bool_decide; naive_solver.
  - by eapply resolved_bounds.
  - by eapply resolved_bounds.
Qed.

Lemma users_ok_elem m u : users_ok m → u ∈ (map_to_list m).*2 → dns_label u ∧ u ≠ "edge".
Proof.
  intros [Hm _] ([t u'] & -> & Hin%elem_of_map_to_list)%list_elem_of_fmap.
  destruct (Hm _ _ Hin) as (_ & ?). done.
Qed.

Lemma sortedUsers_perm c : sortedUsers c ≡ₚ (map_to_list (ClientCredentials c)).*2.
Proof. apply merge_sort_Permutation. Qed.

Lemma users_NoDup m : users_ok m → NoDup (map_to_list m).*2.
Proof.
  intros [_ Hinj]. apply NoDup_alt. intros i j u Hi Hj.
  apply list_lookup_fmap_Some in Hi as ([t u1] & -> & Hi), Hj as ([t' u2] & Heq & Hj).
  simpl in *. subst u2.
  assert (t = t') as ->.
  { eapply Hinj; apply elem_of_map_to_list; by eapply list_elem_of_lookup_2. }
  exact (NoDup_lookup _ _ _ _ (NoDup_map_to_list m) Hi Hj).
Qed.

Lemma server_config_valid c : config_ok c → valid_config (server_config c).
Proof.
  intros [Hd _ Hu _ _ _]. unfold valid_config, user_ok, user_name. simpl.
  destruct Hu as [Hm Hinj]. split_and!.
  - apply ValidateDomain_Ok. unfold NormalizeDomain. by rewrite (dns_domain_normal _ Hd).
  - intros t u Ht. simpl. destruct (Hm _ _ Ht) as (? & Hl & ?). by rewrite dns_label_normal.
  - intros t t' u u' Ht Ht'. destruct (Hm _ _ Ht) as (_ & Hl & _), (Hm _ _ Ht') as (_ & Hl' & _).
    rewrite !dns_label_normal by done. intros ->. eauto.
Qed.

Lemma config_server c :
  config_ok c → ∃ s, Server.New (server_config c) = Ok s ∧ valid_server (server_config c) s.
Proof.
  intros Hc%server_config_valid.
  destruct (New_range_valid _ (map_to_list (ClientCredentials c)) (reflexivity (map_to_list _)) Hc) as [s Hs].
  exists s. split; [exact Hs|]. by apply New_valid.
Qed.

(** The server's users are the configured ones. *)
Lemma config_tokenUsers c s :
  config_ok c → valid_server (server_config c) s → tokenUsers s = ClientCredentials c.
Proof.
  intros [_ _ [Hm _] _ _ _] (_ & -> & _). simpl. apply map_eq. intros t. rewrite lookup_fmap.
  destruct (ClientCredentials c !! t) as [u|] eqn:E; [|done]. simpl.
  destruct (Hm _ _ E) as (_ & Hl & _). by rewrite dns_label_normal.
Qed.

Lemma managed_hosts_perm c s :
  config_ok c → valid_server (server_config c) s → dns_domain (PublicDomain c) →
  ((λ u, Subdomain u (PublicDomain c)) <$> sortedUsers c) ≡ₚ PublicHosts s.
Proof.
  intros Hc Hs Hd. unfold PublicHosts. rewrite merge_sort_Permutation, sortedUsers_perm.
  pose proof (cfg_users c Hc) as Hu. apply NoDup_Permutation.
  - apply NoDup_fmap_2_strong; [|by apply users_NoDup].
    intros u u' H1 H2. apply Subdomain_inj; by eapply users_ok_elem.
  - apply NoDup_elements.
  - intros h. rewrite elem_of_elements. pose proof (config_tokenUsers c s Hc Hs) as Htu.
    destruct Hs as (Hpd & _ & Hph & _). rewrite Hph, Htu, Hpd. simpl.
    unfold NormalizeDomain. rewrite (dns_domain_normal _ Hd), list_elem_of_fmap.
    setoid_rewrite list_elem_of_fmap. split.
    + intros (u & -> & [t u'] & -> & Hin%elem_of_map_to_list). eauto.
    + intros (t & u & Ht & ->). exists u. split; [done|]. exists (t, u).
      by rewrite elem_of_map_to_list.
Qed.

(** A host one label below the domain is not the domain. *)
Lemma Subdomain_ne u d : dns_label u → dns_domain d → Subdomain u d ≠ d.
Proof.
  intros Hu Hd Heq. destruct (Subdomain_dns u d Hu Hd) as [Hs _]. rewrite Hs in Heq.
  apply (f_equal String.length) in Heq. rewrite !length_app_str in Heq. simpl in Heq. lia.
Qed.

(** ** The theorems *)

(** Credentials are read exactly: the entries of the environment, if it is not blank,
    and then those of the flags are accepted exactly when each is token=user around its
    first equals sign with a token and a valid user that is not the reserved one, no
    token twice and no user twice; the result maps the tokens to the users and nothing
    else. *)
Theorem parseCredentials_correct env cli m :
  parseCredentials env cli = Ok m ↔
  ∃ ps, Forall2 says (credential_entries env cli) ps ∧ NoDup ps.*1 ∧ NoDup ps.*2
    ∧ m = list_to_map ps.
Proof. apply parseCredentials_Ok. Qed.

(** C25. What the edge loads it can start with: for a configuration that [loadConfig]
    accepts, [server.New] accepts what [run] makes of it, the server knows exactly the
    configured users, its limits are at least one and within the range of an int64, and
    its domain is in normal form.  If the configured domain is too, the hosts it gets
    certificates for are the domain, the edge's own host and the server's public hosts,
    each of them once. *)
Theorem edge_starts args getenv homeDir c :
  loadConfig args getenv homeDir = Ok c →
  ∃ s, Server.New (server_config c) = Ok s
    ∧ tokenUsers s = ClientCredentials c
    ∧ (1 ≤ maxInflight s ≤ max_i64 ∧ 1 ≤ maxTotalInflight s ≤ max_i64)%Z
    ∧ dns_domain (Server.publicDomain s)
    ∧ (dns_domain (PublicDomain c) →
       managedHosts c ≡ₚ PublicDomain c :: EdgeDomain c :: PublicHosts s ∧ NoDup (managedHosts c)).
Proof.
  intros Hc%loadConfig_ok. destruct (config_server c Hc) as (s & Hs & Hv). exists s.
  split; [done|]. split; [by apply config_tokenUsers|].
  pose proof (managed_hosts_perm c s Hc Hv) as Hperm.
  pose proof Hs as (_ & Hv')%New_valid. destruct Hv' as (Hd & _ & Hph & _ & Hmi & Hmt & _).
  destruct Hc as [Hdom He Hu _ Hb1 Hb2]. simpl in *. split_and!.
  - rewrite Hmi. unfold max_i64 in *. destruct (Z.leb_spec (MaxInflightPerSession c) 0); lia.
  - rewrite Hmi. unfold max_i64 in *. destruct (Z.leb_spec (MaxInflightPerSession c) 0); lia.
  - rewrite Hmt. unfold max_i64 in *. destruct (Z.leb_spec (MaxTotalInflight c) 0); lia.
  - rewrite Hmt. unfold max_i64 in *. destruct (Z.leb_spec (MaxTotalInflight c) 0); lia.
  - by rewrite Hd.
  - intros Hn. assert (dns_label "edge") as Hedge by (by apply ValidateLabel_Ok).
    assert (managedHosts c ≡ₚ PublicDomain c :: EdgeDomain c :: PublicHosts s) as Hm.
    { unfold managedHosts. simpl. by rewrite (Hperm Hn). }
    split; [done|]. rewrite Hm, He, !NoDup_cons, not_elem_of_cons.
    assert (∀ h, h ∈ PublicHosts s → ∃ u, dns_label u ∧ u ≠ "edge" ∧ h = Subdomain u (PublicDomain c))
      as Hhosts.
    { intros h. rewrite <-(Hperm Hn), sortedUsers_perm, list_elem_of_fmap.
      intros (u & -> & (Hl & Hne)%users_ok_elem); [eauto|done]. }
    split_and!.
    + intros Heq. by eapply (Subdomain_ne "edge").
    + intros (u & Hl & _ & Heq)%Hhosts. by eapply Subdomain_ne.
    + intros (u & Hl & Hne & Heq)%Hhosts. apply Hne. symmetry. by eapply Subdomain_inj.
    + unfold PublicHosts. rewrite merge_sort_Permutation. apply NoDup_elements.
Qed.
End config.

(** ** A concrete configuration *)

Import Scenario.

Definition environment (key : string) : string :=
  if bool_decide (key = publicDomainEnv) then "Example.com."
  else if bool_decide (key = clientCredentialsEnv) then " t1=Alice, t2 = bob "
  else if bool_decide (key = maxTotalInflightEnv) then "64" else "".

Definition arguments : list string := ["--debug"; "-client-credential"; "t,3=carol"].

Example edge_starts_witness :
  ∃ c s, loadConfig arguments environment None = Ok c
    ∧ Server.New (server_config c) = Ok s ∧ maxTotalInflight s = 64%Z
    ∧ Server.publicDomain s = "example.com"
    ∧ managedHosts c ≡ₚ PublicDomain c :: EdgeDomain c :: PublicHosts s.
Proof.
  eexists. destruct (edge_starts arguments environment None _ eq_refl)
    as (s & Hs & _ & _ & _ & Hh). exists s.
  split; [reflexivity|]. split; [exact Hs|].
  vm_compute in Hs. injection Hs as <-. split; [reflexivity|]. split; [reflexivity|].
  apply Hh. change (dns_domain (NormalizeHost "example.com")).
  apply ValidateDomain_Ok. vm_compute. reflexivity.
Defined.
End EdgeConfig.
