(* ===== verification/EdgeMain.v ===== *)
(** * cmd/edge/main.go: the edge's front door.

    Which handler serves a request, the redirect to HTTPS, the status page, and [run],
    which opens the listeners, starts the servers and tears them down.  What the
    operating system, [net/http]'s servers and CertMagic answer is a parameter. *)

From S2P Require Import Prelude GoStrings GoFlag Hostnames Proto Headers Channels ResponseState.
From S2P Require Import Server ServerConfig Steps Scenario Url EdgeConfig.

Module EdgeMain.
Import EdgeConfig.

Definition maxGRPCMessageBytes : Z := 4 * 1024 * 1024.
Definition httpMaxHeaderBytes : Z := Z.shiftl 16 10.

(** ** Routing *)

Inductive route := ToGRPC | ToPprof | ToStatus | ToPublic | ToNotFound.

Definition isGRPCRequest (protoMajor : Z) (h : HttpHeader) : bool :=
  (protoMajor =? 2)%Z && HasPrefix (Header_Get h "Content-Type") "application/grpc".

Definition isPprofPath (path : string) : bool :=
  bool_decide (path = "/pprof") || bool_decide (path = "/pprof/") || HasPrefix path "/pprof/".

(** What the pprof handler does: redirect, or serve a path of [net/http/pprof]. *)
Inductive pprof_action := PprofRedirect (target : string) (code : Z) | PprofServe (path : string).

Definition newPprofHandler (u : URL) : pprof_action :=
  if bool_decide (u_Path u = "/pprof") then
    PprofRedirect (URL_String (mkURL (u_Scheme u) (u_Host u) "/pprof/" (u_RawPath u) (u_RawQuery u)))
      308
  else
    let suffix := TrimPrefix (u_Path u) "/pprof" in
    let suffix := if bool_decide (suffix = "") then "/" else suffix in
    PprofServe ("/debug/pprof" +:+ suffix).

(** ** The redirect to HTTPS *)

(** [URL.RequestURI] without an opaque part. *)
Definition RequestURI (u : URL) : string :=
  let result := EscapedPath u in
  let result := if bool_decide (result = "") then "/" else result in
  if bool_decide (u_RawQuery u = "") then result else result +:+ "?" +:+ u_RawQuery u.

(** ** The status page *)

(** [Duration.Truncate(time.Second)] of a duration that is not negative, in seconds. *)
Definition uptime_seconds (elapsed : Z) : Z :=
  ((if elapsed <? 0 then 0 else elapsed) `div` second)%Z.

(** [Duration.String] for whole seconds. *)
Definition seconds_string (n : Z) : string :=
  let h := (n `div` 3600)%Z in
  let m := ((n `div` 60) `mod` 60)%Z in
  let s := (n `mod` 60)%Z in
  (if (0 <? h)%Z then Itoa h +:+ "h" else "")
  +:+ (if (0 <? h)%Z || (0 <? m)%Z then Itoa m +:+ "m" else "")
  +:+ Itoa s +:+ "s".

Definition status_page (elapsed currentInflight maxInflight : Z) : string :=
  "MuxBridgh active with uptime " +:+ seconds_string (uptime_seconds elapsed)
  +:+ String "010" "" +:+ "inflight requests: " +:+ Itoa currentInflight +:+ "/" +:+ Itoa maxInflight.

Definition status_header : HttpHeader := {["Content-Type" := ["text/plain; charset=utf-8"]]}.

(** ** Servers *)

Definition serveOnce (answer : option GoError) : option GoError :=
  match answer with
  | Some e => if errors_Is e (Some ErrServerClosed) then None else Some e
  | None => None
  end.

(** The servers, nil for a nil pointer, with what their [Shutdown] answers. *)
Definition shutdownServers (servers : list (option (option GoError))) : option GoError :=
  foldl (λ firstErr server,
    match server with
    | Some (Some e) =>
      if errors_Is e (Some ErrServerClosed) then firstErr
      else match firstErr with None => Some e | _ => firstErr end
    | _ => firstErr
    end) None servers.

(** The loop over [values]; the accumulator holds [out] and [present]. *)
Definition append_value (acc : list string * gset string) (value : string)
    : list string * gset string :=
  if bool_decide (value ∈ acc.2) then acc else (acc.1 ++ [value], {[value]} ∪ acc.2).

Definition appendMissing (existing values : list string) : list string :=
  (foldl append_value (existing, list_to_set existing) values).1.

(** ** [run] *)

Inductive listener := HTTP | HTTPS.

#[export] Instance listener_eq_dec : EqDecision listener.
Proof. solve_decision. Defined.

Inductive event :=
| Opened (l : listener)
| Closed (l : listener)
| Serving (l : listener)
| Managing (hosts : list string) (dataDir : string)
| StoppedCache
| ShutDown (l : listener)
| StoppedGRPC.

(** How the [select] at the end of [run] goes: a server ends, or the context does. *)
Inductive ending := ServeEnds (answer : option GoError) | CtxDone (e : GoError).

(** What the outside answers. *)
Record answers := mkAnswers {
  a_loadCert : string → string → option GoError;
  a_listen : listener → option GoError;
  a_http2 : option GoError;
  a_manageSync : option GoError;
  a_ending : ending }.

Inductive tls_assets :=
| StaticTLS (certFile keyFile : string)
| ManagedTLS (hosts : list string) (dataDir : string).

Inductive run_err :=
| LoadFailed (e : load_err)
| ServerFailed (e : config_err)
| Outside (e : GoError).

Section main.
Context `{UnicodeData}.

Definition newHTTPSHandler (publicDomain edgeDomain : string) (isPublicHost : string → bool)
    (pprof : bool) (r : Request) (protoMajor : Z) : route :=
  let host := NormalizeHost (r_Host r) in
  if bool_decide (host = edgeDomain) && isGRPCRequest protoMajor (r_Header r) then ToGRPC
  else if bool_decide (host = edgeDomain) && pprof && isPprofPath (r_Path r) then ToPprof
  else if bool_decide (host = edgeDomain) then ToNotFound
  else if bool_decide (host = publicDomain) then ToStatus
  else if isPublicHost host then ToPublic
  else ToNotFound.

(** The handler [run] builds. *)
Definition https_route (c : edgeConfig) (s : Server) : Request → Z → route :=
  newHTTPSHandler (PublicDomain c) (EdgeDomain c) (HasPublicHost s) (Debug c).

(** The target of [redirectToHTTPS]; the code is 301. *)
Definition redirectToHTTPS (host : string) (u : URL) : string :=
  "https://" +:+ NormalizeHost host +:+ RequestURI u.

(** The data directory is never empty once [loadConfig] has filled it in. *)
Definition edgeTLSAssetsFor (c : edgeConfig) (getenv : string → string) (homeDir : option string)
    (loadCert : string → string → option GoError) : result GoError tls_assets :=
  if bool_decide (TLSCertFile c = "") then
    let dataDir := if bool_decide (DataDir c = "") then resolveDataDir getenv homeDir
                   else DataDir c in
    Ok (ManagedTLS (managedHosts c) dataDir)
  else
    match loadCert (TLSCertFile c) (TLSKeyFile c) with
    | Some e => Err e
    | None => Ok (StaticTLS (TLSCertFile c) (TLSKeyFile c))
    end.

Definition manage (assets : tls_assets) (manageSync : option GoError)
    : list event * option GoError :=
  match assets with
  | StaticTLS _ _ => ([], None)
  | ManagedTLS hosts dataDir =>
    (Managing hosts dataDir :: match manageSync with Some _ => [StoppedCache] | None => [] end,
     manageSync)
  end.

Definition listen (given : listener → bool) (a : answers) (l : listener)
    : list event * option GoError :=
  if given l then ([], None)
  else match a_listen a l with Some e => ([], Some e) | None => ([Opened l], None) end.

(** From the servers on: both listeners are open. *)
Definition run_servers (assets : tls_assets) (a : answers) : list event * option run_err :=
  match a_http2 a with
  | Some e => ([Closed HTTP; Closed HTTPS], Some (Outside e))
  | None =>
    match manage assets (a_manageSync a) with
    | (ev, Some e) => (Serving HTTP :: ev ++ [Closed HTTPS; ShutDown HTTP], Some (Outside e))
    | (ev, None) =>
      (Serving HTTP :: ev ++ [Serving HTTPS; ShutDown HTTP; ShutDown HTTPS; StoppedGRPC],
       match a_ending a with
       | ServeEnds answer => Outside <$> serveOnce answer
       | CtxDone e => Some (Outside e)
       end)
    end
  end.

(** [given] says which listeners the caller passed. *)
Definition run (args : list string) (getenv : string → string) (homeDir : option string)
    (given : listener → bool) (a : answers) : list event * option run_err :=
  match loadConfig args getenv homeDir with
  | Err e => ([], Some (LoadFailed e))
  | Ok cfg =>
    match New (server_config cfg) with
    | Err e => ([], Some (ServerFailed e))
    | Ok _ =>
      match edgeTLSAssetsFor cfg getenv homeDir (a_loadCert a) with
      | Err e => ([], Some (Outside e))
      | Ok assets =>
        match listen given a HTTP with
        | (ev1, Some e) => (ev1, Some (Outside e))
        | (ev1, None) =>
          match listen given a HTTPS with
          | (ev2, Some e) => (ev1 ++ ev2 ++ [Closed HTTP], Some (Outside e))
          | (ev2, None) => let '(ev, e) := run_servers assets a in (ev1 ++ ev2 ++ ev, e)
          end
        end
      end
    end
  end.

Definition getenv (environ : string → string) (key : string) : string := TrimSpace (environ key).

(** [main]: no arguments and no listeners; [true] for [log.Fatal]. *)
Definition main (environ : string → string) (homeDir : option string) (a : answers)
    : list event * bool :=
  let '(evs, e) := run [] (getenv environ) homeDir (λ _, false) a in
  (evs, match e with
        | Some (Outside e) => negb (errors_Is e (Some ContextCanceled))
        | Some _ => true
        | None => false
        end).

(** ** Routing is unambiguous *)

Lemma edge_host_not_public c s h :
  config_ok c → valid_server (server_config c) s → dns_domain (PublicDomain c) →
  h ∈ publicHosts s → h ≠ EdgeDomain c ∧ h ≠ PublicDomain c.
Proof.
  intros Hc Hs Hd Hh.
  assert (h ∈ PublicHosts s) as Hin
    by (unfold PublicHosts; by rewrite merge_sort_Permutation, elem_of_elements).
  rewrite <-(managed_hosts_perm c s Hc Hs Hd), sortedUsers_perm, list_elem_of_fmap in Hin.
  destruct Hin as (u & -> & Hu). apply users_ok_elem in Hu as [Hl Hne]; [|by apply cfg_users].
  rewrite (cfg_edge c Hc). split.
  - intros Heq. apply Hne. eapply Subdomain_inj; [done| |done]. by apply ValidateLabel_Ok.
  - by apply Subdomain_ne.
Qed.

(** C26. Every request has one place to go: for a configuration that was loaded, with a
    domain in normal form, and its server, a request for a user's host always reaches the
    tunnel, whatever its path, protocol and headers, and the tunnel never answers such a
    request with not found; only requests for the edge's own host, which is no user's,
    reach the tunnel endpoint of the clients or, in debug mode, the profiles; and only
    the domain itself shows the status page. *)
Theorem edge_routes args getenv homeDir c s r protoMajor :
  loadConfig args getenv homeDir = Ok c → New (server_config c) = Ok s →
  dns_domain (PublicDomain c) →
  let host := NormalizeHost (r_Host r) in
  let route := https_route c s r protoMajor in
  (host ∈ publicHosts s → route = ToPublic)
  ∧ (route = ToPublic → ∀ st, srv st = s →
       ¬ ∃ st' new, http_enter st r PStart = Some (st', [WNotFound], PDone, new))
  ∧ (route = ToGRPC ∨ route = ToPprof → host = EdgeDomain c ∧ host ∉ publicHosts s)
  ∧ (route = ToPprof → Debug c = true)
  ∧ (route = ToStatus ↔ host = PublicDomain c).
Proof.
  intros Hc%loadConfig_ok Hs Hd host route. pose proof Hs as (_ & Hv)%New_valid.
  pose proof (edge_host_not_public c s host Hc Hv Hd) as Hpub.
  assert (EdgeDomain c ≠ PublicDomain c) as Hed.
  { rewrite (cfg_edge c Hc). apply Subdomain_ne; [by apply ValidateLabel_Ok|done]. }
  subst route. unfold https_route, newHTTPSHandler. fold host.
  assert (host ∈ publicHosts s → HasPublicHost s host = true) as Hhas.
  { intros Hin. unfold HasPublicHost. apply bool_decide_eq_true.
    destruct Hv as (Hpd & _ & Hph & _). pose proof Hin as (t & u & Htu & Heq)%Hph.
    rewrite Heq in *. rewrite dns_domain_normal; [done|]. rewrite Hpd. simpl.
    unfold NormalizeDomain. rewrite (dns_domain_normal _ Hd). apply Subdomain_dns; [|done].
    rewrite (config_tokenUsers c s Hc) in Htu by (by apply New_valid).
    by apply (cfg_users c Hc) in Htu as (_ & Hl & _). }
  split_and!.
  - intros Hin. destruct (Hpub Hin) as [He Hp].
    rewrite !(bool_decide_false (host = _)) by done. simpl. by rewrite Hhas.
  - intros Hr st <- (st' & new & Hent). simpl in Hent. fold host in Hent.
    destruct (HasPublicHost (srv st) host) eqn:E.
    + by destruct (getSession _ _).
    + by repeat case_match.
  - intros Hr. destruct (decide (host = EdgeDomain c)) as [Heq|Hne].
    + split; [done|]. intros Hin. by destruct (Hpub Hin).
    + rewrite (bool_decide_false (host = EdgeDomain c)) in Hr by done. simpl in Hr.
      destruct Hr as [Hr|Hr]; by repeat case_match.
  - intros Hr. destruct (Debug c); [done|]. rewrite !andb_false_r in Hr. by repeat case_match.
  - destruct (decide (host = EdgeDomain c)) as [Heq|Hne].
    + rewrite (bool_decide_true (host = _)) by done. simpl. split; [|congruence].
      by repeat case_match.
    + rewrite (bool_decide_false (host = EdgeDomain c)) by done. simpl.
      case_bool_decide; [done|]. split; [|done]. by case_match.
Qed.

(** ** [run] releases what it opens *)

(** Whether a listener is open after the events. *)
Definition open_after (evs : list event) (l : listener) : bool :=
  foldl (λ o e,
    match e with
    | Opened l' => if decide (l' = l) then true else o
    | Closed l' | ShutDown l' => if decide (l' = l) then false else o
    | _ => o
    end) false evs.


(** The redirect to HTTPS changes nothing but the scheme: for a Host header that
    normalises to a domain name and a path that starts with a slash, the target is
    https://, the normal form of the host, which is its own normal form and so is routed
    the same, a path that starts with a slash and decodes to the path of the request and
    has no byte that ends a path, and the query. *)
Theorem redirect_keeps host u :
  dns_domain (NormalizeHost host) → HasPrefix (u_Path u) "/" →
  (u_RawPath u = "" ∨ HasPrefix (u_RawPath u) "/") →
  ∃ h p, redirectToHTTPS host u =
      "https://" +:+ h +:+ p +:+ (if bool_decide (u_RawQuery u = "") then "" else "?" +:+ u_RawQuery u)
    ∧ (h = NormalizeHost host ∧ NormalizeHost h = h ∧ string_forall domain_byte h)
    ∧ HasPrefix p "/" ∧ unescape_path p = Some (u_Path u) ∧ string_forall path_byte p.
Proof.
  intros Hd Hp Hr. destruct (EscapedPath_spec u) as [Hun Hb].
  pose proof (EscapedPath_slash u Hp Hr) as Hpre.
  exists (NormalizeHost host), (EscapedPath u). split.
  - unfold redirectToHTTPS, RequestURI. rewrite (bool_decide_false (EscapedPath u = "")).
    + case_bool_decide; by rewrite ?app_nil_r_str.
    + intros Hn. by rewrite Hn in Hpre.
  - split_and!; try done; [by apply dns_domain_normal|by apply dns_domain_bytes].
Qed.

(** ** [appendMissing] *)

Lemma append_values_spec acc values :
  (∀ x, x ∈ acc.2 ↔ x ∈ acc.1) →
  ∃ added, (foldl append_value acc values).1 = acc.1 ++ added
    ∧ added `sublist_of` values ∧ NoDup added ∧ ∀ x, x ∈ added ↔ x ∈ values ∧ x ∉ acc.1.
Proof.
  revert acc. induction values as [|v values IH]; intros [out present] Hacc; simpl in *.
  { exists []. rewrite app_nil_r. split_and!; [done..|constructor|].
    intros x. rewrite elem_of_nil. tauto. }
  unfold append_value at 2. simpl. case_bool_decide as Hv.
  - destruct (IH (out, present) Hacc) as (added & Heq & Hsub & Hnd & Hin). exists added.
    split_and!; [done|by constructor|done|]. intros x. rewrite Hin, elem_of_cons. simpl.
    apply Hacc in Hv. split; [tauto|]. intros [[->|?] ?]; [done|auto].
  - destruct (IH (out ++ [v], {[v]} ∪ present)) as (added & Heq & Hsub & Hnd & Hin).
    { intros x. simpl. rewrite elem_of_union, elem_of_app, elem_of_singleton, list_elem_of_singleton.
      pose proof (Hacc x). tauto. }
    exists (v :: added). simpl in *. rewrite Heq, <-app_assoc. split_and!; [done|by constructor| |].
    + constructor; [|done]. rewrite Hin, elem_of_app, list_elem_of_singleton. tauto.
    + intros x. rewrite !elem_of_cons, Hin. rewrite Hacc in Hv.
      rewrite elem_of_app, list_elem_of_singleton. clear -Hv.
      destruct (decide (x = v)) as [->|]; tauto.
Qed.

(** [appendMissing] adds what is missing and nothing else: the result is the existing
    values followed by those of the new ones that are not among them, in their order and
    each once; with it both ALPN protocols are offered whatever CertMagic has set. *)
Theorem appendMissing_correct existing values :
  ∃ added, appendMissing existing values = existing ++ added
    ∧ added `sublist_of` values ∧ NoDup added
    ∧ ∀ x, x ∈ added ↔ x ∈ values ∧ x ∉ existing.
Proof.
  apply (append_values_spec (existing, list_to_set existing) values).
  intros x. simpl. apply elem_of_list_to_set.
Qed.
End main.

(** ** Examples *)

Import Scenario.

Definition loaded : edgeConfig :=
  default (mkEdgeConfig "" "" ∅ "" "" false "" 0 0)
    (match loadConfig arguments environment None with Ok c => Some c | Err _ => None end).

Definition grpc_to (host : string) : Request :=
  mkRequest host "POST" "/pprof/" "" "" "" true {["Content-Type" := ["application/grpc"]]} None false.

Example edge_routes_witness :
  ∃ s, New (server_config loaded) = Ok s
    ∧ https_route loaded s (grpc_to "Alice.Example.com:443") 2 = ToPublic
    ∧ https_route loaded s (grpc_to "edge.example.com") 2 = ToGRPC
    ∧ EdgeDomain loaded ∉ publicHosts s.
Proof.
  assert (loadConfig arguments environment None = Ok loaded) as Hc by (vm_compute; reflexivity).
  assert (∃ s, New (server_config loaded) = Ok s
    ∧ NormalizeHost (r_Host (grpc_to "Alice.Example.com:443")) ∈ publicHosts s
    ∧ https_route loaded s (grpc_to "edge.example.com") 2 = ToGRPC)
    as (s & Hs & Hyes & Hgrpc).
  { eexists. split; [vm_compute; reflexivity|]. split; [|vm_compute; reflexivity].
    apply (bool_decide_eq_true_1 _). vm_compute. reflexivity. }
  exists s.
  assert (dns_domain (PublicDomain loaded)) as Hd.
  { change (dns_domain (NormalizeHost "example.com")). apply ValidateDomain_Ok. vm_compute. reflexivity. }
  destruct (edge_routes arguments environment None loaded s (grpc_to "Alice.Example.com:443") 2 Hc Hs Hd)
    as [Hpub _].
  destruct (edge_routes arguments environment None loaded s (grpc_to "edge.example.com") 2 Hc Hs Hd)
    as (_ & _ & Hg & _).
  split; [done|]. split; [exact (Hpub Hyes)|]. split; [done|].
  destruct Hg as [Hhost Hg]; [by left|]. intros Hin. apply Hg.
  replace (NormalizeHost (r_Host (grpc_to "edge.example.com"))) with (EdgeDomain loaded); done.
Defined.

Definition no_certificate : answers :=
  mkAnswers (λ _ _, None) (λ _, None) None (Some ContextDeadlineExceeded) (CtxDone ContextCanceled).


Example redirect_keeps_witness :
  redirectToHTTPS "Demo.example.com:80" (mkURL "" "" "/a b" "" "q=1")
  = "https://demo.example.com/a%20b?q=1"
  ∧ ∃ p, unescape_path p = Some "/a b".
Proof.
  split; [vm_compute; reflexivity|].
  destruct (redirect_keeps "Demo.example.com:80" (mkURL "" "" "/a b" "" "q=1"))
    as (h & p & _ & _ & _ & Hu & _); [|done|by left|].
  - change (dns_domain (NormalizeHost "Demo.example.com:80")).
    apply ValidateDomain_Ok. vm_compute. reflexivity.
  - exists p. exact Hu.
Defined.
End EdgeMain.
