(* ===== verification/Shutdown.v ===== *)
(** * cmd/edge/main.go: the servers the edge builds and how it stops them.

    The options of the servers, and [gracefulStopGRPC] as the steps of its two goroutines,
    the timer and the gRPC server.  Of the gRPC server it is used that [GracefulStop]
    returns once no call is pending, and that [Stop] ends the pending calls. *)

From S2P Require Import Prelude GoStrings Headers Channels Server EdgeMain.

Module Shutdown.
Import EdgeMain.
Local Open Scope Z_scope.

(** ** Options *)

Definition minute : Z := 60 * second.
Definition grpcServerKeepaliveTime : Z := 30 * second.
Definition grpcServerKeepaliveTimeout : Z := 20 * second.
Definition grpcClientMinKeepaliveTime : Z := 10 * second.
Definition publicHTTPSIdleTimeout : Z := 2 * minute.

Record grpc_options := mkGrpc {
  MaxRecvMsgSize : Z; MaxSendMsgSize : Z;
  ka_Time : Z; ka_Timeout : Z; ka_MinTime : Z; ka_PermitWithoutStream : bool }.

Definition newEdgeGRPCServer : grpc_options :=
  mkGrpc maxGRPCMessageBytes maxGRPCMessageBytes
    grpcServerKeepaliveTime grpcServerKeepaliveTimeout grpcClientMinKeepaliveTime true.

(** The fields of [http.Server] that are set; no time-out is 0. *)
Record http_options := mkHttp {
  ReadHeaderTimeout : Z; ReadTimeout : Z; WriteTimeout : Z; IdleTimeout : Z; MaxHeaderBytes : Z }.

Definition newRedirectHTTPServer : http_options :=
  mkHttp (5 * second) (10 * second) (10 * second) (30 * second) httpMaxHeaderBytes.
Definition newPublicHTTPSServer : http_options :=
  mkHttp (10 * second) 0 0 publicHTTPSIdleTimeout httpMaxHeaderBytes.

(** The handler for port 80: the first ACME issuer's challenges before the redirect. *)
Inductive issuer := ACMEIssuer (account : string) | OtherIssuer.

Fixpoint wrapHTTPChallenge (issuers : list issuer) : option string :=
  match issuers with
  | [] => None
  | ACMEIssuer account :: _ => Some account
  | OtherIssuer :: issuers => wrapHTTPChallenge issuers
  end.

(** The status page; nil functions are replaced by the clock and by zeros. *)
Definition newStatusHandler (clock startedAt : Z) (now : option Z) (inflight : option (Z * Z))
    : HttpHeader * string :=
  let now := default clock now in
  let '(current, max) := default (0, 0) inflight in
  (status_header, status_page (now - startedAt) current max).

(** ** [gracefulStopGRPC] *)

(** Where the caller is. *)
Inductive stop_pc := SSelect | SStop | SWait | SReturned.

Record stop_state := mkStop {
  pending : nat;         (** calls the gRPC server serves *)
  graceful : bool;       (** [GracefulStop] has returned *)
  closed : bool;         (** [done] is closed *)
  fired : bool;          (** the five seconds are over *)
  pc : stop_pc }.

Inductive stop_label :=
| CallEnds             (** a call ends by itself *)
| GracefulReturns | CloseDone | Fire
| TakeDone | TakeTimer | CallStop | WaitDone.

Definition stop_step (s : stop_state) (l : stop_label) : option stop_state :=
  match l, pc s with
  | CallEnds, _ =>
    match pending s with
    | O => None
    | S n => Some (mkStop n (graceful s) (closed s) (fired s) (pc s))
    end
  | GracefulReturns, _ =>
    if negb (graceful s) && (pending s =? 0)%nat
    then Some (mkStop 0 true (closed s) (fired s) (pc s)) else None
  | CloseDone, _ =>
    if graceful s && negb (closed s)
    then Some (mkStop (pending s) true true (fired s) (pc s)) else None
  | Fire, _ =>
    if fired s then None else Some (mkStop (pending s) (graceful s) (closed s) true (pc s))
  | TakeDone, SSelect | WaitDone, SWait =>
    if closed s then Some (mkStop (pending s) (graceful s) true (fired s) SReturned) else None
  | TakeTimer, SSelect =>
    if fired s then Some (mkStop (pending s) (graceful s) (closed s) true SStop) else None
  | CallStop, SStop => Some (mkStop 0 (graceful s) (closed s) (fired s) SWait)
  | _, _ => None
  end.

Fixpoint stop_run (s : stop_state) (ls : list stop_label) : option stop_state :=
  match ls with [] => Some s | l :: ls => s ← stop_step s l; stop_run s ls end.

(** A nil server is left alone. *)
Definition gracefulStopGRPC (server : option nat) : stop_state :=
  match server with
  | None => mkStop 0 true true false SReturned
  | Some n => mkStop n false false false SSelect
  end.

(** *** Its invariant *)

Record stop_ok (s : stop_state) : Prop := {
  so_closed : closed s = true → graceful s = true;
  so_graceful : graceful s = true → pending s = 0%nat;
  so_returned : pc s = SReturned → closed s = true;
  so_waiting : pc s = SWait → pending s = 0%nat ∧ fired s = true;
  so_timer : pc s = SStop → fired s = true }.

Lemma stop_init server : stop_ok (gracefulStopGRPC server).
Proof. destruct server; constructor; try done; by destruct n. Qed.

Lemma stop_step_ok s l s' : stop_ok s → stop_step s l = Some s' → stop_ok s'.
Proof.
  intros [Hc Hg Hr Hw Ht] Hs. destruct s as [n g d f p]. cbn in *.
  assert (p = SWait → n = 0%nat) as Hw1 by (intros Hp; by apply Hw).
  assert (p = SWait → f = true) as Hw2 by (intros Hp; by apply Hw). clear Hw.
  destruct l, p; cbn in Hs; repeat case_match; simplify_eq;
    repeat match goal with Hx : (_ && _) = true |- _ => apply andb_prop in Hx as [? ?] end;
    rewrite ?Nat.eqb_eq in *;
    constructor; cbn; intros; simplify_eq; try split; auto;
    try (by rewrite Hg in * by auto); try (by rewrite Hw1 in * by auto);
    try (specialize (Hg ltac:(auto)); lia); try (specialize (Hw1 eq_refl); lia).
Qed.

Lemma stop_run_ok s ls s' : stop_ok s → stop_run s ls = Some s' → stop_ok s'.
Proof.
  revert s. induction ls as [|l ls IH]; intros s Hs; simpl; [by intros [= <-]|].
  intros (s1 & Hl & Hr)%bind_Some. eapply IH; [|done]. by eapply stop_step_ok.
Qed.

(** Steps that are left. *)
Definition stop_left (s : stop_state) : nat :=
  pending s + (if graceful s then 0 else 1) + (if closed s then 0 else 1) + (if fired s then 0 else 1)
  + match pc s with SSelect => 3 | SStop => 2 | SWait => 1 | SReturned => 0 end.

Lemma stop_step_left s l s' : stop_step s l = Some s' → (stop_left s' < stop_left s)%nat.
Proof.
  intros Hs. destruct s as [n g d f p]. unfold stop_left.
  destruct l, p; cbn in Hs; try done; try destruct n as [|n]; destruct g, d, f; cbn in Hs; try done;
    injection Hs as <-; cbn; lia.
Qed.


End Shutdown.
