(* ===== verification/Limits.v ===== *)
(** * The edge's limit on messages, and what a handler writes.

    The edge takes no message of more than four megabytes ([maxGRPCMessageBytes]); the
    client makes one message of each [Write] of a handler.  Of the encoding it is used that
    a message is at least as long as the bytes it holds, and of the gRPC server that
    [Recv] returns no message above the limit. *)

From S2P Require Import Prelude GoStrings Hostnames Proto Headers Channels ResponseState Server.
From S2P Require Import Frames Steps Scenario ServerConfig Pipeline Forward Replies ResponseWriter Url Session Answering EndToEnd System.
From S2P Require Import EdgeMain.

Section limits.
Context `{UnicodeData} (cfg : Config) (s : Server).
Context (answer : nat → nat → option GoError) (parse_url : string → option string).
Hypothesis Hnew : New cfg = Ok s.
Hypothesis Hmax : (MaxTotalInflight cfg ≤ max_i64)%Z.
Context (size : ClientFrame → Z).
Hypothesis size_body : ∀ id chunk,
  (Z.of_nat (String.length chunk) ≤ size (ClientFrame_ResponseBody id chunk))%Z.

(** A step in which the edge receives no message above its limit. *)
Definition admits (l : label) : bool :=
  match l with LStep _ (Recv f) => (size f <=? EdgeMain.maxGRPCMessageBytes)%Z | _ => true end.

Lemma hear_admits w l p f : admits l = true → f ∈ hear w l p → (size f ≤ EdgeMain.maxGRPCMessageBytes)%Z.
Proof.
  intros Ha Hf. destruct l as [i c| | |]; simpl in Hf; try (by apply elem_of_nil in Hf).
  destruct (threads w !! i) as [[| |pc| |]|]; try (by apply elem_of_nil in Hf).
  destruct pc, c; simpl in Hf; try (by apply elem_of_nil in Hf). case_decide; [|by apply elem_of_nil in Hf].
  apply list_elem_of_singleton in Hf as ->. by apply Z.leb_le.
Qed.

Lemma heard_admits w ls p f :
  forallb admits ls = true → f ∈ heard w ls p → (size f ≤ EdgeMain.maxGRPCMessageBytes)%Z.
Proof.
  revert w. induction ls as [|l ls IH]; intros w Ha; simpl; [by intros ?%elem_of_nil|].
  apply andb_prop in Ha as [Hl Ha]. intros [Hf|Hf]%elem_of_app; [by eapply hear_admits|].
  destruct (exec w l); [by eapply IH|by apply elem_of_nil in Hf].
Qed.

(** Each [Write] is one frame. *)
Lemma write_frame a id ops c :
  (∀ n, a n = None) → OpWrite c ∈ ops →
  ∃ i, ClientFrame_ResponseBody i c ∈ frames (serve_response a id ops None).
Proof.
  intros Ha Hc. destruct (response_content a id ops Ha) as [_ Hch].
  assert (c ∈ chunks (contents (frames (serve_response a id ops None)))) as Hin.
  { rewrite Hch. unfold writes. apply list_elem_of_omap. by exists (OpWrite c). }
  unfold chunks, contents in Hin. apply list_elem_of_omap in Hin as (x & Hx & Hc').
  apply list_elem_of_omap in Hx as (f & Hf & Hx). destruct f; simplify_eq/=; eauto.
Qed.

(** C13. A [Write] above the limit is lost, and the response with it: in a run of an edge
    and a client together, in which the edge receives no message of more than its limit,
    the frames of a handler that returned, one of whose writes was longer than the limit,
    reach the edge at most up to that write, whatever the interleaving; the browser never
    gets the rest, although no [Write] failed. *)
Theorem oversized_write_lost p js w w' n m x wr got rerr spc c :
  (Z.of_nat (length (edge_part js)) < 2^64)%Z →
  run (init_world s) (edge_part js) = Some w →
  Session.run answer parse_url Session.init_world (client_part js) = Some w' →
  linked s answer parse_url p js → forallb admits (edge_part js) = true →
  Session.threads w' !! n = Some (Session.TServe m x wr got rerr spc) →
  finished_serving spc = true → returns_by (client_part js) n = [None] → (∀ z, answer n z = None) →
  OpWrite c ∈ ops_by (client_part js) n →
  (EdgeMain.maxGRPCMessageBytes < Z.of_nat (String.length c))%Z →
  let id := rs_RequestId m in
  ∃ pre post, replies id (up answer parse_url js) = pre ++ ClientFrame_ResponseBody id c :: post
    ∧ replies id (heard (init_world s) (edge_part js) p) `prefix_of` pre.
Proof using Hnew Hmax size_body.
  intros Hlen Hrun Hrun' Hlink Hadm Hn Hfin Hret Hans Hc Hlong id.
  destruct (served_response _ _ _ _ Hnew Hmax _ _ _ _ Hlen Hrun Hrun' Hlink _ _ _ _ _ _ _ Hn) as [Hup Hcall].
  fold id in Hup, Hcall.
  assert (wr = serve_response (answer n) id (ops_by (client_part js) n) None) as Hwr.
  { destruct spc; try done; destruct Hcall as (panic & Hp & ->); rewrite Hret in Hp; by simplify_eq. }
  destruct (write_frame _ id _ _ Hans Hc) as [i Hf]. rewrite <-Hwr, <-Hup in Hf.
  assert (i = id) as ->.
  { apply list_elem_of_filter in Hf as [Hi _]. by injection Hi. }
  apply list_elem_of_split in Hf as (pre & post & Hsplit). exists pre, post. split; [done|].
  destruct (Hlink js [] (eq_sym (app_nil_r js))) as [_ Hpre]. apply (replies_prefix id) in Hpre. rewrite Hsplit in Hpre.
  eapply prefix_before; [exact Hpre|]. intros [_ Hin]%list_elem_of_filter.
  apply heard_admits in Hin; [|done]. specialize (size_body id c). lia.
Qed.
End limits.

Section witnesses.
Import Scenario.

(** [n] bytes. *)
Fixpoint bytes (n : nat) : string := match n with O => "" | S n => String "x" (bytes n) end.
Lemma length_bytes n : String.length (bytes n) = n.
Proof. induction n; simpl; congruence. Qed.

(** One byte more than the limit. *)
Definition big : string := bytes (N.to_nat 4194305).
Lemma big_long : (EdgeMain.maxGRPCMessageBytes < Z.of_nat (String.length big))%Z.
Proof. unfold big. rewrite length_bytes, N_nat_Z. reflexivity. Qed.

(** The least message length the theorem asks for. *)
Definition least_size (f : ClientFrame) : Z :=
  match f with ClientFrame_ResponseBody _ c => Z.of_nat (String.length c) | _ => 0 end.

(** The handler writes [c]; the edge gets the header of the response and no more. *)
Definition oversized (c : string) : list action :=
  (AtEdge <$> connect ++ arrive ++ forward)
  ++ (AtClient <$> [Session.LStep 0 (Session.Recv (ServerFrame_RequestStart (request_start request "1")));
                    Session.LStep 0 (Session.Recv (ServerFrame_RequestEnd "1"));
                    Session.LStep 1 (Session.HOp (OpWrite c));
                    Session.LStep 1 (Session.HReturn None); Session.LStep 1 Session.Go])
  ++ (AtEdge <$> respond).

Example oversized_write_lost_witness :
  ∃ pre post, replies "1" (up silent no_url (oversized big)) = pre ++ ClientFrame_ResponseBody "1" big :: post
    ∧ replies "1" (heard start_world (edge_part (oversized big)) 0) `prefix_of` pre.
Proof.
  generalize big_long. generalize big. intros c Hc.
  refine (oversized_write_lost config server silent no_url server_new ltac:(vm_compute; done)
    least_size (λ _ _, Z.le_refl _) 0 (oversized c) (after (edge_part (oversized c)))
    (default Session.init_world (Session.run silent no_url Session.init_world (client_part (oversized c))))
    1 (request_start request "1") 0 (serve_response (λ _, None) "1" [OpWrite c] None) "" None
    Session.SCloseBody c _ _ _ _ _ _ _ _ _ _ Hc).
  all: lazymatch goal with
    | |- linked _ _ _ _ _ => apply in_step_linked; vm_compute; reflexivity
    | |- @eq _ _ _ => vm_compute; reflexivity
    | |- _ ∈ _ => by left
    | |- _ => done
    end.
Defined.
End witnesses.
