(* ===== verification/DemoClient.v ===== *)
(** * cmd/demo-client/main.go: the demo client.

    Its configuration, the handlers behind its tunnel as the calls they make on their
    response writer, and its event stream.  The two HTML pages are parameters. *)

From S2P Require Import Prelude GoStrings GoFlag GoFmt Hostnames Proto Headers Channels ResponseState.
From S2P Require Import Server ServerConfig Steps Scenario Url ResponseWriter EdgeConfig EdgeMain.
From S2P Require Import Client.

Definition lf : string := String "010" "".

Module DemoClient.

Record demoConfig := mkDemoConfig {
  PublicDomain : string;
  EdgeAddr : string;
  Token : string;
  Debug : bool }.

Inductive load_err :=
| FlagError (e : flag_err)
| DomainRequired
| InvalidDomain (e : domain_err).

Definition defaultString (value fallback : string) : string :=
  if bool_decide (value = "") then fallback else value.

Definition demo_flags : list (flag demoConfig) := [
  StringVar "public-domain" (λ v c, mkDemoConfig v (EdgeAddr c) (Token c) (Debug c));
  StringVar "edge-addr" (λ v c, mkDemoConfig (PublicDomain c) v (Token c) (Debug c));
  StringVar "token" (λ v c, mkDemoConfig (PublicDomain c) (EdgeAddr c) v (Debug c));
  BoolVar "debug" (λ v c, mkDemoConfig (PublicDomain c) (EdgeAddr c) (Token c) v)].

(** [getenv] of the commands, over the process's environment. *)
Definition getenv (environ : string → string) (key : string) : string := TrimSpace (environ key).

(** *** Texts *)

Definition remoteIPFromAddr (remoteAddr : string) : string :=
  let remoteAddr := TrimSpace remoteAddr in
  if bool_decide (remoteAddr = "") then "unknown"
  else
    match SplitHostPort remoteAddr with
    | Ok (host, _) => if bool_decide (host = "") then remoteAddr else host
    | Err _ => remoteAddr
    end.

(** The writes of [writeSSEEvent]. *)
Definition writeSSEEvent (eventName data : string) : list string :=
  (if bool_decide (eventName = "") then [] else ["event: " +:+ eventName +:+ lf])
  ++ ((λ line, "data: " +:+ line +:+ lf) <$> Split "010" data)
  ++ [lf].

(** *** Handlers *)

Inductive handler := Hello | WsDemo | SseDemo | SseEvents | WsSocket | Slow.

(** The patterns of the mux; the pattern / takes what no other does. *)
Definition newDemoMux (path : string) : handler :=
  if bool_decide (path = "/ws-demo") then WsDemo
  else if bool_decide (path = "/sse-demo") then SseDemo
  else if bool_decide (path = "/sse-demo/events") then SseEvents
  else if bool_decide (path = "/ws-demo/socket") then WsSocket
  else if bool_decide (path = "/slow") then Slow
  else Hello.

Definition content_type (v : string) : HttpHeader := {["Content-Type" := [v]]}.

Definition hello_handler (remoteAddr : string) : list hop :=
  [OpHeader (content_type "text/plain");
   OpWrite ("hello through grpc tunnel" +:+ lf +:+ "remote ip: " +:+ remoteIPFromAddr remoteAddr +:+ lf)].

Definition page_handler (page : string) : list hop :=
  [OpHeader (content_type "text/html; charset=utf-8"); OpWrite page].

Definition sse_header : HttpHeader :=
  <["Connection" := ["keep-alive"]]>
    (<["Cache-Control" := ["no-cache"]]> (content_type "text/event-stream")).

Definition sse_tick (remoteIP : string) (tick : nat) (ts : string) : list hop :=
  (OpWrite <$> writeSSEEvent "tick"
     ("tick " +:+ Itoa (Z.of_nat tick) +:+ " at " +:+ ts +:+ " from " +:+ remoteIP)) ++ [OpFlush].

(** The event stream until the context ends, for the times the ticker has sent. *)
Definition sse_handler (remoteAddr : string) (times : list string) : list hop :=
  let remoteIP := remoteIPFromAddr remoteAddr in
  [OpHeader sse_header] ++ (OpWrite <$> writeSSEEvent "connected" ("remote ip: " +:+ remoteIP))
  ++ [OpFlush] ++ concat (imap (λ i ts, sse_tick remoteIP (S i) ts) times).

Definition slow_handler : list hop :=
  OpHeader (content_type "text/plain")
  :: concat ((λ i, [OpWrite ("chunk " +:+ Itoa (Z.of_nat i + 1) +:+ lf); OpFlush]) <$> seq 0 5).

(** The messages the echo socket sends for those it receives. *)
Definition ws_reply (remoteIP message : string) : string :=
  "echo from " +:+ remoteIP +:+ ": " +:+ TrimSpace message.
Definition ws_socket (remoteAddr : string) (messages : list string) : list string :=
  let remoteIP := remoteIPFromAddr remoteAddr in
  ("connected from " +:+ remoteIP) :: (ws_reply remoteIP <$> messages).

Section demo.
Context `{UnicodeData}.

(** *** Configuration *)

Definition parseBoolString (value : string) : bool :=
  bool_decide (ToLower (TrimSpace value) ∈ ["1"; "t"; "true"; "y"; "yes"; "on"]).

Definition loadConfig (args : list string) (getenv : string → string)
    : result load_err demoConfig :=
  cfg ← map_err FlagError
    (Parse demo_flags
       (mkDemoConfig (getenv "MUXBRIDGE_PUBLIC_DOMAIN") (getenv "MUXBRIDGE_EDGE_ADDR")
          (defaultString (getenv "MUXBRIDGE_CLIENT_TOKEN") "demo-token")
          (parseBoolString (getenv "MUXBRIDGE_DEBUG"))) args);
  let cfg := mkDemoConfig (TrimSpace (PublicDomain cfg)) (TrimSpace (EdgeAddr cfg))
               (TrimSpace (Token cfg)) (Debug cfg) in
  if bool_decide (EdgeAddr cfg = "") then
    let domain := NormalizeDomain (PublicDomain cfg) in
    _ ← guard_err (bool_decide (domain = "")) DomainRequired;
    _ ← map_err InvalidDomain (ValidateDomain domain);
    Ok (mkDemoConfig domain (Subdomain "edge" domain +:+ ":443") (Token cfg) (Debug cfg))
  else Ok cfg.

(** The tunnel client [run] makes of it. *)
Definition tunnel_config (c : demoConfig) : Client.Config :=
  Client.mkConfig (EdgeAddr c) "" (Token c) true false 0 0.

Inductive run_err :=
| LoadFailed (e : load_err)
| NewFailed (msg : string)
| RunFailed (e : GoError).

(** What [run] prints in debug mode; the time-outs are those [tunnel.New] fills in. *)
Definition debug_line (c : demoConfig) : string :=
  "client debug enabled: edge_addr=" +:+ EdgeAddr c +:+ " public_domain=" +:+ PublicDomain c
  +:+ " reconnect_backoff=" +:+ Duration_String (2 * second)
  +:+ " dial_timeout=" +:+ Duration_String (10 * second).

(** What [run] prints and what it returns, if it does, when the sessions of the tunnel go
    as [attempts]. *)
Definition run (args : list string) (getenv : string → string) (attempts : list Client.attempt)
    : list string * option (option run_err) :=
  match loadConfig args getenv with
  | Err e => ([], Some (Some (LoadFailed e)))
  | Ok cfg =>
    match Client.New (tunnel_config cfg) with
    | Err msg => ([], Some (Some (NewFailed msg)))
    | Ok _ =>
      (if Debug cfg then [debug_line cfg] else [],
       option_map (option_map RunFailed) (Client.Run attempts))
    end
  end.

(** ** The event stream is one *)

(** The lines of an event stream: they end in CR LF, LF or CR. *)
Fixpoint sse_lines (s : string) : list string :=
  match s with
  | "" => [""]
  | String "013" (String "010" s) => "" :: sse_lines s
  | String a s =>
    if bool_decide (a = "010"%char) || bool_decide (a = "013"%char) then "" :: sse_lines s
    else match sse_lines s with x :: l => String a x :: l | [] => [String a ""] end
  end.

(** How a browser reads the first event: the fields up to an empty line, the data lines
    joined by line feeds; other fields are ignored. *)
Fixpoint sse_event (lines : list string) (name : string) (data : list string)
    : option (string * string) :=
  match lines with
  | [] => None
  | "" :: _ => Some (name, Join data lf)
  | l :: lines =>
    match Cut ":" l with
    | Some (field, value) =>
      let value := TrimPrefix value " " in
      if bool_decide (field = "event") then sse_event lines value data
      else if bool_decide (field = "data") then sse_event lines name (data ++ [value])
      else sse_event lines name data
    | None => sse_event lines name data
    end
  end.

Lemma sse_lines_app u s :
  has_byte "010" u = false → has_byte "013" u = false →
  sse_lines (u +:+ lf +:+ s) = u :: sse_lines s.
Proof.
  induction u as [|a u IH]; intros Hl Hc; [done|]. rewrite app_cons_str.
  simpl in Hl, Hc. apply orb_false_iff in Hl as [Hl Hl'], Hc as [Hc Hc'].
  transitivity (if bool_decide (a = "010"%char) || bool_decide (a = "013"%char)
    then "" :: sse_lines (u +:+ lf +:+ s)
    else match sse_lines (u +:+ lf +:+ s) with x :: l => String a x :: l | [] => [String a ""] end).
  { apply bool_decide_eq_false in Hc. clear -Hc.
    destruct a as [[] [] [] [] [] [] [] []]; try reflexivity. by destruct Hc. }
  rewrite Hl, Hc. simpl. by rewrite IH.
Qed.

Lemma Split_lines data :
  has_byte "013" data = false →
  Forall (λ l, has_byte "010" l = false ∧ has_byte "013" l = false) (Split "010" data).
Proof.
  induction data as [|a s IH]; simpl; [by repeat constructor|].
  intros [Ha Hs]%orb_false_iff. specialize (IH Hs).
  destruct (bool_decide (a = "010"%char)) eqn:Hl; [by constructor|].
  destruct (Split_cons "010" s) as (x & l & Hx). rewrite Hx in *.
  apply Forall_cons in IH as [[H1 H2] H3]. constructor; [|done]. simpl.
  by rewrite Hl, Ha, H1, H2.
Qed.

Lemma Join_Split data : Join (Split "010" data) lf = data.
Proof.
  induction data as [|a s IH]; [done|]. simpl.
  destruct (Split_cons "010" s) as (x & l & Hx). rewrite Hx in *.
  case_bool_decide as Hl.
  - subst a. change (Join ("" :: x :: l) lf) with (lf +:+ Join (x :: l) lf). by rewrite IH.
  - rewrite <-IH. by destruct l.
Qed.

Lemma sse_lines_data ls s :
  Forall (λ l, has_byte "010" l = false ∧ has_byte "013" l = false) ls →
  sse_lines (cat ((λ l, "data: " +:+ l +:+ lf) <$> ls) +:+ s)
  = ((λ l, "data: " +:+ l) <$> ls) ++ sse_lines s.
Proof.
  induction 1 as [|l ls [H1 H2] _ IH]; [done|]. cbn [fmap list_fmap cat foldr].
  rewrite <-!app_assoc_str, (app_assoc_str _ _ s), (app_assoc_str _ lf), sse_lines_app.
  - simpl. by rewrite <-IH.
  - by rewrite has_byte_app, H1.
  - by rewrite has_byte_app, H2.
Qed.

Lemma sse_event_data ls rest name acc :
  sse_event (((λ l, "data: " +:+ l) <$> ls) ++ "" :: rest) name acc = Some (name, Join (acc ++ ls) lf).
Proof.
  revert acc. induction ls as [|l ls IH]; intros acc; [by rewrite app_nil_r|].
  transitivity (sse_event (((λ l, "data: " +:+ l) <$> ls) ++ "" :: rest) name (acc ++ [l])).
  - cbn. by destruct l.
  - by rewrite IH, <-app_assoc.
Qed.


(** A host with the port 443 is routed by its name. *)
Lemma route_grpc e s r addr :
  dns_domain (EdgeConfig.EdgeDomain e) → addr = EdgeConfig.EdgeDomain e +:+ ":443" → r_Host r = addr →
  EdgeMain.isGRPCRequest 2 (r_Header r) = true → EdgeMain.https_route e s r 2 = EdgeMain.ToGRPC.
Proof.
  intros Hd -> Hr Hg. unfold EdgeMain.https_route, EdgeMain.newHTTPSHandler. rewrite Hr.
  change (":443") with (":" +:+ "443"). rewrite NormalizeHost_port by done.
  by rewrite bool_decide_true, Hg.
Qed.

Lemma edge_loaded_domain environ homeDir e :
  EdgeConfig.loadConfig [] (getenv environ) homeDir = Ok e →
  EdgeConfig.PublicDomain e = NormalizeDomain (getenv environ publicDomainEnv).
Proof.
  unfold EdgeConfig.loadConfig. intros (v & Hv & Hc)%bind_Ok. injection Hv as <-.
  apply bind_Ok in Hc as (? & _ & Hc). apply bind_Ok in Hc as (? & _ & Hc).
  apply bind_Ok in Hc as (? & _ & Hc). apply bind_Ok in Hc as (? & _ & Hc).
  apply bind_Ok in Hc as (? & _ & [= <-]). done.
Qed.

(** A client finds its edge: a demo client and an edge started without flags in
    environments with the same public domain, where no edge address is configured, agree:
    the tunnel accepts the client's configuration, so that the demo ends only as its tunnel
    does; it dials the edge's own host at port 443, and there its gRPC requests are routed
    to the tunnel endpoint. *)
Theorem demo_dials_edge environ environ' homeDir c e :
  loadConfig [] (getenv environ) = Ok c → TrimSpace (environ "MUXBRIDGE_EDGE_ADDR") = "" →
  EdgeConfig.loadConfig [] (getenv environ') homeDir = Ok e →
  environ' publicDomainEnv = environ publicDomainEnv →
  dns_domain (EdgeConfig.PublicDomain e) →
  (∃ cl, Client.New (tunnel_config c) = Ok cl)
  ∧ (∀ attempts, (run [] (getenv environ) attempts).2 = option_map (option_map RunFailed) (Client.Run attempts))
  ∧ EdgeAddr c = EdgeConfig.EdgeDomain e +:+ ":443"
  ∧ ∀ s r, r_Host r = EdgeAddr c → EdgeMain.isGRPCRequest 2 (r_Header r) = true →
      EdgeMain.https_route e s r 2 = EdgeMain.ToGRPC.
Proof.
  intros Hc Haddr He Henv Hd. pose proof (edge_loaded_domain _ _ _ He) as Hpd.
  unfold run. rewrite Hc.
  unfold getenv in Hpd. rewrite Henv in Hpd. apply EdgeConfig.loadConfig_ok in He.
  unfold loadConfig, getenv in Hc. apply bind_Ok in Hc as (v & Hv & Hc). injection Hv as <-.
  cbn [PublicDomain EdgeAddr Token Debug] in Hc. rewrite Haddr in Hc.
  change (TrimSpace "") with "" in Hc. rewrite (bool_decide_true ("" = "")) in Hc by done.
  apply bind_Ok in Hc as (? & _ & Hc). apply bind_Ok in Hc as (? & _ & [= <-]).
  cbn [EdgeAddr].
  change "MUXBRIDGE_PUBLIC_DOMAIN" with publicDomainEnv. rewrite TrimSpace_idemp, <-Hpd.
  assert (dns_label "edge") as Hedge by (by apply ValidateLabel_Ok).
  pose proof (Subdomain_dns "edge" _ Hedge Hd) as [Hs Hsd].
  rewrite <-(EdgeConfig.cfg_edge e He) in Hs, Hsd |- *.
  assert (∃ cl, Client.New (tunnel_config (mkDemoConfig (EdgeConfig.PublicDomain e)
    (EdgeConfig.EdgeDomain e +:+ ":443")
    (TrimSpace (defaultString (getenv environ "MUXBRIDGE_CLIENT_TOKEN") "demo-token"))
    (parseBoolString (getenv environ "MUXBRIDGE_DEBUG")))) = Ok cl) as [cl Hcl].
  { unfold Client.New, tunnel_config, getenv. simpl.
    rewrite (bool_decide_false (_ +:+ ":443" = "")).
    2: { intros E%(f_equal String.length). rewrite length_app_str in E. simpl in E. lia. }
    simpl.
    assert (TrimSpace (defaultString (TrimSpace (environ "MUXBRIDGE_CLIENT_TOKEN")) "demo-token") ≠ "")
      as Htok.
    { unfold defaultString. case_bool_decide as E; [done|]. by rewrite TrimSpace_idemp. }
    rewrite bool_decide_false by done. simpl. by eexists. }
  split; [by eexists|]. split; [|split; [reflexivity|]].
  - intros attempts. unfold getenv in Hcl. by rewrite Hcl.
  - intros s r Hr Hg. by eapply route_grpc.
Qed.
End demo.

(** ** Examples *)

Import Scenario.


Definition client_environ (key : string) : string :=
  if bool_decide (key = publicDomainEnv) then " Example.com" else "".

Example demo_dials_edge_witness :
  ∃ c e, loadConfig [] (getenv client_environ) = Ok c
    ∧ EdgeConfig.loadConfig [] (getenv client_environ) None = Ok e
    ∧ EdgeAddr c = "edge.example.com:443"
    ∧ EdgeAddr c = EdgeConfig.EdgeDomain e +:+ ":443".
Proof.
  eexists. eexists. split; [vm_compute; reflexivity|]. split; [vm_compute; reflexivity|].
  split; [reflexivity|].
  refine (proj1 (proj2 (proj2 (demo_dials_edge client_environ client_environ None _ _
    eq_refl eq_refl eq_refl eq_refl _)))).
  change (dns_domain (NormalizeHost "example.com")). apply ValidateDomain_Ok. vm_compute. reflexivity.
Defined.
End DemoClient.
