(* ===== verification/PerfStats.v ===== *)
(** * cmd/perf-client/main.go: the statistics of a load test.

    The latency histogram and the summary a run's results are recorded in.  A Go slice
    access out of range and a division by zero are [None]; the theorems show that
    neither happens. *)

From S2P Require Import Prelude GoStrings GoFlag GoNumbers Channels.

Module PerfStats.
Local Open Scope Z_scope.

Definition microsecond : Z := 1000.
Definition millisecond : Z := 1000000.
Definition second : Z := 1000000000.
Definition latencyBucketWidth : Z := millisecond.
Definition latencyBucketLimit : Z := 60 * second.

(** ** Data *)

Record requestResult := mkResult {
  StatusCode : Z;
  Bytes : Z;
  Latency : Z;
  Err : option GoError }.

Record latencyHistogram := mkHistogram {
  bucketWidth : Z;
  overflowFrom : Z;
  buckets : list Z;
  total : Z }.

Record loadSummary := mkSummary {
  PublicHost : string;
  Scenario : string;
  Connections : Z;
  PlannedDuration : Z;
  StartedAt : Z;
  EndedAt : Z;
  TotalRequests : Z;
  SuccessfulResponses : Z;
  RequestErrors : Z;
  ResponseBytes : Z;
  StatusCounts : gmap Z Z;
  MinLatency : Z;
  MaxLatency : Z;
  LatencySum : Z;
  LatencyHistogram : latencyHistogram }.

(** ** The histogram *)

Definition newLatencyHistogram (bucketWidth overflowFrom : Z) : option latencyHistogram :=
  if bucketWidth =? 0 then None
  else
    let bucketCount := Z.quot overflowFrom bucketWidth in
    let bucketCount := if Z.rem overflowFrom bucketWidth =? 0 then bucketCount else bucketCount + 1 in
    if bucketCount + 1 <? 0 then None
    else Some (mkHistogram bucketWidth overflowFrom (replicate (Z.to_nat (bucketCount + 1)) 0) 0).

(** The bucket of a latency. *)
Definition bucket_index (h : latencyHistogram) (latency : Z) : option Z :=
  let latency := if latency <? 0 then 0 else latency in
  if latency <? overflowFrom h then
    if bucketWidth h =? 0 then None else Some (Z.quot latency (bucketWidth h))
  else Some (Z.of_nat (length (buckets h)) - 1).

Definition Observe (h : latencyHistogram) (latency : Z) : option latencyHistogram :=
  index ← bucket_index h latency;
  if index <? 0 then None
  else
    let i := Z.to_nat index in
    count ← buckets h !! i;
    Some (mkHistogram (bucketWidth h) (overflowFrom h) (<[i := wrap_u64 (count + 1)]> (buckets h))
            (wrap_u64 (total h + 1))).

(** The rank [Percentile] looks for, in the arithmetic of float64. *)
Definition percentile_rank (percent : float64) (total : Z) : Z :=
  let target := f64_ceil (f64_mul (f64_div percent (f64_of_Z 100)) (f64_of_Z total)) in
  if target =? 0 then 1 else target.

(** The loop of [Percentile] from the bucket [index] on. *)
Fixpoint scan (h : latencyHistogram) (target : Z) (seen : Z) (index : nat) (counts : list Z) : Z :=
  match counts with
  | [] => overflowFrom h
  | count :: counts =>
    let seen := wrap_u64 (seen + count) in
    if seen <? target then scan h target seen (S index) counts
    else if (index =? length (buckets h) - 1)%nat then overflowFrom h
    else Z.of_nat index * bucketWidth h
  end.

(** Observations one after the other. *)
Fixpoint observe_all (h : latencyHistogram) (ls : list Z) : option latencyHistogram :=
  match ls with
  | [] => Some h
  | l :: ls => h ← Observe h l; observe_all h ls
  end.

Definition Percentile (h : latencyHistogram) (percent : float64) : Z :=
  if total h =? 0 then 0
  else if f64_le percent (f64_of_Z 0) then 0
  else
    let percent := if f64_le (f64_of_Z 100) percent then f64_of_Z 100 else percent in
    scan h (percentile_rank percent (total h)) 0 0 (buckets h).

(** ** The summary *)

Definition newLoadSummary (publicHost scenarioName : string) (connections duration startedAt : Z)
    : option loadSummary :=
  h ← newLatencyHistogram latencyBucketWidth latencyBucketLimit;
  Some (mkSummary publicHost scenarioName connections duration startedAt 0 0 0 0 0 ∅ 0 0 0 h).

Definition Record_result (s : loadSummary) (r : requestResult) : option loadSummary :=
  h ← Observe (LatencyHistogram s) (Latency r);
  let failed := match Err r with Some _ => true | None => false end in
  Some (mkSummary (PublicHost s) (Scenario s) (Connections s) (PlannedDuration s) (StartedAt s)
    (EndedAt s)
    (wrap_u64 (TotalRequests s + 1))
    (if failed then SuccessfulResponses s else wrap_u64 (SuccessfulResponses s + 1))
    (if failed then wrap_u64 (RequestErrors s + 1) else RequestErrors s)
    (if 0 <? Bytes r then wrap_u64 (ResponseBytes s + Bytes r) else ResponseBytes s)
    (if 0 <? StatusCode r
     then <[StatusCode r := wrap_u64 (default 0 (StatusCounts s !! StatusCode r) + 1)]> (StatusCounts s)
     else StatusCounts s)
    (if (MinLatency s =? 0) || (Latency r <? MinLatency s) then Latency r else MinLatency s)
    (if MaxLatency s <? Latency r then Latency r else MaxLatency s)
    (wrap_i64 (LatencySum s + Latency r))
    h).

(** Every result of the channel, in order. *)
Fixpoint record_all (s : loadSummary) (rs : list requestResult) : option loadSummary :=
  match rs with
  | [] => Some s
  | r :: rs => s ← Record_result s r; record_all s rs
  end.

Definition elapsed (s : loadSummary) : Z :=
  if StartedAt s <? EndedAt s then EndedAt s - StartedAt s else PlannedDuration s.

Definition avgLatency (s : loadSummary) : Z :=
  if TotalRequests s =? 0 then 0 else Z.quot (LatencySum s) (wrap_i64 (TotalRequests s)).

Definition formatStatusCounts (statusCounts : gmap Z Z) : string :=
  Join ((λ status, Itoa status +:+ "=" +:+ Itoa (default 0 (statusCounts !! status)))
          <$> merge_sort Z.le (map_to_list statusCounts).*1) " ".

(** ** Which bucket a latency is in *)

Section histogram.
Context (w o : Z) (Hw : 0 < w) (Ho : 0 < o).

(** The number of buckets before the last one, which takes what is not below [o]. *)
Definition bucket_count : nat := Z.to_nat ((o + w - 1) `div` w).

Definition bucket_of (l : Z) : nat :=
  if Z.max 0 l <? o then Z.to_nat (Z.max 0 l `div` w) else bucket_count.

(** The lower end of a latency's bucket. *)
Definition bucket_floor (l : Z) : Z :=
  if Z.max 0 l <? o then Z.max 0 l `div` w * w else o.

Lemma bucket_of_lt l : Z.max 0 l < o → (bucket_of l < bucket_count)%nat.
Proof.
  intros Hl. unfold bucket_of, bucket_count. rewrite (proj2 (Z.ltb_lt _ _) Hl).
  assert (0 ≤ Z.max 0 l `div` w) by (apply Z.div_pos; lia).
  assert (Z.max 0 l `div` w < (o + w - 1) `div` w).
  { apply Z.div_lt_upper_bound; [lia|].
    pose proof (Z.mul_succ_div_gt (o + w - 1) w Hw) as Hgt. rewrite Z.mul_succ_r in Hgt. lia. }
  lia.
Qed.

Lemma bucket_of_le l : (bucket_of l ≤ bucket_count)%nat.
Proof.
  destruct (Z.ltb_spec (Z.max 0 l) o) as [Hl|Hl]; [pose proof (bucket_of_lt l Hl); lia|].
  unfold bucket_of. by rewrite (proj2 (Z.ltb_ge _ _) Hl).
Qed.

Lemma bucket_of_mono l l' : l ≤ l' → (bucket_of l ≤ bucket_of l')%nat.
Proof.
  intros Hle. destruct (Z.ltb_spec (Z.max 0 l') o) as [Hl'|Hl'].
  - unfold bucket_of. rewrite (proj2 (Z.ltb_lt _ _) Hl'), (proj2 (Z.ltb_lt (Z.max 0 l) o)) by lia.
    apply Z2Nat.inj_le; [apply Z.div_pos; lia..|]. apply Z.div_le_mono; lia.
  - unfold bucket_of at 2. rewrite (proj2 (Z.ltb_ge _ _) Hl'). apply bucket_of_le.
Qed.

Lemma bucket_floor_index l :
  bucket_floor l = if (bucket_of l =? bucket_count)%nat then o else Z.of_nat (bucket_of l) * w.
Proof.
  unfold bucket_floor. destruct (Z.ltb_spec (Z.max 0 l) o) as [Hl|Hl].
  - pose proof (bucket_of_lt l Hl) as Hlt. rewrite (proj2 (Nat.eqb_neq _ _)) by lia.
    unfold bucket_of. rewrite (proj2 (Z.ltb_lt _ _) Hl), Z2Nat.id; [done|]. apply Z.div_pos; lia.
  - unfold bucket_of. by rewrite (proj2 (Z.ltb_ge _ _) Hl), Nat.eqb_refl.
Qed.

(** How many of some latencies are in a bucket, and how many before it. *)
Definition in_bucket (i : nat) (ls : list Z) : nat := length (filter (λ l, bucket_of l = i) ls).
Definition before_bucket (i : nat) (ls : list Z) : nat := length (filter (λ l, (bucket_of l < i)%nat) ls).

Record holds_latencies (ls : list Z) (h : latencyHistogram) : Prop := {
  hist_width : bucketWidth h = w;
  hist_from : overflowFrom h = o;
  hist_length : length (buckets h) = S bucket_count;
  hist_total : total h = Z.of_nat (length ls);
  hist_buckets : ∀ i, (i ≤ bucket_count)%nat → buckets h !! i = Some (Z.of_nat (in_bucket i ls)) }.

Lemma newLatencyHistogram_holds : ∃ h, newLatencyHistogram w o = Some h ∧ holds_latencies [] h.
Proof.
  unfold newLatencyHistogram. rewrite (proj2 (Z.eqb_neq w 0)), Z.quot_div_nonneg, Z.rem_mod_nonneg by lia.
  assert ((if o mod w =? 0 then o `div` w else o `div` w + 1) = (o + w - 1) `div` w) as ->.
  { pose proof (Z.div_mod o w ltac:(lia)) as Hdm. pose proof (Z.mod_pos_bound o w Hw).
    destruct (Z.eqb_spec (o mod w) 0) as [Hm|Hm].
    - apply (Z.div_unique_pos _ _ _ (w - 1)); lia.
    - apply (Z.div_unique_pos _ _ _ (o mod w - 1)); lia. }
  assert (0 ≤ (o + w - 1) `div` w) as Hnn by (apply Z.div_pos; lia).
  rewrite (proj2 (Z.ltb_ge _ 0)) by lia. eexists. split; [done|].
  assert (Z.to_nat ((o + w - 1) `div` w + 1) = S bucket_count) as Hn by (unfold bucket_count; lia).
  constructor; simpl; rewrite ?Hn; try done.
  - by rewrite length_replicate.
  - intros i Hi. by apply lookup_replicate_2; lia.
Qed.

Lemma in_bucket_snoc i ls l :
  in_bucket i (ls ++ [l]) = (in_bucket i ls + if decide (bucket_of l = i) then 1 else 0)%nat.
Proof.
  unfold in_bucket. rewrite filter_app, length_app. rewrite filter_cons, filter_nil. by case_decide.
Qed.

Lemma length_filter_le_length {A} (P : A → Prop) `{!∀ x, Decision (P x)} ls :
  (length (filter P ls) ≤ length ls)%nat.
Proof. apply length_filter. Qed.

Lemma Observe_holds ls h l :
  holds_latencies ls h → Z.of_nat (length ls) + 1 < 2^64 →
  ∃ h', Observe h l = Some h' ∧ holds_latencies (ls ++ [l]) h'.
Proof.
  intros [Hwi Hfr Hlen Htot Hb] Hlt.
  assert (bucket_index h l = Some (Z.of_nat (bucket_of l))) as Hidx.
  { unfold bucket_index, bucket_of. rewrite Hwi, Hfr, Hlen.
    assert ((if l <? 0 then 0 else l) = Z.max 0 l) as -> by (destruct (Z.ltb_spec l 0); lia).
    destruct (Z.ltb_spec (Z.max 0 l) o).
    - rewrite (proj2 (Z.eqb_neq w 0)), Z.quot_div_nonneg, Z2Nat.id by (try apply Z.div_pos; lia). done.
    - f_equal. lia. }
  unfold Observe. rewrite Hidx. simpl. rewrite (proj2 (Z.ltb_ge _ 0)), Nat2Z.id by lia.
  rewrite (Hb _ (bucket_of_le l)). simpl. eexists. split; [done|].
  assert (Z.of_nat (in_bucket (bucket_of l) ls) ≤ Z.of_nat (length ls)) as Hle.
  { apply Nat2Z.inj_le, length_filter_le_length. }
  constructor; simpl; try done.
  - by rewrite length_insert.
  - rewrite Htot, length_app, wrap_u64_small by lia. simpl. lia.
  - intros i Hi. rewrite in_bucket_snoc. case_decide as Hi'.
    + subst i. rewrite list_lookup_insert_eq by (rewrite Hlen; lia).
      rewrite wrap_u64_small by lia. f_equal. lia.
    + rewrite list_lookup_insert_ne, Hb by done. f_equal. lia.
Qed.

(** ** The rank of a latency *)

Lemma before_bucket_S i ls : before_bucket (S i) ls = (before_bucket i ls + in_bucket i ls)%nat.
Proof.
  unfold before_bucket, in_bucket. induction ls as [|l ls IH]; [done|].
  rewrite !filter_cons. repeat case_decide; simpl; lia.
Qed.

Lemma before_bucket_0 ls : before_bucket 0 ls = 0%nat.
Proof.
  unfold before_bucket. induction ls as [|l ls IH]; [done|].
  rewrite filter_cons, decide_False by lia. done.
Qed.

Lemma before_bucket_perm i ls ls' : ls ≡ₚ ls' → before_bucket i ls = before_bucket i ls'.
Proof. intros Hp. unfold before_bucket. by rewrite Hp. Qed.

(** In a sorted list: the latencies before the bucket of the one at position [n] are at
    positions before [n], and those up to its bucket are at least [n + 1]. *)
Lemma before_bucket_sorted s n x :
  StronglySorted Z.le s → s !! n = Some x →
  (∀ j, (j ≤ bucket_of x)%nat → (before_bucket j s ≤ n)%nat)
  ∧ (∀ j, (bucket_of x < j)%nat → (n < before_bucket j s)%nat).
Proof.
  intros Hs Hn. revert n Hn. induction Hs as [|a s Hs IH Ha]; intros n Hn; [done|].
  rewrite Forall_forall in Ha. unfold before_bucket in *.
  destruct n as [|n]; simpl in Hn.
  - injection Hn as ->. split; intros j Hj; rewrite filter_cons.
    + rewrite decide_False by lia. assert (filter (λ l, (bucket_of l < j)%nat) s = []) as ->; [|simpl; lia].
      apply elem_of_nil_inv. intros y [Hyj Hy]%list_elem_of_filter. pose proof (bucket_of_mono _ _ (Ha y Hy)). lia.
    + rewrite decide_True by done. simpl. lia.
  - destruct (IH n Hn) as [IH1 IH2]. split; intros j Hj; rewrite filter_cons.
    + specialize (IH1 j Hj). case_decide; simpl; lia.
    + specialize (IH2 j Hj). rewrite decide_True; [simpl; lia|].
      pose proof (bucket_of_mono _ _ (Ha x (list_elem_of_lookup_2 _ _ _ Hn))). lia.
Qed.

Lemma observe_all_holds ls0 ls h :
  holds_latencies ls0 h → Z.of_nat (length (ls0 ++ ls)) < 2^64 →
  ∃ h', observe_all h ls = Some h' ∧ holds_latencies (ls0 ++ ls) h'.
Proof.
  revert ls0 h. induction ls as [|l ls IH]; intros ls0 h Hh Hlt; simpl.
  { exists h. by rewrite app_nil_r. }
  rewrite length_app in Hlt. simpl in Hlt.
  destruct (Observe_holds ls0 h l Hh ltac:(lia)) as (h1 & -> & Hh1). simpl.
  destruct (IH (ls0 ++ [l]) h1 Hh1) as (h' & Hh' & Hok).
  { rewrite !length_app. simpl. lia. }
  exists h'. by rewrite <-app_assoc in Hok.
Qed.

Lemma scan_rank ls h s n x i :
  holds_latencies ls h → Z.of_nat (length ls) < 2^64 → s ≡ₚ ls → StronglySorted Z.le s →
  s !! n = Some x → (i ≤ bucket_of x)%nat →
  scan h (Z.of_nat n + 1) (Z.of_nat (before_bucket i ls)) i (drop i (buckets h)) = bucket_floor x.
Proof.
  intros Hh Hlt Hs Hsort Hn Hi. pose proof Hh as [Hw' Hfr Hlen _ Hb].
  destruct (before_bucket_sorted s n x Hsort Hn) as [Hbelow Habove].
  setoid_rewrite (before_bucket_perm _ _ _ Hs) in Hbelow.
  setoid_rewrite (before_bucket_perm _ _ _ Hs) in Habove.
  pose proof (bucket_of_le x) as Hx.
  remember (bucket_of x - i)%nat as d eqn:Hd. revert i Hi Hd.
  induction d as [|d IH]; intros i Hi Hd; rewrite (drop_S _ _ _ (Hb i ltac:(lia))); cbn [scan];
    rewrite <-Nat2Z.inj_add, <-before_bucket_S.
  all: assert (before_bucket (S i) ls ≤ length ls)%nat as Hle by apply length_filter_le_length.
  all: rewrite wrap_u64_small by lia.
  - assert (i = bucket_of x) as -> by lia. specialize (Habove (S (bucket_of x)) ltac:(lia)).
    rewrite (proj2 (Z.ltb_ge _ _)), Hlen, bucket_floor_index, Hfr, Hw' by lia.
    by rewrite Nat.sub_1_r.
  - specialize (Hbelow (S i) ltac:(lia)). rewrite (proj2 (Z.ltb_lt _ _)) by lia.
    apply IH; lia.
Qed.
End histogram.

Lemma sort_strongly ls : StronglySorted Z.le (merge_sort Z.le ls).
Proof. apply (StronglySorted_merge_sort Z.le). Qed.

(** ** The summary *)

(** How many results satisfy a test. *)
Definition count (f : requestResult → bool) (rs : list requestResult) : Z :=
  Z.of_nat (length (filter f rs)).

Definition failed (r : requestResult) : bool := bool_decide (is_Some (Err r)).
Definition has_status (k : Z) (r : requestResult) : bool := StatusCode r =? k.

Lemma count_snoc f rs r : count f (rs ++ [r]) = count f rs + if f r then 1 else 0.
Proof.
  unfold count. rewrite filter_app, length_app, filter_cons, filter_nil.
  destruct (f r); simpl; lia.
Qed.

Lemma count_bounds f rs : 0 ≤ count f rs ≤ Z.of_nat (length rs).
Proof. unfold count. pose proof (length_filter_le_length f rs). lia. Qed.

Definition sum_bytes (rs : list requestResult) : Z := foldr (λ r n, Z.max 0 (Bytes r) + n) 0 rs.
Definition sum_latency (rs : list requestResult) : Z := foldr (λ r n, Latency r + n) 0 rs.

Lemma foldr_sum_snoc (f : requestResult → Z) rs r :
  foldr (λ r n, f r + n) 0 (rs ++ [r]) = foldr (λ r n, f r + n) 0 rs + f r.
Proof. induction rs as [|x rs IH]; simpl in *; lia. Qed.

(** What a summary says about the results recorded in it. *)
Record summarises (rs : list requestResult) (s : loadSummary) : Prop := {
  sum_total : TotalRequests s = Z.of_nat (length rs);
  sum_success : SuccessfulResponses s = count (negb ∘ failed) rs;
  sum_errors : RequestErrors s = count failed rs;
  sum_statuses : ∀ k, StatusCounts s !! k =
    if (0 <? k) && (0 <? count (has_status k) rs) then Some (count (has_status k) rs) else None;
  sum_response : ResponseBytes s = wrap_u64 (sum_bytes rs);
  sum_histogram : holds_latencies latencyBucketWidth latencyBucketLimit (Latency <$> rs) (LatencyHistogram s);
  sum_latencies : (∀ r, r ∈ rs → 0 < Latency r) → sum_latency rs < 2^63 →
    LatencySum s = sum_latency rs ∧
    match rs with
    | [] => MinLatency s = 0 ∧ MaxLatency s = 0
    | _ => MinLatency s ∈ Latency <$> rs ∧ MaxLatency s ∈ Latency <$> rs
           ∧ ∀ r, r ∈ rs → MinLatency s ≤ Latency r ≤ MaxLatency s
    end }.

Lemma sum_latency_nonneg rs : (∀ r, r ∈ rs → 0 < Latency r) → 0 ≤ sum_latency rs.
Proof.
  induction rs as [|r rs IH]; intros Hp; simpl; [done|].
  pose proof (Hp r ltac:(left)). pose proof (IH (λ x Hx, Hp x ltac:(by right))). lia.
Qed.

(** The statuses after one more result. *)
Lemma statuses_snoc rs r s k :
  summarises rs s → Z.of_nat (length rs) + 1 < 2^64 →
  (if 0 <? StatusCode r
   then <[StatusCode r := wrap_u64 (default 0 (StatusCounts s !! StatusCode r) + 1)]> (StatusCounts s)
   else StatusCounts s) !! k =
  if (0 <? k) && (0 <? count (has_status k) (rs ++ [r]))
  then Some (count (has_status k) (rs ++ [r])) else None.
Proof.
  intros Hs Hlt. pose proof (count_bounds (has_status k) rs) as Hb.
  rewrite count_snoc. unfold has_status at 2 4.
  destruct (Z.eqb_spec (StatusCode r) k) as [Hk|Hk].
  - subst k. destruct (Z.ltb_spec 0 (StatusCode r)) as [Hpos|Hpos]; simpl.
    + rewrite lookup_insert_eq, (sum_statuses rs s Hs), (proj2 (Z.ltb_lt 0 (StatusCode r))) by done.
      rewrite (proj2 (Z.ltb_lt 0 (_ + 1))) by lia. simpl. f_equal.
      destruct (Z.ltb_spec 0 (count (has_status (StatusCode r)) rs)); simpl;
        rewrite wrap_u64_small; lia.
    + rewrite (sum_statuses rs s Hs). by rewrite (proj2 (Z.ltb_ge 0 (StatusCode r))).
  - rewrite Z.add_0_r, <-(sum_statuses rs s Hs k).
    destruct (0 <? StatusCode r); [by rewrite lookup_insert_ne|done].
Qed.

(** The extremes after one more result. *)
Lemma latencies_snoc rs r s :
  summarises rs s → (∀ x, x ∈ rs ++ [r] → 0 < Latency x) → sum_latency (rs ++ [r]) < 2^63 →
  let min := if (MinLatency s =? 0) || (Latency r <? MinLatency s) then Latency r else MinLatency s in
  let max := if MaxLatency s <? Latency r then Latency r else MaxLatency s in
  wrap_i64 (LatencySum s + Latency r) = sum_latency (rs ++ [r])
  ∧ min ∈ Latency <$> rs ++ [r] ∧ max ∈ Latency <$> rs ++ [r]
  ∧ ∀ x, x ∈ rs ++ [r] → min ≤ Latency x ≤ max.
Proof.
  intros Hs Hpos Hlt. cbv zeta. assert (∀ x, x ∈ rs → 0 < Latency x) as Hpos' by set_solver.
  pose proof (Hpos r ltac:(set_solver)) as Hr. pose proof (sum_latency_nonneg rs Hpos') as Hnn.
  unfold sum_latency in Hlt |- *. rewrite foldr_sum_snoc in Hlt |- *. fold (sum_latency rs) in Hlt |- *.
  destruct (sum_latencies rs s Hs Hpos' ltac:(lia)) as [Hsum Hext].
  split; [rewrite Hsum; apply wrap_i64_small; lia|].
  setoid_rewrite list_elem_of_fmap. setoid_rewrite elem_of_app. setoid_rewrite list_elem_of_singleton.
  destruct rs as [|r0 rs].
  - destruct Hext as [-> ->]. simpl. rewrite (proj2 (Z.ltb_lt 0 _)) by done.
    split_and!; [naive_solver..|]. intros x [Hx| ->]; [by apply elem_of_nil in Hx|lia].
  - set (l := r0 :: rs) in *. destruct Hext as (Hmin & Hmax & Hall).
    apply list_elem_of_fmap in Hmin as (x & Hx & Hxin), Hmax as (y & Hy & Hyin).
    pose proof (Hpos' x Hxin). rewrite (proj2 (Z.eqb_neq (MinLatency s) 0)) by lia. simpl.
    split_and!.
    + destruct (Z.ltb_spec (Latency r) (MinLatency s)); [by exists r; auto|by exists x; auto].
    + destruct (Z.ltb_spec (MaxLatency s) (Latency r)); [by exists r; auto|by exists y; auto].
    + intros z [Hz| ->].
      * specialize (Hall z Hz). destruct (Z.ltb_spec (Latency r) (MinLatency s)),
          (Z.ltb_spec (MaxLatency s) (Latency r)); lia.
      * destruct (Z.ltb_spec (Latency r) (MinLatency s)),
          (Z.ltb_spec (MaxLatency s) (Latency r)); lia.
Qed.

Lemma Record_summarises rs s r :
  summarises rs s → Z.of_nat (length rs) + 1 < 2^64 →
  ∃ s', Record_result s r = Some s' ∧ summarises (rs ++ [r]) s'.
Proof.
  intros Hs Hlt. pose proof (count_bounds failed rs). pose proof (count_bounds (negb ∘ failed) rs).
  destruct (Observe_holds latencyBucketWidth latencyBucketLimit eq_refl eq_refl (Latency <$> rs)
    (LatencyHistogram s) (Latency r) (sum_histogram rs s Hs)) as (h & Hh & Hok).
  { rewrite length_fmap. lia. }
  unfold Record_result. rewrite Hh. simpl. eexists. split; [done|].
  assert ((match Err r with Some _ => true | None => false end) = failed r) as Hf.
  { unfold failed. destruct (Err r); [by rewrite bool_decide_true|]. by rewrite bool_decide_false by (by intros [? ?]). }
  rewrite Hf. constructor; simpl.
  - rewrite (sum_total rs s Hs), length_app, wrap_u64_small by lia. simpl. lia.
  - rewrite count_snoc, (sum_success rs s Hs). simpl. destruct (failed r); simpl; [lia|].
    apply wrap_u64_small. lia.
  - rewrite count_snoc, (sum_errors rs s Hs). destruct (failed r); [|lia].
    apply wrap_u64_small. lia.
  - intros k. by apply statuses_snoc.
  - rewrite (sum_response rs s Hs). unfold sum_bytes. rewrite foldr_sum_snoc. unfold wrap_u64.
    destruct (Z.ltb_spec 0 (Bytes r)).
    + rewrite Zplus_mod_idemp_l. f_equal. lia.
    + f_equal. lia.
  - by rewrite fmap_app.
  - intros Hpos Hsum. destruct (latencies_snoc rs r s Hs Hpos Hsum) as (? & ? & ? & ?).
    split; [done|]. by destruct rs.
Qed.

Lemma record_all_summarises rs0 rs s :
  summarises rs0 s → Z.of_nat (length (rs0 ++ rs)) < 2^64 →
  ∃ s', record_all s rs = Some s' ∧ summarises (rs0 ++ rs) s'.
Proof.
  revert rs0 s. induction rs as [|r rs IH]; intros rs0 s Hs Hlt; simpl.
  { exists s. by rewrite app_nil_r. }
  rewrite length_app in Hlt. simpl in Hlt.
  destruct (Record_summarises rs0 s r Hs ltac:(lia)) as (s1 & -> & Hs1). simpl.
  destruct (IH (rs0 ++ [r]) s1 Hs1) as (s' & Hs' & Hok).
  { rewrite !length_app. simpl. lia. }
  exists s'. by rewrite <-app_assoc in Hok.
Qed.

Lemma new_summarises host name n d at_ :
  ∃ s, newLoadSummary host name n d at_ = Some s ∧ summarises [] s.
Proof.
  destruct (newLatencyHistogram_holds latencyBucketWidth latencyBucketLimit eq_refl eq_refl)
    as (h & Hh & Hok). unfold newLoadSummary. rewrite Hh. simpl. eexists. split; [done|].
  constructor; simpl; try done. intros k. by destruct (0 <? k).
Qed.

Lemma count_partition rs : count (negb ∘ failed) rs + count failed rs = Z.of_nat (length rs).
Proof.
  induction rs as [|r rs IH] using rev_ind; [done|].
  rewrite !count_snoc, length_app. simpl. destruct (failed r); simpl; lia.
Qed.

Lemma sum_latency_bounds rs lo hi :
  (∀ r, r ∈ rs → lo ≤ Latency r ≤ hi) →
  lo * Z.of_nat (length rs) ≤ sum_latency rs ≤ hi * Z.of_nat (length rs).
Proof.
  induction rs as [|r rs IH]; intros Hr; simpl; [lia|].
  pose proof (Hr r ltac:(left)). pose proof (IH (λ x Hx, Hr x ltac:(by right))). lia.
Qed.


Lemma Record_minimum s r s' :
  Record_result s r = Some s' → MinLatency s = 0 → MinLatency s' = Latency r.
Proof.
  unfold Record_result. intros (h & _ & [= <-])%bind_Some Hmin. simpl. by rewrite Hmin.
Qed.

(** A latency of zero is lost as the minimum: [Record] takes a minimum of zero for no
    minimum yet, so after a response in no time the next one, however slow, is the
    minimum. *)
Theorem zero_minimum_lost l :
  ∃ s0 s, newLoadSummary "" "" 1 1 0 = Some s0
    ∧ record_all s0 [mkResult 200 0 0 None; mkResult 200 0 l None] = Some s
    ∧ MinLatency s = l.
Proof.
  destruct (new_summarises "" "" 1 1 0) as (s0 & H0 & Hs0).
  destruct (Record_summarises [] s0 (mkResult 200 0 0 None) Hs0 eq_refl) as (s1 & H1 & Hs1).
  destruct (Record_summarises _ s1 (mkResult 200 0 l None) Hs1 eq_refl) as (s2 & H2 & _).
  exists s0, s2. split; [done|]. split; [simpl; rewrite H1; simpl; by rewrite H2|].
  apply (Record_minimum s1 _ s2 H2). apply (Record_minimum s0 _ s1 H1).
  unfold newLoadSummary in H0. by apply bind_Some in H0 as (h & _ & [= <-]).
Qed.

Definition some_latencies : list Z :=
  [7 * millisecond; 3 * millisecond + 1; 90 * second; 5 * millisecond].


Definition some_results : list requestResult :=
  [mkResult 200 10 5 None; mkResult 0 0 9 (Some ContextDeadlineExceeded); mkResult 200 3 2 None].

End PerfStats.
