(* ===== verification/PerfClient.v ===== *)
(** * cmd/perf-client/main.go: configuration, scenarios and handlers.

    The command's flags, the mix of requests its workers send, and the handlers behind
    its tunnel. *)

From S2P Require Import Prelude GoStrings GoFlag GoNumbers Hostnames Proto Headers Channels.
From S2P Require Import ResponseState Server Steps Scenario ResponseWriter Client DemoClient.
From S2P Require Import PerfStats.

Module PerfClient.

Definition defaultPerfToken : string := "perf-token".
Definition defaultConnections : Z := 1000.
Definition defaultDuration : Z := 30 * PerfStats.second.
Definition defaultRequestTimeout : Z := 10 * PerfStats.second.
Definition defaultReadyTimeout : Z := 30 * PerfStats.second.
Definition defaultScenario : string := "mixed".
Definition defaultBytesBodySize : nat := 64 * 1024.
Definition defaultReadyPollPeriod : Z := 500 * PerfStats.millisecond.
Definition perfStreamChunkCount : nat := 8.

Record perfConfig := mkPerfConfig {
  PublicHost : string;
  PublicDomain : string;
  EdgeAddr : string;
  Token : string;
  Scenario : string;
  Connections : Z;
  Duration : Z;
  RequestTimeout : Z;
  ReadyTimeout : Z;
  Debug : bool }.

Record scenario := mkScenario { Name : string; Requests : list string }.

Inductive load_err :=
| FlagError (e : flag_err)
| HostRequired
| InvalidHost (e : domain_err)
| DomainRequired
| InvalidDomain (e : domain_err)
| BadConnections
| BadDuration
| BadRequestTimeout
| BadReadyTimeout
| UnknownScenario (name : string).

(** ** Scenarios *)

Definition requestFor (s : scenario) (workerID iteration : Z) : option string :=
  if (length (Requests s) =? 0)%nat then Some "/fast"
  else
    let i := Z.rem (wrap_i64 (workerID + iteration)) (Z.of_nat (length (Requests s))) in
    if (i <? 0)%Z then None else Requests s !! Z.to_nat i.

Definition mixed_requests : list string :=
  replicate 16 "/fast" ++ replicate 3 "/bytes" ++ ["/stream"].

(** ** Handlers *)

Definition perfFastBody : string := "muxbridge perf ok" +:+ lf.

(** [bytes.Repeat] of one byte. *)
Fixpoint repeat_byte (c : ascii) (n : nat) : string :=
  match n with O => "" | S n => String c (repeat_byte c n) end.

Definition perfBytesBody : string := repeat_byte "b" defaultBytesBodySize.
Definition perfStreamChunk : string := repeat_byte "s" 1024.

Definition healthz_handler : list hop :=
  [OpHeader {["Content-Type" := ["text/plain; charset=utf-8"]]}; OpWrite ("ok" +:+ lf)].

Definition fast_handler : list hop :=
  [OpHeader (<["Content-Length" := [Itoa (Z.of_nat (String.length perfFastBody))]]>
               {["Content-Type" := ["text/plain; charset=utf-8"]]});
   OpWrite perfFastBody].

Definition bytes_handler (body : string) : list hop :=
  [OpHeader (<["Content-Length" := [Itoa (Z.of_nat (String.length body))]]>
               {["Content-Type" := ["application/octet-stream"]]});
   OpWrite body].

(** The first [chunks] chunks: the loop stops early when a write fails or the context
    ends. *)
Definition stream_handler (chunks : nat) : list hop :=
  OpHeader {["Content-Type" := ["application/octet-stream"]]}
  :: concat (replicate (Nat.min chunks perfStreamChunkCount) [OpWrite perfStreamChunk; OpFlush]).

Definition perf_flags : list (flag perfConfig) :=
  let upd c host domain addr token scn conns dur req ready dbg :=
    mkPerfConfig (default (PublicHost c) host) (default (PublicDomain c) domain)
      (default (EdgeAddr c) addr) (default (Token c) token) (default (Scenario c) scn)
      (default (Connections c) conns) (default (Duration c) dur)
      (default (RequestTimeout c) req) (default (ReadyTimeout c) ready)
      (default (Debug c) dbg) in
  [StringVar "public-host" (λ v c, upd c (Some v) None None None None None None None None None);
   StringVar "public-domain" (λ v c, upd c None (Some v) None None None None None None None None);
   StringVar "edge-addr" (λ v c, upd c None None (Some v) None None None None None None None);
   StringVar "token" (λ v c, upd c None None None (Some v) None None None None None None);
   IntVar "connections" (λ v c, upd c None None None None None (Some v) None None None None);
   DurationVar "duration" (λ v c, upd c None None None None None None (Some v) None None None);
   StringVar "scenario" (λ v c, upd c None None None None (Some v) None None None None None);
   DurationVar "request-timeout" (λ v c, upd c None None None None None None None (Some v) None None);
   DurationVar "ready-timeout" (λ v c, upd c None None None None None None None None (Some v) None);
   BoolVar "debug" (λ v c, upd c None None None None None None None None None (Some v))].

Section perf.
Context `{UnicodeData}.

Definition loadScenario (name : string) : result load_err scenario :=
  let n := ToLower (TrimSpace name) in
  if bool_decide (n = "fast") then Ok (mkScenario "fast" ["/fast"])
  else if bool_decide (n = "stream") then Ok (mkScenario "stream" ["/stream"])
  else if bool_decide (n = "") || bool_decide (n = "mixed")
  then Ok (mkScenario "mixed" mixed_requests)
  else Err (UnknownScenario name).

Definition parseBoolString (value : string) : bool :=
  bool_decide (ToLower (TrimSpace value) ∈ ["1"; "t"; "true"; "y"; "yes"; "on"]).

Definition defaultString (value fallback : string) : string :=
  if bool_decide (value = "") then fallback else value.

(** The defaults the flags start from. *)
Definition initial_config (getenv : string → string) : perfConfig :=
  mkPerfConfig (getenv "MUXBRIDGE_PUBLIC_HOST") (getenv "MUXBRIDGE_PUBLIC_DOMAIN")
    (getenv "MUXBRIDGE_EDGE_ADDR") (defaultString (getenv "MUXBRIDGE_CLIENT_TOKEN") defaultPerfToken)
    defaultScenario defaultConnections defaultDuration defaultRequestTimeout defaultReadyTimeout
    (parseBoolString (getenv "MUXBRIDGE_DEBUG")).

(** The edge address, given or made from the domain. *)
Definition resolve_edge (addr domain : string) : result load_err string :=
  if bool_decide (addr = "") then
    _ ← guard_err (bool_decide (domain = "")) DomainRequired;
    _ ← map_err InvalidDomain (ValidateDomain domain);
    Ok (Subdomain "edge" domain +:+ ":443")
  else Ok addr.

Definition loadConfig (args : list string) (getenv : string → string)
    : result load_err perfConfig :=
  cfg ← map_err FlagError (Parse perf_flags (initial_config getenv) args);
  let publicHost := NormalizeHost (PublicHost cfg) in
  let publicDomain := NormalizeDomain (PublicDomain cfg) in
  let edgeAddr := TrimSpace (EdgeAddr cfg) in
  let token := TrimSpace (Token cfg) in
  let scn := ToLower (TrimSpace (Scenario cfg)) in
  _ ← guard_err (bool_decide (publicHost = "")) HostRequired;
  _ ← map_err InvalidHost (ValidateDomain publicHost);
  edgeAddr ← resolve_edge edgeAddr publicDomain;
  _ ← guard_err (Connections cfg <=? 0)%Z BadConnections;
  _ ← guard_err (Duration cfg <=? 0)%Z BadDuration;
  _ ← guard_err (RequestTimeout cfg <=? 0)%Z BadRequestTimeout;
  _ ← guard_err (ReadyTimeout cfg <=? 0)%Z BadReadyTimeout;
  _ ← loadScenario scn;
  Ok (mkPerfConfig publicHost publicDomain edgeAddr token scn (Connections cfg) (Duration cfg)
        (RequestTimeout cfg) (ReadyTimeout cfg) (Debug cfg)).

Definition publicBaseURL (c : perfConfig) : string := "https://" +:+ PublicHost c.

Definition tunnel_config (c : perfConfig) : Client.Config :=
  Client.mkConfig (EdgeAddr c) "" (Token c) true false 0 0.

(** ** Loading *)

Lemma perf_flags_connections f v c c' :
  f ∈ perf_flags → (- 2^63 ≤ Connections c < 2^63)%Z → f_set f v c = Some c' →
  (- 2^63 ≤ Connections c' < 2^63)%Z.
Proof.
  intros Hf Hc. unfold perf_flags in Hf. cbv zeta in Hf.
  repeat (apply elem_of_cons in Hf as [->|Hf]); try (by apply elem_of_nil in Hf); simpl;
    try (by intros [= <-]);
    try (intros (n & Hn & [= <-])%bind_Some; simpl; try done; by apply ParseInt0_range in Hn).
Qed.

Lemma loadScenario_requests name s : loadScenario name = Ok s → Requests s ≠ [].
Proof. unfold loadScenario. repeat case_bool_decide; simpl; by intros [= <-]. Qed.

Lemma resolve_edge_nonempty addr domain a : resolve_edge addr domain = Ok a → a ≠ "".
Proof.
  unfold resolve_edge. case_bool_decide; [|by intros [= <-]].
  intros (? & _ & Ha)%bind_Ok. apply bind_Ok in Ha as (? & _ & [= <-]).
  intros E%(f_equal String.length). rewrite length_app_str in E. simpl in E. lia.
Qed.

Lemma loadConfig_facts args getenv c :
  loadConfig args getenv = Ok c →
  dns_domain (NormalizeHost (PublicHost c))
  ∧ (∃ s, loadScenario (Scenario c) = Ok s ∧ Requests s ≠ [])
  ∧ (1 ≤ Connections c ≤ max_i64)%Z
  ∧ (0 < Duration c ∧ 0 < RequestTimeout c ∧ 0 < ReadyTimeout c)%Z
  ∧ ((∃ cl, Client.New (tunnel_config c) = Ok cl) ↔ Token c ≠ "").
Proof.
  unfold loadConfig. intros (v & Hv%map_err_Ok & Hc)%bind_Ok.
  assert (- 2^63 ≤ Connections v < 2^63)%Z as Hconn.
  { eapply (Parse_inv (λ c, - 2^63 ≤ Connections c < 2^63)%Z); [apply perf_flags_connections| |exact Hv].
    unfold initial_config, defaultConnections. simpl. lia. }
  apply bind_Ok in Hc as (u1 & _ & Hc). apply bind_Ok in Hc as ([] & Hhost%map_err_Ok & Hc).
  apply bind_Ok in Hc as (addr & Haddr%resolve_edge_nonempty & Hc).
  apply bind_Ok in Hc as (u2 & H2%guard_err_Ok & Hc). apply bind_Ok in Hc as (u3 & H3%guard_err_Ok & Hc).
  apply bind_Ok in Hc as (u4 & H4%guard_err_Ok & Hc). apply bind_Ok in Hc as (u5 & H5%guard_err_Ok & Hc).
  apply bind_Ok in Hc as (s & Hs & [= <-]). rewrite Z.leb_gt in *.
  cbn [PublicHost Scenario Connections Duration RequestTimeout ReadyTimeout Token EdgeAddr tunnel_config].
  split_and!; try done.
  - by apply ValidateDomain_Ok.
  - exists s. split; [done|]. by eapply loadScenario_requests.
  - lia.
  - unfold max_i64. lia.
  - unfold Client.New, tunnel_config. simpl. rewrite (bool_decide_false (addr = "")) by done. simpl.
    case_bool_decide as Ht; simpl; [|naive_solver].
    split; [by intros [? ?]|done].
Qed.

(** C40. What the performance client loads it can run: in a configuration that
    [loadConfig] accepts the public host is a domain name, the scenario has requests, the
    number of connections and the times are positive, the number of connections fits into
    an int64, and the tunnel accepts the configuration exactly when the token is not
    blank. *)
Theorem perf_config args getenv c :
  loadConfig args getenv = Ok c →
  dns_domain (NormalizeHost (PublicHost c))
  ∧ (∃ s, loadScenario (Scenario c) = Ok s ∧ Requests s ≠ [])
  ∧ (1 ≤ Connections c ≤ max_i64)%Z
  ∧ (0 < Duration c ∧ 0 < RequestTimeout c ∧ 0 < ReadyTimeout c)%Z
  ∧ ((∃ cl, Client.New (tunnel_config c) = Ok cl) ↔ Token c ≠ "").
Proof. apply loadConfig_facts. Qed.

(** ** Scenarios *)

Lemma requestFor_rotate s w k i :
  Requests s ≠ [] → (0 ≤ w)%Z → (0 ≤ k)%Z → (w + k + Z.of_nat (length (Requests s)) ≤ 2^63)%Z →
  i < length (Requests s) →
  requestFor s w (k + Z.of_nat i) = rotate (Z.to_nat (w + k)) (Requests s) !! i.
Proof.
  intros Hne Hw Hk Hlt Hi. rewrite lookup_rotate_r by done. unfold requestFor, rotate_nat_add.
  rewrite (proj2 (Nat.eqb_neq _ 0)) by lia. rewrite wrap_i64_small by lia.
  rewrite Z.rem_mod_nonneg by lia. rewrite (proj2 (Z.ltb_ge _ 0)) by (apply Z.mod_pos_bound; lia).
  do 3 f_equal. lia.
Qed.

(** The load is the scenario's mix: every worker's requests are always defined, and
    any of its windows as long as the scenario's list of requests, at any point, sends
    each entry of the list exactly once; for the mixed scenario that is sixteen fast
    requests, three of bytes and one stream. *)
Theorem requestFor_fair s w k :
  Requests s ≠ [] → (0 ≤ w)%Z → (0 ≤ k)%Z → (w + k + Z.of_nat (length (Requests s)) ≤ 2^63)%Z →
  ∃ sent, mapM (λ i, requestFor s w (k + Z.of_nat i)) (seq 0 (length (Requests s))) = Some sent
    ∧ sent ≡ₚ Requests s.
Proof.
  intros Hne Hw Hk Hlt. exists (rotate (Z.to_nat (w + k)) (Requests s)). split.
  - apply mapM_Some. apply Forall2_same_length_lookup_2.
    { by rewrite length_seq, length_rotate. }
    intros i j x [-> Hi]%lookup_seq Hx. rewrite requestFor_rotate by done. exact Hx.
  - unfold rotate. by rewrite Permutation_app_comm, take_drop.
Qed.
End perf.

(** ** Examples *)

Import Scenario.

Definition perf_arguments : list string :=
  ["--public-host"; "Demo.example.com"; "--public-domain=example.com"; "-connections"; "0x10";
   "--duration=1.5s"; "--scenario"; " Fast "].

Example perf_config_witness :
  ∃ c, loadConfig perf_arguments (λ _, "") = Ok c ∧ Connections c = 16%Z
    ∧ Duration c = 1500000000%Z ∧ EdgeAddr c = "edge.example.com:443"
    ∧ ∃ s, loadScenario (Scenario c) = Ok s ∧ Requests s ≠ [].
Proof.
  eexists. split; [vm_compute; reflexivity|]. do 3 (split; [reflexivity|]).
  apply (perf_config perf_arguments (λ _, "")). vm_compute. reflexivity.
Defined.

Example requestFor_fair_witness :
  ∃ sent, mapM (λ i, requestFor (mkScenario "mixed" mixed_requests) 7 (100 + Z.of_nat i)) (seq 0 20) = Some sent
    ∧ sent ≡ₚ mixed_requests.
Proof. apply (requestFor_fair (mkScenario "mixed" mixed_requests) 7 100); vm_compute; done. Defined.
End PerfClient.
