(* ===== verification/PerfLoad.v ===== *)
(** * cmd/perf-client/main.go: [runLoad], its workers and the collector.

    The goroutines of a load test: the workers, the one that waits for the timer, the one
    that closes the channel of results once the workers are done, and the loop that
    records them.  A step is one channel operation, [select] or call to the outside. *)

From S2P Require Import Prelude GoStrings GoFlag GoNumbers Hostnames Proto Headers Channels.
From S2P Require Import ResponseState Server Steps Scenario ResponseWriter Client DemoClient.
From S2P Require Import PerfStats PerfClient.

Module PerfLoad.
Import PerfStats.

(** ** Starting *)

Inductive start_err :=
| ConnectionsNotPositive
| DurationNotPositive
| FactoryRequired
| FactoryNil (worker : nat).

(** The clients the factory makes, up to the first nil; [made] says whether the client
    of a worker is not nil. *)
Fixpoint make_clients (made : nat → bool) (worker remaining : nat) : result start_err unit :=
  match remaining with
  | O => Ok tt
  | S remaining => if made worker then make_clients made (S worker) remaining
                   else Prelude.Err (FactoryNil worker)
  end.

Definition start_load (connections duration : Z) (factory : option (nat → bool))
    : result start_err nat :=
  _ ← guard_err (connections <=? 0)%Z ConnectionsNotPositive;
  _ ← guard_err (duration <=? 0)%Z DurationNotPositive;
  match factory with
  | None => Prelude.Err FactoryRequired
  | Some made =>
    let n := Z.to_nat connections in
    _ ← make_clients made 0 n; Ok n
  end.

(** ** The goroutines *)

Inductive worker_pc :=
| WCheck (iteration : nat)                      (** the [select] with a default *)
| WRequest (iteration : nat)                    (** inside [doRequest] *)
| WSend (iteration : nat) (r : requestResult)   (** the [select] that sends the result *)
| WDone.                                        (** after [wg.Done] *)

Record load := mkLoad {
  ctx : option GoError;
  timer : bool;                     (** the goroutine with the timer is waiting *)
  stopCh : bool;                    (** closed *)
  workers : list worker_pc;
  results : list requestResult;     (** chan, capacity twice the workers *)
  closed : bool;                    (** [results] is closed *)
  recorded : list requestResult;
  returned : bool;
  panicked : bool }.                (** a send on a closed channel *)

Inductive label :=
| LCancel (e : GoError)             (** the context ends *)
| LTimer                            (** the timer fires *)
| LTimerCtx
| LReturn (i : nat)                 (** a worker sees the end of the context or the stop *)
| LNext (i : nat)                   (** a worker takes the default arm *)
| LResult (i : nat) (r : requestResult)
| LSend (i : nat)
| LDrop (i : nat)                   (** a worker gives up its result for the context *)
| LClose
| LCollect.

Definition set_worker (w : load) (i : nat) (pc : worker_pc) : load :=
  mkLoad (ctx w) (timer w) (stopCh w) (<[i := pc]> (workers w)) (results w) (closed w)
    (recorded w) (returned w) (panicked w).

(** The workers have to stop. *)
Definition stopping (w : load) : bool := bool_decide (is_Some (ctx w)) || stopCh w.

Definition all_done (w : load) : bool :=
  forallb (λ pc, match pc with WDone => true | _ => false end) (workers w).

Definition worker_step (w : load) (l : label) : option load :=
  match l with
  | LReturn i =>
    pc ← workers w !! i;
    match pc with WCheck _ => if stopping w then Some (set_worker w i WDone) else None | _ => None end
  | LNext i =>
    pc ← workers w !! i;
    match pc with
    | WCheck n => if stopping w then None else Some (set_worker w i (WRequest n))
    | _ => None
    end
  | LResult i r =>
    pc ← workers w !! i;
    match pc with WRequest n => Some (set_worker w i (WSend n r)) | _ => None end
  | LSend i =>
    pc ← workers w !! i;
    match pc with
    | WSend n r =>
      if closed w then
        Some (mkLoad (ctx w) (timer w) (stopCh w) (workers w) (results w) true (recorded w)
                (returned w) true)
      else
        q ← chan_send (2 * length (workers w)) (results w) r;
        let w := set_worker w i (WCheck (S n)) in
        Some (mkLoad (ctx w) (timer w) (stopCh w) (workers w) q (closed w) (recorded w)
                (returned w) (panicked w))
    | _ => None
    end
  | LDrop i =>
    pc ← workers w !! i;
    match pc with WSend _ _ => _ ← ctx w; Some (set_worker w i WDone) | _ => None end
  | _ => None
  end.

Definition exec (w : load) (l : label) : option load :=
  match l with
  | LCancel e =>
    match ctx w with
    | Some _ => None
    | None => Some (mkLoad (Some e) (timer w) (stopCh w) (workers w) (results w) (closed w)
                      (recorded w) (returned w) (panicked w))
    end
  | LTimer =>
    if timer w then Some (mkLoad (ctx w) false true (workers w) (results w) (closed w)
                            (recorded w) (returned w) (panicked w))
    else None
  | LTimerCtx =>
    if timer w then _ ← ctx w; Some (mkLoad (ctx w) false (stopCh w) (workers w) (results w) (closed w)
                            (recorded w) (returned w) (panicked w))
    else None
  | LClose =>
    if all_done w && negb (closed w)
    then Some (mkLoad (ctx w) (timer w) (stopCh w) (workers w) (results w) true (recorded w)
                 (returned w) (panicked w))
    else None
  | LCollect =>
    if returned w then None
    else
      match chan_recv (results w) with
      | Some (r, q) => Some (mkLoad (ctx w) (timer w) (stopCh w) (workers w) q (closed w)
                               (recorded w ++ [r]) (returned w) (panicked w))
      | None => if closed w then Some (mkLoad (ctx w) (timer w) (stopCh w) (workers w) [] true
                               (recorded w) true (panicked w))
                else None
      end
  | _ => worker_step w l
  end.

Fixpoint run (w : load) (ls : list label) : option load :=
  match ls with
  | [] => Some w
  | l :: ls => w ← exec w l; run w ls
  end.

(** [runLoad] with [n] clients. *)
Definition init_load (n : nat) : load :=
  mkLoad None true false (replicate n (WCheck 0)) [] false [] false false.

(** The results the requests of a schedule have. *)
Definition produced (ls : list label) : list requestResult :=
  omap (λ l, match l with LResult _ r => Some r | _ => None end) ls.

(** ** Nothing is lost, and everything ends *)

(** The result a worker holds. *)
Definition held (pc : worker_pc) : list requestResult :=
  match pc with WSend _ r => [r] | _ => [] end.

(** The steps a worker still takes when it has to stop, counting a result it sends
    twice. *)
Definition steps_left (pc : worker_pc) : nat :=
  match pc with WCheck _ => 1 | WRequest _ => 4 | WSend _ _ => 3 | WDone => 0 end.

Definition flag_left (b : bool) : nat := if b then 0 else 1.

(** The steps the whole load still takes when it has to stop. *)
Definition measure (w : load) : nat :=
  sum_list_with steps_left (workers w) + length (results w) + flag_left (closed w)
  + flag_left (returned w) + flag_left (negb (timer w)) + flag_left (bool_decide (is_Some (ctx w))).

Definition is_done (pc : worker_pc) : nat := match pc with WDone => 1 | _ => 0 end.

(** [h] is what has been produced, [n] the number of workers. *)
Record load_ok (n : nat) (h : list requestResult) (w : load) : Prop := {
  load_workers : length (workers w) = n;
  load_queue : length (results w) ≤ 2 * n;
  load_panic : panicked w = false;
  load_closed : closed w = true → ∀ i pc, workers w !! i = Some pc → pc = WDone;
  load_returned : returned w = true → closed w = true ∧ results w = [];
  load_kept : ∃ dropped, h ≡ₚ (recorded w ++ results w) ++ (workers w ≫= held) ++ dropped
    ∧ (ctx w = None → dropped = [])
    ∧ length dropped ≤ sum_list_with is_done (workers w) }.

Lemma all_done_true w : all_done w = true ↔ ∀ i pc, workers w !! i = Some pc → pc = WDone.
Proof.
  unfold all_done. rewrite forallb_forall. setoid_rewrite <-list_elem_of_In. split.
  - intros Hw i pc Hpc%list_elem_of_lookup_2%Hw. by destruct pc.
  - intros Hw pc (i & ->%Hw)%list_elem_of_lookup. done.
Qed.

Lemma held_insert ws i x y :
  ws !! i = Some x → (<[i:=y]> ws ≫= held) ++ held x ≡ₚ (ws ≫= held) ++ held y.
Proof.
  revert i. induction ws as [|z ws IH]; intros [|i] Hx; simplify_eq/=.
  - rewrite <-!app_assoc, (Permutation_app_comm (held y)), (Permutation_app_comm (held x)).
    by rewrite <-!app_assoc, (Permutation_app_comm (held x)).
  - by rewrite <-!app_assoc, (IH _ Hx).
Qed.

Lemma done_bound ws : sum_list_with is_done ws ≤ length ws.
Proof. induction ws as [|[] ws IH]; simpl; lia. Qed.

(** The steps of a worker that leave the channels alone. *)
Lemma load_ok_worker n h w i x y :
  load_ok n h w → workers w !! i = Some x → x ≠ WDone →
  ∃ dropped,
    h ++ held y ≡ₚ (recorded w ++ results w) ++ (<[i:=y]> (workers w) ≫= held) ++ held x ++ dropped
    ∧ (ctx w = None → dropped = [])
    ∧ length dropped ≤ sum_list_with is_done (workers w)
    ∧ sum_list_with is_done (<[i:=y]> (workers w)) = sum_list_with is_done (workers w) + is_done y
    ∧ closed w = false ∧ length (<[i:=y]> (workers w)) = n.
Proof.
  intros [Hlen Hq Hp Hcl Hret (dropped & Hh & Hctx & Hd)] Hi Hx. exists dropped.
  pose proof (held_insert _ _ _ y Hi) as Hb.
  pose proof (sum_list_with_insert is_done _ _ _ y Hi) as Hn.
  split_and!; try done.
  - rewrite (app_assoc (_ ≫= held) (held x)), Hb, Hh, <-!app_assoc.
    by rewrite (Permutation_app_comm dropped (held y)).
  - destruct x; simpl in *; lia || done.
  - destruct (closed w); [|done]. by destruct Hx; apply (Hcl eq_refl i).
  - by rewrite length_insert.
Qed.

Lemma exec_ok n h w l w' :
  load_ok n h w → exec w l = Some w' → load_ok n (h ++ produced [l]) w'.
Proof.
  intros Hok. pose proof Hok as [Hlen Hq Hp Hcl Hret (dropped & Hh & Hctx & Hd)].
  destruct l as [e| | |i|i|i r|i|i| |]; simpl; unfold produced; simpl; rewrite ?app_nil_r.
  - destruct (ctx w) eqn:Ec; [done|]. intros [= <-]. constructor; simpl; try done.
    exists dropped. split_and!; try done.
  - destruct (timer w); [|done]. intros [= <-]. constructor; simpl; eauto.
  - destruct (timer w); [|done]. intros (e & He & [= <-])%bind_Some.
    constructor; simpl; eauto.
  - intros (pc & Hi & Hs)%bind_Some. destruct pc as [k| | |]; try done.
    destruct (stopping w); [|done]. injection Hs as <-.
    destruct (load_ok_worker n h w i _ WDone Hok Hi ltac:(done))
      as (d & Hh' & Hc & Hd' & Hn & Hcl' & Hl).
    constructor; simpl; try done; [by rewrite Hcl'|].
    exists d. simpl in *. rewrite app_nil_r in Hh'. split_and!; [done|done|lia].
  - intros (pc & Hi & Hs)%bind_Some. destruct pc as [k| | |]; try done.
    destruct (stopping w); [done|]. injection Hs as <-.
    destruct (load_ok_worker n h w i _ (WRequest k) Hok Hi ltac:(done))
      as (d & Hh' & Hc & Hd' & Hn & Hcl' & Hl).
    constructor; simpl; try done; [by rewrite Hcl'|].
    exists d. simpl in *. rewrite app_nil_r in Hh'. split_and!; [done|done|lia].
  - intros (pc & Hi & Hs)%bind_Some. destruct pc as [|k| |]; try done. injection Hs as <-.
    destruct (load_ok_worker n h w i _ (WSend k r) Hok Hi ltac:(done))
      as (d & Hh' & Hc & Hd' & Hn & Hcl' & Hl).
    constructor; simpl; try done; [by rewrite Hcl'|].
    exists d. simpl in *. split_and!; [done|done|lia].
  - intros (pc & Hi & Hs)%bind_Some. destruct pc as [| |k r|]; try done.
    destruct (load_ok_worker n h w i _ (WCheck (S k)) Hok Hi ltac:(done))
      as (d & Hh' & Hc & Hd' & Hn & Hcl' & Hl).
    rewrite Hcl' in Hs. apply bind_Some in Hs as (q & Hsend & [= <-]).
    apply chan_send_Some in Hsend as [Hlt ->]. rewrite Hlen in Hlt.
    constructor; simpl; try done; [rewrite length_app; simpl; lia| |].
    + intros Hr. destruct (Hret Hr) as [? _]. congruence.
    + exists d. simpl in *. rewrite app_nil_r in Hh'. split_and!; [|done|lia].
      rewrite Hh', <-!app_assoc. do 2 f_equiv.
      by rewrite (Permutation_app_comm [r]), <-app_assoc, (Permutation_app_comm d).
  - intros (pc & Hi & Hs)%bind_Some. destruct pc as [| |k r|]; try done.
    apply bind_Some in Hs as (e & He & [= <-]).
    destruct (load_ok_worker n h w i _ WDone Hok Hi ltac:(done))
      as (d & Hh' & Hc & Hd' & Hn & Hcl' & Hl).
    constructor; simpl; try done; [by rewrite Hcl'|].
    exists ([r] ++ d). simpl in *. rewrite app_nil_r in Hh'. split_and!; [done|congruence|lia].
  - destruct (all_done w && negb (closed w)) eqn:E; [|done]. intros [= <-].
    apply andb_true_iff in E as [Hall Hcl'%negb_true_iff].
    pose proof (proj1 (all_done_true w) Hall).
    constructor; simpl; try done; [|by exists dropped].
    intros Hr. destruct (Hret Hr). congruence.
  - destruct (returned w) eqn:Er; [done|].
    destruct (chan_recv (results w)) as [[r q]|] eqn:Eq.
    + intros [= <-]. apply chan_recv_Some in Eq. rewrite Eq in *.
      constructor; simpl in *; try done; try lia.
      exists dropped. split_and!; try done. by rewrite <-(app_assoc (recorded w) [r]).
    + assert (results w = []) as Enil by (destruct (results w); done).
      destruct (closed w) eqn:Ec; [|done]. intros [= <-]. rewrite Enil in *.
      constructor; simpl in *; try done; try lia. by exists dropped.
Qed.

Lemma run_ok n h w ls w' : load_ok n h w → run w ls = Some w' → load_ok n (h ++ produced ls) w'.
Proof.
  revert h w. induction ls as [|l ls IH]; intros h w Hw; simpl.
  { intros [= <-]. by rewrite app_nil_r. }
  intros (w1 & Hl & Hr)%bind_Some. pose proof (exec_ok n h w l w1 Hw Hl) as Hw1.
  pose proof (IH _ _ Hw1 Hr) as Hok. rewrite <-app_assoc in Hok.
  unfold produced in *. by rewrite <-omap_app in Hok.
Qed.

Lemma init_ok n : load_ok n [] (init_load n).
Proof.
  constructor; simpl; try done.
  - apply length_replicate.
  - lia.
  - exists []. simpl. split_and!; [|done|lia].
    rewrite app_nil_r. by induction n.
Qed.

Lemma returned_idle n h w :
  load_ok n h w → returned w = true →
  ∃ dropped, h ≡ₚ recorded w ++ dropped ∧ (ctx w = None → dropped = []) ∧ length dropped ≤ n.
Proof.
  intros [Hlen _ _ Hcl Hret (d & Hh & Hc & Hd)] Hr. destruct (Hret Hr) as [Hclosed Hq].
  exists d. split_and!; [|done|pose proof (done_bound (workers w)); lia].
  rewrite Hh, Hq, app_nil_r.
  assert (workers w ≫= held = []) as ->; [|done].
  specialize (Hcl Hclosed). clear -Hcl. induction (workers w) as [|pc ws IH]; [done|].
  simpl. rewrite (Hcl 0 pc eq_refl). simpl. apply IH. intros i. apply (Hcl (S i)).
Qed.

(** C28. A load test counts what it measured: in any interleaving of the workers, the
    timer, the collector and the end of the context, no worker ever sends on the closed
    channel of results, and when [runLoad] returns, every result is recorded exactly once
    if the context has not ended; if it has, at most one result per worker is missing.
    The summary's totals are those of the recorded results. *)
Theorem load_counts n ls w host name duration start :
  run (init_load n) ls = Some w → (Z.of_nat (length ls) < 2^63)%Z →
  panicked w = false
  ∧ (returned w = true →
     (ctx w = None → recorded w ≡ₚ produced ls)
     ∧ (∃ lost, produced ls ≡ₚ recorded w ++ lost ∧ length lost ≤ n)
     ∧ ∃ s0 s, newLoadSummary host name (Z.of_nat n) duration start = Some s0
         ∧ record_all s0 (recorded w) = Some s
         ∧ TotalRequests s = Z.of_nat (length (recorded w))
         ∧ (SuccessfulResponses s + RequestErrors s = TotalRequests s)%Z).
Proof.
  intros Hr Hlt. pose proof (run_ok n [] _ _ _ (init_ok n) Hr) as Hok. simpl in Hok.
  split; [apply Hok|]. intros Hret.
  destruct (returned_idle n _ w Hok Hret) as (d & Hh & Hc & Hd). split_and!.
  - intros E. by rewrite Hh, (Hc E), app_nil_r.
  - by exists d.
  - destruct (new_summarises host name (Z.of_nat n) duration start) as (s0 & H0 & Hs0).
    destruct (record_all_summarises [] (recorded w) s0 Hs0) as (s & Hs & Hsum).
    { apply Permutation_length in Hh. rewrite length_app in Hh.
      assert (length (produced ls) ≤ length ls) by apply length_omap_le. simpl. lia. }
    exists s0, s. split_and!; [done..|apply Hsum|].
    rewrite (sum_success _ _ Hsum), (sum_errors _ _ Hsum), (sum_total _ _ Hsum).
    apply count_partition.
Qed.

(** ** Every load ends *)

Lemma measure_step n h w l w' :
  load_ok n h w → stopping w = true → exec w l = Some w' →
  measure w' < measure w ∧ stopping w' = true.
Proof.
  intros Hok Hst. pose proof Hst as Hst0. unfold measure. unfold stopping in Hst |- *.
  assert (∀ i x y, workers w !! i = Some x → steps_left y < steps_left x →
    sum_list_with steps_left (<[i:=y]> (workers w)) + (steps_left x - steps_left y)
    = sum_list_with steps_left (workers w)) as Hsum.
  { intros i x y Hi Hlt. pose proof (sum_list_with_insert steps_left _ _ _ y Hi). lia. }
  destruct l as [e| | |i|i|i r|i|i| |]; simpl.
  - destruct (ctx w) eqn:Ec; [done|]. intros [= <-]. simpl. split; [lia|done].
  - destruct (timer w); [|done]. intros [= <-]. simpl. rewrite orb_true_r. split; [lia|done].
  - destruct (timer w); [|done]. intros (e & He & [= <-])%bind_Some. simpl. split; [lia|done].
  - intros (pc & Hi & Hs)%bind_Some. destruct pc as [k| | |]; try done.
    rewrite Hst0 in Hs. injection Hs as <-. simpl.
    pose proof (Hsum i _ WDone Hi ltac:(simpl; lia)). simpl in *. split; [lia|done].
  - intros (pc & Hi & Hs)%bind_Some. destruct pc as [k| | |]; try done. by rewrite Hst0 in Hs.
  - intros (pc & Hi & Hs)%bind_Some. destruct pc as [|k| |]; try done. injection Hs as <-. simpl.
    pose proof (Hsum i _ (WSend k r) Hi ltac:(simpl; lia)). simpl in *. split; [lia|done].
  - intros (pc & Hi & Hs)%bind_Some. destruct pc as [| |k r|]; try done.
    destruct (load_ok_worker n h w i _ (WCheck (S k)) Hok Hi ltac:(done)) as (_ & _ & _ & _ & _ & Hcl & _).
    rewrite Hcl in Hs. apply bind_Some in Hs as (q & Hsend & [= <-]).
    apply chan_send_Some in Hsend as [_ ->]. simpl. rewrite Hcl, length_app.
    pose proof (Hsum i _ (WCheck (S k)) Hi ltac:(simpl; lia)). simpl in *. split; [lia|done].
  - intros (pc & Hi & Hs)%bind_Some. destruct pc as [| |k r|]; try done.
    apply bind_Some in Hs as (e & He & [= <-]). simpl.
    pose proof (Hsum i _ WDone Hi ltac:(simpl; lia)). simpl in *. split; [lia|done].
  - destruct (all_done w && negb (closed w)) eqn:E; [|done]. intros [= <-].
    apply andb_true_iff in E as [_ Hcl%negb_true_iff]. rewrite Hcl. simpl. split; [lia|done].
  - destruct (returned w); [done|].
    destruct (chan_recv (results w)) as [[r q]|] eqn:Eq.
    + intros [= <-]. apply chan_recv_Some in Eq. rewrite Eq. simpl. split; [lia|done].
    + destruct (results w); [|done]. destruct (closed w); [|done]. intros [= <-]. simpl. split; [lia|done].
Qed.

Lemma measure_bound n h w : load_ok n h w → measure w ≤ 6 * n + 4.
Proof.
  intros [Hlen Hq _ _ _ _]. unfold measure.
  assert (sum_list_with steps_left (workers w) ≤ 4 * length (workers w)) as Hs.
  { clear. induction (workers w) as [|[] ws IH]; simpl; lia. }
  assert (∀ b, flag_left b ≤ 1) as Hf by (intros []; simpl; lia).
  pose proof (Hf (closed w)). pose proof (Hf (returned w)). pose proof (Hf (negb (timer w))).
  pose proof (Hf (bool_decide (is_Some (ctx w)))). lia.
Qed.

Lemma run_measure n h w ls w' :
  load_ok n h w → stopping w = true → run w ls = Some w' →
  length ls + measure w' ≤ measure w ∧ stopping w' = true.
Proof.
  revert h w. induction ls as [|l ls IH]; intros h w Hok Hst; simpl.
  { intros [= <-]. split; [lia|done]. }
  intros (w1 & Hl & Hr)%bind_Some. destruct (measure_step n h w l w1 Hok Hst Hl) as [Hlt Hst1].
  destruct (IH _ _ (exec_ok n h w l w1 Hok Hl) Hst1 Hr). split; [lia|done].
Qed.

(** A load that has not returned goes on. *)
Lemma load_progress n h w :
  load_ok n h w → 0 < n → stopping w = true → returned w = false →
  ∃ l w', exec w l = Some w' ∧ ∀ e, l ≠ LCancel e.
Proof.
  intros Hok Hn Hst Hret. pose proof Hok as [Hlen Hq _ Hcl _ _].
  destruct (all_done w) eqn:Hall.
  - destruct (closed w) eqn:Ec.
    + exists LCollect. simpl. rewrite Hret, Ec. destruct (results w); eexists; by split.
    + exists LClose. simpl. rewrite Hall, Ec. eexists. by split.
  - assert (∃ i pc, workers w !! i = Some pc ∧ pc ≠ WDone) as (i & pc & Hi & Hpc).
    { apply not_true_iff_false in Hall. rewrite all_done_true in Hall.
      destruct (decide (Exists (λ pc, is_done pc = 0) (workers w))) as [Hex|Hex].
      - apply Exists_exists in Hex as (pc & (i & Hi)%list_elem_of_lookup & Hd).
        exists i, pc. split; [done|]. by intros ->.
      - exfalso. apply Hall. intros i pc Hi. destruct pc; try done; exfalso; apply Hex, Exists_exists;
          eexists; (split; [by eapply list_elem_of_lookup_2|done]). }
    destruct pc as [k|k|k r|]; [| | |done].
    + exists (LReturn i). simpl. rewrite Hi. simpl. rewrite Hst. eexists. by split.
    + exists (LResult i (mkResult 0 0 0 None)). simpl. rewrite Hi. eexists. by split.
    + destruct (load_ok_worker n h w i _ WDone Hok Hi ltac:(done)) as (_ & _ & _ & _ & _ & Ec & _).
      destruct (decide (length (results w) < 2 * length (workers w))) as [Hlt|Hge].
      * exists (LSend i). simpl. rewrite Hi. simpl. rewrite Ec.
        rewrite (proj2 (chan_send_Some _ _ _ _) (conj Hlt eq_refl)). eexists. by split.
      * exists LCollect. simpl. rewrite Hret. destruct (results w); [simpl in *; lia|].
        eexists. by split.
Qed.

(** C27. A load test ends: once the timer has fired or the context has ended, whatever the
    scheduler does, at most six steps per worker and four more can follow, and as long as
    [runLoad] has not returned there is one that needs no further cancellation; so it
    returns, with no worker left blocked on the channel of results. *)
Theorem load_ends n ls w :
  0 < n → run (init_load n) ls = Some w → stopping w = true →
  ∀ ls' w', run w ls' = Some w' →
    length ls' ≤ 6 * n + 4
    ∧ (returned w' = false → ∃ l w'', exec w' l = Some w'' ∧ ∀ e, l ≠ LCancel e)
    ∧ (returned w' = true → ∀ i pc, workers w' !! i = Some pc → pc = WDone).
Proof.
  intros Hn Hr Hst ls' w' Hr'. pose proof (run_ok n [] _ _ _ (init_ok n) Hr) as Hok.
  pose proof (run_ok n _ _ _ _ Hok Hr') as Hok'.
  destruct (run_measure n _ w ls' w' Hok Hst Hr') as [Hm Hst'].
  pose proof (measure_bound n _ w Hok). split_and!; [lia| |].
  - intros Hret. by eapply load_progress.
  - intros Hret. apply (load_closed n _ w' Hok'). by apply (load_returned n _ w' Hok').
Qed.

(** ** A load of two workers *)

Definition one_result : requestResult := mkResult 200 18 1000 None.

Definition two_workers : list label :=
  [LNext 0; LNext 1; LResult 1 one_result; LSend 1; LResult 0 one_result; LTimer; LSend 0; LReturn 1;
   LCollect; LReturn 0; LClose; LCollect; LCollect].

Example load_counts_witness :
  ∃ w, run (init_load 2) two_workers = Some w ∧ returned w = true
    ∧ recorded w ≡ₚ [one_result; one_result].
Proof.
  destruct (run (init_load 2) two_workers) as [w|] eqn:E; [|by vm_compute in E].
  exists w. split; [reflexivity|].
  destruct (load_counts 2 two_workers w "" "" 1 0 E) as [_ Hret]; [vm_compute; reflexivity|].
  assert (returned w = true ∧ ctx w = None) as [H1 H2]
    by (vm_compute in E; injection E as <-; split; reflexivity).
  split; [exact H1|]. destruct (Hret H1) as [Hrec _]. exact (Hrec H2).
Defined.

Example load_ends_witness :
  ∃ w, run (init_load 2) (take 6 two_workers) = Some w ∧ stopping w = true
    ∧ ∀ ls' w', run w ls' = Some w' → length ls' ≤ 16.
Proof.
  eexists. split; [vm_compute; reflexivity|]. split; [reflexivity|].
  intros ls' w' Hr. refine (proj1 (load_ends 2 (take 6 two_workers) _ _ eq_refl eq_refl ls' w' Hr)). lia.
Defined.
End PerfLoad.
