(* ===== verification/PerfRun.v ===== *)
(** * cmd/perf-client/main.go: [run], waiting for the tunnel and the HTTP clients.

    What HTTP requests, timers and the tunnel answer is a parameter. *)

From S2P Require Import Prelude GoStrings GoFlag GoNumbers Hostnames Proto Headers Channels.
From S2P Require Import ResponseState Server Steps Scenario ResponseWriter Client DemoClient.
From S2P Require Import PerfStats PerfClient PerfLoad.

Module PerfRun.
Import PerfClient.

(** ** The HTTP clients *)

(** The fields of [http.Transport] the command sets; [HTTP2] says that a TLS connection may
    be upgraded by [TLSNextProto]. *)
Record transport := mkTransport {
  ForceAttemptHTTP2 : bool;
  MaxIdleConns : Z;
  MaxIdleConnsPerHost : Z;
  MaxConnsPerHost : Z;
  IdleConnTimeout : Z;
  TLSHandshakeTimeout : Z;
  ResponseHeaderTimeout : Z;
  HTTP2 : bool }.

Definition newHTTP11Transport (requestTimeout : Z) : transport :=
  mkTransport false 1 1 1 (30 * PerfStats.second) requestTimeout requestTimeout false.

(** The transport of the client and its timeout. *)
Definition newPublicClient (requestTimeout : Z) (given : option transport) : transport * Z :=
  (match given with
   | None => newHTTP11Transport requestTimeout
   | Some t =>
     mkTransport false 1 1 1
       (if IdleConnTimeout t <=? 0 then 30 * PerfStats.second else IdleConnTimeout t)%Z
       (if TLSHandshakeTimeout t <=? 0 then requestTimeout else TLSHandshakeTimeout t)%Z
       (if ResponseHeaderTimeout t <=? 0 then requestTimeout else ResponseHeaderTimeout t)%Z
       false
   end, requestTimeout).

(** Every worker has one HTTP/1.1 connection, and every wait of it is bounded. *)
Lemma newPublicClient_one_connection requestTimeout given :
  (0 < requestTimeout)%Z →
  let t := (newPublicClient requestTimeout given).1 in
  MaxConnsPerHost t = 1%Z ∧ HTTP2 t = false ∧ ForceAttemptHTTP2 t = false
  ∧ (0 < IdleConnTimeout t ∧ 0 < TLSHandshakeTimeout t ∧ 0 < ResponseHeaderTimeout t)%Z.
Proof.
  intros Ht. destruct given as [t|]; simpl; [|by split_and!].
  destruct (Z.leb_spec (IdleConnTimeout t) 0), (Z.leb_spec (TLSHandshakeTimeout t) 0),
    (Z.leb_spec (ResponseHeaderTimeout t) 0); by split_and!.
Qed.

(** [doRequest]: the outcomes of [NewRequest], [Do] and the copy of the body. *)
Definition doRequest (latency : Z) (newRequest : option GoError)
    (response : GoError + Z * (Z * option GoError)) : PerfStats.requestResult :=
  match newRequest with
  | Some e => PerfStats.mkResult 0 0 latency (Some e)
  | None =>
    match response with
    | inl e => PerfStats.mkResult 0 0 latency (Some e)
    | inr (status, (written, readErr)) => PerfStats.mkResult status written latency readErr
    end
  end.

(** ** [waitForReady] *)

(** How the [select] of a turn goes. *)
Inductive ready_wait := ReadyCtx (e : GoError) | ReadyTunnel (e : option GoError) | ReadyTimer.

(** One turn: what [NewRequest] answers, the status of the response if there is one, and
    the wait. *)
Record turn := mkTurn { t_request : option GoError; t_status : option Z; t_wait : ready_wait }.

Inductive ready_err := ReadyError (e : GoError) | TunnelExited (e : option GoError).

Definition health_url (baseURL : string) : string := TrimRight1 baseURL "/" +:+ "/healthz".

Definition poll_interval (pollInterval : Z) : Z :=
  if (pollInterval <=? 0)%Z then defaultReadyPollPeriod else pollInterval.

Fixpoint waitForReady (turns : list turn) : option (option ready_err) :=
  match turns with
  | [] => None
  | t :: turns =>
    match t_request t with
    | Some e => Some (Some (ReadyError e))
    | None =>
      if bool_decide (t_status t = Some 200%Z) then Some None
      else match t_wait t with
           | ReadyCtx e => Some (Some (ReadyError e))
           | ReadyTunnel e => Some (Some (TunnelExited e))
           | ReadyTimer => waitForReady turns
           end
    end
  end.

(** A turn after which the loop goes on. *)
Definition goes_on (t : turn) : Prop :=
  t_request t = None ∧ t_status t ≠ Some 200%Z ∧ t_wait t = ReadyTimer.

Lemma waitForReady_ready turns :
  waitForReady turns = Some None ↔
  ∃ before t after, turns = before ++ t :: after ∧ Forall goes_on before
    ∧ t_request t = None ∧ t_status t = Some 200%Z.
Proof.
  induction turns as [|t turns IH]; simpl.
  { split; [done|]. by intros ([|] & ? & ? & ? & _). }
  destruct (t_request t) eqn:Er.
  { split; [done|]. intros ([|b before] & t' & after & [= -> ->] & Hb & Ht & _); [congruence|].
    apply Forall_cons in Hb as [[Hb _] _]. congruence. }
  case_bool_decide as Hs.
  { split; [|done]. intros _. by exists [], t, turns. }
  assert (∀ x : option ready_err, t_wait t ≠ ReadyTimer → x ≠ None → Some x = Some None ↔ ∃ before t0 after,
    t :: turns = before ++ t0 :: after ∧ Forall goes_on before
    ∧ t_request t0 = None ∧ t_status t0 = Some 200%Z) as Hstop.
  { intros x Hw Hx. split; [by intros [= ->]|].
    intros ([|b before] & t' & after & [= <- ->] & Hb & _ & Ht); [done|].
    apply Forall_cons in Hb as [(_ & _ & Hb) _]. done. }
  destruct (t_wait t) eqn:Ew; [by apply Hstop..|]. rewrite IH. split.
  - intros (before & t' & after & -> & Hb & Ht). exists (t :: before), t', after.
    split; [done|]. split; [|done]. by constructor.
  - intros ([|b before] & t' & after & [= <- ->] & Hb & Ht); [naive_solver|].
    apply Forall_cons in Hb as [_ Hb]. by exists before, t', after.
Qed.

(** ** [run] *)

Inductive event :=
| TunnelStarted
| Loading (workers : nat)
| Cancelled
| ClientClosed
| TunnelAwaited
| Printed.

Inductive run_err :=
| LoadFailed (e : load_err)
| ClientFailed (msg : string)
| NotReady (e : ready_err)
| StartFailed (e : PerfLoad.start_err).

(** [waitForClientExit] on a channel that is not nil; the outcome is the tunnel's answer
    or nil for the timeout. *)
Definition waitForClientExit (outcome : option (option GoError)) : option GoError :=
  match outcome with
  | Some (Some e) => if errors_Is e (Some ContextCanceled) then None else Some e
  | _ => None
  end.

Definition stop_tunnel : list event := [Cancelled; ClientClosed; TunnelAwaited].

Section run.
Context `{UnicodeData}.

(** [ready] is what [waitForReady] answers.  The clients of the workers are never nil. *)
Definition run (args : list string) (getenv : string → string) (ready : option ready_err)
    : list event * option run_err :=
  match loadConfig args getenv with
  | Err e => ([], Some (LoadFailed e))
  | Ok cfg =>
    match loadScenario (Scenario cfg) with
    | Err e => ([], Some (LoadFailed e))
    | Ok scn =>
      match Client.New (tunnel_config cfg) with
      | Err e => ([], Some (ClientFailed e))
      | Ok _ =>
        match ready with
        | Some e => (TunnelStarted :: stop_tunnel, Some (NotReady e))
        | None =>
          match PerfLoad.start_load (Connections cfg) (Duration cfg) (Some (λ _, true)) with
          | Err e => (TunnelStarted :: stop_tunnel, Some (StartFailed e))
          | Ok n => (TunnelStarted :: Loading n :: stop_tunnel ++ [Printed], None)
          end
        end
      end
    end
  end.

Lemma make_clients_true worker remaining :
  PerfLoad.make_clients (λ _, true) worker remaining = Ok tt.
Proof. revert worker. induction remaining as [|n IH]; intros worker; simpl; [done|apply IH]. Qed.

Lemma start_load_ok connections duration :
  (0 < connections)%Z → (0 < duration)%Z →
  PerfLoad.start_load connections duration (Some (λ _, true)) = Ok (Z.to_nat connections).
Proof.
  intros Hc Hd. unfold PerfLoad.start_load.
  rewrite (proj2 (Z.leb_gt connections 0)), (proj2 (Z.leb_gt duration 0)) by done. simpl.
  by rewrite make_clients_true.
Qed.

(** The performance client stops what it starts: for every command line, environment
    and answer of the outside, [run] never fails because of a scenario or a number of
    workers after the configuration was loaded; a tunnel that was started is cancelled,
    closed and awaited before [run] returns; the load has as many workers as configured
    and runs only after the public host was ready; and a summary is printed exactly when
    [run] succeeds. *)
Theorem perf_run args getenv ready :
  let '(evs, e) := run args getenv ready in
  (TunnelStarted ∈ evs → stop_tunnel `sublist_of` evs)
  ∧ (∀ n, Loading n ∈ evs → ready = None
       ∧ ∃ c, loadConfig args getenv = Ok c ∧ Z.of_nat n = Connections c)
  ∧ (Printed ∈ evs ↔ e = None)
  ∧ (∀ x, e ≠ Some (StartFailed x))
  ∧ (∀ x, e = Some (LoadFailed x) ↔ loadConfig args getenv = Err x).
Proof.
  unfold run. destruct (loadConfig args getenv) as [c|x] eqn:Hc.
  2: { split_and!; [by intros ?%elem_of_nil|by intros n ?%elem_of_nil| | |]; try done.
       - split; [by intros ?%elem_of_nil|done].
       - naive_solver. }
  destruct (loadConfig_facts _ _ _ Hc) as (_ & (s & Hs & _) & Hconn & (Hd & _) & _).
  rewrite Hs. destruct (Client.New (tunnel_config c)) as [cl|m] eqn:Hcl.
  2: { split_and!; [by intros ?%elem_of_nil|by intros n ?%elem_of_nil| | |]; try done.
       split; [by intros ?%elem_of_nil|done]. }
  destruct ready as [r|].
  { split_and!; try done; [intros _; by apply sublist_cons|set_solver|set_solver]. }
  rewrite start_load_ok by lia. split_and!; try done.
  - intros _. apply sublist_cons, sublist_cons. by apply sublist_inserts_r.
  - intros n Hn. split; [done|]. exists c. split; [done|].
    assert (n = Z.to_nat (Connections c)) as -> by set_solver. lia.
  - set_solver.
Qed.

(** The performance client waits for a healthy host: [waitForReady] succeeds exactly
    when, after some number of polls that were all built, did not answer 200 and were
    followed by the whole interval, a poll answers 200; the end of the context or of the
    tunnel in between is an error. *)
Theorem waitForReady_correct turns :
  (waitForReady turns = Some None ↔
   ∃ before t after, turns = before ++ t :: after ∧ Forall goes_on before
     ∧ t_request t = None ∧ t_status t = Some 200%Z)
  ∧ ∀ before t after e, turns = before ++ t :: after → Forall goes_on before →
      t_request t = None → t_status t ≠ Some 200%Z →
      (t_wait t = ReadyCtx e → waitForReady turns = Some (Some (ReadyError e)))
      ∧ (∀ te, t_wait t = ReadyTunnel te → waitForReady turns = Some (Some (TunnelExited te))).
Proof.
  split; [apply waitForReady_ready|]. intros before t after e -> Hb Hr Hs.
  induction Hb as [|b before (Hb1 & Hb2 & Hb3) _ IH]; simpl.
  - rewrite Hr, bool_decide_false by done. split; [by intros ->|by intros te ->].
  - rewrite Hb1, bool_decide_false, Hb3 by done. exact IH.
Qed.
End run.
End PerfRun.
