(* ===== verification/PerfReport.v ===== *)
(** * cmd/perf-client/main.go: the printed summary.

    [loadSummary.String] with the parts of [time] and [fmt] it uses: durations rounded to
    a microsecond, rates with two decimals, statuses in ascending order. *)

From S2P Require Import Prelude GoStrings GoFlag GoNumbers GoFmt Hostnames Proto Headers Channels.
From S2P Require Import ResponseState Server Steps Scenario ResponseWriter Client DemoClient.
From S2P Require Import PerfStats.
From Stdlib Require Import Floats.SpecFloat.

Module PerfReport.
Import PerfStats.
Local Open Scope Z_scope.

(** ** Durations *)

(** [Duration.Round(time.Microsecond)] of a positive duration. *)
Definition round_microsecond (d : Z) : Z :=
  let r := d mod microsecond in
  if r + r <? microsecond then d - r
  else let d1 := wrap_i64 (d + microsecond - r) in if d <? d1 then d1 else 2^63 - 1.

Definition humanDuration (value : Z) : string :=
  if value <=? 0 then "0s" else Duration_String (round_microsecond value).

(** ** Rates *)

Definition f64_add : float64 → float64 → float64 := SFadd 53 1024.

(** [Duration.Seconds]. *)
Definition duration_seconds (d : Z) : float64 :=
  f64_add (f64_of_Z (Z.quot d second)) (f64_div (f64_of_Z (Z.rem d second)) (f64_of_Z second)).

Definition requestsPerSecond (total elapsed : Z) : float64 :=
  if elapsed <=? 0 then f64_of_Z 0 else f64_div (f64_of_Z total) (duration_seconds elapsed).
Definition bytesPerSecond (total elapsed : Z) : float64 :=
  if elapsed <=? 0 then f64_of_Z 0 else f64_div (f64_of_Z total) (duration_seconds elapsed).

(** A quotient rounded to the nearest integer, halves to the even one. *)
Definition round_half_even (n d : Z) : Z :=
  let q := n `div` d in
  let r := n mod d in
  if 2 * r <? d then q else if d <? 2 * r then q + 1 else if Z.even q then q else q + 1.

(** [%.2f] of a finite number that is not negative. *)
Definition fmt_2f (x : float64) : string :=
  let hundredths :=
    match x with
    | S754_finite _ m e =>
      if 0 <=? e then Z.pos m * 2 ^ e * 100 else round_half_even (Z.pos m * 100) (2 ^ (- e))
    | _ => 0
    end in
  Itoa (hundredths `div` 100) +:+ "." +:+ Itoa (hundredths `div` 10 mod 10)
  +:+ Itoa (hundredths mod 10).

(** ** The summary *)

Definition summary_String (s : loadSummary) : string :=
  let e := elapsed s in
  let h := LatencyHistogram s in
  let percentile p := humanDuration (Percentile h (f64_of_Z p)) in
  "performance test summary" +:+ lf
  +:+ "host: " +:+ PublicHost s +:+ lf
  +:+ "scenario: " +:+ PerfStats.Scenario s +:+ lf
  +:+ "connections: " +:+ Itoa (Connections s) +:+ lf
  +:+ "duration: planned=" +:+ humanDuration (PlannedDuration s)
      +:+ " observed=" +:+ humanDuration e +:+ lf
  +:+ "requests: total=" +:+ Itoa (TotalRequests s) +:+ " success=" +:+ Itoa (SuccessfulResponses s)
      +:+ " errors=" +:+ Itoa (RequestErrors s) +:+ lf
  +:+ "throughput: req/s=" +:+ fmt_2f (requestsPerSecond (TotalRequests s) e)
      +:+ " bytes/s=" +:+ fmt_2f (bytesPerSecond (ResponseBytes s) e) +:+ lf
  +:+ (if 0 <? TotalRequests s then
         "latency: min=" +:+ humanDuration (MinLatency s) +:+ " avg=" +:+ humanDuration (avgLatency s)
         +:+ " p50=" +:+ percentile 50 +:+ " p95=" +:+ percentile 95 +:+ " p99=" +:+ percentile 99
         +:+ " max=" +:+ humanDuration (MaxLatency s) +:+ lf
       else "")
  +:+ (if (0 <? Z.of_nat (size (StatusCounts s)))
       then "statuses: " +:+ formatStatusCounts (StatusCounts s) +:+ lf else "").

(** ** Rounding is bounded *)

(** What [humanDuration] prints is a whole number of microseconds, at most half a
    microsecond from the value. *)
Lemma round_microsecond_close d :
  0 < d → d < 2^62 →
  round_microsecond d mod microsecond = 0 ∧ Z.abs (round_microsecond d - d) * 2 ≤ microsecond.
Proof.
  intros Hd Hlt. unfold round_microsecond, microsecond.
  pose proof (Z.mod_pos_bound d 1000 eq_refl) as Hm. pose proof (Z.div_mod d 1000 ltac:(done)) as Hq.
  destruct (Z.ltb_spec (d mod 1000 + d mod 1000) 1000).
  - split; [|lia]. replace (d - d mod 1000) with (d `div` 1000 * 1000) by lia. apply Z.mod_mul. done.
  - rewrite wrap_i64_small by lia. rewrite (proj2 (Z.ltb_lt _ _)) by lia. split; [|lia].
    replace (d + 1000 - d mod 1000) with ((d `div` 1000 + 1) * 1000) by lia. by apply Z.mod_mul.
Qed.

Example humanDuration_examples :
  humanDuration <$> [0; 1; 499; 500; 1500; 1234567; 90 * second; 3723004000000; 1000 * millisecond + 500]
  = ["0s"; "0s"; "0s"; String "049" (String "194" (String "181" "s"));
     String "050" (String "194" (String "181" "s")); "1.235ms"; "1m30s"; "1h2m3.004s"; "1.000001s"].
Proof. vm_compute. reflexivity. Qed.

(** A printed duration is read back by [ParseDuration]. *)
Example humanDuration_read :
  ParseDuration <$> (humanDuration <$> [1000; 1234567; 90 * second; 3723004000000; 60000001000])
  = [Some 1000; Some 1235000; Some (90 * second); Some 3723004000000; Some 60000001000].
Proof. vm_compute. reflexivity. Qed.

Example fmt_2f_examples :
  fmt_2f <$> [requestsPerSecond 10 (4 * second); requestsPerSecond 1 (3 * second);
              requestsPerSecond 7 0; bytesPerSecond 123456789 (1500 * millisecond)]
  = ["2.50"; "0.33"; "0.00"; "82304526.00"].
Proof. vm_compute. reflexivity. Qed.

Example formatStatusCounts_example :
  formatStatusCounts {[ 503 := 2; 200 := 10; 404 := 1 ]} = "200=10 404=1 503=2".
Proof. vm_compute. reflexivity. Qed.
End PerfReport.
